(* ===== verification/_CoqProject ===== *)
-Q . S2P
Prelude.v
Durable.v
AtomicFile.v
GoText.v
EnvStore.v
Insertion.v
InsertionSpec.v
Binding.v
Permission.v
PermissionSpec.v
Approval.v
ApprovalSpec.v
Metadata.v
TaskState.v
TaskStore.v
TaskSample.v
TaskLog.v
TaskSpec.v
TaskHistory.v
TaskNotify.v
TaskLists.v
TaskWork.v
Update.v
UpdateSpec.v
WindowsUpdate.v
Retention.v
RetentionSpec.v
FileTree.v
Patch.v
PatchSpec.v
PatchPlan.v
PatchSample.v
ActivityEvent.v
ActivityCalls.v
ActivityCallsSpec.v
ActivityView.v
ActivityViewSpec.v
ActivityLog.v
ActivityLines.v
ActivityLogSpec.v
ActivityRedact.v
ActivityRedactSpec.v
ActivityStore.v
ActivityStoreSpec.v
ActivityQueue.v
ActivityQueueSpec.v
ActivityQueueAnswers.v
ActivityQueueLimits.v
ActivityQueueProgress.v
ActivitySample.v
ActivityQueueSample.v
