(* ===== verification/Prelude.v ===== *)
(** * A verification development for AgentDock

    AgentDock runs tools for language models on a user's machine.  Its own core
    logic is in the stores under src/internal that must survive errors, crashes
    and concurrent processes: tasks, the queue of user supplements, permissions
    and approvals, staged updates and the cleanup of old versions, environment
    files, the helper that patches several files in WSL at once, and the journal
    of everything that is executed.  The development models these packages and proves what they promise.

    ** The parts and the files

    Foundations.
    - Prelude: record update, the error monad [result], [reject] for a guard
      with an error, stable sorting ([sort_by]: sort.SliceStable), time.
    - Durable: the monad [io D] of programs over a disk [D] that are run against
      a list of faults, one per durable step; the triples [spec] quantify over
      every list.  A fault is an error before or after the step took effect, or
      the death of the process before or after it.
    - AtomicFile (fs/atomicfile): the replacement of a file as a program of
      system calls; it refines the one step [io_write] that the stores use.
    - GoText: bytes, UTF-8 and the string functions of Go; textutil.
    - FileTree: a file system with directories whose last changes, and whose
      unsynced contents, a loss of power can take away.

    Tasks (taskstate).  A task has steps and threads, ends with a final review
    and a completion, and is kept as one file with one more per thread.
    - Metadata, TaskState: the data and the body of every transition, a function
      between loading a task and saving it (model.go, thread.go, validation.go,
      store_transition.go and others).
    - TaskStore: the files, the write-ahead record of a task and its threads,
      the log of a deletion, the operations (store.go, thread_storage.go,
      management.go, notifications.go, index.go).
    - TaskLog: the store as its _view_, the files with pending records applied;
      the record is the only commit point ([bundle_atomic]).
    - TaskSpec, TaskHistory: well-formedness and the order in which tasks may
      change, kept by every operation under every fault ([task_life_cycle],
      [finished_task_was_reviewed]).
    - TaskNotify, TaskLists, TaskWork: notifications are announced once, lists
      and pages against reference definitions, checkpoints as maps over steps.
    - TaskSample: a task for the witnesses.

    Supplements (insertion).  Insertion is the durable queue and its operations
    (store.go, delivery.go, view.go); InsertionSpec its invariant, the life cycle
    of a supplement, what a reservation, a receipt and the public view promise.

    Permissions (permission, with Binding for activity/model.go).  Permission is
    the policy and the decision on a call; PermissionSpec what a decision and a
    change of the policy promise.  Approval is the store of pending approvals;
    ApprovalSpec shows that an approval is dispatched at most once.

    Updates (updateengine, updateplatform, generationretention).  Update is the
    journal, the results and the arbiter over a record of operations, the
    platform driver; UpdateSpec states the laws a driver promises as a class
    and proves that the arbiter refines the abstract protocol of an update.
    WindowsUpdate is the Windows driver, which keeps the laws.  Retention and
    RetentionSpec are the cleanup of old generations: it never removes what an
    update may still start.

    Environment files (envstore).  EnvStore: the parser, the printer, the round
    trip, and the atomic changes of one variable.

    Patches (wslfilehelper).  Patch is the transaction of transaction.go as it
    is written; PatchSpec the states it goes through and what each step, the
    rollback and the recovery make of them; PatchPlan derives PatchSpec's
    assumptions from the normalisation of a request, and has the theorems: a
    patch is there as a whole or not at all, and what it reports is true.
    PatchSample evaluates a run and two that show limits of the code.

    Activity (activity).  Every execution is recorded as events in a journal,
    from which the calls of the tools are rebuilt.
    - ActivityEvent: an event, what is accepted and what is read back (model.go,
      measurements.go, append_validation.go).
    - ActivityLog: the journal, segment files of lines and sequence.json: batches
      of events, rotation, the repair of a torn line, retention, cleanup, and the
      readers (store.go).  ActivityLines is about the bytes of a segment;
      ActivityLogSpec has the invariant under errors, deaths and losses of power:
      what was acknowledged is found until it is pruned, and no number is given
      twice ([acknowledged_events_survive]).
    - ActivityRedact: what is kept out of the journal (redact.go, prepareAppend):
      secrets in the texts of an event, and the lines of a private key in what a
      process writes; ActivityRedactSpec: no known secret is in a text that is
      recorded ([prepared_event_hides]), no line of a key is passed on
      ([line_buffer_hides_keys]) unless a line is too long.
    - ActivityStore: pages of events and the projection of the store;
      ActivityStoreSpec: the pages are the matching events ([query_pages_cover]).
    - ActivityCalls: the calls, as a projection of the events (calls.go,
      call_transitions.go, legacy_projection.go); ActivityCallsSpec: what the
      projection keeps, above all that a call that has ended stays ended within
      one projection ([terminal_call_final]), and that one which is built anew from
      a pruned journal may show it otherwise ([rebuilt_call_reopens]).
    - ActivityView: pages of calls and their management (calls.go,
      call_management.go); ActivityViewSpec: pages against a reference definition
      ([call_pages_cover]), the reach of a change ([manage_concerns_descendants]),
      and a call that no page shows.
    - ActivityQueue: the goroutines in front of the journal (the queue of store.go,
      append_budget.go, resource_mutex.go) as a state and its actions, one for
      each critical section, channel operation or system call of a goroutine, of
      a reader, of another process or of a context.  ActivityQueueSpec has the
      states that every interleaving leads to ([reach]) and the invariant of the
      requests; ActivityQueueAnswers: callers are told what the journal said of
      their own event ([appends_answered_truly]); ActivityQueueLimits: the budget
      ([append_budget_kept]) and mutual exclusion ([one_writer]);
      ActivityQueueProgress: every Append ends ([appends_complete]).
    - ActivitySample, ActivityQueueSample: a journal that is torn and repaired, and
      a schedule of three Appends, for the witnesses.

    ** How the code is modelled

    A handler is one definition with its guards in the order of the code, named
    as in the source.  A document is held decoded; what is checked of its
    encoded length is a parameter, so sizes and limits are in the model.  Random
    bytes, readings of the clock and looks at a context are arguments.  Code
    that is not in the repository is an argument too (the simple case folding of
    Unicode, path functions of Windows, SHA-256, encoding/json, the commands to
    a service manager, what a regular expression matches), with what is relied
    on as named hypotheses that a witness instantiates.

    Fuel: the loop over runes has the length of the string ([GoText.chunks]),
    the parser of environment files one turn per byte and a last one
    ([parse_terminates] proves that it suffices), the walk over the calls below
    a call one turn per call ([manage_concerns_descendants] excludes that it runs
    out), the groups of a batch one turn per event; other recursion is
    structural.

    Goroutines: an action is atomic where the code holds a lock or makes one
    system call.  The writer's own steps between two of them change nothing that
    others see and are one action with the next, which loses no behaviour.  A
    timer is an action that may come at any time.

    ** Bounds of the models

    Encodings: a record is read back as it was written; for the journal of a
    patch this is a hypothesis about text that JSON can carry, which a request,
    itself decoded from JSON, consists of.  FileTree keeps the order of changes
    (ext4 with ordered metadata), does not follow symbolic links and has no
    concurrent writer besides the power.  [patch_all_or_nothing] assumes a state
    in which nothing waits to be synced or recovered ([calm]), fresh names, no
    target inside another or in the state directory, and a state directory
    that can be synced; without the last, [unsynced_journal_loses_file] shows a
    lost file.  The directories of the other stores hold regular files only.
    The journal of events is written byte by byte; a loss of power may leave any
    earlier contents of its newest segment since the last sync, but keeps the
    entries of its directory, the segments that were synced before a new one was
    begun, and sequence.json.  Its encoding is the class [EventCodec] with the
    laws that are relied on (one line, an object, no event in a torn line); Go's
    maps are walked in any order ([MapOrder]).

    ** Not modelled

    The installer, the desktop programs, the tools offered to models, the HTTP
    server, the clients of other protocols and the release scripts are calls to
    the operating system and the network.  Of the modelled packages: the HTTP
    polling of an update, the macOS driver, the external reviewer of approvals,
    the process environment, the reading and searching operations of the WSL
    helper; the blobs of the payloads of events.
    The stores of plugins, skills, conversations and evolution have state of
    their own that is not modelled. *)

From Stdlib Require Export ZArith Lia Bool Ascii String.
From stdpp Require Export base tactics option list strings gmap.
From stdpp Require Import sorting.

Declare Scope dock_scope.
Delimit Scope dock_scope with dock.
#[global] Open Scope dock_scope.

(** ** Record update

    [r <| f := v |>] replaces the field [f] of [r], [r <| f ::= g |>] maps
    [g] over it.  A record type declares its eta-expansion once, as an
    instance of [Eta]; the update of a field is found by abstracting the
    field's projection in that expansion. *)

Class Eta (R : Type) : Type := eta_expand : R → R.

Class Setter {R T : Type} (proj : R → T) : Type := over : (T → T) → R → R.
Arguments over {R T} proj {_} f r /.

Ltac build_setter :=
  match goal with
  | |- @Setter ?R ?T ?p =>
      let e := constr:(@eta_expand R _) in
      let e := eval hnf in e in
      match eval pattern p in e with
      | ?body _ =>
          let s := constr:(fun (f : T → T) (r : R) => body (fun r' : R => f (p r')) r) in
          let s := eval cbv beta in s in
          exact s
      end
  end.

#[export] Hint Extern 0 (Setter _) => build_setter : typeclass_instances.

Notation "r <| f ::= g |>" := (over f g r)
  (at level 1, left associativity, f at level 10, g at level 99, format "r  <| f  ::=  g |>") : dock_scope.
Notation "r <| f := v |>" := (over f (λ _, v) r)
  (at level 1, left associativity, f at level 10, v at level 99, format "r  <| f  :=  v |>") : dock_scope.

(** Go's [==] and [!=] on strings. *)
Notation "a =s b" := (String.eqb a b) (at level 70, no associativity) : dock_scope.
Notation "a ≠s b" := (negb (String.eqb a b)) (at level 70, no associativity) : dock_scope.

Definition one_of (s : string) (options : list string) : bool := existsb (String.eqb s) options.

(** The order of [sort.Strings]. *)
Definition string_le (a b : string) : Prop := String.leb a b = true.
#[export] Instance string_le_dec a b : Decision (string_le a b) := bool_eq_dec _ _.

(** ** Errors

    A Go function that returns [(T, error)] is a [result T]; the error is its
    message.  [reject c msg] is the guard [if c { return errors.New(msg) }]. *)

Inductive result (A : Type) : Type :=
  | Ok (a : A)
  | Err (msg : string).
Arguments Ok {A} a.
Arguments Err {A} msg.

#[export] Instance result_ret : MRet result := λ A a, Ok a.
#[export] Instance result_bind : MBind result := λ A B k m,
  match m with Ok a => k a | Err e => Err e end.

Definition reject (c : bool) (msg : string) : result unit :=
  if c then Err msg else Ok tt.

Definition is_ok {A} (r : result A) : bool :=
  match r with Ok _ => true | Err _ => false end.

Section Results.
Context {A B : Type}.
Implicit Types (m : result A) (k : A → result B).

Lemma bind_Ok m k b : m ≫= k = Ok b ↔ ∃ a, m = Ok a ∧ k a = Ok b.
Proof. destruct m as [a|e]; cbn; naive_solver. Qed.

Lemma bind_Err m k e : m ≫= k = Err e ↔ m = Err e ∨ ∃ a, m = Ok a ∧ k a = Err e.
Proof. destruct m as [a|e']; cbn; naive_solver. Qed.

Lemma Ok_bind a k : Ok a ≫= k = k a.
Proof. reflexivity. Qed.

Lemma reject_bind_Ok c msg (r : result B) b :
  (reject c msg ;; r) = Ok b ↔ c = false ∧ r = Ok b.
Proof. destruct c; cbn; naive_solver. Qed.

Lemma if_err_Ok (c : bool) msg (r : result B) b :
  (if c then Err msg else r) = Ok b ↔ c = false ∧ r = Ok b.
Proof. destruct c; naive_solver. Qed.
End Results.

Lemma mapM_Ok_Forall2 {A B} (f : A → result B) l k :
  mapM f l = Ok k → Forall2 (λ a b, f a = Ok b) l k.
Proof.
  revert k; induction l as [|a l IH]; intros k H; cbn in H.
  - injection H as <-. constructor.
  - apply bind_Ok in H as (b & Hb & H). apply bind_Ok in H as (bs & Hbs & H).
    injection H as <-. constructor; auto.
Qed.

(** [ok_inv H] takes apart a successful run [H : body = Ok r]: every guard
    that did not fire becomes a hypothesis, every bound value gets a name. *)
Ltac ok_step H :=
  lazymatch type of H with
  | Ok _ = Ok _ => injection H as H; try subst
  | Err _ = Ok _ => discriminate H
  | (reject _ _ ;; _) = Ok _ =>
      let G := fresh "G" in apply reject_bind_Ok in H as [G H]; ok_step H
  | (if _ then Err _ else _) = Ok _ =>
      let G := fresh "G" in apply if_err_Ok in H as [G H]; ok_step H
  | (_ ≫= _) = Ok _ =>
      let a := fresh "a" in let E := fresh "E" in
      apply bind_Ok in H as (a & E & H); ok_step H
  | reject _ _ = Ok _ => unfold reject in H
  | _ => idtac
  end.
Tactic Notation "ok_inv" hyp(H) := cbv beta zeta in H; ok_step H.

(** ** Pointers to values that may be nil *)

Definition is_nil {A} (o : option A) : bool := match o with None => true | Some _ => false end.
Definition not_nil {A} (o : option A) : bool := negb (is_nil o).

Definition is_empty {A} (l : list A) : bool := match l with [] => true | _ => false end.

(** ** Machine integers *)

(** [u64 x] is a Go uint64 after wrap-around. *)
Definition u64 (x : Z) : Z := (x mod 2 ^ 64)%Z.

(** ** Times

    A [time.Time] is a number of nanoseconds since the zero time; a
    [time.Duration] is a 64-bit number of nanoseconds, and the difference of
    two times saturates. *)
Definition Time : Type := Z.
Definition Second : Z := 1000000000.
Definition max_duration : Z := 9223372036854775807.
Definition time_sub (a b : Time) : Z := Z.max (- max_duration - 1) (Z.min max_duration (a - b)).
Definition IsZero (t : Time) : bool := (t =? 0)%Z.

(** ** Loops over a slice of records

    [sweep f items] is the loop [for i := range items { item := &items[i] ... }]
    whose body [f] updates one record, says whether it is now dirty, and
    appends to the result. *)
Section Sweep.
Context {I R : Type}.

Fixpoint sweep (f : I → I * bool * list R) (items : list I) : list I * bool * list R :=
  match items with
  | [] => ([], false, [])
  | item :: rest =>
      let '(item', dirty, out) := f item in
      let '(rest', dirty', out') := sweep f rest in
      (item' :: rest', dirty || dirty', out ++ out')
  end.

Lemma sweep_eq f items :
  sweep f items = (map (λ i, (f i).1.1) items, existsb (λ i, (f i).1.2) items,
                   concat (map (λ i, (f i).2) items)).
Proof.
  induction items as [|item rest IH]; cbn; [done|]. rewrite IH.
  by destruct (f item) as [[item' dirty] out].
Qed.
End Sweep.

(** ** Sorting by a comparison

    [sort_by less l] is what [sort.SliceStable] makes of [l]; where two
    elements are equal for [less], [sort.Slice] leaves their order open. *)
Section SortBy.
Context {A : Type} (less : A → A → bool).

Fixpoint insert_by (x : A) (l : list A) : list A :=
  match l with
  | [] => [x]
  | y :: l' => if less y x then y :: insert_by x l' else x :: l
  end.

Fixpoint sort_by (l : list A) : list A :=
  match l with
  | [] => []
  | x :: l' => insert_by x (sort_by l')
  end.

Lemma insert_by_perm x l : insert_by x l ≡ₚ x :: l.
Proof.
  induction l as [|y l IH]; cbn; [done|]. destruct (less y x); [|done].
  rewrite IH. apply Permutation_swap.
Qed.

Lemma sort_by_perm l : sort_by l ≡ₚ l.
Proof. induction l as [|x l IH]; cbn; [done|]. by rewrite insert_by_perm, IH. Qed.

Lemma length_sort_by l : length (sort_by l) = length l.
Proof. apply Permutation_length, sort_by_perm. Qed.

Lemma elem_of_sort_by x l : x ∈ sort_by l ↔ x ∈ l.
Proof. by rewrite sort_by_perm. Qed.

(** [x] may stand before [y]. *)
Definition in_order (x y : A) : Prop := less y x = false.

Hypothesis less_asym : ∀ x y, less x y = true → less y x = false.
Hypothesis less_trans : ∀ x y z, in_order x y → in_order y z → in_order x z.

Lemma insert_by_sorted x l : StronglySorted in_order l → StronglySorted in_order (insert_by x l).
Proof.
  induction 1 as [|y l Hl IH Hy]; cbn; [repeat constructor|]. destruct (less y x) eqn:E.
  - constructor; [done|]. apply Forall_forall. intros z Hz.
    rewrite insert_by_perm in Hz. apply elem_of_cons in Hz as [->|Hz].
    + unfold in_order. by apply less_asym.
    + by eapply Forall_forall in Hy.
  - constructor; [by constructor|]. constructor; [done|].
    eapply Forall_impl; [exact Hy|]. intros z Hz. by eapply less_trans.
Qed.

Lemma sort_by_sorted l : StronglySorted in_order (sort_by l).
Proof. induction l as [|x l IH]; cbn; [constructor|by apply insert_by_sorted]. Qed.

(** Sorting a list that grows at its end: the new element goes behind those
    that are not after it. *)
Fixpoint insert_last (x : A) (l : list A) : list A :=
  match l with
  | [] => [x]
  | y :: l' => if less x y then x :: l else y :: insert_last x l'
  end.

Lemma less_strict x y z : less x y = true → less y z = true → less x z = true.
Proof.
  intros Hxy Hyz. destruct (less x z) eqn:E; [done|]. assert (in_order y x) as Hyx.
  { eapply (less_trans y z x); [by apply less_asym|exact E]. }
  unfold in_order in Hyx. congruence.
Qed.

Lemma insert_commute a x l : insert_by a (insert_last x l) = insert_last x (insert_by a l).
Proof.
  induction l as [|y l IH]; cbn; [by destruct (less x a)|].
  destruct (less x y) eqn:Exy, (less y a) eqn:Eya; cbn; rewrite ?Exy, ?Eya.
  - by rewrite (less_strict x y a).
  - by destruct (less x a) eqn:Exa; cbn; rewrite ?Exa, ?Exy, ?Eya.
  - by rewrite IH.
  - assert (less x a = false) as Exa by exact (less_trans a y x Eya Exy). cbn. by rewrite Exa, ?Exy.
Qed.

Lemma sort_by_snoc l x : sort_by (l ++ [x]) = insert_last x (sort_by l).
Proof. induction l as [|a l IH]; cbn; [done|]. by rewrite IH, insert_commute. Qed.

Lemma sort_by_id l : StronglySorted in_order l → sort_by l = l.
Proof.
  induction 1 as [|x l Hl IH Hx]; cbn; [done|]. rewrite IH. destruct l as [|y l]; cbn; [done|].
  by rewrite (Forall_inv Hx : less y x = false).
Qed.

Lemma take_insert_last k x l : take k (insert_last x (take k l)) = take k (insert_last x l).
Proof.
  revert k. induction l as [|y l IH]; intros [|k]; cbn; [done..|]. destruct (less x y); cbn.
  - destruct k; cbn; [done|]. by rewrite take_take, Nat.min_l by lia.
  - by rewrite IH.
Qed.

Lemma take_sorted k l : StronglySorted in_order l → StronglySorted in_order (take k l).
Proof.
  intros Hl. revert k. induction Hl as [|x l Hl IH Hx]; intros [|k]; cbn; [constructor..|].
  constructor; [apply IH|by apply Forall_take].
Qed.

(** Keeping the [k] least so far is keeping the [k] least. *)
Lemma take_sort_snoc k l x : take k (sort_by (take k (sort_by l) ++ [x])) = take k (sort_by (l ++ [x])).
Proof.
  rewrite !sort_by_snoc, (sort_by_id (take k (sort_by l))) by apply take_sorted, sort_by_sorted. apply take_insert_last.
Qed.

(** Nothing that was cut off goes before what was kept. *)
Lemma take_sort_least k l x y : x ∈ take k (sort_by l) → y ∈ drop k (sort_by l) → in_order x y.
Proof.
  intros Hx Hy. pose proof (sort_by_sorted l) as Hs. rewrite <- (take_drop k (sort_by l)) in Hs. revert Hx Hs.
  generalize (take k (sort_by l)) as l1. induction l1 as [|z l1 IH]; intros Hx Hs; [by apply not_elem_of_nil in Hx|].
  inversion Hs as [|? ? Hs' Hz]; subst. apply elem_of_cons in Hx as [->|Hx]; [|by apply IH].
  eapply Forall_forall in Hz; [exact Hz|]. apply elem_of_app. by right.
Qed.
End SortBy.

(** ** Maps

    Go visits the keys of a map in any order. *)
Class MapOrder : Type := mkMapOrder {
  iterate : gset string → list string;
  iterate_perm : ∀ keys, iterate keys ≡ₚ elements keys;
}.
