(* ===== verification/Durable.v ===== *)
(** * Durable: programs that replace files on a disk that can fail

    The stores of AgentDock (task state, update engine, insertion queue,
    permission policy, environment files) keep their state in files that they
    replace through internal/fs/atomicfile/write.go.  A replacement writes a
    temporary file, syncs it, renames it over the target and then syncs the
    parent directory, so from the caller's side one replacement can
    - succeed;
    - return an error with the old file in place (anything before the rename);
    - return an error with the new file in place (the directory sync failed);
    - not return, the process having died before the rename or after it.
    [io D] is the monad of programs over a disk of type [D] run against a list
    of such faults, one per replacement; an exhausted list means success. *)

From S2P Require Import Prelude.

Inductive fault : Type :=
  | Committed
  | Refused
  | Uncertain
  | Crashed
  | Severed.

Inductive outcome (A : Type) : Type :=
  | Done (a : A)
  | Failed (msg : string)
  | Dead.
Arguments Done {A} a.
Arguments Failed {A} msg.
Arguments Dead {A}.

Record run (D A : Type) : Type := mkRun {
  run_outcome : outcome A;
  run_disk : D;
  run_faults : list fault;
}.
Arguments mkRun {D A} _ _ _.
Arguments run_outcome {D A} _.
Arguments run_disk {D A} _.
Arguments run_faults {D A} _.

Lemma run_eta {D A} (r : run D A) : r = mkRun (run_outcome r) (run_disk r) (run_faults r).
Proof. by destruct r. Qed.

(** The run delivered a value. *)
Definition ran {D A} (r : run D A) : bool :=
  match run_outcome r with Done _ => true | _ => false end.

Lemma ran_Done {D A} (r : run D A) :
  ran r = true → ∃ a, r = mkRun (Done a) (run_disk r) (run_faults r).
Proof. destruct r as [[a|e|] d fs]; [by exists a|done..]. Qed.

(** A regular file that holds one JSON document: its size, and its decoded
    content, [None] when it is not a document of the expected type. *)
Record file (A : Type) : Type := mkFile { f_size : Z; f_content : option A }.
Arguments mkFile {A} _ _.
Arguments f_size {A} _.
Arguments f_content {A} _.

Definition io (D A : Type) : Type := D → list fault → run D A.

#[export] Instance io_ret {D} : MRet (io D) := λ A a d fs, mkRun (Done a) d fs.
#[export] Instance io_bind {D} : MBind (io D) := λ A B k m d fs,
  match m d fs with
  | mkRun (Done a) d' fs' => k a d' fs'
  | mkRun (Failed e) d' fs' => mkRun (Failed e) d' fs'
  | mkRun Dead d' fs' => mkRun Dead d' fs'
  end.

Definition io_fail {D A} (msg : string) : io D A := λ d fs, mkRun (Failed msg) d fs.
Definition io_read {D A} (f : D → A) : io D A := λ d fs, mkRun (Done (f d)) d fs.
Definition io_lift {D A} (r : result A) : io D A :=
  match r with Ok a => mret a | Err e => io_fail e end.

(** One replacement of a file; [f] is its effect on the disk. *)
Definition io_write {D} (f : D → D) : io D unit := λ d fs,
  match fs with
  | [] => mkRun (Done tt) (f d) []
  | Committed :: fs => mkRun (Done tt) (f d) fs
  | Refused :: fs => mkRun (Failed "replace atomic file") d fs
  | Uncertain :: fs => mkRun (Failed "sync atomic file parent directory") (f d) fs
  | Crashed :: fs => mkRun Dead d fs
  | Severed :: fs => mkRun Dead (f d) fs
  end.

(** [io_catch m h] runs [h msg] where [m] returned an error; a dead process
    handles nothing. *)
Definition io_catch {D A} (m : io D A) (h : string → io D A) : io D A := λ d fs,
  match m d fs with
  | mkRun (Failed e) d' fs' => h e d' fs'
  | r => r
  end.

(** [io_try m] is [m] whose error is looked at by the caller. *)
Definition io_try {D A} (m : io D A) : io D (result A) := λ d fs,
  match m d fs with
  | mkRun (Done a) d' fs' => mkRun (Done (Ok a)) d' fs'
  | mkRun (Failed e) d' fs' => mkRun (Done (Err e)) d' fs'
  | mkRun Dead d' fs' => mkRun Dead d' fs'
  end.

(** A program on a part of the disk. *)
Definition io_zoom {D E A} (get : D → E) (set : E → D → D) (m : io E A) : io D A := λ d fs,
  let r := m (get d) fs in mkRun (run_outcome r) (set (run_disk r) d) (run_faults r).

(** ** Triples over every fault schedule

    [spec I P m Q]: from a disk that satisfies the invariant [I] and the
    precondition [P], and whatever the faults, the disk satisfies [I] when [m]
    ends, even by an error or a crash, and [Q a] holds where [m] delivers [a]. *)

Section Triples.
Context {D : Type} (I : D → Prop).

Definition spec {A} (P : D → Prop) (m : io D A) (Q : A → D → Prop) : Prop :=
  ∀ d fs, I d → P d →
    I (run_disk (m d fs)) ∧ ∀ a, run_outcome (m d fs) = Done a → Q a (run_disk (m d fs)).

Lemma spec_ret {A} (a : A) (P : D → Prop) (Q : A → D → Prop) :
  (∀ d, I d → P d → Q a d) → spec P (mret a) Q.
Proof. intros H d fs HI HP. split; [done|]. intros a' [= <-]. by apply H. Qed.

Lemma spec_fail {A} e (P : D → Prop) (Q : A → D → Prop) : spec P (io_fail e) Q.
Proof. intros d fs HI HP. split; [done|discriminate]. Qed.

Lemma spec_read {A} (f : D → A) (P : D → Prop) (Q : A → D → Prop) :
  (∀ d, I d → P d → Q (f d) d) → spec P (io_read f) Q.
Proof. intros H d fs HI HP. split; [done|]. intros a' [= <-]. by apply H. Qed.

Lemma spec_lift {A} (r : result A) (P : D → Prop) (Q : A → D → Prop) :
  (∀ a d, r = Ok a → I d → P d → Q a d) → spec P (io_lift r) Q.
Proof. intros H. destruct r; [by apply spec_ret; intros; apply H | apply spec_fail]. Qed.

Lemma spec_write f (P : D → Prop) (Q : unit → D → Prop) :
  (∀ d, I d → P d → I (f d) ∧ Q tt (f d)) → spec P (io_write f) Q.
Proof.
  intros H d fs HI HP. destruct (H d HI HP) as [HI' HQ].
  destruct fs as [|[] fs]; cbn; (split; [done|]); intros [] E; try discriminate; done.
Qed.

Lemma spec_bind {A B} (P : D → Prop) (m : io D A) (k : A → io D B)
    (R : A → D → Prop) (Q : B → D → Prop) :
  spec P m R → (∀ a, spec (R a) (k a) Q) → spec P (m ≫= k) Q.
Proof.
  intros Hm Hk d fs HI HP. destruct (Hm d fs HI HP) as [HI' HR].
  unfold mbind, io_bind. destruct (m d fs) as [[a|e|] d' fs']; cbn in *; [|split; [done|discriminate]..].
  apply Hk; auto.
Qed.

Lemma spec_lift_bind {A B} (P : D → Prop) (r : result A) (k : A → io D B) Q :
  (∀ a, r = Ok a → spec P (k a) Q) → spec P (io_lift r ≫= k) Q.
Proof. intros Hk. destruct r as [a|e]; [exact (Hk a eq_refl)|apply (spec_fail e)]. Qed.

Lemma spec_weaken {A} (P P' : D → Prop) (m : io D A) (Q Q' : A → D → Prop) :
  spec P m Q → (∀ d, I d → P' d → P d) → (∀ a d, I d → Q a d → Q' a d) → spec P' m Q'.
Proof.
  intros H HP HQ d fs HI HP'. destruct (H d fs HI (HP d HI HP')) as [HI' H'].
  split; [done|]. intros a Ha. apply HQ; auto.
Qed.

Lemma spec_if {A} (b : bool) (P : D → Prop) (m1 m2 : io D A) Q :
  (b = true → spec P m1 Q) → (b = false → spec P m2 Q) → spec P (if b then m1 else m2) Q.
Proof. destruct b; auto. Qed.

Lemma spec_catch {A} (P : D → Prop) (m : io D A) (h : string → io D A) Q :
  spec P m Q → (∀ e, spec (λ _, True) (h e) Q) → spec P (io_catch m h) Q.
Proof.
  intros Hm Hh d fs HI HP. destruct (Hm d fs HI HP) as [HI' HQ]. unfold io_catch.
  destruct (m d fs) as [[a|e|] d' fs']; cbn in *; [by split|by apply Hh|by split].
Qed.

Lemma spec_try {A} (P : D → Prop) (m : io D A) Q :
  spec P m Q → spec P (io_try m) (λ r d, match r with Ok a => Q a d | Err _ => True end).
Proof.
  intros Hm d fs HI HP. destruct (Hm d fs HI HP) as [HI' HQ]. unfold io_try.
  destruct (m d fs) as [[a|e|] d' fs']; cbn in *; (split; [done|]); intros b [= <-]; auto.
Qed.

(** A program run on a disk that is known. *)
Lemma spec_at {A} (m : io D A) Q d fs :
  spec (λ d', d' = d) m Q → I d → I (run_disk (m d fs)) ∧ ∀ a, run_outcome (m d fs) = Done a → Q a (run_disk (m d fs)).
Proof. intros Hm HI. by apply Hm. Qed.

(** The whole of a run. *)
Lemma spec_run {A} (P : D → Prop) (m : io D A) Q d fs :
  spec P m Q → I d → P d → I (run_disk (m d fs)) ∧ (∀ a, run_outcome (m d fs) = Done a → Q a (run_disk (m d fs))).
Proof. intros H. apply H. Qed.
End Triples.

(** A stronger invariant, where it holds to begin with. *)
Lemma spec_under {D A} (I0 I P : D → Prop) (m : io D A) Q :
  (∀ d, I0 d → I d) → spec I0 P m Q → spec I (λ d, I0 d ∧ P d) m (λ a d, I0 d ∧ Q a d).
Proof. intros HI H d fs _ [H0 HP]. destruct (H d fs H0 HP) as [H1 H2]. split; [by apply HI|]. intros a Ha. split; [done|by apply H2]. Qed.

Lemma spec_zoom {D E A} (I : D → Prop) (J P : E → Prop) (F : D → Prop) (get : D → E) (set : E → D → D) (m : io E A) Q :
  (∀ d e, get (set e d) = e) → (∀ d e, F d → F (set e d)) → (∀ d e, F d → J e → I (set e d)) →
  spec J P m Q → spec I (λ d, F d ∧ J (get d) ∧ P (get d)) (io_zoom get set m) (λ a d, F d ∧ J (get d) ∧ Q a (get d)).
Proof.
  intros Hget HF HI Hm d fs _ (Hf & HJ & HP). destruct (Hm (get d) fs HJ HP) as [HJ' HQ]. unfold io_zoom. cbn.
  split; [by apply HI|]. intros a Ha. rewrite Hget. auto.
Qed.

(** ** Runs without faults *)

Section Runs.
Context {D : Type}.

Lemma io_bind_Done {A B} (m : io D A) (k : A → io D B) d fs a d' fs' :
  m d fs = mkRun (Done a) d' fs' → (m ≫= k) d fs = k a d' fs'.
Proof. unfold mbind, io_bind. by intros ->. Qed.

(** A bind that delivers a value delivered one at each stage. *)
Lemma io_bind_inv {A B} (m : io D A) (k : A → io D B) d fs b d' fs' :
  (m ≫= k) d fs = mkRun (Done b) d' fs' →
  ∃ a d1 fs1, m d fs = mkRun (Done a) d1 fs1 ∧ k a d1 fs1 = mkRun (Done b) d' fs'.
Proof.
  unfold mbind, io_bind. destruct (m d fs) as [[a|e|] d1 fs1]; [eauto|discriminate..].
Qed.

Lemma io_write_inv f (d : D) fs d' fs' :
  io_write f d fs = mkRun (Done tt) d' fs' → d' = f d.
Proof. destruct fs as [|[] fs]; cbn; by intros [= <- <-]. Qed.

Lemma io_lift_inv {A} (r : result A) (d : D) fs a d' fs' :
  io_lift r d fs = mkRun (Done a) d' fs' → r = Ok a ∧ d' = d ∧ fs' = fs.
Proof. destruct r; cbn; by intros [= <- <- <-]. Qed.
End Runs.

(** Runs the monadic plumbing of a program on a given disk up to its next
    replacement. *)
Ltac io_simpl := cbv beta iota delta [mbind io_bind mret io_ret io_read io_lift io_fail run_outcome run_disk run_faults].

(** ** Triples that follow errors

    [tri P m Q E X]: from a state with [P] and whatever the faults, [Q a] holds
    where [m] delivers [a], [E] where it returns an error, and [X] where the
    process dies. *)

Definition tri {D A} (P : D → Prop) (m : io D A) (Q : A → D → Prop) (E X : D → Prop) : Prop :=
  ∀ d fs, P d →
    match run_outcome (m d fs) with
    | Done a => Q a (run_disk (m d fs))
    | Failed _ => E (run_disk (m d fs))
    | Dead => X (run_disk (m d fs))
    end.

Section Tri.
Context {D : Type}.
Implicit Types (P E X : D → Prop).

Lemma tri_ret {A} (a : A) P (Q : A → D → Prop) E X : (∀ d, P d → Q a d) → tri P (mret a) Q E X.
Proof. intros HQ d fs HP. by apply HQ. Qed.

Lemma tri_fail {A} e P (Q : A → D → Prop) E X : (∀ d, P d → E d) → tri P (io_fail e) Q E X.
Proof. intros HE d fs HP. by apply HE. Qed.

Lemma tri_read {A} (f : D → A) P (Q : A → D → Prop) E X : (∀ d, P d → Q (f d) d) → tri P (io_read f) Q E X.
Proof. intros HQ d fs HP. by apply HQ. Qed.

Lemma tri_bind {A B} (m : io D A) (k : A → io D B) P (R : A → D → Prop) (Q : B → D → Prop) E X :
  tri P m R E X → (∀ a, tri (R a) (k a) Q E X) → tri P (m ≫= k) Q E X.
Proof.
  intros Hm Hk d fs HP. specialize (Hm d fs HP). unfold mbind, io_bind.
  destruct (m d fs) as [[a|e|] d' fs']; cbn in *; [by apply Hk|done..].
Qed.

Lemma tri_conseq {A} (m : io D A) P P' (Q Q' : A → D → Prop) E E' X X' :
  tri P m Q E X → (∀ d, P' d → P d) → (∀ a d, Q a d → Q' a d) → (∀ d, E d → E' d) → (∀ d, X d → X' d) → tri P' m Q' E' X'.
Proof.
  intros Hm HP HQ HE HX d fs HP'. specialize (Hm d fs (HP d HP')). destruct (run_outcome (m d fs)); auto.
Qed.

Lemma tri_pre {A} (m : io D A) P P' (Q : A → D → Prop) E X : tri P m Q E X → (∀ d, P' d → P d) → tri P' m Q E X.
Proof. intros Hm HP. by eapply tri_conseq. Qed.

Lemma tri_try {A} (m : io D A) P (Q : A → D → Prop) E E' X :
  tri P m Q E X → tri P (io_try m) (λ r d, match r with Ok a => Q a d | Err _ => E d end) E' X.
Proof. intros Hm d fs HP. specialize (Hm d fs HP). unfold io_try. by destruct (m d fs) as [[a|e|] d' fs']. Qed.

Lemma tri_catch {A} (m : io D A) (h : string → io D A) P (Q : A → D → Prop) E E' X :
  tri P m Q E X → (∀ e, tri E (h e) Q E' X) → tri P (io_catch m h) Q E' X.
Proof.
  intros Hm Hh d fs HP. specialize (Hm d fs HP). unfold io_catch. destruct (m d fs) as [[a|e|] d' fs']; cbn in *; [done|by apply Hh|done].
Qed.

Lemma tri_lift {A} (r : result A) P (Q : A → D → Prop) E X :
  (∀ a, r = Ok a → ∀ d, P d → Q a d) → (∀ d, P d → E d) → tri P (io_lift r) Q E X.
Proof. intros HQ HE. destruct r; [apply tri_ret; by apply HQ|by apply tri_fail]. Qed.

Lemma tri_pure {A} (m : io D A) (F : Prop) P (Q : A → D → Prop) E X : (F → tri P m Q E X) → tri (λ d, F ∧ P d) m Q E X.
Proof. intros Hm d fs [HF HP]. by apply Hm. Qed.

Lemma tri_exists {A B} (m : io D A) (P : B → D → Prop) (Q : A → D → Prop) E X :
  (∀ b, tri (P b) m Q E X) → tri (λ d, ∃ b, P b d) m Q E X.
Proof. intros Hm d fs [b HP]. by apply (Hm b). Qed.
End Tri.

(** ** System calls *)

(** A system call with an effect, whose error is reported as [msg]. *)
Definition sys {D} (msg : string) (effect : D → D) : io D unit :=
  io_catch (io_write effect) (λ _, io_fail msg).

(** [P] holds whenever the call stops, and [Q] when it delivers. *)
Lemma sys_spec {D} I msg f (P : D → Prop) (Q : unit → D → Prop) :
  (∀ d, I d → P d → I (f d) ∧ Q tt (f d)) → spec I P (sys msg f) Q.
Proof.
  intros H d l HI HP. destruct (H d HI HP) as [HI' HQ].
  destruct l as [|[] l]; cbn; (split; [done|]); intros [] E; try discriminate E; done.
Qed.

(** The state is as it was or as the call makes it. *)
Lemma tri_sys {D} msg f (P E X : D → Prop) (Q : unit → D → Prop) :
  (∀ d, P d → Q tt (f d) ∧ E d ∧ E (f d) ∧ X d ∧ X (f d)) → tri P (sys msg f) Q E X.
Proof. intros H d l HP. destruct (H d HP) as (? & ? & ? & ? & ?). by destruct l as [|[] l]. Qed.
