(* ===== verification/AtomicFile.v ===== *)
(** * AtomicFile: the replacement of a file (internal/fs/atomicfile)

    Models write.go and replace_unix.go as a program of system calls, each of
    which can succeed, fail with or without its effect, or be the last thing
    the process does; a short write is a write of a prefix.  The theorem is
    the refinement on which every store of the development rests: the whole
    program behaves as the one atomic step [io_write] of Durable.v. *)

From S2P Require Import Prelude Durable.

(** The part of the file system a replacement touches: the target and the
    temporary file beside it, each with whether its data has been synced, and
    the program's flag for its handle. *)
Record fs : Type := mkFs {
  fs_target : option (list ascii * bool);
  fs_temp : option (list ascii * bool);
  fs_closed : bool;
}.
#[export] Instance fs_eta : Eta fs := λ d, mkFs (fs_target d) (fs_temp d) (fs_closed d).

(** tmp.Write: the bytes reach the file one after another. *)
Fixpoint write_bytes (data : list ascii) : io fs unit :=
  match data with
  | [] => mret tt
  | c :: rest =>
      sys "write atomic temp file" (λ d, d <| fs_temp ::= fmap (λ '(l, s), (l ++ [c], s)) |>);;
      write_bytes rest
  end.

(** replaceFile: the rename, then the sync of the parent directory. *)
Definition replaceFile : io fs unit :=
  sys "rename" (λ d, d <| fs_target := fs_temp d |> <| fs_temp := None |>);;
  sys "open atomic file parent directory" id;;
  sys "sync atomic file parent directory" id.

(** The deferred cleanup, which runs after the body returned in any way. *)
Definition cleanup : io fs unit :=
  closed ← io_read fs_closed;
  (if (closed : bool) then mret tt
   else io_catch (sys "close atomic temp file during cleanup" id)
          (λ e, sys "remove atomic temp file" (λ d, d <| fs_temp := None |>);; io_fail e));;
  sys "remove atomic temp file" (λ d, d <| fs_temp := None |>).

(** [deferred m c]: [c] runs whatever [m] returned, and an error of either is
    an error of the whole. *)
Definition deferred (m c : io fs unit) : io fs unit := λ d l,
  match m d l with
  | mkRun Dead d' l' => mkRun Dead d' l'
  | mkRun (Done _) d' l' => c d' l'
  | mkRun (Failed e) d' l' => (c;; io_fail e) d' l'
  end.

Definition close_temp : io fs unit := λ d l,
  match sys "close atomic temp file" id d l with
  | mkRun o d' l' => mkRun o (d' <| fs_closed := true |>) l'
  end.

Definition body (data : list ascii) : io fs unit :=
  sys "set atomic temp file mode" id;;
  sys "secure atomic temp file" id;;
  write_bytes data;;
  sys "sync atomic temp file" (λ d, d <| fs_temp ::= fmap (λ '(l, _), (l, true)) |>);;
  close_temp;;
  replaceFile.

Definition writeUsing (path : string) (data : list ascii) : io fs unit :=
  if path =s "" then io_fail "atomic file path is required"
  else
    sys "create atomic file directory" id;;
    sys "create atomic temp file" (λ d, d <| fs_temp := Some ([], false) |> <| fs_closed := false |>);;
    deferred (body data) cleanup.

(** ** The target at every point *)

Section Refinement.
Variable old : option (list ascii * bool).
Variable data : list ascii.

(** The target is untouched, or holds the synced data. *)
Definition intact (d : fs) : Prop := fs_target d = old ∨ fs_target d = Some (data, true).

Definition untouched (d : fs) : Prop := fs_target d = old.

Lemma write_bytes_spec l0 rest :
  spec untouched (λ d, fs_temp d = Some (l0, false)) (write_bytes rest)
    (λ _ d, fs_temp d = Some (l0 ++ rest, false)).
Proof.
  revert l0; induction rest as [|c rest IH]; intros l0; cbn [write_bytes].
  - apply spec_ret. intros d _ ->. by rewrite app_nil_r.
  - eapply spec_bind with (R := λ _ d, fs_temp d = Some (l0 ++ [c], false)).
    + apply sys_spec. intros d Hd Ht. split; [exact Hd|]. cbn. by rewrite Ht.
    + intros _. eapply spec_weaken; [apply (IH (l0 ++ [c]))|by intros d _ ?|]. intros _ d _ ->. by rewrite <- app_assoc.
Qed.

Lemma close_temp_spec P :
  (∀ d, P d → P (d <| fs_closed := true |>)) → spec untouched P close_temp (λ _ d, P d).
Proof.
  intros HP d l HI Hd. unfold close_temp. pose proof (sys_spec untouched "close atomic temp file" id P (λ _ d, P d)) as H.
  destruct (H (λ d H1 H2, conj H1 H2) d l HI Hd) as [H1 H2]. destruct (sys _ _ d l) as [o d' l']. cbn in *.
  split; [done|]. intros a Ha. by eapply HP, H2.
Qed.

(** Up to the rename the target is untouched and the temporary file ends with
    the whole data, synced. *)
Lemma prepared_spec :
  spec untouched (λ d, fs_temp d = Some ([], false))
    (sys "set atomic temp file mode" id;; sys "secure atomic temp file" id;; write_bytes data;;
     sys "sync atomic temp file" (λ d, d <| fs_temp ::= fmap (λ '(l, _), (l, true)) |>);; close_temp)
    (λ _ d, untouched d ∧ fs_temp d = Some (data, true)).
Proof.
  eapply spec_bind with (R := λ _ d, fs_temp d = Some ([], false)); [by apply sys_spec|intros _].
  eapply spec_bind with (R := λ _ d, fs_temp d = Some ([], false)); [by apply sys_spec|intros _].
  eapply spec_bind; [apply (write_bytes_spec [] data)|intros ?].
  eapply spec_bind with (R := λ _ d, untouched d ∧ fs_temp d = Some (data, true)).
  - apply sys_spec. intros d Hd Ht. split; [exact Hd|]. split; [exact Hd|]. cbn. by rewrite Ht.
  - intros _. by apply close_temp_spec.
Qed.

Lemma untouched_intact d : untouched d → intact d.
Proof. by left. Qed.

Lemma io_bind_assoc {D A B C} (m : io D A) (k : A → io D B) (k' : B → io D C) d l :
  ((m ≫= k) ≫= k') d l = (m ≫= (λ a, k a ≫= k')) d l.
Proof. unfold mbind, io_bind. by destruct (m d l) as [[] ? ?]. Qed.

Lemma spec_ext {D A} (I : D → Prop) P (m m' : io D A) Q :
  (∀ d l, m d l = m' d l) → spec I P m' Q → spec I P m Q.
Proof. intros E H d l. rewrite E. apply H. Qed.

Lemma replaceFile_spec :
  spec intact (λ d, untouched d ∧ fs_temp d = Some (data, true)) replaceFile (λ _ d, fs_target d = Some (data, true)).
Proof.
  eapply spec_bind with (R := λ _ d, fs_target d = Some (data, true)).
  - apply sys_spec. intros d _ [_ Ht]. cbn. rewrite Ht. split; [by right|done].
  - intros _. eapply spec_bind with (R := λ _ d, fs_target d = Some (data, true)); [by apply sys_spec|intros _].
    by apply sys_spec.
Qed.

(** A program that keeps the target untouched keeps it intact. *)
Lemma spec_intact {A} P (m : io fs A) Q :
  (∀ d, P d → untouched d) → spec untouched P m Q → spec intact P m Q.
Proof.
  intros HP H d l _ Hd. destruct (H d l (HP d Hd) Hd) as [H1 H2]. split; [by left|done].
Qed.

Lemma body_spec :
  spec intact (λ d, untouched d ∧ fs_temp d = Some ([], false)) (body data) (λ _ d, fs_target d = Some (data, true)).
Proof.
  eapply spec_ext; [|eapply spec_bind; [apply spec_intact, (spec_weaken _ _ _ _ _ _ prepared_spec)|intros ?; apply replaceFile_spec]].
  - intros d l. unfold body, mbind, io_bind.
    repeat match goal with |- context [match ?x with mkRun _ _ _ => _ end] => destruct x as [[] ? ?] end; reflexivity.
  - by intros d [? _].
  - by intros d _ [_ ?].
  - done.
Qed.

(** The cleanup leaves the target alone. *)
Lemma cleanup_spec (P : fs → Prop) :
  (∀ d t c, P d → P (d <| fs_temp := t |> <| fs_closed := c |>)) → spec P (λ _, True) cleanup (λ _ _, True).
Proof.
  intros HP. assert (∀ d t, P d → P (d <| fs_temp := t |>)) as HP'.
  { intros d t Hd. specialize (HP d t (fs_closed d) Hd). by destruct d. }
  unfold cleanup. eapply spec_bind with (R := λ _ _, True); [by apply spec_read|]. intros closed.
  eapply spec_bind with (R := λ _ _, True).
  - apply spec_if; intros _; [by apply spec_ret|].
    intros d l Hd _. unfold io_catch. destruct (sys_spec P "close atomic temp file during cleanup" id (λ _, True) (λ _ _, True)
      (λ d H _, conj H I) d l Hd I) as [H1 _].
    destruct (sys _ id d l) as [[a|e|] d' l'] eqn:E; cbn in H1 |- *; try by split.
    assert (spec P (λ _, True) (sys "remove atomic temp file" (λ d, d <| fs_temp := None |>);; io_fail e : io fs unit) (λ _ _, True)) as H2.
    { eapply spec_bind with (R := λ _ _, True); [apply sys_spec; intros; split; [by apply HP'|done]|intros _; apply spec_fail]. }
    by apply (H2 d' l').
  - intros _. apply sys_spec. intros d Hd _. split; [by apply HP'|done].
Qed.

Lemma deferred_spec (m : io fs unit) P :
  spec intact P m (λ _ d, fs_target d = Some (data, true)) →
  spec intact P (deferred m cleanup) (λ _ d, fs_target d = Some (data, true)).
Proof.
  intros Hm d l HI HP. destruct (Hm d l HI HP) as [H1 H2]. unfold deferred.
  destruct (m d l) as [[a|e|] d' l']; cbn in H1, H2; [| |by split].
  - specialize (H2 a eq_refl). destruct (cleanup_spec (λ d, fs_target d = Some (data, true))) with (d := d') (fs := l') as [H3 _]; try done.
    split; [right; exact H3|]. by intros _ _.
  - destruct (cleanup_spec intact) with (d := d') (fs := l') as [H3 _]; try done.
    unfold mbind, io_bind. destruct (cleanup d' l') as [[a'|e'|] d'' l'']; cbn in *; by split.
Qed.
End Refinement.

(** ** The refinement *)

Definition same_class {A B} (o : outcome A) (o' : outcome B) : Prop :=
  match o, o' with
  | Done _, Done _ | Failed _, Failed _ | Dead, Dead => True
  | _, _ => False
  end.

Lemma writeUsing_spec path data d l :
  let r := writeUsing path data d l in
  intact (fs_target d) data (run_disk r) ∧
  (run_outcome r = Done tt → fs_target (run_disk r) = Some (data, true)).
Proof.
  cbn zeta. unfold writeUsing. destruct (path =s ""); [by split; [left|]|].
  assert (spec (intact (fs_target d) data) (untouched (fs_target d))
    (sys "create atomic file directory" id;;
     sys "create atomic temp file" (λ d, d <| fs_temp := Some ([], false) |> <| fs_closed := false |>);;
     deferred (body data) cleanup) (λ _ d, fs_target d = Some (data, true))) as H.
  { eapply spec_bind with (R := λ _ d', untouched (fs_target d) d'); [by apply sys_spec|intros _].
    eapply spec_bind with (R := λ _ d', untouched (fs_target d) d' ∧ fs_temp d' = Some ([], false)).
    - apply sys_spec. intros d' _ Hd. by split; [left|].
    - intros _. apply deferred_spec, body_spec. }
  destruct (H d l) as [H1 H2]; [by left|done|]. split; [done|]. intros E. by apply (H2 tt).
Qed.

Lemma sys_clean msg (f : fs → fs) d : sys msg f d [] = mkRun (Done tt) (f d) [].
Proof. reflexivity. Qed.

Lemma sys_seq_clean msg (f : fs → fs) (k : io fs unit) d : (sys msg f;; k) d [] = k (f d) [].
Proof. reflexivity. Qed.

Lemma write_bytes_clean data d : ∃ d', write_bytes data d [] = mkRun (Done tt) d' [] ∧ fs_closed d' = fs_closed d.
Proof.
  revert d; induction data as [|c data IH]; intros d; cbn [write_bytes]; [by exists d|].
  rewrite sys_seq_clean. destruct (IH (d <| fs_temp ::= fmap (λ '(l, s), (l ++ [c], s)) |>)) as (d' & -> & E).
  by exists d'.
Qed.

(** C38: the replacement of a file, as the program of system calls it is,
    refines one atomic step: whichever of its calls fails, with or without
    effect, or is the last before the process dies, it ends as an [io_write]
    of the target would under some fault, with nothing but the old file or the
    complete and synced new one in place.  When no call fails it succeeds and
    leaves no temporary file. *)
Theorem writeUsing_refines path data d l :
  (∃ f, let atomic := io_write (λ _, Some (data, true)) (fs_target d) [f] in
     same_class (run_outcome (writeUsing path data d l)) (run_outcome atomic) ∧
     fs_target (run_disk (writeUsing path data d l)) = run_disk atomic) ∧
  ((path =s "") = false → ran (writeUsing path data d []) = true ∧ fs_temp (run_disk (writeUsing path data d [])) = None).
Proof.
  split.
  - destruct (writeUsing_spec path data d l) as [[H|H] Hdone].
    + destruct (run_outcome _) as [[]|e|] eqn:E.
      * exists Committed. split; [done|]. by apply Hdone.
      * by exists Refused.
      * by exists Crashed.
    + destruct (run_outcome _) as [[]|e|] eqn:E; [by exists Committed|by exists Uncertain|by exists Severed].
  - intros E. unfold writeUsing. rewrite E.
    rewrite !sys_seq_clean. unfold deferred, body. rewrite !sys_seq_clean. unfold id.
    match goal with |- context [(write_bytes data;; _) ?x []] => destruct (write_bytes_clean data x) as (d2 & Hw & _) end.
    rewrite (io_bind_Done _ _ _ _ _ _ _ Hw). done.
Qed.
