(* ===== verification/GoText.v ===== *)
(** * GoText: Go strings, UTF-8, and internal/textutil

    A Go string is a sequence of bytes: it is a [string] (a list of 8-bit
    [ascii]) here, and its length is a [Z].  The file models what the program
    uses of the packages strings, unicode/utf8, encoding/hex and regexp, and
    the whole of internal/textutil.  unicode.ToLower outside ASCII is a table
    of the Unicode database: it is the parameter [lower_rune], about which
    nothing is assumed. *)

From S2P Require Import Prelude.
Local Open Scope Z_scope.

(** ** Bytes and runes *)

Definition byte_of (a : ascii) : N := N_of_ascii a.
Definition bytes (s : string) : list ascii := list_ascii_of_string s.
Definition of_bytes (l : list ascii) : string := string_of_list_ascii l.
Definition len (s : string) : Z := Z.of_nat (String.length s).

Definition between (lo hi : N) (a : ascii) : bool := ((lo <=? byte_of a) && (byte_of a <=? hi))%N.
Definition is_cont : ascii → bool := between 128 191.
Definition low6 (a : ascii) : N := N.land (byte_of a) 63.

Record chunk : Type := mkChunk {
  ch_rune : N;
  ch_bytes : list ascii;
  ch_valid : bool;
}.

Definition rune_error : N := 65533.
Definition bad (b0 : ascii) : chunk := mkChunk rune_error [b0] false.

(** utf8.DecodeRune on a non-empty string: the rune, the bytes it takes (one
    for an invalid encoding), and whether the encoding is valid. *)
Definition decode (b0 : ascii) (rest : list ascii) : chunk :=
  if between 0 127 b0 then mkChunk (byte_of b0) [b0] true
  else match rest with
  | b1 :: rest1 =>
      if between 194 223 b0 && is_cont b1 then
        mkChunk (N.lor (N.shiftl (N.land (byte_of b0) 31) 6) (low6 b1)) [b0; b1] true
      else match rest1 with
      | b2 :: rest2 =>
          let lo := if (byte_of b0 =? 224)%N then 160%N else 128%N in
          let hi := if (byte_of b0 =? 237)%N then 159%N else 191%N in
          if between 224 239 b0 && between lo hi b1 && is_cont b2 then
            mkChunk (N.lor (N.shiftl (N.land (byte_of b0) 15) 12)
                       (N.lor (N.shiftl (low6 b1) 6) (low6 b2))) [b0; b1; b2] true
          else match rest2 with
          | b3 :: _ =>
              let lo := if (byte_of b0 =? 240)%N then 144%N else 128%N in
              let hi := if (byte_of b0 =? 244)%N then 143%N else 191%N in
              if between 240 244 b0 && between lo hi b1 && is_cont b2 && is_cont b3 then
                mkChunk (N.lor (N.shiftl (N.land (byte_of b0) 7) 18)
                           (N.lor (N.shiftl (low6 b1) 12)
                              (N.lor (N.shiftl (low6 b2) 6) (low6 b3)))) [b0; b1; b2; b3] true
              else bad b0
          | [] => bad b0
          end
      | [] => bad b0
      end
  | [] => bad b0
  end.

Fixpoint chunks_go (fuel : nat) (l : list ascii) : list chunk :=
  match fuel, l with
  | S fuel, b0 :: rest =>
      let c := decode b0 rest in
      c :: chunks_go fuel (drop (length (ch_bytes c)) (b0 :: rest))
  | _, _ => []
  end.

(** [for _, r := range s]: a string of n bytes has at most n runes, so its
    length is enough fuel. *)
Definition chunks (l : list ascii) : list chunk := chunks_go (length l) l.
Definition utf8_valid (l : list ascii) : bool := forallb ch_valid (chunks l).
Definition rune_count (s : string) : Z := Z.of_nat (length (chunks (bytes s))).

(** utf8.AppendRune. *)
Definition encode_rune (r : N) : list ascii :=
  let cont n := ascii_of_N (N.lor 128 (N.land n 63)) in
  let bmp r := [ascii_of_N (N.lor 224 (N.shiftr r 12)); cont (N.shiftr r 6); cont r] in
  if (r <=? 127)%N then [ascii_of_N r]
  else if (r <=? 2047)%N then [ascii_of_N (N.lor 192 (N.shiftr r 6)); cont r]
  else if ((55296 <=? r) && (r <=? 57343))%N || (1114111 <? r)%N then bmp rune_error
  else if (r <=? 65535)%N then bmp r
  else [ascii_of_N (N.lor 240 (N.shiftr r 18)); cont (N.shiftr r 12); cont (N.shiftr r 6); cont r].

(** ** strings and unicode *)

(** unicode.IsSpace. *)
Definition is_space (r : N) : bool :=
  existsb (N.eqb r) [9; 10; 11; 12; 13; 32; 133; 160; 5760; 8232; 8233; 8239; 8287; 12288]%N
  || ((8192 <=? r) && (r <=? 8202))%N.

(** unicode.IsControl. *)
Definition is_control (r : N) : bool := ((r <=? 31) || ((127 <=? r) && (r <=? 159)))%N.

Fixpoint drop_space (cs : list chunk) : list chunk :=
  match cs with
  | c :: cs' => if is_space (ch_rune c) then drop_space cs' else cs
  | [] => []
  end.

Definition flatten (cs : list chunk) : list ascii := concat (map ch_bytes cs).

(** strings.TrimSpace. *)
Definition TrimSpace (s : string) : string :=
  of_bytes (flatten (rev (drop_space (rev (drop_space (chunks (bytes s))))))).

(** strings.ToLower. *)
Class UnicodeCase : Type := lower_rune : N → N.

Definition lower_chunk `{UnicodeCase} (c : chunk) : list ascii :=
  if between 65 90 (hd zero (ch_bytes c)) then [ascii_of_N (ch_rune c + 32)]
  else if (ch_rune c <=? 127)%N then ch_bytes c
  else if ch_valid c then encode_rune (lower_rune (ch_rune c))
  else encode_rune rune_error.

Definition ToLower `{UnicodeCase} (s : string) : string :=
  of_bytes (concat (map lower_chunk (chunks (bytes s)))).

Definition HasPrefix (s p : string) : bool := String.prefix p s.

Fixpoint has_prefix (l p : list ascii) : bool :=
  match p, l with
  | [], _ => true
  | a :: p', b :: l' => Ascii.eqb a b && has_prefix l' p'
  | _, [] => false
  end.

Definition HasSuffix (s suffix : string) : bool := has_prefix (rev (bytes s)) (rev (bytes suffix)).

Definition TrimPrefix (s p : string) : string :=
  if has_prefix (bytes s) (bytes p) then of_bytes (drop (length (bytes p)) (bytes s)) else s.

Fixpoint contains_at (l p : list ascii) : bool :=
  has_prefix l p || match l with [] => false | _ :: l' => contains_at l' p end.
Definition Contains (s p : string) : bool := contains_at (bytes s) (bytes p).

Definition ContainsAny (s chars : string) : bool :=
  existsb (λ a, existsb (Ascii.eqb a) (bytes chars)) (bytes s).

(** [split_bytes sep l] is the first part of [l] and the others;
    [Split] is strings.Split with a separator of one byte. *)
Fixpoint split_bytes (sep : ascii) (l : list ascii) : list ascii * list (list ascii) :=
  match l with
  | [] => ([], [])
  | a :: l =>
      let '(part, parts) := split_bytes sep l in
      if Ascii.eqb a sep then ([], part :: parts) else (a :: part, parts)
  end.
Definition Split (s : string) (sep : ascii) : list string :=
  let '(part, parts) := split_bytes sep (bytes s) in map of_bytes (part :: parts).

(** ** Identifiers *)

Definition is_lower (a : ascii) : bool := between 97 122 a.
Definition is_upper (a : ascii) : bool := between 65 90 a.
Definition is_digit (a : ascii) : bool := between 48 57 a.
Definition is_word (a : ascii) : bool :=
  is_upper a || is_lower a || is_digit a || Ascii.eqb a "_"%char || Ascii.eqb a "-"%char.

(** The regular expression [^[A-Za-z0-9_-]{1,80}$]. *)
Definition matches_id (s : string) : bool :=
  (1 <=? len s) && (len s <=? 80) && forallb is_word (bytes s).

(** ** Hexadecimal *)

Definition hex_digit (n : N) : ascii :=
  if (n <? 10)%N then ascii_of_N (48 + n) else ascii_of_N (87 + n).

(** hex.EncodeToString. *)
Definition hex_encode (raw : list ascii) : string :=
  of_bytes (concat (map (λ a, [hex_digit (byte_of a / 16); hex_digit (byte_of a mod 16)]) raw)).

Definition is_hex (a : ascii) : bool := is_digit a || between 97 102 a || between 65 70 a.
Definition is_lower_hex (a : ascii) : bool := is_digit a || between 97 102 a.

(** The number of bytes hex.DecodeString decodes, if it succeeds. *)
Definition hex_decoded_len (s : string) : option Z :=
  if Z.even (len s) && forallb is_hex (bytes s) then Some (len s / 2) else None.

(** ** internal/textutil *)

Record Truncation : Type := mkTruncation {
  Text : string;
  Truncated : bool;
  Omitted : Z;
}.

(** The loop of [safeUTF8Boundary], from [cut] down to the first valid prefix. *)
Fixpoint boundary_loop (data : list ascii) (cut : nat) : nat :=
  match cut with
  | O => O
  | S cut' => if utf8_valid (take cut data) then cut else boundary_loop data cut'
  end.

Definition safeUTF8Boundary (data : list ascii) (maxBytes : Z) : Z :=
  if (maxBytes <=? 0) || (Z.of_nat (length data) <=? maxBytes) then Z.of_nat (length data)
  else Z.of_nat (boundary_loop data (Z.to_nat maxBytes)).

Definition SafeTruncateString (value : string) (maxBytes : Z) : Truncation :=
  if (maxBytes <=? 0) || (len value <=? maxBytes) then mkTruncation value false 0
  else let cut := safeUTF8Boundary (bytes value) maxBytes in
    mkTruncation (of_bytes (take (Z.to_nat cut) (bytes value))) true (len value - cut).

(** The loop of [ScalarPrefix] over the runes of [text]: the bytes before the
    rune at which [displayed] reaches [limit]. *)
Fixpoint scalar_loop (cs : list chunk) (limit displayed : Z) (seen : list ascii) : list ascii * Z * bool :=
  match cs with
  | [] => (seen, displayed, false)
  | c :: cs' =>
      if displayed =? limit then (seen, displayed, true)
      else scalar_loop cs' limit (displayed + 1) (seen ++ ch_bytes c)
  end.

Definition ScalarPrefix (text : string) (limit : Z) : string * Z * bool :=
  let limit := if limit <? 0 then 0 else limit in
  let '(prefix, displayed, more) := scalar_loop (chunks (bytes text)) limit 0 [] in
  (of_bytes prefix, displayed, more).

(** ** Lemmas *)

Lemma bytes_of_bytes l : bytes (of_bytes l) = l.
Proof. apply list_ascii_of_string_of_list_ascii. Qed.
Lemma of_bytes_bytes s : of_bytes (bytes s) = s.
Proof. apply string_of_list_ascii_of_string. Qed.
Lemma length_bytes s : length (bytes s) = String.length s.
Proof. unfold bytes. induction s; cbn; auto. Qed.
Lemma len_bytes s : len s = Z.of_nat (length (bytes s)).
Proof. unfold len. by rewrite length_bytes. Qed.
Lemma len_of_bytes l : len (of_bytes l) = Z.of_nat (length l).
Proof. by rewrite len_bytes, bytes_of_bytes. Qed.
Lemma len_nonneg s : 0 <= len s.
Proof. unfold len; lia. Qed.

Create Rewrite HintDb gotext.
#[export] Hint Rewrite bytes_of_bytes of_bytes_bytes len_of_bytes : gotext.

#[local] Ltac split_word := cbn [ch_bytes ch_valid bad length]; split_and!; [lia|lia|lia|reflexivity|].

(** A decoded rune takes a non-empty prefix of at most four bytes; a valid
    encoding is recognised whatever follows it. *)
Lemma decode_prefix b0 rest :
  ∃ w, (1 <= w <= 4)%nat ∧ (w <= length (b0 :: rest))%nat ∧
    ch_bytes (decode b0 rest) = take w (b0 :: rest) ∧
    (ch_valid (decode b0 rest) = true →
       ∀ more, decode b0 (take (pred w) rest ++ more) = decode b0 rest).
Proof.
  assert (∀ w : nat, decode b0 rest = bad b0 → w = 1%nat →
    (1 <= w <= 4)%nat ∧ (w <= length (b0 :: rest))%nat ∧
    ch_bytes (decode b0 rest) = take w (b0 :: rest) ∧
    (ch_valid (decode b0 rest) = true →
       ∀ more, decode b0 (take (pred w) rest ++ more) = decode b0 rest)) as Hbad.
  { intros w -> ->. by split_word. }
  destruct (between 0 127 b0) eqn:E1.
  { exists 1%nat. unfold decode. rewrite E1. by split_word. }
  destruct rest as [|b1 rest];
    [exists 1%nat; apply Hbad; [unfold decode; by rewrite E1|done]|].
  destruct (between 194 223 b0 && is_cont b1) eqn:E2.
  { exists 2%nat. unfold decode. rewrite E1, E2. split_word. intros _ more.
    cbn -[between is_cont N.eqb]. by rewrite ?E1, E2. }
  destruct rest as [|b2 rest];
    [exists 1%nat; apply Hbad; [unfold decode; by rewrite E1, E2|done]|].
  match goal with |- context [decode b0 (b1 :: b2 :: rest)] =>
    destruct (between 224 239 b0 && between (if (byte_of b0 =? 224)%N then 160%N else 128%N)
      (if (byte_of b0 =? 237)%N then 159%N else 191%N) b1 && is_cont b2) eqn:E3 end.
  { exists 3%nat. unfold decode. rewrite E1, E2, E3. split_word. intros _ more.
    cbn -[between is_cont N.eqb]. by rewrite ?E1, E2, E3. }
  destruct rest as [|b3 rest];
    [exists 1%nat; apply Hbad; [unfold decode; by rewrite E1, E2, E3|done]|].
  destruct (between 240 244 b0 && between (if (byte_of b0 =? 240)%N then 144%N else 128%N)
      (if (byte_of b0 =? 244)%N then 143%N else 191%N) b1 && is_cont b2 && is_cont b3) eqn:E4.
  { exists 4%nat. unfold decode. rewrite E1, E2, E3, E4. split_word. intros _ more.
    cbn -[between is_cont N.eqb]. by rewrite ?E1, E2, E3, E4. }
  exists 1%nat; apply Hbad; [|done]. unfold decode. by rewrite E1, E2, E3, E4.
Qed.

Lemma decode_app b0 rest w :
  ch_bytes (decode b0 rest) = take w (b0 :: rest) → (1 <= w)%nat →
  length (ch_bytes (decode b0 rest)) = w → ch_valid (decode b0 rest) = true →
  ∀ more, decode b0 (take (pred w) rest ++ more) = decode b0 rest.
Proof.
  intros Hb Hw Hl Hv more. destruct (decode_prefix b0 rest) as (w' & Hw' & Hl' & Hb' & H).
  assert (w' = w) as <-; [|by apply H].
  rewrite <- Hl, Hb', length_take. lia.
Qed.

Lemma chunks_go_fuel n m l :
  (length l <= n)%nat → (length l <= m)%nat → chunks_go n l = chunks_go m l.
Proof.
  revert m l; induction n as [|n IH]; intros [|m] [|b0 rest] Hn Hm; cbn in Hn, Hm; try done; try lia.
  cbn [chunks_go]. f_equal.
  destruct (decode_prefix b0 rest) as (w & Hw & Hl & -> & _).
  apply IH; rewrite length_drop, length_take; cbn [length] in *; lia.
Qed.

(** The iteration of [range] over a string: the first rune, then the rest. *)
Lemma chunks_cons b0 rest :
  chunks (b0 :: rest) =
    decode b0 rest :: chunks (drop (length (ch_bytes (decode b0 rest))) (b0 :: rest)).
Proof.
  unfold chunks at 1. cbn [length chunks_go]. f_equal.
  destruct (decode_prefix b0 rest) as (w & Hw & Hl & -> & _).
  apply chunks_go_fuel; rewrite length_drop, length_take; cbn [length] in *; lia.
Qed.

Lemma chunks_nil : chunks [] = [].
Proof. reflexivity. Qed.

(** Induction along the runes of a string. *)
Lemma rune_ind (P : list ascii → Prop) :
  P [] →
  (∀ b0 rest w, (1 <= w <= 4)%nat → (w <= length (b0 :: rest))%nat →
     length (ch_bytes (decode b0 rest)) = w →
     ch_bytes (decode b0 rest) = take w (b0 :: rest) →
     P (drop w (b0 :: rest)) → P (b0 :: rest)) →
  ∀ l, P l.
Proof.
  intros Hnil Hcons l.
  remember (length l) as n eqn:Hn. revert l Hn.
  induction n as [n IH] using lt_wf_ind; intros [|b0 rest] ->; [done|].
  destruct (decode_prefix b0 rest) as (w & Hw & Hl & Hb & _).
  assert (length (ch_bytes (decode b0 rest)) = w) as Hlen.
  { rewrite Hb, length_take. lia. }
  eapply (Hcons _ _ w); [done..|]. eapply IH; [|reflexivity].
  rewrite length_drop. cbn [length] in *. lia.
Qed.

Lemma flatten_chunks l : flatten (chunks l) = l.
Proof.
  induction l as [|b0 rest w Hw Hl Hlen Hb IH] using rune_ind; [done|].
  rewrite chunks_cons, Hlen. cbn. fold (flatten (chunks (drop w (b0 :: rest)))).
  rewrite IH, Hb. apply take_drop.
Qed.

Lemma utf8_valid_cons b0 rest :
  utf8_valid (b0 :: rest) =
    ch_valid (decode b0 rest) && utf8_valid (drop (length (ch_bytes (decode b0 rest))) (b0 :: rest)).
Proof. unfold utf8_valid. by rewrite chunks_cons. Qed.

(** A valid string has a valid prefix within three bytes of any length. *)
Lemma utf8_valid_cut l n :
  utf8_valid l = true → (n <= length l)%nat →
  ∃ cut, (cut <= n <= cut + 3)%nat ∧ utf8_valid (take cut l) = true.
Proof.
  revert n; induction l as [|b0 rest w Hw Hl Hlen Hb IH] using rune_ind; intros n Hv Hn.
  { exists O. cbn in *. split; [lia|done]. }
  rewrite utf8_valid_cons, Hlen in Hv. apply andb_true_iff in Hv as [Hv1 Hv2].
  destruct (decide (n < w)%nat) as [Hlt|Hge]; [exists O; split; [lia|done]|].
  destruct (IH (n - w)%nat Hv2) as (cut & Hcut & Hvalid).
  { rewrite length_drop. lia. }
  exists (w + cut)%nat. split; [lia|].
  destruct w as [|w]; [lia|]. cbn [take Nat.add] in *.
  change (drop (S w) (b0 :: rest)) with (drop w rest) in *.
  assert (take (w + cut) rest = take w rest ++ take cut (drop w rest)) as ->.
  { by rewrite take_take_drop. }
  rewrite utf8_valid_cons.
  rewrite (decode_app b0 rest (S w)) by (done || lia).
  rewrite Hv1, Hlen. change (drop (S w) (b0 :: ?x)) with (drop w x). cbn [andb].
  rewrite drop_app_length'; [done|]. rewrite length_take. cbn [length] in *. lia.
Qed.

Lemma boundary_loop_spec data cut :
  (boundary_loop data cut <= cut)%nat ∧ utf8_valid (take (boundary_loop data cut) data) = true ∧
  ∀ k, (k <= cut)%nat → utf8_valid (take k data) = true → (k <= boundary_loop data cut)%nat.
Proof.
  induction cut as [|cut (IH1 & IH2 & IH3)]; cbn [boundary_loop].
  - split_and!; [lia|done|lia].
  - destruct (utf8_valid (take (S cut) data)) eqn:Hv; split_and!; [lia|done|lia|lia|done|].
    intros k Hk Hvk. destruct (decide (k = S cut)) as [->|]; [congruence|]. apply IH3; [lia|done].
Qed.

Lemma scalar_loop_spec cs limit displayed seen :
  displayed <= limit →
  let k := Z.to_nat (limit - displayed) in
  scalar_loop cs limit displayed seen =
    (seen ++ flatten (take k cs), displayed + Z.of_nat (length (take k cs)), bool_decide (k < length cs)%nat).
Proof.
  revert displayed seen; induction cs as [|c cs IH]; intros displayed seen Hle; cbn [scalar_loop].
  { rewrite take_nil. cbn. rewrite app_nil_r, Z.add_0_r. repeat f_equal. }
  destruct (Z.eqb_spec displayed limit) as [->|Hne].
  { rewrite Z.sub_diag. cbn. rewrite app_nil_r, Z.add_0_r. repeat f_equal. }
  rewrite IH by lia. cbn zeta.
  replace (Z.to_nat (limit - displayed)) with (S (Z.to_nat (limit - (displayed + 1)))) by lia.
  cbn [take length flatten map concat]. rewrite <- app_assoc. unfold flatten.
  f_equal; [f_equal; lia|]. apply bool_decide_ext. lia.
Qed.

(** ** What textutil promises *)

(** SafeTruncateString returns short text unchanged, and otherwise the longest
    prefix of at most [maxBytes] bytes that is valid UTF-8; on valid input it
    gives up at most three bytes of the limit. *)
Theorem SafeTruncateString_spec value maxBytes :
  let t := SafeTruncateString value maxBytes in
  if (maxBytes <=? 0) || (len value <=? maxBytes) then t = mkTruncation value false 0
  else
    Truncated t = true ∧ (∃ omitted, bytes value = bytes (Text t) ++ omitted) ∧
    len (Text t) <= maxBytes ∧ Omitted t = len value - len (Text t) ∧
    utf8_valid (bytes (Text t)) = true ∧
    (∀ k, Z.of_nat k <= maxBytes → utf8_valid (take k (bytes value)) = true →
       Z.of_nat k <= len (Text t)) ∧
    (utf8_valid (bytes value) = true → maxBytes - 3 <= len (Text t)).
Proof.
  cbn zeta. unfold SafeTruncateString.
  destruct ((maxBytes <=? 0) || (len value <=? maxBytes)) eqn:E; [done|].
  unfold safeUTF8Boundary. rewrite len_bytes in E |- *. rewrite E.
  apply orb_false_iff in E as [E1%Z.leb_gt E2%Z.leb_gt].
  set (n := Z.to_nat maxBytes). set (data := bytes value) in *.
  destruct (boundary_loop_spec data n) as (H1 & H2 & H3).
  set (cut := boundary_loop data n) in *. rewrite Nat2Z.id. cbn [Truncated Text Omitted].
  rewrite len_of_bytes, bytes_of_bytes, length_take_le by lia.
  split_and!; [done| |lia|done|done| |].
  - exists (drop cut data). by rewrite take_drop.
  - intros k Hk Hv. apply inj_le, H3; [lia|done].
  - intros Hv. destruct (utf8_valid_cut data n Hv) as (k & Hk & Hvk); [lia|].
    assert (k <= cut)%nat by (apply H3; [lia|done]). lia.
Qed.

(** ScalarPrefix returns exactly the first [limit] scalars (none for a
    negative limit), their number, and whether any are left out. *)
Theorem ScalarPrefix_spec text limit :
  let n := Z.to_nat limit in
  ScalarPrefix text limit =
    (of_bytes (flatten (take n (chunks (bytes text)))),
     Z.min (Z.max 0 limit) (rune_count text),
     (Z.max 0 limit <? rune_count text)).
Proof.
  cbn zeta. unfold ScalarPrefix, rune_count.
  replace (if limit <? 0 then 0 else limit) with (Z.max 0 limit) by (destruct (Z.ltb_spec limit 0); lia).
  rewrite scalar_loop_spec by lia. rewrite Z.sub_0_r. cbn [app].
  replace (Z.to_nat (Z.max 0 limit)) with (Z.to_nat limit) by lia.
  rewrite length_take. f_equal; [f_equal; lia|].
  destruct (Z.ltb_spec (Z.max 0 limit) (Z.of_nat (length (chunks (bytes text)))));
    [apply bool_decide_eq_true|apply bool_decide_eq_false]; lia.
Qed.

(** ** Hexadecimal tokens *)

Lemma hex_digit_lower n : (n < 16)%N → is_lower_hex (hex_digit n) = true.
Proof.
  intros Hn. destruct n as [|p]; [done|].
  do 4 (destruct p as [p|p|]; [..|reflexivity]); lia.
Qed.

Lemma hex_encode_lower raw : forallb is_lower_hex (bytes (hex_encode raw)) = true.
Proof.
  unfold hex_encode. rewrite bytes_of_bytes.
  induction raw as [|a raw IH]; [done|]. cbn [map concat app forallb].
  rewrite !hex_digit_lower, IH; [done|..].
  - by apply N.mod_upper_bound.
  - pose proof (N_ascii_bounded a). apply N.Div0.div_lt_upper_bound. unfold byte_of. lia.
Qed.

Lemma len_hex_encode raw : len (hex_encode raw) = 2 * Z.of_nat (length raw).
Proof.
  unfold hex_encode. rewrite len_of_bytes.
  induction raw as [|a raw IH]; [done|]. cbn [map concat app length]. lia.
Qed.

Lemma is_lower_hex_is_hex a : is_lower_hex a = true → is_hex a = true.
Proof. unfold is_lower_hex, is_hex. intros H. by rewrite H. Qed.

Lemma is_lower_hex_is_word a : is_lower_hex a = true → is_word a = true.
Proof. destruct a as [[] [] [] [] [] [] [] []]; vm_compute; congruence. Qed.

Lemma forallb_impl {A} (f g : A → bool) l :
  (∀ a, f a = true → g a = true) → forallb f l = true → forallb g l = true.
Proof.
  intros H. induction l as [|a l IH]; [done|]. cbn. intros [Ha Hl]%andb_true_iff.
  by rewrite (H a Ha), (IH Hl).
Qed.

Lemma hex_decoded_len_encode raw : hex_decoded_len (hex_encode raw) = Some (Z.of_nat (length raw)).
Proof.
  unfold hex_decoded_len. rewrite len_hex_encode, Z.even_mul. cbn [Z.even orb].
  rewrite (forallb_impl _ _ _ is_lower_hex_is_hex (hex_encode_lower raw)). cbn [andb].
  f_equal. rewrite Z.mul_comm. by apply Z.div_mul.
Qed.

Lemma hex_encode_nonempty raw : (0 < length raw)%nat → hex_encode raw ≠ "".
Proof. intros Hr E. pose proof (len_hex_encode raw) as H. rewrite E in H. change (len "") with 0 in H. lia. Qed.

Lemma bytes_app a b : bytes (a +:+ b) = bytes a ++ bytes b.
Proof.
  induction a as [|c a IH]; [done|]. change (c :: bytes (a +:+ b) = c :: (bytes a ++ bytes b)). by rewrite IH.
Qed.

Lemma len_app a b : len (a +:+ b) = len a + len b.
Proof. rewrite !len_bytes, bytes_app, length_app. lia. Qed.

(** An identifier made of a four-byte prefix and hexadecimal digits. *)
Lemma matches_id_hex prefix raw :
  len prefix = 4 → forallb is_word (bytes prefix) = true → (length raw <= 38)%nat →
  matches_id (prefix +:+ hex_encode raw) = true.
Proof.
  intros Hp Hw Hr. unfold matches_id. rewrite len_app, Hp, len_hex_encode, bytes_app, forallb_app, Hw.
  rewrite (forallb_impl _ _ _ is_lower_hex_is_word (hex_encode_lower raw)).
  rewrite !andb_true_iff, !Z.leb_le. split_and!; [lia|lia|done|done].
Qed.
