(* ===== verification/EnvStore.v ===== *)
(** * EnvStore: the scoped environment files (internal/envstore)

    The parser and printer of the shell-style assignment files
    (parser.go, validation.go, env.go) and the store that keeps one file per
    skill or MCP scope (store.go).  The index of the Go parser into its input
    is the remaining input here.  Directory creation and permission bits
    (permissions.go) are not modelled. *)

From stdpp Require Import pretty sorting.
From S2P Require Import Prelude GoText Durable.
Local Open Scope Z_scope.

(** ** Lexical helpers *)

Definition newline : ascii := "010"%char.
Definition tab : ascii := "009"%char.
Definition carriage_return : ascii := "013"%char.
Definition single_quote : ascii := "'"%char.
Definition double_quote : ascii := "034"%char.
Definition backslash : ascii := "\"%char.

Definition is_horizontal (c : ascii) : bool :=
  Ascii.eqb c " " || Ascii.eqb c tab || Ascii.eqb c carriage_return.

Definition isEnvKeyByte (char : ascii) (first : bool) : bool :=
  if Ascii.eqb char "_" || is_upper char || is_lower char then true
  else negb first && is_digit char.

Fixpoint skipHorizontalSpace (input : list ascii) : list ascii :=
  match input with
  | c :: rest => if is_horizontal c then skipHorizontalSpace rest else input
  | [] => []
  end.

(** The nested loops of [skipSpaceAndComments] as one pass; [comment] is set
    while the inner loop looks for the end of a comment. *)
Fixpoint skip_blank (comment : bool) (input : list ascii) : list ascii :=
  match input with
  | [] => []
  | c :: rest =>
      if comment then skip_blank (negb (Ascii.eqb c newline)) rest
      else if is_horizontal c || Ascii.eqb c newline then skip_blank false rest
      else if Ascii.eqb c "#" then skip_blank true rest
      else input
  end.
Definition skipSpaceAndComments : list ascii → list ascii := skip_blank false.

(** The number of the line on which the remaining input [rest] starts. *)
Definition lineNumber (input rest : list ascii) : N :=
  1 + N.of_nat (length (filter (λ c, c = newline) (take (length input - length rest) input))).

Definition line_error {A} (input rest : list ascii) (msg : string) : result A :=
  Err ("line " +:+ pretty (lineNumber input rest) +:+ ": " +:+ msg).

(** The regular expression [^[A-Za-z_][A-Za-z0-9_]*$]. *)
Definition envKeyPattern (key : string) : bool :=
  match bytes key with
  | [] => false
  | c :: rest => isEnvKeyByte c true && forallb (λ c, isEnvKeyByte c false) rest
  end.

Definition ValidateKey (key : string) : result unit :=
  reject (negb (envKeyPattern key)) ("invalid environment variable name " +:+ key).

(** ** The parser *)

Fixpoint scan_key (first : bool) (input : list ascii) : list ascii * list ascii :=
  match input with
  | c :: rest =>
      if isEnvKeyByte c first then let '(key, rest') := scan_key false rest in (c :: key, rest')
      else ([], input)
  | [] => ([], [])
  end.

Fixpoint to_line_end (input : list ascii) : list ascii :=
  match input with
  | c :: rest => if Ascii.eqb c newline then rest else to_line_end rest
  | [] => []
  end.

Inductive quote : Type := Unquoted | Single | Double.

(** [value] and [pendingSpace] are the two string builders. *)
Fixpoint parseValue (q : quote) (value pendingSpace input : list ascii) :
    result (list ascii * list ascii) :=
  match input with
  | [] =>
      match q with
      | Unquoted => Ok (value, [])
      | _ => Err "unterminated quoted value"
      end
  | char :: rest =>
      match q with
      | Single =>
          if Ascii.eqb char single_quote then parseValue Unquoted value pendingSpace rest
          else parseValue Single (value ++ [char]) pendingSpace rest
      | Double =>
          if Ascii.eqb char double_quote then parseValue Unquoted value pendingSpace rest
          else match rest with
          | next :: rest' =>
              if Ascii.eqb char backslash then
                if existsb (Ascii.eqb next) [double_quote; backslash; "$"%char; "`"%char]
                then parseValue Double (value ++ [next]) pendingSpace rest'
                else if Ascii.eqb next newline then parseValue Double value pendingSpace rest'
                else parseValue Double (value ++ [char]) pendingSpace rest
              else parseValue Double (value ++ [char]) pendingSpace rest
          | [] => parseValue Double (value ++ [char]) pendingSpace rest
          end
      | Unquoted =>
          if Ascii.eqb char single_quote then parseValue Single (value ++ pendingSpace) [] rest
          else if Ascii.eqb char double_quote then parseValue Double (value ++ pendingSpace) [] rest
          else if Ascii.eqb char backslash then
            match rest with
            | [] => Err "trailing escape"
            | next :: rest' =>
                if Ascii.eqb next newline then parseValue Unquoted (value ++ pendingSpace) [] rest'
                else parseValue Unquoted (value ++ pendingSpace ++ [next]) [] rest'
            end
          else if is_horizontal char then parseValue Unquoted value (pendingSpace ++ [char]) rest
          else if Ascii.eqb char "#" then
            if bool_decide (value = []) || negb (bool_decide (pendingSpace = []))
            then Ok (value, to_line_end rest)
            else parseValue Unquoted (value ++ pendingSpace ++ [char]) [] rest
          else if Ascii.eqb char newline then Ok (value, rest)
          else parseValue Unquoted (value ++ pendingSpace ++ [char]) [] rest
      end
  end.

(** [export ] before an assignment is skipped. *)
Definition skip_export (input : list ascii) : list ascii :=
  if has_prefix input (bytes "export") then
    match drop 6 input with
    | (c :: _) as after => if Ascii.eqb c " " || Ascii.eqb c tab then skipHorizontalSpace after else input
    | [] => input
    end
  else input.

(** One turn of the loop of [parse]: [None] at the end of the input, and
    otherwise the assignment read and the remaining input. *)
Definition parse_assignment (input rest : list ascii) :
    result (option (string * string * list ascii)) :=
  match skipSpaceAndComments rest with
  | [] => Ok None
  | (_ :: _) as rest0 =>
      let rest1 := skip_export rest0 in
      let '(key, rest2) := scan_key true rest1 in
      match key with
      | [] => line_error input rest2 "expected environment variable name"
      | _ :: _ =>
          let key := of_bytes key in
          match ValidateKey key with
          | Err e => line_error input rest1 e
          | Ok _ =>
              match skipHorizontalSpace rest2 with
              | [] => line_error input [] ("expected '=' after " +:+ key)
              | (c :: rest3) as at_sign =>
                  if negb (Ascii.eqb c "=") then
                    line_error input at_sign ("expected '=' after " +:+ key)
                  else
                    let rest4 := skipHorizontalSpace rest3 in
                    match parseValue Unquoted [] [] rest4 with
                    | Err e => line_error input rest4 ("parse " +:+ key +:+ ": " +:+ e)
                    | Ok (value, next) => Ok (Some (key, of_bytes value, next))
                    end
              end
          end
      end
  end.

Fixpoint parse_loop (fuel : nat) (input rest : list ascii) (values : gmap string string) :
    result (gmap string string) :=
  match fuel with
  | O => Err "out of fuel"
  | S fuel =>
      step ← parse_assignment input rest;
      match step with
      | None => Ok values
      | Some (key, value, next) => parse_loop fuel input next (<[key := value]> values)
      end
  end.

(** Every assignment takes at least one byte, so one turn per byte and a last
    one are enough. *)
Definition parse (data : list ascii) : result (gmap string string) :=
  parse_loop (S (length data)) data data ∅.

(** ** The printer *)

Definition quote_byte (c : ascii) : list ascii :=
  if Ascii.eqb c single_quote then [single_quote; backslash; single_quote; single_quote] else [c].

Definition shellQuote (value : string) : list ascii :=
  single_quote :: concat (map quote_byte (bytes value)) ++ [single_quote].

Definition sorted_keys (values : gmap string string) : list string :=
  merge_sort string_le (map fst (map_to_list values)).

Definition marshal_line (values : gmap string string) (key : string) : list ascii :=
  bytes key ++ "="%char :: shellQuote (default "" (values !! key)) ++ [newline].

Definition marshal (values : gmap string string) : list ascii :=
  concat (map (marshal_line values) (sorted_keys values)).

(** Merge: later overlays win. *)
Definition Merge (base : gmap string string) (overlays : list (gmap string string)) : gmap string string :=
  foldl (λ merged overlay, overlay ∪ merged) base overlays.

Definition Format (values : gmap string string) : list string :=
  map (λ key, key +:+ "=" +:+ default "" (values !! key)) (sorted_keys values).

(** ** The store (store.go)

    The disk keeps the bytes of the file of each scope, by kind and name. *)

Definition ScopeSkill : string := "skill".
Definition ScopeMCP : string := "mcp".
Definition maxEnvironmentFileBytes : Z := 1048576.

Record Scope : Type := mkScope { scope_Kind : string; scope_Name : string }.
Record Entry : Type := mkEntry { entry_Key : string; entry_Configured : bool }.

Abbreviation disk := (gmap (string * string) (list ascii)).

(** The regular expression [^[A-Za-z0-9][A-Za-z0-9._-]{0,63}$]. *)
Definition scopeNamePattern (name : string) : bool :=
  match bytes name with
  | [] => false
  | c :: rest =>
      (is_upper c || is_lower c || is_digit c) && (length rest <=? 63)%nat
      && forallb (λ c, is_word c || Ascii.eqb c ".") rest
  end.

(** A name of [scopeNamePattern] has no separator and does not start with a
    dot, so [filepath.Base] leaves it alone. *)
Definition validateScope (scope : Scope) : result unit :=
  if negb (String.eqb (scope_Kind scope) ScopeSkill) && negb (String.eqb (scope_Kind scope) ScopeMCP)
  then Err ("invalid environment scope kind " +:+ scope_Kind scope)
  else
    let name := TrimSpace (scope_Name scope) in
    if negb (String.eqb name (scope_Name scope)) || negb (scopeNamePattern name) || ContainsAny name "/\"
    then Err ("invalid " +:+ scope_Kind scope +:+ " environment scope name " +:+ scope_Name scope)
    else Ok tt.

Definition Path (scope : Scope) : result (string * string) :=
  validateScope scope ;; Ok (scope_Kind scope, scope_Name scope).

Definition load_file (data : option (list ascii)) : result (gmap string string) :=
  match data with
  | None => Ok ∅
  | Some data =>
      if maxEnvironmentFileBytes <? Z.of_nat (length data) then Err "environment exceeds size limit"
      else parse data
  end.

Definition loadLocked (scope : Scope) : io disk (gmap string string) :=
  path ← io_lift (Path scope);
  data ← io_read (λ d : disk, d !! path);
  io_lift (load_file data).

Definition writeLocked (scope : Scope) (values : gmap string string) : io disk unit :=
  path ← io_lift (Path scope);
  if bool_decide (values = ∅) then
    data ← io_read (λ d : disk, d !! path);
    match data with
    | None => mret tt
    | Some _ => io_write (delete path)
    end
  else
    io_lift (mapM ValidateKey (sorted_keys values)) ;;
    let data := marshal values in
    if maxEnvironmentFileBytes <? Z.of_nat (length data) then io_fail "environment exceeds size limit"
    else io_write <[path := data]>.

Definition Set_ (scope : Scope) (key value : string) : io disk unit :=
  io_lift (validateScope scope) ;;
  io_lift (ValidateKey key) ;;
  values ← loadLocked scope;
  writeLocked scope (<[key := value]> values).

Definition Unset_ (scope : Scope) (key : string) : io disk bool :=
  io_lift (validateScope scope) ;;
  io_lift (ValidateKey key) ;;
  values ← loadLocked scope;
  match values !! key with
  | None => mret false
  | Some _ => writeLocked scope (delete key values) ;; mret true
  end.

Definition Load (scope : Scope) : io disk (gmap string string) :=
  io_lift (validateScope scope) ;; loadLocked scope.

Definition List_ (scope : Scope) : io disk (list Entry) :=
  values ← Load scope;
  mret (map (λ key, mkEntry key (negb (String.eqb (default "" (values !! key)) ""))) (sorted_keys values)).

(** ** Lemmas about the printer and the parser *)

Section Roundtrip.
Implicit Types (rest : list ascii) (values acc : gmap string string).

Lemma parse_quoted v value rest :
  parseValue Single value [] (concat (map quote_byte v) ++ single_quote :: newline :: rest) =
    Ok (value ++ v, rest).
Proof.
  revert value; induction v as [|c v IH]; intros value; cbn [map concat app].
  { cbn. by rewrite app_nil_r. }
  unfold quote_byte at 1. destruct (Ascii.eqb_spec c single_quote) as [->|Hne]; cbn.
  - rewrite app_nil_r, IH. by rewrite <- app_assoc.
  - apply Ascii.eqb_neq in Hne. rewrite Hne, IH. by rewrite <- app_assoc.
Qed.

(** Reading back a quoted value gives it exactly, whatever bytes it has. *)
Lemma parseValue_shellQuote v rest :
  parseValue Unquoted [] [] (shellQuote v ++ newline :: rest) = Ok (bytes v, rest).
Proof. unfold shellQuote. cbn. rewrite <- app_assoc. apply parse_quoted. Qed.

Lemma key_byte_plain c first :
  isEnvKeyByte c first = true →
  is_horizontal c = false ∧ Ascii.eqb c newline = false ∧ Ascii.eqb c "#" = false ∧
  Ascii.eqb c "=" = false ∧ isEnvKeyByte c false = true.
Proof. destruct c as [[] [] [] [] [] [] [] []], first; vm_compute; intros H; try discriminate; auto. Qed.

Lemma scan_key_spec key rest c first :
  (match key with [] => True | k :: key => isEnvKeyByte k first = true ∧
     forallb (λ c, isEnvKeyByte c false) key = true end) →
  isEnvKeyByte c false = false →
  scan_key first (key ++ c :: rest) = (key, c :: rest).
Proof.
  intros Hkey Hc. assert (isEnvKeyByte c true = false) as Hc'.
  { destruct c as [[] [] [] [] [] [] [] []]; vm_compute in Hc |- *; congruence. }
  revert first Hkey; induction key as [|k key IH]; intros first Hkey; cbn.
  { destruct first; by rewrite ?Hc, ?Hc'. }
  destruct Hkey as [Hk Hkey]. rewrite Hk, IH; [done|].
  destruct key; [done|]. by apply andb_true_iff in Hkey.
Qed.

(** After the six bytes of [export], an assignment goes on with a key byte
    or the equals sign: the keyword is not recognised in it. *)
Lemma skip_export_key key rest :
  forallb (λ c, isEnvKeyByte c false) key = true →
  skip_export (key ++ "="%char :: rest) = key ++ "="%char :: rest.
Proof.
  intros Hkey. unfold skip_export. change (bytes "export") with ["e"; "x"; "p"; "o"; "r"; "t"]%char.
  do 6 (destruct key as [|? key]; [cbn [has_prefix app]; by rewrite ?andb_false_r|];
    cbn in Hkey; apply andb_true_iff in Hkey as [? Hkey]).
  destruct (has_prefix _ _); [|done]. cbn [app drop].
  destruct key as [|c key]; [done|]. cbn in Hkey. apply andb_true_iff in Hkey as [Hc _].
  apply key_byte_plain in Hc as (Hh & _). rewrite drop_0. cbn [app]. unfold is_horizontal in Hh.
  apply orb_false_iff in Hh as [[-> ->]%orb_false_iff _]. done.
Qed.

Lemma envKeyPattern_spec key :
  envKeyPattern key = true →
  ∃ c rest, bytes key = c :: rest ∧ isEnvKeyByte c true = true ∧
    forallb (λ c, isEnvKeyByte c false) (bytes key) = true.
Proof.
  unfold envKeyPattern. destruct (bytes key) as [|c rest]; [done|].
  intros [Hc Hr]%andb_true_iff. exists c, rest. split_and!; [done..|].
  cbn. rewrite Hr. destruct (key_byte_plain c true) as (_ & _ & _ & _ & ->); done.
Qed.

Lemma parse_assignment_line input values key rest :
  envKeyPattern key = true →
  parse_assignment input (marshal_line values key ++ rest) =
    Ok (Some (key, default "" (values !! key), rest)).
Proof.
  intros Hkey. destruct (envKeyPattern_spec key Hkey) as (c & k & Hb & Hc & Hall).
  destruct (key_byte_plain c true Hc) as (H1 & H2 & H3 & _ & _).
  unfold parse_assignment, marshal_line, skipSpaceAndComments.
  rewrite <- app_assoc. cbn [app]. rewrite <- app_assoc. cbn [app].
  set (tail := shellQuote _ ++ _).
  assert (skip_blank false (bytes key ++ "="%char :: tail) = bytes key ++ "="%char :: tail) as ->.
  { rewrite Hb. cbn. by rewrite H1, H2, H3. }
  remember (bytes key ++ "="%char :: tail) as line eqn:El.
  destruct line as [|x line]; [by rewrite Hb in El|]. rewrite El. clear El.
  rewrite skip_export_key by done.
  rewrite (scan_key_spec (bytes key) tail "="%char); [|rewrite Hb in *; cbn in Hall |- *|done].
  2: { split; [done|]. by apply andb_true_iff in Hall as [_ ?]. }
  rewrite of_bytes_bytes. unfold ValidateKey. rewrite Hkey.
  destruct (bytes key) as [|c' k']; [done|]. subst tail.
  cbn -[parseValue shellQuote]. replace (skipHorizontalSpace _) with
    (shellQuote (default "" (values !! key)) ++ newline :: rest) by done.
  rewrite parseValue_shellQuote. by rewrite of_bytes_bytes.
Qed.

Lemma parse_assignment_nil input : parse_assignment input [] = Ok None.
Proof. reflexivity. Qed.

Lemma parse_loop_lines input values keys acc n :
  Forall (λ key, envKeyPattern key = true) keys → (length keys < n)%nat →
  parse_loop n input (concat (map (marshal_line values) keys)) acc =
    Ok (foldl (λ m key, <[key := default "" (values !! key)]> m) acc keys).
Proof.
  revert n acc; induction keys as [|key keys IH]; intros [|n] acc Hk Hn; cbn in Hn; try lia; [done|].
  apply Forall_cons in Hk as [Hk Hks]. cbn [map concat parse_loop].
  rewrite parse_assignment_line by done. cbn. apply IH; [done|lia].
Qed.

Lemma foldl_insert_lookup values keys acc k :
  foldl (λ m key, <[key := default "" (values !! key)]> m) acc keys !! k =
    if decide (k ∈ keys) then Some (default "" (values !! k)) else acc !! k.
Proof.
  revert acc; induction keys as [|key keys IH]; intros acc; cbn [foldl].
  { by rewrite decide_False by set_solver. }
  rewrite IH. destruct (decide (k ∈ keys)) as [Hin|Hin].
  - by rewrite decide_True by set_solver.
  - destruct (decide (k = key)) as [->|Hne].
    + rewrite lookup_insert_eq, decide_True; set_solver.
    + rewrite lookup_insert_ne, decide_False; set_solver.
Qed.

Lemma elem_of_sorted_keys values k : k ∈ sorted_keys values ↔ is_Some (values !! k).
Proof.
  unfold sorted_keys. rewrite merge_sort_Permutation, list_elem_of_fmap. split.
  - intros ((k' & v) & -> & H%elem_of_map_to_list). eauto.
  - intros (v & H). exists (k, v). by rewrite elem_of_map_to_list.
Qed.

Lemma length_marshal_lines values keys :
  (length keys <= length (concat (map (marshal_line values) keys)))%nat.
Proof.
  induction keys as [|key keys IH]; cbn; [lia|]. rewrite length_app.
  unfold marshal_line at 1. rewrite length_app. cbn. lia.
Qed.

Lemma parse_marshal values :
  (∀ key, is_Some (values !! key) → envKeyPattern key = true) →
  parse (marshal values) = Ok values.
Proof.
  intros Hkeys. unfold parse, marshal at 1 3. rewrite parse_loop_lines.
  - f_equal. apply map_eq. intros k. rewrite foldl_insert_lookup.
    destruct (decide (k ∈ sorted_keys values)) as [(v & Hv)%elem_of_sorted_keys|Hk].
    + by rewrite Hv.
    + rewrite elem_of_sorted_keys, <- eq_None_not_Some in Hk. by rewrite Hk, lookup_empty.
  - apply Forall_forall. intros k Hk. apply Hkeys, elem_of_sorted_keys, Hk.
  - pose proof (length_marshal_lines values (sorted_keys values)). unfold marshal. lia.
Qed.
End Roundtrip.

(** ** Termination of the parser *)

Section Fuel.
Implicit Types (rest input : list ascii).

Definition shorter rest input : Prop := (length rest <= length input)%nat.

Lemma skipHorizontalSpace_shorter input : shorter (skipHorizontalSpace input) input.
Proof.
  unfold shorter. induction input as [|c rest IH]; cbn; [lia|]. destruct (is_horizontal c); cbn; lia.
Qed.

Lemma skip_blank_shorter b input : shorter (skip_blank b input) input.
Proof.
  unfold shorter. revert b; induction input as [|c rest IH]; intros b; cbn; [lia|].
  repeat case_match; cbn; try lia; by (etrans; [apply IH|lia]).
Qed.

Lemma skip_export_shorter input : shorter (skip_export input) input.
Proof.
  unfold skip_export. repeat case_match; unfold shorter; try lia.
  etrans; [apply skipHorizontalSpace_shorter|]. subst. rewrite <- H0, length_drop. lia.
Qed.

Lemma scan_key_length first input key rest :
  scan_key first input = (key, rest) → (length key + length rest = length input)%nat.
Proof.
  revert first key rest; induction input as [|c input IH]; intros first key rest; cbn.
  { by intros [= <- <-]. }
  destruct (isEnvKeyByte c first); [|by intros [= <- <-]].
  destruct (scan_key false input) as [key' rest'] eqn:E. intros [= <- <-]. cbn.
  f_equal. by eapply IH.
Qed.

Lemma to_line_end_shorter input : shorter (to_line_end input) input.
Proof. unfold shorter. induction input as [|c rest IH]; cbn; [lia|]. case_match; lia. Qed.

Lemma parseValue_shorter q value pending input v rest :
  parseValue q value pending input = Ok (v, rest) → shorter rest input.
Proof.
  unfold shorter. remember (length input) as n eqn:Hn.
  revert q value pending input Hn. induction n as [n IH] using lt_wf_ind.
  intros q value pending [|c input] ->; cbn [parseValue].
  { destruct q; [intros [= <- <-]; cbn; lia|discriminate..]. }
  intros H.
  pose proof (to_line_end_shorter input) as Hline. unfold shorter in Hline.
  repeat (case_match; try discriminate); subst;
    lazymatch type of H with
    | Ok _ = Ok _ => injection H as <- <-; cbn; lia
    | parseValue _ _ _ ?i = _ => apply (IH (length i)) in H; cbn in *; lia
    end.
Qed.

Lemma parse_assignment_shorter input rest key value next :
  parse_assignment input rest = Ok (Some (key, value, next)) → (length next < length rest)%nat.
Proof.
  unfold parse_assignment. pose proof (skip_blank_shorter false rest) as H1.
  fold skipSpaceAndComments in H1. destruct (skipSpaceAndComments rest) as [|c0 rest0]; [discriminate|].
  pose proof (skip_export_shorter (c0 :: rest0)) as H2.
  destruct (scan_key true (skip_export (c0 :: rest0))) as [k rest2] eqn:E3.
  apply scan_key_length in E3. destruct k as [|a k]; [discriminate|].
  destruct (ValidateKey _); [|discriminate].
  pose proof (skipHorizontalSpace_shorter rest2) as H4.
  destruct (skipHorizontalSpace rest2) as [|c rest3]; [discriminate|].
  destruct (negb _); [discriminate|].
  destruct (parseValue _ _ _ _) as [[v nx]|] eqn:E5; [|discriminate]. intros [= <- <- <-].
  apply parseValue_shorter in E5. pose proof (skipHorizontalSpace_shorter rest3).
  unfold shorter in *. cbn in *. lia.
Qed.

Lemma parse_loop_fuel n m input rest values :
  (length rest < n)%nat → (length rest < m)%nat →
  parse_loop n input rest values = parse_loop m input rest values.
Proof.
  revert m rest values; induction n as [|n IH]; intros [|m] rest values Hn Hm; try lia; cbn [parse_loop].
  destruct (parse_assignment input rest) as [[[[key value] next]|]|] eqn:E; [|done..]. cbn.
  apply parse_assignment_shorter in E. apply IH; lia.
Qed.

Lemma parse_assignment_error input rest e :
  parse_assignment input rest = Err e → e ≠ "out of fuel".
Proof. unfold parse_assignment, line_error. intros H ->. revert H. repeat case_match; discriminate. Qed.

Lemma parse_loop_in_fuel n input rest values :
  (length rest < n)%nat → parse_loop n input rest values ≠ Err "out of fuel".
Proof.
  revert rest values; induction n as [|n IH]; intros rest values Hn; [lia|]. cbn [parse_loop].
  destruct (parse_assignment input rest) as [[[[key value] next]|]|e] eqn:E; cbn; [|done|].
  - apply parse_assignment_shorter in E. apply IH. lia.
  - intros [= ->]. by apply parse_assignment_error in E.
Qed.
End Fuel.

(** ** Lemmas about the store *)

Section StoreLemmas.
Implicit Types (values old new : gmap string string) (d : disk).

Lemma parse_assignment_key input rest key value next :
  parse_assignment input rest = Ok (Some (key, value, next)) → envKeyPattern key = true.
Proof.
  unfold parse_assignment. destruct (skipSpaceAndComments rest) as [|c0 rest0]; [discriminate|].
  destruct (scan_key true _) as [[|a k] rest2]; [discriminate|].
  unfold ValidateKey, reject. destruct (envKeyPattern _) eqn:E; [|discriminate]. cbn [negb].
  destruct (skipHorizontalSpace rest2) as [|c rest3]; [discriminate|].
  destruct (negb _); [discriminate|].
  destruct (parseValue _ _ _ _) as [[v nx]|]; [|discriminate]. by intros [= <- <- <-].
Qed.

Definition keys_valid values : Prop := map_Forall (λ key _, envKeyPattern key = true) values.

Lemma parse_loop_keys n input rest acc values :
  keys_valid acc → parse_loop n input rest acc = Ok values → keys_valid values.
Proof.
  revert rest acc; induction n as [|n IH]; intros rest acc Hacc; cbn; [discriminate|].
  destruct (parse_assignment input rest) as [[[[key value] next]|]|] eqn:E; cbn; [|by intros [= <-]|discriminate].
  intros H. eapply IH; [|done]. apply map_Forall_insert_2; [|done]. by eapply parse_assignment_key.
Qed.

Lemma load_file_keys data values : load_file data = Ok values → keys_valid values.
Proof.
  unfold load_file. destruct data as [data|]; [|intros [= <-]; apply map_Forall_empty].
  case_match; [discriminate|]. apply parse_loop_keys, map_Forall_empty.
Qed.

Lemma mapM_ValidateKey values :
  keys_valid values → ∃ us, mapM ValidateKey (sorted_keys values) = Ok us.
Proof.
  intros Hv. assert (Forall (λ key, envKeyPattern key = true) (sorted_keys values)) as H.
  { apply Forall_forall. intros k (v & Hk)%elem_of_sorted_keys. by eapply Hv. }
  induction H as [|k ks Hk _ (us & IH)]; [by eexists|].
  eexists. cbn. rewrite IH. unfold ValidateKey. by rewrite Hk.
Qed.

(** What a write of [new] over a file read as [old] may leave behind. *)
Definition replaced (path : string * string) d old new (r : run disk unit) : Prop :=
  (∀ path', path' ≠ path → run_disk r !! path' = d !! path') ∧
  match run_outcome r with
  | Done _ => load_file (run_disk r !! path) = Ok new
  | _ => load_file (run_disk r !! path) = Ok old ∨ load_file (run_disk r !! path) = Ok new
  end.

Lemma io_write_replaced path d fs f old new :
  load_file (d !! path) = Ok old → load_file (f d !! path) = Ok new →
  (∀ path', path' ≠ path → f d !! path' = d !! path') →
  replaced path d old new (io_write f d fs).
Proof. intros Hold Hnew Hframe. destruct fs as [|[] fs]; split; cbn; auto. Qed.

Lemma writeLocked_replaced scope path d fs old new :
  Path scope = Ok path → load_file (d !! path) = Ok old → keys_valid new →
  replaced path d old new (writeLocked scope new d fs).
Proof.
  intros Hpath Hold Hnew. unfold writeLocked. rewrite Hpath. io_simpl.
  case_bool_decide as Hempty.
  - subst new. io_simpl. destruct (d !! path) as [data|] eqn:Ed; cbn.
    + apply io_write_replaced; [by rewrite Ed|by rewrite lookup_delete_eq|].
      intros; by rewrite lookup_delete_ne.
    + split; cbn; [done|]. by rewrite Ed.
  - destruct (mapM_ValidateKey new Hnew) as (us & ->). io_simpl.
    destruct (maxEnvironmentFileBytes <? _) eqn:Esize; [split; cbn; auto|].
    apply io_write_replaced; [done| |intros; by rewrite lookup_insert_ne].
    rewrite lookup_insert_eq. cbn. rewrite Esize. apply parse_marshal.
    intros key (v & Hv). by eapply Hnew.
Qed.

Lemma validateScope_Path scope : is_ok (validateScope scope) = true → Path scope = Ok (scope_Kind scope, scope_Name scope).
Proof. unfold Path. by destruct (validateScope scope). Qed.

Lemma Path_validateScope scope path : Path scope = Ok path → validateScope scope = Ok tt.
Proof. unfold Path. destruct (validateScope scope) as [[]|]; [done|discriminate]. Qed.
End StoreLemmas.

(** ** What envstore promises *)

(** C39: Reading back what was printed gives the same variables, whatever bytes
    (quotes, spaces, newlines, comment signs) their values contain. *)
Theorem parse_marshal_roundtrip values :
  (∀ key, is_Some (values !! key) → envKeyPattern key = true) →
  parse (marshal values) = Ok values.
Proof. apply parse_marshal. Qed.

(** The parser terminates on every input: its loop takes at most one turn per
    byte and a last one, so that more fuel never changes its answer. *)
Theorem parse_terminates data n :
  (length data < n)%nat → parse_loop n data data ∅ = parse data ∧ parse data ≠ Err "out of fuel".
Proof.
  intros Hn. split; [apply parse_loop_fuel; lia|]. apply parse_loop_in_fuel. lia.
Qed.

(** Set on a readable file changes exactly the variable it names in exactly
    that scope's file; if it fails or the process dies, the file reads as
    before or as after, and no other scope's file has changed. *)
Theorem Set_atomic scope path key value d fs old :
  Path scope = Ok path → envKeyPattern key = true → load_file (d !! path) = Ok old →
  replaced path d old (<[key := value]> old) (Set_ scope key value d fs).
Proof.
  intros Hpath Hkey Hold. unfold Set_. rewrite (Path_validateScope _ _ Hpath).
  unfold ValidateKey. rewrite Hkey. unfold loadLocked. rewrite Hpath. io_simpl.
  cbn [negb reject io_lift]. io_simpl. rewrite Hold. io_simpl.
  apply writeLocked_replaced; [done..|].
  apply map_Forall_insert_2; [done|]. by eapply load_file_keys.
Qed.

(** Unset on a readable file removes exactly the named variable, and reports
    whether it was there; an absent variable leaves the disk alone. *)
Theorem Unset_atomic scope path key d fs old :
  Path scope = Ok path → envKeyPattern key = true → load_file (d !! path) = Ok old →
  let r := Unset_ scope key d fs in
  (∀ path', path' ≠ path → run_disk r !! path' = d !! path') ∧
  match run_outcome r with
  | Done existed => existed = bool_decide (is_Some (old !! key)) ∧
      load_file (run_disk r !! path) = Ok (delete key old)
  | _ => is_Some (old !! key) ∧
      (load_file (run_disk r !! path) = Ok old ∨ load_file (run_disk r !! path) = Ok (delete key old))
  end.
Proof.
  intros Hpath Hkey Hold. cbn zeta. unfold Unset_. rewrite (Path_validateScope _ _ Hpath).
  unfold ValidateKey. rewrite Hkey. unfold loadLocked. rewrite Hpath. io_simpl.
  cbn [negb reject io_lift]. io_simpl. rewrite Hold. io_simpl.
  destruct (old !! key) as [v|] eqn:Ev; io_simpl.
  - destruct (writeLocked_replaced scope path d fs old (delete key old)) as [Hframe Hfile]; [done..| |].
    { by apply map_Forall_delete, load_file_keys with (data := d !! path). }
    destruct (writeLocked _ _ d fs) as [[[]|e|] d' fs']; cbn in Hframe, Hfile; io_simpl; rewrite ?bool_decide_eq_true_2 by eauto; eauto 10.
  - split; [done|]. rewrite delete_id by done. split; [|done]. by rewrite bool_decide_eq_false_2 by (intros [? [=]]).
Qed.

(** ** Concrete instances *)

Definition sample_values : gmap string string := {["KEY_1" := "it's a # value"]}.

Lemma sample_values_keys key : is_Some (sample_values !! key) → envKeyPattern key = true.
Proof. unfold sample_values. intros [v Hv]. apply lookup_singleton_Some in Hv as [<- _]. reflexivity. Qed.

Lemma parse_marshal_roundtrip_witness : parse (marshal sample_values) = Ok sample_values.
Proof. apply (parse_marshal_roundtrip sample_values). exact sample_values_keys. Defined.

Lemma parse_terminates_witness :
  parse_loop 9 (bytes "A=1") (bytes "A=1") ∅ = parse (bytes "A=1") ∧ parse (bytes "A=1") ≠ Err "out of fuel".
Proof. apply (parse_terminates (bytes "A=1") 9). vm_compute. lia. Defined.

Definition sample_scope : Scope := mkScope ScopeSkill "go-tools".

Lemma Set_atomic_witness :
  replaced ("skill", "go-tools") ∅ ∅ (<["KEY" := "v"]> ∅) (Set_ sample_scope "KEY" "v" ∅ [Uncertain]).
Proof. apply (Set_atomic sample_scope ("skill", "go-tools") "KEY" "v" ∅ [Uncertain] ∅); vm_compute; reflexivity. Defined.

Definition sample_disk : gmap (string * string) (list ascii) :=
  {[("skill", "go-tools") := marshal sample_values]}.

Lemma Unset_atomic_witness :
  run_disk (Unset_ sample_scope "KEY_1" sample_disk [Refused]) !! ("mcp", "go-tools") = None.
Proof.
  refine (eq_trans (proj1 (Unset_atomic sample_scope ("skill", "go-tools") "KEY_1" sample_disk [Refused] sample_values
    _ _ _) ("mcp", "go-tools") _) _); vm_compute; [reflexivity..|discriminate|reflexivity].
Defined.
