(* ===== verification/Insertion.v ===== *)
(** * Insertion: the queue of user supplements (internal/insertion)

    A supplement is text a user sends while a conversation runs tools; it is
    delivered inside the response of a later tool call and confirmed by a
    receipt.  This file models store.go, delivery.go, delivery_failure.go,
    delivery_validation.go and view.go: the durable queue, every operation on
    it, and the public view.

    The queue file holds its decoded content (encoding/json is taken to read
    back what it wrote) and its size; [encoded_len] is the number of bytes
    json.MarshalIndent produces.  [ctx n] says whether the n-th look of a call
    at its context finds it cancelled (the second also covers a lock that
    cannot be taken).  Random bytes are arguments. *)

From S2P Require Import Prelude GoText Durable.
Local Open Scope Z_scope.

Definition Lifetime : Z := 300 * Second.
Definition MaxTextBytes : Z := 8192.
Definition MaxPending : Z := 16.
Definition MaxPendingBytes : Z := 32768.
Definition MaxRecords : Z := 512.
Definition MaxStoreBytes : Z := 8388608.
Definition MaxAutomaticDeliveries : Z := 3.
Definition MaxTotalDeliveries : Z := 6.
Definition ReceiptWait : Z := 30 * Second.

Definition ErrConflict : string := "insertion submission id already has different content".
Definition ErrLimit : string := "insertion queue capacity exceeded".
Definition ErrNotFound : string := "insertion not found".
Definition ErrReceipt : string :=
  "insertion receipt does not match a delivered message in the current scope".
Definition ErrContext : string := "context canceled".

Record Target : Type := mkTarget {
  tg_Owner : string;
  tg_Conversation : string;
  tg_Task : string;
  tg_Thread : string;
  tg_Workspace : string;
}.

Record Item : Type := mkItem {
  it_Target : Target;
  it_ID : string;
  it_SubmissionID : string;
  it_Sequence : Z;
  it_Text : string;
  it_Status : string;
  it_ExpiredFrom : string;
  it_CreatedAt : Time;
  it_ExpiresAt : Time;
  it_UpdatedAt : Time;
  it_CallID : string;
  it_RunID : string;
  it_DeliveryAttempts : Z;
  it_ReceiptToken : string;
  it_InnerAppendedAt : option Time;
  it_ForwardedAt : option Time;
  it_AcknowledgedAt : option Time;
  it_AcknowledgedBy : string;
  it_OuterCallID : string;
  it_HostType : string;
  it_DeliveryReason : string;
  it_RetryRequested : bool;
  it_RetryAfter : option Time;
}.

#[export] Instance Target_eta : Eta Target := λ t,
  mkTarget (tg_Owner t) (tg_Conversation t) (tg_Task t) (tg_Thread t) (tg_Workspace t).
#[export] Instance Item_eta : Eta Item := λ i,
  mkItem (it_Target i) (it_ID i) (it_SubmissionID i) (it_Sequence i) (it_Text i) (it_Status i)
    (it_ExpiredFrom i) (it_CreatedAt i) (it_ExpiresAt i) (it_UpdatedAt i) (it_CallID i) (it_RunID i)
    (it_DeliveryAttempts i) (it_ReceiptToken i) (it_InnerAppendedAt i) (it_ForwardedAt i)
    (it_AcknowledgedAt i) (it_AcknowledgedBy i) (it_OuterCallID i) (it_HostType i)
    (it_DeliveryReason i) (it_RetryRequested i) (it_RetryAfter i).

Record diskState : Type := mkState {
  st_SchemaVersion : Z;
  st_Sequence : Z;
  st_Items : list Item;
}.
#[export] Instance diskState_eta : Eta diskState := λ s,
  mkState (st_SchemaVersion s) (st_Sequence s) (st_Items s).

Record Transport : Type := mkTransport {
  tr_HostType : string;
  tr_OuterCallID : string;
  tr_Passthrough : bool;
}.

Record Receipt : Type := mkReceipt { rc_InsertionID : string; rc_Token : string }.

(** queue.json: [None] when absent. *)
Abbreviation disk := (option (file diskState)).

(** ** Statuses *)

Definition waiting (status : string) : bool := (status =s "pending") || (status =s "target_changed").

Definition unconfirmed (status : string) : bool :=
  (status =s "inner_appended") || (status =s "outer_forwarded") || (status =s "delivery_unknown").

Definition known_status (status : string) : bool :=
  existsb (String.eqb status)
    ["pending"; "target_changed"; "expired"; "cancelled"; "reserved"; "attached"; "inner_appended";
     "outer_forwarded"; "delivery_unknown"; "acknowledged"].

Definition validDeliveryRecord (item : Item) : bool :=
  if negb (known_status (it_Status item)) then false
  else if (it_DeliveryAttempts item <? 0) || (MaxTotalDeliveries <? it_DeliveryAttempts item)
    || (80 <? len (it_HostType item)) || (160 <? len (it_OuterCallID item))
    || (160 <? len (it_DeliveryReason item)) then false
  else if (it_ReceiptToken item ≠s "")
    && negb (bool_decide (hex_decoded_len (it_ReceiptToken item) = Some 16)) then false
  else if it_Status item =s "acknowledged" then
    not_nil (it_InnerAppendedAt item) && not_nil (it_AcknowledgedAt item)
    && (0 <? it_DeliveryAttempts item) && (it_ReceiptToken item ≠s "")
    && ((it_AcknowledgedBy item =s "receiver_receipt") || (it_AcknowledgedBy item =s "host_context_committed"))
  else is_nil (it_AcknowledgedAt item) && (it_AcknowledgedBy item =s "").

Definition sameTarget (item current : Target) : bool :=
  (tg_Owner item =s tg_Owner current) && (tg_Conversation item =s tg_Conversation current)
  && (tg_Task item =s tg_Task current) && (tg_Thread item =s tg_Thread current)
  && ((tg_Workspace item =s "") || (tg_Workspace item =s tg_Workspace current)).

Definition canRedeliver (item : Item) (received : Time) : bool :=
  unconfirmed (it_Status item) && (0 <? it_DeliveryAttempts item) && (it_ReceiptToken item ≠s "")
  && (it_DeliveryAttempts item <? MaxTotalDeliveries)
  && ((it_DeliveryAttempts item <? MaxAutomaticDeliveries) || it_RetryRequested item)
  && (it_UpdatedAt item <? received) && (received <? it_ExpiresAt item)
  && match it_RetryAfter item with None => true | Some after => negb (received <? after) end.

(** Public redacts the owner, the run and the receipt secret. *)
Definition Public (item : Item) : Item :=
  item <| it_Target := (it_Target item) <| tg_Owner := "" |> |> <| it_RunID := "" |>
    <| it_ReceiptToken := "" |>.

(** ** Expiry *)

Definition legacy_reason : string := "legacy_inner_response_without_receipt".
Definition elapsed_reason : string := "receipt_missing_deadline_elapsed".

(** An unconfirmed record past its deadline. *)
Definition expire_receipt (now : Time) (item : Item) : Item * bool :=
  if unconfirmed (it_Status item) && negb (now <? it_ExpiresAt item)
     && (it_DeliveryReason item ≠s legacy_reason)
     && ((it_Status item ≠s "delivery_unknown") || (it_DeliveryReason item ≠s elapsed_reason)
         || it_RetryRequested item || not_nil (it_RetryAfter item))
  then (item <| it_Status := "delivery_unknown" |> <| it_DeliveryReason := elapsed_reason |>
          <| it_UpdatedAt := now |> <| it_RetryRequested := false |> <| it_RetryAfter := None |>, true)
  else (item, false).

(** A waiting record past its deadline. *)
Definition expire_waiting (now : Time) (item : Item) : Item * bool :=
  if waiting (it_Status item) && negb (now <? it_ExpiresAt item)
  then (item <| it_ExpiredFrom := it_Status item |> <| it_Status := "expired" |>
          <| it_RetryRequested := false |> <| it_RetryAfter := None |> <| it_UpdatedAt := now |>, true)
  else (item, false).

Definition expire_item (now : Time) (item : Item) : Item * bool * list Item :=
  let '(item, dirty) := expire_receipt now item in
  let '(item, dirty') := expire_waiting now item in
  (item, dirty || dirty', []).

Definition expire (state : diskState) (now : Time) : diskState * bool :=
  let '(items, dirty, _) := sweep (expire_item now) (st_Items state) in
  (state <| st_Items := items |>, dirty).

(** ** Reading and changing the queue *)

Definition valid_item (item : Item) : bool :=
  matches_id (it_ID item) && (len (it_Text item) <=? MaxTextBytes) && negb (IsZero (it_CreatedAt item))
  && (it_ExpiresAt item =? it_CreatedAt item + Lifetime) && validDeliveryRecord item.

Definition migrate_item (item : Item) : Item :=
  if it_Status item =s "attached"
  then item <| it_Status := "delivery_unknown" |> <| it_DeliveryReason := legacy_reason |>
  else item.

Definition decode_state (state : diskState) : result (diskState * bool) :=
  if (negb (st_SchemaVersion state =? 1) && negb (st_SchemaVersion state =? 2))
     || (MaxRecords <? Z.of_nat (length (st_Items state)))
  then Err "unsupported insertion store; original preserved"
  else if negb (forallb valid_item (st_Items state))
     || negb (bool_decide (NoDup (map it_ID (st_Items state))))
  then Err "invalid insertion record; original preserved"
  else if st_SchemaVersion state =? 1
  then Ok (mkState 2 (st_Sequence state) (map migrate_item (st_Items state)), true)
  else Ok (state, false).

Definition load (d : disk) : result (diskState * bool) :=
  match d with
  | None => Ok (mkState 2 0 [], false)
  | Some f =>
      if MaxStoreBytes <? f_size f then Err "invalid insertion store; original preserved"
      else match f_content f with
      | None => Err "read insertion store; original preserved"
      | Some state => decode_state state
      end
  end.

Section Operations.
Variable encoded_len : diskState → Z.

(** The read-modify-write of the queue under its lock.  [fn] returns the new
    state, whether it must be written, and the answer of the operation. *)
Definition change {A} (ctx : nat → bool) (now : Time)
    (fn : diskState → Time → result (diskState * bool * A)) : io disk A :=
  if ctx 0%nat || ctx 1%nat then io_fail ErrContext else
  d ← io_read (λ d : disk, d);
  '(state, migrated) ← io_lift (load d);
  if ctx 2%nat then io_fail ErrContext else
  '(state, dirty, a) ← io_lift (fn state now);
  if negb dirty && negb migrated then mret a
  else if MaxStoreBytes <? encoded_len state then io_fail ErrLimit
  else if ctx 3%nat then io_fail ErrContext
  else io_write (λ _, Some (mkFile (encoded_len state + 1) (Some state))) ;; mret a.

(** *** New: expiry, and reservations of an earlier process *)

Definition restart_item (run : string) (now : Time) (item : Item) : Item * bool * list Item :=
  if (it_Status item =s "reserved") && (it_RunID item ≠s run)
  then (item <| it_Status := "delivery_unknown" |>
          <| it_DeliveryReason := "process_restarted_before_receipt" |> <| it_UpdatedAt := now |>, true, [])
  else (item, false, []).

Definition new_body (run : string) (state : diskState) (now : Time) : result (diskState * bool * unit) :=
  let '(state, dirty) := expire state now in
  let '(items, dirty', _) := sweep (restart_item run now) (st_Items state) in
  Ok (state <| st_Items := items |>, dirty || dirty', tt).

Definition New (ctx : nat → bool) (run : string) (now : Time) : io disk unit :=
  change ctx now (new_body run).

(** *** Add *)

Definition in_conversation (owner conversation : string) (item : Item) : bool :=
  (tg_Owner (it_Target item) =s owner) && (tg_Conversation (it_Target item) =s conversation).

(** The records that count against the capacity of their conversation. *)
Definition outstanding (now : Time) (item : Item) : bool :=
  waiting (it_Status item) || (it_Status item =s "reserved")
  || unconfirmed (it_Status item) && (now <? it_ExpiresAt item).

(** The records Add keeps: live ones, and those changed within a day. *)
Definition retained (now : Time) (item : Item) : bool :=
  waiting (it_Status item) || (it_Status item =s "reserved")
  || (time_sub now (it_UpdatedAt item) <? 86400 * Second).

Definition new_item (target : Target) (submissionID text id : string) (sequence : Z) (now : Time) : Item :=
  mkItem target id submissionID sequence text "pending" "" now (now + Lifetime) now "" "" 0 ""
    None None None "" "" "" "" false None.

Definition sum_bytes (items : list Item) : Z := foldr (λ i n, len (it_Text i) + n) 0 items.

Definition add_body (target : Target) (submissionID text : string) (raw : list ascii)
    (state : diskState) (now : Time) : result (diskState * bool * Item) :=
  let '(state, dirty) := expire state now in
  let mine := List.filter (in_conversation (tg_Owner target) (tg_Conversation target)) (st_Items state) in
  match List.find (λ i, it_SubmissionID i =s submissionID) mine with
  | Some item =>
      if (it_Text item ≠s text) || negb (sameTarget (it_Target item) target) then Err ErrConflict
      else Ok (state, dirty, item)
  | None =>
      let counted := List.filter (outstanding now) mine in
      if (MaxPending <=? Z.of_nat (length counted)) || (MaxPendingBytes <? sum_bytes counted + len text)
      then Err ErrLimit
      else
        let kept := List.filter (retained now) (st_Items state) in
        if MaxRecords <=? Z.of_nat (length kept) then Err ErrLimit
        else
          let sequence := u64 (st_Sequence state + 1) in
          let item := new_item target submissionID text ("ins_" +:+ hex_encode raw) sequence now in
          Ok (mkState (st_SchemaVersion state) sequence (kept ++ [item]), true, item)
  end.

Definition Add (ctx : nat → bool) (now : Time) (raw : list ascii)
    (target : Target) (submissionID text : string) : io disk Item :=
  if negb (matches_id (tg_Conversation target)) || (tg_Owner target =s "")
     || negb (matches_id submissionID) || (TrimSpace text =s "")
     || negb (utf8_valid (bytes text)) || (MaxTextBytes <? len text)
  then io_fail "insertion requires a valid target, submission id and 1-8192 UTF-8 bytes"
  else change ctx now (add_body target submissionID text raw).

(** *** Reserve *)

Definition first_claim (item : Item) : bool :=
  (it_Status item =s "pending")
  || (it_Status item =s "expired") && (it_ExpiredFrom item =s "pending") && (it_CallID item =s "").

Definition retry_claim (item : Item) (callID : string) (received : Time) : bool :=
  canRedeliver item received && (it_CallID item ≠s callID).

Definition reserve_item (run callID : string) (target : Target) (received now : Time)
    (rand : string → list ascii) (item : Item) : Item * bool * list Item :=
  if negb (first_claim item || retry_claim item callID received)
     || negb (in_conversation (tg_Owner target) (tg_Conversation target) item)
  then (item, false, [])
  else if received <? it_CreatedAt item then (item, false, [])
  else if negb (received <? it_ExpiresAt item) then
    if it_Status item =s "expired" then (item, false, [])
    else (item <| it_ExpiredFrom := it_Status item |> <| it_Status := "expired" |>
            <| it_UpdatedAt := now |>, true, [])
  else if negb (sameTarget (it_Target item) target) then
    (item <| it_Status := "target_changed" |> <| it_RetryRequested := false |> <| it_RetryAfter := None |>
       <| it_UpdatedAt := now |>, true, [])
  else
    let token := if it_ReceiptToken item =s "" then hex_encode (rand (it_ID item)) else it_ReceiptToken item in
    let item' := item <| it_Status := "reserved" |> <| it_ReceiptToken := token |>
      <| it_DeliveryAttempts ::= (λ n, n + 1) |> <| it_RetryRequested := false |> <| it_RetryAfter := None |>
      <| it_DeliveryReason := "" |> <| it_ExpiredFrom := "" |> <| it_CallID := callID |>
      <| it_RunID := run |> <| it_UpdatedAt := now |> in
    (item', true, [item']).

Definition reserve_body (run callID : string) (target : Target) (received : Time) (rand : string → list ascii)
    (state : diskState) (now : Time) : result (diskState * bool * list Item) :=
  let '(items, dirty, out) := sweep (reserve_item run callID target received now rand) (st_Items state) in
  let '(state, dirty') := expire (state <| st_Items := items |>) now in
  Ok (state, dirty' || dirty, out).

Definition Reserve (ctx : nat → bool) (run : string) (now : Time) (rand : string → list ascii)
    (target : Target) (callID : string) (received : Time) : io disk (list Item) :=
  change ctx now (reserve_body run callID target received rand).

(** *** VerifyTarget *)

Definition verify_item (run callID : string) (target : Target) (now : Time) (item : Item) : Item * bool * list Item :=
  if (it_Status item =s "reserved") && (it_CallID item =s callID) && (it_RunID item =s run)
     && negb (sameTarget (it_Target item) target)
  then (item <| it_Status := "target_changed" |> <| it_CallID := "" |> <| it_RunID := "" |>
          <| it_RetryRequested := false |> <| it_RetryAfter := None |> <| it_UpdatedAt := now |>, true, [])
  else (item, false, []).

Definition verify_body (run callID : string) (target : Target) (state : diskState) (now : Time) :
    result (diskState * bool * unit) :=
  let '(items, dirty, _) := sweep (verify_item run callID target now) (st_Items state) in
  let '(state, dirty') := expire (state <| st_Items := items |>) now in
  Ok (state, dirty' || dirty, tt).

Definition VerifyTarget (ctx : nat → bool) (run : string) (now : Time) (callID : string) (target : Target) :
    io disk unit :=
  change ctx now (verify_body run callID target).

(** *** FinishForHost *)

Definition finish_item (run callID : string) (attached : bool) (host : Transport) (now : Time) (item : Item) :
    Item * bool * list Item :=
  if (it_Status item ≠s "reserved") || (it_CallID item ≠s callID) || (it_RunID item ≠s run)
  then (item, false, [])
  else if attached then
    let reason := if tr_Passthrough host then "awaiting_host_receipt" else "awaiting_receiver_receipt" in
    let item' := item <| it_InnerAppendedAt := Some now |> <| it_Status := "inner_appended" |>
      <| it_DeliveryReason := reason |> <| it_HostType := tr_HostType host |>
      <| it_OuterCallID := tr_OuterCallID host |> <| it_RetryAfter := Some (now + ReceiptWait) |>
      <| it_UpdatedAt := now |> in
    (item', true, [item'])
  else
    (item <| it_Status := "delivery_unknown" |> <| it_DeliveryReason := "inner_response_not_committed" |>
       <| it_RetryAfter := None |> <| it_UpdatedAt := now |>, true, []).

Definition finish_body (run callID : string) (attached : bool) (host : Transport)
    (state : diskState) (now : Time) : result (diskState * bool * list Item) :=
  let '(items, dirty, out) := sweep (finish_item run callID attached host now) (st_Items state) in
  Ok (state <| st_Items := items |>, dirty, out).

Definition FinishForHost (ctx : nat → bool) (run : string) (now : Time)
    (callID : string) (attached : bool) (host : Transport) : io disk (list Item) :=
  change ctx now (finish_body run callID attached host).

Definition Finish (ctx : nat → bool) (run : string) (now : Time) (callID : string) (attached : bool) :
    io disk (list Item) :=
  FinishForHost ctx run now callID attached (mkTransport "" "" false).

(** *** Receipt *)

Fixpoint find_index (p : Item → bool) (items : list Item) : option nat :=
  match items with
  | [] => None
  | item :: rest => if p item then Some O else S <$> find_index p rest
  end.

Definition receivable (target : Target) (receipt : Receipt) (item : Item) : bool :=
  (it_ID item =s rc_InsertionID receipt) && sameTarget (it_Target item) target
  && not_nil (it_InnerAppendedAt item) && (it_ReceiptToken item ≠s "")
  && (it_ReceiptToken item =s rc_Token receipt)
  && (it_Status item ≠s "cancelled") && (it_Status item ≠s "target_changed").

(** The validation pass; [seen] maps the identifiers already looked at to
    the token given for them. *)
Fixpoint receipt_indices (target : Target) (items : list Item) (seen : gmap string string)
    (receipts : list Receipt) : result (list nat) :=
  match receipts with
  | [] => Ok []
  | receipt :: rest =>
      match seen !! rc_InsertionID receipt with
      | Some previous =>
          if previous ≠s rc_Token receipt then Err ErrReceipt
          else receipt_indices target items seen rest
      | None =>
          match find_index (receivable target receipt) items with
          | None => Err ErrReceipt
          | Some index =>
              indices ← receipt_indices target items (<[rc_InsertionID receipt := rc_Token receipt]> seen) rest;
              Ok (index :: indices)
          end
      end
  end.

Definition receipt_item (by_ outerID : string) (now : Time) (item : Item) : Item * bool :=
  if it_Status item =s "acknowledged" then (item, false)
  else if (by_ =s "outer_forwarded") && not_nil (it_ForwardedAt item) && (it_OuterCallID item =s outerID)
  then (item, false)
  else
    let item :=
      if by_ =s "outer_forwarded"
      then item <| it_Status := "outer_forwarded" |> <| it_ForwardedAt := Some now |>
             <| it_DeliveryReason := "awaiting_context_commit" |>
      else item <| it_Status := "acknowledged" |> <| it_AcknowledgedAt := Some now |>
             <| it_AcknowledgedBy := by_ |> <| it_DeliveryReason := "" |>
             <| it_RetryRequested := false |> <| it_RetryAfter := None |> in
    let item := if outerID ≠s "" then item <| it_OuterCallID := outerID |> else item in
    (item <| it_UpdatedAt := now |>, true).

Fixpoint receipt_apply (by_ outerID : string) (now : Time) (items : list Item) (indices : list nat) :
    list Item * bool * list Item :=
  match indices with
  | [] => (items, false, [])
  | index :: rest =>
      match items !! index with
      | None => receipt_apply by_ outerID now items rest
      | Some item =>
          let '(item', dirty) := receipt_item by_ outerID now item in
          let '(items', dirty', out) := receipt_apply by_ outerID now (<[index := item']> items) rest in
          (items', dirty || dirty', Public item' :: out)
      end
  end.

Definition receipt_body (target : Target) (receipts : list Receipt) (by_ outerID : string)
    (state : diskState) (now : Time) : result (diskState * bool * list Item) :=
  indices ← receipt_indices target (st_Items state) ∅ receipts;
  let '(items, dirty, out) := receipt_apply by_ outerID now (st_Items state) indices in
  Ok (state <| st_Items := items |>, dirty, out).

Definition Receipt_ (ctx : nat → bool) (now : Time) (target : Target) (receipts : list Receipt)
    (by_ outerID : string) : io disk (list Item) :=
  if (Z.of_nat (length receipts) <? 1) || (MaxPending <? Z.of_nat (length receipts))
     || ((by_ ≠s "receiver_receipt") && (by_ ≠s "host_context_committed") && (by_ ≠s "outer_forwarded"))
     || (160 <? len outerID)
  then io_fail ErrReceipt
  else change ctx now (receipt_body target receipts by_ outerID).

(** *** Retry *)

Definition retryable (item : Item) (now : Time) : bool :=
  negb (negb (unconfirmed (it_Status item)) || negb (now <? it_ExpiresAt item)
        || (MaxTotalDeliveries <=? it_DeliveryAttempts item) || (it_DeliveryAttempts item =? 0)
        || (it_ReceiptToken item =s "")).

Definition retry_body (target : Target) (id : string) (state : diskState) (now : Time) :
    result (diskState * bool * Item) :=
  match find_index (λ i, (it_ID i =s id) && sameTarget (it_Target i) target) (st_Items state) with
  | None => Err ErrNotFound
  | Some index =>
      match st_Items state !! index with
      | None => Err ErrNotFound
      | Some item =>
          if negb (retryable item now) then
            Err "supplement cannot be redelivered: expired, unissued, confirmed, or attempt limit reached"
          else if it_RetryRequested item then Ok (state, false, Public item)
          else
            let item := item <| it_RetryRequested := true |> <| it_RetryAfter := None |> <| it_UpdatedAt := now |> in
            Ok (state <| st_Items ::= <[index := item]> |>, true, Public item)
      end
  end.

Definition Retry (ctx : nat → bool) (now : Time) (target : Target) (id : string) : io disk Item :=
  change ctx now (retry_body target id).

(** *** DeliveryFailed *)

Definition failed_item (callID reason : string) (now : Time) (item : Item) : Item * bool * list Item :=
  if (it_CallID item ≠s callID) || negb (unconfirmed (it_Status item)) then (item, false, [])
  else
    let item := item <| it_Status := "delivery_unknown" |> <| it_DeliveryReason := reason |>
      <| it_UpdatedAt := now |> <| it_RetryAfter := None |> in
    (item, true, [Public item]).

Definition failed_body (callID reason : string) (state : diskState) (now : Time) :
    result (diskState * bool * list Item) :=
  let '(items, _, out) := sweep (failed_item callID reason now) (st_Items state) in
  Ok (state <| st_Items := items |>, (0 <? Z.of_nat (length out)), out).

Definition DeliveryFailed (ctx : nat → bool) (now : Time) (callID reason : string) : io disk (list Item) :=
  if (reason ≠s "outer_projection_failed") && (reason ≠s "context_commit_failed") then io_fail ErrReceipt
  else change ctx now (failed_body callID reason).

(** *** Cancel, Sweep, List *)

Definition cancel_selects (owner conversation id : string) (item : Item) : bool :=
  in_conversation owner conversation item && ((id =s "") || (it_ID item =s id)).

Definition cancel_item (owner conversation id : string) (includeReserved : bool) (now : Time) (item : Item) :
    Item * bool * list Item :=
  if cancel_selects owner conversation id item
     && (waiting (it_Status item) || unconfirmed (it_Status item)
         || includeReserved && (it_Status item =s "reserved")
         || (it_Status item =s "expired") && (it_ExpiredFrom item =s "pending"))
  then (item <| it_Status := "cancelled" |> <| it_RetryRequested := false |> <| it_RetryAfter := None |>
          <| it_UpdatedAt := now |>, true, [])
  else (item, false, []).

(** A reserved record named by its identifier refuses the withdrawal of the
    whole call; nothing is written then. *)
Definition cancel_body (owner conversation id : string) (includeReserved : bool)
    (state : diskState) (now : Time) : result (diskState * bool * unit) :=
  let '(state, dirty) := expire state now in
  let selected := List.filter (cancel_selects owner conversation id) (st_Items state) in
  if (id ≠s "") && negb includeReserved && existsb (λ i, it_Status i =s "reserved") selected
  then Err "insertion already reserved by a tool call; withdrawal was not performed"
  else if (id ≠s "") && (Z.of_nat (length selected) =? 0) then Err ErrNotFound
  else
    let '(items, dirty', _) := sweep (cancel_item owner conversation id includeReserved now) (st_Items state) in
    Ok (state <| st_Items := items |>, dirty || dirty', tt).

Definition Cancel (ctx : nat → bool) (now : Time) (owner conversation id : string) (includeReserved : bool) :
    io disk unit :=
  change ctx now (cancel_body owner conversation id includeReserved).

Definition Sweep (ctx : nat → bool) (now : Time) : io disk unit :=
  change ctx now (λ state now, let '(state, dirty) := expire state now in Ok (state, dirty, tt)).

Definition list_body {A} (view : Item → Time → A) (owner conversation : string)
    (state : diskState) (now : Time) : result (diskState * bool * list A) :=
  let '(state, dirty) := expire state now in
  Ok (state, dirty,
      map (λ i, view i now) (List.filter (in_conversation owner conversation) (st_Items state))).

Definition List_ (ctx : nat → bool) (now : Time) (owner conversation : string) : io disk (list Item) :=
  change ctx now (list_body (λ i _, Public i) owner conversation).
End Operations.

(** ** The public view (view.go) *)

Record PublicItem : Type := mkPublicItem {
  pv_Item : Item;
  pv_ReceiptType : string;
  pv_NextRetryAt : option Time;
  pv_AutomaticAttemptsRemaining : Z;
  pv_TotalAttemptsRemaining : Z;
  pv_ManualRetryAvailable : bool;
}.
#[export] Instance PublicItem_eta : Eta PublicItem := λ p,
  mkPublicItem (pv_Item p) (pv_ReceiptType p) (pv_NextRetryAt p) (pv_AutomaticAttemptsRemaining p)
    (pv_TotalAttemptsRemaining p) (pv_ManualRetryAvailable p).

Definition attemptsRemaining (limit attempts : Z) : Z :=
  if limit <=? attempts then 0 else limit - attempts.

Definition Present (item : Item) (now : Time) : PublicItem :=
  let raw := item in
  let view := mkPublicItem (Public item) "none" None 0 0 false in
  if it_Status raw =s "acknowledged" then view <| pv_ReceiptType := it_AcknowledgedBy raw |>
  else
    let view := if it_Status raw =s "outer_forwarded" then view <| pv_ReceiptType := "outer_forwarded" |> else view in
    let active := (it_Status raw =s "pending") || (it_Status raw =s "reserved") || unconfirmed (it_Status raw) in
    if negb active || negb (now <? it_ExpiresAt raw) then view
    else if unconfirmed (it_Status raw) && ((it_DeliveryAttempts raw =? 0) || (it_ReceiptToken raw =s "")) then view
    else
      let view := view
        <| pv_AutomaticAttemptsRemaining := attemptsRemaining MaxAutomaticDeliveries (it_DeliveryAttempts raw) |>
        <| pv_TotalAttemptsRemaining := attemptsRemaining MaxTotalDeliveries (it_DeliveryAttempts raw) |> in
      if negb (unconfirmed (it_Status raw)) || (pv_TotalAttemptsRemaining view =? 0) then view
      else
        let view := view <| pv_ManualRetryAvailable := negb (it_RetryRequested raw) |> in
        if it_RetryRequested raw then view <| pv_NextRetryAt := Some (it_UpdatedAt raw + 1) |>
        else if 0 <? pv_AutomaticAttemptsRemaining view then
          match it_RetryAfter raw with
          | Some after => view <| pv_NextRetryAt := Some after |>
          | None => view <| pv_NextRetryAt := Some (it_UpdatedAt raw + 1) |>
          end
        else view.

Definition Views (encoded_len : diskState → Z) (ctx : nat → bool) (now : Time) (owner conversation : string) :
    io disk (list PublicItem) :=
  change encoded_len ctx now (list_body Present owner conversation).
