(* ===== verification/InsertionSpec.v ===== *)
(** * InsertionSpec: what the queue of user supplements promises

    The invariant of the queue file, kept by every operation under every
    fault; the life cycle of a supplement; and the guarantees of the delivery
    operations, of the receipts and of the public view. *)

From S2P Require Import Prelude GoText Durable Insertion.
Local Open Scope Z_scope.

(** ** The invariant *)

(** A retry a user asked for waits for nothing, and an issue consumes it. *)
Definition retry_fits (i : Item) : Prop :=
  (it_RetryRequested i = true → it_RetryAfter i = None) ∧
  (it_Status i = "reserved" → it_RetryRequested i = false).

Record wf_item (i : Item) : Prop := {
  wi_id : matches_id (it_ID i) = true;
  wi_text : len (it_Text i) <= MaxTextBytes;
  wi_created : it_CreatedAt i ≠ 0;
  wi_expires : it_ExpiresAt i = it_CreatedAt i + Lifetime;
  wi_status : known_status (it_Status i) = true;
  wi_attempts : 0 <= it_DeliveryAttempts i <= MaxTotalDeliveries;
  wi_host : len (it_HostType i) <= 80;
  wi_outer : len (it_OuterCallID i) <= 160;
  wi_reason : len (it_DeliveryReason i) <= 160;
  wi_token : it_ReceiptToken i = "" ∨ hex_decoded_len (it_ReceiptToken i) = Some 16;
  wi_ack : it_Status i = "acknowledged" →
    it_InnerAppendedAt i ≠ None ∧ it_AcknowledgedAt i ≠ None ∧
    (it_AcknowledgedBy i = "receiver_receipt" ∨ it_AcknowledgedBy i = "host_context_committed");
  wi_unack : it_Status i ≠ "acknowledged" → it_AcknowledgedAt i = None ∧ it_AcknowledgedBy i = "";
  (** a record never issued can be claimed for the first time *)
  wi_fresh : it_Status i = "pending" ∨ it_Status i = "expired" ∧ it_ExpiredFrom i = "pending" →
    it_DeliveryAttempts i = 0;
  (** an issued record has a token *)
  wi_issued : it_Status i = "reserved" ∨ it_InnerAppendedAt i ≠ None →
    0 < it_DeliveryAttempts i ∧ it_ReceiptToken i ≠ "";
  wi_retry : retry_fits i;
}.

Record wf_state (s : diskState) : Prop := {
  ws_schema : st_SchemaVersion s = 2;
  ws_count : Z.of_nat (length (st_Items s)) <= MaxRecords;
  ws_ids : NoDup (map it_ID (st_Items s));
  ws_items : Forall wf_item (st_Items s);
}.

Lemma streq_true a b : (a =s b) = true ↔ a = b.
Proof. apply String.eqb_eq. Qed.
Lemma streq_false a b : (a =s b) = false ↔ a ≠ b.
Proof. apply String.eqb_neq. Qed.

Lemma not_nil_true {A} (o : option A) : not_nil o = true ↔ o ≠ None.
Proof. by destruct o. Qed.

Lemma wf_valid_item i : wf_item i → valid_item i = true.
Proof.
  intros [Hid Htext Hcr Hex Hst Hat Hho Hou Hre Hto Hack Hunack _ Hiss _]. unfold valid_item, validDeliveryRecord.
  rewrite Hid, Hst. cbn [negb andb].
  rewrite (proj2 (Z.leb_le _ _) Htext), (proj2 (Z.eqb_eq _ _) Hex).
  unfold IsZero. rewrite (proj2 (Z.eqb_neq _ _) Hcr). cbn [negb andb].
  repeat match goal with |- context [?a <? ?b] => rewrite (proj2 (Z.ltb_ge a b)) by lia end. cbn [orb].
  assert ((it_ReceiptToken i ≠s "") && negb (bool_decide (hex_decoded_len (it_ReceiptToken i) = Some 16)) = false) as ->.
  { destruct Hto as [->|Hto]; [done|]. rewrite bool_decide_eq_true_2 by done. apply andb_false_r. }
  destruct (String.eqb_spec (it_Status i) "acknowledged") as [E|E].
  - destruct (Hack E) as (H1 & H2 & H3). destruct Hiss as [H4 H5]; [by right|].
    rewrite (proj2 (not_nil_true _) H1), (proj2 (not_nil_true _) H2), (proj2 (Z.ltb_lt _ _) H4).
    rewrite (proj2 (streq_false _ _) H5). cbn. apply orb_true_iff. rewrite !streq_true. done.
  - destruct (Hunack E) as [-> ->]. done.
Qed.

(** A queue written in a well-formed state is read back as it is. *)
Lemma decode_wf_state s : wf_state s → decode_state s = Ok (s, false).
Proof.
  intros [Hs Hc Hi Hw]. unfold decode_state. rewrite Hs. cbn [Z.eqb Pos.eqb negb andb orb].
  rewrite (proj2 (Z.ltb_ge _ _) Hc), bool_decide_eq_true_2 by done.
  rewrite (proj2 (forallb_forall _ _)); [done|].
  intros i Hin%list_elem_of_In. apply wf_valid_item. by eapply Forall_forall in Hw.
Qed.

(** ** Evolution of records *)

Definition terminal (status : string) : Prop := status = "acknowledged" ∨ status = "cancelled".

(** [evolves acks i j]: record [j] is a later version of [i].  What the user
    submitted never changes, nor does a confirmed or withdrawn record; a
    record becomes confirmed only where [acks] allows it; attempts are only
    ever added. *)
Record evolves (acks : bool) (i j : Item) : Prop := {
  ev_id : it_ID j = it_ID i;
  ev_target : it_Target j = it_Target i;
  ev_submission : it_SubmissionID j = it_SubmissionID i;
  ev_text : it_Text j = it_Text i;
  ev_created : it_CreatedAt j = it_CreatedAt i;
  ev_expires : it_ExpiresAt j = it_ExpiresAt i;
  ev_terminal : terminal (it_Status i) → j = i;
  ev_acked : it_Status j = "acknowledged" → acks = true ∨ j = i;
  ev_attempts : it_DeliveryAttempts i <= it_DeliveryAttempts j;
}.

(** [tame acks f]: the loop body [f] keeps the invariant and only evolves. *)
Definition tame (acks : bool) (f : Item → Item) : Prop :=
  ∀ i, wf_item i → wf_item (f i) ∧ evolves acks i (f i).

Lemma evolves_refl acks i : evolves acks i i.
Proof. split; auto; lia. Qed.

Lemma evolves_trans acks i j k : evolves acks i j → evolves acks j k → evolves acks i k.
Proof.
  intros [? ? ? ? ? ? Ht Ha ?] [? ? ? ? ? ? Ht' Ha' ?]. split; try congruence; [| |lia].
  - intros H. specialize (Ht H) as ->. auto.
  - intros H. destruct (Ha' H) as [?| ->]; auto.
Qed.

Lemma tame_compose acks f g : tame acks f → tame acks g → tame acks (λ i, g (f i)).
Proof.
  intros Hf Hg i Hi. destruct (Hf i Hi) as [Hfi Hev]. destruct (Hg _ Hfi) as [Hgi Hev'].
  split; [done|]. by eapply evolves_trans.
Qed.

(** ** The loop bodies are tame *)

Lemma waiting_true s : waiting s = true ↔ s = "pending" ∨ s = "target_changed".
Proof. unfold waiting. by rewrite orb_true_iff, !streq_true. Qed.
Lemma unconfirmed_true s :
  unconfirmed s = true ↔ s = "inner_appended" ∨ s = "outer_forwarded" ∨ s = "delivery_unknown".
Proof. unfold unconfirmed. rewrite !orb_true_iff, !streq_true. tauto. Qed.

(** Turns the boolean tests of the code into propositions. *)
Ltac reflect_tests :=
  repeat match goal with
  | H : _ && _ = true |- _ => apply andb_true_iff in H as [? H]
  | H : _ || _ = false |- _ => apply orb_false_iff in H as [? H]
  | H : _ || _ = true |- _ => apply orb_true_iff in H
  | H : negb _ = true |- _ => apply negb_true_iff in H
  | H : negb _ = false |- _ => apply negb_false_iff in H
  | H : (_ =s _) = true |- _ => apply streq_true in H
  | H : (_ =s _) = false |- _ => apply streq_false in H
  | H : waiting _ = true |- _ => apply waiting_true in H
  | H : unconfirmed _ = true |- _ => apply unconfirmed_true in H
  | H : not_nil _ = true |- _ => apply not_nil_true in H
  | H : (_ <? _) = true |- _ => apply Z.ltb_lt in H
  | H : (_ <? _) = false |- _ => apply Z.ltb_ge in H
  | H : (_ <=? _) = true |- _ => apply Z.leb_le in H
  | H : (_ <=? _) = false |- _ => apply Z.leb_gt in H
  end.

(** The fields that only an issue or a receipt changes. *)
Definition core (i : Item) :=
  (it_ID i, it_Target i, it_SubmissionID i, it_Text i, it_CreatedAt i, it_ExpiresAt i,
   (it_DeliveryAttempts i, it_ReceiptToken i, it_InnerAppendedAt i, it_AcknowledgedAt i, it_AcknowledgedBy i)).

(** The common case: a live record changes status, and neither is issued nor
    confirmed by that. *)
Lemma tame_update acks i j :
  wf_item i → core j = core i →
  it_Status i ≠ "acknowledged" → it_Status i ≠ "cancelled" →
  known_status (it_Status j) = true → it_Status j ≠ "acknowledged" →
  len (it_HostType j) <= 80 → len (it_OuterCallID j) <= 160 → len (it_DeliveryReason j) <= 160 →
  (it_Status j = "pending" ∨ it_Status j = "expired" ∧ it_ExpiredFrom j = "pending" →
     it_DeliveryAttempts i = 0) →
  (it_Status j = "reserved" → it_Status i = "reserved") → retry_fits j →
  wf_item j ∧ evolves acks i j.
Proof.
  intros Hi Hcore Hna Hnc Hk Hnj Hh Ho Hr Hf Hres Hrf. injection Hcore as E1 E2 E3 E4 E5 E6 E7 E8 E9 E10 E11.
  destruct Hi. split; split; rewrite ?E1, ?E2, ?E3, ?E4, ?E5, ?E6, ?E7, ?E8, ?E9, ?E10, ?E11; auto; try done; try lia.
  - intros [?|?]; auto.
  - intros [?|?]; congruence.
Qed.

(** An update that clears the retry, or keeps it on a record that is not
    reserved. *)
Ltac keep_retry Hi :=
  let H1 := fresh in let H2 := fresh in
  destruct (wi_retry _ Hi) as [H1 H2]; split;
  cbn [over it_Status it_RetryRequested it_RetryAfter];
  first [exact H1 | exact H2 | discriminate | reflexivity | intros; reflexivity
        | intros; discriminate | idtac].

(** Closes the side conditions of [tame_update] for a concrete update. *)
Ltac side_condition Hi :=
  lazymatch goal with
  | |- core _ = core _ => reflexivity
  | |- retry_fits _ => keep_retry Hi
  | |- _ => cbn [over it_Status it_HostType it_OuterCallID it_DeliveryReason it_ExpiredFrom it_DeliveryAttempts]
  end;
  lazymatch goal with
  | |- it_Status ?i ≠ _ => match goal with H : it_Status i = _ |- _ => rewrite H; discriminate end
  | |- _ ≠ _ => discriminate
  | |- known_status _ = true => reflexivity
  | |- len (it_HostType _) <= _ => exact (wi_host _ Hi)
  | |- len (it_OuterCallID _) <= _ => exact (wi_outer _ Hi)
  | |- len (it_DeliveryReason _) <= _ => exact (wi_reason _ Hi)
  | H : len ?r <= _ |- len ?r <= _ => exact H
  | |- len _ <= _ => vm_compute; discriminate
  | |- _ = "reserved" → _ => first [discriminate | intros _; assumption]
  | |- _ ∨ _ → _ =>
      first [ intros [?|[? ?]]; discriminate
            | intros [?|[_ ?]]; [discriminate|];
              match goal with
              | F : _ → it_DeliveryAttempts ?i = 0 |- _ => apply F; left; assumption
              | H : ?x = _, H' : ?x = _ |- _ => rewrite H in H'; discriminate
              end ]
  end.

(** Decides the tests of a loop body, leaving the branch that changes the
    record. *)
Ltac split_tests :=
  repeat match goal with
  | |- context [if ?b then _ else _] =>
      lazymatch b with context [if _ then _ else _] => fail | _ => destruct b eqn:? end
  end; cbn [fst snd].

Ltac loop_body Hi :=
  split_tests;
  lazymatch goal with
  | |- wf_item ?j ∧ evolves _ ?i _ =>
      tryif constr_eq i j then (split; [exact Hi | apply evolves_refl])
      else (reflect_tests; pose proof (wi_fresh _ Hi) as Hfresh;
            repeat match goal with H : it_Status _ = _ ∨ _ |- _ => destruct H end;
            (apply tame_update; [exact Hi|..]; side_condition Hi))
  end.

Lemma tame_expire_receipt acks now : tame acks (λ i, (expire_receipt now i).1).
Proof. intros i Hi. unfold expire_receipt. loop_body Hi. Qed.

Lemma tame_expire_waiting acks now : tame acks (λ i, (expire_waiting now i).1).
Proof. intros i Hi. unfold expire_waiting. loop_body Hi. Qed.

Lemma expire_item_eq now i : (expire_item now i).1.1 = (expire_waiting now (expire_receipt now i).1).1.
Proof. unfold expire_item. destruct (expire_receipt now i) as [j d]. cbn. by destruct (expire_waiting now j). Qed.

Lemma tame_expire acks now : tame acks (λ i, (expire_item now i).1.1).
Proof.
  intros i Hi. rewrite expire_item_eq.
  apply (tame_compose acks _ _ (tame_expire_receipt acks now) (tame_expire_waiting acks now) i Hi).
Qed.

Lemma tame_restart acks run now : tame acks (λ i, (restart_item run now i).1.1).
Proof. intros i Hi. unfold restart_item. loop_body Hi. Qed.

Lemma tame_verify acks run callID target now : tame acks (λ i, (verify_item run callID target now i).1.1).
Proof. intros i Hi. unfold verify_item. loop_body Hi. Qed.

Lemma tame_failed acks callID reason now :
  len reason <= 160 → tame acks (λ i, (failed_item callID reason now i).1.1).
Proof. intros Hr i Hi. unfold failed_item. loop_body Hi. Qed.

Ltac keep_bounds Hi :=
  lazymatch goal with
  | |- retry_fits _ => keep_retry Hi
  | |- _ => first [exact (wi_host _ Hi) | exact (wi_outer _ Hi) | exact (wi_reason _ Hi) | idtac]
  end.

(** The statuses from which Cancel withdraws a record. *)
Lemma cancellable i inc :
  waiting (it_Status i) || unconfirmed (it_Status i) || inc && (it_Status i =s "reserved")
  || (it_Status i =s "expired") && (it_ExpiredFrom i =s "pending") = true →
  it_Status i ≠ "acknowledged" ∧ it_Status i ≠ "cancelled".
Proof. intros H. split; intros E; rewrite E in H; by destruct inc. Qed.

Lemma tame_cancel acks owner conversation id inc now :
  tame acks (λ i, (cancel_item owner conversation id inc now i).1.1).
Proof.
  intros i Hi. unfold cancel_item. destruct (_ && _) eqn:E; cbn [fst]; [|split; [done|apply evolves_refl]].
  apply andb_true_iff in E as [_ [? ?]%cancellable].
  apply tame_update; try done; keep_bounds Hi.
  intros [?|[? ?]]; discriminate.
Qed.

(** FinishForHost gets a transport its adapter has bounded
    (internal/mcp/insertion_session.go, insertion_transport.go). *)
Definition transport_ok (host : Transport) : Prop :=
  len (tr_HostType host) <= 80 ∧ len (tr_OuterCallID host) <= 160.

Lemma tame_finish acks run callID attached host now :
  transport_ok host → tame acks (λ i, (finish_item run callID attached host now i).1.1).
Proof.
  intros [Hh Ho] i Hi. unfold finish_item.
  destruct (_ || _) eqn:E; [split; [done|apply evolves_refl]|]. reflect_tests.
  assert (it_Status i ≠ "acknowledged" ∧ it_Status i ≠ "cancelled") as [Hna Hnc].
  { match goal with H : it_Status i = _ |- _ => rewrite H end. done. }
  pose proof (wi_issued _ Hi) as Hiss. destruct attached; cbn [fst].
  - destruct Hi; split; split; cbn; try done; auto; try lia.
    + by destruct (tr_Passthrough host).
    + intros [?|[? ?]]; done.
    + split; cbn; [|done]. intros Hrr. destruct wi_retry0 as [_ Hq]. rewrite Hq in Hrr; done.
    + intros [?|?]; done.
  - apply tame_update; try done; keep_bounds Hi. intros [?|[? ?]]; discriminate.
Qed.

Lemma tame_reserve acks run callID target received now rand :
  (∀ id, length (rand id) = 16%nat) →
  tame acks (λ i, (reserve_item run callID target received now rand i).1.1).
Proof.
  intros Hrand i Hi. unfold reserve_item.
  destruct (negb (_ || _) || _) eqn:E1; [split; [done|apply evolves_refl]|].
  destruct (received <? _) eqn:E2; [split; [done|apply evolves_refl]|].
  apply orb_false_iff in E1 as [E1%negb_false_iff _].
  assert (it_Status i ≠ "acknowledged" ∧ it_Status i ≠ "cancelled" ∧
    0 <= it_DeliveryAttempts i < MaxTotalDeliveries ∧ (it_Status i = "pending" → it_DeliveryAttempts i = 0)) as (Hna & Hnc & Hat & Hp).
  { pose proof (wi_fresh _ Hi) as Hf. pose proof (wi_attempts _ Hi) as Ha. split_and!; try lia; try (by auto).
    1,2: intros E; unfold first_claim, retry_claim, canRedeliver in E1; rewrite E in E1; discriminate.
    apply orb_true_iff in E1 as [E1|E1].
    - unfold first_claim in E1. apply orb_true_iff in E1 as [E1|E1]; reflect_tests; rewrite Hf by auto; done.
    - unfold retry_claim, canRedeliver in E1. reflect_tests. lia. }
  destruct (negb (received <? _)) eqn:E3.
  { destruct (it_Status i =s "expired") eqn:E4; [split; [done|apply evolves_refl]|]. cbn [fst].
    apply tame_update; try done; keep_bounds Hi.
    intros [?|[_ ?]]; auto. discriminate. }
  destruct (negb (sameTarget _ _)) eqn:E4.
  { cbn [fst]. apply tame_update; try done; keep_bounds Hi.
    intros [?|[? ?]]; discriminate. }
  cbn [fst]. set (token := if it_ReceiptToken i =s "" then _ else _).
  assert (token ≠ "" ∧ hex_decoded_len token = Some 16) as [Hne Hlen].
  { subst token. destruct (it_ReceiptToken i =s "") eqn:E5; reflect_tests.
    - rewrite hex_decoded_len_encode, Hrand. split; [|done]. apply hex_encode_nonempty. rewrite Hrand. lia.
    - split; [done|]. by destruct (wi_token _ Hi). }
  destruct Hi; split; split; cbn; try done; auto; try lia.
  - intros [?|[? ?]]; discriminate.
  - intros _. split; [lia|done].
  - intros [?|?]; done.
Qed.

(** ** Evolution of the queue *)

(** The records of the later queue are later versions of records of the
    earlier one. *)
Definition advances (acks : bool) (s s' : diskState) : Prop :=
  wf_state s' ∧ ∀ j, j ∈ st_Items s' → ∃ i, i ∈ st_Items s ∧ evolves acks i j.

(** As [advances], or newly added. *)
Definition later (acks : bool) (s s' : diskState) : Prop :=
  ∀ j, j ∈ st_Items s' →
    (∃ i, i ∈ st_Items s ∧ evolves acks i j) ∨
    (it_Status j = "pending" ∧ it_DeliveryAttempts j = 0 ∧ it_ID j ∉ map it_ID (st_Items s)).

Lemma advances_refl acks s : wf_state s → advances acks s s.
Proof. intros Hs. split; [done|]. intros j Hj. exists j. split; [done|apply evolves_refl]. Qed.

Lemma advances_trans acks s s' s'' : advances acks s s' → advances acks s' s'' → advances acks s s''.
Proof.
  intros [_ H1] [Hwf H2]. split; [done|]. intros k Hk.
  destruct (H2 k Hk) as (j & Hj & Hjk). destruct (H1 j Hj) as (i & Hi & Hij).
  exists i. split; [done|]. by eapply evolves_trans.
Qed.

Lemma advances_later acks s s' : advances acks s s' → later acks s s'.
Proof. intros [_ H] j Hj. left. auto. Qed.

(** A loop over the records keeps their number and identifiers. *)
Lemma sweep_advances {R} acks (f : Item → Item * bool * list R) s items dirty out :
  tame acks (λ i, (f i).1.1) → wf_state s → sweep f (st_Items s) = (items, dirty, out) →
  advances acks s (s <| st_Items := items |>).
Proof.
  rewrite sweep_eq. intros Hf [Hs Hc Hi Hw] [= <- _ _]. rewrite Forall_forall in Hw. split.
  - split; cbn; [done|by rewrite length_map| |].
    + rewrite map_map. erewrite map_ext_in; [exact Hi|]. intros i Hin%list_elem_of_In.
      by destruct (Hf i (Hw i Hin)) as [_ []].
    + apply Forall_forall. intros j (i & -> & Hin)%list_elem_of_fmap. by apply Hf, Hw.
  - intros j (i & -> & Hin)%list_elem_of_fmap. exists i. split; [done|]. by apply Hf, Hw.
Qed.

Lemma expire_advances acks s now s' dirty :
  wf_state s → expire s now = (s', dirty) → advances acks s s'.
Proof.
  unfold expire. intros Hs. destruct (sweep (expire_item now) (st_Items s)) as [[items d] out] eqn:E.
  intros [= <- _]. eapply sweep_advances; [apply tame_expire|done|exact E].
Qed.

Section Bodies.
Context (s s' : diskState) (now : Time) (dirty : bool) (Hs : wf_state s).

Lemma new_advances run u :
  new_body run s now = Ok (s', dirty, u) → advances false s s'.
Proof using Hs.
  unfold new_body. destruct (expire s now) as [s1 d1] eqn:E1. pose proof (expire_advances false _ _ _ _ Hs E1) as H1.
  destruct (sweep _ _) as [[items d2] out] eqn:E2. intros [= <- _ _].
  eapply advances_trans; [exact H1|]. eapply sweep_advances; [apply tame_restart|apply H1|exact E2].
Qed.

Lemma reserve_advances run callID target received rand out :
  (∀ id, length (rand id) = 16%nat) →
  reserve_body run callID target received rand s now = Ok (s', dirty, out) → advances false s s'.
Proof using Hs.
  intros Hrand. unfold reserve_body. destruct (sweep _ _) as [[items d1] o] eqn:E1.
  pose proof (sweep_advances false _ s _ _ _ (tame_reserve false run callID target received now rand Hrand) Hs E1) as H1.
  destruct (expire _ _) as [s1 d2] eqn:E2. intros [= <- _ _].
  eapply advances_trans; [exact H1|]. eapply expire_advances; [apply H1|exact E2].
Qed.

Lemma verify_advances run callID target u :
  verify_body run callID target s now = Ok (s', dirty, u) → advances false s s'.
Proof using Hs.
  unfold verify_body. destruct (sweep _ _) as [[items d1] o] eqn:E1.
  pose proof (sweep_advances false _ s _ _ _ (tame_verify false run callID target now) Hs E1) as H1.
  destruct (expire _ _) as [s1 d2] eqn:E2. intros [= <- _ _].
  eapply advances_trans; [exact H1|]. eapply expire_advances; [apply H1|exact E2].
Qed.

Lemma finish_advances run callID attached host out :
  transport_ok host →
  finish_body run callID attached host s now = Ok (s', dirty, out) → advances false s s'.
Proof using Hs.
  intros Hhost. unfold finish_body. destruct (sweep _ _) as [[items d1] o] eqn:E1. intros [= <- _ _].
  eapply sweep_advances; [by apply tame_finish|done|exact E1].
Qed.

Lemma failed_advances callID reason out :
  len reason <= 160 → failed_body callID reason s now = Ok (s', dirty, out) → advances false s s'.
Proof using Hs.
  intros Hr. unfold failed_body. destruct (sweep _ _) as [[items d1] o] eqn:E1. intros [= <- _ _].
  eapply sweep_advances; [by apply tame_failed|done|exact E1].
Qed.

Lemma cancel_advances owner conversation id inc u :
  cancel_body owner conversation id inc s now = Ok (s', dirty, u) → advances false s s'.
Proof using Hs.
  unfold cancel_body. destruct (expire s now) as [s1 d1] eqn:E1. pose proof (expire_advances false _ _ _ _ Hs E1) as H1.
  intros H. ok_inv H. revert H. destruct (sweep _ _) as [[items d2] o] eqn:E2. intros [= <- _ _].
  eapply advances_trans; [exact H1|]. eapply sweep_advances; [apply tame_cancel|apply H1|exact E2].
Qed.

Lemma list_advances {A} (view : Item → Time → A) owner conversation out :
  list_body view owner conversation s now = Ok (s', dirty, out) → advances false s s'.
Proof using Hs.
  unfold list_body. destruct (expire s now) as [s1 d1] eqn:E1. intros [= <- _ _].
  by eapply expire_advances.
Qed.
End Bodies.

(** ** Receipts *)

(** What the validation pass of Receipt established for a record, and its
    update pass keeps. *)
Definition ready (i : Item) : Prop := it_InnerAppendedAt i ≠ None ∧ it_Status i ≠ "cancelled".

Definition receipt_kind (by_ : string) : Prop :=
  by_ = "receiver_receipt" ∨ by_ = "host_context_committed" ∨ by_ = "outer_forwarded".

Lemma receipt_item_tame by_ outerID now i :
  receipt_kind by_ → len outerID <= 160 → wf_item i → ready i →
  wf_item (receipt_item by_ outerID now i).1 ∧ evolves true i (receipt_item by_ outerID now i).1
  ∧ ready (receipt_item by_ outerID now i).1.
Proof.
  intros Hby Ho Hi [Hin Hnc]. unfold receipt_item.
  destruct (it_Status i =s "acknowledged") eqn:E1; [split_and!; [done|apply evolves_refl|done]|].
  destruct (_ && _ && _) eqn:E2; [split_and!; [done|apply evolves_refl|done]|]. clear E2.
  apply streq_false in E1. destruct (wi_unack _ Hi E1) as [Ha1 Ha2].
  destruct (wi_issued _ Hi (or_intror Hin)) as [Hat Htok].
  assert (∀ t : Prop, terminal (it_Status i) → t) as Hterm by (intros t [?|?]; done).
  destruct (by_ =s "outer_forwarded") eqn:E3; destruct (outerID ≠s "") eqn:E4; cbn [fst];
    (split_and!; [destruct Hi; split; cbn; try done; auto; try lia..|split; cbn; try done; auto; try lia|split; done]).
  all: try (by intros; apply Hterm); try (intros [?|[? ?]]; discriminate).
  all: try by (intros _; split_and!; [done|done|]; apply streq_false in E3; destruct Hby as [?|[?|?]]; auto).
  all: try (vm_compute; discriminate).
  all: split; cbn; [apply wi_retry0|discriminate].
Qed.

Lemma find_index_Some p items n :
  find_index p items = Some n → ∃ i, items !! n = Some i ∧ p i = true.
Proof.
  revert n; induction items as [|i items IH]; intros n H; cbn in H; [done|].
  destruct (p i) eqn:E; [injection H as <-; eauto|].
  destruct (find_index p items) as [m|] eqn:F; [|done]. injection H as <-. cbn. by apply IH.
Qed.

Lemma receivable_ready target receipt i : receivable target receipt i = true → ready i.
Proof. unfold receivable. intros H. reflect_tests. by split. Qed.

(** Every index the validation pass returns names a record that one of the
    receipts matches, and every receipt has such a record. *)
Lemma receipt_indices_sound target items seen receipts indices :
  receipt_indices target items seen receipts = Ok indices →
  Forall (λ n, ∃ i r, items !! n = Some i ∧ r ∈ receipts ∧ receivable target r i = true) indices.
Proof.
  revert seen indices; induction receipts as [|r rest IH]; intros seen indices H; cbn in H.
  { injection H as <-. constructor. }
  assert (∀ seen' idx, receipt_indices target items seen' rest = Ok idx →
    Forall (λ n, ∃ i r', items !! n = Some i ∧ r' ∈ r :: rest ∧ receivable target r' i = true) idx) as IH'.
  { intros seen' idx His. eapply Forall_impl; [by eapply IH|]. intros n (i & r' & ? & ? & ?).
    exists i, r'. split_and!; try done. by right. }
  destruct (seen !! rc_InsertionID r) as [previous|].
  - destruct (previous ≠s rc_Token r); [discriminate|]. eauto.
  - destruct (find_index _ items) as [n|] eqn:F; [|discriminate].
    apply bind_Ok in H as (idx & His & H). injection H as <-. constructor; [|eauto].
    apply find_index_Some in F as (i & Hi & Hr). exists i, r. split_and!; try done. by left.
Qed.

Lemma receipt_apply_spec by_ outerID now items indices items' dirty out :
  receipt_kind by_ → len outerID <= 160 →
  Forall wf_item items → Forall (λ n, ∃ i, items !! n = Some i ∧ ready i) indices →
  receipt_apply by_ outerID now items indices = (items', dirty, out) →
  Forall wf_item items' ∧ Forall2 (evolves true) items items'.
Proof.
  intros Hby Ho. revert items items' dirty out.
  induction indices as [|n rest IH]; intros items items' dirty out Hw Hn H; cbn in H.
  { injection H as <- <- <-. split; [done|]. apply Forall_Forall2_diag, Forall_true. intros; apply evolves_refl. }
  inversion Hn as [|? ? (i & Hi & Hr) Hrest]; subst. rewrite Hi in H.
  pose proof (Forall_lookup_1 _ _ _ _ Hw Hi) as Hwi.
  destruct (receipt_item_tame by_ outerID now i Hby Ho Hwi Hr) as (Hj & Hij & Hrj).
  destruct (receipt_item by_ outerID now i) as [j d]. cbn [fst] in *.
  destruct (receipt_apply _ _ _ _ rest) as [[items1 d1] out1] eqn:E. injection H as <- <- <-.
  apply IH in E as [Hw' H2].
  - split; [done|]. eapply Forall2_trans; [apply evolves_trans| |exact H2].
    apply Forall2_same_length_lookup_2; [by rewrite length_insert|].
    intros k x y Hx Hy. destruct (decide (k = n)) as [->|Hne].
    + rewrite Hi in Hx. injection Hx as <-. rewrite list_lookup_insert_eq in Hy; [by injection Hy as <-|].
      by eapply lookup_lt_Some.
    + rewrite list_lookup_insert_ne in Hy by done. rewrite Hx in Hy. injection Hy as <-. apply evolves_refl.
  - by apply Forall_insert.
  - eapply Forall_impl; [exact Hrest|]. intros k (x & Hx & Hrx). destruct (decide (k = n)) as [->|Hne].
    + exists j. rewrite list_lookup_insert_eq; [done|by eapply lookup_lt_Some].
    + exists x. by rewrite list_lookup_insert_ne.
Qed.

Lemma evolves_ids acks l k : Forall2 (evolves acks) l k → map it_ID k = map it_ID l.
Proof. induction 1 as [|i j l k [E _ _ _ _ _ _ _ _] _ IH]; cbn; [done|by rewrite E, IH]. Qed.

(** A list of later versions keeps the invariant of the queue. *)
Lemma versions_advance acks s items :
  wf_state s → Forall wf_item items → Forall2 (evolves acks) (st_Items s) items →
  advances acks s (s <| st_Items := items |>).
Proof.
  intros [Hs Hc Hi _] Hw H2. split.
  - split; cbn; [done|by rewrite <- (Forall2_length _ _ _ H2)| |done].
    by rewrite (evolves_ids _ _ _ H2).
  - intros j (n & Hj)%list_elem_of_lookup_1. destruct (Forall2_lookup_r _ _ _ _ _ H2 Hj) as (i & Hni & He).
    exists i. split; [by eapply list_elem_of_lookup_2|done].
Qed.

Lemma receipt_versions s s' now dirty target receipts by_ outerID out :
  wf_state s → receipt_kind by_ → len outerID <= 160 →
  receipt_body target receipts by_ outerID s now = Ok (s', dirty, out) →
  s' = s <| st_Items := st_Items s' |> ∧ Forall wf_item (st_Items s') ∧
  Forall2 (evolves true) (st_Items s) (st_Items s').
Proof.
  intros Hs Hby Ho H. unfold receipt_body in H. apply bind_Ok in H as (indices & Hidx & H).
  destruct (receipt_apply _ _ _ _ _) as [[items d] o] eqn:E. injection H as <- _ _. split; [done|].
  eapply receipt_apply_spec; [done|done|apply Hs| |exact E].
  eapply Forall_impl; [by eapply receipt_indices_sound|]. intros n (i & r & Hi & _ & Hr).
  exists i. split; [done|]. by eapply receivable_ready.
Qed.

Lemma receipt_advances s s' now dirty target receipts by_ outerID out :
  wf_state s → receipt_kind by_ → len outerID <= 160 →
  receipt_body target receipts by_ outerID s now = Ok (s', dirty, out) → advances true s s'.
Proof.
  intros Hs Hby Ho H. destruct (receipt_versions _ _ _ _ _ _ _ _ _ Hs Hby Ho H) as (-> & Hw & H2).
  by apply versions_advance.
Qed.

(** The kinds of receipt that pass the guard of Receipt. *)
Lemma receipt_kind_guard by_ :
  (by_ ≠s "receiver_receipt") && (by_ ≠s "host_context_committed") && (by_ ≠s "outer_forwarded") = false →
  receipt_kind by_.
Proof.
  unfold receipt_kind. destruct (by_ =s "receiver_receipt") eqn:E1; [left; by apply streq_true|].
  destruct (by_ =s "host_context_committed") eqn:E2; [right; left; by apply streq_true|].
  cbn. intros E%negb_false_iff. right; right. by apply streq_true.
Qed.

(** ** Retry and Add *)

Lemma retry_advances s s' now dirty target id out :
  wf_state s → retry_body target id s now = Ok (s', dirty, out) → advances false s s'.
Proof.
  intros Hs. unfold retry_body. destruct (find_index _ _) as [n|]; [|discriminate].
  destruct (st_Items s !! n) as [i|] eqn:Hn; [|discriminate].
  destruct (negb (retryable i now)) eqn:E1; [discriminate|].
  destruct (it_RetryRequested i); [intros [= <- _ _]; by apply advances_refl|]. intros [= <- _ _].
  pose proof (Forall_lookup_1 _ _ _ _ (ws_items _ Hs) Hn) as Hi.
  apply negb_false_iff in E1. unfold retryable in E1. apply negb_true_iff in E1. reflect_tests.
  assert (it_Status i ≠ "acknowledged" ∧ it_Status i ≠ "cancelled" ∧ it_Status i ≠ "reserved") as (Hna & Hnc & Hnr).
  { match goal with H : _ ∨ _ |- _ => destruct H as [H|[H|H]]; rewrite H; done end. }
  match goal with |- context [<[n := ?x]>] => set (j := x) end.
  assert (wf_item j ∧ evolves false i j) as [Hj Hij].
  { apply tame_update; try done; keep_bounds Hi; [apply (wi_status _ Hi)|apply (wi_fresh _ Hi)]. }
  apply (versions_advance false s (<[n := j]> (st_Items s)) Hs).
  - apply Forall_insert; [apply Hs|done].
  - apply Forall2_same_length_lookup_2; [by rewrite length_insert|]. intros k x y Hx Hy.
    destruct (decide (k = n)) as [->|Hne].
    + rewrite Hn in Hx. injection Hx as <-. rewrite list_lookup_insert_eq in Hy; [by injection Hy as <-|].
      by eapply lookup_lt_Some.
    + rewrite list_lookup_insert_ne in Hy by done. rewrite Hx in Hy. injection Hy as <-. apply evolves_refl.
Qed.

Lemma sweep_only_advances s s' now dirty u :
  wf_state s → (let '(state, dirty) := expire s now in Ok (state, dirty, tt)) = Ok (s', dirty, u) →
  advances false s s'.
Proof.
  intros Hs. destruct (expire s now) as [s1 d] eqn:E. intros [= <- _ _]. by eapply expire_advances.
Qed.

(** What Add is given by its environment: a clock that is set, and sixteen
    random bytes that no stored identifier carries. *)
Definition fresh_raw (s : diskState) (raw : list ascii) : Prop :=
  length raw = 16%nat ∧ "ins_" +:+ hex_encode raw ∉ map it_ID (st_Items s).

Lemma elem_of_List_filter {A} (f : A → bool) x l : x ∈ List.filter f l ↔ f x = true ∧ x ∈ l.
Proof. rewrite !list_elem_of_In, filter_In. tauto. Qed.

Lemma sublist_List_filter {A} (f : A → bool) l : List.filter f l `sublist_of` l.
Proof. induction l as [|x l IH]; cbn; [constructor|]. destruct (f x); by constructor. Qed.

Lemma new_item_wf target submissionID text raw sequence now :
  length raw = 16%nat → len text <= MaxTextBytes → now ≠ 0 →
  wf_item (new_item target submissionID text ("ins_" +:+ hex_encode raw) sequence now).
Proof.
  intros Hr Ht Hn. split; cbn [new_item it_ID it_Text it_CreatedAt it_ExpiresAt it_Status it_DeliveryAttempts
    it_HostType it_OuterCallID it_DeliveryReason it_ReceiptToken it_InnerAppendedAt it_AcknowledgedAt
    it_AcknowledgedBy it_ExpiredFrom]; try done; auto.
  - apply matches_id_hex; [done..|rewrite Hr; lia].
  - intros [?|?]; done.
Qed.

Lemma expire_ids s now s' dirty :
  wf_state s → expire s now = (s', dirty) → map it_ID (st_Items s') = map it_ID (st_Items s).
Proof.
  intros [_ _ _ Hw]. unfold expire. rewrite sweep_eq. intros [= <- _]. cbn. rewrite map_map.
  apply map_ext_in. intros i Hin%list_elem_of_In. rewrite Forall_forall in Hw.
  by destruct (tame_expire false now i (Hw i Hin)) as [_ []].
Qed.

Lemma add_later s s' now dirty target submissionID text raw out :
  wf_state s → fresh_raw s raw → now ≠ 0 → len text <= MaxTextBytes →
  add_body target submissionID text raw s now = Ok (s', dirty, out) →
  wf_state s' ∧ later false s s'.
Proof.
  intros Hs [Hraw Hfresh] Hnow Htext. unfold add_body. destruct (expire s now) as [s1 d1] eqn:E.
  pose proof (expire_advances false _ _ _ _ Hs E) as H1. rewrite <- (expire_ids _ _ _ _ Hs E) in Hfresh.
  destruct (List.find _ _) as [item|].
  { destruct (_ || _); [discriminate|]. intros [= <- _ _]. split; [apply H1|by apply advances_later]. }
  destruct (_ || _); [discriminate|]. set (kept := List.filter (retained now) (st_Items s1)).
  destruct (MaxRecords <=? _) eqn:E2; [discriminate|]. apply Z.leb_gt in E2. intros [= <- _ _].
  assert (kept `sublist_of` st_Items s1) as Hsub by apply sublist_List_filter.
  pose proof (fmap_sublist it_ID _ _ Hsub) as Hsub'.
  destruct H1 as [[Hv Hc Hi Hw] Hl]. split.
  - split; cbn [st_SchemaVersion st_Items]; [done|rewrite length_app; cbn; lia| |].
    + rewrite map_app. apply NoDup_app. split_and!; [|intros x Hx|apply NoDup_singleton].
      * eapply sublist_NoDup; [exact Hi|exact Hsub'].
      * intros ->%list_elem_of_singleton. apply Hfresh. by eapply elem_of_sublist.
    + apply Forall_app. split; [|by constructor; [apply new_item_wf|constructor]].
      rewrite Forall_forall in Hw |- *. intros x Hx. apply Hw. by eapply elem_of_sublist.
  - intros j [Hj|Hj%list_elem_of_singleton]%elem_of_app.
    + left. apply Hl. by eapply elem_of_sublist.
    + right. subst j. split_and!; [done|done|]. rewrite <- (expire_ids _ _ _ _ Hs E). exact Hfresh.
Qed.

(** ** Operations on the queue file *)

Inductive op : Type :=
  | OpNew (run : string)
  | OpAdd (raw : list ascii) (target : Target) (submissionID text : string)
  | OpReserve (run : string) (rand : string → list ascii) (target : Target) (callID : string) (received : Time)
  | OpVerifyTarget (run callID : string) (target : Target)
  | OpFinish (run callID : string) (attached : bool) (host : Transport)
  | OpReceipt (target : Target) (receipts : list Receipt) (by_ outerID : string)
  | OpRetry (target : Target) (id : string)
  | OpDeliveryFailed (callID reason : string)
  | OpCancel (owner conversation id : string) (includeReserved : bool)
  | OpSweep
  | OpList (owner conversation : string)
  | OpViews (owner conversation : string).

Definition acks (o : op) : bool := match o with OpReceipt _ _ _ _ => true | _ => false end.

(** The state a queue file holds; a new queue before the first write. *)
Definition queue (d : disk) : diskState :=
  match d with
  | Some (mkFile _ (Some s)) => s
  | _ => mkState 2 0 []
  end.

(** What an operation is given by its environment. *)
Definition env_ok (d : disk) (now : Time) (o : op) : Prop :=
  match o with
  | OpAdd raw _ _ _ => fresh_raw (queue d) raw ∧ now ≠ 0
  | OpReserve _ rand _ _ _ => ∀ id, length (rand id) = 16%nat
  | OpFinish _ _ _ host => transport_ok host
  | _ => True
  end.

Section Queue.
Variable encoded_len : diskState → Z.

(** The disk after operation [o], at time [now], with the context's answers
    [ctx] and the faults [fs]. *)
Definition exec (o : op) (ctx : nat → bool) (now : Time) (d : disk) (fs : list fault) : disk :=
  match o with
  | OpNew run => run_disk (New encoded_len ctx run now d fs)
  | OpAdd raw target sub text => run_disk (Add encoded_len ctx now raw target sub text d fs)
  | OpReserve run rand target callID received =>
      run_disk (Reserve encoded_len ctx run now rand target callID received d fs)
  | OpVerifyTarget run callID target => run_disk (VerifyTarget encoded_len ctx run now callID target d fs)
  | OpFinish run callID attached host =>
      run_disk (FinishForHost encoded_len ctx run now callID attached host d fs)
  | OpReceipt target receipts by_ outerID =>
      run_disk (Receipt_ encoded_len ctx now target receipts by_ outerID d fs)
  | OpRetry target id => run_disk (Retry encoded_len ctx now target id d fs)
  | OpDeliveryFailed callID reason => run_disk (DeliveryFailed encoded_len ctx now callID reason d fs)
  | OpCancel owner conversation id inc => run_disk (Cancel encoded_len ctx now owner conversation id inc d fs)
  | OpSweep => run_disk (Sweep encoded_len ctx now d fs)
  | OpList owner conversation => run_disk (List_ encoded_len ctx now owner conversation d fs)
  | OpViews owner conversation => run_disk (Views encoded_len ctx now owner conversation d fs)
  end.

(** The disks any sequence of operations, faults and restarts leads to. *)
Inductive reachable : disk → Prop :=
  | reachable_new : reachable None
  | reachable_step o ctx now d fs :
      reachable d → env_ok d now o → reachable (exec o ctx now d fs).

(** The invariant of the queue file. *)
Definition queue_ok (d : disk) : Prop :=
  match d with
  | None => True
  | Some f => ∃ s, f = mkFile (encoded_len s + 1) (Some s) ∧ wf_state s ∧ encoded_len s <= MaxStoreBytes
  end.

Lemma queue_wf d : queue_ok d → wf_state (queue d).
Proof.
  destruct d as [f|]; [intros (s & -> & Hs & _); exact Hs|]. intros _.
  split; cbn; [done|vm_compute; discriminate|constructor|constructor].
Qed.

Lemma load_queue d s m : queue_ok d → load d = Ok (s, m) → s = queue d ∧ m = false.
Proof.
  destruct d as [f|]; [|by intros _ [= <- <-]]. intros (s0 & -> & Hs & _). cbn.
  destruct (_ <? _); [discriminate|]. rewrite decode_wf_state by done. by intros [= <- <-].
Qed.

(** The read-modify-write keeps what its body keeps, under every fault. *)
Lemma change_keeps {A} (R : diskState → diskState → Prop) ctx now
    (fn : diskState → Time → result (diskState * bool * A)) d fs :
  queue_ok d → R (queue d) (queue d) →
  (∀ s' dirty a, fn (queue d) now = Ok (s', dirty, a) → wf_state s' ∧ R (queue d) s') →
  queue_ok (run_disk (change encoded_len ctx now fn d fs)) ∧
  R (queue d) (queue (run_disk (change encoded_len ctx now fn d fs))).
Proof.
  intros Hd HR Hfn. unfold change. destruct (_ || _); [done|]. io_simpl.
  destruct (load d) as [[s m]|e] eqn:El; [|done]. destruct (load_queue _ _ _ Hd El) as [-> ->].
  destruct (ctx 2%nat); [done|]. destruct (fn (queue d) now) as [[[s' dirty] a]|e] eqn:Ef; [|done].
  destruct (negb dirty && _); [done|]. destruct (MaxStoreBytes <? _) eqn:Em; [done|].
  destruct (ctx 3%nat); [done|]. apply Z.ltb_ge in Em. destruct (Hfn _ _ _ eq_refl) as [Hs' HR'].
  destruct fs as [|[] fs]; cbn [io_write run_disk queue]; (split; [|done]); cbn; eauto.
Qed.

(** A change that returns a value ran its body on the stored state, and
    stored the result unless nothing changed. *)
Lemma change_Done {A} ctx now (fn : diskState → Time → result (diskState * bool * A)) d fs a d' fs' :
  queue_ok d → change encoded_len ctx now fn d fs = mkRun (Done a) d' fs' →
  ∃ s' dirty, fn (queue d) now = Ok (s', dirty, a) ∧
    (dirty = false ∧ d' = d ∨ d' = Some (mkFile (encoded_len s' + 1) (Some s'))).
Proof.
  intros Hd. unfold change. destruct (_ || _); [discriminate|]. io_simpl.
  destruct (load d) as [[s m]|e] eqn:El; [|discriminate]. destruct (load_queue _ _ _ Hd El) as [-> ->].
  destruct (ctx 2%nat); [discriminate|]. destruct (fn (queue d) now) as [[[s' dirty] a']|e] eqn:Ef; [|discriminate].
  destruct (negb dirty && _) eqn:Eq.
  { intros [= <- <- <-]. exists s', dirty. split; [done|]. left. by destruct dirty. }
  destruct (MaxStoreBytes <? _); [discriminate|]. destruct (ctx 3%nat); [discriminate|].
  destruct fs as [|[] fs]; cbn [io_write]; intros [= <- <- <-]; eauto.
Qed.

Lemma later_refl acks s : later acks s s.
Proof. intros j Hj. left. exists j. split; [done|apply evolves_refl]. Qed.

(** A change whose body advances the queue. *)
Lemma change_later {A} acks ctx now (fn : diskState → Time → result (diskState * bool * A)) d fs :
  queue_ok d →
  (∀ s' dirty a, fn (queue d) now = Ok (s', dirty, a) → advances acks (queue d) s') →
  queue_ok (run_disk (change encoded_len ctx now fn d fs)) ∧
  later acks (queue d) (queue (run_disk (change encoded_len ctx now fn d fs))).
Proof.
  intros Hd H. apply change_keeps; [done|apply later_refl|]. intros s' dirty a Hs'.
  specialize (H _ _ _ Hs'). split; [apply H|by apply advances_later].
Qed.

(** Every operation, whatever its arguments and faults. *)
Lemma exec_later o ctx now d fs :
  queue_ok d → env_ok d now o →
  queue_ok (exec o ctx now d fs) ∧ later (acks o) (queue d) (queue (exec o ctx now d fs)).
Proof.
  intros Hd He. pose proof (queue_wf d Hd) as Hs.
  destruct o as [run|raw target sub text|run rand target callID received|run callID target
    |run callID attached host|target receipts by_ outerID|target id|callID reason|owner conversation id inc
    | |owner conversation|owner conversation]; cbn [exec acks]; cbn [env_ok] in He.
  - apply change_later; [done|]. intros; by eapply new_advances.
  - unfold Add. destruct (_ || _) eqn:E; [split; [done|apply later_refl]|]. reflect_tests. destruct He.
    apply change_keeps; [done|apply later_refl|]. intros; by eapply add_later.
  - apply change_later; [done|]. intros; by eapply reserve_advances.
  - apply change_later; [done|]. intros; by eapply verify_advances.
  - apply change_later; [done|]. intros; by eapply finish_advances.
  - unfold Receipt_. destruct (_ || _) eqn:E; [split; [done|apply later_refl]|].
    apply orb_false_iff in E as [[_ E]%orb_false_iff Ho%Z.ltb_ge].
    apply change_later; [done|]. intros; eapply receipt_advances; try done. by apply receipt_kind_guard.
  - apply change_later; [done|]. intros; by eapply retry_advances.
  - unfold DeliveryFailed. destruct (_ && _) eqn:E; [split; [done|apply later_refl]|].
    apply change_later; [done|]. intros; eapply failed_advances; try done.
    destruct (reason =s "outer_projection_failed") eqn:E1; reflect_tests; [subst; vm_compute; discriminate|].
    cbn in E. reflect_tests. subst. vm_compute; discriminate.
  - apply change_later; [done|]. intros; by eapply cancel_advances.
  - apply change_later; [done|]. intros; by eapply sweep_only_advances.
  - apply change_later; [done|]. intros; by eapply list_advances.
  - apply change_later; [done|]. intros; by eapply list_advances.
Qed.

Lemma reachable_ok d : reachable d → queue_ok d.
Proof. induction 1 as [|o ctx now d fs _ IH He]; [done|]. by apply exec_later. Qed.

(** ** The properties of the queue *)

(** C30: whatever operations ran, whatever the errors and crashes of their
    replacements, the queue file is absent or holds a well-formed state
    within the size limit; and as long as that state is shorter than the
    limit, the next operation reads it back unchanged. *)
Theorem queue_always_readable d :
  reachable d →
  queue_ok d ∧ wf_state (queue d) ∧
  (encoded_len (queue d) < MaxStoreBytes → load d = Ok (queue d, false)).
Proof.
  intros H%reachable_ok. split_and!; [done|by apply queue_wf|]. intros Hlen.
  destruct d as [f|]; [|done]. destruct H as (s & -> & Hs & _). cbn in *.
  rewrite (proj2 (Z.ltb_ge _ _)) by lia. by apply decode_wf_state.
Qed.

Lemma unique_id s i j : wf_state s → i ∈ st_Items s → j ∈ st_Items s → it_ID i = it_ID j → i = j.
Proof.
  intros [_ _ Hnd _]. induction (st_Items s) as [|x l IH]; intros Hi Hj E; [by apply not_elem_of_nil in Hi|].
  cbn in Hnd. apply NoDup_cons in Hnd as [Hx Hnd].
  apply elem_of_cons in Hi as [->|Hi]; apply elem_of_cons in Hj as [->|Hj]; [done|..|by apply IH].
  - destruct Hx. rewrite E. by apply (list_elem_of_fmap_2 it_ID).
  - destruct Hx. rewrite <- E. by apply (list_elem_of_fmap_2 it_ID).
Qed.

(** C27: the life cycle of a supplement.  From one state of the queue to the
    next, what the user submitted, where it goes and its deadline never
    change; delivery attempts are only added; a confirmed or withdrawn
    supplement never changes again; and only a receipt confirms one. *)
Theorem supplement_life_cycle o ctx now d fs i j :
  reachable d → env_ok d now o →
  i ∈ st_Items (queue d) → j ∈ st_Items (queue (exec o ctx now d fs)) → it_ID j = it_ID i →
  it_Target j = it_Target i ∧ it_SubmissionID j = it_SubmissionID i ∧ it_Text j = it_Text i ∧
  it_CreatedAt j = it_CreatedAt i ∧ it_ExpiresAt j = it_ExpiresAt i ∧
  it_DeliveryAttempts i <= it_DeliveryAttempts j ∧
  (it_Status i = "acknowledged" ∨ it_Status i = "cancelled" → j = i) ∧
  (it_Status j = "acknowledged" → j = i ∨ ∃ target receipts by_ outerID, o = OpReceipt target receipts by_ outerID).
Proof.
  intros Hr%reachable_ok He Hi Hj Hid. destruct (exec_later o ctx now d fs Hr He) as [_ Hl].
  destruct (Hl j Hj) as [(i' & Hi' & Hev)|(_ & _ & Hnew)].
  2: { destruct Hnew. rewrite Hid. by apply (list_elem_of_fmap_2 it_ID). }
  assert (i' = i) as ->.
  { eapply unique_id; [by apply queue_wf|done|done|]. rewrite <- (ev_id _ _ _ Hev). done. }
  destruct Hev as [_ E1 E2 E3 E4 E5 Ht Ha Hn]. split_and!; try done.
  intros Hack. destruct (Ha Hack) as [Hacks|?]; [right|by left].
  destruct o; try discriminate. eauto 10.
Qed.

(** C32: the size check admits a state of exactly MaxStoreBytes and then
    appends a newline; every later operation finds the file too large and
    refuses, whatever its body, and nothing the store does repairs it. *)
Theorem full_queue_locks_out {A} (fn : diskState → Time → result (diskState * bool * A)) now d s' a :
  reachable d → encoded_len (queue d) < MaxStoreBytes →
  fn (queue d) now = Ok (s', true, a) → encoded_len s' = MaxStoreBytes →
  ∃ d', change encoded_len (λ _, false) now fn d [] = mkRun (Done a) d' [] ∧
    ∀ o ctx now fs, exec o ctx now d' fs = d'.
Proof.
  intros Hr Hlen Hfn Hmax. exists (Some (mkFile (MaxStoreBytes + 1) (Some s'))). split.
  - unfold change. cbn [orb]. io_simpl.
    assert (load d = Ok (queue d, false)) as ->.
    { apply reachable_ok in Hr. destruct d as [f|]; [|done]. destruct Hr as (s & -> & Hs & _). cbn in *.
      rewrite (proj2 (Z.ltb_ge _ _)) by lia. by apply decode_wf_state. }
    rewrite Hfn. cbn [negb andb]. rewrite Hmax, Z.ltb_irrefl. done.
  - set (d' := Some _).
    assert (∀ B ctx now (fn' : diskState → Time → result (diskState * bool * B)) fs,
      run_disk (change encoded_len ctx now fn' d' fs) = d') as Hstuck.
    { intros B ctx now' fn' fs. unfold change. destruct (_ || _); [done|]. io_simpl.
      assert (load d' = Err "invalid insertion store; original preserved") as ->; [|done].
      unfold load, d'. cbn [f_size]. by rewrite (proj2 (Z.ltb_lt _ _)) by lia. }
    intros o ctx now' fs. destruct o; cbn [exec]; try apply Hstuck;
      unfold Add, Receipt_, DeliveryFailed; (case_match; [done|apply Hstuck]).
Qed.

(** What Reserve hands to a call: a supplement never delivered, or one whose
    delivery stays unconfirmed and may be repeated for another call, sent
    before the call was received and not past its deadline, in the scope of
    the call. *)
Definition claimable (callID : string) (target : Target) (received : Time) (i : Item) : bool :=
  (first_claim i || retry_claim i callID received)
  && in_conversation (tg_Owner target) (tg_Conversation target) i
  && negb (received <? it_CreatedAt i) && (received <? it_ExpiresAt i)
  && sameTarget (it_Target i) target.

Lemma reserve_item_out run callID target received now rand i :
  (claimable callID target received i = true ∧
     (reserve_item run callID target received now rand i).2 =
       [(reserve_item run callID target received now rand i).1.1] ∧
     it_Status (reserve_item run callID target received now rand i).1.1 = "reserved" ∧
     it_CallID (reserve_item run callID target received now rand i).1.1 = callID ∧
     it_RunID (reserve_item run callID target received now rand i).1.1 = run ∧
     it_DeliveryAttempts (reserve_item run callID target received now rand i).1.1 = it_DeliveryAttempts i + 1 ∧
     (reserve_item run callID target received now rand i).1.2 = true) ∨
  (claimable callID target received i = false ∧
     (reserve_item run callID target received now rand i).2 = []).
Proof.
  unfold claimable, reserve_item. destruct (first_claim i || _), (in_conversation _ _ i); cbn [negb orb andb]; auto.
  destruct (received <? it_CreatedAt i); cbn [negb andb]; auto.
  destruct (received <? it_ExpiresAt i); cbn [negb andb]; [|destruct (_ =s _); auto].
  destruct (sameTarget _ target); cbn [negb andb]; [left|auto]. split_and!; done.
Qed.

Lemma reserve_outs run callID target received now rand items :
  wf_state (mkState 2 0 items) → (∀ id, length (rand id) = 16%nat) →
  map it_ID (concat (map (λ i, (reserve_item run callID target received now rand i).2) items))
  = map it_ID (List.filter (claimable callID target received) items).
Proof.
  intros [_ _ _ Hw] Hrand. cbn in Hw. induction Hw as [|i items Hi _ IH]; [done|]. cbn [map concat List.filter].
  rewrite map_app, IH. destruct (reserve_item_out run callID target received now rand i) as [(-> & -> & _)|[-> ->]]; [|done].
  cbn. f_equal. by destruct (tame_reserve false run callID target received now rand Hrand i Hi) as [_ []].
Qed.

Lemma expire_keeps now i : it_Status i = "reserved" → (expire_item now i).1.1 = i.
Proof.
  intros E. rewrite expire_item_eq.
  assert (expire_receipt now i = (i, false)) as -> by (unfold expire_receipt; by rewrite E).
  unfold expire_waiting. cbn [fst]. by rewrite E.
Qed.

(** C28: a call is handed exactly the claimable supplements, in queue order
    and each once; each is durably reserved for this call before it is
    handed out, its receipt token is issued, and its attempts stay within
    the automatic limit unless the user asked for the retry, and within the
    total limit always. *)
Theorem Reserve_claims ctx run now rand target callID received d fs claimed d' fs' :
  reachable d → (∀ id, length (rand id) = 16%nat) →
  Reserve encoded_len ctx run now rand target callID received d fs = mkRun (Done claimed) d' fs' →
  map it_ID claimed = map it_ID (List.filter (claimable callID target received) (st_Items (queue d))) ∧
  Forall (λ c, c ∈ st_Items (queue d') ∧ it_Status c = "reserved" ∧ it_CallID c = callID ∧ it_RunID c = run ∧
    it_ReceiptToken c ≠ "" ∧
    ∃ i, i ∈ st_Items (queue d) ∧ it_ID i = it_ID c ∧ it_Text i = it_Text c ∧
      it_DeliveryAttempts c = it_DeliveryAttempts i + 1 ∧ it_DeliveryAttempts c <= MaxTotalDeliveries ∧
      (it_DeliveryAttempts c <= MaxAutomaticDeliveries ∨ it_RetryRequested i = true)) claimed.
Proof.
  intros Hr%reachable_ok Hrand H. pose proof (queue_wf d Hr) as Hs.
  apply change_Done in H as (s' & dirty & Hb & Hd'); [|done]. pose proof (ws_items _ Hs) as Hw. rewrite Forall_forall in Hw.
  unfold reserve_body in Hb. rewrite sweep_eq in Hb. unfold expire in Hb. cbn [st_Items over] in Hb.
  rewrite sweep_eq in Hb. cbn in Hb. injection Hb as <- Hdirty <-. split.
  { apply reserve_outs; [|done]. by destruct Hs. }
  apply Forall_forall. intros c Hc%list_elem_of_In. apply in_concat in Hc as (out & Hout & Hc).
  apply in_map_iff in Hout as (i & <- & Hin). apply list_elem_of_In in Hin as Hin'.
  destruct (reserve_item_out run callID target received now rand i) as [(Hcl & E & Hst & Hcall & Hrun & Hat & Hdi)|[_ E]];
    rewrite E in Hc; [|destruct Hc]. destruct Hc as [<-|[]].
  destruct (tame_reserve false run callID target received now rand Hrand i (Hw i Hin')) as [Hwc Hev].
  split_and!; try done.
  - destruct Hd' as [[Hclean _]|Hd']; [exfalso|].
    + rewrite Hclean in Hdirty. apply orb_false_iff in Hdirty as [_ Hdirty].
      assert (existsb (λ i, (reserve_item run callID target received now rand i).1.2) (st_Items (queue d)) = true) as Hx; [|by rewrite Hdirty in Hx].
      apply existsb_exists. by exists i.
    + rewrite Hd'. cbn [queue st_Items]. rewrite map_map. apply list_elem_of_In, in_map_iff. exists i. split; [|done].
      by apply expire_keeps.
  - by destruct (wi_issued _ Hwc (or_introl Hst)).
  - exists i. pose proof (wi_attempts _ Hwc). split_and!; try done; [by rewrite (ev_id _ _ _ Hev)|by rewrite (ev_text _ _ _ Hev)|lia|].
    rewrite Hat. unfold claimable in Hcl. reflect_tests.
    match goal with Hor : _ ∨ _ |- _ => destruct Hor as [Hf|Hf] end.
    + assert (it_DeliveryAttempts i = 0) as ->; [|left; vm_compute; discriminate].
      apply (wi_fresh _ (Hw i Hin')). unfold first_claim in Hf. apply orb_true_iff in Hf as [Hf|Hf]; reflect_tests; auto.
    + unfold retry_claim, canRedeliver in Hf. apply andb_true_iff in Hf as [Hf _].
      destruct (it_RetryRequested i); [by right|]. left. rewrite orb_false_r in Hf. reflect_tests. lia.
Qed.

(** *** Receipts *)

Lemma receipt_indices_complete target items seen receipts indices r :
  receipt_indices target items seen receipts = Ok indices → r ∈ receipts →
  seen !! rc_InsertionID r = Some (rc_Token r) ∨
  ∃ n i, n ∈ indices ∧ items !! n = Some i ∧ receivable target r i = true.
Proof.
  revert seen indices; induction receipts as [|r0 rest IH]; intros seen indices H Hr; [by apply not_elem_of_nil in Hr|].
  cbn in H. destruct (seen !! rc_InsertionID r0) as [previous|] eqn:Es.
  - destruct (previous ≠s rc_Token r0) eqn:E; [discriminate|]. reflect_tests. subst previous.
    apply elem_of_cons in Hr as [->|Hr]; [by left|]. eauto.
  - destruct (find_index _ items) as [n|] eqn:F; [|discriminate].
    apply bind_Ok in H as (idx & Hidx & H). injection H as <-.
    apply find_index_Some in F as (i & Hi & Hri).
    assert (∃ n' i', n' ∈ n :: idx ∧ items !! n' = Some i' ∧ receivable target r0 i' = true) as Hn.
    { exists n, i. split_and!; try done. by left. }
    apply elem_of_cons in Hr as [->|Hr]; [by right|].
    destruct (IH _ _ Hidx Hr) as [Hseen|(n' & i' & Hn' & ? & ?)].
    + destruct (decide (rc_InsertionID r0 = rc_InsertionID r)) as [Eid|Hne].
      * rewrite Eid, lookup_insert_eq in Hseen. injection Hseen as Etok.
        assert (r0 = r) as -> by (destruct r0, r; cbn in *; by subst). by right.
      * rewrite lookup_insert_ne in Hseen by done. by left.
    + right. exists n', i'. split_and!; try done. by right.
Qed.

Lemma receipt_item_clean by_ outerID now i :
  (receipt_item by_ outerID now i).2 = false → (receipt_item by_ outerID now i).1 = i.
Proof. unfold receipt_item. destruct (_ =s _); [done|]. destruct (_ && _ && _); done. Qed.

Lemma receipt_item_acked by_ outerID now i :
  (by_ =s "outer_forwarded") = false → it_Status (receipt_item by_ outerID now i).1 = "acknowledged".
Proof.
  intros E. unfold receipt_item. rewrite E. destruct (it_Status i =s "acknowledged") eqn:E1; [by apply streq_true|].
  cbn [andb]. by destruct (outerID ≠s "").
Qed.

(** The update pass touches the records of its indices only, leaves each of
    them confirmed, and reports when it changed nothing. *)
Lemma receipt_apply_lookup by_ outerID now items indices items' dirty out :
  receipt_apply by_ outerID now items indices = (items', dirty, out) →
  (∀ n, n ∉ indices → items' !! n = items !! n) ∧
  (dirty = false → items' = items) ∧
  ((by_ =s "outer_forwarded") = false → ∀ n i, items !! n = Some i →
     n ∈ indices ∨ it_Status i = "acknowledged" → ∃ j, items' !! n = Some j ∧ it_Status j = "acknowledged").
Proof.
  revert items items' dirty out; induction indices as [|n rest IH]; intros items items' dirty out H; cbn in H.
  { injection H as <- <- <-. split_and!; try done. intros _ n i Hi [Hn|?]; [by apply not_elem_of_nil in Hn|eauto]. }
  destruct (items !! n) as [x|] eqn:Hx.
  2: { destruct (IH _ _ _ _ H) as (H1 & H2 & H3). split_and!; [intros m [_ Hm]%not_elem_of_cons; auto|done|].
       intros Hb m i Hi [[->|Hm]%elem_of_cons|Hm]; [by rewrite Hx in Hi|eauto..]. }
  pose proof (lookup_lt_Some _ _ _ Hx) as Hlt.
  destruct (receipt_item by_ outerID now x) as [y d] eqn:Ey.
  destruct (receipt_apply _ _ _ _ rest) as [[items1 d1] out1] eqn:E. injection H as <- <- <-.
  destruct (IH _ _ _ _ E) as (H1 & H2 & H3). split_and!.
  - intros m [Hne Hm]%not_elem_of_cons. rewrite H1 by done. by rewrite list_lookup_insert_ne.
  - intros [-> Hd1]%orb_false_iff. rewrite (H2 Hd1).
    pose proof (receipt_item_clean by_ outerID now x) as Hc. rewrite Ey in Hc. cbn [fst snd] in Hc.
    rewrite (Hc eq_refl). by apply list_insert_id.
  - intros Hb m i Hi Hm. destruct (decide (m = n)) as [->|Hne].
    + apply (H3 Hb n y); [by apply list_lookup_insert_eq|]. right.
      pose proof (receipt_item_acked by_ outerID now x Hb) as Ha. by rewrite Ey in Ha.
    + apply (H3 Hb m i); [by rewrite list_lookup_insert_ne|]. destruct Hm as [[?|?]%elem_of_cons|?]; [done|auto..].
Qed.

(** A change that fails leaves the queue as it was, unless its replacement
    reported that the directory could not be synced. *)
Lemma change_refused {A} ctx now (fn : diskState → Time → result (diskState * bool * A)) d fs o d' fs' :
  change encoded_len ctx now fn d fs = mkRun o d' fs' →
  match o with
  | Done _ => True
  | Failed msg => msg ≠ "sync atomic file parent directory" → d' = d
  | Dead => True
  end.
Proof.
  unfold change. destruct (_ || _); [by intros [= <- <- <-]|]. io_simpl.
  destruct (load d) as [[s m]|e]; [|by intros [= <- <- <-]].
  destruct (ctx 2%nat); [by intros [= <- <- <-]|]. destruct (fn s now) as [[[s' dirty] a]|e]; [|by intros [= <- <- <-]].
  destruct (negb dirty && _); [by intros [= <- <- <-]|]. destruct (MaxStoreBytes <? _); [by intros [= <- <- <-]|].
  destruct (ctx 3%nat); [by intros [= <- <- <-]|].
  destruct fs as [|[] fs]; cbn [io_write]; by intros [= <- <- <-].
Qed.

(** The supplement that a receipt names was delivered in its scope, with the
    token that the receipt shows. *)
Definition delivered_as (target : Target) (receipt : Receipt) (i : Item) : Prop :=
  it_ID i = rc_InsertionID receipt ∧ sameTarget (it_Target i) target = true ∧ it_InnerAppendedAt i ≠ None ∧
  it_ReceiptToken i ≠ "" ∧ it_ReceiptToken i = rc_Token receipt ∧ it_Status i ≠ "cancelled" ∧ it_Status i ≠ "target_changed".

Lemma receivable_delivered target receipt i : receivable target receipt i = true → delivered_as target receipt i.
Proof. unfold receivable. intros H. reflect_tests. by split_and!. Qed.


(** *** Submissions *)

Lemma expire_item_clean now i : (expire_item now i).1.2 = false → (expire_item now i).1.1 = i.
Proof.
  unfold expire_item, expire_receipt, expire_waiting.
  destruct (_ && _ && _ && _); [by destruct (waiting _ && _)|]. by destruct (waiting _ && _).
Qed.

Lemma expire_clean s now s' : expire s now = (s', false) → s' = s.
Proof.
  unfold expire. rewrite sweep_eq. intros [= <- H]. destruct s as [v n items]. cbn in *. f_equal.
  induction items as [|i items IH]; [done|]. cbn in *. apply orb_false_iff in H as [H1 H2].
  rewrite (expire_item_clean _ _ H1). by rewrite IH.
Qed.

Lemma sameTarget_refl t : sameTarget t t = true.
Proof. unfold sameTarget. by rewrite !String.eqb_refl, orb_true_r. Qed.

Lemma sum_bytes_sublist l k : l `sublist_of` k → sum_bytes l <= sum_bytes k.
Proof. unfold sum_bytes. induction 1; cbn; unfold len in *; lia. Qed.

Lemma sum_bytes_app l k : sum_bytes (l ++ k) = sum_bytes l + sum_bytes k.
Proof. unfold sum_bytes. induction l; cbn; [done|]. lia. Qed.

Lemma filter_sublist {A} (f : A → bool) l k : l `sublist_of` k → List.filter f l `sublist_of` List.filter f k.
Proof.
  induction 1 as [|x l k _ IH|x l k _ IH]; cbn; [constructor|by destruct (f x); [constructor|]|].
  destruct (f x); [by constructor|done].
Qed.

(** The supplement of a submission: the first of its conversation that carries its name. *)
Definition of_submission (target : Target) (submissionID : string) (i : Item) : bool :=
  bool_decide (tg_Owner (it_Target i) = tg_Owner target ∧ tg_Conversation (it_Target i) = tg_Conversation target ∧
               it_SubmissionID i = submissionID).
Definition submitted (target : Target) (submissionID : string) (s : diskState) : option Item :=
  List.find (of_submission target submissionID) (st_Items s).

Lemma of_submission_true target submissionID i :
  (in_conversation (tg_Owner target) (tg_Conversation target) i && (it_SubmissionID i =s submissionID))
  = of_submission target submissionID i.
Proof.
  unfold of_submission, in_conversation.
  destruct (String.eqb_spec (tg_Owner (it_Target i)) (tg_Owner target)), (String.eqb_spec (tg_Conversation (it_Target i)) (tg_Conversation target)),
    (String.eqb_spec (it_SubmissionID i) submissionID); case_bool_decide; naive_solver.
Qed.

Lemma find_of_submission target submissionID items :
  List.find (λ i, it_SubmissionID i =s submissionID) (List.filter (in_conversation (tg_Owner target) (tg_Conversation target)) items)
  = List.find (of_submission target submissionID) items.
Proof.
  induction items as [|i items IH]; [done|]. cbn [List.filter List.find]. rewrite <- of_submission_true.
  destruct (in_conversation _ _ i); cbn [List.find andb]; [|done]. by destruct (_ =s _).
Qed.

Lemma find_filter_none {A} (p f : A → bool) l : List.find p l = None → List.find p (List.filter f l) = None.
Proof.
  induction l as [|x l IH]; cbn; [done|]. destruct (p x) eqn:E; [done|]. intros Hl. destruct (f x); cbn; [rewrite E|]; auto.
Qed.

Lemma find_app_none {A} (p : A → bool) l k : List.find p l = None → List.find p (l ++ k) = List.find p k.
Proof. induction l as [|x l IH]; cbn; [done|]. destruct (p x); [done|]. exact IH. Qed.

Lemma of_submission_self target submissionID text id n now : of_submission target submissionID (new_item target submissionID text id n now) = true.
Proof. by apply bool_decide_eq_true_2. Qed.

(** What expires stays the supplement of its submission. *)
Lemma expire_submitted s now s' dirty target submissionID :
  wf_state s → expire s now = (s', dirty) →
  submitted target submissionID s' = (λ i, (expire_item now i).1.1) <$> submitted target submissionID s.
Proof.
  intros [_ _ _ Hw]. unfold expire. rewrite sweep_eq. intros [= <- _]. unfold submitted. cbn [st_Items over].
  induction Hw as [|i items Hi Hw IH]; [done|]. cbn.
  assert (of_submission target submissionID (expire_item now i).1.1 = of_submission target submissionID i) as ->.
  { unfold of_submission. destruct (tame_expire false now i Hi) as [_ []]. apply bool_decide_ext. by rewrite ev_target0, ev_submission0. }
  by destruct (of_submission _ _ i).
Qed.

(** Add looks for the supplement of the submission first: it gives back the one
    there is, and makes a new one only where there is none. *)
Lemma add_body_cases target submissionID text raw s now s' dirty item :
  wf_state s → add_body target submissionID text raw s now = Ok (s', dirty, item) →
  submitted target submissionID s' = Some item ∧
  match submitted target submissionID s with
  | Some i => item = (expire_item now i).1.1 ∧ it_ID item = it_ID i ∧ it_Text i = text ∧ expire s now = (s', dirty)
  | None => it_ID item = "ins_" +:+ hex_encode raw
  end.
Proof.
  intros Hs. unfold add_body. destruct (expire s now) as [s1 d1] eqn:E1. rewrite find_of_submission.
  change (List.find _ (st_Items s1)) with (submitted target submissionID s1). rewrite (expire_submitted _ _ _ _ _ _ Hs E1).
  destruct (submitted target submissionID s) as [i|] eqn:Ef; cbn [fmap option_fmap option_map].
  - destruct (_ || _) eqn:E2; [discriminate|]. intros [= <- <- <-]. rewrite (expire_submitted _ _ _ _ _ _ Hs E1), Ef.
    split; [done|]. apply find_some in Ef as [Hin _]. apply list_elem_of_In in Hin.
    pose proof (ws_items _ Hs) as Hw. rewrite Forall_forall in Hw. destruct (tame_expire false now i (Hw i Hin)) as [_ []].
    reflect_tests. split_and!; try done. congruence.
  - destruct (_ || _) eqn:E2; [discriminate|]. destruct (MaxRecords <=? _); [discriminate|]. intros [= <- <- <-]. split; [|done].
    pose proof (expire_submitted _ _ _ _ target submissionID Hs E1) as E. rewrite Ef in E.
    unfold submitted in *. cbn [st_Items]. rewrite find_app_none by by apply find_filter_none.
    cbn [List.find]. by rewrite of_submission_self.
Qed.

Lemma Add_ran ctx now raw target submissionID text d fs item d' fs' :
  queue_ok d → Add encoded_len ctx now raw target submissionID text d fs = mkRun (Done item) d' fs' →
  utf8_valid (bytes text) = true ∧ 1 <= len text <= MaxTextBytes ∧
  ∃ s' dirty, add_body target submissionID text raw (queue d) now = Ok (s', dirty, item) ∧ queue d' = s'.
Proof.
  intros Hr H. pose proof (queue_wf d Hr) as Hs. unfold Add in H. destruct (_ || _) eqn:Eg; [discriminate|]. reflect_tests.
  split; [done|]. split; [split; [destruct text; [by cbn in *|unfold len, bytes; cbn; lia]|done]|].
  apply change_Done in H as (s' & dirty & Hb & Hd'); [|done]. exists s', dirty. split; [done|].
  destruct Hd' as [[-> ->]| ->]; [|done]. unfold add_body in Hb. destruct (expire (queue d) now) as [s1 d1] eqn:E1.
  destruct (List.find _ _) as [i|]; destruct (_ || _); try discriminate; [|destruct (MaxRecords <=? _); discriminate].
  injection Hb as <- -> _. symmetry. by apply expire_clean with now.
Qed.

Lemma add_body_gives target submissionID text raw s now s' dirty item :
  add_body target submissionID text raw s now = Ok (s', dirty, item) → it_Text item = text ∧ sameTarget (it_Target item) target = true.
Proof.
  unfold add_body. destruct (expire s now) as [s1 d1]. destruct (List.find _ _) as [i|].
  - destruct (_ || _) eqn:E2; [discriminate|]. intros [= _ _ <-]. by reflect_tests.
  - destruct (_ || _); [discriminate|]. destruct (MaxRecords <=? _); [discriminate|]. intros [= _ _ <-]. by split; [|apply sameTarget_refl].
Qed.

(** A new supplement fits its conversation. *)
Lemma add_body_capacity target submissionID text raw s now s' dirty item :
  submitted target submissionID (expire s now).1 = None →
  add_body target submissionID text raw s now = Ok (s', dirty, item) →
  let held := List.filter (outstanding now) (List.filter
    (in_conversation (tg_Owner target) (tg_Conversation target)) (st_Items s')) in
  it_Status item = "pending" ∧ it_Target item = target ∧ it_Text item = text ∧
  Z.of_nat (length held) <= MaxPending ∧ sum_bytes held <= MaxPendingBytes.
Proof.
  unfold add_body. destruct (expire s now) as [s1 d1] eqn:E1. rewrite find_of_submission. cbn [fst]. unfold submitted.
  intros ->. destruct (_ || _) eqn:E2; [discriminate|]. destruct (MaxRecords <=? _) eqn:E3; [discriminate|].
  intros [= <- <- <-]. reflect_tests. cbn [st_Items]. set (mine := in_conversation _ _) in *.
  set (counted := List.filter (outstanding now) (List.filter mine (st_Items s1))) in *.
  set (kept := List.filter (retained now) (st_Items s1)).
  assert (List.filter (outstanding now) (List.filter mine kept) `sublist_of` counted) as Hsub
    by apply filter_sublist, filter_sublist, sublist_List_filter.
  rewrite !List.filter_app, length_app, sum_bytes_app. pose proof (sublist_length _ _ Hsub). pose proof (sum_bytes_sublist _ _ Hsub).
  set (item := new_item _ _ _ _ _ _). assert (sum_bytes (List.filter (outstanding now) (List.filter mine [item])) <= len text) as Hb1.
  { cbn [List.filter]. destruct (mine item); cbn [List.filter]; [|cbn; unfold len; lia].
    destruct (outstanding now item); cbn [sum_bytes foldr]; [|unfold len; lia]. change (it_Text item) with text. lia. }
  assert (length (List.filter (outstanding now) (List.filter mine [item])) <= 1)%nat as Hb2.
  { cbn [List.filter]. destruct (mine item); cbn [List.filter]; [|cbn; lia]. destruct (outstanding now item); cbn; lia. }
  split_and!; try done; lia.
Qed.

(** C31: an accepted submission is durably in the queue with the text and the
    target the user gave.  If the conversation has a supplement of the
    submission already, whatever has become of it, that one is returned and
    none is added; otherwise a new one waits that leaves its conversation
    within the capacity.  Sent again to the queue that this leaves, with any
    text and under any faults, a submission that is accepted returns the same
    supplement, and its text is the same. *)
Theorem Add_admits ctx now raw target submissionID text d fs item d' fs' :
  reachable d → fresh_raw (queue d) raw → now ≠ 0 →
  Add encoded_len ctx now raw target submissionID text d fs = mkRun (Done item) d' fs' →
  item ∈ st_Items (queue d') ∧ it_Text item = text ∧ it_SubmissionID item = submissionID ∧
  sameTarget (it_Target item) target = true ∧ utf8_valid (bytes text) = true ∧ 1 <= len text <= MaxTextBytes ∧
  match submitted target submissionID (queue d) with
  | Some i => it_ID item = it_ID i ∧ it_Text i = text ∧ map it_ID (st_Items (queue d')) = map it_ID (st_Items (queue d))
  | None =>
      it_ID item ∉ map it_ID (st_Items (queue d)) ∧ it_Status item = "pending" ∧ it_Target item = target ∧
      let held := List.filter (outstanding now) (List.filter
        (in_conversation (tg_Owner target) (tg_Conversation target)) (st_Items (queue d'))) in
      Z.of_nat (length held) <= MaxPending ∧ sum_bytes held <= MaxPendingBytes
  end ∧
  (∀ ctx2 now2 raw2 text2 fs1 item2 d2 fs2,
     Add encoded_len ctx2 now2 raw2 target submissionID text2 d' fs1 = mkRun (Done item2) d2 fs2 →
     it_ID item2 = it_ID item ∧ text2 = text ∧ map it_ID (st_Items (queue d2)) = map it_ID (st_Items (queue d'))).
Proof.
  intros Hreach [Hraw Hfresh] Hnow H. pose proof (reachable_ok _ Hreach) as Hr. pose proof (queue_wf d Hr) as Hs.
  assert (queue_ok d') as Hr'.
  { apply reachable_ok. replace d' with (exec (OpAdd raw target submissionID text) ctx now d fs) by (cbn; by rewrite H).
    by apply reachable_step. }
  destruct (Add_ran _ _ _ _ _ _ _ _ _ _ _ Hr H) as (Hutf & Hlen & s' & dirty & Hb & Hq).
  destruct (add_body_cases _ _ _ _ _ _ _ _ _ Hs Hb) as [Hsub Hcases]. rewrite <- Hq in Hsub.
  pose proof (find_some _ _ Hsub) as [Hin Hof%bool_decide_eq_true_1]. apply list_elem_of_In in Hin. destruct Hof as (Ho & Hc & Hsid).
  assert (it_Text item = text ∧ sameTarget (it_Target item) target = true) as [Htext Htarget] by by apply (add_body_gives _ _ _ _ _ _ _ _ _ Hb).
  split_and!; try done; try lia.
  - destruct (submitted target submissionID (queue d)) as [i|] eqn:Ei.
    + destruct Hcases as (_ & Hid & Hti & He). split_and!; [done..|]. rewrite Hq. by eapply expire_ids.
    + rewrite Hcases. split; [done|].
      destruct (add_body_capacity target submissionID text raw (queue d) now s' dirty item) as (? & ? & _ & ?); [|done|by rewrite Hq].
      destruct (expire (queue d) now) as [s1 d1] eqn:E1. by rewrite (expire_submitted _ _ _ _ _ _ Hs E1), Ei.
  - intros ctx2 now2 raw2 text2 fs1 item2 d2 fs2 H2. pose proof (queue_wf d' Hr') as Hs'.
    destruct (Add_ran _ _ _ _ _ _ _ _ _ _ _ Hr' H2) as (_ & _ & s2 & dirty2 & Hb2 & Hq2).
    destruct (add_body_cases _ _ _ _ _ _ _ _ _ Hs' Hb2) as [_ Hcases2]. rewrite Hsub in Hcases2.
    destruct Hcases2 as (_ & Hid & Hti & He). split_and!; [done|congruence|]. rewrite Hq2. by eapply expire_ids.
Qed.

(** ** The public view *)

Lemma attemptsRemaining_pos limit n : attemptsRemaining limit n = 0 ↔ limit <= n.
Proof. unfold attemptsRemaining. destruct (Z.leb_spec limit n); lia. Qed.
End Queue.

(** the view tells the truth about redelivery: an unconfirmed supplement
    can be issued again to a call received at a given time exactly when that
    time has reached the next retry the view announced; the view offers a
    manual retry exactly when Retry would accept and change the record; and
    it shows neither the owner, the run nor the receipt token. *)
Theorem Present_tells_redelivery i now received :
  wf_item i → unconfirmed (it_Status i) = true → it_UpdatedAt i < received → now <= received →
  (canRedeliver i received = true ↔
     received < it_ExpiresAt i ∧ ∃ t, pv_NextRetryAt (Present i now) = Some t ∧ t <= received) ∧
  (pv_ManualRetryAvailable (Present i now) = true ↔ retryable i now = true ∧ it_RetryRequested i = false) ∧
  (let shown := pv_Item (Present i now) in
   tg_Owner (it_Target shown) = "" ∧ it_RunID shown = "" ∧ it_ReceiptToken shown = "" ∧ it_ID shown = it_ID i).
Proof.
  intros Hi Hu Hup Hnow. pose proof (proj1 (wi_retry _ Hi)) as Hretry. pose proof (wi_attempts _ Hi) as Hat.
  unfold canRedeliver, retryable, Present. rewrite Hu.
  assert ((it_Status i =s "acknowledged") = false) as ->.
  { apply unconfirmed_true in Hu as [->|[->| ->]]; done. }
  rewrite (proj2 (Z.ltb_lt _ _) Hup). rewrite !orb_true_r. cbn [negb orb andb].
  set (view := if it_Status i =s "outer_forwarded" then _ else _).
  assert (pv_Item view = Public i ∧ pv_NextRetryAt view = None ∧ pv_ManualRetryAvailable view = false) as (Hv1 & Hv2 & Hv3)
    by (subst view; by destruct (_ =s _)).
  assert ((0 <? it_DeliveryAttempts i) = negb (it_DeliveryAttempts i =? 0)) as ->.
  { destruct (Z.ltb_spec 0 (it_DeliveryAttempts i)), (Z.eqb_spec (it_DeliveryAttempts i) 0); try done; lia. }
  assert ((MaxTotalDeliveries <=? it_DeliveryAttempts i) = negb (it_DeliveryAttempts i <? MaxTotalDeliveries)) as ->
    by apply Z.leb_antisym.
  destruct (Z.ltb_spec now (it_ExpiresAt i)) as [Hexp|Hexp]; cbn [negb orb].
  2: { rewrite Hv1, Hv2, Hv3. assert ((received <? it_ExpiresAt i) = false) as -> by (apply Z.ltb_ge; lia).
       rewrite !andb_false_r. cbn [andb]. split_and!; try done.
       - split; [discriminate|]. intros [_ (t & [=] & _)].
       - split; [discriminate|]. intros [[=] _]. }
  destruct (it_DeliveryAttempts i =? 0); cbn [negb orb andb]; [|destruct (it_ReceiptToken i =s ""); cbn [negb orb andb]].
  1,2: rewrite Hv1, Hv2, Hv3, ?orb_true_r; split_and!; try done;
    [split; [discriminate|intros [_ (t & [=] & _)]]|split; [discriminate|intros [[=] _]]].
  cbn [over pv_TotalAttemptsRemaining pv_AutomaticAttemptsRemaining]. unfold attemptsRemaining. rewrite !Z.leb_antisym.
  destruct (Z.ltb_spec (it_DeliveryAttempts i) MaxTotalDeliveries) as [Htot|Htot]; cbn [negb orb andb].
  2: { cbn [over pv_Item pv_NextRetryAt pv_ManualRetryAvailable]. rewrite Hv1, Hv2, Hv3. split_and!; try done.
       - split; [discriminate|intros [_ (t & [=] & _)]].
       - split; [discriminate|intros [[=] _]]. }
  rewrite (proj2 (Z.eqb_neq _ _)) by lia.
  destruct (it_RetryRequested i) eqn:Erq.
  - rewrite (Hretry eq_refl). cbn [negb orb andb over pv_Item pv_NextRetryAt pv_ManualRetryAvailable].
    rewrite Hv1, orb_true_r, andb_true_r. cbn [andb]. split_and!; try done; [|split; [discriminate|by intros [_ [=]]]].
    rewrite Z.ltb_lt. split; [intros H; split; [done|]; eexists; split; [done|lia]|by intros [? _]].
  - destruct (Z.ltb_spec (it_DeliveryAttempts i) MaxAutomaticDeliveries) as [Haut|Haut]; cbn [negb orb andb].
    + rewrite (proj2 (Z.ltb_lt 0 (MaxAutomaticDeliveries - it_DeliveryAttempts i))) by lia.
      destruct (it_RetryAfter i) as [after|]; cbn [over pv_Item pv_NextRetryAt pv_ManualRetryAvailable]; rewrite Hv1;
        (split_and!; try done); rewrite ?andb_true_iff, ?negb_true_iff, Z.ltb_lt, ?Z.ltb_ge.
      * split; [intros [? ?]; split; [done|]; by exists after|]. intros [? (t & [= <-] & ?)]. done.
      * split; [intros [? _]; split; [done|]; eexists; split; [done|lia]|]. intros [? _]. done.
    + cbn [Z.ltb Z.compare over pv_Item pv_NextRetryAt pv_ManualRetryAvailable]. rewrite Hv1, Hv2. split_and!; try done.
      split; [discriminate|intros [_ (t & [=] & _)]].
Qed.

(** ** Concrete instances *)

Section Instances.
Definition sample_target : Target := mkTarget "local" "conversation-1" "task-1" "" "".
Definition sample_raw : list ascii := repeat (ascii_of_nat 7) 16.
(** An encoder of 700 bytes per record, and one that fills the file. *)
Definition sample_len (s : diskState) : Z := 700 * Z.of_nat (length (st_Items s)).
Definition full_len (s : diskState) : Z := match st_Items s with [] => 0 | _ => MaxStoreBytes end.

Definition add_one : op := OpAdd sample_raw sample_target "submission-1" "stop after the build".
Definition added : disk := exec sample_len add_one (λ _, false) 1000 None [].
Definition reserved : disk :=
  exec sample_len (OpReserve "run-1" (λ _, sample_raw) sample_target "call-1" 2000) (λ _, false) 2000 added [].
Definition appended : disk :=
  exec sample_len (OpFinish "run-1" "call-1" true (mkTransport "" "" false)) (λ _, false) 3000 reserved [].

Lemma added_reachable : reachable sample_len added.
Proof. apply reachable_step; [apply reachable_new|]. split; [|done]. split; [done|apply not_elem_of_nil]. Qed.
Lemma reserved_reachable : reachable sample_len reserved.
Proof. apply reachable_step; [apply added_reachable|]. done. Qed.
Lemma appended_reachable : reachable sample_len appended.
Proof. apply reachable_step; [apply reserved_reachable|]. split; vm_compute; discriminate. Qed.
End Instances.

Lemma queue_always_readable_witness :
  length (st_Items (queue added)) = 1%nat ∧ load added = Ok (queue added, false).
Proof.
  split; [vm_compute; reflexivity|].
  apply (queue_always_readable sample_len added added_reachable). vm_compute; reflexivity.
Defined.

Lemma supplement_life_cycle_witness :
  ∃ i j, i ∈ st_Items (queue added) ∧ j ∈ st_Items (queue reserved) ∧ it_Text j = it_Text i ∧ it_Status j = "reserved".
Proof.
  eexists _, _. split; [apply list_elem_of_here|]. split; [vm_compute; apply list_elem_of_here|].
  split; [|vm_compute; reflexivity].
  eapply (supplement_life_cycle sample_len (OpReserve "run-1" (λ _, sample_raw) sample_target "call-1" 2000)
    (λ _, false) 2000 added []);
    [apply added_reachable|intros id; reflexivity|apply list_elem_of_here|vm_compute; apply list_elem_of_here|vm_compute; reflexivity].
Defined.

Lemma full_queue_locks_out_witness :
  ∃ item d', change full_len (λ _, false) 1000 (add_body sample_target "submission-1" "text" sample_raw) None [] =
    mkRun (Done item) d' [] ∧ ∀ o ctx now fs, exec full_len o ctx now d' fs = d'.
Proof.
  eexists. eapply (full_queue_locks_out full_len (add_body sample_target "submission-1" "text" sample_raw) 1000 None);
    [apply reachable_new|vm_compute; reflexivity|vm_compute; reflexivity|vm_compute; reflexivity].
Defined.

Lemma Reserve_claims_witness :
  ∃ claimed d', Reserve sample_len (λ _, false) "run-1" 2000 (λ _, sample_raw) sample_target "call-1" 2000 added [] =
      mkRun (Done claimed) d' [] ∧ length claimed = 1%nat ∧
    Forall (λ c, c ∈ st_Items (queue d') ∧ it_Status c = "reserved") claimed.
Proof.
  eexists _, _. split; [vm_compute; reflexivity|]. split; [reflexivity|].
  eapply Forall_impl; [eapply (Reserve_claims sample_len (λ _, false) "run-1" 2000 (λ _, sample_raw) sample_target "call-1" 2000 added []);
    [apply added_reachable|intros id; reflexivity|vm_compute; reflexivity]|].
  intros c Hc. exact (conj (proj1 Hc) (proj1 (proj2 Hc))).
Defined.

Definition sample_receipt : Receipt :=
  mkReceipt ("ins_" +:+ hex_encode sample_raw) (hex_encode sample_raw).

Abbreviation acked :=
  (Receipt_ sample_len (λ _, false) 4000 sample_target [sample_receipt] "receiver_receipt" "" appended []).

Lemma acked_ran : ran acked = true.
Proof. vm_compute. reflexivity. Qed.


Abbreviation added_run :=
  (Add sample_len (λ _, false) 1000 sample_raw sample_target "submission-1" "stop after the build" None []).

Lemma added_ran : ran added_run = true.
Proof. vm_compute. reflexivity. Qed.

Lemma Add_admits_witness :
  ∃ item, item ∈ st_Items (queue (run_disk added_run)) ∧ it_Text item = "stop after the build".
Proof.
  destruct (ran_Done added_run added_ran) as [item Hrun].
  pose proof (Add_admits sample_len (λ _, false) 1000 sample_raw sample_target "submission-1" "stop after the build" None [] item _ _
    (reachable_new _) (conj eq_refl (not_elem_of_nil _)) ltac:(discriminate) Hrun) as H.
  exists item. exact (conj (proj1 H) (proj1 (proj2 H))).
Defined.

Definition sample_item : Item :=
  match st_Items (queue appended) with i :: _ => i | [] => new_item sample_target "" "" "" 0 0 end.

Lemma sample_item_in : sample_item ∈ st_Items (queue appended).
Proof. vm_compute. apply list_elem_of_here. Qed.

Lemma Present_tells_redelivery_witness :
  canRedeliver sample_item (ReceiptWait + 3000) = true ∧ pv_NextRetryAt (Present sample_item 4000) = Some (ReceiptWait + 3000).
Proof.
  split; [|vm_compute; reflexivity].
  refine (proj2 (proj1 (Present_tells_redelivery sample_item 4000 (ReceiptWait + 3000) _ _ _ _)) _).
  - exact (proj1 (Forall_forall _ _) (ws_items _ (queue_wf sample_len _ (reachable_ok sample_len _ appended_reachable))) _ sample_item_in).
  - vm_compute; reflexivity.
  - vm_compute; reflexivity.
  - vm_compute; discriminate.
  - split; [vm_compute; reflexivity|]. exists (ReceiptWait + 3000). split; [vm_compute; reflexivity|vm_compute; discriminate].
Defined.
