(* ===== verification/Binding.v ===== *)
(** * Binding: the execution scope of a call (internal/activity/model.go)

    Every call of a tool carries a scope: the conversation, task, thread, step
    and workspace it runs for, and the calls it descends from or repeats. *)

From S2P Require Import Prelude GoText.
Local Open Scope Z_scope.

Record ExecutionScope : Type := mkExecutionScope {
  xs_Source : string;
  xs_BindingQuality : string;
  xs_BindingRevision : Z;
  xs_Visibility : string;
  xs_SourceOwnerKey : string;
  xs_ConversationID : string;
  xs_CallID : string;
  xs_ParentCallID : string;
  xs_RetryOfCallID : string;
  xs_TaskID : string;
  xs_ThreadID : string;
  xs_StepID : string;
  xs_WorkspaceID : string;
  xs_Label : string;
}.
#[export] Instance ExecutionScope_eta : Eta ExecutionScope := λ b,
  mkExecutionScope (xs_Source b) (xs_BindingQuality b) (xs_BindingRevision b) (xs_Visibility b)
    (xs_SourceOwnerKey b) (xs_ConversationID b) (xs_CallID b) (xs_ParentCallID b) (xs_RetryOfCallID b)
    (xs_TaskID b) (xs_ThreadID b) (xs_StepID b) (xs_WorkspaceID b) (xs_Label b).

Definition no_binding : ExecutionScope := mkExecutionScope "" "" 0 "" "" "" "" "" "" "" "" "" "" "".

(** The regular expression [^conv_[a-f0-9]{32}$]. *)
Definition conversationIdentifier (s : string) : bool :=
  HasPrefix s "conv_" && (len s =? 37) && forallb is_lower_hex (drop 5 (bytes s)).

Definition Validate (b : ExecutionScope) : result unit :=
  reject (existsb (λ id, (id ≠s "") && negb (matches_id id))
            [xs_TaskID b; xs_ThreadID b; xs_StepID b; xs_WorkspaceID b; xs_CallID b; xs_ParentCallID b; xs_RetryOfCallID b])
    "invalid activity binding identifier";;
  reject ((xs_ConversationID b ≠s "") && negb (conversationIdentifier (xs_ConversationID b))) "invalid conversation_id";;
  reject ((xs_CallID b ≠s "") && ((xs_ParentCallID b =s xs_CallID b) || (xs_RetryOfCallID b =s xs_CallID b)))
    "a call cannot parent or retry itself";;
  reject ((xs_TaskID b =s "") && ((xs_ThreadID b ≠s "") || (xs_StepID b ≠s "")))
    "task_id is required with thread_id or step_id";;
  reject (512 <? len (xs_Label b)) "activity_label exceeds 512 bytes".
