(* ===== verification/Permission.v ===== *)
(** * Permission: admission of calls (internal/permission)

    The policy file says which tools a call may use; [Decide] turns the facts
    of a call into Allow, Ask or Deny.  This file models policy.go, profile.go
    and fresh_install.go; Approval.v models the pending approvals.

    The policy file holds its content decoded over the defaults; [policy_len]
    is the number of bytes json.Marshal produces.  A nil dereference is the
    outcome [None] of [approvalDecision]; that it never happens is proved. *)

From S2P Require Import Prelude GoText Durable Binding.
Local Open Scope Z_scope.

Definition ReadOnly : string := "readonly".
Definition Rules : string := "rules".
Definition Full : string := "full".
Definition Allow : string := "allow".
Definition Ask : string := "ask".
Definition Deny : string := "deny".
Definition CurrentSchemaVersion : Z := 3.

Definition FileRead : string := "read".
Definition FileWrite : string := "write".
Definition BoundaryNone : string := "none".
Definition BoundaryWorkspace : string := "workspace".
Definition OnRequest : string := "on-request".
Definition Never : string := "never".
Definition Granular : string := "granular".
Definition ReviewerUser : string := "user".
Definition ReviewerAuto : string := "auto_review".

Definition ErrRevision : string := "permission policy changed; reload the effective policy".

(** ** Data *)

Record Profile : Type := mkProfile {
  pr_Filesystem : string;
  pr_Network : string;
  pr_SandboxBoundary : string;
}.

Record ApprovalCategories : Type := mkApprovalCategories {
  ac_FileWrites : bool;
  ac_Commands : bool;
  ac_Network : bool;
  ac_MCP : bool;
  ac_Management : bool;
  ac_Other : bool;
}.

Record ApprovalPolicy : Type := mkApprovalPolicy {
  ap_Mode : string;
  ap_Granular : option ApprovalCategories;
}.

Record Settings : Type := mkSettings {
  se_Profile : Profile;
  se_Approval : ApprovalPolicy;
  se_Reviewer : string;
}.

Record Rule : Type := mkRule {
  ru_ID : string;
  ru_Tool : string;
  ru_Action : string;
  ru_WorkspaceID : string;
  ru_Effect : string;
  ru_Reason : string;
}.

Record Scope : Type := mkScope {
  sc_Settings : option Settings;
  sc_CustomPermissionsEnabled : option bool;
  sc_Kind : string;
  sc_ID : string;
  sc_Mode : string;
}.

Record Policy : Type := mkPolicy {
  po_Settings : option Settings;
  po_CustomPermissionsEnabled : option bool;
  po_SchemaVersion : Z;
  po_Revision : Z;
  po_GlobalMode : string;
  po_Scopes : list Scope;
  po_Rules : list Rule;
  po_UpdatedAt : Time;
}.

Record Effective : Type := mkEffective {
  ef_Settings : Settings;
  ef_ConfiguredSettings : Settings;
  ef_SettingsSource : string;
  ef_SettingsScope : string;
  ef_SettingsScopeID : string;
  ef_CustomPermissionsEnabled : bool;
  ef_CustomPermissionsScope : string;
  ef_CustomPermissionsScopeID : string;
  ef_Mode : string;
  ef_Scope : string;
  ef_ScopeID : string;
  ef_Revision : Z;
}.

Record Change : Type := mkChange {
  ch_Settings : option Settings;
  ch_CustomPermissionsEnabled : option bool;
  ch_InheritSettings : bool;
  ch_Scope : string;
  ch_ScopeID : string;
  ch_Mode : string;
  ch_ExpectedRevision : Z;
  ch_ConfirmFull : bool;
  ch_Rules : option (list Rule);
}.

Record Facts : Type := mkFacts {
  fa_EffectsKnown : bool;
  fa_Filesystem : string;
  fa_Network : bool;
  fa_WorkspaceBound : bool;
  fa_Binding : ExecutionScope;
  fa_Tool : string;
  fa_Action : string;
  fa_ReadOnly : bool;
  fa_Management : bool;
  fa_Reason : string;
}.

Record Decision : Type := mkDecision {
  de_Effective : Effective;
  de_Effect : string;
  de_RuleID : string;
  de_Reason : string;
}.

#[export] Instance Scope_eta : Eta Scope := λ s,
  mkScope (sc_Settings s) (sc_CustomPermissionsEnabled s) (sc_Kind s) (sc_ID s) (sc_Mode s).
#[export] Instance Policy_eta : Eta Policy := λ p,
  mkPolicy (po_Settings p) (po_CustomPermissionsEnabled p) (po_SchemaVersion p) (po_Revision p)
    (po_GlobalMode p) (po_Scopes p) (po_Rules p) (po_UpdatedAt p).
#[export] Instance Effective_eta : Eta Effective := λ e,
  mkEffective (ef_Settings e) (ef_ConfiguredSettings e) (ef_SettingsSource e) (ef_SettingsScope e)
    (ef_SettingsScopeID e) (ef_CustomPermissionsEnabled e) (ef_CustomPermissionsScope e)
    (ef_CustomPermissionsScopeID e) (ef_Mode e) (ef_Scope e) (ef_ScopeID e) (ef_Revision e).
#[export] Instance Decision_eta : Eta Decision := λ d,
  mkDecision (de_Effective d) (de_Effect d) (de_RuleID d) (de_Reason d).

(** [d] with its verdict. *)
Definition decided (d : Decision) (effect rule reason : string) : Decision :=
  mkDecision (de_Effective d) effect rule reason.

(** ** Settings (profile.go) *)

Definition DefaultSettings : Settings :=
  mkSettings (mkProfile FileWrite Allow BoundaryNone) (mkApprovalPolicy OnRequest None) ReviewerUser.


Definition validate_settings (s : Settings) : result unit :=
  reject (negb (one_of (pr_Filesystem (se_Profile s)) [Deny; FileRead; FileWrite]))
    "filesystem must be deny, read or write";;
  reject (negb (one_of (pr_Network (se_Profile s)) [Allow; Deny])) "network must be allow or deny";;
  reject (negb (one_of (pr_SandboxBoundary (se_Profile s)) [BoundaryNone; BoundaryWorkspace]))
    "sandbox_boundary must be none or workspace (admission boundary, not an OS sandbox)";;
  reject (negb (one_of (ap_Mode (se_Approval s)) [OnRequest; Never; Granular]))
    "approval policy must be on-request, never or granular";;
  reject (negb (Bool.eqb (ap_Mode (se_Approval s) =s Granular) (not_nil (ap_Granular (se_Approval s)))))
    "granular settings are required exactly when approval mode is granular";;
  reject (negb (one_of (se_Reviewer s) [ReviewerUser; ReviewerAuto]))
    "approval reviewer must be user or auto_review".

Definition Restricted (p : Profile) : bool :=
  (pr_Filesystem p ≠s FileWrite) || (pr_Network p ≠s Allow) || (pr_SandboxBoundary p ≠s BoundaryNone).

Definition profileDecision (d : Decision) (f : Facts) : Decision :=
  let profile := se_Profile (ef_Settings (de_Effective d)) in
  if negb (Restricted profile) then d
  else if negb (fa_EffectsKnown f) then
    decided d Deny "profile-unknown-effects" "当前权限配置无法约束此工具的内部副作用；未派发，审批不能绕过此限制。"
  else if (pr_Filesystem profile =s Deny) && (fa_Filesystem f ≠s "")
       || (pr_Filesystem profile =s FileRead) && (fa_Filesystem f =s FileWrite) then
    decided d Deny "profile-filesystem" "文件系统访问超出 Permission Profile；审批不能扩大此权限。"
  else if (pr_Network profile =s Deny) && fa_Network f then
    decided d Deny "profile-network" "Permission Profile 禁止此操作的网络访问。"
  else if (pr_SandboxBoundary profile =s BoundaryWorkspace) && negb (fa_WorkspaceBound f) then
    decided d Deny "profile-boundary" "无法确认所有目标都位于固定工作区内；命令、远程运行时和不透明工具不会被视为已沙箱化。"
  else d.

(** The categories of approval a call falls under, each with whether the
    granular settings accept it. *)
Definition categories (f : Facts) (g : ApprovalCategories) : list (bool * bool) :=
  [(fa_Filesystem f =s FileWrite, ac_FileWrites g);
   ((fa_Tool f =s "exec_command") || (fa_Tool f =s "session_act"), ac_Commands g);
   (fa_Network f, ac_Network g);
   (fa_Tool f =s "mcp_tool_call", ac_MCP g);
   (fa_Management f || (fa_Tool f =s "plugin_manage") || (fa_Tool f =s "skill_package")
      || (fa_Tool f =s "mcp_manage") || (fa_Tool f =s "workspace_manage"), ac_Management g)].

(** The closure [check] applied in turn: (matched, block). *)
Definition check_categories (checks : list (bool * bool)) : bool * bool :=
  foldl (λ '(matched, block) '(applies, permitted),
    if applies : bool then (true, block || negb permitted) else (matched, block)) (false, false) checks.

Definition approvalDecision (d : Decision) (f : Facts) : option Decision :=
  if de_Effect d ≠s Ask then Some d
  else
    let policy := se_Approval (ef_Settings (de_Effective d)) in
    block ← (if ap_Mode policy =s Never then Some true
             else if ap_Mode policy =s Granular then
               g ← ap_Granular policy;
               let '(matched, block) := check_categories (categories f g) in
               Some (if negb matched then negb (ac_Other g) else block)
             else Some false);
    Some (if block : bool
          then decided d Deny "approval-policy" "当前 Approval Policy 不受理此类审批；操作未执行。never 不代表自动批准。"
          else d).

(** ** The policy (policy.go) *)

Definition validMode (mode : string) : bool := (mode =s ReadOnly) || (mode =s Rules) || (mode =s Full).

Definition validate_scope (version : Z) (scope : Scope) : result unit :=
  reject ((sc_Kind scope ≠s "workspace") && (sc_Kind scope ≠s "conversation")
          || negb (matches_id (sc_ID scope))
          || (sc_Mode scope ≠s "") && negb (validMode (sc_Mode scope))
          || (sc_Mode scope =s "") && is_nil (sc_Settings scope) && is_nil (sc_CustomPermissionsEnabled scope))
    "invalid permission scope";;
  match sc_Settings scope with
  | Some settings =>
      reject ((version <? 2) || (sc_Kind scope ≠s "workspace"))
        "profile overrides require a workspace and schema version 2 or newer";;
      validate_settings settings
  | None => Ok tt
  end;;
  reject (not_nil (sc_CustomPermissionsEnabled scope)
          && (negb (version =? CurrentSchemaVersion) || (sc_Kind scope ≠s "workspace")))
    "custom permission overrides require a workspace and schema version 3";;
  reject ((sc_Kind scope =s "conversation") && (sc_Mode scope =s Full))
    "conversation IDs do not grant permissions; use an explicitly confirmed workspace or global full-permission scope".

Definition scope_key (scope : Scope) : string := sc_Kind scope +:+ ":" +:+ sc_ID scope.

Fixpoint validate_scopes (version : Z) (seen : gset string) (scopes : list Scope) : result unit :=
  match scopes with
  | [] => Ok tt
  | scope :: rest =>
      validate_scope version scope;;
      reject (bool_decide (scope_key scope ∈ seen)) "duplicate permission scope";;
      validate_scopes version ({[scope_key scope]} ∪ seen) rest
  end.

Fixpoint validate_rules (seen : gset string) (rules : list Rule) : result unit :=
  match rules with
  | [] => Ok tt
  | rule :: rest =>
      reject (negb (matches_id (ru_ID rule)) || bool_decide (ru_ID rule ∈ seen)
              || negb (matches_id (ru_Tool rule))
              || (ru_Action rule ≠s "") && negb (matches_id (ru_Action rule))
              || (ru_WorkspaceID rule ≠s "") && negb (matches_id (ru_WorkspaceID rule))
              || (ru_Effect rule ≠s Allow) && (ru_Effect rule ≠s Ask) && (ru_Effect rule ≠s Deny)
              || (512 <? len (ru_Reason rule)))
        "invalid permission rule";;
      validate_rules ({[ru_ID rule]} ∪ seen) rest
  end.

Definition validatePolicy (p : Policy) : result unit :=
  reject (negb (po_SchemaVersion p =? 1) && negb (po_SchemaVersion p =? 2)
            && negb (po_SchemaVersion p =? CurrentSchemaVersion)
          || (po_Revision p =? 0) || negb (validMode (po_GlobalMode p)))
    "invalid permission policy schema or mode";;
  reject (not_nil (po_CustomPermissionsEnabled p) && negb (po_SchemaVersion p =? CurrentSchemaVersion))
    "custom permission state requires schema version 3";;
  reject ((po_SchemaVersion p =? CurrentSchemaVersion) && is_nil (po_CustomPermissionsEnabled p))
    "schema version 3 requires custom_permissions_enabled";;
  match po_Settings p with
  | Some settings =>
      reject (po_SchemaVersion p <? 2) "profile settings require schema version 2 or newer";;
      validate_settings settings
  | None => Ok tt
  end;;
  reject ((4000 <? Z.of_nat (length (po_Scopes p))) || (512 <? Z.of_nat (length (po_Rules p))))
    "permission policy exceeds capacity";;
  validate_scopes (po_SchemaVersion p) ∅ (po_Scopes p);;
  validate_rules ∅ (po_Rules p).

Definition normalize_scope (scope : Scope) : Scope :=
  if is_nil (sc_CustomPermissionsEnabled scope) && not_nil (sc_Settings scope)
  then scope <| sc_CustomPermissionsEnabled := Some true |>
  else scope.

Definition normalizePolicy (p : Policy) : Policy :=
  let p := if is_nil (po_CustomPermissionsEnabled p)
           then p <| po_CustomPermissionsEnabled := Some (not_nil (po_Settings p)) |> else p in
  p <| po_Scopes ::= map normalize_scope |> <| po_SchemaVersion := CurrentSchemaVersion |>.

(** ** Files *)

Definition record_limit : Z := 2097152.

(** readJSON: [Ok None] for an absent file. *)
Definition readJSON {A} (f : option (file A)) : result (option A) :=
  match f with
  | None => Ok None
  | Some f =>
      if record_limit <? f_size f then Err "invalid or oversized permission record"
      else match f_content f with None => Err "invalid JSON" | Some a => Ok (Some a) end
  end.

(** writeJSON of a value of [size] bytes; [cancelled] is its look at the context. *)
Definition writeJSON {D A} (cancelled : bool) (size : Z) (value : A) (put : file A → D → D) : io D unit :=
  if record_limit <? size then io_fail "permission record exceeds size limit"
  else if cancelled then io_fail "context canceled"
  else io_write (put (mkFile (size + 1) (Some value))).

Definition default_policy : Policy := mkPolicy None None 1 1 Rules [] [] 0.

Definition decode_policy (f : option (file Policy)) : result Policy :=
  found ← readJSON f;
  let p := default default_policy found in
  validatePolicy p;;
  Ok (normalizePolicy p).

(** ** The effective policy of a call *)

Definition effective_scope (kind id : string) (acc : Effective * Settings) (scope : Scope) : Effective * Settings :=
  if negb ((sc_Kind scope =s kind) && (sc_ID scope =s id)) then acc
  else
    let '(result, configured) := acc in
    let result := if sc_Mode scope ≠s ""
      then result <| ef_Mode := sc_Mode scope |> <| ef_Scope := kind |> <| ef_ScopeID := id |> else result in
    let '(result, configured) := match sc_Settings scope with
      | Some settings => (result <| ef_SettingsScope := kind |> <| ef_SettingsScopeID := id |>, settings)
      | None => (result, configured)
      end in
    let result := match sc_CustomPermissionsEnabled scope with
      | Some enabled => result <| ef_CustomPermissionsEnabled := enabled |>
          <| ef_CustomPermissionsScope := kind |> <| ef_CustomPermissionsScopeID := id |>
      | None => result
      end in
    (result, configured).

Definition effectivePolicy (p : Policy) (binding : ExecutionScope) : Effective :=
  let configured := default DefaultSettings (po_Settings p) in
  let enabled := default false (po_CustomPermissionsEnabled p) in
  let result := mkEffective DefaultSettings configured "execution_mode" "global" "" enabled "global" ""
    (po_GlobalMode p) "global" "" (po_Revision p) in
  let acc := foldl (effective_scope "workspace" (xs_WorkspaceID binding)) (result, configured) (po_Scopes p) in
  let '(result, configured) :=
    foldl (effective_scope "conversation" (xs_ConversationID binding)) acc (po_Scopes p) in
  let result := result <| ef_ConfiguredSettings := configured |> in
  if ef_CustomPermissionsEnabled result
  then result <| ef_Settings := configured |> <| ef_SettingsSource := "custom_permissions" |>
  else result.

(** ** Decisions *)

Definition rule_matches (f : Facts) (rule : Rule) : bool :=
  (ru_Tool rule =s fa_Tool f) && ((ru_Action rule =s "") || (ru_Action rule =s fa_Action f))
  && ((ru_WorkspaceID rule =s "") || (ru_WorkspaceID rule =s xs_WorkspaceID (fa_Binding f))).

(** The first rule of an effect that matches the call. *)
Definition find_rule (p : Policy) (f : Facts) (effect : string) : option Rule :=
  List.find (λ rule, (ru_Effect rule =s effect) && rule_matches f rule) (po_Rules p).

(** The body of Decide without its deferred approval check. *)
Definition decide_body (p : Policy) (f : Facts) : Decision :=
  let decision := mkDecision (effectivePolicy p (fa_Binding f)) "" "" "" in
  match find_rule p f Deny with
  | Some rule => decided decision Deny (ru_ID rule) (ru_Reason rule)
  | None =>
      let custom := ef_CustomPermissionsEnabled (de_Effective decision) in
      let decision := if custom then profileDecision decision f else decision in
      if custom && (de_Effect decision =s Deny) then decision
      else if ef_Mode (de_Effective decision) =s ReadOnly then
        if fa_ReadOnly f then decided decision Allow "readonly-safe" "已确认的内置只读操作。"
        else decided decision Deny "readonly-write" "只读检查模式禁止尚未确认只读的操作。"
      else if ef_Mode (de_Effective decision) =s Full then
        decided decision Allow "full-scope" "用户在该作用范围启用了完全权限；显式禁止规则仍有效。"
      else match find_rule p f Ask with
      | Some rule => decided decision Ask (ru_ID rule) (ru_Reason rule)
      | None =>
          match find_rule p f Allow with
          | Some rule => decided decision Allow (ru_ID rule) (ru_Reason rule)
          | None =>
              if fa_ReadOnly f || fa_Management f then
                decided decision Allow "builtin-safe" "内置只读检查或可恢复的任务元数据操作。"
              else decided decision Ask "review-side-effects"
                (if fa_Reason f =s "" then "该操作可能修改文件、服务、设备或外部资源，需要执行前确认。" else fa_Reason f)
          end
      end
  end.

(** The decision with its deferred approval check; [None] is a panic. *)
Definition decide_call (p : Policy) (f : Facts) : option Decision :=
  let decision := decide_body p f in
  if ef_CustomPermissionsEnabled (de_Effective decision) then approvalDecision decision f else Some decision.

(** ** Changes *)

Fixpoint find_scope (kind id : string) (scopes : list Scope) : option nat :=
  match scopes with
  | [] => None
  | scope :: rest =>
      if (sc_Kind scope =s kind) && (sc_ID scope =s id) then Some O else S <$> find_scope kind id rest
  end.

Definition has_settings_change (c : Change) : bool :=
  not_nil (ch_Settings c) || not_nil (ch_CustomPermissionsEnabled c) || ch_InheritSettings c.

Definition set_scope_settings (c : Change) (enabled : option bool) (scope : Scope) : Scope :=
  let scope := if not_nil (ch_Settings c) then scope <| sc_Settings := ch_Settings c |> else scope in
  if not_nil enabled then scope <| sc_CustomPermissionsEnabled := enabled |> else scope.

Definition applySettingsChange (p : Policy) (c : Change) : result Policy :=
  if negb (has_settings_change c) then Ok p
  else
    reject (ch_InheritSettings c && (not_nil (ch_Settings c) || not_nil (ch_CustomPermissionsEnabled c)))
      "cannot set and inherit settings together";;
    reject ((ch_Scope c ≠s "global") && (ch_Scope c ≠s "workspace")
            || (ch_Scope c =s "global") && (ch_ScopeID c ≠s "")
            || (ch_Scope c =s "workspace") && negb (matches_id (ch_ScopeID c)))
      "permission settings require an explicit global or workspace scope";;
    match ch_Settings c with Some settings => validate_settings settings | None => Ok tt end;;
    let enabled := match ch_Settings c, ch_CustomPermissionsEnabled c with
      | Some _, None => Some true
      | _, enabled => enabled
      end in
    if ch_Scope c =s "global" then
      reject (ch_InheritSettings c) "global settings have no parent to inherit";;
      let p := if not_nil (ch_Settings c) then p <| po_Settings := ch_Settings c |> else p in
      Ok (if not_nil enabled then p <| po_CustomPermissionsEnabled := enabled |> else p)
    else match find_scope (ch_Scope c) (ch_ScopeID c) (po_Scopes p) with
    | Some index =>
        if ch_InheritSettings c then
          let cleared := alter (λ s, s <| sc_Settings := None |> <| sc_CustomPermissionsEnabled := None |>) index (po_Scopes p) in
          let empty := match cleared !! index with Some s => sc_Mode s =s "" | None => false end in
          Ok (p <| po_Scopes := if empty then take index cleared ++ drop (S index) cleared else cleared |>)
        else Ok (p <| po_Scopes ::= alter (set_scope_settings c enabled) index |>)
    | None =>
        if ch_InheritSettings c then Ok p
        else Ok (p <| po_Scopes ::= (λ scopes, scopes ++
                    [mkScope (ch_Settings c) enabled (ch_Scope c) (ch_ScopeID c) ""]) |>)
    end.

Definition set_mode (c : Change) (scope : Scope) : Scope :=
  if (sc_Kind scope =s ch_Scope c) && (sc_ID scope =s ch_ScopeID c)
  then scope <| sc_Mode := ch_Mode c |> else scope.

(** The mode part of a change. *)
Definition apply_mode (p : Policy) (c : Change) : result Policy :=
  if ch_Mode c =s "" then Ok p
  else
    reject (negb (validMode (ch_Mode c))) "invalid permission mode";;
    reject ((ch_Mode c =s Full) && negb (ch_ConfirmFull c)) "full permissions require explicit local confirmation";;
    if (ch_Scope c =s "global") && (ch_ScopeID c =s "") then Ok (p <| po_GlobalMode := ch_Mode c |>)
    else
      reject ((ch_Scope c ≠s "workspace") && (ch_Scope c ≠s "conversation") || negb (matches_id (ch_ScopeID c)))
        "invalid scope";;
      Ok (p <| po_Scopes ::= (λ scopes,
            if not_nil (find_scope (ch_Scope c) (ch_ScopeID c) scopes) then map (set_mode c) scopes
            else scopes ++ [mkScope None None (ch_Scope c) (ch_ScopeID c) (ch_Mode c)]) |>).

(** A change of the policy, from the loaded one to the one that is stored. *)
Definition apply_change (p : Policy) (c : Change) (now : Time) : result Policy :=
  reject (negb (ch_ExpectedRevision c =? po_Revision p)) ErrRevision;;
  p ← apply_mode p c;
  let p := match ch_Rules c with Some rules => p <| po_Rules := rules |> | None => p end in
  p ← applySettingsChange p c;
  reject ((ch_Mode c =s "") && is_nil (ch_Rules c) && negb (has_settings_change c)) "permission change is empty";;
  let p := p <| po_SchemaVersion := CurrentSchemaVersion |> <| po_Revision ::= (λ n, u64 (n + 1)) |>
             <| po_UpdatedAt := now |> in
  validatePolicy p;;
  Ok p.

(** ** Fresh installations (fresh_install.go) *)

Definition FreshInstallPolicy (now : Time) : Policy :=
  mkPolicy (Some DefaultSettings) (Some false) CurrentSchemaVersion 1 Full [] [] now.
