(* ===== verification/PermissionSpec.v ===== *)
(** * PermissionSpec: what an admission decision and a policy change promise

    The ceiling of the permission profile, the order of the rules, the scopes
    that determine the mode of a call, and the changes of the policy that can
    widen it. *)

From S2P Require Import Prelude GoText Durable Binding Permission.
Local Open Scope Z_scope.

Definition valid_policy (p : Policy) : Prop := validatePolicy p = Ok tt.

(** Turns the guards of the code into propositions. *)
Lemma one_of_true s l : one_of s l = true ↔ s ∈ l.
Proof.
  unfold one_of. rewrite existsb_exists. setoid_rewrite String.eqb_eq. split.
  - intros (x & Hx & ->). by apply list_elem_of_In.
  - intros H. exists s. split; [by apply list_elem_of_In|done].
Qed.

Lemma is_ok_unit (r : result unit) : is_ok r = true ↔ r = Ok tt.
Proof. by destruct r as [[]|]. Qed.

Lemma reject_seq (c : bool) msg (r : result unit) : (reject c msg;; r) = Ok tt ↔ c = false ∧ r = Ok tt.
Proof. apply reject_bind_Ok. Qed.

Lemma reject_last (c : bool) msg : reject c msg = Ok tt ↔ c = false.
Proof. by destruct c. Qed.

Lemma unit_seq (r r' : result unit) : (r;; r') = Ok tt ↔ r = Ok tt ∧ r' = Ok tt.
Proof. destruct r as [[]|]; cbn; [tauto|]. split; [discriminate|intros [? _]; discriminate]. Qed.

(** ** Valid policies *)

Lemma settings_granular s g :
  validate_settings s = Ok tt → (ap_Mode (se_Approval s) =s Granular) = g →
  not_nil (ap_Granular (se_Approval s)) = g.
Proof.
  unfold validate_settings. rewrite !reject_seq, reject_last. intros (_ & _ & _ & _ & H & _) <-.
  apply negb_false_iff, eqb_prop in H. done.
Qed.

Definition scope_at (kind id : string) (scopes : list Scope) : option Scope :=
  List.find (λ s, (sc_Kind s =s kind) && (sc_ID s =s id)) scopes.

Record valid_scopes (version : Z) (scopes : list Scope) : Prop := {
  vs_each : Forall (λ s, validate_scope version s = Ok tt) scopes;
  vs_keys : NoDup (map scope_key scopes);
}.

Lemma validate_scopes_spec version seen scopes :
  validate_scopes version seen scopes = Ok tt ↔
  valid_scopes version scopes ∧ Forall (λ s, scope_key s ∉ seen) scopes.
Proof.
  revert seen; induction scopes as [|s scopes IH]; intros seen; cbn [validate_scopes].
  { split; [intros _; repeat constructor|done]. }
  rewrite unit_seq, reject_seq, IH, bool_decide_eq_false. split.
  - intros (Hs & Hk & [He Hn] & Hf). rewrite Forall_forall in Hf. split; [split|].
    + by constructor.
    + cbn. constructor; [|done]. intros (s' & E & Hin)%list_elem_of_fmap. apply (Hf s' Hin). rewrite <- E. set_solver.
    + constructor; [done|]. apply Forall_forall. intros s' Hin. specialize (Hf s' Hin). set_solver.
  - intros ([He Hn] & Hf). inversion He; inversion Hf; subst. cbn in Hn. apply NoDup_cons in Hn as [Hk Hn].
    split_and!; try done. rewrite Forall_forall in *. intros s' Hin.
    match goal with H : ∀ x, x ∈ scopes → scope_key x ∉ seen |- _ => specialize (H s' Hin) end.
    assert (scope_key s' ≠ scope_key s); [|set_solver].
    intros E. apply Hk. rewrite <- E. by apply (list_elem_of_fmap_2 scope_key).
Qed.

Lemma valid_scopes_of p : valid_policy p → valid_scopes (po_SchemaVersion p) (po_Scopes p).
Proof.
  unfold valid_policy, validatePolicy. rewrite !reject_seq, unit_seq, reject_seq, unit_seq.
  intros (_ & _ & _ & _ & _ & H & _). by apply validate_scopes_spec in H as [? _].
Qed.

Lemma valid_settings_of p s : valid_policy p → po_Settings p = Some s → validate_settings s = Ok tt.
Proof.
  unfold valid_policy, validatePolicy. rewrite !reject_seq, unit_seq.
  intros (_ & _ & _ & H & _) E. rewrite E in H. by apply reject_seq in H as [_ H].
Qed.

Lemma validate_scope_settings version scope s :
  validate_scope version scope = Ok tt → sc_Settings scope = Some s →
  validate_settings s = Ok tt ∧ sc_Kind scope = "workspace".
Proof.
  unfold validate_scope. rewrite !reject_seq, unit_seq. intros (_ & H & _) E. rewrite E in H.
  apply reject_seq in H as [Hk H]. split; [done|]. apply orb_false_iff in Hk as [_ Hk%negb_false_iff].
  by apply String.eqb_eq.
Qed.

(** ** The effective policy, by scope *)

(** With at most one scope per key, a pass over the scopes visits one. *)
Lemma foldl_scope kind id scopes acc :
  NoDup (map scope_key scopes) →
  foldl (effective_scope kind id) acc scopes =
  match scope_at kind id scopes with Some s => effective_scope kind id acc s | None => acc end.
Proof.
  revert acc; induction scopes as [|s scopes IH]; intros acc Hn; [done|]. cbn in Hn. apply NoDup_cons in Hn as [Hk Hn].
  cbn [foldl]. rewrite IH by done. unfold scope_at. cbn [List.find]. fold (scope_at kind id scopes).
  destruct ((sc_Kind s =s kind) && (sc_ID s =s id)) eqn:E.
  - destruct (scope_at kind id scopes) as [s'|] eqn:F; [|done]. exfalso. apply Hk.
    apply find_some in F as [Hin F]. apply andb_true_iff in E as [E1%String.eqb_eq E2%String.eqb_eq].
    apply andb_true_iff in F as [F1%String.eqb_eq F2%String.eqb_eq].
    assert (scope_key s = scope_key s') as -> by (unfold scope_key; congruence).
    by apply (list_elem_of_fmap_2 scope_key), list_elem_of_In.
  - assert (effective_scope kind id acc s = acc) as -> by (unfold effective_scope; by rewrite E). done.
Qed.

Definition own_mode (s : option Scope) : option string :=
  match s with Some s => if sc_Mode s =s "" then None else Some (sc_Mode s) | None => None end.

(** What the workspace and the conversation of a call say. *)
Definition workspace_of (p : Policy) (b : ExecutionScope) : option Scope :=
  scope_at "workspace" (xs_WorkspaceID b) (po_Scopes p).
Definition conversation_of (p : Policy) (b : ExecutionScope) : option Scope :=
  scope_at "conversation" (xs_ConversationID b) (po_Scopes p).

(** The mode of a call: its conversation's, else its workspace's, else the
    global one. *)
Definition mode_of (p : Policy) (b : ExecutionScope) : string :=
  default (default (po_GlobalMode p) (own_mode (workspace_of p b))) (own_mode (conversation_of p b)).

Definition settings_of (p : Policy) (b : ExecutionScope) : Settings :=
  default (default DefaultSettings (po_Settings p)) (workspace_of p b ≫= sc_Settings).

Definition custom_of (p : Policy) (b : ExecutionScope) : bool :=
  default (default false (po_CustomPermissionsEnabled p)) (workspace_of p b ≫= sc_CustomPermissionsEnabled).

Lemma scope_at_kind kind id scopes s : scope_at kind id scopes = Some s → s ∈ scopes ∧ sc_Kind s = kind ∧ sc_ID s = id.
Proof.
  intros F. apply find_some in F as [Hin F]. apply andb_true_iff in F as [F1%String.eqb_eq F2%String.eqb_eq].
  split_and!; [by apply list_elem_of_In|done|done].
Qed.

(** Settings and the custom flag belong to workspaces. *)
Lemma conversation_plain p b s :
  valid_policy p → conversation_of p b = Some s → sc_Settings s = None ∧ sc_CustomPermissionsEnabled s = None.
Proof.
  intros Hp Hs. apply scope_at_kind in Hs as (Hin & Hk & _).
  pose proof (vs_each _ _ (valid_scopes_of p Hp)) as Hall. rewrite Forall_forall in Hall. specialize (Hall s Hin).
  split.
  - destruct (sc_Settings s) eqn:E; [|done]. destruct (validate_scope_settings _ _ _ Hall E) as [_ Hk'].
    rewrite Hk in Hk'. discriminate.
  - unfold validate_scope in Hall. rewrite !reject_seq, unit_seq, reject_seq, reject_last in Hall.
    destruct Hall as (_ & _ & H & _). destruct (sc_CustomPermissionsEnabled s); [|done]. rewrite Hk in H.
    cbn in H. by rewrite orb_true_r in H.
Qed.

Lemma effective_spec p b :
  valid_policy p →
  ef_Mode (effectivePolicy p b) = mode_of p b ∧
  ef_ConfiguredSettings (effectivePolicy p b) = settings_of p b ∧
  ef_CustomPermissionsEnabled (effectivePolicy p b) = custom_of p b ∧
  ef_Settings (effectivePolicy p b) = (if custom_of p b then settings_of p b else DefaultSettings) ∧
  ef_Revision (effectivePolicy p b) = po_Revision p.
Proof.
  intros Hp. pose proof (vs_keys _ _ (valid_scopes_of p Hp)) as Hn.
  unfold effectivePolicy. rewrite !foldl_scope by done. fold (workspace_of p b) (conversation_of p b).
  unfold mode_of, settings_of, custom_of.
  destruct (conversation_of p b) as [c|] eqn:Ec.
  - destruct (conversation_plain _ _ _ Hp Ec) as [Hc1 Hc2]. apply scope_at_kind in Ec as (_ & Hk & Hi).
    destruct (workspace_of p b) as [w|] eqn:Ew; [apply scope_at_kind in Ew as (_ & Hkw & Hiw)|];
      unfold effective_scope; rewrite ?Hkw, ?Hiw, Hk, Hi, !String.eqb_refl, Hc1, Hc2; cbn [andb negb own_mode mbind option_bind].
    + destruct (sc_Mode w =s ""), (sc_Mode c =s ""), (sc_Settings w), (sc_CustomPermissionsEnabled w) as [[]|],
        (po_CustomPermissionsEnabled p) as [[]|]; cbn; done.
    + destruct (sc_Mode c =s ""), (po_CustomPermissionsEnabled p) as [[]|]; cbn; done.
  - destruct (workspace_of p b) as [w|] eqn:Ew.
    + apply scope_at_kind in Ew as (_ & Hkw & Hiw). unfold effective_scope. rewrite Hkw, Hiw, !String.eqb_refl.
      cbn [andb negb own_mode mbind option_bind].
      destruct (sc_Mode w =s ""), (sc_Settings w), (sc_CustomPermissionsEnabled w) as [[]|],
        (po_CustomPermissionsEnabled p) as [[]|]; cbn; done.
    + destruct (po_CustomPermissionsEnabled p) as [[]|]; cbn; done.
Qed.

(** ** Decisions *)

(** The call stays within a profile: a restricted profile admits only calls
    whose effects are known and which it covers. *)
Definition within (pr : Profile) (f : Facts) : Prop :=
  Restricted pr = true →
  fa_EffectsKnown f = true ∧
  (pr_Filesystem pr = Deny → fa_Filesystem f = "") ∧
  (pr_Filesystem pr = FileRead → fa_Filesystem f ≠ FileWrite) ∧
  (pr_Network pr = Deny → fa_Network f = false) ∧
  (pr_SandboxBoundary pr = BoundaryWorkspace → fa_WorkspaceBound f = true).

Lemma profileDecision_spec d f :
  de_Effective (profileDecision d f) = de_Effective d ∧
  (profileDecision d f = d ∧ within (se_Profile (ef_Settings (de_Effective d))) f ∨
   de_Effect (profileDecision d f) = Deny ∧ ¬ within (se_Profile (ef_Settings (de_Effective d))) f).
Proof.
  unfold profileDecision, within. set (pr := se_Profile _).
  destruct (Restricted pr); cbn [negb]; [|by split; [done|left; split; [done|discriminate]]].
  destruct (fa_EffectsKnown f); cbn [negb]; [|split; [done|right; split; [done|intros H; by destruct (H eq_refl)]]].
  destruct (String.eqb_spec (pr_Filesystem pr) Deny) as [E1|E1], (String.eqb_spec (pr_Filesystem pr) FileRead) as [E2|E2],
    (String.eqb_spec (fa_Filesystem f) "") as [E3|E3], (String.eqb_spec (fa_Filesystem f) FileWrite) as [E4|E4];
    cbn [negb andb orb];
    try (split; [done|right; split; [done|intros H; destruct (H eq_refl) as (_ & H1 & H2 & _); first [exact (E3 (H1 E1))|exact (H2 E2 E4)]]]).
  all: destruct (String.eqb_spec (pr_Network pr) Deny) as [E5|E5], (fa_Network f) eqn:E6; cbn [negb andb orb];
    try (split; [done|right; split; [done|intros H; destruct (H eq_refl) as (_ & _ & _ & H3 & _); discriminate (H3 E5)]]).
  all: destruct (String.eqb_spec (pr_SandboxBoundary pr) BoundaryWorkspace) as [E7|E7], (fa_WorkspaceBound f) eqn:E8;
    cbn [negb andb orb];
    try (split; [done|right; split; [done|intros H; destruct (H eq_refl) as (_ & _ & _ & _ & H4); discriminate (H4 E7)]]).
  all: split; [done|left; split; [done|intros _; split_and!; done]].
Qed.

Lemma find_rule_Some p f effect r :
  find_rule p f effect = Some r → r ∈ po_Rules p ∧ ru_Effect r = effect ∧ rule_matches f r = true.
Proof.
  intros F. apply find_some in F as [Hin F]. apply andb_true_iff in F as [E%String.eqb_eq ?].
  split_and!; [by apply list_elem_of_In|done|done].
Qed.

(** The verdict before the approval policy. *)
Record verdict (p : Policy) (f : Facts) (e : Effective) (d : Decision) : Prop := {
  vd_effective : de_Effective d = e;
  vd_allow : de_Effect d = Allow ↔
    find_rule p f Deny = None ∧ (ef_CustomPermissionsEnabled e = true → within (se_Profile (ef_Settings e)) f) ∧
    (ef_Mode e = ReadOnly ∧ fa_ReadOnly f = true ∨ ef_Mode e = Full ∨
     ef_Mode e ≠ ReadOnly ∧ find_rule p f Ask = None ∧
       (find_rule p f Allow ≠ None ∨ fa_ReadOnly f = true ∨ fa_Management f = true));
  vd_ask : de_Effect d = Ask ↔
    find_rule p f Deny = None ∧ (ef_CustomPermissionsEnabled e = true → within (se_Profile (ef_Settings e)) f) ∧
    ef_Mode e ≠ ReadOnly ∧ ef_Mode e ≠ Full ∧
    (find_rule p f Ask ≠ None ∨ find_rule p f Allow = None ∧ fa_ReadOnly f = false ∧ fa_Management f = false);
  vd_some : de_Effect d = Allow ∨ de_Effect d = Ask ∨ de_Effect d = Deny;
}.

(** Two values of one expression. *)
Ltac clash :=
  match goal with
  | H : ?x = _, H' : ?x = _ |- _ => rewrite H in H'; discriminate H'
  | H : ¬ ?P, H' : ?P |- _ => destruct (H H')
  end.

Ltac refute :=
  repeat match goal with
  | H : _ ∧ _ |- _ => destruct H
  | H : _ ∨ _ |- _ => destruct H
  end; clash.

Ltac verdict_goal :=
  split; [done| | |]; cbn [decided de_Effect];
  [ split; [|intros (? & ? & ?)]; try discriminate; try (intros _); try clash; try done
  | split; [|intros (? & ? & ? & ? & ?)]; try discriminate; try (intros _); try clash; try done
  | auto ].

Lemma decide_body_spec p f : verdict p f (effectivePolicy p (fa_Binding f)) (decide_body p f).
Proof.
  unfold decide_body. set (e := effectivePolicy p (fa_Binding f)). set (d0 := mkDecision e "" "" "").
  destruct (find_rule p f Deny) as [r|] eqn:Fd; [verdict_goal|].
  cbn zeta. change (de_Effective d0) with e. set (custom := ef_CustomPermissionsEnabled e).
  assert (∃ d, (if custom then profileDecision d0 f else d0) = d ∧ de_Effective d = e ∧
    (custom && (de_Effect d =s Deny) = true ∧ de_Effect d = Deny ∧ ¬ (custom = true → within (se_Profile (ef_Settings e)) f) ∨
     custom && (de_Effect d =s Deny) = false ∧ (custom = true → within (se_Profile (ef_Settings e)) f)))
    as (d & -> & He & Hd).
  { destruct custom; [|exists d0; split_and!; [done|done|right; by split; [|discriminate]]].
    destruct (profileDecision_spec d0 f) as [H1 [[H2 H3]|[H2 H3]]]; exists (profileDecision d0 f); split_and!; try done.
    - right. rewrite H2. split; [done|]. intros _. exact H3.
    - left. rewrite H2. split_and!; [done|done|]. intros H. by apply H3, H. }
  destruct Hd as [(-> & E & Hout)|[-> Hin]].
  { split; [done| | |]; rewrite E; [split; [discriminate|intros (_ & ? & _); done]|split; [discriminate|intros (_ & ? & _); done]|auto]. }
  rewrite He. destruct (String.eqb_spec (ef_Mode e) ReadOnly) as [Em|Em].
  { destruct (fa_ReadOnly f) eqn:Er; verdict_goal; [auto|refute]. }
  destruct (String.eqb_spec (ef_Mode e) Full) as [Ef|Ef]; [verdict_goal; auto|].
  destruct (find_rule p f Ask) as [ra|] eqn:Fa.
  { verdict_goal; [refute|]. split_and!; try done. left. by rewrite Fa. }
  destruct (find_rule p f Allow) as [rl|] eqn:Fl.
  { verdict_goal; [|refute]. split_and!; try done. right; right. split_and!; try done. left. by rewrite Fl. }
  destruct (fa_ReadOnly f || fa_Management f) eqn:Er.
  { apply orb_true_iff in Er. verdict_goal; [|refute].
    split_and!; try done. right; right. split_and!; try done. by right. }
  apply orb_false_iff in Er as [Er1 Er2].
  verdict_goal; [refute|]. split_and!; try done. by right.
Qed.

(** The approval policy takes requests of this kind: not under [Never], and
    under granular settings only where every category of the call is accepted,
    or the rest is, for a call in no category. *)
Definition accepts (a : ApprovalPolicy) (f : Facts) : Prop :=
  ap_Mode a ≠ Never ∧
  ∀ g, ap_Mode a = Granular → ap_Granular a = Some g →
    (∀ c, c ∈ categories f g → c.1 = true → c.2 = true) ∧
    ((∀ c, c ∈ categories f g → c.1 = false) → ac_Other g = true).

Lemma check_categories_spec l :
  check_categories l = (existsb fst l, existsb (λ c, c.1 && negb c.2) l).
Proof.
  unfold check_categories.
  enough (∀ m b, foldl (λ '(matched, block) '(applies, permitted),
      if applies : bool then (true, block || negb permitted) else (matched, block)) (m, b) l =
    (m || existsb fst l, b || existsb (λ c, c.1 && negb c.2) l)) as H by apply H.
  induction l as [|[a c] l IH]; intros m b; cbn; [by rewrite !orb_false_r|].
  rewrite (surjective_pairing (if a then _ else _)), IH.
  destruct a; cbn; by rewrite ?orb_true_r, ?orb_assoc.
Qed.

Lemma existsb_false {A} (f : A → bool) l : existsb f l = false ↔ ∀ x, x ∈ l → f x = false.
Proof.
  rewrite <- not_true_iff_false, existsb_exists. split.
  - intros H x Hx. apply not_true_iff_false. intros E. apply H. exists x. split; [by apply list_elem_of_In|done].
  - intros H (x & Hx & E). rewrite H in E; [done|by apply list_elem_of_In].
Qed.

Lemma existsb_true {A} (f : A → bool) l : existsb f l = true ↔ ∃ x, x ∈ l ∧ f x = true.
Proof. rewrite existsb_exists. by setoid_rewrite list_elem_of_In. Qed.

Lemma categories_block f g :
  (let '(matched, block) := check_categories (categories f g) in
   if negb matched then negb (ac_Other g) else block) = false ↔
  (∀ c, c ∈ categories f g → c.1 = true → c.2 = true) ∧
  ((∀ c, c ∈ categories f g → c.1 = false) → ac_Other g = true).
Proof.
  rewrite check_categories_spec. destruct (existsb fst _) eqn:E; cbn [negb].
  - apply existsb_true in E as (x & Hx & Ex). rewrite existsb_false. split.
    + intros H. split; [intros c Hc Ec|intros Hall; by rewrite Hall in Ex].
      specialize (H c Hc). rewrite Ec in H. by apply negb_false_iff in H.
    + intros [H _] c Hc. destruct c.1 eqn:Ec; [|done]. by rewrite H.
  - rewrite existsb_false in E. rewrite negb_false_iff. split.
    + intros H. split; [|done]. intros c Hc Ec. by rewrite E in Ec.
    + intros [_ H]. by apply H.
Qed.

Lemma approvalDecision_spec d f :
  validate_settings (ef_Settings (de_Effective d)) = Ok tt →
  ∃ d', approvalDecision d f = Some d' ∧ de_Effective d' = de_Effective d ∧
    (de_Effect d ≠ Ask → d' = d) ∧
    (de_Effect d = Ask →
       d' = d ∧ accepts (se_Approval (ef_Settings (de_Effective d))) f ∨
       de_Effect d' = Deny ∧ ¬ accepts (se_Approval (ef_Settings (de_Effective d))) f).
Proof.
  intros Hs. pose proof (settings_granular _ _ Hs eq_refl) as Hg. unfold approvalDecision, accepts.
  destruct (String.eqb_spec (de_Effect d) Ask) as [E|E]; cbn [negb]; [|by exists d].
  set (a := se_Approval _) in *. destruct (String.eqb_spec (ap_Mode a) Never) as [En|En]; cbn [mbind option_bind].
  { eexists. split_and!; [done|done|by intros []|]. intros _. right. by split; [|intros [? _]]. }
  destruct (String.eqb_spec (ap_Mode a) Granular) as [Eg|Eg]; cbn [mbind option_bind].
  2: { eexists. split_and!; [done|done|by intros []|]. intros _. left. by split_and!. }
  destruct (ap_Granular a) as [g|]; [|done]. cbn [mbind option_bind].
  pose proof (categories_block f g) as Hblock. destruct (check_categories _) as [matched block]. cbn [mbind option_bind].
  destruct (if negb matched then negb (ac_Other g) else block).
  - eexists. split_and!; [done|done|by intros []|]. intros _. right. split; [done|]. intros [_ H].
    destruct Hblock as [_ Hblock]. by specialize (Hblock (H g Eg eq_refl)).
  - eexists. split_and!; [done|done|by intros []|]. intros _. left. split_and!; [done|done|]. intros g' _ [= <-]. by apply Hblock.
Qed.

(** ** What a decision promises *)

Lemma default_settings_valid : validate_settings DefaultSettings = Ok tt.
Proof. reflexivity. Qed.

Lemma effective_settings_valid p b : valid_policy p → validate_settings (ef_Settings (effectivePolicy p b)) = Ok tt.
Proof.
  intros Hp. destruct (effective_spec p b Hp) as (_ & _ & _ & -> & _).
  destruct (custom_of p b); [|apply default_settings_valid]. unfold settings_of.
  destruct (workspace_of p b) as [w|] eqn:Ew; cbn.
  - destruct (sc_Settings w) as [s|] eqn:Es; cbn.
    + apply scope_at_kind in Ew as (Hin & _). pose proof (vs_each _ _ (valid_scopes_of p Hp)) as Hall.
      rewrite Forall_forall in Hall. by destruct (validate_scope_settings _ _ _ (Hall w Hin) Es).
    + destruct (po_Settings p) as [s|] eqn:Ep; [by eapply valid_settings_of|apply default_settings_valid].
  - destruct (po_Settings p) as [s|] eqn:Ep; [by eapply valid_settings_of|apply default_settings_valid].
Qed.

(** The decision, from the verdict of its body. *)
Lemma decide_cases p f :
  valid_policy p →
  let e := effectivePolicy p (fa_Binding f) in
  ∃ d, decide_call p f = Some d ∧ de_Effective d = e ∧
    (d = decide_body p f ∧ (de_Effect d = Ask → ef_CustomPermissionsEnabled e = true → accepts (se_Approval (ef_Settings e)) f) ∨
     de_Effect (decide_body p f) = Ask ∧ de_Effect d = Deny ∧ ef_CustomPermissionsEnabled e = true ∧
       ¬ accepts (se_Approval (ef_Settings e)) f).
Proof.
  intros Hp e. pose proof (decide_body_spec p f) as [He _ _ _]. unfold decide_call. rewrite He. fold e.
  destruct (ef_CustomPermissionsEnabled e) eqn:Ec; [|exists (decide_body p f); by split_and!; [| |left; split]].
  destruct (approvalDecision_spec (decide_body p f) f) as (d & -> & He' & Hne & Hask).
  { rewrite He. by apply effective_settings_valid. }
  exists d. rewrite He in *. fold e in Hask |- *. split_and!; [done|done|].
  destruct (String.eqb_spec (de_Effect (decide_body p f)) Ask) as [E|E].
  - destruct (Hask E) as [[-> Hacc]|[Hd Hacc]]; [by left|by right].
  - rewrite (Hne E). left. split; [done|]. by intros ?.
Qed.

(** a deny rule that matches a call decides it, whatever the mode of the
    call, the other rules and the settings; the first such rule is named. *)
Theorem Decide_explicit_deny p f rule :
  rule ∈ po_Rules p → ru_Effect rule = Deny → rule_matches f rule = true →
  ∃ d first, decide_call p f = Some d ∧ de_Effect d = Deny ∧ de_RuleID d = ru_ID first ∧
    first ∈ po_Rules p ∧ ru_Effect first = Deny ∧ rule_matches f first = true.
Proof.
  intros Hin He Hm. destruct (find_rule p f Deny) as [first|] eqn:F.
  - unfold decide_call, decide_body. rewrite F. destruct (find_rule_Some _ _ _ _ F) as (? & ? & ?).
    cbn [decided de_Effective]. destruct (ef_CustomPermissionsEnabled _); eexists _, first; split_and!; done.
  - exfalso. pose proof (find_none _ _ F rule) as H. cbn in H. rewrite He, Hm in H.
    discriminate H. by apply list_elem_of_In.
Qed.

(** C33: a call is allowed without asking exactly when no deny rule matches it,
    it stays within the permission profile of its scope where custom
    permissions are enabled, and its mode allows it: a confirmed read-only
    operation, full permissions, or, by the rules, no rule that asks and a rule
    that allows it or a built-in safe operation.  No approval is consulted. *)
Theorem Decide_allows p f :
  valid_policy p →
  ∃ d, decide_call p f = Some d ∧
  (de_Effect d = Allow ↔
    find_rule p f Deny = None ∧
    (custom_of p (fa_Binding f) = true → within (se_Profile (settings_of p (fa_Binding f))) f) ∧
    (mode_of p (fa_Binding f) = ReadOnly ∧ fa_ReadOnly f = true ∨
     mode_of p (fa_Binding f) = Full ∨
     mode_of p (fa_Binding f) ≠ ReadOnly ∧ find_rule p f Ask = None ∧
       (find_rule p f Allow ≠ None ∨ fa_ReadOnly f = true ∨ fa_Management f = true))).
Proof.
  intros Hp. destruct (decide_cases p f Hp) as (d & Hd & _ & Hcase). exists d. split; [done|].
  pose proof (decide_body_spec p f) as [_ Hallow Hask _].
  destruct (effective_spec p (fa_Binding f) Hp) as (Em & _ & Ec & Es & _). rewrite Em, Ec, Es in Hallow.
  assert (∀ (P : Prop) (a b : Settings), (custom_of p (fa_Binding f) = true →
    within (se_Profile (if custom_of p (fa_Binding f) then a else b)) f) ↔
    (custom_of p (fa_Binding f) = true → within (se_Profile a) f)) as Hif.
  { intros _ a b. by destruct (custom_of p (fa_Binding f)). }
  rewrite (Hif True) in Hallow. destruct Hcase as [[-> _]|(Hb & Hdeny & _ & _)]; [exact Hallow|].
  split; [rewrite Hdeny; discriminate|]. intros H%Hallow. rewrite Hb in H. discriminate.
Qed.

(** a call is put to the user or the reviewer exactly when no deny rule
    matches, it stays within the permission profile, its mode is the rules, the
    rules ask or are silent about an operation that is not known to be safe,
    and the approval policy takes requests of its kind: a policy of [never]
    denies what it would ask. *)
Theorem Decide_asks p f :
  valid_policy p →
  ∃ d, decide_call p f = Some d ∧
  (de_Effect d = Ask ↔
    find_rule p f Deny = None ∧
    (custom_of p (fa_Binding f) = true →
       within (se_Profile (settings_of p (fa_Binding f))) f ∧ accepts (se_Approval (settings_of p (fa_Binding f))) f) ∧
    mode_of p (fa_Binding f) ≠ ReadOnly ∧ mode_of p (fa_Binding f) ≠ Full ∧
    (find_rule p f Ask ≠ None ∨ find_rule p f Allow = None ∧ fa_ReadOnly f = false ∧ fa_Management f = false)) ∧
  (de_Effect d = Allow ∨ de_Effect d = Ask ∨ de_Effect d = Deny).
Proof.
  intros Hp. destruct (decide_cases p f Hp) as (d & Hd & _ & Hcase). exists d. split; [done|].
  pose proof (decide_body_spec p f) as [_ _ Hask Hsome].
  destruct (effective_spec p (fa_Binding f) Hp) as (Em & _ & Ec & Es & _). rewrite Em, Ec, Es in Hask. rewrite Ec, Es in Hcase.
  destruct Hcase as [[-> Hacc]|(Hb & Hdeny & Hc & Hacc)]; [|rewrite Hc in Hacc; split; [split|]].
  - split; [|done]. split.
    + intros E. destruct (proj1 Hask E) as (H1 & H2 & H3 & H4 & H5). split_and!; try done.
      intros Hc. specialize (H2 Hc). specialize (Hacc E Hc). rewrite Hc in H2, Hacc. by split.
    + intros (H1 & H2 & H3 & H4 & H5). apply Hask. split_and!; try done.
      intros Hc. rewrite Hc. by apply H2.
  - rewrite Hdeny. discriminate.
  - intros (_ & H & _). destruct Hacc. by apply H.
  - rewrite Hdeny. auto.
Qed.

(** ** Changes of the policy *)

Definition mode_at (kind id : string) (scopes : list Scope) : option string := own_mode (scope_at kind id scopes).

(** A function on scopes that keeps what identifies them. *)
Definition same_key (f : Scope → Scope) : Prop := ∀ s, sc_Kind (f s) = sc_Kind s ∧ sc_ID (f s) = sc_ID s.

Lemma scope_at_map kind id f scopes : same_key f → scope_at kind id (map f scopes) = f <$> scope_at kind id scopes.
Proof.
  intros Hf. induction scopes as [|s scopes IH]; [done|]. unfold scope_at in *. cbn [map List.find].
  destruct (Hf s) as [-> ->]. by destruct ((sc_Kind s =s kind) && (sc_ID s =s id)).
Qed.

Lemma scope_at_app kind id scopes scopes' :
  scope_at kind id (scopes ++ scopes') =
  match scope_at kind id scopes with Some s => Some s | None => scope_at kind id scopes' end.
Proof.
  induction scopes as [|s scopes IH]; [done|]. unfold scope_at in *. cbn [app List.find].
  by destruct ((sc_Kind s =s kind) && (sc_ID s =s id)).
Qed.

Lemma mode_at_alter kind id f n scopes :
  same_key f → (∀ s, sc_Mode (f s) = sc_Mode s) → mode_at kind id (alter f n scopes) = mode_at kind id scopes.
Proof.
  intros Hf Hm. unfold mode_at. revert n. induction scopes as [|s scopes IH]; intros [|n]; try done.
  - unfold scope_at. cbn. destruct (Hf s) as [-> ->].
    destruct ((sc_Kind s =s kind) && (sc_ID s =s id)); cbn; by rewrite ?Hm.
  - change (alter f (S n) (s :: scopes)) with (s :: alter f n scopes). specialize (IH n).
    unfold scope_at in *. cbn [List.find]. by destruct ((sc_Kind s =s kind) && (sc_ID s =s id)).
Qed.

Definition keys (scopes : list Scope) : list (string * string) := map (λ s, (sc_Kind s, sc_ID s)) scopes.

Lemma find_scope_spec kind id scopes :
  match find_scope kind id scopes with
  | Some n => ∃ s, scopes !! n = Some s ∧ scope_at kind id scopes = Some s
  | None => scope_at kind id scopes = None
  end.
Proof.
  induction scopes as [|s scopes IH]; [done|]. cbn [find_scope]. unfold scope_at in *. cbn [List.find].
  destruct ((sc_Kind s =s kind) && (sc_ID s =s id)); [by exists s|].
  destruct (find_scope kind id scopes); cbn; [|done]. destruct IH as (s' & ? & ?). by exists s'.
Qed.

Lemma scope_at_None kind id scopes : scope_at kind id scopes = None ↔ (kind, id) ∉ keys scopes.
Proof.
  induction scopes as [|s scopes IH]; [split; [intros _; apply not_elem_of_nil|done]|].
  unfold scope_at in *. cbn [List.find keys map]. rewrite not_elem_of_cons.
  destruct (String.eqb_spec (sc_Kind s) kind) as [E1|E1], (String.eqb_spec (sc_ID s) id) as [E2|E2]; cbn [andb];
    rewrite ?IH; (split; [try discriminate|]).
  - intros [H _]. by subst.
  - intros H; split; [by intros [=]|done].
  - by intros [_ ?].
  - intros H; split; [by intros [=]|done].
  - by intros [_ ?].
  - intros H; split; [by intros [=]|done].
  - by intros [_ ?].
Qed.

(** Taking out a scope without a mode changes the mode of nothing. *)
Lemma mode_at_remove kind id n s scopes :
  NoDup (keys scopes) → scopes !! n = Some s → sc_Mode s = "" →
  mode_at kind id (take n scopes ++ drop (S n) scopes) = mode_at kind id scopes.
Proof.
  intros Hn Hs Hm. pose proof (take_drop_middle scopes n s Hs) as E. rewrite <- E in Hn |- * at 3.
  unfold keys in Hn. rewrite map_app in Hn. cbn in Hn. apply NoDup_app in Hn as (_ & Hdis & Hn2).
  apply NoDup_cons in Hn2 as [Hs2 _]. fold (keys (drop (S n) scopes)) in Hs2.
  unfold mode_at. rewrite !scope_at_app. destruct (scope_at kind id (take n scopes)); [done|].
  unfold scope_at at 2. cbn [List.find]. destruct (String.eqb_spec (sc_Kind s) kind) as [<-|?]; [|done].
  destruct (String.eqb_spec (sc_ID s) id) as [<-|?]; [|done]. cbn [andb own_mode]. rewrite Hm.
  by rewrite (proj2 (scope_at_None _ _ _) Hs2).
Qed.

Lemma set_mode_key c : same_key (set_mode c).
Proof. intros s. unfold set_mode. by destruct (_ && _). Qed.

Lemma keys_map f scopes : same_key f → keys (map f scopes) = keys scopes.
Proof. intros Hf. unfold keys. rewrite map_map. apply map_ext. intros s. by destruct (Hf s) as [-> ->]. Qed.

Lemma apply_mode_scopes p c p' :
  apply_mode p c = Ok p' → NoDup (keys (po_Scopes p)) →
  NoDup (keys (po_Scopes p')) ∧
  (po_GlobalMode p' = po_GlobalMode p ∨ po_GlobalMode p' = ch_Mode c ∧ (ch_Mode c = Full → ch_ConfirmFull c = true)) ∧
  ∀ kind id, mode_at kind id (po_Scopes p') = mode_at kind id (po_Scopes p) ∨
    mode_at kind id (po_Scopes p') = Some (ch_Mode c) ∧ (ch_Mode c = Full → ch_ConfirmFull c = true).
Proof.
  unfold apply_mode. intros H Hn. destruct (ch_Mode c =s "") eqn:Em; [injection H as <-; auto|].
  apply reject_bind_Ok in H as [_ H]. apply reject_bind_Ok in H as [Hf H].
  assert (ch_Mode c = Full → ch_ConfirmFull c = true) as Hconf.
  { intros E. rewrite E in Hf. cbn in Hf. by apply negb_false_iff in Hf. }
  clear Hf.
  destruct ((ch_Scope c =s "global") && _); [injection H as <-; cbn; auto|].
  apply reject_bind_Ok in H as [_ H]. injection H as <-. cbn.
  pose proof (find_scope_spec (ch_Scope c) (ch_ScopeID c) (po_Scopes p)) as Hfind.
  destruct (find_scope _ _ _) as [n|]; cbn.
  - split_and!; [by rewrite (keys_map _ _ (set_mode_key c))|auto|]. intros kind id. unfold mode_at.
    rewrite (scope_at_map _ _ _ _ (set_mode_key c)). destruct (scope_at kind id (po_Scopes p)) as [s|] eqn:E; [|auto].
    cbn. unfold set_mode. destruct (_ && _); [right|auto]. cbn. by rewrite Em.
  - split_and!; [|auto|].
    + unfold keys. rewrite map_app. apply NoDup_app. split_and!; [done| |apply NoDup_singleton].
      intros x Hx ->%list_elem_of_singleton. revert Hx. by apply scope_at_None.
    + intros kind id. unfold mode_at. rewrite scope_at_app. destruct (scope_at kind id (po_Scopes p)); [auto|].
      unfold scope_at. cbn. destruct (_ && _); [right|auto]. cbn. by rewrite Em.
Qed.

Lemma apply_settings_scopes p c p' :
  applySettingsChange p c = Ok p' → NoDup (keys (po_Scopes p)) →
  po_GlobalMode p' = po_GlobalMode p ∧ po_Revision p' = po_Revision p ∧ po_Rules p' = po_Rules p ∧
  ∀ kind id, mode_at kind id (po_Scopes p') = mode_at kind id (po_Scopes p).
Proof.
  unfold applySettingsChange. intros H Hn. destruct (has_settings_change c); cbn [negb] in H; [|by injection H as <-].
  apply reject_bind_Ok in H as [_ H]. apply reject_bind_Ok in H as [_ H]. apply bind_Ok in H as ([] & _ & H).
  set (enabled := match ch_Settings c, ch_CustomPermissionsEnabled c with Some _, None => Some true | _, e => e end) in H.
  destruct (ch_Scope c =s "global").
  { apply reject_bind_Ok in H as [_ H]. injection H as <-.
    by destruct (not_nil enabled), (not_nil (ch_Settings c)). }
  pose proof (find_scope_spec (ch_Scope c) (ch_ScopeID c) (po_Scopes p)) as Hfind.
  destruct (find_scope _ _ _) as [n|]; [|destruct (ch_InheritSettings c); injection H as <-; [done|]].
  - destruct Hfind as (s & Hs & _). destruct (ch_InheritSettings c); injection H as <-; cbn; split_and!; try done.
    + intros kind id. set (clear := λ s : Scope, _ : Scope).
      assert (same_key clear) as Hk by (intros ?; done).
      rewrite list_lookup_alter_eq, Hs. cbn. destruct (sc_Mode s =s "") eqn:Em.
      * rewrite <- (mode_at_alter kind id clear n (po_Scopes p)) by done.
        apply (mode_at_remove kind id n (clear s)).
        -- clear - Hn Hk. revert n. unfold keys in *. induction (po_Scopes p) as [|x l IH]; intros [|n]; cbn in *; try done.
           inversion Hn as [|? ? Hx Hl]; subst. constructor; [|by apply IH].
           assert (map (λ s, (sc_Kind s, sc_ID s)) (alter clear n l) = map (λ s, (sc_Kind s, sc_ID s)) l) as ->; [|done].
           clear. revert n; induction l as [|y l IH]; intros [|n]; cbn; try done. f_equal. apply IH.
        -- by rewrite list_lookup_alter_eq, Hs.
        -- by apply String.eqb_eq in Em.
      * by apply mode_at_alter.
    + intros kind id. apply mode_at_alter; intros t; unfold set_scope_settings;
        by destruct (not_nil (ch_Settings c)), (not_nil enabled).
  - cbn. split_and!; try done. intros kind id. unfold mode_at. rewrite scope_at_app.
    destruct (scope_at kind id (po_Scopes p)); [done|]. unfold scope_at. cbn. by destruct (_ && _).
Qed.

Lemma valid_keys p : valid_policy p → NoDup (keys (po_Scopes p)).
Proof.
  intros Hp%valid_scopes_of. destruct Hp as [_ Hk]. revert Hk. unfold keys.
  assert (map scope_key (po_Scopes p) = map (λ '(k, i), k +:+ ":" +:+ i) (map (λ s, (sc_Kind s, sc_ID s)) (po_Scopes p))) as ->.
  { by rewrite map_map. }
  apply NoDup_fmap_1.
Qed.

(** C34: a policy changes only against the revision it was read at; the new
    policy is valid and carries the next revision; and no call comes to run
    with full permissions unless it already did or the user confirmed it. *)
Theorem apply_change_safe p c now p' :
  valid_policy p → apply_change p c now = Ok p' →
  po_Revision p = ch_ExpectedRevision c ∧ valid_policy p' ∧
  po_Revision p' = u64 (po_Revision p + 1) ∧ po_Revision p' ≠ 0 ∧
  ∀ b, ef_Mode (effectivePolicy p' b) = Full →
    ef_Mode (effectivePolicy p b) = Full ∨ ch_Mode c = Full ∧ ch_ConfirmFull c = true.
Proof.
  intros Hp H. unfold apply_change in H. apply reject_bind_Ok in H as [Hrev%negb_false_iff%Z.eqb_eq H].
  apply bind_Ok in H as (p1 & H1 & H). apply bind_Ok in H as (p3 & H3 & H). apply reject_bind_Ok in H as [_ H].
  apply bind_Ok in H as ([] & Hval & H). injection H as H.
  assert (valid_policy p') as Hval' by (rewrite <- H; exact Hval). clear Hval. rename Hval' into Hval.
  assert (po_Scopes p' = po_Scopes p3 ∧ po_GlobalMode p' = po_GlobalMode p3 ∧ po_Revision p' = u64 (po_Revision p3 + 1))
    as (F1 & F2 & F3) by (rewrite <- H; done). clear H.
  destruct (apply_mode_scopes _ _ _ H1 (valid_keys _ Hp)) as (Hn & Hglob & Hmodes).
  set (p2 := match ch_Rules c with Some rules => _ | None => _ end) in H3.
  assert (po_Scopes p2 = po_Scopes p1 ∧ po_GlobalMode p2 = po_GlobalMode p1 ∧ po_Revision p2 = po_Revision p1) as (E1 & E2 & E3)
    by (subst p2; by destruct (ch_Rules c)).
  rewrite <- E1 in Hn, Hmodes. rewrite <- E2 in Hglob.
  destruct (apply_settings_scopes _ _ _ H3 Hn) as (E4 & E5 & _ & Hmodes3).
  assert (po_Revision p1 = po_Revision p) as E6.
  { clear -H1. unfold apply_mode in H1. destruct (ch_Mode c =s ""); [by injection H1 as <-|].
    apply reject_bind_Ok in H1 as [_ H1]. apply reject_bind_Ok in H1 as [_ H1].
    destruct (_ && _); [by injection H1 as <-|]. apply reject_bind_Ok in H1 as [_ H1]. by injection H1 as <-. }
  split_and!; [done|exact Hval| | |].
  - by rewrite F3, E5, E3, E6.
  - unfold valid_policy, validatePolicy in Hval. apply reject_seq in Hval as [Hz _].
    apply orb_false_iff in Hz as [Hz _]. apply orb_false_iff in Hz as [_ Hz]. by apply Z.eqb_neq in Hz.
  - intros b. destruct (effective_spec _ b Hval) as [-> _]. destruct (effective_spec _ b Hp) as [-> _].
    unfold mode_of, workspace_of, conversation_of. rewrite F1, F2.
    fold (mode_at "workspace" (xs_WorkspaceID b) (po_Scopes p3)) (mode_at "conversation" (xs_ConversationID b) (po_Scopes p3))
      (mode_at "workspace" (xs_WorkspaceID b) (po_Scopes p)) (mode_at "conversation" (xs_ConversationID b) (po_Scopes p)).
    rewrite !Hmodes3, E4. intros HF.
    destruct (Hmodes "conversation" (xs_ConversationID b)) as [Ec|[Ec Hc]]; rewrite Ec in HF; [|right; auto].
    destruct (mode_at "conversation" _ (po_Scopes p)); [by left|]. cbn in HF |- *.
    destruct (Hmodes "workspace" (xs_WorkspaceID b)) as [Ew|[Ew Hw]]; rewrite Ew in HF; [|right; auto].
    destruct (mode_at "workspace" _ (po_Scopes p)); [by left|]. cbn in HF |- *.
    destruct Hglob as [Eg|[Eg Hg]]; rewrite Eg in HF; [by left|right; auto].
Qed.

(** ** Concrete instances *)

Definition sample_rule : Rule := mkRule "no_shell" "exec_command" "" "" Deny "no shell on this machine".
(** Full permissions with a rule against commands and a read-only profile. *)
Definition sample_policy : Policy :=
  mkPolicy (Some (mkSettings (mkProfile FileRead Allow BoundaryNone) (mkApprovalPolicy OnRequest None) ReviewerUser))
    (Some true) 3 7 Rules [] [sample_rule] 0.
Definition sample_facts (tool fs : string) : Facts := mkFacts true fs false true no_binding tool "" false false "".

Lemma Decide_explicit_deny_witness :
  ∃ d, decide_call sample_policy (sample_facts "exec_command" "") = Some d ∧ de_Effect d = Deny.
Proof.
  destruct (Decide_explicit_deny sample_policy (sample_facts "exec_command" "") sample_rule) as (d & first & H1 & H2 & _);
    [left|reflexivity|reflexivity|]. exists d. split; [exact H1|exact H2].
Defined.

Lemma Decide_allows_witness :
  ∃ d, decide_call sample_policy (sample_facts "read_file" FileRead) = Some d ∧ de_Effect d ≠ Allow.
Proof.
  destruct (Decide_allows sample_policy (sample_facts "read_file" FileRead)) as (d & H1 & H2); [reflexivity|].
  exists d. split; [exact H1|]. intros (_ & _ & [[E _]|[E|(_ & _ & [E|[E|E]])]])%H2; try discriminate E. exact (E eq_refl).
Defined.

Lemma Decide_asks_witness :
  ∃ d, decide_call sample_policy (sample_facts "read_file" FileRead) = Some d ∧ de_Effect d = Ask.
Proof.
  destruct (Decide_asks sample_policy (sample_facts "read_file" FileRead)) as (d & H1 & H2 & _); [reflexivity|].
  exists d. split; [exact H1|]. apply H2. split; [reflexivity|]. split.
  - intros _. split; [intros _; split_and!; discriminate || reflexivity|]. split; [discriminate|]. intros g E. discriminate E.
  - split; [discriminate|]. split; [discriminate|]. right. split; [reflexivity|split; reflexivity].
Defined.

Definition sample_change : Change := mkChange None None false "workspace" "ws_1" Full 7 true None.
Definition changed_policy : Policy :=
  match apply_change sample_policy sample_change 5 with Ok p => p | Err _ => sample_policy end.

Lemma apply_change_safe_witness : po_Revision changed_policy = 8 ∧ valid_policy changed_policy.
Proof.
  destruct (apply_change_safe sample_policy sample_change 5 changed_policy) as (_ & H1 & H2 & _);
    [reflexivity|vm_compute; reflexivity|]. split; [rewrite H2; reflexivity|exact H1].
Defined.
