(* ===== verification/Approval.v ===== *)
(** * Approval: the permission store and its pending approvals (internal/permission)

    Models the operations of policy.go, approval.go, fresh_install.go and
    RecordReview of reviewer.go on the store's files: policy.json and one file
    per approval.  A record is taken to be read back as it was written;
    [policy_len] and [approval_len] are the numbers of bytes json.Marshal
    produces.  [ctx n] says whether the n-th look of an operation at its
    context finds it cancelled (the second also covers the lock).  Not
    modelled: the reviewer process (RunReviewer), pure I/O. *)

From stdpp Require Import pretty sorting.
From S2P Require Import Prelude GoText Durable Binding Permission.
Local Open Scope Z_scope.

Definition ErrApprovalNotFound : string := "approval not found".
Definition ErrApprovalExpired : string := "approval expired or no longer matches the effective policy".

Record Approval : Type := mkApproval {
  pa_Reviewer : string;
  pa_Settings : option Settings;
  pa_ReviewDecision : string;
  pa_ReviewReason : string;
  pa_ReviewedAt : option Time;
  pa_OwnerPID : Z;
  pa_OwnerInstance : string;
  pa_Binding : ExecutionScope;
  pa_ID : string;
  pa_SchemaVersion : Z;
  pa_Tool : string;
  pa_Action : string;
  pa_Operation : string;
  pa_ScopeDescription : string;
  pa_RuleID : string;
  pa_Reason : string;
  pa_Mode : string;
  pa_PolicyRevision : Z;
  pa_WorkspaceRevision : Z;
  pa_Status : string;
  pa_CreatedAt : Time;
  pa_ExpiresAt : Time;
  pa_DecidedAt : option Time;
  pa_DecidedBy : string;
  pa_DispatchCount : Z;
  pa_GrantedRuleID : string;
  pa_Summary : string;
}.

#[export] Instance Approval_eta : Eta Approval := λ a,
  mkApproval (pa_Reviewer a) (pa_Settings a) (pa_ReviewDecision a) (pa_ReviewReason a) (pa_ReviewedAt a)
    (pa_OwnerPID a) (pa_OwnerInstance a) (pa_Binding a) (pa_ID a) (pa_SchemaVersion a) (pa_Tool a) (pa_Action a)
    (pa_Operation a) (pa_ScopeDescription a) (pa_RuleID a) (pa_Reason a) (pa_Mode a) (pa_PolicyRevision a)
    (pa_WorkspaceRevision a) (pa_Status a) (pa_CreatedAt a) (pa_ExpiresAt a) (pa_DecidedAt a) (pa_DecidedBy a)
    (pa_DispatchCount a) (pa_GrantedRuleID a) (pa_Summary a).

Record ReviewResult : Type := mkReviewResult {
  rv_ApprovalID : string;
  rv_CallID : string;
  rv_Decision : string;
  rv_Reason : string;
}.

(** policy.json and the directory of approvals, by identifier. *)
Record disk : Type := mkDisk {
  pd_policy : option (file Policy);
  pd_approvals : gmap string (file Approval);
}.
#[export] Instance disk_eta : Eta disk := λ d, mkDisk (pd_policy d) (pd_approvals d).

(** The store's lock around an operation. *)
Definition locked {D A} (ctx : nat → bool) (m : io D A) : io D A :=
  if ctx 0%nat || ctx 1%nat then io_fail "context canceled" else m.

Definition loadPolicy : io disk Policy :=
  f ← io_read pd_policy;
  io_lift (decode_policy f).

Definition approvalPath (id : string) : result string :=
  reject (negb (matches_id id) || negb (HasPrefix id "approval_")) "invalid approval identifier";;
  Ok id.

Definition decode_approval (id : string) (f : option (file Approval)) : result Approval :=
  found ← readJSON f;
  match found with
  | None => Err ErrApprovalNotFound
  | Some a =>
      if (pa_ID a ≠s id) || negb (pa_SchemaVersion a =? 1) || (xs_CallID (pa_Binding a) =s "")
         || negb (is_ok (Validate (pa_Binding a)))
      then Err "invalid approval record"
      else Ok a
  end.

Definition loadApproval (id : string) : io disk Approval :=
  path ← io_lift (approvalPath id);
  f ← io_read (λ d : disk, pd_approvals d !! path);
  io_lift (decode_approval id f).

Definition put_policy (f : file Policy) (d : disk) : disk := d <| pd_policy := Some f |>.
Definition put_approval (id : string) (f : file Approval) (d : disk) : disk :=
  d <| pd_approvals ::= <[id := f]> |>.

Section Store.
Variable policy_len : Policy → Z.
Variable approval_len : Approval → Z.

Definition write_policy (cancelled : bool) (p : Policy) : io disk unit :=
  writeJSON cancelled (policy_len p) p put_policy.
Definition write_approval (cancelled : bool) (id : string) (a : Approval) : io disk unit :=
  writeJSON cancelled (approval_len a) a (put_approval id).

(** ** The policy *)

Definition Get (ctx : nat → bool) : io disk Policy := locked ctx loadPolicy.

Definition Effective_ (ctx : nat → bool) (binding : ExecutionScope) : io disk Effective :=
  p ← Get ctx;
  mret (effectivePolicy p binding).

Definition Decide (ctx : nat → bool) (f : Facts) : io disk Decision :=
  p ← Get ctx;
  match decide_call p f with
  | Some d => mret d
  | None => io_fail "invalid memory address or nil pointer dereference"
  end.

Definition Update (ctx : nat → bool) (now : Time) (c : Change) : io disk Policy :=
  locked ctx
    (p ← loadPolicy;
     p ← io_lift (apply_change p c now);
     write_policy (ctx 2%nat) p;;
     mret p).

(** The identifier of a rule granted at a time; [time.UnixNano] counts from
    1970, [epoch] nanoseconds after the zero time. *)
Definition epoch : Z := 62135596800 * Second.
Definition allow_id (now : Time) : string := "allow_" +:+ pretty (now - epoch).

Definition AllowWorkspaceRule (ctx ctx' : nat → bool) (now now' : Time) (tool action workspaceID : string) (revision : Z) :
    io disk Policy :=
  p ← Get ctx;
  if workspaceID =s "" then io_fail "a workspace-specific allow rule requires an explicit workspace"
  else
    let rules := po_Rules p ++
      [mkRule (allow_id now) tool action workspaceID Allow "用户在审批时明确允许此工作区的同类工具操作。"] in
    Update ctx' now' (mkChange None None false "" "" "" revision false (Some rules)).

Definition InitializeFreshInstall (ctx : nat → bool) (now : Time) : io disk (Policy * bool) :=
  locked ctx
    (found ← io_read pd_policy;
     if not_nil found then (p ← loadPolicy; mret (p, false))
     else
       let policy := FreshInstallPolicy now in
       io_lift (validatePolicy policy);;
       write_policy (ctx 2%nat) policy;;
       mret (policy, true)).

(** ** Approvals *)

Definition ApprovalLifetime : Z := 900 * Second.

Definition Create (ctx : nat → bool) (now : Time) (raw : list ascii) (pid : Z) (instance_ : string) (a : Approval) :
    io disk Approval :=
  locked ctx
    (p ← loadPolicy;
     if negb (pa_PolicyRevision a =? po_Revision p) then io_fail ErrRevision
     else if (xs_CallID (pa_Binding a) =s "") || negb (is_ok (Validate (pa_Binding a)))
     then io_fail "approval requires a valid call binding"
     else if (16384 <? len (pa_Operation a)) || (4096 <? len (pa_ScopeDescription a)) || (2048 <? len (pa_Reason a))
     then io_fail "approval snapshot is too large"
     else
       let a := if pa_ID a =s "" then a <| pa_ID := "approval_" +:+ hex_encode raw |> else a in
       path ← io_lift (approvalPath (pa_ID a));
       exists_ ← io_read (λ d : disk, not_nil (pd_approvals d !! path));
       if (exists_ : bool) then io_fail "approval ID already exists" else
       let effective := effectivePolicy p (pa_Binding a) in
       if ap_Mode (se_Approval (ef_Settings effective)) =s Never
       then io_fail "approval policy never does not accept pending requests" else
       let a := if pa_Reviewer a =s "" then a <| pa_Reviewer := se_Reviewer (ef_Settings effective) |> else a in
       if pa_Reviewer a ≠s se_Reviewer (ef_Settings effective)
       then io_fail "approval reviewer differs from effective settings" else
       let a := a <| pa_Settings := Some (ef_Settings effective) |> in
       if (pa_Reviewer a ≠s ReviewerUser) && (pa_Reviewer a ≠s ReviewerAuto)
       then io_fail "invalid approval reviewer" else
       let a := a <| pa_SchemaVersion := 1 |> <| pa_OwnerPID := pid |> <| pa_OwnerInstance := instance_ |>
         <| pa_CreatedAt := now |> <| pa_ExpiresAt := now + ApprovalLifetime |> <| pa_Status := "pending" |>
         <| pa_DispatchCount := 0 |> in
       write_approval (ctx 2%nat) path a;;
       mret a).

Definition Approval_ (ctx : nat → bool) (id : string) : io disk Approval := locked ctx (loadApproval id).

(** sort.Slice orders the newest first; between equal times its order is
    unspecified, and nothing depends on it. *)
Definition newest_first (a b : Approval) : Prop := pa_CreatedAt b <= pa_CreatedAt a.
#[local] Instance newest_first_dec a b : base.Decision (newest_first a b).
Proof. unfold newest_first. apply _. Defined.

Definition load_all (d : disk) : result (list Approval) :=
  mapM (λ '(id, f), approvalPath id;; decode_approval id (Some f))
    (List.filter (λ '(id, _), HasPrefix id "approval_") (map_to_list (pd_approvals d))).

Definition Approvals (ctx : nat → bool) : io disk (list Approval) :=
  locked ctx
    (d ← io_read (λ d, d);
     items ← io_lift (load_all d);
     mret (merge_sort newest_first items)).

Definition expire_approval (now : Time) (a : Approval) : Approval :=
  a <| pa_Status := "expired" |> <| pa_Summary := "授权已过期或权限策略已变化，原操作未派发。" |>
    <| pa_DecidedAt := Some now |>.

Definition grant_rule (now : Time) (a : Approval) : Rule :=
  mkRule (allow_id now) (pa_Tool a) (pa_Action a) (xs_WorkspaceID (pa_Binding a)) Allow
    "用户在审批时允许此工作区的同类工具操作。".

Definition grant_policy (now : Time) (a : Approval) (p : Policy) : Policy :=
  p <| po_Rules ::= (λ rules, rules ++ [grant_rule now a]) |> <| po_Revision ::= (λ n, u64 (n + 1)) |>
    <| po_UpdatedAt := now |>.

Definition dispatch_approval (reviewer : string) (now : Time) (a : Approval) : Approval :=
  a <| pa_Status := "dispatched" |> <| pa_DispatchCount := 1 |> <| pa_DecidedAt := Some now |>
    <| pa_DecidedBy := if reviewer =s ReviewerAuto then ReviewerAuto else "local_user" |>.

(** The guards of a claim of a pending approval against the current policy. *)
Definition claim_guard (a : Approval) (grantWorkspace : bool) (reviewer : string) : result unit :=
  let selected := if pa_Reviewer a =s "" then ReviewerUser else pa_Reviewer a in
  reject ((reviewer ≠s selected) || (reviewer ≠s ReviewerUser) && (reviewer ≠s ReviewerAuto)) "approval reviewer mismatch";;
  reject ((reviewer =s ReviewerAuto) && (grantWorkspace || (pa_ReviewDecision a ≠s "approve")))
    "auto_review requires a recorded affirmative verdict and cannot create persistent grants".

(** The approval and whether the caller may dispatch its operation. *)
Definition ClaimReviewed (ctx : nat → bool) (now : Time) (id : string) (grantWorkspace : bool) (reviewer : string) :
    io disk (Approval * bool) :=
  locked ctx
    (a ← loadApproval id;
     if pa_Status a ≠s "pending" then mret (a, false) else
     p ← loadPolicy;
     if negb (now <? pa_ExpiresAt a) || negb (pa_PolicyRevision a =? po_Revision p) then
       write_approval (ctx 2%nat) id (expire_approval now a);;
       io_fail ErrApprovalExpired
     else
       io_lift (claim_guard a grantWorkspace reviewer);;
       a ← (if grantWorkspace then
              if xs_WorkspaceID (pa_Binding a) =s "" then io_fail "workspace rule requires a fixed workspace" else
              let p := grant_policy now a p in
              io_lift (validatePolicy p);;
              write_policy (ctx 2%nat) p;;
              mret (a <| pa_PolicyRevision := po_Revision p |> <| pa_GrantedRuleID := allow_id now |>)
            else mret a);
       let a := dispatch_approval reviewer now a in
       write_approval (negb grantWorkspace && ctx 2%nat) id a;;
       mret (a, true)).

Definition ClaimWithWorkspaceRule (ctx : nat → bool) (now : Time) (id : string) (grantWorkspace : bool) :
    io disk (Approval * bool) :=
  ClaimReviewed ctx now id grantWorkspace ReviewerUser.

Definition Claim (ctx : nat → bool) (now : Time) (id : string) : io disk (Approval * bool) :=
  ClaimWithWorkspaceRule ctx now id false.

(** Whether a decision applies: [Ok false] is the safe no-op. *)
Definition settle_applies (a : Approval) (status : string) : result bool :=
  if one_of status ["rejected"; "expired"] then Ok (pa_Status a =s "pending")
  else if one_of status ["succeeded"; "failed"; "cancelled"; "unknown"] then Ok (pa_Status a =s "dispatched")
  else Err "invalid approval terminal status".

Definition settle_approval (status summary actor : string) (now : Time) (a : Approval) : Approval :=
  let a := a <| pa_Status := status |> <| pa_Summary := summary |> <| pa_DecidedAt := Some now |> in
  if pa_DecidedBy a =s "" then a <| pa_DecidedBy := actor |> else a.

Definition SettleReviewed (ctx : nat → bool) (now : Time) (id status summary actor : string) : io disk Approval :=
  if (actor ≠s "local_user") && (actor ≠s ReviewerAuto) then io_fail "invalid approval actor" else
  locked ctx
    (a ← loadApproval id;
     applies ← io_lift (settle_applies a status);
     if negb applies then mret a
     else if 4096 <? len summary then io_fail "approval summary is too large"
     else
       let a := settle_approval status summary actor now a in
       write_approval (ctx 2%nat) id a;;
       mret a).

Definition Settle (ctx : nat → bool) (now : Time) (id status summary : string) : io disk Approval :=
  SettleReviewed ctx now id status summary "local_user".

Definition RecordReview (ctx : nat → bool) (now : Time) (id : string) (r : ReviewResult) : io disk unit :=
  locked ctx
    (a ← loadApproval id;
     p ← loadPolicy;
     if (pa_Status a ≠s "pending") || negb (pa_PolicyRevision a =? po_Revision p) || negb (now <? pa_ExpiresAt a)
     then io_fail ErrApprovalExpired
     else if (pa_Reviewer a ≠s ReviewerAuto) || (rv_ApprovalID r ≠s pa_ID a) || (rv_CallID r ≠s xs_CallID (pa_Binding a))
       || (rv_Decision r ≠s "approve") && (rv_Decision r ≠s "reject") || (2048 <? len (rv_Reason r)) || (rv_Reason r =s "")
     then io_fail "invalid automatic review record"
     else if pa_ReviewDecision a ≠s "" then io_fail "approval already reviewed"
     else write_approval (ctx 2%nat) id
       (a <| pa_ReviewDecision := rv_Decision r |> <| pa_ReviewReason := rv_Reason r |> <| pa_ReviewedAt := Some now |>)).

(** ** Recovery after a restart *)

Definition recovery (alive : Z → bool) (a : Approval) : option (string * string) :=
  if alive (pa_OwnerPID a) then None
  else if pa_Status a =s "pending" then
    Some ("expired", "服务已重启，内存中的固定请求已失效，未自动执行。")
  else if pa_Status a =s "dispatched" then
    Some ("unknown", "服务重启前已派发，副作用结果尚未确认。请核对实际状态，勿自动重试。")
  else None.

Fixpoint recover_items (ctx : nat → bool) (now : Time) (alive : Z → bool) (items : list Approval) :
    io disk (list Approval) :=
  match items with
  | [] => mret []
  | a :: rest =>
      match recovery alive a with
      | None => recover_items ctx now alive rest
      | Some (status, summary) =>
          changed ← Settle ctx now (pa_ID a) status summary;
          recovered ← recover_items ctx now alive rest;
          mret (changed :: recovered)
      end
  end.

Definition Recover (ctx : nat → bool) (now : Time) (alive : Z → bool) : io disk (list Approval) :=
  items ← Approvals ctx;
  recover_items ctx now alive items.
End Store.
