(* ===== verification/ApprovalSpec.v ===== *)
(** * ApprovalSpec: what the permission store promises

    Whatever operations run on it, and whatever errors and crashes their
    replacements meet: the policy stays valid; an approval only moves forward;
    and the operation it stands for is handed to a caller at most once. *)

From S2P Require Import Prelude GoText Durable Binding Permission PermissionSpec Approval.
Local Open Scope Z_scope.

(** ** Statuses *)

Definition decided_statuses : list string := ["expired"; "rejected"].
Definition ran_statuses : list string := ["dispatched"; "succeeded"; "failed"; "cancelled"; "unknown"].
Definition known_statuses : list string := "pending" :: decided_statuses ++ ran_statuses.

Lemma in_ran s : s ∈ ran_statuses → s ∈ known_statuses.
Proof. intros H. right. apply elem_of_app. by right. Qed.
Lemma in_decided s : s ∈ decided_statuses → s ∈ known_statuses.
Proof. intros H. right. apply elem_of_app. by left. Qed.

(** An approval moves from pending to a decision, and from dispatched to a
    result; nothing else. *)
Definition status_le (s t : string) : Prop :=
  s = t ∨ s = "pending" ∧ t ∈ known_statuses ∨
  s = "dispatched" ∧ t ∈ ["succeeded"; "failed"; "cancelled"; "unknown"].

Lemma status_le_refl s : status_le s s.
Proof. by left. Qed.

Lemma status_le_trans s t u : status_le s t → status_le t u → status_le s u.
Proof.
  intros [->|[[-> Ht]|[-> Ht]]] H; [done|..].
  - right; left. split; [done|]. destruct H as [<-|[[-> Hu]|[-> Hu]]]; [done..|].
    apply in_ran. by right.
  - destruct H as [<-|[[-> _]|[-> _]]]; [by right; right|..]; exfalso; repeat apply elem_of_cons in Ht as [Ht|Ht]; try discriminate;
      by apply not_elem_of_nil in Ht.
Qed.

Lemma status_le_pending s : status_le s "pending" → s = "pending".
Proof.
  intros [->|[[-> _]|[_ H]]]; [done..|].
  exfalso. repeat apply elem_of_cons in H as [H|H]; try discriminate. by apply not_elem_of_nil in H.
Qed.

(** ** Stored approvals *)

Record wf_approval (id : string) (a : Approval) : Prop := {
  wa_id : pa_ID a = id;
  wa_name : approvalPath id = Ok id;
  wa_schema : pa_SchemaVersion a = 1;
  wa_call : xs_CallID (pa_Binding a) ≠ "";
  wa_binding : Validate (pa_Binding a) = Ok tt;
  wa_status : pa_Status a ∈ known_statuses;
  wa_count : pa_DispatchCount a = if bool_decide (pa_Status a ∈ ran_statuses) then 1 else 0;
}.

(** A later version of an approval: what was asked, by whom and until when
    never changes, nor does a recorded verdict. *)
Record approval_after (a b : Approval) : Prop := {
  aa_id : pa_ID b = pa_ID a;
  aa_what : pa_Tool b = pa_Tool a ∧ pa_Action b = pa_Action a ∧ pa_Operation b = pa_Operation a;
  aa_binding : pa_Binding b = pa_Binding a;
  aa_reviewer : pa_Reviewer b = pa_Reviewer a;
  aa_times : pa_CreatedAt b = pa_CreatedAt a ∧ pa_ExpiresAt b = pa_ExpiresAt a;
  aa_verdict : pa_ReviewDecision a ≠ "" → pa_ReviewDecision b = pa_ReviewDecision a;
  aa_status : status_le (pa_Status a) (pa_Status b);
}.

Lemma approval_after_refl a : approval_after a a.
Proof. split; auto using status_le_refl. Qed.

Lemma approval_after_trans a b c : approval_after a b → approval_after b c → approval_after a c.
Proof.
  intros [? (? & ? & ?) ? ? [? ?] Hv ?] [? (? & ? & ?) ? ? [? ?] Hv' ?].
  split; [| | | | | |by eapply status_le_trans]; try (split_and!); try (etrans; [eassumption|done]).
  intros Hr. by rewrite Hv', Hv by (rewrite ?Hv; done).
Qed.

Definition at_ (d : disk) (id : string) : option Approval := pd_approvals d !! id ≫= f_content.

Definition extends (d0 d : disk) : Prop :=
  ∀ id a, at_ d0 id = Some a → ∃ b, at_ d id = Some b ∧ approval_after a b.

Lemma extends_refl d : extends d d.
Proof. intros id a H. exists a. split; [done|apply approval_after_refl]. Qed.

Section Spec.
Variable policy_len : Policy → Z.
Variable approval_len : Approval → Z.

Definition stored_policy (p : Policy) : file Policy := mkFile (policy_len p + 1) (Some p).
Definition stored_approval (a : Approval) : file Approval := mkFile (approval_len a + 1) (Some a).

(** The invariant of the store's files. *)
Record store_ok (d : disk) : Prop := {
  so_policy : ∀ f, pd_policy d = Some f → ∃ p, f = stored_policy p ∧ valid_policy p ∧ policy_len p <= record_limit;
  so_approvals : ∀ id f, pd_approvals d !! id = Some f →
    ∃ a, f = stored_approval a ∧ wf_approval id a ∧ approval_len a <= record_limit;
}.

Lemma store_ok_new : store_ok (mkDisk None ∅).
Proof. split; cbn; [discriminate|]. intros id f. by rewrite lookup_empty. Qed.

Section Operations.
Variable d0 : disk.

Definition kept (d : disk) : Prop := store_ok d ∧ extends d0 d.

Lemma kept_put_policy p d :
  kept d → valid_policy p → policy_len p <= record_limit → kept (put_policy (stored_policy p) d).
Proof.
  intros [[Hp Ha] He] Hv Hl. split; [split; cbn; [|done]|exact He].
  intros f [= <-]. by exists p.
Qed.

Lemma kept_put_approval id b d :
  kept d → wf_approval id b → approval_len b <= record_limit →
  (∀ a, at_ d id = Some a → approval_after a b) → kept (put_approval id (stored_approval b) d).
Proof.
  intros [[Hp Ha] He] Hw Hl Hafter. split; [split; cbn; [done|]|].
  - intros id' f [[<- <-]|[_ Hf]]%lookup_insert_Some; [by exists b|by apply Ha].
  - intros id' a Hid. destruct (He id' a Hid) as (a' & Ha' & Haa'). unfold at_. cbn.
    destruct (decide (id = id')) as [<-|Hne].
    + rewrite lookup_insert_eq. exists b. split; [done|]. eapply approval_after_trans; [exact Haa'|by apply Hafter].
    + rewrite lookup_insert_ne by done. by exists a'.
Qed.

Lemma load_approval_at d id a : store_ok d → decode_approval id (pd_approvals d !! id) = Ok a → at_ d id = Some a ∧ wf_approval id a.
Proof.
  intros Hd. unfold at_. destruct (pd_approvals d !! id) as [f|] eqn:E; [|discriminate].
  destruct (so_approvals _ Hd _ _ E) as (a' & -> & Hw & _). unfold decode_approval, stored_approval, readJSON. cbn.
  destruct (_ <? _); [discriminate|]. cbn. destruct (_ || _); [discriminate|]. intros [= ->]. done.
Qed.

Lemma loadApproval_spec id P :
  spec kept P (loadApproval id) (λ a d, P d ∧ at_ d id = Some a ∧ wf_approval id a).
Proof.
  unfold loadApproval. eapply spec_bind with (R := λ path d, P d ∧ path = id).
  { apply spec_lift. intros path d Hpath _ HP. split; [done|]. unfold approvalPath in Hpath.
    apply reject_bind_Ok in Hpath as [_ Hpath]. by injection Hpath. }
  intros path. eapply spec_bind with (R := λ f d, P d ∧ f = pd_approvals d !! id).
  { apply spec_read. by intros d _ [HP ->]. }
  intros f. apply spec_lift. intros a d Ha [Hd _] [HP ->]. split; [done|]. by apply load_approval_at.
Qed.

Lemma loadPolicy_spec P : spec kept P loadPolicy (λ p d, P d ∧ decode_policy (pd_policy d) = Ok p).
Proof.
  unfold loadPolicy. eapply spec_bind with (R := λ f d, P d ∧ f = pd_policy d); [by apply spec_read|].
  intros f. apply spec_lift. by intros p d Hp _ [HP ->].
Qed.

Lemma write_policy_spec c p P :
  (∀ d, kept d → P d → valid_policy p) →
  spec kept P (write_policy policy_len c p) (λ _ d, ∃ d', P d' ∧ kept d' ∧ d = put_policy (stored_policy p) d').
Proof.
  intros Hp. unfold write_policy, writeJSON. apply spec_if; [intros _; apply spec_fail|intros Hl%Z.ltb_ge].
  apply spec_if; [intros _; apply spec_fail|intros _]. apply spec_write. intros d Hd HP.
  split; [|by exists d]. apply kept_put_policy; eauto.
Qed.

Lemma write_approval_spec c id b P :
  (∀ d, kept d → P d → wf_approval id b ∧ ∀ a, at_ d id = Some a → approval_after a b) →
  spec kept P (write_approval approval_len c id b)
    (λ _ d, ∃ d', P d' ∧ kept d' ∧ d = put_approval id (stored_approval b) d').
Proof.
  intros HP. unfold write_approval, writeJSON. apply spec_if; [intros _; apply spec_fail|intros Hl%Z.ltb_ge].
  apply spec_if; [intros _; apply spec_fail|intros _]. apply spec_write. intros d Hd HPd.
  destruct (HP d Hd HPd) as [Hw Ha]. split; [by apply kept_put_approval|]. by exists d.
Qed.

Lemma locked_spec {A} ctx P (m : io disk A) Q : spec kept P m Q → spec kept P (locked ctx m) Q.
Proof. intros H. unfold locked. apply spec_if; [intros _; apply spec_fail|done]. Qed.

(** *** Each operation keeps the invariant *)

Definition anything {A} (P : disk → Prop) (m : io disk A) : Prop := spec kept P m (λ _ _, True).

Lemma anything_bind {A B} P (m : io disk A) (k : A → io disk B) R :
  spec kept P m R → (∀ a, anything (R a) (k a)) → anything P (m ≫= k).
Proof. intros Hm Hk. by eapply spec_bind. Qed.

Lemma anything_ret {A} P (a : A) : anything P (mret a : io disk A).
Proof. by apply spec_ret. Qed.

Lemma apply_change_valid p c now p' : apply_change p c now = Ok p' → valid_policy p'.
Proof.
  intros H. unfold apply_change in H. apply reject_bind_Ok in H as [_ H]. apply bind_Ok in H as (p1 & _ & H).
  apply bind_Ok in H as (p2 & _ & H). apply reject_bind_Ok in H as [_ H]. apply bind_Ok in H as ([] & Hv & H).
  injection H as H. rewrite <- H. exact Hv.
Qed.

Lemma Update_keeps ctx now c : anything (λ _, True) (Update policy_len ctx now c).
Proof.
  apply locked_spec. eapply anything_bind; [apply loadPolicy_spec|]. intros p.
  eapply anything_bind with (R := λ p' d, valid_policy p').
  { apply spec_lift. intros p' d H _ _. by eapply apply_change_valid. }
  intros p'. eapply anything_bind; [by apply write_policy_spec|]. intros ?. apply anything_ret.
Qed.

Lemma AllowWorkspaceRule_keeps ctx ctx' now now' tool action workspaceID revision :
  anything (λ _, True) (AllowWorkspaceRule policy_len ctx ctx' now now' tool action workspaceID revision).
Proof.
  unfold AllowWorkspaceRule, Get. eapply anything_bind; [apply locked_spec, loadPolicy_spec|].
  intros p. apply spec_if; intros _; [apply spec_fail|]. eapply spec_weaken; [apply Update_keeps|done..].
Qed.

Lemma fresh_policy_valid now : valid_policy (FreshInstallPolicy now).
Proof. reflexivity. Qed.

Lemma InitializeFreshInstall_keeps ctx now : anything (λ _, True) (InitializeFreshInstall policy_len ctx now).
Proof.
  apply locked_spec. eapply anything_bind with (R := λ _ _, True); [by apply spec_read|]. intros found.
  apply spec_if; intros _.
  - eapply anything_bind; [apply loadPolicy_spec|]. intros p. apply anything_ret.
  - eapply anything_bind with (R := λ _ _, True); [by apply spec_lift|]. intros _.
    eapply anything_bind; [apply write_policy_spec; intros; apply fresh_policy_valid|].
    intros ?. apply anything_ret.
Qed.

Lemma Create_keeps ctx now raw pid inst a :
  anything (λ _, True) (Create approval_len ctx now raw pid inst a).
Proof.
  apply locked_spec. eapply anything_bind; [apply loadPolicy_spec|]. intros p.
  apply spec_if; intros _; [apply spec_fail|]. apply spec_if; intros Hb; [apply spec_fail|].
  apply orb_false_iff in Hb as [Hcall Hb%negb_false_iff].
  apply spec_if; intros _; [apply spec_fail|]. cbv zeta. set (a1 := if pa_ID a =s "" then _ else a).
  eapply anything_bind with (R := λ path d, approvalPath (pa_ID a1) = Ok path ∧ path = pa_ID a1).
  { apply spec_lift. intros path d H _ _. split; [done|]. unfold approvalPath in H.
    apply reject_bind_Ok in H as [_ H]. by injection H. }
  intros path. eapply anything_bind with
    (R := λ found d, (approvalPath (pa_ID a1) = Ok path ∧ path = pa_ID a1) ∧ found = not_nil (pd_approvals d !! path)).
  { by apply spec_read. }
  intros found. apply spec_if; intros Hfound; [apply spec_fail|]. apply spec_if; intros _; [apply spec_fail|].
  set (a2 := if pa_Reviewer a1 =s "" then _ else a1). apply spec_if; intros _; [apply spec_fail|].
  apply spec_if; intros _; [apply spec_fail|]. eapply anything_bind; [|intros ?; apply anything_ret].
  apply write_approval_spec. intros d _ [[Hpath ->] ->].
  assert (pa_ID a2 = pa_ID a1 ∧ pa_Binding a2 = pa_Binding a) as [E1 E2].
  { clear. subst a2 a1. destruct (pa_ID a =s ""); by destruct (pa_Reviewer _ =s ""). }
  split.
  - split; cbn; rewrite ?E1, ?E2; try done.
    + by apply String.eqb_neq in Hcall.
    + by apply is_ok_unit.
    + apply list_elem_of_here.
  - unfold at_. destruct (pd_approvals d !! _); [discriminate|]. intros a' [=].
Qed.

(** *** Claims *)

(** The approval [b] that a step makes of [a] may be stored in its place. *)
Definition may_follow (id : string) (a b : Approval) : Prop := wf_approval id b ∧ approval_after a b.

Lemma expire_follows id now a : wf_approval id a → pa_Status a = "pending" → may_follow id a (expire_approval now a).
Proof.
  intros [? ? ? ? ? _ Hc] Hp. split.
  - split; cbn; try done; [apply in_decided; left|by rewrite Hc, Hp].
  - split; cbn; try done. right; left. rewrite Hp. split; [done|apply in_decided; left].
Qed.

Lemma dispatch_follows id reviewer now a a' :
  wf_approval id a → pa_Status a = "pending" →
  a' = a ∨ (∃ n r, a' = a <| pa_PolicyRevision := n |> <| pa_GrantedRuleID := r |>) →
  may_follow id a (dispatch_approval reviewer now a').
Proof.
  intros [? ? ? ? ? _ Hc] Hp [->|(n & r & ->)]; split; split; cbn; try done.
  all: try (apply in_ran; left). all: right; left; rewrite Hp; (split; [done|]); apply in_ran; left.
Qed.

(** A settled approval differs in its status, summary, time and perhaps in who
    decided it. *)
Lemma settle_fields status summary actor now a :
  ∃ by_, settle_approval status summary actor now a =
    a <| pa_Status := status |> <| pa_Summary := summary |> <| pa_DecidedAt := Some now |> <| pa_DecidedBy := by_ |>.
Proof.
  unfold settle_approval. cbv zeta. destruct (_ =s ""); [by exists actor|]. exists (pa_DecidedBy a). by destruct a.
Qed.

Lemma status_follows id status summary now by_ a :
  wf_approval id a → status ∈ known_statuses →
  bool_decide (status ∈ ran_statuses) = bool_decide (pa_Status a ∈ ran_statuses) → status_le (pa_Status a) status →
  may_follow id a (a <| pa_Status := status |> <| pa_Summary := summary |> <| pa_DecidedAt := Some now |> <| pa_DecidedBy := by_ |>).
Proof.
  intros [Hid Hname Hs Hcall Hb Hst Hc] Hk Hran Hle. split.
  - split; cbn; try assumption. by rewrite Hran.
  - split; cbn; try reflexivity; [by split_and!|by split_and!|exact Hle].
Qed.

Lemma settle_follows id status summary actor now a :
  wf_approval id a → settle_applies a status = Ok true → may_follow id a (settle_approval status summary actor now a).
Proof.
  intros Hwf Hs. destruct (settle_fields status summary actor now a) as [by_ ->]. unfold settle_applies in Hs.
  destruct (one_of status ["rejected"; "expired"]) eqn:E1; [|destruct (one_of status ["succeeded"; "failed"; "cancelled"; "unknown"]) eqn:E2; [|discriminate Hs]].
  - injection Hs as Hs%String.eqb_eq. apply one_of_true in E1.
    assert (status ∈ decided_statuses ∧ status ∉ ran_statuses) as [H1 H2].
    { repeat apply elem_of_cons in E1 as [->|E1]; [| |by apply not_elem_of_nil in E1]; (split; [set_solver|]);
        intros H; repeat apply elem_of_cons in H as [H|H]; try discriminate; by apply not_elem_of_nil in H. }
    apply status_follows; [done|by apply in_decided|rewrite Hs; by rewrite (bool_decide_eq_false_2 _ H2)|].
    right; left. rewrite Hs. split; [done|by apply in_decided].
  - injection Hs as Hs%String.eqb_eq. apply one_of_true in E2. assert (status ∈ ran_statuses) as H1 by (by right).
    apply status_follows; [done|by apply in_ran|rewrite Hs; by rewrite (bool_decide_eq_true_2 _ H1)|].
    right; right. by rewrite Hs.
Qed.

(** Storing what follows the stored approval keeps the invariant. *)
Lemma write_following c id b P :
  (∀ d, kept d → P d → ∃ a, at_ d id = Some a ∧ may_follow id a b) →
  spec kept P (write_approval approval_len c id b)
    (λ _ d, ∃ d', P d' ∧ kept d' ∧ d = put_approval id (stored_approval b) d').
Proof.
  intros H. apply write_approval_spec. intros d Hd HP. destruct (H d Hd HP) as (a & Ha & Hw & Hab).
  split; [done|]. rewrite Ha. by intros a' [= <-].
Qed.

Lemma at_put id f d : at_ (put_approval id f d) id = f_content f.
Proof. unfold at_. cbn. by rewrite lookup_insert_eq. Qed.

(** What a claim that succeeded found and left: see [claim_once]. *)
Record claimed (now : Time) (id : string) (grant : bool) (reviewer : string) (a' : Approval) (d : disk) : Prop := {
  cl_found : ∃ a p, at_ d0 id = Some a ∧ decode_policy (pd_policy d0) = Ok p ∧
    pa_Status a = "pending" ∧ now < pa_ExpiresAt a ∧ pa_PolicyRevision a = po_Revision p ∧
    claim_guard a grant reviewer = Ok tt ∧
    pd_policy d = if grant then Some (stored_policy (grant_policy now a p)) else pd_policy d0;
  cl_left : at_ d id = Some a';
  cl_status : pa_Status a' = "dispatched";
}.

Lemma ClaimReviewed_spec ctx now id grant reviewer :
  spec kept (λ d, d = d0) (ClaimReviewed policy_len approval_len ctx now id grant reviewer)
    (λ r d, r.2 = true → claimed now id grant reviewer r.1 d).
Proof.
  apply locked_spec. eapply spec_bind; [apply loadApproval_spec|]. intros a.
  apply spec_if; intros Hp; [by apply spec_ret|]. apply negb_false_iff, String.eqb_eq in Hp.
  eapply spec_bind; [apply loadPolicy_spec|]. intros p. apply spec_if; intros Hx.
  { eapply spec_bind; [|intros ?; apply spec_fail]. apply write_following.
    intros d _ ((_ & Ha & Hw) & _). exists a. split; [done|by apply expire_follows]. }
  apply orb_false_iff in Hx as [Hx%negb_false_iff%Z.ltb_lt Hr%negb_false_iff%Z.eqb_eq].
  set (found := λ d : disk, (d = d0 ∧ at_ d id = Some a ∧ wf_approval id a) ∧ decode_policy (pd_policy d) = Ok p).
  eapply spec_bind with (R := λ _ d, found d ∧ claim_guard a grant reviewer = Ok tt).
  { apply spec_lift. by intros [] d Hg _ Hd. }
  intros _. eapply spec_bind with
    (R := λ a' d, ∃ d', found d' ∧ claim_guard a grant reviewer = Ok tt ∧ at_ d id = Some a ∧
      (a' = a ∨ ∃ n r, a' = a <| pa_PolicyRevision := n |> <| pa_GrantedRuleID := r |>) ∧
      pd_policy d = if grant then Some (stored_policy (grant_policy now a p)) else pd_policy d').
  - apply spec_if; intros ->.
    + apply spec_if; intros _; [apply spec_fail|]. cbv zeta.
      eapply spec_bind with (R := λ _ d, valid_policy (grant_policy now a p) ∧ found d ∧ claim_guard a true reviewer = Ok tt).
      { apply spec_lift. by intros [] d Hv _ Hd. }
      intros ?. eapply spec_bind; [apply write_policy_spec; by intros d _ [Hv _]|]. intros ?. apply spec_ret.
      intros d _ (d' & (_ & Hd' & Hg) & _ & ->). exists d'. split_and!; try done; [apply Hd'|right; eauto].
    + apply spec_ret. intros d _ [Hd Hg]. exists d. split_and!; try done; [apply Hd|by left].
  - intros a'. cbv zeta. eapply spec_bind.
    { apply write_following. intros d _ (d' & ((_ & _ & Hw) & _) & _ & Ha & Ha' & _). exists a.
      split; [done|by apply dispatch_follows]. }
    intros ?. apply spec_ret. intros d _ (d1 & (d' & ((-> & Ha0 & Hw) & Hpol) & Hg & Ha & _ & Hd1) & _ & ->) _. split.
    + exists a, p. split_and!; try done.
    + by rewrite at_put.
    + done.
Qed.

Lemma SettleReviewed_keeps ctx now id status summary actor :
  anything (λ _, True) (SettleReviewed approval_len ctx now id status summary actor).
Proof.
  unfold SettleReviewed. apply spec_if; intros _; [apply spec_fail|]. apply locked_spec.
  eapply anything_bind; [apply loadApproval_spec|]. intros a.
  eapply anything_bind with (R := λ ok d, (at_ d id = Some a ∧ wf_approval id a) ∧ settle_applies a status = Ok ok).
  { apply spec_lift. by intros ok d Hok _ [_ Ha]. }
  intros ok. apply spec_if; intros Hok; [apply anything_ret|]. apply spec_if; intros _; [apply spec_fail|].
  eapply anything_bind; [|intros ?; apply anything_ret]. apply write_following.
  intros d _ ((Ha & Hw) & Hs). exists a. split; [done|]. apply settle_follows; [done|]. by destruct ok.
Qed.

Lemma RecordReview_keeps ctx now id r : anything (λ _, True) (RecordReview approval_len ctx now id r).
Proof.
  apply locked_spec. eapply anything_bind; [apply loadApproval_spec|]. intros a.
  eapply anything_bind; [apply loadPolicy_spec|]. intros p. apply spec_if; intros _; [apply spec_fail|].
  apply spec_if; intros _; [apply spec_fail|]. apply spec_if; intros Hv; [apply spec_fail|].
  apply negb_false_iff, String.eqb_eq in Hv. eapply spec_weaken;
    [apply write_following with (P := λ d, at_ d id = Some a ∧ wf_approval id a)|by intros d _ [[_ ?] _]|done].
  intros d _ [Ha Hw]. exists a. split; [done|]. split; [by destruct Hw|].
  split; cbn; try done. apply status_le_refl.
Qed.

Lemma Approvals_keeps ctx P : anything P (Approvals ctx).
Proof.
  apply locked_spec. eapply anything_bind with (R := λ _ _, True); [by apply spec_read|]. intros d.
  eapply anything_bind with (R := λ _ _, True); [by apply spec_lift|]. intros items. apply anything_ret.
Qed.

Lemma recover_items_keeps ctx now alive items : anything (λ _, True) (recover_items approval_len ctx now alive items).
Proof.
  induction items as [|a items IH]; cbn [recover_items]; [apply anything_ret|].
  destruct (recovery alive a) as [[status summary]|]; [|done].
  eapply anything_bind; [apply SettleReviewed_keeps|]. intros b.
  eapply anything_bind; [exact IH|]. intros rest. apply anything_ret.
Qed.

Lemma Recover_keeps ctx now alive : anything (λ _, True) (Recover approval_len ctx now alive).
Proof. eapply anything_bind; [apply Approvals_keeps|]. intros items. apply recover_items_keeps. Qed.
End Operations.

(** ** Histories of the store *)

Inductive op : Type :=
  | OpUpdate (c : Change)
  | OpAllowWorkspaceRule (ctx' : nat → bool) (now' : Time) (tool action workspaceID : string) (revision : Z)
  | OpInitialize
  | OpCreate (raw : list ascii) (pid : Z) (instance_ : string) (a : Approval)
  | OpClaim (id : string) (grantWorkspace : bool) (reviewer : string)
  | OpSettle (id status summary actor : string)
  | OpRecordReview (id : string) (r : ReviewResult)
  | OpApprovals
  | OpRecover (alive : Z → bool).

Definition exec (o : op) (ctx : nat → bool) (now : Time) (d : disk) (fs : list fault) : disk :=
  match o with
  | OpUpdate c => run_disk (Update policy_len ctx now c d fs)
  | OpAllowWorkspaceRule ctx' now' tool action workspaceID revision =>
      run_disk (AllowWorkspaceRule policy_len ctx ctx' now now' tool action workspaceID revision d fs)
  | OpInitialize => run_disk (InitializeFreshInstall policy_len ctx now d fs)
  | OpCreate raw pid inst a => run_disk (Create approval_len ctx now raw pid inst a d fs)
  | OpClaim id grant reviewer => run_disk (ClaimReviewed policy_len approval_len ctx now id grant reviewer d fs)
  | OpSettle id status summary actor => run_disk (SettleReviewed approval_len ctx now id status summary actor d fs)
  | OpRecordReview id r => run_disk (RecordReview approval_len ctx now id r d fs)
  | OpApprovals => run_disk (Approvals ctx d fs)
  | OpRecover alive => run_disk (Recover approval_len ctx now alive d fs)
  end.

(** The approvals an operation allowed its caller to dispatch. *)
Definition dispatches (o : op) (ctx : nat → bool) (now : Time) (d : disk) (fs : list fault) : list string :=
  match o with
  | OpClaim id grant reviewer =>
      match run_outcome (ClaimReviewed policy_len approval_len ctx now id grant reviewer d fs) with
      | Done (_, true) => [id]
      | _ => []
      end
  | _ => []
  end.

(** The disks any history leads to, with the dispatches it allowed. *)
Inductive history : disk → list string → Prop :=
  | history_new : history (mkDisk None ∅) []
  | history_step o ctx now d fs log :
      history d log → history (exec o ctx now d fs) (dispatches o ctx now d fs ++ log).

Lemma anything_kept {A} d (m : io disk A) fs :
  anything d (λ _, True) m → store_ok d → kept d (run_disk (m d fs)).
Proof. intros H Hd. apply (H d fs); [split; [done|apply extends_refl]|done]. Qed.

Lemma exec_kept o ctx now d fs : store_ok d → kept d (exec o ctx now d fs).
Proof.
  intros Hd. destruct o as [| | | |id grant reviewer| | | |]; cbn [exec];
    lazymatch goal with
    | |- context [ClaimReviewed] => idtac
    | |- _ => apply anything_kept; [|done]
    end.
  - apply Update_keeps.
  - apply AllowWorkspaceRule_keeps.
  - apply InitializeFreshInstall_keeps.
  - apply Create_keeps.
  - by apply (ClaimReviewed_spec d ctx now id grant reviewer d fs); [split; [|apply extends_refl]|].
  - apply SettleReviewed_keeps.
  - apply RecordReview_keeps.
  - apply Approvals_keeps.
  - apply Recover_keeps.
Qed.

Lemma history_ok d log : history d log → store_ok d.
Proof. induction 1 as [|o ctx now d fs log _ IH]; [apply store_ok_new|]. by apply exec_kept. Qed.

(** A dispatched approval stays dispatched. *)
Lemma not_pending_kept d d' id a :
  kept d d' → at_ d id = Some a → pa_Status a ≠ "pending" → ∃ b, at_ d' id = Some b ∧ pa_Status b ≠ "pending".
Proof.
  intros [_ He] Ha Hp. destruct (He id a Ha) as (b & Hb & Hab). exists b. split; [done|].
  intros E. apply Hp. pose proof (aa_status _ _ Hab) as Hs. rewrite E in Hs. by apply status_le_pending.
Qed.

(** C35: over any history of the store, with any errors and crashes, an
    approval lets its caller dispatch the operation at most once. *)
Theorem approval_dispatched_once d log : history d log → NoDup log.
Proof.
  intros H. enough (NoDup log ∧ ∀ id, id ∈ log → ∃ a, at_ d id = Some a ∧ pa_Status a ≠ "pending") by tauto.
  induction H as [|o ctx now d fs log Hh [Hn Hlog]]; [split; [constructor|]; intros id Hid; by apply not_elem_of_nil in Hid|].
  pose proof (history_ok _ _ Hh) as Hd. pose proof (exec_kept o ctx now d fs Hd) as Hk.
  assert (∀ id, id ∈ log → ∃ a, at_ (exec o ctx now d fs) id = Some a ∧ pa_Status a ≠ "pending") as Hold.
  { intros id Hid. destruct (Hlog id Hid) as (a & Ha & Hp). by eapply not_pending_kept. }
  destruct o; try done. cbn [dispatches].
  destruct (run_outcome _) as [[a' [|]]|e|] eqn:Eo; try done.
  destruct (ClaimReviewed_spec d ctx now id grantWorkspace reviewer d fs) as [_ Hc]; [split; [done|apply extends_refl]|done|].
  destruct (Hc _ Eo eq_refl) as [(a & p & Ha & _ & Hp & _) Hl Hst]. split.
  - constructor; [|done]. intros Hid. destruct (Hlog id Hid) as (b & Hb & Hbp). rewrite Ha in Hb. by injection Hb as <-.
  - intros id' [->|Hid]%elem_of_cons; [|by apply Hold]. exists a'. split; [exact Hl|]. cbn in Hst. by rewrite Hst.
Qed.

(** C36: a claim lets its caller dispatch only a stored, pending, unexpired
    approval made under the current policy and decided by its own reviewer (an
    automatic one only after its recorded verdict to approve); the dispatch is
    durable before the caller learns of it; and the policy changes only by the
    one rule the user granted for that tool, action and workspace. *)
Theorem claim_safe ctx now id grant reviewer d log fs a' d' fs' :
  history d log →
  ClaimReviewed policy_len approval_len ctx now id grant reviewer d fs = mkRun (Done (a', true)) d' fs' →
  (∃ a p, at_ d id = Some a ∧ decode_policy (pd_policy d) = Ok p ∧
     pa_Status a = "pending" ∧ now < pa_ExpiresAt a ∧ pa_PolicyRevision a = po_Revision p ∧
     reviewer = (if pa_Reviewer a =s "" then ReviewerUser else pa_Reviewer a) ∧
     (reviewer = ReviewerAuto → pa_ReviewDecision a = "approve" ∧ grant = false) ∧
     (if grant then ∃ size, pd_policy d' = Some (mkFile size (Some (p
          <| po_Rules := po_Rules p ++ [grant_rule now a] |> <| po_Revision := u64 (po_Revision p + 1) |>
          <| po_UpdatedAt := now |>)))
      else pd_policy d' = pd_policy d)) ∧
  at_ d' id = Some a' ∧ pa_Status a' = "dispatched".
Proof.
  intros Hd%history_ok H.
  destruct (ClaimReviewed_spec d ctx now id grant reviewer d fs) as [_ Hc]; [split; [done|apply extends_refl]|done|].
  rewrite H in Hc. destruct (Hc _ eq_refl eq_refl) as [(a & p & Ha & Hp & Hst & Hx & Hr & Hg & Hpol) Hl Hs].
  split; [|done]. exists a, p. unfold claim_guard in Hg. rewrite reject_seq, reject_last in Hg. destruct Hg as [Hg1 Hg2].
  apply orb_false_iff in Hg1 as [Hg1%negb_false_iff%String.eqb_eq _]. split_and!; try done.
  - intros ->. apply andb_false_iff in Hg2 as [?|Hg2]; [done|]. apply orb_false_iff in Hg2 as [-> Hg2%negb_false_iff%String.eqb_eq].
    done.
  - destruct grant; [|done]. eexists. exact Hpol.
Qed.

(** C37: an approval only moves forward: what it asks for, its scope, its
    reviewer and its deadline never change, a recorded verdict stays, it leaves
    its place in the life cycle only for a later one, and it counts one
    dispatch exactly when it ran; the stored policy stays valid. *)
Theorem approval_life_cycle o ctx now d log fs :
  history d log →
  let d' := exec o ctx now d fs in
  (∀ id a, at_ d id = Some a → ∃ b, at_ d' id = Some b ∧
     pa_Tool b = pa_Tool a ∧ pa_Action b = pa_Action a ∧ pa_Operation b = pa_Operation a ∧
     pa_Binding b = pa_Binding a ∧ pa_Reviewer b = pa_Reviewer a ∧ pa_ExpiresAt b = pa_ExpiresAt a ∧
     (pa_ReviewDecision a ≠ "" → pa_ReviewDecision b = pa_ReviewDecision a) ∧
     status_le (pa_Status a) (pa_Status b) ∧
     pa_DispatchCount b = if bool_decide (pa_Status b ∈ ran_statuses) then 1 else 0) ∧
  (∀ f, pd_policy d' = Some f → ∃ p, f_content f = Some p ∧ valid_policy p ∧ f_size f <= record_limit + 1).
Proof.
  intros Hd%history_ok d'. destruct (exec_kept o ctx now d fs Hd) as [Hd' He]. fold d' in Hd', He. split.
  - intros id a Ha. destruct (He id a Ha) as (b & Hb & [_ (? & ? & ?) ? ? [_ ?] ? ?]). exists b. split_and!; try done.
    unfold at_ in Hb. destruct (pd_approvals d' !! id) as [f|] eqn:Ef; [|discriminate].
    destruct (so_approvals _ Hd' _ _ Ef) as (b' & -> & Hw & _). injection Hb as ->. apply Hw.
  - intros f Hf. destruct (so_policy _ Hd' _ Hf) as (p & -> & Hv & Hl). exists p. split_and!; [done|done|cbn; lia].
Qed.
End Spec.

(** ** Concrete instances *)

Definition sample_size {A} (_ : A) : Z := 500.
Definition sample_scope : ExecutionScope := no_binding <| xs_CallID := "call_1" |> <| xs_WorkspaceID := "ws_1" |>.
Definition sample_approval : Approval :=
  mkApproval "" None "" "" None 0 "" sample_scope "approval_1" 0 "exec_command" "" "make" "" "" "" "" 1 0 "" 0 0
    None "" 0 "" "".

Abbreviation created :=
  (exec sample_size sample_size (OpCreate [] 1 "instance" sample_approval) (λ _, false) 1000 (mkDisk None ∅) []).
Abbreviation claim_run :=
  (ClaimReviewed sample_size sample_size (λ _, false) 2000 "approval_1" true ReviewerUser created []).

Lemma created_history : history sample_size sample_size created [].
Proof. apply (history_step _ _ (OpCreate [] 1 "instance" sample_approval) _ _ _ _ []), history_new. Qed.

Lemma claim_history :
  history sample_size sample_size
    (exec sample_size sample_size (OpClaim "approval_1" true ReviewerUser) (λ _, false) 2000 created []) ["approval_1"].
Proof.
  assert (dispatches sample_size sample_size (OpClaim "approval_1" true ReviewerUser) (λ _, false) 2000 created [] = ["approval_1"])
    as E by (vm_compute; reflexivity).
  rewrite <- (app_nil_r ["approval_1"]), <- E. apply history_step, created_history.
Qed.

Lemma approval_dispatched_once_witness : NoDup ["approval_1"].
Proof. exact (approval_dispatched_once sample_size sample_size _ _ claim_history). Defined.

Lemma claim_ran : ran claim_run = true.
Proof. vm_compute. reflexivity. Qed.
Lemma claim_granted : match run_outcome claim_run with Done (_, claimed) => claimed | _ => false end = true.
Proof. vm_compute. reflexivity. Qed.

Lemma claim_safe_witness : ∃ a, at_ (run_disk claim_run) "approval_1" = Some a ∧ pa_Status a = "dispatched".
Proof.
  destruct (ran_Done _ claim_ran) as [[a claimed] E]. pose proof claim_granted as G. rewrite E in G. cbn in G. subst claimed.
  exists a. apply (claim_safe sample_size sample_size (λ _, false) 2000 "approval_1" true ReviewerUser created [] [] a _ _
    created_history E).
Defined.

Lemma approval_life_cycle_witness :
  ∃ b, at_ (exec sample_size sample_size (OpClaim "approval_1" true ReviewerUser) (λ _, false) 2000 created []) "approval_1" = Some b ∧
    pa_DispatchCount b = if bool_decide (pa_Status b ∈ ran_statuses) then 1 else 0.
Proof.
  destruct (approval_life_cycle sample_size sample_size (OpClaim "approval_1" true ReviewerUser) (λ _, false) 2000 created [] []
    created_history) as [H _].
  assert (∃ a, at_ created "approval_1" = Some a) as [a Ha] by (vm_compute; eexists; reflexivity).
  destruct (H "approval_1" a Ha) as (b & Hb & Hrest). exists b. split; [exact Hb|]. apply Hrest.
Defined.
