(* ===== verification/Metadata.v ===== *)
(** * Metadata: labels, archive and recycle bin (internal/activity/conversation.go)

    The management data that tasks and conversations share, and the changes a
    user makes to it. *)

From stdpp Require Import sorting.
From S2P Require Import Prelude GoText.
Local Open Scope Z_scope.

Record Management : Type := mkManagement {
  mg_Pinned : bool;
  mg_Tags : list string;
  mg_ArchivedAt : option Time;
  mg_TrashedAt : option Time;
  mg_PurgeAfter : option Time;
}.
#[export] Instance Management_eta : Eta Management := λ m,
  mkManagement (mg_Pinned m) (mg_Tags m) (mg_ArchivedAt m) (mg_TrashedAt m) (mg_PurgeAfter m).

Record MetadataChange : Type := mkMetadataChange {
  mc_Action : string;
  mc_Title : string;
  mc_Tags : list string;
  mc_RetentionDays : Z;
}.

(** The bytes of a line end, a carriage return and a zero. *)
Definition line_breaks : string := of_bytes ["013"; "010"; "000"]%char.

Fixpoint tags_loop (tags kept : list string) : result (list string) :=
  match tags with
  | [] => Ok kept
  | tag :: rest =>
      let tag := TrimSpace tag in
      if tag =s "" then tags_loop rest kept
      else if (128 <? len tag) || negb (utf8_valid (bytes tag)) || ContainsAny tag line_breaks then Err "invalid tag"
      else tags_loop rest (if one_of tag kept then kept else kept ++ [tag])
  end.

Definition NormalizeTags (tags : list string) : result (list string) :=
  reject (24 <? Z.of_nat (length tags)) "at most 24 tags are allowed";;
  kept ← tags_loop tags [];
  Ok (merge_sort string_le kept).

(** A day of a UTC calendar. *)
Definition Day : Z := 86400 * Second.

(** The new management data and the new title. *)
Definition ApplyManagement (metadata : Management) (title : string) (change : MetadataChange) (now : Time) :
    result (Management * string) :=
  if mc_Action change =s "rename" then
    let value := TrimSpace (mc_Title change) in
    if (value =s "") || (512 <? len value) || negb (utf8_valid (bytes value)) || ContainsAny value line_breaks
    then Err "title must contain 1–512 UTF-8 bytes on one line"
    else Ok (metadata, value)
  else if mc_Action change =s "pin" then Ok (metadata <| mg_Pinned := true |>, title)
  else if mc_Action change =s "unpin" then Ok (metadata <| mg_Pinned := false |>, title)
  else if mc_Action change =s "tags" then
    tags ← NormalizeTags (mc_Tags change);
    Ok (metadata <| mg_Tags := tags |>, title)
  else if mc_Action change =s "archive" then Ok (metadata <| mg_ArchivedAt := Some now |>, title)
  else if mc_Action change =s "unarchive" then Ok (metadata <| mg_ArchivedAt := None |>, title)
  else if mc_Action change =s "trash" then
    let days := if mc_RetentionDays change =? 0 then 30 else mc_RetentionDays change in
    if (days <? 1) || (3650 <? days) then Err "recycle-bin retention must be 1–3650 days"
    else if is_nil (mg_TrashedAt metadata) then
      Ok (metadata <| mg_TrashedAt := Some now |> <| mg_PurgeAfter := Some (now + days * Day) |>, title)
    else Ok (metadata, title)
  else if mc_Action change =s "restore" then
    Ok (metadata <| mg_TrashedAt := None |> <| mg_PurgeAfter := None |>, title)
  else Err "unsupported metadata action".
