(* ===== verification/TaskState.v ===== *)
(** * TaskState: tasks, their threads and their transitions (internal/taskstate)

    Models the data of model.go, template.go, evolution.go and thread.go, the
    validation and normalisation of validation.go, and the body of every
    transition of a task or thread: the function each operation of the store
    runs between loading a task and saving it.  A body is a function from the
    task and the time to the new task or an error; random identifiers are an
    argument [raw], the bytes drawn.  Slices that are nil or empty are the same
    list.  The loop over the labelled items of a review ranges over a Go map:
    its order only chooses which of several errors is reported. *)

From stdpp Require Import pretty sorting.
From S2P Require Import Prelude GoText.
Local Open Scope Z_scope.

Definition SchemaVersion : Z := 1.
Definition FinalReviewPass : string := "pass".
Definition FinalReviewFailed : string := "failed".
Definition maxTaskTitleBytes : Z := 512.
Definition maxTaskGoalBytes : Z := Z.shiftl 16 10.
Definition maxTaskConditionBytes : Z := Z.shiftl 4 10.
Definition maxTaskConditions : Z := 64.
Definition maxTaskStepTitleBytes : Z := 512.
Definition maxTaskSummaryBytes : Z := Z.shiftl 8 10.
Definition maxTaskReviewItemBytes : Z := Z.shiftl 4 10.
Definition maxTaskReviewItems : Z := 64.
Definition maxTaskEvents : Z := 256.
Definition maxTaskEventSummaryBytes : Z := Z.shiftl 4 10.
Definition maxTaskStateFileBytes : Z := Z.shiftl 8 20.
Definition ErrTaskNotFound : string := "task not found".

Definition PhaseCheck : string := "check".
Definition PhaseExecute : string := "execute".
Definition PhaseVerify : string := "verify".
Definition PhaseCloseout : string := "closeout".
Definition StatusActive : string := "active".
Definition StatusBlocked : string := "blocked".
Definition StatusCompleted : string := "completed".
Definition StepPending : string := "pending".
Definition StepInProgress : string := "in_progress".
Definition StepCompleted : string := "completed".
Definition MainThreadID : string := "main".
Definition maxTaskThreads : Z := 64.

(** ** Data *)

Record Condition : Type := mkCondition { cd_ID : string; cd_Text : string; cd_CreatedAt : Time }.

Record FinalReviewInput : Type := mkFinalReviewInput {
  ri_Status : string;
  ri_Summary : string;
  ri_VerifiedFacts : list string;
  ri_OpenRisks : list string;
  ri_MissingChecks : list string;
}.

Record FinalReview : Type := mkFinalReview {
  fr_Status : string;
  fr_Summary : string;
  fr_VerifiedFacts : list string;
  fr_OpenRisks : list string;
  fr_MissingChecks : list string;
  fr_ReviewRevision : string;
  fr_ReviewedAt : Time;
}.

Record Event : Type := mkEvent { ev_Type : string; ev_Summary : string; ev_CreatedAt : Time }.
#[export] Instance Event_eta : Eta Event := λ e, mkEvent (ev_Type e) (ev_Summary e) (ev_CreatedAt e).

Record TaskCompletion : Type := mkTaskCompletion {
  tc_ID : string;
  tc_ConversationID : string;
  tc_ThreadID : string;
}.

Record TemplateCandidate : Type := mkTemplateCandidate {
  tp_ID : string;
  tp_Version : string;
  tp_Score : Z;
  tp_Reason : string;
}.

Record TemplateSelection : Type := mkTemplateSelection {
  ts_ID : string;
  ts_Version : string;
  ts_Hash : string;
  ts_SelectedReason : string;
  ts_Candidates : list TemplateCandidate;
}.

Record TemplateReference : Type := mkTemplateReference {
  tr_ID : string;
  tr_Version : string;
  tr_Hash : string;
  tr_SourceEvolutionID : string;
}.
#[export] Instance TemplateReference_eta : Eta TemplateReference := λ r,
  mkTemplateReference (tr_ID r) (tr_Version r) (tr_Hash r) (tr_SourceEvolutionID r).

Record TaskStepInput : Type := mkTaskStepInput { si_ID : string; si_Title : string; si_Phase : string }.

Record TaskStep : Type := mkTaskStep {
  st_ID : string;
  st_Title : string;
  st_Phase : string;
  st_Status : string;
  st_UpdatedAt : Time;
}.
#[export] Instance TaskStep_eta : Eta TaskStep := λ s,
  mkTaskStep (st_ID s) (st_Title s) (st_Phase s) (st_Status s) (st_UpdatedAt s).

Record EvolutionContextItem : Type := mkEvolutionContextItem {
  ec_EvolutionID : string;
  ec_Type : string;
  ec_Statement : string;
  ec_Scope : string;
  ec_Project : string;
  ec_Device : string;
  ec_Status : string;
  ec_Guided : bool;
  ec_ReviewRevision : string;
  ec_EvidenceRefs : list string;
}.
#[export] Instance EvolutionContextItem_eta : Eta EvolutionContextItem := λ i,
  mkEvolutionContextItem (ec_EvolutionID i) (ec_Type i) (ec_Statement i) (ec_Scope i) (ec_Project i) (ec_Device i)
    (ec_Status i) (ec_Guided i) (ec_ReviewRevision i) (ec_EvidenceRefs i).

Record EvolutionBinding : Type := mkEvolutionBinding {
  eb_EvolutionID : string;
  eb_OnSuccess : string;
  eb_OnFailure : string;
  eb_BoundAt : Time;
}.
#[export] Instance EvolutionBinding_eta : Eta EvolutionBinding := λ b,
  mkEvolutionBinding (eb_EvolutionID b) (eb_OnSuccess b) (eb_OnFailure b) (eb_BoundAt b).

Record TaskThread : Type := mkTaskThread {
  th_ID : string;
  th_TaskID : string;
  th_Title : string;
  th_Goal : string;
  th_Status : string;
  th_WorkspaceID : string;
  th_CurrentStepID : string;
  th_Steps : list TaskStep;
  th_Summary : string;
  th_NextAction : string;
  th_BlockReason : string;
  th_SourceRef : string;
  th_ParentThreadID : string;
  th_CheckpointEventID : string;
  th_CreatedAt : Time;
  th_UpdatedAt : Time;
  th_ClosedAt : option Time;
}.
#[export] Instance TaskThread_eta : Eta TaskThread := λ t,
  mkTaskThread (th_ID t) (th_TaskID t) (th_Title t) (th_Goal t) (th_Status t) (th_WorkspaceID t) (th_CurrentStepID t)
    (th_Steps t) (th_Summary t) (th_NextAction t) (th_BlockReason t) (th_SourceRef t) (th_ParentThreadID t)
    (th_CheckpointEventID t) (th_CreatedAt t) (th_UpdatedAt t) (th_ClosedAt t).

Record ThreadInput : Type := mkThreadInput {
  ti_Title : string;
  ti_WorkspaceID : string;
  ti_CurrentStepID : string;
  ti_CompletedStepIDs : list string;
  ti_Summary : string;
  ti_NextAction : string;
  ti_SourceRef : string;
  ti_CheckpointEventID : string;
  ti_Steps : list TaskStepInput;
}.

Record Task : Type := mkTask {
  tk_Completion : option TaskCompletion;
  tk_Pinned : bool;
  tk_Tags : list string;
  tk_TrashedAt : option Time;
  tk_PurgeAfter : option Time;
  tk_WorkspaceID : string;
  tk_ActiveThreadID : string;
  tk_ActiveThread : option TaskThread;
  tk_Outcome : string;
  tk_CancelReason : string;
  tk_CancelledAt : option Time;
  tk_ArchivedAt : option Time;
  tk_SchemaVersion : Z;
  tk_ID : string;
  tk_Title : string;
  tk_Goal : string;
  tk_Project : string;
  tk_Device : string;
  tk_Status : string;
  tk_Phase : string;
  tk_Conditions : list Condition;
  tk_Template : option TemplateSelection;
  tk_SourceTemplates : list TemplateReference;
  tk_Steps : list TaskStep;
  tk_Events : list Event;
  tk_Blocker : string;
  tk_Summary : string;
  tk_GuidanceContext : list EvolutionContextItem;
  tk_EvolutionGuidanceSeen : list string;
  tk_EvolutionCandidates : list EvolutionContextItem;
  tk_EvolutionBindings : list EvolutionBinding;
  tk_FinalReview : option FinalReview;
  tk_CreatedAt : Time;
  tk_UpdatedAt : Time;
  tk_CompletedAt : option Time;
}.
#[export] Instance Task_eta : Eta Task := λ t,
  mkTask (tk_Completion t) (tk_Pinned t) (tk_Tags t) (tk_TrashedAt t) (tk_PurgeAfter t) (tk_WorkspaceID t)
    (tk_ActiveThreadID t) (tk_ActiveThread t) (tk_Outcome t) (tk_CancelReason t) (tk_CancelledAt t) (tk_ArchivedAt t)
    (tk_SchemaVersion t) (tk_ID t) (tk_Title t) (tk_Goal t) (tk_Project t) (tk_Device t) (tk_Status t) (tk_Phase t)
    (tk_Conditions t) (tk_Template t) (tk_SourceTemplates t) (tk_Steps t) (tk_Events t) (tk_Blocker t) (tk_Summary t)
    (tk_GuidanceContext t) (tk_EvolutionGuidanceSeen t) (tk_EvolutionCandidates t) (tk_EvolutionBindings t)
    (tk_FinalReview t) (tk_CreatedAt t) (tk_UpdatedAt t) (tk_CompletedAt t).

(** ** Validation and normalisation *)

Definition validateTextLimit (label value : string) (maxBytes : Z) : result unit :=
  reject (maxBytes <? len value) (label +:+ " is too long").

(** Runes other than letters, digits, [-] and [_] are refused, and so is every
    byte that is not valid UTF-8: the identifier consists of word bytes. *)
Definition validStepID (id : string) : bool := forallb is_word (bytes id).

Definition known_phase (phase : string) : bool := one_of phase [PhaseCheck; PhaseExecute; PhaseVerify; PhaseCloseout].

Definition normalize_step (value : TaskStepInput) (seen : list string) (now : Time) : result TaskStep :=
  let id := TrimSpace (si_ID value) in
  let title := TrimSpace (si_Title value) in
  reject ((id =s "") || (title =s "")) "each task step requires id and title";;
  validateTextLimit "task step title" title maxTaskStepTitleBytes;;
  reject (negb (validStepID id)) "invalid task step id";;
  reject (one_of id seen) "duplicate task step id";;
  let phase := if si_Phase value =s "" then PhaseExecute else si_Phase value in
  reject (negb (known_phase phase)) "invalid task step phase";;
  Ok (mkTaskStep id title phase StepPending now).

Fixpoint steps_loop (values : list TaskStepInput) (seen : list string) (now : Time) : result (list TaskStep) :=
  match values with
  | [] => Ok []
  | value :: rest =>
      step ← normalize_step value seen now;
      steps ← steps_loop rest (st_ID step :: seen) now;
      Ok (step :: steps)
  end.

Definition normalizeTaskSteps (values : list TaskStepInput) (now : Time) : result (list TaskStep) :=
  reject (12 <? Z.of_nat (length values)) "task steps cannot exceed 12";;
  steps_loop values [] now.

Fixpoint references_loop (values : list TemplateReference) (seen : list string) : result (list TemplateReference) :=
  match values with
  | [] => Ok []
  | value :: rest =>
      let value := mkTemplateReference (TrimSpace (tr_ID value)) (TrimSpace (tr_Version value))
        (TrimSpace (tr_Hash value)) (tr_SourceEvolutionID value) in
      reject ((tr_ID value =s "") || (tr_Version value =s "")) "source template id and version are required";;
      reject (one_of (tr_ID value) seen) "duplicate source template";;
      refs ← references_loop rest (tr_ID value :: seen);
      Ok (value :: refs)
  end.

Definition normalizeTemplateReferences (values : list TemplateReference) : result (list TemplateReference) :=
  reject (3 <? Z.of_nat (length values)) "source templates cannot exceed 3";;
  references_loop values [].

Definition validStepTransition (from to : string) : bool :=
  if from =s to then true
  else if from =s StepPending then (to =s StepInProgress) || (to =s StepCompleted)
  else if from =s StepInProgress then to =s StepCompleted
  else false.

Definition incompleteStepIDs (steps : list TaskStep) : list string :=
  map st_ID (List.filter (λ s, st_Status s ≠s StepCompleted) steps).

Fixpoint step_ids_loop (values out : list string) : list string :=
  match values with
  | [] => out
  | value :: rest =>
      let value := TrimSpace value in
      if (value =s "") || one_of value out then step_ids_loop rest out else step_ids_loop rest (out ++ [value])
  end.
Definition normalizeStepIDs (values : list string) : list string := step_ids_loop values [].

Definition requireMutable (task : Task) : result unit :=
  reject (not_nil (tk_TrashedAt task)) "restore the trashed task before changing execution state";;
  reject (tk_Status task =s StatusCompleted) "completed tasks are immutable".

Definition thread_open (task : Task) : bool :=
  match tk_ActiveThread task with Some thread => th_Status thread =s "open" | None => true end.

Definition requireActive (task : Task) : result unit :=
  reject (not_nil (tk_TrashedAt task)) "trashed tasks cannot execute";;
  reject (tk_Status task ≠s StatusActive) "task status must be active";;
  reject (negb (thread_open task)) "active task thread must be open".

Definition review_is (status : string) (task : Task) : bool :=
  match tk_FinalReview task with Some review => fr_Status review =s status | None => false end.

Definition requireFinalReviewOpen (task : Task) : result unit :=
  reject (review_is FinalReviewPass task) "task already passed final review".

(** [if task.FinalReview != nil && task.FinalReview.Status == FinalReviewFailed { task.FinalReview = nil }] *)
Definition drop_failed_review (task : Task) : Task :=
  if review_is FinalReviewFailed task then task <| tk_FinalReview := None |> else task.

Definition last_events (events : list Event) : list Event :=
  if maxTaskEvents <? Z.of_nat (length events)
  then drop (Z.to_nat (Z.of_nat (length events) - maxTaskEvents)) events else events.

Definition appendTaskEvent (task : Task) (event : Event) : Task :=
  let event := event <| ev_Summary := Text (SafeTruncateString (TrimSpace (ev_Summary event)) maxTaskEventSummaryBytes) |> in
  task <| tk_Events := last_events (tk_Events task ++ [event]) |>.

Definition opaque_suffix (id : string) : bool := (len id =? 20) && forallb is_lower_hex (drop 4 (bytes id)).

Definition validateID (id : string) : result unit :=
  reject (negb (HasPrefix id "tsk_" && opaque_suffix id)) "invalid task id".

Definition newOpaqueID (prefix : string) (raw : list ascii) : string := prefix +:+ hex_encode raw.
Definition newID (raw : list ascii) : string := newOpaqueID "tsk_" raw.

Definition validateThreadID (id : string) : result unit :=
  if id =s MainThreadID then Ok tt
  else reject (negb (HasPrefix id "thr_" && opaque_suffix id)) "invalid thread id".

(** ** Text of completion conditions *)

Section Texts.
Context `{UnicodeCase}.

(** The punctuation that a comparison ignores. *)
Definition compare_ignored : list N :=
  34%N :: map ch_rune (chunks (bytes "，。！？、；：（）()[]【】{}《》“”‘’'`")).

Definition conditionCompareText (value : string) : string :=
  of_bytes (concat (map (λ r, if existsb (N.eqb r) compare_ignored then [] else if (32 <? r)%N then encode_rune r else [])
    (map ch_rune (chunks (bytes (ToLower value)))))).

Fixpoint rune_pairs (runes : list N) : list string :=
  match runes with
  | a :: (b :: _) as rest => of_bytes (encode_rune a ++ encode_rune b) :: rune_pairs rest
  | _ => []
  end.

(** The keys of the set of bigrams. *)
Definition conditionBigramSet (value : string) : list string :=
  let runes := map ch_rune (chunks (bytes value)) in
  if (length runes <? 2)%nat then (if value ≠s "" then [value] else [])
  else remove_dups (rune_pairs runes).

(** [float64(shared*2)/float64(n) >= 0.62]: the double 0.62 is the rounding of
    31/50, and below 2^40 pairs no other quotient rounds to it. *)
Definition ratio_reached (shared n : Z) : bool := 31 * n <=? 100 * shared.

Definition similarConditionText (a b : string) : bool :=
  let a := conditionCompareText a in
  let b := conditionCompareText b in
  if (a =s "") || (b =s "") then false
  else if a =s b then true
  else if (8 <=? rune_count a) && (8 <=? rune_count b) && (Contains a b || Contains b a) then true
  else if (rune_count a <? 8) || (rune_count b <? 8) then false
  else
    let aPairs := conditionBigramSet a in
    let bPairs := conditionBigramSet b in
    if is_empty aPairs || is_empty bPairs then false
    else
      let shared := length (List.filter (λ pair, one_of pair bPairs) aPairs) in
      ratio_reached (Z.of_nat shared) (Z.of_nat (length aPairs + length bPairs)).

Fixpoint texts_loop (values seen out : list string) : list string :=
  match values with
  | [] => out
  | value :: rest =>
      let value := TrimSpace value in
      if value =s "" then texts_loop rest seen out
      else
        let key := ToLower value in
        if one_of key seen then texts_loop rest seen out
        else if existsb (λ existing, similarConditionText existing value) out then texts_loop rest seen out
        else texts_loop rest (key :: seen) (out ++ [value])
  end.
Definition normalizeTexts (values : list string) : list string := texts_loop values [] [].

Fixpoint items_loop (values seen out : list string) : list string :=
  match values with
  | [] => out
  | value :: rest =>
      let value := TrimSpace value in
      if value =s "" then items_loop rest seen out
      else if one_of (ToLower value) seen then items_loop rest seen out
      else items_loop rest (ToLower value :: seen) (out ++ [value])
  end.
Definition normalizeReviewItems (values : list string) : list string := items_loop values [] [].
End Texts.

(** ** Steps and threads *)

Definition currentThreadStep (steps : list TaskStep) : string :=
  match List.find (λ s, st_Status s =s StepInProgress) steps with
  | Some step => st_ID step
  | None =>
      match List.find (λ s, st_Status s =s StepPending) steps with
      | Some step => st_ID step
      | None => ""
      end
  end.

Definition virtualMain (task : Task) : TaskThread :=
  let status := if tk_Status task =s StatusCompleted then "closed"
    else if tk_Status task =s StatusBlocked then "blocked" else "open" in
  mkTaskThread MainThreadID (tk_ID task) "main" (tk_Goal task) status (tk_WorkspaceID task)
    (currentThreadStep (tk_Steps task)) (tk_Steps task) (tk_Summary task) "" (tk_Blocker task) "" "" ""
    (tk_CreatedAt task) (tk_UpdatedAt task) (tk_CompletedAt task).

Definition input_identifier (id : string) : bool := (id =s "") || validStepID id && (len id <=? 80).

Definition threadInputValid (input : ThreadInput) : result unit :=
  validateTextLimit "thread title" (ti_Title input) 512;;
  validateTextLimit "thread summary" (ti_Summary input) maxTaskSummaryBytes;;
  validateTextLimit "thread next_action" (ti_NextAction input) maxTaskSummaryBytes;;
  validateTextLimit "thread source_ref" (ti_SourceRef input) 512;;
  reject (negb (input_identifier (ti_WorkspaceID input))) "invalid workspace_id";;
  reject (negb (input_identifier (ti_CheckpointEventID input))) "invalid checkpoint_event_id".

(** The phase that a task takes from the current step of its active thread. *)
Definition projected_phase (task : Task) (thread : TaskThread) : string :=
  match List.find (λ s, st_ID s =s th_CurrentStepID thread) (th_Steps thread) with
  | Some step => if review_is FinalReviewPass task then tk_Phase task else st_Phase step
  | None => tk_Phase task
  end.

Definition projectThread (task : Task) (thread : TaskThread) : Task :=
  task <| tk_ActiveThreadID := th_ID thread |> <| tk_ActiveThread := Some thread |>
    <| tk_Steps := th_Steps thread |> <| tk_Summary := th_Summary thread |>
    <| tk_Phase := projected_phase task thread |>.

Definition thread_fields (thread : TaskThread) : ThreadInput :=
  mkThreadInput (th_Title thread) (th_WorkspaceID thread) "" [] (th_Summary thread) (th_NextAction thread)
    (th_SourceRef thread) (th_CheckpointEventID thread) [].

Definition validateStoredThread (taskID : string) (thread : TaskThread) : result unit :=
  validateThreadID (th_ID thread);;
  reject (th_TaskID thread ≠s taskID) "thread task ownership mismatch";;
  reject (negb (one_of (th_Status thread) ["open"; "blocked"; "closed"])) "invalid thread status";;
  reject (12 <? Z.of_nat (length (th_Steps thread))) "thread has too many steps";;
  threadInputValid (thread_fields thread).

Definition set_step (status : string) (now : Time) (step : TaskStep) : TaskStep :=
  step <| st_Status := status |> <| st_UpdatedAt := now |>.

(** The Go map from the identifier of a step to its last index. *)
Definition step_indexes (steps : list TaskStep) : gmap string nat :=
  foldl (λ m '(i, s), <[st_ID s := i]> m) ∅ (imap pair steps).

(** The step at an index found in such a map. *)
Definition step_status (steps : list TaskStep) (i : nat) : string :=
  default "" (st_Status <$> steps !! i).

(** The loop over the completed steps of a thread's checkpoint. *)
Fixpoint complete_ids (indices : gmap string nat) (ids : list string) (now : Time) (steps : list TaskStep) :
    result (list TaskStep) :=
  match ids with
  | [] => Ok steps
  | id :: rest =>
      match indices !! id with
      | None => Err "thread step not found"
      | Some idx =>
          if negb (validStepTransition (step_status steps idx) StepCompleted) then Err "invalid step transition"
          else complete_ids indices rest now (alter (set_step StepCompleted now) idx steps)
      end
  end.

(** The start of the current step of a thread's checkpoint. *)
Definition start_step (indices : gmap string nat) (completed : list string) (current : string) (now : Time)
    (steps : list TaskStep) : result (list TaskStep) :=
  if current =s "" then Ok steps
  else
    match indices !! current with
    | None => Err "invalid current thread step"
    | Some idx =>
        if one_of current completed then Err "invalid current thread step"
        else if negb (validStepTransition (step_status steps idx) StepInProgress) then Err "completed step cannot be restarted"
        else if existsb (λ s, (st_Status s =s StepInProgress) && (st_ID s ≠s current)) steps
        then Err "another thread step is still in progress"
        else Ok (alter (set_step StepInProgress now) idx steps)
    end.

Definition checkpointThread (thread : TaskThread) (input : ThreadInput) (now : Time) : result TaskThread :=
  reject (th_Status thread ≠s "open") "checkpoint requires an open thread";;
  reject (TrimSpace (ti_Summary input) =s "") "thread checkpoint summary is required";;
  let indices := step_indexes (th_Steps thread) in
  steps ← complete_ids indices (ti_CompletedStepIDs input) now (th_Steps thread);
  steps ← start_step indices (ti_CompletedStepIDs input) (ti_CurrentStepID input) now steps;
  let thread := thread <| th_Steps := steps |> <| th_CurrentStepID := currentThreadStep steps |>
    <| th_Summary := ti_Summary input |> <| th_NextAction := ti_NextAction input |> in
  let thread := if ti_WorkspaceID input ≠s "" then thread <| th_WorkspaceID := ti_WorkspaceID input |> else thread in
  Ok (if ti_SourceRef input ≠s "" then thread <| th_SourceRef := ti_SourceRef input |> else thread).

(** The switch of UpdateThread; [None] is the early return for a thread that
    is closed already. *)
Definition update_thread (task : Task) (thread : TaskThread) (action : string) (input : ThreadInput) (now : Time) :
    result (option TaskThread) :=
  if action =s "checkpoint" then
    thread ← checkpointThread thread input now; Ok (Some thread)
  else if action =s "block" then
    reject ((th_Status thread ≠s "open") || (TrimSpace (ti_Summary input) =s "")) "block requires an open thread and a reason";;
    Ok (Some (thread <| th_Status := "blocked" |> <| th_BlockReason := ti_Summary input |> <| th_Summary := ti_Summary input |>))
  else if action =s "resume" then
    reject (th_Status thread ≠s "blocked") "resume requires a blocked thread";;
    let thread := thread <| th_Status := "open" |> <| th_BlockReason := "" |> in
    Ok (Some (if ti_Summary input ≠s "" then thread <| th_Summary := ti_Summary input |> else thread))
  else if action =s "close" then
    if th_Status thread =s "closed" then Ok None
    else
      let thread := thread <| th_Status := "closed" |> <| th_ClosedAt := Some now |> in
      Ok (Some (if ti_Summary input ≠s "" then thread <| th_Summary := ti_Summary input |> else thread))
  else if action =s "bind" then
    reject ((tk_Status task ≠s StatusActive) || (th_Status thread ≠s "open"))
      "execution binding requires an active task and open thread";;
    reject ((ti_CurrentStepID input ≠s "") && negb (existsb (λ s, st_ID s =s ti_CurrentStepID input) (th_Steps thread)))
      "step does not belong to selected thread";;
    Ok (Some (if ti_WorkspaceID input ≠s "" then thread <| th_WorkspaceID := ti_WorkspaceID input |> else thread))
  else if action =s "checkpoint_ref" then
    Ok (Some (thread <| th_CheckpointEventID := ti_CheckpointEventID input |>))
  else Err "unsupported thread mutation".

(** The thread that CreateThread makes of its source. *)
Definition create_thread (source : TaskThread) (id : string) (fork : bool) (input : ThreadInput) (now : Time) :
    result TaskThread :=
  let thread := source <| th_ID := id |> <| th_Status := "open" |> <| th_BlockReason := "" |> <| th_ClosedAt := None |>
    <| th_CreatedAt := now |> <| th_UpdatedAt := now |> in
  thread ← (if fork then Ok (thread <| th_ParentThreadID := th_ID source |>)
    else
      let thread := thread <| th_ParentThreadID := "" |> <| th_CheckpointEventID := "" |> <| th_Summary := "" |>
        <| th_NextAction := "" |> in
      if negb (is_empty (ti_Steps input)) then
        steps ← normalizeTaskSteps (ti_Steps input) now; Ok (thread <| th_Steps := steps |>)
      else Ok (thread <| th_Steps ::= map (set_step StepPending now) |>));
  let title := TrimSpace (ti_Title input) in
  let thread := thread <| th_Title := if title =s "" then th_Title source +:+ " branch" else title |> in
  let thread := if ti_WorkspaceID input ≠s "" then thread <| th_WorkspaceID := ti_WorkspaceID input |> else thread in
  let thread := if ti_SourceRef input ≠s "" then thread <| th_SourceRef := ti_SourceRef input |> else thread in
  Ok (thread <| th_CurrentStepID := currentThreadStep (th_Steps thread) |>).

(** The thread that saveLocked writes beside a task. *)
Definition saved_thread (task : Task) : TaskThread :=
  let thread := default (virtualMain task) (tk_ActiveThread task) in
  let thread := if tk_ActiveThreadID task ≠s "" then thread <| th_ID := tk_ActiveThreadID task |> else thread in
  let thread := thread <| th_TaskID := tk_ID task |> <| th_Summary := tk_Summary task |> <| th_Steps := tk_Steps task |>
    <| th_CurrentStepID := currentThreadStep (tk_Steps task) |> <| th_UpdatedAt := tk_UpdatedAt task |> in
  let thread := if th_WorkspaceID thread =s "" then thread <| th_WorkspaceID := tk_WorkspaceID task |> else thread in
  if tk_Status task =s StatusCompleted then
    thread <| th_Status := "closed" |> <| th_ClosedAt := tk_CompletedAt task |>
  else if tk_Status task =s StatusBlocked then
    thread <| th_Status := "blocked" |> <| th_BlockReason := tk_Blocker task |>
  else if (th_Status thread =s "blocked") && (tk_Blocker task =s "") then
    thread <| th_Status := "open" |> <| th_BlockReason := "" |>
  else thread.

(** ** Transitions of a task *)

Section Transitions.
Context `{UnicodeCase}.

Definition lower_trim (s : string) : string := ToLower (TrimSpace s).

Definition checkpoint_body (stepID status summary : string) (task : Task) (now : Time) : result Task :=
  requireActive task;;
  requireFinalReviewOpen task;;
  let stepID := TrimSpace stepID in
  let status := lower_trim status in
  let summary := TrimSpace summary in
  reject ((stepID =s "") || (summary =s "")) "step_id and summary are required";;
  validateTextLimit "checkpoint summary" summary maxTaskSummaryBytes;;
  reject (negb (one_of status [StepPending; StepInProgress; StepCompleted]))
    "step status must be pending, in_progress, or completed";;
  match list_find (λ s, st_ID s = stepID) (tk_Steps task) with
  | None => Err "task step not found"
  | Some (stepIndex, step) =>
      if (st_Status step =s status) && (tk_Summary task =s summary) then Ok task
      else
        reject (negb (validStepTransition (st_Status step) status)) "cannot move step";;
        reject ((status =s StepInProgress) && existsb (λ s, st_Status s =s StepInProgress) (delete stepIndex (tk_Steps task)))
          "step is already in progress";;
        let task := task <| tk_Steps ::= alter (set_step status now) stepIndex |> in
        let task := drop_failed_review task in
        let task := task <| tk_Phase := st_Phase step |> <| tk_Summary := summary |> in
        Ok (appendTaskEvent task (mkEvent "checkpoint" (st_ID step +:+ "=" +:+ status +:+ ": " +:+ summary) now))
  end.

(** Every completed step exists and can be completed. *)
Fixpoint check_completed (steps : list TaskStep) (indexes : gmap string nat) (ids : list string) : result unit :=
  match ids with
  | [] => Ok tt
  | id :: rest =>
      match indexes !! id with
      | None => Err "task step not found"
      | Some i =>
          reject (negb (validStepTransition (step_status steps i) StepCompleted)) "cannot move step";;
          check_completed steps indexes rest
      end
  end.

(** The index of the current step, once it may be started. *)
Definition check_current (steps : list TaskStep) (indexes : gmap string nat) (completed : list string) (current : string) :
    result (option nat) :=
  if current =s "" then Ok None
  else
    reject (one_of current completed) "step cannot be both completed and current";;
    match indexes !! current with
    | None => Err "task step not found"
    | Some i =>
        reject (negb (validStepTransition (step_status steps i) StepInProgress)) "cannot move step";;
        reject (existsb (λ s, (st_Status s =s StepInProgress) && negb (one_of (st_ID s) completed)) (delete i steps))
          "step is already in progress";;
        Ok (Some i)
    end.

Definition complete_all (indexes : gmap string nat) (ids : list string) (now : Time) (steps : list TaskStep) : list TaskStep :=
  foldl (λ steps id, alter (set_step StepCompleted now) (default 0%nat (indexes !! id)) steps) steps ids.

Definition step_phase (steps : list TaskStep) (i : nat) : string := default "" (st_Phase <$> steps !! i).

Definition batch_body (completedStepIDs : list string) (currentStepID summary : string) (task : Task) (now : Time) :
    result Task :=
  requireActive task;;
  requireFinalReviewOpen task;;
  let completedStepIDs := normalizeStepIDs completedStepIDs in
  let currentStepID := TrimSpace currentStepID in
  let summary := TrimSpace summary in
  reject (is_empty completedStepIDs && (currentStepID =s "")) "completed_step_ids or current_step_id is required";;
  reject (summary =s "") "checkpoint summary is required";;
  validateTextLimit "checkpoint summary" summary maxTaskSummaryBytes;;
  let steps := tk_Steps task in
  let indexes := step_indexes steps in
  check_completed steps indexes completedStepIDs;;
  current ← check_current steps indexes completedStepIDs currentStepID;
  let steps := complete_all indexes completedStepIDs now steps in
  let '(steps, phase) :=
    match current with
    | Some i => (alter (set_step StepInProgress now) i steps, step_phase steps i)
    | None =>
        match last completedStepIDs with
        | Some id => (steps, step_phase steps (default 0%nat (indexes !! id)))
        | None => (steps, tk_Phase task)
        end
    end in
  let task := task <| tk_Steps := steps |> <| tk_Phase := phase |> in
  let task := drop_failed_review task in
  let task := task <| tk_Summary := summary |> in
  let text := "completed=[" +:+ String.concat "," completedStepIDs +:+ "]"
    +:+ (if currentStepID ≠s "" then ", current=" +:+ currentStepID else "") in
  Ok (appendTaskEvent task (mkEvent "checkpoint" (text +:+ ": " +:+ summary) now)).

Definition block_body (summary : string) (task : Task) (now : Time) : result Task :=
  requireMutable task;;
  requireFinalReviewOpen task;;
  let summary := TrimSpace summary in
  reject (summary =s "") "block summary is required";;
  validateTextLimit "block summary" summary maxTaskSummaryBytes;;
  let task := task <| tk_Status := StatusBlocked |> <| tk_Blocker := summary |> <| tk_Summary := summary |> in
  Ok (appendTaskEvent task (mkEvent "blocked" summary now)).

Definition resume_body (summary : string) (task : Task) (now : Time) : result Task :=
  reject (tk_Status task ≠s StatusBlocked) "only blocked tasks can be resumed";;
  let summary := TrimSpace summary in
  reject (summary =s "") "resume summary is required";;
  validateTextLimit "resume summary" summary maxTaskSummaryBytes;;
  let task := task <| tk_Status := StatusActive |> <| tk_Blocker := "" |> <| tk_Summary := summary |> in
  Ok (appendTaskEvent task (mkEvent "resumed" summary now)).

Fixpoint check_items (label : string) (items : list string) : result unit :=
  match items with
  | [] => Ok tt
  | item :: rest =>
      validateTextLimit ("final review " +:+ label) item maxTaskReviewItemBytes;;
      check_items label rest
  end.

Definition check_review_items (label : string) (items : list string) : result unit :=
  reject (maxTaskReviewItems <? Z.of_nat (length items)) "too many final review items";;
  check_items label items.

Definition applyFinalReview (raw : list ascii) (input : FinalReviewInput) (task : Task) (now : Time) : result Task :=
  requireActive task;;
  requireFinalReviewOpen task;;
  let status := lower_trim (ri_Status input) in
  reject ((status ≠s FinalReviewPass) && (status ≠s FinalReviewFailed)) "final review status must be pass or failed";;
  let summary := TrimSpace (ri_Summary input) in
  reject (summary =s "") "final review summary is required";;
  validateTextLimit "final review summary" summary maxTaskSummaryBytes;;
  let verifiedFacts := normalizeReviewItems (ri_VerifiedFacts input) in
  let openRisks := normalizeReviewItems (ri_OpenRisks input) in
  let missingChecks := normalizeReviewItems (ri_MissingChecks input) in
  check_review_items "verified fact" verifiedFacts;;
  check_review_items "open risk" openRisks;;
  check_review_items "missing check" missingChecks;;
  (if status =s FinalReviewPass then
     reject (is_empty verifiedFacts) "passing final review requires at least one verified fact";;
     reject (negb (is_empty (incompleteStepIDs (tk_Steps task)))) "passing final review requires all task steps completed"
   else reject (is_empty openRisks && is_empty missingChecks) "failed final review requires at least one risk");;
  let review := mkFinalReview status summary verifiedFacts openRisks missingChecks (newOpaqueID "rev_" raw) now in
  let task := task <| tk_FinalReview := Some review |> <| tk_EvolutionCandidates := [] |>
    <| tk_Phase := if status =s FinalReviewPass then PhaseCloseout else tk_Phase task |> <| tk_Summary := summary |> in
  Ok (appendTaskEvent task (mkEvent "final_review" (status +:+ ": " +:+ summary) now)).

Definition completeTask (raw : list ascii) (summary : string) (emitEvent : bool) (task : Task) (now : Time) : result Task :=
  requireActive task;;
  let summary := TrimSpace summary in
  reject (summary =s "") "final verification summary is required";;
  validateTextLimit "final verification summary" summary maxTaskSummaryBytes;;
  reject (tk_Phase task ≠s PhaseCloseout) "task must reach closeout before completion";;
  let task := task <| tk_Completion := Some (mkTaskCompletion (newOpaqueID "done_" raw) "" "") |>
    <| tk_Status := StatusCompleted |> <| tk_Outcome := "success" |> <| tk_Summary := summary |>
    <| tk_CompletedAt := Some now |> in
  Ok (if emitEvent then appendTaskEvent task (mkEvent "completed" summary now) else task).

Definition complete_body (raw : list ascii) (task : Task) (now : Time) : result Task :=
  match tk_FinalReview task with
  | Some review =>
      reject (fr_Status review ≠s FinalReviewPass) "final_review must pass before complete";;
      completeTask raw (fr_Summary review) true task now
  | None => Err "final_review must pass before complete"
  end.

Definition complete_source_body (raw : list ascii) (conversation thread : string) (task : Task) (now : Time) : result Task :=
  task ← complete_body raw task now;
  Ok (task <| tk_Completion ::= fmap (λ c, mkTaskCompletion (tc_ID c) conversation thread) |>).

Definition cancel_body (reason : string) (task : Task) (now : Time) : result Task :=
  requireMutable task;;
  let reason := TrimSpace reason in
  reject (reason =s "") "cancellation reason is required";;
  validateTextLimit "cancel reason" reason maxTaskSummaryBytes;;
  let task := task <| tk_Status := StatusCompleted |> <| tk_Outcome := "cancelled" |> <| tk_CancelReason := reason |>
    <| tk_CancelledAt := Some now |> <| tk_CompletedAt := Some now |> <| tk_Summary := reason |> in
  Ok (appendTaskEvent task (mkEvent "cancelled" reason now)).

Definition workspace_body (workspaceID : string) (task : Task) (now : Time) : result Task :=
  requireMutable task;;
  Ok (task <| tk_WorkspaceID := workspaceID |> <| tk_ActiveThread ::= fmap (λ t, t <| th_WorkspaceID := workspaceID |>) |>).

(** ** Evolution context *)

(** The union of the identifiers seen, sorted. *)
Definition guidance_seen (seen : list string) (items : list EvolutionContextItem) : list string :=
  merge_sort string_le (remove_dups
    (List.filter (λ id, id ≠s "") (map TrimSpace (seen ++ map ec_EvolutionID items)))).

Definition guidance_body (items : list EvolutionContextItem) (task : Task) (now : Time) : result Task :=
  Ok (task <| tk_GuidanceContext := items |> <| tk_EvolutionGuidanceSeen ::= (λ seen, guidance_seen seen items) |>
    <| tk_UpdatedAt := now |>).

Definition candidates_body (reviewRevision : string) (items : list EvolutionContextItem) (task : Task) (now : Time) :
    result Task :=
  match tk_FinalReview task with
  | None => Err "final_review is required before evolution candidates"
  | Some review =>
      reject ((TrimSpace reviewRevision =s "") || (fr_ReviewRevision review ≠s TrimSpace reviewRevision))
        "review_revision does not match current final_review";;
      Ok (task <| tk_EvolutionCandidates := map (λ i, i <| ec_ReviewRevision := fr_ReviewRevision review |>) items |>
        <| tk_UpdatedAt := now |>)
  end.

Definition validLearningOutcome (value : string) : bool := one_of value ["support"; "contradict"; "none"].

Definition normalizeEvolutionBinding (binding : EvolutionBinding) : result EvolutionBinding :=
  let binding := mkEvolutionBinding (TrimSpace (eb_EvolutionID binding)) (lower_trim (eb_OnSuccess binding))
    (lower_trim (eb_OnFailure binding)) 0 in
  reject (eb_EvolutionID binding =s "") "evolution_id is required";;
  reject (negb (validLearningOutcome (eb_OnSuccess binding)) || negb (validLearningOutcome (eb_OnFailure binding)))
    "learning check outcomes must be support, contradict or none";;
  reject ((eb_OnSuccess binding =s "none") && (eb_OnFailure binding =s "none"))
    "learning check must produce evidence for at least one outcome";;
  Ok binding.

Definition taskExecutionStarted (task : Task) : bool :=
  (tk_Status task ≠s StatusActive) || (tk_Blocker task ≠s "") || not_nil (tk_FinalReview task) || not_nil (tk_CompletedAt task)
  || existsb (λ s, st_Status s ≠s StepPending) (tk_Steps task)
  || existsb (λ e, negb (one_of (ev_Type e) ["created"; "templates_selected"])) (tk_Events task).

Definition same_semantics (a b : EvolutionBinding) : bool :=
  (eb_OnSuccess a =s eb_OnSuccess b) && (eb_OnFailure a =s eb_OnFailure b).

Definition bind_body (binding : EvolutionBinding) (task : Task) (now : Time) : result Task :=
  match List.find (λ b, eb_EvolutionID b =s eb_EvolutionID binding) (tk_EvolutionBindings task) with
  | Some existing =>
      reject (negb (same_semantics existing binding)) "evolution is already bound with different learning check semantics";;
      Ok task
  | None =>
      reject (taskExecutionStarted task) "learning check must be bound before task execution starts";;
      Ok (task <| tk_EvolutionBindings ::= (λ l, l ++ [binding <| eb_BoundAt := now |>]) |> <| tk_UpdatedAt := now |>)
  end.

(** ** Creation *)

Fixpoint bindings_loop (values : list EvolutionBinding) (now : Time) (bindings : list EvolutionBinding) :
    result (list EvolutionBinding) :=
  match values with
  | [] => Ok bindings
  | binding :: rest =>
      binding ← normalizeEvolutionBinding binding;
      match List.find (λ b, eb_EvolutionID b =s eb_EvolutionID binding) bindings with
      | Some existing =>
          if same_semantics existing binding then bindings_loop rest now bindings
          else Err "evolution is already bound with different learning check semantics"
      | None => bindings_loop rest now (bindings ++ [binding <| eb_BoundAt := now |>])
      end
  end.

(** [fmt.Sprintf("cond_%02d", i)] for a positive [i]. *)
Definition condition_id (i : nat) : string := "cond_" +:+ (if (i <? 10)%nat then "0" else "") +:+ pretty i.

Fixpoint check_conditions (texts : list string) : result unit :=
  match texts with
  | [] => Ok tt
  | text :: rest => validateTextLimit "task completion condition" text maxTaskConditionBytes;; check_conditions rest
  end.

Definition create_task (raw : list ascii) (title goal project device : string) (conditionTexts : list string)
    (steps : list TaskStepInput) (sourceTemplates : list TemplateReference) (initialBindings : list EvolutionBinding)
    (now : Time) : result Task :=
  let title := TrimSpace title in
  let goal := TrimSpace goal in
  let project := lower_trim project in
  let device := TrimSpace device in
  reject ((title =s "") || (goal =s "")) "task title and goal are required";;
  validateTextLimit "task title" title maxTaskTitleBytes;;
  validateTextLimit "task goal" goal maxTaskGoalBytes;;
  reject ((256 <? len project) || (256 <? len device)) "task project/device context is too long";;
  let conditionTexts := normalizeTexts conditionTexts in
  reject (is_empty conditionTexts) "at least one completion condition is required";;
  reject (maxTaskConditions <? Z.of_nat (length conditionTexts)) "task completion conditions cannot exceed 64";;
  check_conditions conditionTexts;;
  taskSteps ← normalizeTaskSteps steps now;
  templateRefs ← normalizeTemplateReferences sourceTemplates;
  bindings ← bindings_loop initialBindings now [];
  let task := mkTask None false [] None None "" "" None "" "" None None SchemaVersion (newID raw) title goal project device
    StatusActive (match taskSteps with step :: _ => st_Phase step | [] => PhaseCheck end)
    (imap (λ i text, mkCondition (condition_id (S i)) text now) conditionTexts)
    None templateRefs taskSteps [mkEvent "created" "task created" now] "" "" [] [] [] bindings None now now None in
  Ok (if is_empty templateRefs then task
      else appendTaskEvent task
        (mkEvent "templates_selected" (String.concat ", " (map (λ ref, tr_ID ref +:+ "@" +:+ tr_Version ref) templateRefs)) now)).
End Transitions.
