(* ===== verification/TaskStore.v ===== *)
(** * TaskStore: the files of the tasks (internal/taskstate)

    Models the operations of store.go, store_create.go, store_read.go,
    store_transition.go, thread.go, thread_storage.go, management.go,
    notifications.go and index.go on the store's directory: one file per task,
    one per thread of a task, the write-ahead record of a bundle of a task and
    its threads, the management sidecar, the log of a permanent deletion, and
    the claims of completion notifications.

    A record is read back as it was written; the class [Encoding] holds the
    lengths of the encodings.  Every operation takes the lock first ([busy]
    says that it could not), and with the lock recovers what an interrupted one
    left.  The directory holds regular files only: the checks against links
    and foreign entries are not modelled. *)

From S2P Require Import Prelude GoText Durable Metadata TaskState.
Local Open Scope Z_scope.

Record threadTransaction : Type := mkTransaction { tx_Task : Task; tx_Threads : list TaskThread }.

Record taskManagement : Type := mkTaskManagement {
  tm_Management : Management;
  tm_Title : string;
  tm_ArchiveManaged : bool;
  tm_UpdatedAt : Time;
}.
#[export] Instance taskManagement_eta : Eta taskManagement := λ m,
  mkTaskManagement (tm_Management m) (tm_Title m) (tm_ArchiveManaged m) (tm_UpdatedAt m).

(** A Go map that may be nil. *)
Record taskManagementState : Type := mkManagementState {
  ms_SchemaVersion : Z;
  ms_Items : option (gmap string taskManagement);
}.

Record managementDelete : Type := mkManagementDelete { md_TaskID : string }.

Record notificationClaims : Type := mkClaims { nc_SchemaVersion : Z; nc_Claimed : option (gmap string Time) }.

Record disk : Type := mkDisk {
  td_tasks : gmap string (file Task);
  td_threads : gmap (string * string) (file TaskThread);
  td_transaction : option (file threadTransaction);
  td_management : option (file taskManagementState);
  td_delete : option (file managementDelete);
  td_claims : option (file notificationClaims);
}.
#[export] Instance disk_eta : Eta disk := λ d,
  mkDisk (td_tasks d) (td_threads d) (td_transaction d) (td_management d) (td_delete d) (td_claims d).

(** The names of files in a directory come sorted. *)
Definition name_less (a b : string) : bool := String.ltb (a +:+ ".json") (b +:+ ".json").

(** ** Reading *)

(** readTaskStateFile and the decoding after it; [Ok None] is os.ErrNotExist. *)
Definition readTaskStateFile {A} (f : option (file A)) : result (option A) :=
  match f with
  | None => Ok None
  | Some f =>
      if maxTaskStateFileBytes <? f_size f then Err "task state exceeds 8388608 bytes"
      else match f_content f with Some a => Ok (Some a) | None => Err "decode" end
  end.

Definition decodeTask (task : Task) : result Task :=
  let task := if tk_ActiveThreadID task =s "" then task <| tk_ActiveThreadID := MainThreadID |> else task in
  let task := if (tk_Status task =s StatusCompleted) && (tk_Outcome task =s "") then task <| tk_Outcome := "success" |> else task in
  if negb (tk_SchemaVersion task =? SchemaVersion) then Err "unsupported task schema version"
  else Ok (task <| tk_Events ::= last_events |>).

Definition threadPath (taskID threadID : string) : result (string * string) :=
  validateID taskID;;
  validateThreadID threadID;;
  Ok (taskID, threadID).

Definition loadThreadLocked (d : disk) (task : Task) (id : string) : result TaskThread :=
  path ← threadPath (tk_ID task) id;
  found ← readTaskStateFile (td_threads d !! path);
  match found with
  | None => if id =s MainThreadID then Ok (virtualMain task) else Err "task thread not found"
  | Some thread => validateStoredThread (tk_ID task) thread;; Ok thread
  end.

(** The threads of a task with a file of their own, by name. *)
Definition thread_names (d : disk) (taskID : string) : list string :=
  sort_by name_less (map snd (List.filter (λ path, path.1 =s taskID) (map fst (map_to_list (td_threads d))))).

Fixpoint load_threads (d : disk) (task : Task) (names : list string) (threads : list TaskThread) : result (list TaskThread) :=
  match names with
  | [] => Ok threads
  | name :: rest =>
      if name =s MainThreadID then load_threads d task rest threads
      else
        thread ← loadThreadLocked d task name;
        let threads := threads ++ [thread] in
        if maxTaskThreads <? Z.of_nat (length threads) then Err "thread inventory exceeds limit"
        else load_threads d task rest threads
  end.

Definition listThreadsLocked (d : disk) (task : Task) : result (list TaskThread) :=
  main ← loadThreadLocked d task MainThreadID;
  threads ← load_threads d task (thread_names d (tk_ID task)) [main];
  Ok (sort_by (λ a b, th_CreatedAt a <? th_CreatedAt b) threads).

Definition attachThreadLocked (d : disk) (task : Task) : result Task :=
  let task := if tk_ActiveThreadID task =s "" then task <| tk_ActiveThreadID := MainThreadID |> else task in
  thread ← loadThreadLocked d task (tk_ActiveThreadID task);
  Ok (projectThread task thread).

Definition applyManagementLocked (m : gmap string taskManagement) (task : Task) : Task :=
  match m !! tk_ID task with
  | None => task
  | Some metadata =>
      let g := tm_Management metadata in
      let task := task <| tk_Pinned := mg_Pinned g |> <| tk_Tags := mg_Tags g |> <| tk_TrashedAt := mg_TrashedAt g |>
        <| tk_PurgeAfter := mg_PurgeAfter g |> in
      let task := if tm_Title metadata ≠s "" then task <| tk_Title := tm_Title metadata |> else task in
      let task := if tm_ArchiveManaged metadata then task <| tk_ArchivedAt := mg_ArchivedAt g |> else task in
      if tk_UpdatedAt task <? tm_UpdatedAt metadata then task <| tk_UpdatedAt := tm_UpdatedAt metadata |> else task
  end.

Definition loadLocked (d : disk) (m : gmap string taskManagement) (id : string) : result Task :=
  validateID id;;
  found ← readTaskStateFile (td_tasks d !! id);
  match found with
  | None => Err ErrTaskNotFound
  | Some task =>
      task ← decodeTask task;
      attachThreadLocked d (applyManagementLocked m task)
  end.

Fixpoint validate_ids (ids : list string) : result unit :=
  match ids with
  | [] => Ok tt
  | id :: rest => validateID id;; validate_ids rest
  end.

(** The items of the sidecar, and a sidecar that is not there. *)
Definition decode_management (found : option taskManagementState) : result (gmap string taskManagement) :=
  let state := default (mkManagementState 1 (Some ∅)) found in
  match ms_Items state with
  | None => Err "invalid task management schema or capacity"
  | Some items =>
      reject (negb (ms_SchemaVersion state =? 1) || (20000 <? Z.of_nat (size items)))
        "invalid task management schema or capacity";;
      validate_ids (map fst (map_to_list items));;
      Ok items
  end.

Definition loadManagementLocked : io disk (gmap string taskManagement) :=
  f ← io_read td_management;
  io_lift (found ← readTaskStateFile f; decode_management found).

(** The paths that deleting a task removes: its file, then its threads. *)
Definition deletePathsLocked (d : disk) (id : string) : result (list string) :=
  validateID id;;
  validateThreadID MainThreadID;;
  let names := thread_names d id in
  mapM (threadPath id) names;;
  Ok names.

(** ** Writing *)

Definition put_task (id : string) (f : file Task) (d : disk) : disk := d <| td_tasks ::= <[id := f]> |>.
Definition put_thread (path : string * string) (f : file TaskThread) (d : disk) : disk := d <| td_threads ::= <[path := f]> |>.
Definition put_transaction (f : option (file threadTransaction)) (d : disk) : disk := d <| td_transaction := f |>.
Definition put_management (f : file taskManagementState) (d : disk) : disk := d <| td_management := Some f |>.
Definition put_delete (f : option (file managementDelete)) (d : disk) : disk := d <| td_delete := f |>.
Definition put_claims (f : file notificationClaims) (d : disk) : disk := d <| td_claims := Some f |>.
Definition remove_task (id : string) (d : disk) : disk := d <| td_tasks ::= delete id |>.
Definition remove_thread (path : string * string) (d : disk) : disk := d <| td_threads ::= delete path |>.

(** The numbers of bytes of the encodings of the store's records. *)
Class Encoding : Type := mkEncoding {
  task_len : Task → Z;
  thread_len : TaskThread → Z;
  transaction_len : threadTransaction → Z;
  management_len : gmap string taskManagement → Z;
  claims_len : gmap string Time → Z;
}.

Section Store.
Context `{UnicodeCase} `{Encoding}.

Definition task_file (task : Task) : file Task := mkFile (task_len task + 1) (Some task).
Definition thread_file (thread : TaskThread) : file TaskThread := mkFile (thread_len thread + 1) (Some thread).
Definition transaction_file (tx : threadTransaction) : file threadTransaction := mkFile (transaction_len tx) (Some tx).
Definition management_file (items : gmap string taskManagement) : file taskManagementState :=
  mkFile (management_len items + 1) (Some (mkManagementState 1 (Some items))).
Definition claims_file (claimed : gmap string Time) : file notificationClaims :=
  mkFile (claims_len claimed + 1) (Some (mkClaims 1 (Some claimed))).
(** The encoding [{"task_id":"tsk_..."}]. *)
Definition delete_file (id : string) : file managementDelete := mkFile (len id + 14) (Some (mkManagementDelete id)).

Definition stored_task (task : Task) : Task := task <| tk_ActiveThread := None |> <| tk_Events ::= last_events |>.

Definition saveTaskOnlyLocked (task : Task) : io disk unit :=
  io_lift (validateID (tk_ID task));;
  let task := stored_task task in
  if maxTaskStateFileBytes <? task_len task + 1 then io_fail "task state exceeds 8388608 bytes"
  else io_write (put_task (tk_ID task) (task_file task)).

Fixpoint validate_threads (taskID : string) (threads : list TaskThread) : result unit :=
  match threads with
  | [] => Ok tt
  | thread :: rest =>
      validateStoredThread taskID thread;;
      threadPath taskID (th_ID thread);;
      validate_threads taskID rest
  end.

Fixpoint write_threads (taskID : string) (threads : list TaskThread) : io disk unit :=
  match threads with
  | [] => mret tt
  | thread :: rest =>
      path ← io_lift (threadPath taskID (th_ID thread));
      io_write (put_thread path (thread_file thread));;
      write_threads taskID rest
  end.

Definition applyThreadTransactionLocked (tx : threadTransaction) : io disk unit :=
  io_lift (validateID (tk_ID (tx_Task tx)));;
  (if negb (tk_SchemaVersion (tx_Task tx) =? SchemaVersion) then io_fail "unsupported transaction task schema" else mret tt);;
  io_lift (validate_threads (tk_ID (tx_Task tx)) (tx_Threads tx));;
  write_threads (tk_ID (tx_Task tx)) (tx_Threads tx);;
  saveTaskOnlyLocked (tx_Task tx).

Definition recoverThreadTransactionLocked : io disk unit :=
  f ← io_read td_transaction;
  found ← io_lift (readTaskStateFile f);
  match found with
  | None => mret tt
  | Some tx =>
      if maxTaskThreads <? Z.of_nat (length (tx_Threads tx)) then io_fail "invalid thread transaction size"
      else applyThreadTransactionLocked tx;; io_write (put_transaction None)
  end.

Definition saveThreadBundleLocked (task : Task) (threads : list TaskThread) : io disk unit :=
  io_lift (validateID (tk_ID task));;
  (if maxTaskThreads <? Z.of_nat (length threads) then io_fail "too many thread writes" else mret tt);;
  io_lift (validate_threads (tk_ID task) threads);;
  let transaction := mkTransaction (task <| tk_ActiveThread := None |>) threads in
  if maxTaskStateFileBytes <? transaction_len transaction then io_fail "thread transaction exceeds size limit"
  else
    io_write (put_transaction (Some (transaction_file transaction)));;
    applyThreadTransactionLocked transaction;;
    io_write (put_transaction None).

Definition saveManagementLocked (m : gmap string taskManagement) : io disk unit :=
  if maxTaskStateFileBytes <? management_len m then io_fail "task management exceeds size limit"
  else io_write (put_management (management_file m)).

Fixpoint remove_threads (taskID : string) (names : list string) : io disk unit :=
  match names with
  | [] => mret tt
  | name :: rest => io_write (remove_thread (taskID, name));; remove_threads taskID rest
  end.

(** The new in-memory management map. *)
Definition applyDeleteLocked (m : gmap string taskManagement) (id : string) : io disk (gmap string taskManagement) :=
  d ← io_read (λ d, d);
  names ← io_lift (deletePathsLocked d id);
  io_write (remove_task id);;
  remove_threads id names;;
  (if is_empty names then mret tt else io_write (λ d, d));;
  saveManagementLocked (delete id m);;
  mret (delete id m).

Definition recoverManagementDeleteLocked (m : gmap string taskManagement) : io disk (gmap string taskManagement) :=
  f ← io_read td_delete;
  found ← io_lift (readTaskStateFile f);
  match found with
  | None => mret m
  | Some tx =>
      m ← applyDeleteLocked m (md_TaskID tx);
      io_write (put_delete None);;
      mret m
  end.

Definition deleteManagedLocked (m : gmap string taskManagement) (task : Task) : io disk unit :=
  if is_nil (tk_TrashedAt task) then io_fail "move the task to the recycle bin before permanent deletion"
  else
    d ← io_read (λ d, d);
    io_lift (deletePathsLocked d (tk_ID task));;
    io_write (put_delete (Some (delete_file (tk_ID task))));;
    applyDeleteLocked m (tk_ID task);;
    io_write (put_delete None).

(** The management map in memory once the lock is held and the store recovered. *)
Definition acquireStoreLock (busy : bool) : io disk (gmap string taskManagement) :=
  if busy then io_fail "lock task state"
  else
    recoverThreadTransactionLocked;;
    m ← loadManagementLocked;
    recoverManagementDeleteLocked m.

Definition saveLocked (task : Task) : io disk unit :=
  let thread := saved_thread task in
  let task := if tk_ActiveThreadID task =s "" then task <| tk_ActiveThreadID := MainThreadID |> else task in
  saveThreadBundleLocked task [thread].

(** A read of the store under its lock. *)
Definition reading {A} (busy : bool) (f : disk → gmap string taskManagement → result A) : io disk A :=
  m ← acquireStoreLock busy;
  d ← io_read (λ d, d);
  io_lift (f d m).

(** ** Operations on a task *)

Definition Get (busy : bool) (id : string) : io disk Task := reading busy (λ d m, loadLocked d m id).

Definition mutate (busy : bool) (now : Time) (id : string) (fn : Task → Time → result Task) : io disk Task :=
  task ← reading busy (λ d m, loadLocked d m id);
  if not_nil (tk_TrashedAt task) then io_fail "restore the trashed task before changing execution state"
  else
    task ← io_lift (fn task now);
    let task := task <| tk_UpdatedAt := now |> in
    saveLocked task;;
    d ← io_read (λ d, d);
    io_lift (attachThreadLocked d task).

Definition Checkpoint (busy : bool) (now : Time) (id stepID status summary : string) : io disk Task :=
  mutate busy now id (checkpoint_body stepID status summary).
Definition BatchCheckpoint (busy : bool) (now : Time) (id : string) (completedStepIDs : list string) (currentStepID summary : string) : io disk Task :=
  mutate busy now id (batch_body completedStepIDs currentStepID summary).
Definition Block (busy : bool) (now : Time) (id summary : string) : io disk Task := mutate busy now id (block_body summary).
Definition Resume (busy : bool) (now : Time) (id summary : string) : io disk Task := mutate busy now id (resume_body summary).
Definition FinalReview_ (busy : bool) (now : Time) (raw : list ascii) (id : string) (input : FinalReviewInput) : io disk Task :=
  mutate busy now id (applyFinalReview raw input).
Definition Complete (busy : bool) (now : Time) (raw : list ascii) (id : string) : io disk Task :=
  mutate busy now id (complete_body raw).
Definition CompleteWithSource (busy : bool) (now : Time) (raw : list ascii) (id conversation thread : string) : io disk Task :=
  if (conversation ≠s "") && negb (validStepID conversation) || (thread ≠s "") && negb (validStepID thread)
  then io_fail "invalid completion source"
  else mutate busy now id (complete_source_body raw conversation thread).
Definition Cancel (busy : bool) (now : Time) (id reason : string) : io disk Task := mutate busy now id (cancel_body reason).
Definition SetWorkspace (busy : bool) (now : Time) (id workspaceID : string) : io disk Task :=
  if (workspaceID =s "") || negb (validStepID workspaceID) || (80 <? len workspaceID) then io_fail "invalid workspace_id"
  else mutate busy now id (workspace_body workspaceID).
Definition SetGuidanceContext (busy : bool) (now : Time) (id : string) (items : list EvolutionContextItem) : io disk Task :=
  mutate busy now id (guidance_body items).
Definition SetEvolutionCandidates (busy : bool) (now : Time) (id reviewRevision : string) (items : list EvolutionContextItem) : io disk Task :=
  mutate busy now id (candidates_body reviewRevision items).
Definition BindEvolution (busy : bool) (now : Time) (id : string) (binding : EvolutionBinding) : io disk Task :=
  binding ← io_lift (normalizeEvolutionBinding binding);
  mutate busy now id (bind_body binding).

Definition CreateWithContext (busy : bool) (now : Time) (raw : list ascii) (title goal project device : string)
    (conditionTexts : list string) (steps : list TaskStepInput) (sourceTemplates : list TemplateReference)
    (initialBindings : list EvolutionBinding) : io disk Task :=
  acquireStoreLock busy;;
  task ← io_lift (create_task raw title goal project device conditionTexts steps sourceTemplates initialBindings now);
  saveLocked task;;
  d ← io_read (λ d, d);
  io_lift (attachThreadLocked d task).

Definition Create (busy : bool) (now : Time) (raw : list ascii) (title goal : string) (conditionTexts : list string)
    (steps : list TaskStepInput) (sourceTemplates : list TemplateReference) : io disk Task :=
  CreateWithContext busy now raw title goal "" "" conditionTexts steps sourceTemplates [].

(** ** Operations on threads *)

Definition GetThread (busy : bool) (taskID threadID : string) : io disk TaskThread :=
  reading busy (λ d m,
    task ← loadLocked d m taskID;
    loadThreadLocked d task (if threadID =s "" then tk_ActiveThreadID task else threadID)).

Definition ListThreads (busy : bool) (taskID : string) : io disk (list TaskThread) :=
  reading busy (λ d m, task ← loadLocked d m taskID; listThreadsLocked d task).

(** A task that an operation on its threads may change. *)
Definition mutable_task (d : disk) (m : gmap string taskManagement) (taskID : string) : result Task :=
  task ← loadLocked d m taskID;
  requireMutable task;;
  requireFinalReviewOpen task;;
  Ok task.

Definition CreateThread (busy : bool) (now : Time) (raw : list ascii) (taskID sourceID : string) (fork : bool) (input : ThreadInput) :
    io disk TaskThread :=
  io_lift (threadInputValid input);;
  '(task, source, thread) ← reading busy (λ d m,
    task ← mutable_task d m taskID;
    threads ← listThreadsLocked d task;
    reject (maxTaskThreads <=? Z.of_nat (length threads)) "task thread limit reached";;
    source ← loadThreadLocked d task (if sourceID =s "" then tk_ActiveThreadID task else sourceID);
    thread ← create_thread source (newOpaqueID "thr_" raw) fork input now;
    Ok (task, source, thread));
  saveThreadBundleLocked (task <| tk_UpdatedAt := now |>) [source; thread];;
  mret thread.

Definition SwitchThread (busy : bool) (now : Time) (taskID threadID : string) : io disk Task :=
  '(task, thread) ← reading busy (λ d m,
    task ← mutable_task d m taskID;
    thread ← loadThreadLocked d task threadID;
    reject (th_Status thread =s "closed") "closed thread cannot be selected for continuation";;
    Ok (task, thread));
  let task := projectThread task thread in
  let task := task <| tk_UpdatedAt := now |> <| tk_FinalReview := None |> in
  saveThreadBundleLocked task [thread];;
  mret task.

(** What UpdateThread writes: the task and the thread. *)
Definition updated_bundle (now : Time) (task : Task) (thread : TaskThread) : Task * TaskThread :=
  let thread := thread <| th_UpdatedAt := now |> in
  let task := task <| tk_UpdatedAt := now |> in
  (if th_ID thread =s tk_ActiveThreadID task then drop_failed_review (projectThread task thread) else task, thread).

Definition UpdateThread (busy : bool) (now : Time) (taskID threadID action : string) (input : ThreadInput) : io disk TaskThread :=
  io_lift (threadInputValid input);;
  '(task, thread, updated) ← reading busy (λ d m,
    task ← mutable_task d m taskID;
    thread ← loadThreadLocked d task (if threadID =s "" then tk_ActiveThreadID task else threadID);
    updated ← update_thread task thread action input now;
    Ok (task, thread, updated));
  match updated with
  | None => mret thread
  | Some updated =>
      let '(task, thread) := updated_bundle now task updated in
      saveThreadBundleLocked task [thread];;
      mret thread
  end.

(** ** Management *)

Definition Delete (busy : bool) (id : string) : io disk Task :=
  m ← acquireStoreLock busy;
  d ← io_read (λ d, d);
  task ← io_lift (loadLocked d m id);
  io_catch (deleteManagedLocked m task) (λ _, io_fail "delete task");;
  mret task.

Definition ManageMetadata (busy : bool) (now now' : Time) (id : string) (change : MetadataChange) : io disk Task :=
  m ← acquireStoreLock busy;
  d ← io_read (λ d, d);
  task ← io_lift (loadLocked d m id);
  let metadata := default (mkTaskManagement
    (mkManagement (tk_Pinned task) (tk_Tags task) (tk_ArchivedAt task) (tk_TrashedAt task) (tk_PurgeAfter task)) "" false 0)
    (m !! id) in
  '(management, title) ← io_lift (ApplyManagement (tm_Management metadata) (tk_Title task) change now);
  let metadata := metadata <| tm_Management := management |> in
  let metadata := if mc_Action change =s "rename" then metadata <| tm_Title := title |> else metadata in
  let metadata := if (mc_Action change =s "archive") || (mc_Action change =s "unarchive")
    then metadata <| tm_ArchiveManaged := true |> else metadata in
  let m := <[id := metadata <| tm_UpdatedAt := now' |>]> m in
  saveManagementLocked m;;
  mret (applyManagementLocked m task).

Definition Archive (busy busy' : bool) (now now' : Time) (id : string) (archive : bool) : io disk Task :=
  task ← Get busy id;
  if tk_Status task ≠s StatusCompleted
  then io_fail "only completed tasks may be archived through the task lifecycle API"
  else ManageMetadata busy' now now' id (mkMetadataChange (if archive then "archive" else "unarchive") "" [] 0).

(** ** Lists of tasks *)

(** The names of the task files of the store's directory, in its order. *)
Definition entries (d : disk) : list string :=
  sort_by name_less (List.filter (λ name, HasPrefix name "tsk_") (map fst (map_to_list (td_tasks d)))).

(** A task file that reads and decodes, without its thread. *)
Definition read_task (d : disk) (name : string) : result Task :=
  found ← readTaskStateFile (td_tasks d !! name);
  match found with
  | None => Err "no such file"
  | Some task => decodeTask task
  end.

Definition later (a b : Task) : bool := tk_UpdatedAt b <? tk_UpdatedAt a.

(** The task that the entry contributes to a history, if any. *)
Definition history_item (d : disk) (m : gmap string taskManagement) (status : string) (includeArchived : bool) (name : string) :
    option Task :=
  match read_task d name with
  | Err _ => None
  | Ok task =>
      let task := applyManagementLocked m task in
      if not_nil (tk_TrashedAt task) || not_nil (tk_ArchivedAt task) && negb includeArchived then None
      else
        match attachThreadLocked d task with
        | Err _ => None
        | Ok task => if (status =s "") || (tk_Status task =s status) then Some task else None
        end
  end.

Definition history_tasks (d : disk) (m : gmap string taskManagement) (status : string) (limit : Z) (includeArchived : bool) : list Task :=
  let limit := if (limit <=? 0) || (200 <? limit) then 50 else limit in
  let tasks := omap (history_item d m status includeArchived) (entries d) in
  take (Z.to_nat limit) (sort_by later tasks).

Definition ListHistory (busy : bool) (status : string) (limit : Z) (includeArchived : bool) : io disk (list Task) :=
  reading busy (λ d m, Ok (history_tasks d m status limit includeArchived)).

Definition List_ (busy : bool) (status : string) (limit : Z) : io disk (list Task) := ListHistory busy status limit false.

Record TaskQuery : Type := mkTaskQuery {
  tq_View : string;
  tq_Status : string;
  tq_WorkspaceID : string;
  tq_Tag : string;
  tq_Search : string;
  tq_Offset : Z;
  tq_Limit : Z;
  tq_Selection : bool;
}.
#[export] Instance TaskQuery_eta : Eta TaskQuery := λ q,
  mkTaskQuery (tq_View q) (tq_Status q) (tq_WorkspaceID q) (tq_Tag q) (tq_Search q) (tq_Offset q) (tq_Limit q) (tq_Selection q).

Record ManagedTask : Type := mkManagedTask {
  mt_ID : string;
  mt_Title : string;
  mt_Status : string;
  mt_Outcome : string;
  mt_Project : string;
  mt_WorkspaceID : string;
  mt_CurrentStepID : string;
  mt_StepCount : Z;
  mt_CompletedSteps : Z;
  mt_Blocker : string;
  mt_Summary : string;
  mt_CreatedAt : Time;
  mt_UpdatedAt : Time;
  mt_Management : Management;
}.

Record ManagedTaskPage : Type := mkManagedTaskPage {
  mp_Tasks : list ManagedTask;
  mp_Total : Z;
  mp_HasMore : bool;
  mp_NextOffset : Z;
  mp_SelectedIDs : list string;
  mp_Warnings : list string;
}.

Definition shortIndexText (text : string) (limit : Z) : string := Text (SafeTruncateString text limit).

(** The filters of a query on a task. *)
Definition selects (query : TaskQuery) (task : Task) : bool :=
  let view :=
    if tq_View query =s "trash" then not_nil (tk_TrashedAt task)
    else if tq_View query =s "archived" then is_nil (tk_TrashedAt task) && not_nil (tk_ArchivedAt task)
    else if tq_View query =s "all" then true
    else is_nil (tk_TrashedAt task) && is_nil (tk_ArchivedAt task) in
  view
  && ((tq_Status query =s "") || (tk_Status task =s tq_Status query))
  && ((tq_WorkspaceID query =s "") || (tk_WorkspaceID task =s tq_WorkspaceID query))
  && ((tq_Tag query =s "") || one_of (tq_Tag query) (tk_Tags task))
  && ((tq_Search query =s "") ||
      Contains (ToLower (tk_Title task +:+ " " +:+ tk_Goal task +:+ " " +:+ tk_Project task +:+ " " +:+ String.concat " " (tk_Tags task)))
        (ToLower (tq_Search query))).

(** Pinned tasks first, then the latest, then by identifier. *)
Definition managed_less (a b : Task) : bool :=
  if xorb (tk_Pinned a) (tk_Pinned b) then tk_Pinned a
  else if tk_UpdatedAt a =? tk_UpdatedAt b then String.ltb (tk_ID a) (tk_ID b)
  else tk_UpdatedAt b <? tk_UpdatedAt a.

(** The scan of the directory: the tasks selected and the first eight warnings. *)
Fixpoint managed_scan (d : disk) (m : gmap string taskManagement) (query : TaskQuery) (names : list string)
    (candidates : list Task) (warnings : list string) : list Task * list string :=
  match names with
  | [] => (candidates, warnings)
  | name :: rest =>
      match readTaskStateFile (td_tasks d !! name) with
      | Ok (Some task) =>
          match decodeTask task with
          | Ok task =>
              let task := applyManagementLocked m task in
              managed_scan d m query rest (if selects query task then candidates ++ [task] else candidates) warnings
          | Err _ =>
              managed_scan d m query rest candidates
                (if (length warnings <? 8)%nat then warnings ++ ["无效任务：" +:+ name +:+ ".json"] else warnings)
          end
      | _ =>
          managed_scan d m query rest candidates
            (if (length warnings <? 8)%nat then warnings ++ ["无法读取任务：" +:+ name +:+ ".json"] else warnings)
      end
  end.

Definition managed_item (task : Task) : ManagedTask :=
  mkManagedTask (tk_ID task) (tk_Title task) (tk_Status task) (tk_Outcome task) (tk_Project task) (tk_WorkspaceID task)
    (match tk_ActiveThread task with Some thread => th_CurrentStepID thread | None => "" end)
    (Z.of_nat (length (tk_Steps task)))
    (Z.of_nat (length (List.filter (λ s, st_Status s =s StepCompleted) (tk_Steps task))))
    (tk_Blocker task) (shortIndexText (tk_Summary task) 768) (tk_CreatedAt task) (tk_UpdatedAt task)
    (mkManagement (tk_Pinned task) (tk_Tags task) (tk_ArchivedAt task) (tk_TrashedAt task) (tk_PurgeAfter task)).

(** The loop over a page of tasks. *)
Fixpoint page_loop (d : disk) (tasks : list Task) (warnings : list string) : list ManagedTask * list string :=
  match tasks with
  | [] => ([], warnings)
  | task :: rest =>
      let '(task, warnings) :=
        match attachThreadLocked d task with
        | Ok attached => (attached, warnings)
        | Err _ =>
            (task, if (length warnings <? 8)%nat then warnings ++ ["任务分支无法读取：" +:+ tk_ID task] else warnings)
        end in
      let '(items, warnings) := page_loop d rest warnings in
      (managed_item task :: items, warnings)
  end.

(** The tasks from [start] to [end], a Go slice. *)
Definition slice {A} (l : list A) (start end_ : Z) : list A := take (Z.to_nat (end_ - start)) (drop (Z.to_nat start) l).

Definition managed_page (d : disk) (m : gmap string taskManagement) (query : TaskQuery) : result ManagedTaskPage :=
  let '(candidates, warnings) := managed_scan d m query (entries d) [] [] in
  let candidates := sort_by managed_less candidates in
  let total := Z.of_nat (length candidates) in
  if tq_Selection query then
    reject (10000 <? total) "selection exceeds 10000 tasks; narrow the filter";;
    Ok (mkManagedTaskPage [] total false 0 (map tk_ID candidates) warnings)
  else
    let start := Z.min (tq_Offset query) total in
    let end_ := Z.min (start + tq_Limit query) total in
    let '(items, warnings) := page_loop d (slice candidates start end_) warnings in
    Ok (mkManagedTaskPage items total (end_ <? total) end_ [] warnings).

(** [cancelled i] says whether the context is cancelled when the i-th entry is
    reached. *)
Definition ManagedTasks (busy : bool) (cancelled : nat → bool) (query : TaskQuery) : io disk ManagedTaskPage :=
  if (tq_Offset query <? 0) || (20000 <? tq_Offset query) || (512 <? len (tq_Search query)) || (128 <? len (tq_Tag query))
  then io_fail "invalid task query"
  else if (tq_View query ≠s "") && negb (one_of (tq_View query) ["active"; "archived"; "trash"; "all"])
  then io_fail "invalid task view"
  else
    let query := if (tq_Limit query <=? 0) || (200 <? tq_Limit query) then query <| tq_Limit := 100 |> else query in
    reading busy (λ d m,
      reject (existsb cancelled (seq 0 (length (entries d)))) "context canceled";;
      managed_page d m query).

(** ** The index of open tasks *)

Definition MaxTaskIndexBytes : Z := Z.shiftl 16 10.
Definition MaxTaskIndexItems : nat := 8.

Record ThreadSummary : Type := mkThreadSummary {
  ths_ID : string;
  ths_Title : string;
  ths_Status : string;
  ths_CurrentStepID : string;
  ths_Summary : string;
  ths_NextAction : string;
  ths_WorkspaceID : string;
}.

Definition SummarizeThread (thread : option TaskThread) : option ThreadSummary :=
  thread ← thread;
  Some (mkThreadSummary (th_ID thread) (shortIndexText (th_Title thread) 160) (th_Status thread) (th_CurrentStepID thread)
    (shortIndexText (th_Summary thread) 768) (shortIndexText (th_NextAction thread) 512) (th_WorkspaceID thread)).

Record TaskIndexItem : Type := mkTaskIndexItem {
  xi_TaskID : string;
  xi_Title : string;
  xi_Status : string;
  xi_Project : string;
  xi_WorkspaceID : string;
  xi_ActiveThread : option ThreadSummary;
  xi_UpdatedAt : Time;
}.

Record TaskIndex : Type := mkTaskIndex {
  dx_ActiveCount : Z;
  dx_BlockedCount : Z;
  dx_ReturnedCount : Z;
  dx_Truncated : bool;
  dx_Items : list TaskIndexItem;
  dx_Warnings : list string;
}.
#[export] Instance TaskIndex_eta : Eta TaskIndex := λ i,
  mkTaskIndex (dx_ActiveCount i) (dx_BlockedCount i) (dx_ReturnedCount i) (dx_Truncated i) (dx_Items i) (dx_Warnings i).

Definition EmptyTaskIndex : TaskIndex := mkTaskIndex 0 0 0 false [] [].

Definition warn (message : string) (index : TaskIndex) : TaskIndex :=
  if (length (dx_Warnings index) <? 8)%nat
  then index <| dx_Warnings ::= (λ l, l ++ [shortIndexText message 256]) |> else index.

(** One entry of the scan: the counters and the eight latest tasks so far. *)
Definition discover_entry (d : disk) (m : gmap string taskManagement) (name : string) (index : TaskIndex) (candidates : list Task) :
    TaskIndex * list Task :=
  match readTaskStateFile (td_tasks d !! name) with
  | Ok (Some task) =>
      match decodeTask task with
      | Err _ => (warn ("Invalid task " +:+ name +:+ ".json") index, candidates)
      | Ok task =>
          let task := applyManagementLocked m task in
          let kept := take MaxTaskIndexItems (sort_by later (candidates ++ [task])) in
          if not_nil (tk_TrashedAt task) || not_nil (tk_ArchivedAt task) then (index, candidates)
          else if tk_Status task =s StatusActive then (index <| dx_ActiveCount ::= (λ n, n + 1) |>, kept)
          else if tk_Status task =s StatusBlocked then (index <| dx_BlockedCount ::= (λ n, n + 1) |>, kept)
          else (index, candidates)
      end
  | _ => (warn ("Could not read " +:+ name +:+ ".json") index, candidates)
  end.

Fixpoint discover_scan (d : disk) (m : gmap string taskManagement) (cancelled : nat → bool) (i : nat) (names : list string)
    (index : TaskIndex) (candidates : list Task) : TaskIndex * list Task :=
  match names with
  | [] => (index, candidates)
  | name :: rest =>
      if cancelled i then (warn "Task index scan stopped: context canceled" (index <| dx_Truncated := true |>), candidates)
      else
        let '(index, candidates) := discover_entry d m name index candidates in
        discover_scan d m cancelled (S i) rest index candidates
  end.

Definition index_item (task : Task) : TaskIndexItem :=
  let workspaceID := match tk_ActiveThread task with
    | Some thread => if th_WorkspaceID thread ≠s "" then th_WorkspaceID thread else tk_WorkspaceID task
    | None => tk_WorkspaceID task
    end in
  mkTaskIndexItem (tk_ID task) (shortIndexText (tk_Title task) 256) (tk_Status task) (shortIndexText (tk_Project task) 128)
    workspaceID (SummarizeThread (tk_ActiveThread task)) (tk_UpdatedAt task).

Fixpoint discover_items (d : disk) (candidates : list Task) (index : TaskIndex) : TaskIndex :=
  match candidates with
  | [] => index
  | candidate :: rest =>
      discover_items d rest
        match attachThreadLocked d candidate with
        | Ok task => index <| dx_Items ::= (λ l, l ++ [index_item task]) |>
        | Err _ => warn ("Could not restore active thread of " +:+ tk_ID candidate) index
        end
  end.

(** The loop that drops items until the encoded index fits; [n] items are left. *)
Fixpoint discover_trim (index_len : TaskIndex → Z) (n : nat) (index : TaskIndex) : result TaskIndex :=
  let items := take n (dx_Items index) in
  let returned := Z.of_nat (length items) in
  let index := index <| dx_Items := items |> <| dx_ReturnedCount := returned |>
    <| dx_Truncated := dx_Truncated index || (returned <? dx_ActiveCount index + dx_BlockedCount index) |> in
  if index_len index <=? MaxTaskIndexBytes then Ok index
  else match n with
    | O => Err "task index metadata exceeds output bound"
    | S n' => discover_trim index_len n' index
    end.

Definition discover_index (index_len : TaskIndex → Z) (cancelled : nat → bool) (d : disk) (m : gmap string taskManagement) :
    result TaskIndex :=
  let '(index, candidates) := discover_scan d m cancelled 0 (entries d) EmptyTaskIndex [] in
  let index := discover_items d candidates index in
  discover_trim index_len (length (dx_Items index)) index.

Definition Discover (index_len : TaskIndex → Z) (busy : bool) (cancelled : nat → bool) : io disk TaskIndex :=
  reading busy (discover_index index_len cancelled).

(** ** Completion notifications *)

Definition CompletionNotificationAge : Z := 300 * Second.

Record CompletionNotification : Type := mkCompletionNotification {
  cn_ID : string;
  cn_TaskID : string;
  cn_Title : string;
  cn_ConversationID : string;
  cn_ThreadID : string;
  cn_WorkspaceID : string;
  cn_CompletedAt : Time;
}.

Definition earlier (a b : CompletionNotification) : bool :=
  if cn_CompletedAt a =? cn_CompletedAt b then String.ltb (cn_ID a) (cn_ID b) else cn_CompletedAt a <? cn_CompletedAt b.

(** The notification of a task that completed since [cutoff]. *)
Definition completion_of (task : Task) (cutoff now : Time) : option CompletionNotification :=
  match tk_CompletedAt task, tk_Completion task with
  | Some at_, Some completion =>
      if (tk_Status task ≠s StatusCompleted) || (tk_Outcome task ≠s "success") || not_nil (tk_CancelledAt task)
         || not_nil (tk_TrashedAt task) || (tc_ID completion =s "")
      then None
      else if (at_ <? cutoff) || (now <? at_) then None
      else Some (mkCompletionNotification (tc_ID completion) (tk_ID task) (tk_Title task) (tc_ConversationID completion)
        (tc_ThreadID completion) (tk_WorkspaceID task) at_)
  | _, _ => None
  end.

(** One entry of the scan; [recent] says whether the entry is a file that was
    modified recently enough to be looked at. *)
Definition claim_entry (d : disk) (m : gmap string taskManagement) (recent : string → bool) (claimed : gmap string Time)
    (cutoff now : Time) (limit : Z) (candidates : list CompletionNotification) (name : string) : list CompletionNotification :=
  if negb (recent name) then candidates
  else
    match read_task d name with
    | Err _ => candidates
    | Ok task =>
        match completion_of (applyManagementLocked m task) cutoff now with
        | None => candidates
        | Some item =>
            if not_nil (claimed !! cn_ID item) then candidates
            else take (Z.to_nat limit) (sort_by earlier (candidates ++ [item]))
        end
    end.

Definition decode_claims (found : option notificationClaims) : result (gmap string Time) :=
  match found with
  | None => Ok ∅
  | Some claims =>
      match nc_Claimed claims with
      | None => Err "invalid notification claims; original preserved"
      | Some claimed =>
          reject (negb (nc_SchemaVersion claims =? 1) || (8192 <? Z.of_nat (size claimed)))
            "invalid notification claims; original preserved";;
          Ok claimed
      end
  end.

(** The claims that are kept, and the new ones. *)
Definition next_claims (claimed : gmap string Time) (candidates : list CompletionNotification) (cutoff now : Time) :
    gmap string Time :=
  foldl (λ c item, <[cn_ID item := now]> c) (filter (λ p, cutoff - CompletionNotificationAge <= p.2) claimed) candidates.

Definition ClaimCompletionNotifications (busy : bool) (cancelled : nat → bool) (recent : string → bool) (limit : Z) (now : Time) :
    io disk (list CompletionNotification) :=
  if (limit <? 1) || (3 <? limit) then io_fail "notification limit must be 1–3"
  else if cancelled 0%nat then io_fail "context canceled"
  else
    '(claimed, candidates) ← reading busy (λ d m,
      found ← readTaskStateFile (td_claims d);
      claimed ← decode_claims found;
      reject (existsb cancelled (seq 1 (length (entries d)))) "context canceled";;
      let cutoff := now - CompletionNotificationAge in
      Ok (claimed, foldl (claim_entry d m recent claimed cutoff now limit) [] (entries d)));
    if is_empty candidates then mret []
    else
      let cutoff := now - CompletionNotificationAge in
      let kept := filter (λ p : string * Time, cutoff - CompletionNotificationAge <= p.2) claimed in
      if 8192 <? Z.of_nat (size kept + length candidates) then io_fail "notification claim capacity exceeded"
      else
        let claimed := next_claims claimed candidates cutoff now in
        io_write (put_claims (claims_file claimed));;
        mret candidates.
End Store.
