(* ===== verification/TaskSample.v ===== *)
(** * TaskSample: one task of its own for the witnesses (internal/taskstate)

    A task with two steps that is created, worked on, reviewed and completed,
    over encodings of fixed lengths. *)

From S2P Require Import Prelude GoText Durable Metadata TaskState TaskStore.
Local Open Scope Z_scope.

Definition sample_case : UnicodeCase := λ n, n.
Definition sample_sizes : Encoding := mkEncoding (λ _, 100) (λ _, 100) (λ _, 100) (λ _, 100) (λ _, 100).
(** Tasks whose indented encoding is larger than the compact one. *)
Definition large_sizes : Encoding :=
  mkEncoding (λ _, maxTaskStateFileBytes) (λ _, 100) (λ _, maxTaskStateFileBytes) (λ _, 100) (λ _, 100).

Definition sample_raw : list ascii := ["001"; "002"; "003"; "004"; "005"; "006"; "007"; "008"]%char.
Definition sample_id : string := "tsk_0102030405060708".

Definition sample_steps : list TaskStepInput := [mkTaskStepInput "a" "A" ""; mkTaskStepInput "b" "B" "verify"].
Definition sample_conditions : list string := ["all tests pass"; "All Tests pass"; "docs"].
Definition sample_review : FinalReviewInput := mkFinalReviewInput "PASS" "good" ["f"] [] [].

Definition empty_disk : disk := mkDisk ∅ ∅ None None None None.

Definition sample_task : Task :=
  match @create_task sample_case sample_raw "T" "goal" "" "" sample_conditions sample_steps [] [] 1000 with
  | Ok task => task
  | Err _ => mkTask None false [] None None "" "" None "" "" None None 0 "" "" "" "" "" "" "" [] None [] [] [] "" "" [] [] [] []
      None 0 0 None
  end.

Lemma sample_task_id : tk_ID sample_task = sample_id.
Proof. by vm_compute. Qed.
