(* ===== verification/TaskLog.v ===== *)
(** * TaskLog: the write-ahead record and the deletion log (internal/taskstate)

    A bundle of a task and its threads is written to a record first and to its
    files after it; a deletion is logged first and done after it.  What the
    store holds is therefore its _view_: the files, with the pending record and
    the pending deletion applied.  The record and the log are the only commit
    points: every other write, removal and recovery leaves the view as it is,
    whatever fails. *)

From S2P Require Import Prelude GoText Durable Metadata TaskState TaskStore TaskSample.
Local Open Scope Z_scope.

Record view : Type := mkView {
  v_tasks : gmap string (file Task);
  v_threads : gmap (string * string) (file TaskThread);
}.

Section Log.
Context `{UnicodeCase} `{Encoding}.

(** ** The view *)

Definition written (taskID : string) (threads : list TaskThread) : gmap (string * string) (file TaskThread) :=
  list_to_map (rev (map (λ t, ((taskID, th_ID t), thread_file t)) threads)).

#[global] Arguments written : simpl never.

Definition redo (tx : threadTransaction) (v : view) : view :=
  let id := tk_ID (tx_Task tx) in
  mkView (<[id := task_file (stored_task (tx_Task tx))]> (v_tasks v)) (written id (tx_Threads tx) ∪ v_threads v).

Definition erase (id : string) (v : view) : view :=
  mkView (delete id (v_tasks v)) (filter (λ p, p.1.1 ≠ id) (v_threads v)).

Definition pending (d : disk) : option threadTransaction := td_transaction d ≫= f_content.
Definition doomed (d : disk) : option string := md_TaskID <$> (td_delete d ≫= f_content).

Definition files (d : disk) : view := mkView (td_tasks d) (td_threads d).
Definition redone (d : disk) : view := match pending d with Some tx => redo tx (files d) | None => files d end.
Definition view_of (d : disk) : view := match doomed d with Some id => erase id (redone d) | None => redone d end.

Definition clean (d : disk) : Prop := td_transaction d = None ∧ td_delete d = None.

Lemma view_clean d : clean d → view_of d = files d.
Proof. intros [E1 E2]. unfold view_of, doomed, redone, pending. by rewrite E1, E2. Qed.

(** ** Redoing and erasing *)

Implicit Types (taskID : string) (threads : list TaskThread) (t : TaskThread).

Lemma written_app_insert taskID threads t (m : gmap (string * string) (file TaskThread)) :
  written taskID (threads ++ [t]) ∪ m = <[(taskID, th_ID t) := thread_file t]> (written taskID threads ∪ m).
Proof.
  unfold written. rewrite map_app, rev_app_distr. cbn. by rewrite insert_union_l.
Qed.

Lemma written_cons taskID t threads (m : gmap (string * string) (file TaskThread)) :
  written taskID (t :: threads) ∪ m = written taskID threads ∪ <[(taskID, th_ID t) := thread_file t]> m.
Proof.
  revert m. induction threads as [|t' threads IH] using rev_ind; intros m.
  - unfold written. cbn. by rewrite <- insert_union_l, !(left_id_L ∅ (∪)).
  - rewrite app_comm_cons, !written_app_insert. by rewrite IH.
Qed.

Lemma written_covers taskID threads t (m : gmap (string * string) (file TaskThread)) f :
  t ∈ threads → written taskID threads ∪ <[(taskID, th_ID t) := f]> m = written taskID threads ∪ m.
Proof.
  intros Ht. apply map_eq. intros k. rewrite !lookup_union.
  destruct (decide (k = (taskID, th_ID t))) as [->|Hne]; [|by rewrite lookup_insert_ne].
  assert (is_Some (written taskID threads !! (taskID, th_ID t))) as [x ->].
  { apply not_eq_None_Some. intros E. unfold written in E. apply not_elem_of_list_to_map in E. apply E.
    apply list_elem_of_In, in_map_iff. exists ((taskID, th_ID t), thread_file t). split; [done|].
    apply in_rev. rewrite rev_involutive. by apply (in_map (λ t, ((taskID, th_ID t), thread_file t))), list_elem_of_In. }
  rewrite lookup_insert_eq. by destruct (m !! _).
Qed.

Lemma redo_put_thread tx v t f :
  t ∈ tx_Threads tx →
  redo tx (mkView (v_tasks v) (<[(tk_ID (tx_Task tx), th_ID t) := f]> (v_threads v))) = redo tx v.
Proof. intros Ht. unfold redo. cbn. by rewrite written_covers. Qed.

Lemma redo_put_task tx v f :
  redo tx (mkView (<[tk_ID (tx_Task tx) := f]> (v_tasks v)) (v_threads v)) = redo tx v.
Proof. unfold redo. cbn. by rewrite insert_insert_eq. Qed.

Lemma redo_idem tx v : redo tx (redo tx v) = redo tx v.
Proof.
  unfold redo. cbn. rewrite insert_insert_eq. f_equal.
  apply map_eq. intros k. rewrite !lookup_union. by destruct (written _ _ !! k), (v_threads v !! k).
Qed.

Lemma erase_idem id v : erase id (erase id v) = erase id v.
Proof.
  unfold erase. cbn. rewrite delete_delete_eq. f_equal. rewrite map_filter_filter_l; [done|by intros].
Qed.

(** ** Loops of writes *)

Lemma threadPath_Ok taskID name path : threadPath taskID name = Ok path → path = (taskID, name).
Proof. intros E. apply bind_Ok in E as (? & _ & E). apply bind_Ok in E as (? & _ & E). by injection E. Qed.

Section Invariant.
Variable J : view → option (file notificationClaims) → Prop.
Definition safe (d : disk) : Prop := J (view_of d) (td_claims d).

Lemma safe_same d d' : view_of d' = view_of d → td_claims d' = td_claims d → safe d → safe d'.
Proof. unfold safe. by intros -> ->. Qed.

(** The bundle being applied: its record is still there. *)
Definition applying (f : file threadTransaction) (d : disk) : Prop := td_transaction d = Some f.

Lemma view_applying f tx d d' :
  applying f d → f_content f = Some tx →
  td_transaction d' = td_transaction d → td_delete d' = td_delete d → redo tx (files d') = redo tx (files d) →
  view_of d' = view_of d.
Proof.
  intros Hf Hc Et Ed Er. unfold view_of, doomed, redone, pending. rewrite Et, Ed, Hf. cbn. rewrite Hc. cbn. by rewrite Er.
Qed.

Lemma write_threads_spec f tx threads d0 :
  f_content f = Some tx → (∀ t, t ∈ threads → t ∈ tx_Threads tx) →
  spec safe (λ d, applying f d ∧ td_delete d = td_delete d0 ∧
        mkView (v_tasks (files d)) (written (tk_ID (tx_Task tx)) threads ∪ v_threads (files d)) = files d0)
    (write_threads (tk_ID (tx_Task tx)) threads)
    (λ _ d, applying f d ∧ td_delete d = td_delete d0 ∧ files d = files d0).
Proof.
  intros Hc. induction threads as [|t threads IH]; intros Hin; cbn [write_threads].
  - apply spec_ret. intros d _ (? & ? & <-). split_and!; [done..|]. unfold written. cbn.
    by rewrite (left_id_L ∅ (∪)).
  - eapply spec_bind with (R := λ path d, path = (tk_ID (tx_Task tx), th_ID t) ∧ applying f d ∧ td_delete d = td_delete d0 ∧
        mkView (v_tasks (files d)) (written (tk_ID (tx_Task tx)) (t :: threads) ∪ v_threads (files d)) = files d0).
    { apply spec_lift. intros path d E _ HP. split; [by eapply threadPath_Ok|done]. }
    intros path. eapply spec_bind; [|intros ?; apply IH; intros; apply Hin; by right].
    apply spec_write. intros d Hs (-> & Hf & Hd & Hv). split.
    + apply (safe_same d); [|done|exact Hs]. eapply view_applying; [done..|].
      apply (redo_put_thread tx (files d)). apply Hin. by left.
    + split_and!; [done..|]. rewrite <- Hv. unfold files. f_equal. symmetry. apply written_cons.
Qed.

Lemma saveTaskOnly_spec f tx d0 :
  f_content f = Some tx →
  spec safe (λ d, applying f d ∧ td_delete d = td_delete d0 ∧ files d = files d0)
    (saveTaskOnlyLocked (tx_Task tx))
    (λ _ d, applying f d ∧ td_delete d = td_delete d0 ∧
       files d = mkView (<[tk_ID (tx_Task tx) := task_file (stored_task (tx_Task tx))]> (v_tasks (files d0))) (v_threads (files d0))).
Proof.
  intros Hc. unfold saveTaskOnlyLocked.
  eapply spec_bind with (R := λ _ d, applying f d ∧ td_delete d = td_delete d0 ∧ files d = files d0).
  { apply spec_lift. by intros. }
  intros ?. apply spec_if; intros _; [apply spec_fail|]. apply spec_write. intros d Hs (Hf & Hd & Hv). split.
  - apply (safe_same d); [|done|exact Hs]. eapply view_applying; [done..|]. apply (redo_put_task tx (files d)).
  - split_and!; [done..|]. by rewrite <- Hv.
Qed.

(** Applying a bundle leaves the view alone, and ends with its files written. *)
Lemma apply_spec f tx d0 :
  f_content f = Some tx →
  spec safe (λ d, applying f d ∧ td_delete d = td_delete d0 ∧ files d = files d0)
    (applyThreadTransactionLocked tx)
    (λ _ d, applying f d ∧ td_delete d = td_delete d0 ∧ files d = redo tx (files d0)).
Proof.
  intros Hc. unfold applyThreadTransactionLocked.
  set (Q := λ d, applying f d ∧ td_delete d = td_delete d0 ∧ files d = files d0).
  eapply spec_bind with (R := λ _, Q); [by apply spec_lift|intros ?].
  eapply spec_bind with (R := λ _, Q); [apply spec_if; intros _; [apply spec_fail|by apply spec_ret]|intros ?].
  eapply spec_bind with (R := λ _, Q); [by apply spec_lift|intros ?].
  set (d1 := d0 <| td_threads ::= (λ m, written (tk_ID (tx_Task tx)) (tx_Threads tx) ∪ m) |>).
  eapply spec_bind.
  { eapply spec_weaken; [apply (write_threads_spec f tx (tx_Threads tx) d1); [done|by intros]| |by intros ?? _ ?].
    intros d _ (? & ? & Hv). split_and!; [done..|]. by rewrite Hv. }
  intros ?. eapply spec_weaken; [apply (saveTaskOnly_spec f tx d1 Hc)|by intros ? _ ?|].
  intros ? d _ (? & ? & ->). done.
Qed.

(** Removing the record of a bundle whose files are written. *)
Lemma remove_transaction_spec f tx d0 (P : disk → Prop) :
  f_content f = Some tx →
  (∀ d, P d → applying f d ∧ td_delete d = td_delete d0 ∧ files d = redo tx (files d0)) →
  spec safe P (io_write (put_transaction None))
    (λ _ d, td_transaction d = None ∧ td_delete d = td_delete d0 ∧ files d = redo tx (files d0)).
Proof.
  intros Hc HP. apply spec_write. intros d Hs HPd. destruct (HP d HPd) as (Hf & Hd & Hv). split; [|done].
  apply (safe_same d); [|done|exact Hs]. unfold view_of, doomed, redone, pending. cbn. rewrite Hf. cbn. rewrite Hc. cbn.
  replace (files (put_transaction None d)) with (files d) by done. by rewrite Hv, redo_idem.
Qed.

Lemma spec_pre {A} (P : disk → Prop) (m : io disk A) (Q : A → disk → Prop) :
  (∀ d0, P d0 → spec safe (λ d, d = d0) m Q) → spec safe P m Q.
Proof. intros Hm d fs Hs HP. by apply (Hm d HP d fs). Qed.

Lemma recover_transaction_spec :
  spec safe (λ _, True) recoverThreadTransactionLocked (λ _ d, td_transaction d = None).
Proof.
  apply spec_pre. intros d0 _. unfold recoverThreadTransactionLocked.
  eapply spec_bind with (R := λ f d, d = d0 ∧ f = td_transaction d0); [apply spec_read; by intros d _ ->|].
  intros f. eapply spec_bind with (R := λ found d, d = d0 ∧ readTaskStateFile (td_transaction d0) = Ok found).
  { apply spec_lift. intros found d E _ [-> ->]. done. }
  intros [tx|].
  - apply spec_if; intros _; [apply spec_fail|]. apply spec_pre. intros d [-> E].
    destruct (td_transaction d0) as [f'|] eqn:Ef; [|discriminate]. cbn in E. destruct (_ <? _); [discriminate|].
    destruct (f_content f') as [tx'|] eqn:Hc; [|discriminate]. injection E as ->.
    eapply spec_bind; [eapply spec_weaken; [apply (apply_spec f' tx d0 Hc)| |]; [by intros d _ ->|by intros ? d _ HQ; exact HQ]|].
    intros ?. eapply spec_weaken; [apply (remove_transaction_spec f' tx d0 _ Hc)|by intros ? _ HQ; exact HQ|].
    + by intros.
    + by intros ? d _ (? & _).
  - apply spec_ret. intros d _ [-> E]. destruct (td_transaction d0); [|done]. cbn in E.
    destruct (_ <? _); [discriminate|]. by destruct (f_content _).
Qed.

(** ** Committing a bundle *)

Lemma bundle_spec task threads (P : disk → Prop) :
  let tx := mkTransaction (task <| tk_ActiveThread := None |>) threads in
  (∀ d, safe d → P d → clean d ∧ (is_ok (validate_threads (tk_ID task) threads) = true → J (redo tx (files d)) (td_claims d))) →
  spec safe P (saveThreadBundleLocked task threads)
    (λ _ d, clean d ∧ ∃ d0, P d0 ∧ files d = redo tx (files d0)).
Proof.
  intros tx HP. apply spec_pre. intros d0 HP0. unfold saveThreadBundleLocked.
  eapply spec_bind with (R := λ _ d, d = d0); [by apply spec_lift|intros ?].
  eapply spec_bind with (R := λ _ d, d = d0); [apply spec_if; intros _; [apply spec_fail|by apply spec_ret]|intros ?].
  eapply spec_bind with (R := λ _ d, d = d0 ∧ is_ok (validate_threads (tk_ID task) threads) = true).
  { apply spec_lift. intros [] d E _ ->. by rewrite E. }
  intros ?. fold tx. apply spec_if; intros _; [apply spec_fail|].
  eapply spec_bind with (R := λ _ d, applying (transaction_file tx) d ∧ clean d0 ∧ td_delete d = td_delete d0 ∧ files d = files d0).
  { apply spec_write. intros d Hs [-> Hv]. destruct (HP d0 Hs HP0) as [[E1 E2] HJ]. split; [|done].
    unfold safe, view_of, doomed. cbn. rewrite E2. cbn. unfold redone, pending. cbn. by apply HJ. }
  intros ?. eapply spec_bind with (R := λ _ d, clean d0 ∧ applying (transaction_file tx) d ∧ td_delete d = td_delete d0 ∧ files d = redo tx (files d0)).
  { apply spec_pre. intros d1 (Hf & Hclean & Hd & Hv).
    eapply spec_weaken; [apply (apply_spec (transaction_file tx) tx d0 eq_refl)|by intros d _ ->|].
    by intros ? d _ (? & ? & ?). }
  intros ?. apply spec_pre. intros d1 (Hclean & Hrest).
  eapply spec_weaken; [apply (remove_transaction_spec (transaction_file tx) tx d0 (λ d, d = d1) eq_refl)|by intros d _ ->|].
  - by intros d ->.
  - intros ? d _ (? & Hd & Hv). split; [split; [done|rewrite Hd; apply Hclean]|]. by exists d0.
Qed.

(** ** Management and deletion *)

Lemma management_write_spec m (P : disk → Prop) :
  spec safe P (saveManagementLocked m) (λ _ d, ∃ d0, P d0 ∧ d = put_management (management_file m) d0).
Proof.
  unfold saveManagementLocked. apply spec_if; intros _; [apply spec_fail|].
  apply spec_write. intros d Hs HP. split; [exact Hs|by exists d].
Qed.

(** The threads of other tasks. *)
Definition others (id : string) (d : disk) : gmap (string * string) (file TaskThread) := filter (λ p, p.1.1 ≠ id) (td_threads d).

(** A deletion under way: its log is there and other tasks are untouched. *)
Definition deleting (id : string) (d0 d : disk) : Prop :=
  td_transaction d = None ∧ td_delete d = td_delete d0 ∧ doomed d = Some id ∧
  delete id (td_tasks d) = delete id (td_tasks d0) ∧ others id d = others id d0.

Lemma deleting_refl id d : td_transaction d = None → doomed d = Some id → deleting id d d.
Proof. done. Qed.

Lemma deleting_view id d0 d : deleting id d0 d → view_of d = erase id (files d0).
Proof.
  intros (Ht & _ & Hid & E1 & E2). unfold view_of, redone, pending. rewrite Hid, Ht. cbn.
  unfold erase, others in *. cbn. by rewrite E1, E2.
Qed.

(** A write that stays within a deletion is safe. *)
Lemma deleting_write_spec id d0 f (P P' : disk → Prop) :
  (∀ d, td_claims (f d) = td_claims d) → (∀ d, deleting id d0 d → deleting id d0 (f d)) →
  (∀ d, deleting id d0 d → P d → P' (f d)) →
  spec safe (λ d, deleting id d0 d ∧ P d) (io_write f) (λ _ d, deleting id d0 d ∧ P' d).
Proof.
  intros Hc Hd HP. apply spec_write. intros d Hs [Hdel HPd]. split; [|split; auto].
  apply (safe_same d); [|apply Hc|done]. by rewrite !(deleting_view id d0) by auto.
Qed.

Lemma deleting_remove_task id d0 d : deleting id d0 d → deleting id d0 (remove_task id d).
Proof. intros (? & ? & ? & ? & ?). split_and!; cbn; [done..| |done]. by rewrite delete_delete_eq. Qed.

Lemma deleting_remove_thread id d0 d name : deleting id d0 d → deleting id d0 (remove_thread (id, name) d).
Proof.
  intros (? & ? & ? & ? & E). split_and!; cbn; [done..|]. rewrite <- E. unfold others. cbn. rewrite map_filter_delete.
  apply delete_id. apply map_lookup_filter_None. right. cbn. by intros ? _ [].
Qed.

Definition only_names (id : string) (names : list string) (d : disk) : Prop :=
  ∀ name, is_Some (td_threads d !! (id, name)) → name ∈ names.

Lemma remove_threads_spec id names d0 :
  spec safe (λ d, deleting id d0 d ∧ only_names id names d ∧ td_tasks d !! id = None) (remove_threads id names)
    (λ _ d, deleting id d0 d ∧ only_names id [] d ∧ td_tasks d !! id = None).
Proof.
  induction names as [|name names IH]; cbn [remove_threads]; [by apply spec_ret|].
  eapply spec_bind; [|intros ?; apply IH]. apply deleting_write_spec; [done|intros d; apply deleting_remove_thread|].
  intros d _ [Ho Ht]. split; [|done]. intros n [f Hf]. cbn in Hf. apply lookup_delete_Some in Hf as [Hne Hf].
  specialize (Ho n (mk_is_Some _ _ Hf)). apply elem_of_cons in Ho as [->|?]; [|done]. by destruct Hne.
Qed.

Lemma thread_names_all d id : only_names id (thread_names d id) d.
Proof.
  intros name [f Hf]. unfold thread_names. rewrite sort_by_perm. apply list_elem_of_In.
  apply in_map_iff. exists (id, name). split; [done|]. apply filter_In. split; [|apply String.eqb_refl].
  apply in_map_iff. exists ((id, name), f). split; [done|]. by apply list_elem_of_In, elem_of_map_to_list.
Qed.

Lemma deleting_done id d0 d :
  deleting id d0 d → only_names id [] d → td_tasks d !! id = None → files d = erase id (files d0).
Proof.
  intros (_ & _ & _ & E1 & E2) Ho Ht. unfold files, erase. cbn. rewrite <- E1. fold (others id d0). rewrite <- E2.
  unfold others. f_equal.
  - by rewrite delete_id.
  - symmetry. apply map_filter_id. intros [i n] f Hf. cbn. intros ->. specialize (Ho n (mk_is_Some _ _ Hf)).
    by apply not_elem_of_nil in Ho.
Qed.

Lemma apply_delete_spec m id d0 :
  td_transaction d0 = None → doomed d0 = Some id →
  spec safe (λ d, d = d0) (applyDeleteLocked m id)
    (λ m' d, deleting id d0 d ∧ files d = erase id (files d0)).
Proof.
  intros Ht Hid. unfold applyDeleteLocked.
  eapply spec_bind with (R := λ d' d, d = d0 ∧ d' = d0); [by apply spec_read; intros d _ ->|]. intros d'.
  eapply spec_bind with (R := λ names d, d = d0 ∧ names = thread_names d0 id).
  { apply spec_lift. intros names d E _ [-> ->]. split; [done|]. unfold deletePathsLocked in E. ok_inv E. done. }
  intros names.
  eapply spec_bind with (R := λ _ d, deleting id d0 d ∧ only_names id names d ∧ td_tasks d !! id = None).
  { eapply spec_weaken with (P := λ d, deleting id d0 d ∧ only_names id names d); [apply (deleting_write_spec id d0 _ _ (λ d, only_names id names d ∧ td_tasks d !! id = None))| |by intros ? d _ HQ].
    - done.
    - intros d. apply deleting_remove_task.
    - intros d _ Ho. split; [exact Ho|]. cbn. apply lookup_delete_eq.
    - intros d _ [-> ->]. split; [by apply deleting_refl|apply thread_names_all]. }
  intros ?. eapply spec_bind; [apply remove_threads_spec|]. intros ?.
  eapply spec_bind with (R := λ _ d, deleting id d0 d ∧ only_names id [] d ∧ td_tasks d !! id = None).
  { apply spec_if; intros _; [by apply spec_ret|]. by apply deleting_write_spec. }
  intros ?. eapply spec_bind; [apply management_write_spec|]. intros ?. apply spec_ret.
  intros d _ (d1 & (Hdel & Ho & Hn) & ->). split; [exact Hdel|]. by apply (deleting_done id d0 d1).
Qed.

(** Removing the log of a deletion that is done. *)
Lemma remove_delete_spec id d0 (P : disk → Prop) :
  (∀ d, P d → deleting id d0 d ∧ files d = erase id (files d0)) →
  spec safe P (io_write (put_delete None)) (λ _ d, clean d ∧ files d = erase id (files d0)).
Proof.
  intros HP. apply spec_write. intros d Hs HPd. destruct (HP d HPd) as [Hdel Hf].
  assert (clean (put_delete None d)) as Hclean by (split; [apply Hdel|done]).
  split; [|by split]. apply (safe_same d); [|done|done]. rewrite (view_clean _ Hclean), (deleting_view _ _ _ Hdel). exact Hf.
Qed.

Lemma recover_delete_spec m d0 :
  spec safe (λ d, d = d0 ∧ td_transaction d = None) (recoverManagementDeleteLocked m) (λ _ d, clean d).
Proof.
  unfold recoverManagementDeleteLocked.
  eapply spec_bind with (R := λ f d, d = d0 ∧ td_transaction d = None ∧ f = td_delete d0).
  { apply spec_read. by intros d _ [-> ?]. }
  intros f. eapply spec_bind with (R := λ found d, d = d0 ∧ td_transaction d = None ∧ readTaskStateFile (td_delete d0) = Ok found).
  { apply spec_lift. by intros found d E _ (-> & ? & ->). }
  intros [tx|].
  - apply spec_pre. intros d (-> & Ht & E).
    assert (doomed d0 = Some (md_TaskID tx)) as Hid.
    { unfold doomed. destruct (td_delete d0) as [f'|]; [|discriminate]. cbn in E |- *. destruct (_ <? _); [discriminate|].
      destruct (f_content f'); [|discriminate]. by injection E as ->. }
    eapply spec_bind; [apply (apply_delete_spec m _ d0 Ht Hid)|]. intros m'.
    eapply spec_bind; [apply (remove_delete_spec (md_TaskID tx) d0 _ (λ d HQ, HQ))|]. intros ?. apply spec_ret. by intros d _ [? _].
  - apply spec_ret. intros d _ (-> & ? & E). split; [done|]. destruct (td_delete d0); [|done]. cbn in E.
    destruct (_ <? _); [discriminate|]. by destruct (f_content _).
Qed.

Lemma load_management_spec (P : disk → Prop) : spec safe P loadManagementLocked (λ _, P).
Proof.
  unfold loadManagementLocked. eapply spec_bind with (R := λ _, P); [by apply spec_read|]. intros ?. by apply spec_lift.
Qed.

(** Taking the lock recovers the store and leaves the view alone. *)
Lemma acquire_spec busy : spec safe (λ _, True) (acquireStoreLock busy) (λ _ d, clean d).
Proof.
  unfold acquireStoreLock. apply spec_if; intros _; [apply spec_fail|].
  eapply spec_bind; [apply recover_transaction_spec|]. intros ?.
  eapply spec_bind; [apply load_management_spec|]. intros m. apply spec_pre. intros d Hd.
  eapply spec_weaken; [apply (recover_delete_spec m d)|by intros d' _ ->|by intros].
Qed.

Lemma delete_managed_spec m task (P : disk → Prop) :
  (∀ d, safe d → P d → clean d ∧ (tk_TrashedAt task ≠ None → J (erase (tk_ID task) (files d)) (td_claims d))) →
  spec safe P (deleteManagedLocked m task) (λ _ d, clean d ∧ ∃ d0, P d0 ∧ tk_TrashedAt task ≠ None ∧ files d = erase (tk_ID task) (files d0)).
Proof.
  intros HP. apply spec_pre. intros d0 HP0. unfold deleteManagedLocked. apply spec_if; intros Htr; [apply spec_fail|].
  assert (tk_TrashedAt task ≠ None) as Htr' by (intros E; by rewrite E in Htr).
  eapply spec_bind with (R := λ _ d, d = d0); [by apply spec_read|]. intros ?.
  eapply spec_bind with (R := λ _ d, d = d0); [by apply spec_lift|]. intros ?.
  eapply spec_bind with (R := λ _ d, clean d0 ∧ td_transaction d = None ∧ doomed d = Some (tk_ID task) ∧ files d = files d0).
  { apply spec_write. intros d Hs ->. destruct (HP d0 Hs HP0) as [[E1 E2] HJ]. split; [|done].
    unfold safe, view_of, redone, pending. cbn. rewrite E1. cbn. by apply HJ. }
  intros ?. apply spec_pre. intros d1 (Hclean & Ht & Hid & Hf).
  eapply spec_bind; [apply (apply_delete_spec m _ d1 Ht Hid)|]. intros m'.
  eapply spec_weaken; [apply (remove_delete_spec (tk_ID task) d1 _ (λ d HQ, HQ))|by intros|].
  intros ? d _ [? E]. split; [done|]. exists d0. by rewrite <- Hf.
Qed.
End Invariant.

(** ** The record itself *)

(** A bundle that passed the checks of saveThreadBundleLocked. *)
Definition checked (tx : threadTransaction) : Prop :=
  validateID (tk_ID (tx_Task tx)) = Ok tt ∧ tk_SchemaVersion (tx_Task tx) = SchemaVersion ∧
  validate_threads (tk_ID (tx_Task tx)) (tx_Threads tx) = Ok tt ∧
  Z.of_nat (length (tx_Threads tx)) <= maxTaskThreads ∧ transaction_len tx <= maxTaskStateFileBytes.

Definition fits (tx : threadTransaction) : Prop := task_len (stored_task (tx_Task tx)) + 1 <= maxTaskStateFileBytes.

Definition recorded (tx : threadTransaction) (d : disk) : Prop := td_transaction d = Some (transaction_file tx).

Section Record_.
Variable I : disk → Prop.
Hypothesis I_thread : ∀ d k f, I d → I (put_thread k f d).
Hypothesis I_task : ∀ d k f, I d → I (put_task k f d).

Lemma write_threads_keeps P taskID threads : (∀ d k f, P d → P (put_thread k f d)) → spec I P (write_threads taskID threads) (λ _, P).
Proof.
  intros HP. induction threads as [|t threads IH]; cbn [write_threads]; [by apply spec_ret|].
  eapply spec_bind with (R := λ _, P); [by apply spec_lift|]. intros path.
  eapply spec_bind; [|intros ?; apply IH]. apply spec_write. auto.
Qed.

(** Nothing is delivered where the task does not fit. *)
Lemma apply_keeps tx : spec I (λ _, True) (applyThreadTransactionLocked tx) (λ _ _, fits tx).
Proof.
  unfold applyThreadTransactionLocked.
  eapply spec_bind with (R := λ _ _, True); [by apply spec_lift|intros ?].
  eapply spec_bind with (R := λ _ _, True); [apply spec_if; intros _; [apply spec_fail|by apply spec_ret]|intros ?].
  eapply spec_bind with (R := λ _ _, True); [by apply spec_lift|intros ?].
  eapply spec_bind; [by apply write_threads_keeps|intros ?]. unfold saveTaskOnlyLocked.
  eapply spec_bind with (R := λ _ _, True); [by apply spec_lift|intros ?].
  apply spec_if; intros Hf; [apply spec_fail|]. apply Z.ltb_ge in Hf. apply spec_write. auto.
Qed.
End Record_.

Definition unrecorded (tx : threadTransaction) (d : disk) : Prop := td_transaction d = None ∨ recorded tx d ∧ checked tx.

Lemma bundle_records task threads d l :
  let tx := mkTransaction (task <| tk_ActiveThread := None |>) threads in
  td_transaction d = None → tk_SchemaVersion task = SchemaVersion →
  unrecorded tx (run_disk (saveThreadBundleLocked task threads d l)).
Proof.
  intros tx Ht Hs. unfold saveThreadBundleLocked. fold tx.
  assert (∀ A (m : io disk A) (P : disk → Prop) Q, spec (unrecorded tx) P m Q → P d → unrecorded tx (run_disk (m d l))) as Hrun.
  { intros A m P Q Hm HP. apply Hm; [by left|done]. }
  eapply (Hrun _ _ (λ _, True) (λ _ _, True)); [|done].
  eapply spec_bind with (R := λ u _, validateID (tk_ID task) = Ok u); [by apply spec_lift|intros [] ].
  eapply spec_bind with (R := λ _ _, validateID (tk_ID task) = Ok tt ∧ Z.of_nat (length threads) <= maxTaskThreads).
  { apply spec_if; intros E; [apply spec_fail|]. apply Z.ltb_ge in E. by apply spec_ret. }
  intros ?. eapply spec_bind with (R := λ u _, validateID (tk_ID task) = Ok tt ∧ Z.of_nat (length threads) <= maxTaskThreads ∧
    validate_threads (tk_ID task) threads = Ok u).
  { apply spec_lift. by intros u d' E _ []. }
  intros []. apply spec_if; intros El; [apply spec_fail|]. apply Z.ltb_ge in El.
  eapply spec_bind with (R := λ _ _, True).
  { apply spec_write. intros d' _ (? & ? & ?). split; [|done]. right. split; [done|]. by split_and!. }
  intros ?. eapply spec_bind; [apply apply_keeps; intros; exact H1|intros ?].
  apply spec_write. intros d' _ _. split; [by left|done].
Qed.

Lemma write_threads_clean taskID threads d :
  validate_threads taskID threads = Ok tt → ∃ d', write_threads taskID threads d [] = mkRun (Done tt) d' [].
Proof.
  revert d. induction threads as [|t threads IH]; intros d E; cbn [write_threads validate_threads] in *; [by exists d|].
  apply bind_Ok in E as (? & _ & E). apply bind_Ok in E as (path & Ep & E).
  destruct (IH (put_thread path (thread_file t) d) E) as (d' & Hd'). exists d'.
  rewrite Ep. exact Hd'.
Qed.

Lemma apply_runs tx d :
  checked tx → fits tx → ∃ d', applyThreadTransactionLocked tx d [] = mkRun (Done tt) d' [].
Proof.
  intros (Hid & Hschema & Hv & _ & _) Hf. unfold applyThreadTransactionLocked.
  destruct (write_threads_clean (tk_ID (tx_Task tx)) (tx_Threads tx) d Hv) as (d1 & Hw).
  exists (put_task (tk_ID (tx_Task tx)) (task_file (stored_task (tx_Task tx))) d1).
  rewrite Hid, Hschema, Z.eqb_refl, Hv. do 3 (erewrite io_bind_Done; [|reflexivity]).
  erewrite io_bind_Done; [|exact Hw]. unfold saveTaskOnlyLocked. rewrite Hid. erewrite io_bind_Done; [|reflexivity].
  cbv zeta. by rewrite (proj2 (Z.ltb_ge _ _) Hf).
Qed.

Lemma recover_reads tx d l :
  recorded tx d → checked tx →
  recoverThreadTransactionLocked d l = (applyThreadTransactionLocked tx ≫= λ _, io_write (put_transaction None)) d l.
Proof.
  intros Hr (_ & _ & _ & Hn & Hl). unfold recoverThreadTransactionLocked. erewrite io_bind_Done; [|reflexivity].
  rewrite Hr. unfold readTaskStateFile, transaction_file. cbn [f_size f_content]. rewrite (proj2 (Z.ltb_ge _ _) Hl).
  erewrite io_bind_Done; [|reflexivity]. cbv iota. by rewrite (proj2 (Z.ltb_ge _ _) Hn).
Qed.

Lemma recover_runs tx d :
  recorded tx d → checked tx → fits tx →
  ∃ d', recoverThreadTransactionLocked d [] = mkRun (Done tt) d' [] ∧ td_transaction d' = None.
Proof.
  intros Hr Hch Hf. rewrite (recover_reads tx d [] Hr Hch). destruct (apply_runs tx d Hch Hf) as (d' & Hd').
  exists (put_transaction None d'). split; [|done]. by rewrite (io_bind_Done _ _ _ _ _ _ _ Hd').
Qed.

(** ** Atomicity of a bundle *)

(** C3: a task and its threads change together.  Whatever error or crash the
    saving of a bundle meets, the store holds the old files or the whole
    bundle; a save that is reported done has all of it in the files.  Taking
    the lock later recovers the store, under errors and crashes of its own,
    without changing what it holds, and leaves nothing pending; and as long as
    the task's file is within the size limit, a recovery that meets no error
    succeeds. *)
Theorem bundle_atomic task threads d l :
  clean d → tk_SchemaVersion task = SchemaVersion →
  let tx := mkTransaction (task <| tk_ActiveThread := None |>) threads in
  let r := saveThreadBundleLocked task threads d l in
  (view_of (run_disk r) = files d ∨ view_of (run_disk r) = redo tx (files d)) ∧
  (ran r = true → clean (run_disk r) ∧ files (run_disk r) = redo tx (files d)) ∧
  (∀ busy d' l', view_of (run_disk (acquireStoreLock busy d' l')) = view_of d' ∧
     (ran (acquireStoreLock busy d' l') = true → clean (run_disk (acquireStoreLock busy d' l')))) ∧
  (fits tx → ran (recoverThreadTransactionLocked (run_disk r) []) = true).
Proof.
  intros Hclean Hs tx r. split_and!.
  - destruct (bundle_spec (λ v _, v = files d ∨ v = redo tx (files d)) task threads (λ d', d' = d)) with (d := d) (fs := l) as [HJ _].
    + intros d' _ ->. split; [done|]. by right.
    + left. by apply view_clean.
    + done.
    + exact HJ.
  - intros Hran. destruct (bundle_spec (λ _ _, True) task threads (λ d', d' = d)) with (d := d) (fs := l) as [_ HQ]; [|done..|].
    { by intros d' _ ->. }
    apply ran_Done in Hran as ([] & Hran). destruct (HQ tt) as (Hc & d0 & -> & Hf); [|by split].
    fold r. by rewrite Hran.
  - intros busy d' l'. destruct (acquire_spec (λ v _, v = view_of d') busy d' l') as [HJ HQ]; [done..|].
    split; [exact HJ|]. intros Hran. apply ran_Done in Hran as (m & Hran). apply (HQ m). by rewrite Hran.
  - intros Hfits. destruct (bundle_records task threads d l) as [Hn|[Hr Hch]]; [apply Hclean|done| |].
    + fold r in Hn. unfold recoverThreadTransactionLocked. erewrite io_bind_Done; [|reflexivity]. by rewrite Hn.
    + fold r in Hr. destruct (recover_runs tx _ Hr Hch Hfits) as (d' & -> & _). done.
Qed.

(** C25: a bundle whose record is within the size limit but whose task file,
    which is indented, is not, poisons the store: saving it fails with the
    record left behind, and from then on no operation ever gets the lock. *)
Theorem oversized_task_poisons_store task threads d :
  clean d →
  let tx := mkTransaction (task <| tk_ActiveThread := None |>) threads in
  checked tx → ¬ fits tx →
  recorded tx (run_disk (saveThreadBundleLocked task threads d [])) ∧
  ran (saveThreadBundleLocked task threads d []) = false ∧
  ∀ busy d' l', recorded tx d' →
    ran (acquireStoreLock busy d' l') = false ∧ recorded tx (run_disk (acquireStoreLock busy d' l')).
Proof.
  intros [Ht Hd] tx Hch Hf.
  assert (∀ d' l', recorded tx d' → ran (applyThreadTransactionLocked tx d' l') = false ∧
    recorded tx (run_disk (applyThreadTransactionLocked tx d' l'))) as Happly.
  { intros d' l' Hr. destruct (apply_keeps (recorded tx) (λ _ _ _ H, H) (λ _ _ _ H, H) tx d' l') as [HI HQ]; [done..|].
    split; [|done]. unfold ran. destruct (run_outcome _) as [a| |] eqn:E; [|done..]. by destruct (Hf (HQ a eq_refl)). }
  assert (∀ A (k : unit → io disk A) d' l', recorded tx d' → ran ((applyThreadTransactionLocked tx ≫= k) d' l') = false ∧
    recorded tx (run_disk ((applyThreadTransactionLocked tx ≫= k) d' l'))) as Hbind.
  { intros A k d' l' Hr. destruct (Happly d' l' Hr) as [H1 H2]. unfold mbind, io_bind, ran in *.
    destruct (applyThreadTransactionLocked tx d' l') as [[a|e|] d1 l1]; cbn in *; [discriminate|by split..]. }
  pose proof Hch as (Hid & Hschema & Hv & Hn & Hl).
  assert (saveThreadBundleLocked task threads d [] =
    (applyThreadTransactionLocked tx ≫= λ _, io_write (put_transaction None)) (put_transaction (Some (transaction_file tx)) d) []) as Esave.
  { unfold saveThreadBundleLocked. cbn in Hid, Hv, Hn. rewrite Hid, Hv. fold tx.
    erewrite io_bind_Done; [|reflexivity]. rewrite (proj2 (Z.ltb_ge _ _) Hn). erewrite io_bind_Done; [|reflexivity].
    erewrite io_bind_Done; [|reflexivity]. by rewrite (proj2 (Z.ltb_ge _ _) Hl). }
  rewrite Esave. destruct (Hbind _ (λ _, io_write (put_transaction None)) (put_transaction (Some (transaction_file tx)) d) []) as [H1 H2]; [done|].
  split_and!; [done..|]. intros busy d' l' Hr. unfold acquireStoreLock. destruct busy; [done|].
  pose proof (recover_reads tx d' l' Hr Hch) as Erec.
  destruct (Hbind _ (λ _, io_write (put_transaction None)) d' l' Hr) as [H3 H4]. rewrite <- Erec in H3, H4.
  unfold mbind, io_bind, ran in *. destruct (recoverThreadTransactionLocked d' l') as [[a|e|] d1 l1]; cbn in *; [discriminate|by split..].
Qed.
End Log.

(** ** Witnesses *)

Lemma bundle_atomic_witness :
  let tx := mkTransaction (sample_task <| tk_ActiveThread := None |>) [saved_thread sample_task] in
  files (run_disk (@saveThreadBundleLocked sample_sizes sample_task [saved_thread sample_task] empty_disk [])) =
    @redo sample_sizes tx (files empty_disk).
Proof.
  intros tx.
  refine (proj2 (proj1 (proj2 (@bundle_atomic sample_sizes sample_task [saved_thread sample_task] empty_disk [] _ _)) _));
    by vm_compute.
Defined.

Lemma oversized_task_poisons_store_witness :
  ran (@saveThreadBundleLocked large_sizes sample_task [saved_thread sample_task] empty_disk []) = false.
Proof.
  refine (proj1 (proj2 (@oversized_task_poisons_store large_sizes sample_task [saved_thread sample_task] empty_disk _ _ _)));
    [by vm_compute|by vm_compute; split_and!|by vm_compute; intros []].
Defined.
