(* ===== verification/TaskSpec.v ===== *)
(** * TaskSpec: what a transition of a task promises (internal/taskstate)

    The well-formedness of tasks and threads, the order in which they may
    change, and the proof that the body of every transition respects both:
    steps only move forward and at most one is in progress, a passed review
    and a completion are final, and only a reviewed task with all its steps
    completed can be completed with success. *)

From S2P Require Import Prelude GoText TaskState.
Local Open Scope Z_scope.

(** ** Steps *)

Definition status_le (s s' : string) : Prop := validStepTransition s s' = true.

Lemma status_le_cases s s' :
  status_le s s' ↔ s = s' ∨ s = StepPending ∧ (s' = StepInProgress ∨ s' = StepCompleted) ∨ s = StepInProgress ∧ s' = StepCompleted.
Proof.
  unfold status_le, validStepTransition. destruct (String.eqb_spec s s') as [->|Hne]; [by split; [left|]|].
  destruct (String.eqb_spec s StepPending) as [->|Hp].
  - rewrite orb_true_iff, !String.eqb_eq. split; [by right; left|]. intros [?|[[_ ?]|[? _]]]; [done..|]. discriminate.
  - destruct (String.eqb_spec s StepInProgress) as [->|Hi].
    + rewrite String.eqb_eq. split; [by right; right|]. by intros [?|[[? _]|[_ ?]]].
    + split; [done|]. by intros [?|[[? _]|[? _]]].
Qed.

#[export] Instance status_le_preorder : PreOrder status_le.
Proof.
  split.
  - intros s. apply status_le_cases. by left.
  - intros s1 s2 s3 H1%status_le_cases H2%status_le_cases. apply status_le_cases.
    destruct H1 as [->|[[-> [->| ->]]|[-> ->]]]; [done|..].
    + destruct H2 as [<-|[[H _]|[_ ->]]]; [by right; left; split; [|left]|discriminate|by right; left; split; [|right]].
    + destruct H2 as [<-|[[H _]|[H _]]]; [by right; left; split; [|right]|discriminate..].
    + destruct H2 as [<-|[[H _]|[H _]]]; [by right; right|discriminate..].
Qed.

Record step_after (s s' : TaskStep) : Prop := {
  sa_id : st_ID s' = st_ID s;
  sa_title : st_Title s' = st_Title s;
  sa_phase : st_Phase s' = st_Phase s;
  sa_status : status_le (st_Status s) (st_Status s');
}.
#[export] Instance step_after_preorder : PreOrder step_after.
Proof.
  split; [done|]. intros s1 s2 s3 [] []. split; [by etrans..|]. by etrans.
Qed.

Definition steps_after : list TaskStep → list TaskStep → Prop := Forall2 step_after.
Implicit Types (steps : list TaskStep) (status : string) (now : Time) (i : nat).

#[export] Instance steps_after_preorder : PreOrder steps_after.
Proof. unfold steps_after. apply _. Qed.

Lemma set_step_after status now s : status_le (st_Status s) status → step_after s (set_step status now s).
Proof. done. Qed.

Definition step_statuses : list string := [StepPending; StepInProgress; StepCompleted].

Definition running (s : TaskStep) : Prop := st_Status s = StepInProgress.

(** At most one step is in progress. *)
Definition one_running (steps : list TaskStep) : Prop :=
  ∀ i j s s', steps !! i = Some s → steps !! j = Some s' → running s → running s' → i = j.

Record steps_ok (steps : list TaskStep) : Prop := {
  so_ids : NoDup (map st_ID steps);
  so_known : ∀ s, s ∈ steps → st_Status s ∈ step_statuses;
  so_running : one_running steps;
}.

Lemma steps_ok_nil : steps_ok [].
Proof. split; [constructor|by intros s ?%not_elem_of_nil|]. intros i j s s' Hi. by rewrite lookup_nil in Hi. Qed.

Lemma steps_after_ids steps steps' : steps_after steps steps' → map st_ID steps' = map st_ID steps.
Proof. induction 1 as [|s s' l l' [E] _ IH]; cbn; [done|]. by rewrite E, IH. Qed.

Lemma alter_after status now i steps :
  status_le (step_status steps i) status → steps_after steps (alter (set_step status now) i steps).
Proof.
  revert i. induction steps as [|s steps IH]; intros i Hs; [constructor|]. destruct i as [|i]; cbn in *.
  - constructor; [by apply set_step_after|reflexivity].
  - constructor; [reflexivity|by apply IH].
Qed.

Lemma alter_known status now i steps :
  status ∈ step_statuses → (∀ s, s ∈ steps → st_Status s ∈ step_statuses) →
  ∀ s, s ∈ alter (set_step status now) i steps → st_Status s ∈ step_statuses.
Proof.
  intros Hst Hs s (j & Hj)%list_elem_of_lookup. destruct (decide (i = j)) as [<-|Hne].
  - rewrite list_lookup_alter_eq in Hj. apply fmap_Some in Hj as (x & _ & ->). exact Hst.
  - rewrite list_lookup_alter_ne in Hj by done. eapply Hs, list_elem_of_lookup_2, Hj.
Qed.

(** Ending a step leaves no more steps in progress; starting one needs that no
    other is. *)
Lemma alter_running status now i steps :
  one_running steps →
  (status = StepInProgress → ∀ j s, j ≠ i → steps !! j = Some s → ¬ running s) →
  one_running (alter (set_step status now) i steps).
Proof.
  intros Hone Hothers j k s s' Hj Hk Hs Hs'.
  assert (∀ j s, alter (set_step status now) i steps !! j = Some s → running s → j ≠ i →
    steps !! j = Some s) as Hold.
  { intros j0 s0 H0 _ Hne. by rewrite list_lookup_alter_ne in H0. }
  assert (∀ j s, alter (set_step status now) i steps !! j = Some s → running s → j = i → status = StepInProgress) as Hnew.
  { intros j0 s0 H0 Hr ->. rewrite list_lookup_alter_eq in H0. apply fmap_Some in H0 as (x & _ & ->). exact Hr. }
  destruct (decide (j = i)) as [Eji|Hji], (decide (k = i)) as [Eki|Hki]; [by subst|..].
  - destruct (Hothers (Hnew j s Hj Hs Eji) k s'); [done|by apply Hold|done].
  - destruct (Hothers (Hnew k s' Hk Hs' Eki) j s); [done|by apply Hold|done].
  - by eapply Hone; [apply Hold..| |].
Qed.

Lemma alter_ids status now i steps : map st_ID (alter (set_step status now) i steps) = map st_ID steps.
Proof. revert i. induction steps as [|s steps IH]; intros [|i]; cbn; [done..|]. by rewrite IH. Qed.

Lemma alter_steps_ok status now i steps :
  steps_ok steps → status ∈ step_statuses →
  (status = StepInProgress → ∀ j s, j ≠ i → steps !! j = Some s → ¬ running s) →
  steps_ok (alter (set_step status now) i steps).
Proof.
  intros [Hids Hk Hr] Hst Ho. split; [by rewrite alter_ids|by apply alter_known|by apply alter_running].
Qed.

Lemma in_progress_known : StepInProgress ∈ step_statuses.
Proof. right. left. Qed.
Lemma completed_known : StepCompleted ∈ step_statuses.
Proof. right. right. left. Qed.
Lemma completed_not_running : StepCompleted ≠ StepInProgress.
Proof. discriminate. Qed.

(** ** Indexes of steps *)

Lemma step_indexes_app steps s :
  step_indexes (steps ++ [s]) = <[st_ID s := length steps]> (step_indexes steps).
Proof. unfold step_indexes. rewrite imap_app, foldl_app. cbn. by rewrite Nat.add_0_r. Qed.

Lemma step_indexes_Some steps id i :
  step_indexes steps !! id = Some i → ∃ s, steps !! i = Some s ∧ st_ID s = id.
Proof.
  induction steps as [|s steps IH] using rev_ind; [done|]. rewrite step_indexes_app.
  intros [[<- <-]|[Hne Hi]]%lookup_insert_Some.
  - exists s. by rewrite lookup_app_r, Nat.sub_diag by lia.
  - destruct (IH Hi) as (s' & Hs' & Hid). exists s'. by rewrite lookup_app_l by (by eapply lookup_lt_Some).
Qed.

(** The steps other than the one at [i] that [existsb] looks at. *)
Lemma existsb_delete {A} (f : A → bool) i l :
  existsb f (delete i l) = false → ∀ j x, j ≠ i → l !! j = Some x → f x = false.
Proof.
  intros Hf j x Hne Hj. destruct (f x) eqn:E; [|done]. rewrite <- Hf. symmetry. apply existsb_exists. exists x. split; [|done].
  apply list_elem_of_In, list_elem_of_lookup. destruct (decide (j < i)%nat).
  - exists j. by rewrite list_lookup_delete_lt.
  - exists (pred j). rewrite list_lookup_delete_ge by lia. by replace (S (pred j)) with j by lia.
Qed.

(** ** The two checkpoints *)

Lemma complete_all_after steps0 indexes ids now steps :
  (∀ id, id ∈ ids → validStepTransition (step_status steps0 (default 0%nat (indexes !! id))) StepCompleted = true) →
  steps_after steps0 steps → steps_ok steps →
  steps_after steps0 (complete_all indexes ids now steps) ∧ steps_ok (complete_all indexes ids now steps).
Proof.
  unfold complete_all. revert steps. induction ids as [|id ids IH]; intros steps Hids Ha Hok; cbn; [by split|].
  set (i := default 0%nat (indexes !! id)).
  assert (status_le (step_status steps i) StepCompleted) as Hle.
  { specialize (Hids id (list_elem_of_here _ _)). fold i in Hids. fold (status_le (step_status steps0 i) StepCompleted) in Hids.
    unfold step_status in *. destruct (steps !! i) as [s|] eqn:Es; cbn.
    - destruct (Forall2_lookup_r _ _ _ _ _ Ha Es) as (s0 & Hs0 & [_ _ _ Hst]).
      rewrite Hs0 in Hids. cbn in Hids. apply status_le_cases in Hids, Hst. apply status_le_cases.
      destruct Hids as [E|[[E _]|[E _]]]; rewrite E in Hst; naive_solver.
    - apply Forall2_length in Ha. apply lookup_ge_None in Es. rewrite <- Ha in Es. apply lookup_ge_None in Es.
      rewrite Es in Hids. exact Hids. }
  apply IH; [by intros; apply Hids; right|..].
  - etrans; [exact Ha|]. by apply alter_after.
  - apply alter_steps_ok; [done|apply completed_known|]. discriminate.
Qed.

Lemma complete_all_other indexes ids now steps j :
  (∀ id, id ∈ ids → default 0%nat (indexes !! id) ≠ j) → complete_all indexes ids now steps !! j = steps !! j.
Proof.
  unfold complete_all. revert steps. induction ids as [|id ids IH]; intros steps Hne; cbn; [done|].
  rewrite IH by (intros; apply Hne; by right). apply list_lookup_alter_ne, Hne. left.
Qed.

Lemma complete_all_done indexes ids now steps j s :
  (∃ s0, steps !! j = Some s0 ∧ st_Status s0 = StepCompleted) ∨ (∃ id, id ∈ ids ∧ default 0%nat (indexes !! id) = j) →
  complete_all indexes ids now steps !! j = Some s → st_Status s = StepCompleted.
Proof.
  unfold complete_all. revert steps. induction ids as [|id ids IH]; intros steps Hd Hj; cbn in Hj.
  - destruct Hd as [(s0 & Hs0 & E)|(id & []%not_elem_of_nil & _)]. rewrite Hs0 in Hj. by injection Hj as <-.
  - eapply IH; [|exact Hj]. destruct Hd as [(s0 & Hs0 & E)|(id' & [->|Hin]%elem_of_cons & E)].
    + left. destruct (decide (default 0%nat (indexes !! id) = j)) as [<-|Hne].
      * rewrite list_lookup_alter_eq, Hs0. by eexists.
      * rewrite list_lookup_alter_ne by done. by exists s0.
    + destruct (steps !! j) as [s0|] eqn:Hs0.
      * left. rewrite <- E in Hs0 |- *. rewrite list_lookup_alter_eq, Hs0. by eexists.
      * exfalso. assert (∀ l, length (foldl (λ steps id, alter (set_step StepCompleted now) (default 0%nat (indexes !! id)) steps) l ids) = length l) as Hlen.
        { clear. induction ids as [|x ids IH]; intros l; cbn; [done|]. by rewrite IH, length_alter. }
        apply lookup_lt_Some in Hj. rewrite Hlen, length_alter in Hj. apply lookup_ge_None in Hs0. lia.
    + right. by exists id'.
Qed.

Lemma step_ids_unique steps i j s s' :
  NoDup (map st_ID steps) → steps !! i = Some s → steps !! j = Some s' → st_ID s = st_ID s' → i = j.
Proof.
  intros Hnd Hi Hj E. eapply NoDup_lookup; [exact Hnd|..].
  - change (map st_ID steps) with (st_ID <$> steps). rewrite list_lookup_fmap, Hi. reflexivity.
  - change (map st_ID steps) with (st_ID <$> steps). rewrite list_lookup_fmap, Hj. cbn. by rewrite E.
Qed.

Lemma one_of_In s l : one_of s l = true ↔ s ∈ l.
Proof.
  unfold one_of. rewrite existsb_exists. split.
  - intros (x & Hx & ->%String.eqb_eq). by apply list_elem_of_In.
  - intros Hs. exists s. split; [by apply list_elem_of_In|apply String.eqb_refl].
Qed.

Lemma check_completed_Ok steps indexes ids u :
  check_completed steps indexes ids = Ok u →
  ∀ id, id ∈ ids → ∃ i, indexes !! id = Some i ∧ validStepTransition (step_status steps i) StepCompleted = true.
Proof.
  induction ids as [|id ids IH]; intros E id' Hid; [by apply not_elem_of_nil in Hid|]. cbn in E.
  destruct (indexes !! id) as [i|] eqn:Hi; [|discriminate]. apply reject_bind_Ok in E as [Hv%negb_false_iff E].
  apply elem_of_cons in Hid as [->|Hid]; [by exists i|by apply IH].
Qed.

Record current_ok steps (completed : list string) (current : string) i : Prop := {
  cu_named : current ≠ "";
  cu_not_completed : current ∉ completed;
  cu_index : step_indexes steps !! current = Some i;
  cu_start : validStepTransition (step_status steps i) StepInProgress = true;
  cu_others : ∀ j s, j ≠ i → steps !! j = Some s → running s → st_ID s ∈ completed;
}.

Lemma check_current_Ok steps completed current o :
  check_current steps (step_indexes steps) completed current = Ok o →
  match o with None => current = "" | Some i => current_ok steps completed current i end.
Proof.
  unfold check_current. destruct (String.eqb_spec current "") as [->|Hnamed]; [by intros [= <-]|].
  intros E. apply reject_bind_Ok in E as [Hc E]. destruct (step_indexes steps !! current) as [i|] eqn:Hi; [|discriminate].
  apply reject_bind_Ok in E as [Hv%negb_false_iff E]. apply reject_bind_Ok in E as [Ho E]. injection E as <-. split; [done| |done..|].
  - intros Hin. apply one_of_In in Hin. by rewrite Hin in Hc.
  - intros j s Hne Hj Hr. specialize (existsb_delete _ _ _ Ho j s Hne Hj). unfold running in Hr. cbv beta. rewrite Hr. rewrite String.eqb_refl. cbn [andb].
    intros Hn%negb_false_iff. by apply one_of_In.
Qed.

(** The steps that a batch of completions and a new current step leave. *)
Lemma batch_steps steps0 completed current i now :
  steps_ok steps0 →
  (∀ id, id ∈ completed → ∃ j, step_indexes steps0 !! id = Some j ∧ validStepTransition (step_status steps0 j) StepCompleted = true) →
  current_ok steps0 completed current i →
  let steps := alter (set_step StepInProgress now) i (complete_all (step_indexes steps0) completed now steps0) in
  steps_ok steps ∧ steps_after steps0 steps.
Proof.
  intros Hok Hcomp [_ Hnot Hidx Hstart Hothers].
  assert (∀ id, id ∈ completed → validStepTransition (step_status steps0 (default 0%nat (step_indexes steps0 !! id))) StepCompleted = true) as Hcomp'.
  { intros id Hid. by destruct (Hcomp id Hid) as (j & -> & ?). }
  destruct (complete_all_after steps0 (step_indexes steps0) completed now steps0 Hcomp') as [Ha Hok']; [reflexivity|done|].
  set (steps1 := complete_all _ _ _ _) in *. destruct (step_indexes_Some _ _ _ Hidx) as (si & Hsi & Hid).
  assert (steps1 !! i = steps0 !! i) as Hi.
  { apply complete_all_other. intros id Hin. destruct (Hcomp id Hin) as (j & Hj & _). rewrite Hj. cbn. intros ->.
    destruct (step_indexes_Some _ _ _ Hj) as (s & Hs & Hs'). rewrite Hsi in Hs. injection Hs as <-.
    apply Hnot. by rewrite <- Hid, Hs'. }
  split.
  - apply alter_steps_ok; [done|apply in_progress_known|]. intros _ j s Hne Hj Hr.
    destruct (Forall2_lookup_r _ _ _ _ _ Ha Hj) as (s0 & Hs0 & [Hsid _ _ Hst]).
    unfold running in Hr. rewrite Hr in Hst. apply status_le_cases in Hst.
    destruct (decide (running s0)) as [Hr0|Hn].
    + specialize (Hothers j s0 Hne Hs0 Hr0). destruct (Hcomp _ Hothers) as (j' & Hj' & _).
      destruct (step_indexes_Some _ _ _ Hj') as (s0' & Hs0' & E).
      assert (j' = j) as -> by (eapply step_ids_unique; [apply Hok|done..]).
      assert (st_Status s = StepCompleted) as E'.
      { apply (complete_all_done (step_indexes steps0) completed now steps0 j s); [|done]. right. exists (st_ID s0).
        split; [done|]. by rewrite Hj'. }
      by rewrite Hr in E'.
    + assert (steps1 !! j = steps0 !! j ∨ st_Status s = StepCompleted) as [E|E].
      { destruct (decide (st_ID s0 ∈ completed)) as [Hin|Hnin].
        - right. destruct (Hcomp _ Hin) as (j' & Hj' & _). destruct (step_indexes_Some _ _ _ Hj') as (s0' & Hs0' & E).
          assert (j' = j) as -> by (eapply step_ids_unique; [apply Hok|done..]).
          eapply complete_all_done; [|exact Hj]. right. exists (st_ID s0). split; [done|]. by rewrite Hj'.
        - left. apply complete_all_other. intros id Hin. destruct (Hcomp id Hin) as (j' & Hj' & _). rewrite Hj'. cbn. intros ->.
          destruct (step_indexes_Some _ _ _ Hj') as (s0' & Hs0' & E). rewrite Hs0 in Hs0'. injection Hs0' as <-. by rewrite E in Hnin. }
      * rewrite Hj, Hs0 in E. injection E as ->. done.
      * by rewrite Hr in E.
  - etrans; [exact Ha|]. apply alter_after. unfold step_status in *. by rewrite Hi.
Qed.

(** ** Tasks and threads *)

Definition all_completed steps : Prop := ∀ s, s ∈ steps → st_Status s = StepCompleted.

Definition passed (t : Task) : Prop := ∃ r, tk_FinalReview t = Some r ∧ fr_Status r = FinalReviewPass.

(** What closes a task: a passed review of a task whose steps are all completed,
    or a cancellation. *)
Definition succeeded (t : Task) : Prop :=
  tk_Outcome t = "success" ∧ passed t ∧ tk_CancelledAt t = None ∧
  ∃ c at_, tk_Completion t = Some c ∧ tk_CompletedAt t = Some at_.
Definition cancelled_ (t : Task) : Prop :=
  tk_Outcome t = "cancelled" ∧ tk_CancelReason t ≠ "" ∧ tk_Completion t = None ∧
  ∃ at_, tk_CancelledAt t = Some at_ ∧ tk_CompletedAt t = Some at_.

Record task_ok (id : string) (t : Task) : Prop := {
  ok_id : tk_ID t = id;
  ok_valid : validateID id = Ok tt;
  ok_schema : tk_SchemaVersion t = SchemaVersion;
  ok_status : tk_Status t ∈ [StatusActive; StatusBlocked; StatusCompleted];
  ok_steps : steps_ok (tk_Steps t);
  ok_events : Z.of_nat (length (tk_Events t)) <= maxTaskEvents ∧
    ∀ e, e ∈ tk_Events t → len (ev_Summary e) <= maxTaskEventSummaryBytes;
  ok_passed : ∀ r, tk_FinalReview t = Some r → fr_Status r = FinalReviewPass →
    fr_VerifiedFacts r ≠ [] ∧ all_completed (tk_Steps t) ∧ tk_Phase t = PhaseCloseout;
  ok_unfinished : tk_Status t ≠ StatusCompleted →
    tk_Completion t = None ∧ tk_CompletedAt t = None ∧ tk_CancelledAt t = None;
  ok_finished : tk_Status t = StatusCompleted → succeeded t ∨ cancelled_ t;
}.

(** What never changes once a task has passed its review, or has ended. *)
Record task_after (t t' : Task) : Prop := {
  ta_id : tk_ID t' = tk_ID t;
  ta_request : tk_Goal t' = tk_Goal t ∧ tk_Project t' = tk_Project t ∧ tk_Device t' = tk_Device t ∧
    tk_Conditions t' = tk_Conditions t ∧ tk_SourceTemplates t' = tk_SourceTemplates t ∧ tk_CreatedAt t' = tk_CreatedAt t;
  ta_passed : passed t →
    tk_FinalReview t' = tk_FinalReview t ∧ tk_Steps t' = tk_Steps t ∧ tk_ActiveThreadID t' = tk_ActiveThreadID t;
  ta_finished : tk_Status t = StatusCompleted →
    tk_Status t' = StatusCompleted ∧ tk_Outcome t' = tk_Outcome t ∧ tk_CancelReason t' = tk_CancelReason t ∧
    tk_Completion t' = tk_Completion t ∧ tk_CompletedAt t' = tk_CompletedAt t ∧ tk_CancelledAt t' = tk_CancelledAt t ∧
    tk_FinalReview t' = tk_FinalReview t ∧ tk_Steps t' = tk_Steps t ∧ tk_ActiveThreadID t' = tk_ActiveThreadID t;
}.

Lemma task_after_refl t : task_after t t.
Proof. split; try intros ?; split_and?; done. Qed.

Lemma passed_eq t t' : tk_FinalReview t' = tk_FinalReview t → passed t → passed t'.
Proof. unfold passed. by intros ->. Qed.

Lemma task_after_trans t1 t2 t3 : task_after t1 t2 → task_after t2 t3 → task_after t1 t3.
Proof.
  intros [E1 (A1 & A2 & A3 & A4 & A5 & A6) P1 F1] [E2 (B1 & B2 & B3 & B4 & B5 & B6) P2 F2]. split.
  - by etrans.
  - split_and!; by etrans.
  - intros Hp. destruct (P1 Hp) as (? & ? & ?). destruct P2 as (? & ? & ?); [by eapply passed_eq|]. split_and!; by etrans.
  - intros Hc. destruct (F1 Hc) as (Hc' & ? & ? & ? & ? & ? & ? & ? & ?).
    destruct (F2 Hc') as (? & ? & ? & ? & ? & ? & ? & ? & ?). split_and!; first [done | by etrans].
Qed.

(** The fields that these two speak of, but for the events. *)
Definition core (t : Task) :=
  ((tk_ID t, tk_Goal t, tk_Project t, tk_Device t, tk_Conditions t, tk_SourceTemplates t, tk_CreatedAt t),
   (tk_SchemaVersion t, tk_Status t, tk_Steps t, tk_FinalReview t, tk_Phase t, tk_ActiveThreadID t),
   (tk_Completion t, tk_CompletedAt t, tk_CancelledAt t, tk_Outcome t, tk_CancelReason t)).

Definition events_ok (t : Task) : Prop :=
  Z.of_nat (length (tk_Events t)) <= maxTaskEvents ∧ ∀ e, e ∈ tk_Events t → len (ev_Summary e) <= maxTaskEventSummaryBytes.

Lemma task_ok_core id t t' : core t' = core t → events_ok t' → task_ok id t → task_ok id t'.
Proof.
  unfold core. intros [= E1 E2 E3 E4 E5 E6 E7 E8 E9 E10 E11 E12 E13 E14 E15 E16 E17 E18] He [].
  split; unfold succeeded, cancelled_, passed in *; rewrite ?E1, ?E8, ?E9, ?E10, ?E11, ?E12, ?E13, ?E14, ?E15, ?E16, ?E17, ?E18; done.
Qed.

Lemma task_after_core t t1 t2 : core t2 = core t1 → task_after t t1 → task_after t t2.
Proof.
  unfold core. intros [= E1 E2 E3 E4 E5 E6 E7 E8 E9 E10 E11 E12 E13 E14 E15 E16 E17 E18] [].
  split; rewrite ?E1, ?E2, ?E3, ?E4, ?E5, ?E6, ?E7, ?E8, ?E9, ?E10, ?E11, ?E12, ?E13, ?E14, ?E15, ?E16, ?E17, ?E18; done.
Qed.

Lemma review_is_passed t : review_is FinalReviewPass t = false → ¬ passed t.
Proof.
  unfold review_is, passed. intros E (r & Hr & Hp). rewrite Hr, Hp in E. discriminate.
Qed.
Lemma passed_review_is t : passed t → review_is FinalReviewPass t = true.
Proof. unfold review_is, passed. intros (r & -> & ->). apply String.eqb_refl. Qed.

(** *** Events *)

Lemma last_events_length events : Z.of_nat (length (last_events events)) <= maxTaskEvents.
Proof.
  unfold last_events. destruct (Z.ltb_spec maxTaskEvents (Z.of_nat (length events))) as [Hl|Hl]; [|lia].
  rewrite length_drop. assert (0 <= maxTaskEvents) by done. lia.
Qed.

Lemma last_events_in events e : e ∈ last_events events → e ∈ events.
Proof.
  unfold last_events. destruct (_ <? _); [|done]. intros He.
  eapply elem_of_submseteq; [exact He|]. apply sublist_submseteq, sublist_drop.
Qed.

Lemma last_events_id events : Z.of_nat (length events) <= maxTaskEvents → last_events events = events.
Proof. unfold last_events. intros Hl. by rewrite (proj2 (Z.ltb_ge _ _) Hl). Qed.

Lemma truncated_len value n : 0 < n → len (Text (SafeTruncateString value n)) <= n.
Proof.
  intros Hn. unfold SafeTruncateString. destruct (Z.leb_spec n 0) as [?|_]; [lia|]. cbn [orb].
  destruct (Z.leb_spec (len value) n) as [Hl|Hl]; [exact Hl|]. cbn [Text]. rewrite len_of_bytes, length_take.
  unfold safeUTF8Boundary. destruct (Z.leb_spec n 0) as [?|_]; [lia|]. cbn [orb].
  rewrite len_bytes in Hl. destruct (Z.leb_spec (Z.of_nat (length (bytes value))) n) as [?|_]; [lia|].
  rewrite Nat2Z.id. destruct (boundary_loop_spec (bytes value) (Z.to_nat n)) as (Hb & _). lia.
Qed.

Lemma append_events_ok t e : events_ok t → events_ok (appendTaskEvent t e).
Proof.
  intros [_ Hs]. split; [apply last_events_length|]. intros e' He'%last_events_in.
  apply elem_of_app in He' as [He'|He']; [by apply Hs|]. apply list_elem_of_singleton in He' as ->.
  cbn. by apply truncated_len.
Qed.

Lemma append_core t e : core (appendTaskEvent t e) = core t.
Proof. reflexivity. Qed.

(** ** Bodies of transitions *)

Definition thread_kept (o o' : option TaskThread) : Prop :=
  o' = o ∨ ∃ w, o' = (λ t, t <| th_WorkspaceID := w |>) <$> o.

(** What the body of a transition makes of a task. *)
Record good_step (id : string) (t t' : Task) : Prop := {
  gs_ok : task_ok id t';
  gs_after : task_after t t';
  gs_steps : steps_after (tk_Steps t) (tk_Steps t');
  gs_active : tk_ActiveThreadID t' = tk_ActiveThreadID t;
  gs_thread : thread_kept (tk_ActiveThread t) (tk_ActiveThread t');
}.

Definition good_body (body : Task → Time → result Task) : Prop :=
  ∀ id t now t', task_ok id t → body t now = Ok t' → good_step id t t'.

Lemma good_step_refl id t : task_ok id t → good_step id t t.
Proof. intros Hok. split; [done|apply task_after_refl|reflexivity|done|by left]. Qed.

Lemma good_step_core id t t1 t2 :
  core t2 = core t1 → events_ok t2 → tk_ActiveThread t2 = tk_ActiveThread t1 → good_step id t t1 → good_step id t t2.
Proof.
  intros E He Et [Hok Ha Hs Hact Hth]. pose proof E as E'. unfold core in E'.
  injection E' as _ _ _ _ _ _ _ _ _ Es _ _ Ea _ _ _ _ _.
  split; [by eapply task_ok_core|by eapply task_after_core|by rewrite Es|by rewrite Ea|by rewrite Et].
Qed.

Lemma good_step_event id t t' e : good_step id t t' → good_step id t (appendTaskEvent t' e).
Proof. intros Hg. eapply good_step_core; [apply append_core| |done|exact Hg]. apply append_events_ok, (gs_ok _ _ _ Hg). Qed.

Lemma requireActive_Ok t u : requireActive t = Ok u → tk_Status t = StatusActive ∧ thread_open t = true.
Proof.
  unfold requireActive. intros E. apply reject_bind_Ok in E as [_ E]. apply reject_bind_Ok in E as [Hs E].
  apply negb_false_iff, String.eqb_eq in Hs. unfold reject in E. by destruct (thread_open t).
Qed.
Lemma requireMutable_Ok t u : requireMutable t = Ok u → tk_Status t ≠ StatusCompleted.
Proof.
  unfold requireMutable. intros E. apply reject_bind_Ok in E as [_ E]. unfold reject in E.
  destruct (String.eqb_spec (tk_Status t) StatusCompleted); [discriminate|done].
Qed.
Lemma requireFinalReviewOpen_Ok t u : requireFinalReviewOpen t = Ok u → ¬ passed t.
Proof. unfold requireFinalReviewOpen, reject. intros E. apply review_is_passed. by destruct (review_is _ t). Qed.

Lemma active_not_completed t : tk_Status t = StatusActive → tk_Status t ≠ StatusCompleted.
Proof. intros ->. discriminate. Qed.

(** A change of an unfinished and unreviewed task to its steps, phase and text. *)
Lemma work_good id t steps' phase summary :
  task_ok id t → tk_Status t = StatusActive → ¬ passed t → steps_ok steps' → steps_after (tk_Steps t) steps' →
  good_step id t ((drop_failed_review (t <| tk_Steps := steps' |>)) <| tk_Phase := phase |> <| tk_Summary := summary |>).
Proof.
  intros [? ? ? ? ? ? ? Hu ?] Hact Hp Hs Ha. pose proof (active_not_completed t Hact) as Hne. unfold drop_failed_review.
  destruct (review_is FinalReviewFailed _); (split; [split|split|..]); cbn; try done; try (by left); try (by split_and!).
  intros r Hr Hpass. destruct Hp. by exists r.
Qed.

Lemma drop_phase t steps' phase :
  drop_failed_review (t <| tk_Steps := steps' |> <| tk_Phase := phase |>) =
  (drop_failed_review (t <| tk_Steps := steps' |>)) <| tk_Phase := phase |>.
Proof.
  unfold drop_failed_review. change (review_is FinalReviewFailed (t <| tk_Steps := steps' |> <| tk_Phase := phase |>)) with
    (review_is FinalReviewFailed (t <| tk_Steps := steps' |>)). by destruct (review_is _ _).
Qed.

Section Bodies.
Context `{UnicodeCase}.

Lemma checkpoint_good stepID status summary : good_body (checkpoint_body stepID status summary).
Proof.
  intros id t now t' Hok E. unfold checkpoint_body in E.
  apply bind_Ok in E as (? & [Hact _]%requireActive_Ok & E). apply bind_Ok in E as (? & Hp%requireFinalReviewOpen_Ok & E).
  cbv zeta in E. apply reject_bind_Ok in E as [_ E]. apply bind_Ok in E as (? & _ & E). apply reject_bind_Ok in E as [Hst E].
  destruct (list_find _ _) as [[i s]|] eqn:Hi; [|discriminate]. apply list_find_Some in Hi as (Hi & Hid & _).
  destruct (_ && _); [injection E as <-; by apply good_step_refl|].
  apply reject_bind_Ok in E as [Htr%negb_false_iff E]. apply reject_bind_Ok in E as [Hrun E]. injection E as <-.
  set (st := lower_trim status) in *. apply good_step_event.
  apply negb_false_iff in Hst. unfold one_of in Hst. apply existsb_exists in Hst as (st' & Hin & Heq%String.eqb_eq).
  rewrite <- Heq in Hin. apply (work_good id t _ (st_Phase s)); [done..| |].
  - apply alter_steps_ok; [apply Hok|by apply list_elem_of_In|]. intros Est j s' Hj Hs'. rewrite Est in Hrun. cbn in Hrun.
    specialize (existsb_delete _ _ _ Hrun j s' Hj Hs'). intros Hne Hr. apply String.eqb_neq in Hne. by apply Hne.
  - apply alter_after. unfold step_status. rewrite Hi. exact Htr.
Qed.

Lemma batch_good ids current summary : good_body (batch_body ids current summary).
Proof.
  intros id t now t' Hok E. unfold batch_body in E.
  apply bind_Ok in E as (? & [Hact _]%requireActive_Ok & E). apply bind_Ok in E as (? & Hp%requireFinalReviewOpen_Ok & E).
  cbv zeta in E. apply reject_bind_Ok in E as [_ E]. apply reject_bind_Ok in E as [_ E]. apply bind_Ok in E as (? & _ & E).
  apply bind_Ok in E as (? & Hcomp & E). apply bind_Ok in E as (o & Hcur%check_current_Ok & E).
  pose proof (check_completed_Ok _ _ _ _ Hcomp) as Hcomp'. clear Hcomp.
  set (steps0 := tk_Steps t) in *. set (done_ := normalizeStepIDs ids) in *.
  assert (∀ steps' phase, steps_ok steps' → steps_after steps0 steps' →
    good_step id t ((drop_failed_review (t <| tk_Steps := steps' |> <| tk_Phase := phase |>)) <| tk_Summary := TrimSpace summary |>)) as Hgood.
  { intros steps' phase Hs Ha. rewrite drop_phase. by apply work_good. }
  destruct o as [i|].
  - destruct (batch_steps steps0 done_ (TrimSpace current) i now (ok_steps _ _ Hok) Hcomp' Hcur) as [Hs Ha].
    injection E as <-. by apply good_step_event, Hgood.
  - destruct (complete_all_after steps0 (step_indexes steps0) done_ now steps0) as [Ha Hs]; [|reflexivity|apply Hok|].
    { intros sid Hx. by destruct (Hcomp' sid Hx) as (j & -> & ?). }
    destruct (last done_); injection E as <-; by apply good_step_event, Hgood.
Qed.

(** A change of the status of an unfinished task. *)
Lemma status_good id t status blocker summary :
  task_ok id t → tk_Status t ≠ StatusCompleted → status ∈ [StatusActive; StatusBlocked] →
  good_step id t (t <| tk_Status := status |> <| tk_Blocker := blocker |> <| tk_Summary := summary |>).
Proof.
  intros [? ? ? ? ? ? ? Hu ?] Hne Hin.
  assert (status ≠ StatusCompleted) as Hne'.
  { intros ->. apply elem_of_cons in Hin as [?|[?|[]%not_elem_of_nil]%elem_of_cons]; discriminate. }
  split; [split|split|..]; cbn; try done; try (by left); try (by split_and!).
  - apply elem_of_cons in Hin as [->|[->|[]%not_elem_of_nil]%elem_of_cons]; [left|right; left].
  - intros _. by apply Hu.
Qed.

Lemma block_good summary : good_body (block_body summary).
Proof.
  intros id t now t' Hok E. unfold block_body in E. apply bind_Ok in E as (? & Hm%requireMutable_Ok & E).
  apply bind_Ok in E as (? & _ & E). cbv zeta in E. apply reject_bind_Ok in E as [_ E]. apply bind_Ok in E as (? & _ & E).
  injection E as <-. apply good_step_event, status_good; [done..|]. right. left.
Qed.

Lemma resume_good summary : good_body (resume_body summary).
Proof.
  intros id t now t' Hok E. unfold resume_body in E. apply reject_bind_Ok in E as [Hs%negb_false_iff%String.eqb_eq E].
  cbv zeta in E. apply reject_bind_Ok in E as [_ E]. apply bind_Ok in E as (? & _ & E). injection E as <-.
  apply good_step_event, status_good; [done| |left]. by rewrite Hs.
Qed.

Lemma incomplete_none steps : is_empty (incompleteStepIDs steps) = true → all_completed steps.
Proof.
  unfold incompleteStepIDs. intros E s Hs. destruct (List.filter _ steps) as [|s' l] eqn:Ef; [|discriminate].
  destruct (String.eqb_spec (st_Status s) StepCompleted) as [?|Hne]; [done|]. exfalso.
  assert (In s []) as []. rewrite <- Ef. apply filter_In. split; [by apply list_elem_of_In|]. by apply negb_true_iff, String.eqb_neq.
Qed.

Lemma review_good raw input : good_body (applyFinalReview raw input).
Proof.
  intros id t now t' Hok E. unfold applyFinalReview in E.
  apply bind_Ok in E as (? & [Hact _]%requireActive_Ok & E). apply bind_Ok in E as (? & Hp%requireFinalReviewOpen_Ok & E).
  cbv zeta in E. set (st := lower_trim (ri_Status input)) in *. set (facts := normalizeReviewItems (ri_VerifiedFacts input)) in *.
  apply reject_bind_Ok in E as [_ E]. apply reject_bind_Ok in E as [_ E]. do 4 (apply bind_Ok in E as (? & _ & E)).
  apply bind_Ok in E as (? & Hpass & E). injection E as <-. apply good_step_event.
  pose proof (active_not_completed t Hact) as Hne. destruct Hok as [? ? ? ? ? ? ? Hu ?].
  split; [split|split|..]; cbn; try done; try (by left); try (by split_and!).
  intros r Hr. injection Hr as <-. cbn. intros Epass. rewrite Epass in Hpass |- *. cbn [String.eqb] in Hpass.
  rewrite String.eqb_refl in Hpass |- *. apply reject_bind_Ok in Hpass as [Hf Hpass].
  unfold reject in Hpass. destruct (is_empty (incompleteStepIDs (tk_Steps t))) eqn:Ei; [|discriminate].
  split_and!; [by intros E; rewrite E in Hf|by apply incomplete_none|done].
Qed.

Lemma complete_good raw : good_body (complete_body raw).
Proof.
  intros id t now t' Hok E. unfold complete_body in E. destruct (tk_FinalReview t) as [r|] eqn:Hr; [|discriminate].
  apply reject_bind_Ok in E as [Hp%negb_false_iff%String.eqb_eq E]. unfold completeTask in E.
  apply bind_Ok in E as (? & [Hact _]%requireActive_Ok & E). cbv zeta in E. apply reject_bind_Ok in E as [_ E].
  apply bind_Ok in E as (? & _ & E). apply reject_bind_Ok in E as [_ E]. injection E as <-. apply good_step_event.
  pose proof (active_not_completed t Hact) as Hne. destruct Hok as [? ? ? ? ? ? ? Hu ?]. destruct (Hu Hne) as (Hu1 & Hu2 & Hu3).
  split; [split|split|..]; cbn; try done; try (by left); try (by split_and!).
  - right. right. left.
  - intros _. left. split_and!; cbn; [done|by exists r|done|by do 2 eexists].
Qed.

Lemma complete_source_good raw conversation thread : good_body (complete_source_body raw conversation thread).
Proof.
  intros id t now t' Hok E. unfold complete_source_body in E. apply bind_Ok in E as (t1 & E1 & E). injection E as <-.
  pose proof E1 as E2. apply (complete_good raw id t now t1 Hok) in E1 as [[? ? ? ? ? ? ? Hu Hf] [? ? ? Hfin] ? ? ?].
  unfold complete_body in E2. destruct (tk_FinalReview t) as [r|] eqn:Hr; [|discriminate].
  apply reject_bind_Ok in E2 as [_ E2]. unfold completeTask in E2. apply bind_Ok in E2 as (? & [Hact _]%requireActive_Ok & E2).
  cbv zeta in E2. apply reject_bind_Ok in E2 as [_ E2]. apply bind_Ok in E2 as (? & _ & E2). apply reject_bind_Ok in E2 as [_ E2].
  injection E2 as E2. pose proof (active_not_completed t Hact) as Hne.
  assert (tk_Status t1 = StatusCompleted) as Hs1 by (by rewrite <- E2). assert (tk_Outcome t1 = "success") as Ho1 by (by rewrite <- E2).
  clear E2. destruct (Hf Hs1) as [(? & ? & ? & c & at_ & Hc & ?)|(? & _)]; [|by rewrite Ho1 in *].
  split; [split|split|..]; cbn; try done; try (by split_and!).
  - intros _. left. split_and!; cbn; [done..|]. rewrite Hc. by do 2 eexists.
  - by rewrite Hr.
Qed.

Lemma cancel_good reason : good_body (cancel_body reason).
Proof.
  intros id t now t' Hok E. unfold cancel_body in E. apply bind_Ok in E as (? & Hm%requireMutable_Ok & E).
  cbv zeta in E. apply reject_bind_Ok in E as [Hr E]. apply bind_Ok in E as (? & _ & E). injection E as <-. apply good_step_event.
  destruct Hok as [? ? ? ? ? ? ? Hu ?]. destruct (Hu Hm) as (Hu1 & Hu2 & Hu3).
  split; [split|split|..]; cbn; try done; try (by left); try (by split_and!).
  - right. right. left.
  - intros _. right. split_and!; cbn; [done|by apply String.eqb_neq|done|by eexists].
Qed.

(** Changes outside the core. *)
Lemma outside_good id t t' :
  task_ok id t → core t' = core t → tk_Events t' = tk_Events t → thread_kept (tk_ActiveThread t) (tk_ActiveThread t') →
  good_step id t t'.
Proof.
  intros Hok E He Ht. assert (events_ok t') as He' by (unfold events_ok; rewrite He; apply Hok).
  pose proof E as E'. unfold core in E'. injection E' as _ _ _ _ _ _ _ _ _ Es _ _ Ea _ _ _ _ _.
  split; [by eapply task_ok_core|eapply task_after_core; [exact E|apply task_after_refl]|by rewrite Es|done|done].
Qed.

Lemma workspace_good workspaceID : good_body (workspace_body workspaceID).
Proof.
  intros id t now t' Hok E. unfold workspace_body in E. apply bind_Ok in E as (? & _ & E). injection E as <-.
  apply outside_good; [done..|]. right. by exists workspaceID.
Qed.

Lemma guidance_good items : good_body (guidance_body items).
Proof. intros id t now t' Hok [= <-]. apply outside_good; [done..|by left]. Qed.

Lemma candidates_good revision items : good_body (candidates_body revision items).
Proof.
  intros id t now t' Hok E. unfold candidates_body in E. destruct (tk_FinalReview t); [|discriminate].
  apply reject_bind_Ok in E as [_ E]. injection E as <-. apply outside_good; [done..|by left].
Qed.

Lemma bind_good binding : good_body (bind_body binding).
Proof.
  intros id t now t' Hok E. unfold bind_body in E. destruct (List.find _ _) as [b|].
  - apply reject_bind_Ok in E as [_ E]. injection E as <-. by apply good_step_refl.
  - apply reject_bind_Ok in E as [_ E]. injection E as <-. apply outside_good; [done..|by left].
Qed.
End Bodies.
