(* ===== verification/TaskHistory.v ===== *)
(** * TaskHistory: what the store of tasks promises (internal/taskstate)

    The store's files, seen through its logs (TaskLog), hold well-formed tasks
    whose active thread has the same steps; every operation, whatever error or
    crash it meets, keeps them so and changes tasks and threads only forward. *)

From S2P Require Import Prelude GoText Durable Metadata TaskState TaskStore TaskSample TaskLog TaskSpec.
Local Open Scope Z_scope.

(** ** Threads *)

Record thread_ok (id n : string) (th : TaskThread) : Prop := {
  to_id : th_ID th = n;
  to_task : th_TaskID th = id;
  to_name : validateThreadID n = Ok tt;
  to_steps : steps_ok (th_Steps th);
}.

Record thread_after (th th' : TaskThread) : Prop := {
  tf_id : th_ID th' = th_ID th ∧ th_TaskID th' = th_TaskID th;
  tf_origin : th_Title th' = th_Title th ∧ th_Goal th' = th_Goal th ∧ th_ParentThreadID th' = th_ParentThreadID th ∧
    th_CreatedAt th' = th_CreatedAt th;
  tf_steps : steps_after (th_Steps th) (th_Steps th');
}.

#[export] Instance thread_after_preorder : PreOrder thread_after.
Proof.
  split.
  - intros th. split; [done|done|reflexivity].
  - intros a b c [[? ?] (? & ? & ? & ?) ?] [[? ?] (? & ? & ? & ?) ?]. split; [split; by etrans|split_and!; by etrans|by etrans].
Qed.

Lemma complete_ids_after indices ids now steps steps' :
  complete_ids indices ids now steps = Ok steps' → steps_ok steps → steps_ok steps' ∧ steps_after steps steps'.
Proof.
  revert steps. induction ids as [|id ids IH]; intros steps E Hok; cbn in E; [injection E as <-; by split|].
  destruct (indices !! id) as [i|]; [|discriminate]. destruct (negb _) eqn:Hv; [discriminate|].
  apply negb_false_iff in Hv. destruct (IH _ E) as [Hok' Ha].
  - apply alter_steps_ok; [done|apply completed_known|discriminate].
  - split; [done|]. etrans; [|exact Ha]. by apply alter_after.
Qed.

Lemma start_step_after steps0 completed current now steps steps' :
  start_step (step_indexes steps0) completed current now steps = Ok steps' →
  steps_ok steps → steps_after steps0 steps → steps_ok steps' ∧ steps_after steps steps'.
Proof.
  unfold start_step. intros E Hok Ha. destruct (String.eqb_spec current "") as [_|_]; [injection E as <-; by split|].
  destruct (step_indexes steps0 !! current) as [i|] eqn:Hi; [|discriminate]. destruct (one_of _ _); [discriminate|].
  destruct (negb _) eqn:Hv; [discriminate|]. apply negb_false_iff in Hv. destruct (existsb _ _) eqn:Ho; [discriminate|].
  injection E as <-. split; [|by apply alter_after]. apply alter_steps_ok; [done|apply in_progress_known|].
  intros _ j s Hne Hj Hr. destruct (step_indexes_Some _ _ _ Hi) as (s0 & Hs0 & Hid).
  destruct (Forall2_lookup_l _ _ _ _ _ Ha Hs0) as (si & Hsi & [Hsid _ _ _]).
  apply Hne. eapply step_ids_unique; [apply Hok|done..|]. rewrite Hsid, Hid.
  destruct (String.eqb_spec (st_ID s) current) as [E|E]; [done|]. exfalso.
  rewrite <- not_true_iff_false in Ho. apply Ho, existsb_exists. exists s. split; [by eapply list_elem_of_In, list_elem_of_lookup_2|].
  unfold running in Hr. by rewrite Hr, (proj2 (String.eqb_neq _ _) E).
Qed.

Lemma checkpointThread_after th input now th' :
  checkpointThread th input now = Ok th' → steps_ok (th_Steps th) → steps_ok (th_Steps th') ∧ thread_after th th'.
Proof.
  unfold checkpointThread. intros E Hok. apply reject_bind_Ok in E as [_ E]. apply reject_bind_Ok in E as [_ E].
  cbv zeta in E. apply bind_Ok in E as (steps1 & E1 & E). apply bind_Ok in E as (steps2 & E2 & E).
  destruct (complete_ids_after _ _ _ _ _ E1 Hok) as [Hok1 Ha1]. destruct (start_step_after _ _ _ _ _ _ E2 Hok1 Ha1) as [Hok2 Ha2].
  injection E as <-. assert (steps_after (th_Steps th) steps2) as Ha by (by etrans).
  destruct (ti_WorkspaceID input ≠s ""), (ti_SourceRef input ≠s ""); by split_and!.
Qed.

(** The thread that an update leaves keeps its identity and moves forward. *)
Lemma update_thread_after task th action input now th' :
  update_thread task th action input now = Ok (Some th') → steps_ok (th_Steps th) →
  steps_ok (th_Steps th') ∧ thread_after th th'.
Proof.
  unfold update_thread. intros E Hok.
  assert (∀ th', th_ID th' = th_ID th → th_TaskID th' = th_TaskID th → th_Title th' = th_Title th → th_Goal th' = th_Goal th →
    th_ParentThreadID th' = th_ParentThreadID th → th_CreatedAt th' = th_CreatedAt th → th_Steps th' = th_Steps th →
    steps_ok (th_Steps th') ∧ thread_after th th') as Hsame.
  { intros x ? ? ? ? ? ? Hs. rewrite Hs. split; [done|]. split; [done|done|]. by rewrite Hs. }
  repeat match type of E with context [if ?a =s ?b then _ else _] => destruct (a =s b) end; [..|discriminate].
  - apply bind_Ok in E as (x & Ex & E). injection E as <-. by eapply checkpointThread_after.
  - apply reject_bind_Ok in E as [_ E]. injection E as <-. by apply Hsame.
  - apply reject_bind_Ok in E as [_ E]. injection E as <-. apply Hsame; by destruct (ti_Summary input ≠s "").
  - discriminate.
  - injection E as <-. apply Hsame; by destruct (ti_Summary input ≠s "").
  - apply reject_bind_Ok in E as [_ E]. apply reject_bind_Ok in E as [_ E]. injection E as <-.
    apply Hsame; by destruct (ti_WorkspaceID input ≠s "").
  - injection E as <-. by apply Hsame.
Qed.

Lemma all_pending_ok steps : NoDup (map st_ID steps) → (∀ s, s ∈ steps → st_Status s = StepPending) → steps_ok steps.
Proof.
  intros Hnd Hp. split; [done|intros s Hs; rewrite (Hp s Hs); left|].
  intros i j s s' Hi _ Hr _. unfold running in Hr. rewrite (Hp s (list_elem_of_lookup_2 _ _ _ Hi)) in Hr. discriminate.
Qed.

Lemma steps_loop_ok values seen now steps :
  steps_loop values seen now = Ok steps →
  NoDup (map st_ID steps) ∧ (∀ s, s ∈ steps → st_Status s = StepPending ∧ st_ID s ∉ seen).
Proof.
  revert seen steps. induction values as [|value values IH]; intros seen steps E; cbn in E.
  - injection E as <-. split; [constructor|]. by intros s ?%not_elem_of_nil.
  - apply bind_Ok in E as (step & Es & E). apply bind_Ok in E as (rest & Er & E). injection E as <-.
    destruct (IH _ _ Er) as [Hnd Hrest]. unfold normalize_step in Es. cbv zeta in Es.
    apply reject_bind_Ok in Es as [_ Es]. apply bind_Ok in Es as (? & _ & Es). apply reject_bind_Ok in Es as [_ Es].
    apply reject_bind_Ok in Es as [Hseen Es]. apply reject_bind_Ok in Es as [_ Es]. injection Es as <-. split.
    + cbn. constructor; [|done]. intros (s & Hid & Hs)%list_elem_of_In%in_map_iff. apply list_elem_of_In in Hs.
      destruct (Hrest s Hs) as [_ Hnin]. apply Hnin. rewrite Hid. left.
    + intros s [->|Hs]%elem_of_cons.
      * split; [done|]. cbn. intros Hin. apply one_of_In in Hin. by rewrite Hin in Hseen.
      * destruct (Hrest s Hs) as [? Hnin]. split; [done|]. intros Hin. apply Hnin. by right.
Qed.

Lemma normalizeTaskSteps_ok values now steps : normalizeTaskSteps values now = Ok steps → steps_ok steps.
Proof.
  unfold normalizeTaskSteps. intros E. apply reject_bind_Ok in E as [_ E]. apply steps_loop_ok in E as [Hnd Hp].
  apply all_pending_ok; [done|]. intros s Hs. by apply Hp.
Qed.

Lemma create_thread_ok source id fork input now th :
  create_thread source id fork input now = Ok th → steps_ok (th_Steps source) →
  th_ID th = id ∧ th_TaskID th = th_TaskID source ∧ steps_ok (th_Steps th).
Proof.
  unfold create_thread. intros E Hok. cbv zeta in E. apply bind_Ok in E as (t1 & E1 & E). injection E as <-.
  assert (th_ID t1 = id ∧ th_TaskID t1 = th_TaskID source ∧ steps_ok (th_Steps t1)) as (H1 & H2 & H3).
  { destruct fork; [injection E1 as <-; by split_and!|]. destruct (negb _).
    - apply bind_Ok in E1 as (steps & Es & E1). injection E1 as <-. split_and!; [done..|]. by eapply normalizeTaskSteps_ok.
    - injection E1 as <-. split_and!; [done..|]. cbn. apply all_pending_ok.
      + rewrite map_map. cbn. apply Hok.
      + intros s (x & <- & _)%list_elem_of_In%in_map_iff. done. }
  destruct (ti_WorkspaceID input ≠s ""), (ti_SourceRef input ≠s ""); by split_and!.
Qed.

(** ** What the store holds *)

Definition task_at (v : view) (id : string) : option Task := v_tasks v !! id ≫= f_content.
Definition thread_at (v : view) (k : string * string) : option TaskThread := v_threads v !! k ≫= f_content.

(** Every task and thread of [v0] is still there, in a later version. *)
Record view_after (v0 v : view) : Prop := {
  va_tasks : ∀ id t, task_at v0 id = Some t → ∃ t', task_at v id = Some t' ∧ task_after t t';
  va_threads : ∀ k th, thread_at v0 k = Some th → ∃ th', thread_at v k = Some th' ∧ thread_after th th';
}.

#[export] Instance view_after_preorder : PreOrder view_after.
Proof.
  split.
  - intros v. split; [intros id t ?; exists t; by split; [|apply task_after_refl]|intros k th ?; by exists th].
  - intros v1 v2 v3 [A1 B1] [A2 B2]. split.
    + intros id t Ht. destruct (A1 id t Ht) as (t' & Ht' & Ha). destruct (A2 id t' Ht') as (t'' & Ht'' & Ha').
      exists t''. split; [done|by eapply task_after_trans].
    + intros k th Hth. destruct (B1 k th Hth) as (th' & Hth' & Ha). destruct (B2 k th' Hth') as (th'' & Hth'' & Ha').
      exists th''. split; [done|by etrans].
Qed.

(** A task file's content: the thread is elsewhere. *)
Definition detached (t : Task) : Prop := tk_ActiveThread t = None.

Lemma validateThreadID_nonempty n u : validateThreadID n = Ok u → n ≠ "".
Proof. intros E ->. discriminate. Qed.

Lemma Task_eta_eq (t : Task) : eta_expand t = t.
Proof. by destruct t. Qed.

Lemma core_eta t : t <| tk_Events := tk_Events t |> = t.
Proof. by destruct t. Qed.

Section History.
Context `{UnicodeCase} `{Encoding}.

Record view_ok (v : view) : Prop := {
  vk_task : ∀ id f, v_tasks v !! id = Some f → ∃ t th, f = task_file t ∧ task_ok id t ∧ detached t ∧
    v_threads v !! (id, tk_ActiveThreadID t) = Some (thread_file th) ∧ th_Steps th = tk_Steps t;
  vk_thread : ∀ id n f, v_threads v !! (id, n) = Some f → ∃ th, f = thread_file th ∧ thread_ok id n th;
  vk_main : ∀ id, is_Some (v_tasks v !! id) → is_Some (v_threads v !! (id, MainThreadID));
  vk_owner : ∀ id n, is_Some (v_threads v !! (id, n)) → is_Some (v_tasks v !! id);
}.

Lemma view_ok_empty : view_ok (mkView ∅ ∅).
Proof.
  split.
  - intros ? ?. cbn. by rewrite lookup_empty.
  - intros ? ? ?. cbn. by rewrite lookup_empty.
  - intros ? [? E]. cbn in E. by rewrite lookup_empty in E.
  - intros ? ? [? E]. cbn in E. by rewrite lookup_empty in E.
Qed.

Lemma view_ok_erase id v : view_ok v → view_ok (erase id v).
Proof.
  intros [Ht Hth Hm Ho]. split; unfold erase; cbn.
  - intros id' f [Hne Hf]%lookup_delete_Some. destruct (Ht id' f Hf) as (t & th & ? & ? & ? & Hl & ?).
    exists t, th. split_and!; [done..| |done]. by apply map_lookup_filter_Some.
  - intros id' n f [Hf _]%map_lookup_filter_Some. by apply Hth.
  - intros id' [f [Hne Hf]%lookup_delete_Some]. destruct (Hm id' (mk_is_Some _ _ Hf)) as [g Hg]. exists g. by apply map_lookup_filter_Some.
  - intros id' n [f [Hf Hne]%map_lookup_filter_Some]. cbn in Hne. rewrite lookup_delete_ne by done. by apply (Ho id' n).
Qed.

Lemma written_Some id threads k f :
  written id threads !! k = Some f → ∃ th, th ∈ threads ∧ k = (id, th_ID th) ∧ f = thread_file th.
Proof.
  unfold written. intros (th & E & Hth)%elem_of_list_to_map_2%list_elem_of_In%in_rev%in_map_iff.
  injection E as <- <-. exists th. split; [by apply list_elem_of_In|done].
Qed.

Lemma written_single (id : string) (th : TaskThread) (m : gmap (string * string) (file TaskThread)) :
  written id [th] ∪ m = <[(id, th_ID th) := thread_file th]> m.
Proof. rewrite written_cons. unfold written. cbn. by rewrite (left_id_L ∅ (∪)). Qed.

Lemma stored_ok id t : task_ok id t → task_ok id (stored_task t) ∧ detached (stored_task t).
Proof.
  intros Hok. split; [|done]. apply (task_ok_core id t); [reflexivity| |exact Hok]. cbn.
  destruct (ok_events _ _ Hok) as [Hl He]. split; cbn; [by rewrite last_events_id|]. intros e Hin%last_events_in. by apply He.
Qed.

Lemma redo_ok v id task threads :
  view_ok v → task_ok id task →
  (∀ th, th ∈ threads → thread_ok id (th_ID th) th) →
  (∃ th, (written id threads ∪ v_threads v) !! (id, tk_ActiveThreadID task) = Some (thread_file th) ∧ th_Steps th = tk_Steps task) →
  is_Some ((written id threads ∪ v_threads v) !! (id, MainThreadID)) →
  view_ok (redo (mkTransaction (task <| tk_ActiveThread := None |>) threads) v).
Proof.
  intros [Ht Hth Hm Ho] Hok Hthreads (tha & Ha & Hs) Hmain.
  destruct (stored_ok id task Hok) as [Hok' Hd]. pose proof (ok_id _ _ Hok) as Hid.
  unfold redo. cbn [tx_Task tx_Threads]. change (tk_ID (task <| tk_ActiveThread := None |>)) with (tk_ID task). rewrite Hid.
  assert (∀ id' n f, id' ≠ id → (written id threads ∪ v_threads v) !! (id', n) = Some f ↔ v_threads v !! (id', n) = Some f) as Hother.
  { intros id' n f Hne. rewrite lookup_union. destruct (written id threads !! (id', n)) as [g|] eqn:E.
    - apply written_Some in E as (? & _ & E & _). injection E as ->. done.
    - by rewrite (left_id_L None _). }
  split; cbn.
  - intros id' f [[<- <-]|[Hne Hf]]%lookup_insert_Some.
    + exists (stored_task task), tha. by split_and!.
    + destruct (Ht id' f Hf) as (t & th & ? & ? & ? & Hl & ?). exists t, th. split_and!; [done..| |done]. by apply Hother.
  - intros id' n f. rewrite lookup_union. destruct (written id threads !! (id', n)) as [g|] eqn:E.
    + apply written_Some in E as (th & Hin & E & ->). injection E as -> ->. intros Hf. exists th. split; [|by apply Hthreads].
      destruct (v_threads v !! _); by injection Hf as <-.
    + rewrite (left_id_L None _). apply Hth.
  - intros id' [f Hf]. apply lookup_insert_Some in Hf as [[<- _]|[Hne Hf]]; [done|].
    destruct (Hm id' (mk_is_Some _ _ Hf)) as [g Hg]. exists g. by apply Hother.
  - intros id' n [f Hf]. destruct (decide (id' = id)) as [->|Hne]; [by rewrite lookup_insert_eq; eexists|].
    rewrite lookup_insert_ne by done. apply (Ho id' n). exists f. by apply Hother.
Qed.

Lemma redo_after v0 v id task threads :
  view_after v0 v → tk_ID task = id →
  (∀ t, task_at v id = Some t → task_after t task) →
  (∀ th old, th ∈ threads → thread_at v (id, th_ID th) = Some old → thread_after old th) →
  view_after v0 (redo (mkTransaction (task <| tk_ActiveThread := None |>) threads) v).
Proof.
  intros Hv <- Ht Hth. etrans; [exact Hv|]. clear Hv. split; unfold task_at, thread_at, redo; cbn.
  - intros id t Hid. destruct (decide (tk_ID task = id)) as [<-|Hne].
    + rewrite lookup_insert_eq. eexists. split; [reflexivity|]. apply (task_after_core _ task); [done|by apply Ht].
    + rewrite lookup_insert_ne by done. exists t. split; [done|apply task_after_refl].
  - intros k th Hk. rewrite lookup_union. destruct (written _ _ !! k) as [g|] eqn:E.
    + apply written_Some in E as (th' & Hin & -> & ->). exists th'. split; [|by eapply Hth].
      by destruct (v_threads v !! (tk_ID task, th_ID th')).
    + rewrite (left_id_L None _). by exists th.
Qed.

(** ** Loading a task *)

Lemma management_core m t : core (applyManagementLocked m t) = core t ∧ tk_Events (applyManagementLocked m t) = tk_Events t ∧
  tk_ActiveThread (applyManagementLocked m t) = tk_ActiveThread t.
Proof.
  unfold applyManagementLocked. destruct (m !! tk_ID t) as [g|]; [|done]. cbv zeta.
  destruct (tm_Title g ≠s ""), (tm_ArchiveManaged g); (destruct (_ <? _); split_and!; reflexivity).
Qed.

(** A task as an operation finds it: the stored task [t0] with its management
    data and its active thread [th]. *)
Record loaded (v : view) (id : string) (t : Task) : Prop := {
  ld_ok : task_ok id t;
  ld_stored : ∃ t0, task_at v id = Some t0 ∧ task_after t0 t ∧ tk_ActiveThreadID t = tk_ActiveThreadID t0;
  ld_thread : ∃ th, tk_ActiveThread t = Some th ∧ v_threads v !! (id, tk_ActiveThreadID t) = Some (thread_file th) ∧
    th_Steps th = tk_Steps t ∧ th_ID th = tk_ActiveThreadID t;
}.

Lemma load_thread_stored d task n th :
  view_ok (files d) → is_Some (td_tasks d !! tk_ID task) → loadThreadLocked d task n = Ok th →
  td_threads d !! (tk_ID task, n) = Some (thread_file th) ∧ thread_ok (tk_ID task) n th.
Proof.
  intros Hv Htask E. unfold loadThreadLocked in E. apply bind_Ok in E as (path & Hpath & E).
  apply threadPath_Ok in Hpath as ->. apply bind_Ok in E as (found & Hf & E).
  destruct (td_threads d !! (tk_ID task, n)) as [f|] eqn:Ef.
  - destruct (vk_thread _ Hv _ _ _ Ef) as (th' & -> & Hok). unfold readTaskStateFile, thread_file in Hf. cbn in Hf.
    destruct (_ <? _); [discriminate|]. injection Hf as <-. apply bind_Ok in E as (? & _ & E). injection E as <-. done.
  - injection Hf as <-. destruct (String.eqb_spec n MainThreadID) as [->|_]; [|discriminate].
    destruct (vk_main _ Hv _ Htask) as [g Hg]. cbn in Hg. by rewrite Hg in Ef.
Qed.

(** The phase matters to a task only once it has passed its review. *)
Lemma task_ok_phase id t phase :
  task_ok id (t <| tk_Phase := phase |>) →
  (∀ r, tk_FinalReview t = Some r → fr_Status r = FinalReviewPass → tk_Phase t = phase) → task_ok id t.
Proof.
  intros [? ? ? ? ? ? Hp ? ?] Hphase. split; try done. intros r Hr Hpass. destruct (Hp r Hr Hpass) as (? & ? & E).
  split_and!; [done..|]. rewrite (Hphase r Hr Hpass). exact E.
Qed.

Lemma project_core t th :
  th_ID th = tk_ActiveThreadID t → th_Steps th = tk_Steps t → (passed t → tk_Phase t = projected_phase t th).
Proof.
  intros _ _ Hp. unfold projected_phase. rewrite (passed_review_is _ Hp). by destruct (List.find _ _).
Qed.

(** Decoding changes nothing in a task that the store wrote. *)
Lemma decode_stored id t : task_ok id t → tk_ActiveThreadID t ≠ "" → decodeTask t = Ok t.
Proof.
  intros Hok Hact. unfold decodeTask. rewrite (proj2 (String.eqb_neq _ _) Hact). cbv zeta.
  assert ((tk_Status t =s StatusCompleted) && (tk_Outcome t =s "") = false) as ->.
  { destruct (String.eqb_spec (tk_Status t) StatusCompleted) as [Hc|]; [|done].
    destruct (ok_finished _ _ Hok Hc) as [(-> & _)|(-> & _)]; done. }
  rewrite (ok_schema _ _ Hok). cbn [negb Z.eqb SchemaVersion Pos.eqb]. f_equal.
  unfold over. rewrite last_events_id by apply (ok_events _ _ Hok). by destruct t.
Qed.

Lemma load_Ok d m id t : view_ok (files d) → loadLocked d m id = Ok t → loaded (files d) id t.
Proof.
  intros Hv E. unfold loadLocked in E. apply bind_Ok in E as (? & Hvalid & E). apply bind_Ok in E as (found & Hf & E).
  destruct (td_tasks d !! id) as [f|] eqn:Ef; [|by injection Hf as <-].
  destruct (vk_task _ Hv _ _ Ef) as (t0 & th & -> & Hok & Hd & Hth & Hs). unfold readTaskStateFile, task_file in Hf. cbn in Hf.
  destruct (_ <? _); [discriminate|]. injection Hf as <-. apply bind_Ok in E as (t1 & E1 & E).
  assert (tk_ActiveThreadID t0 ≠ "") as Hact.
  { destruct (vk_thread _ Hv _ _ _ Hth) as (? & _ & []). by eapply validateThreadID_nonempty. }
  rewrite (decode_stored id t0 Hok Hact) in E1. injection E1 as <-.
  destruct (management_core m t0) as (Ec & Ee & Eth). set (t1 := applyManagementLocked m t0) in *.
  assert (task_ok id t1) as Hok1 by (eapply task_ok_core; [exact Ec|unfold events_ok; rewrite Ee; apply Hok|exact Hok]).
  pose proof Ec as Ec'. unfold core in Ec'. injection Ec' as Eid _ _ _ _ _ _ _ _ Es Er Ep Ea _ _ _ _ _.
  unfold attachThreadLocked in E. rewrite Ea, (proj2 (String.eqb_neq _ _) Hact) in E. cbv zeta in E.
  apply bind_Ok in E as (th' & Hth' & E). injection E as <-. rewrite (ok_id _ _ Hok) in Eid.
  assert (th' = th) as ->.
  { rewrite Ea in Hth'. apply load_thread_stored in Hth' as [Hl _]; [|done|rewrite Eid, Ef; by eexists].
    rewrite Eid in Hl. change (td_threads d) with (v_threads (files d)) in Hl. rewrite Hth in Hl. by injection Hl. }
  destruct (vk_thread _ Hv _ _ _ Hth) as (th2 & E2 & Hthok). injection E2 as _ E2. rewrite <- E2 in Hthok. clear E2 th2.
  assert (core ((projectThread t1 th) <| tk_Phase := tk_Phase t1 |>) = core t1) as Eproj.
  { unfold core. cbn. by rewrite (to_id _ _ _ Hthok), Hs, Es, Ea. }
  assert (task_after t0 (projectThread t1 th)) as Hafter.
  { pose proof (task_after_core t0 t1 _ Eproj (task_after_core t0 t0 t1 Ec (task_after_refl t0))) as [? ? ? ?]. by split. }
  split.
  - assert (task_ok id ((projectThread t1 th) <| tk_Phase := tk_Phase t1 |>)) as Hok2.
    { eapply task_ok_core; [exact Eproj| |exact Hok1]. exact (ok_events _ _ Hok1). }
    apply (task_ok_phase id _ (tk_Phase t1) Hok2). intros r Hr Hpass. symmetry. apply project_core.
    + by rewrite Ea, (to_id _ _ _ Hthok).
    + by rewrite Hs, Es.
    + exists r. split; [exact Hr|exact Hpass].
  - exists t0. unfold task_at. cbn. rewrite Ef. split_and!; [done..|]. apply (to_id _ _ _ Hthok).
  - exists th. cbn. rewrite (to_id _ _ _ Hthok). by split_and!.
Qed.

(** ** Saving a task *)

Lemma saved_thread_facts t : 
  th_ID (saved_thread t) = (if tk_ActiveThreadID t ≠s "" then tk_ActiveThreadID t else th_ID (default (virtualMain t) (tk_ActiveThread t))) ∧
  th_TaskID (saved_thread t) = tk_ID t ∧ th_Steps (saved_thread t) = tk_Steps t ∧
  th_Title (saved_thread t) = th_Title (default (virtualMain t) (tk_ActiveThread t)) ∧
  th_Goal (saved_thread t) = th_Goal (default (virtualMain t) (tk_ActiveThread t)) ∧
  th_ParentThreadID (saved_thread t) = th_ParentThreadID (default (virtualMain t) (tk_ActiveThread t)) ∧
  th_CreatedAt (saved_thread t) = th_CreatedAt (default (virtualMain t) (tk_ActiveThread t)).
Proof.
  unfold saved_thread. set (x := default _ _). cbv zeta.
  destruct (tk_ActiveThreadID t ≠s ""); repeat match goal with |- context [if ?b then _ else _] => destruct b end; by split_and!.
Qed.

Section Keeps.
Variable v0 : view.
Variable c0 : option (file notificationClaims).
(** The task that the operation may create. *)
Variable born : option string.
Hypothesis v0_ok : view_ok v0.

(** The store is as it was, or has moved forward; the claims are as they were. *)
Definition forward (v : view) (c : option (file notificationClaims)) : Prop :=
  view_ok v ∧ view_after v0 v ∧ c = c0 ∧ ∀ id, is_Some (v_tasks v !! id) → is_Some (v_tasks v0 !! id) ∨ born = Some id.
Definition unmoved (v : view) (c : option (file notificationClaims)) : Prop := v = v0 ∧ c = c0.
Definition start (d : disk) : Prop := safe unmoved d.
Definition held (d : disk) : Prop := clean d ∧ files d = v0 ∧ td_claims d = c0.

Lemma unmoved_forward v c : unmoved v c → forward v c.
Proof. intros [-> ->]. split_and!; [done..|]. by left. Qed.

(** An operation that only moves the store forward. *)
Definition keeps {A} (m : io disk A) : Prop := spec (safe forward) start m (λ _ _, True).

Lemma start_held d : start d → clean d → held d.
Proof. intros [Hv Hc] Hcl. rewrite (view_clean _ Hcl) in Hv. by split. Qed.

Lemma acquire_held busy : spec (safe forward) start (acquireStoreLock busy) (λ _ d, held d).
Proof.
  eapply spec_weaken.
  - apply (spec_under (safe unmoved) (safe forward)); [intros d; apply unmoved_forward|apply (acquire_spec unmoved busy)].
  - intros d _ Hs. by split.
  - intros m d _ [Hs Hc]. by apply start_held.
Qed.

Lemma reading_held {A} busy (f : disk → gmap string taskManagement → result A) :
  spec (safe forward) start (reading busy f) (λ a d, held d ∧ ∃ m, f d m = Ok a).
Proof.
  unfold reading. eapply spec_bind; [apply acquire_held|]. intros m.
  eapply spec_bind with (R := λ d' d, held d ∧ d' = d); [by apply spec_read|]. intros d'.
  apply spec_lift. intros a d E _ [Hh ->]. split; [done|by exists m].
Qed.

(** A read never changes the store. *)
Lemma reading_keeps {A} busy (f : disk → gmap string taskManagement → result A) : keeps (reading busy f).
Proof. eapply spec_weaken; [apply reading_held|by intros|by intros]. Qed.

(** A bundle of a task that moved forward and threads that did. *)
Lemma bundle_keeps id task threads :
  is_Some (v_tasks v0 !! id) ∨ born = Some id → task_ok id task → (∀ t, task_at v0 id = Some t → task_after t task) →
  (∀ th, th ∈ threads → th_TaskID th = id ∧ steps_ok (th_Steps th) ∧
     ∀ old, thread_at v0 (id, th_ID th) = Some old → thread_after old th) →
  (∃ th, (written id threads ∪ v_threads v0) !! (id, tk_ActiveThreadID task) = Some (thread_file th) ∧ th_Steps th = tk_Steps task) →
  is_Some ((written id threads ∪ v_threads v0) !! (id, MainThreadID)) →
  spec (safe forward) held (saveThreadBundleLocked task threads) (λ _ _, True).
Proof.
  intros Hborn Hok Ht Hth Hact Hmain. eapply spec_weaken; [apply (bundle_spec forward)|by intros d _ HP; exact HP|by intros].
  intros d _ (Hcl & Hf & Hc). split; [done|]. rewrite Hf, Hc. intros Hval. split_and!; [|apply (redo_after v0 v0 id)|done|].
  - apply redo_ok with (id := id); [done..| |done|done].
    intros th Hin. destruct (Hth th Hin) as (? & ? & _). split; [done..| |done].
    rewrite (ok_id _ _ Hok) in Hval. clear -Hin Hval. revert Hval.
    induction threads as [|x threads IH]; [by apply not_elem_of_nil in Hin|]. cbn. unfold validateStoredThread.
    destruct (validateThreadID (th_ID x)) as [[]|] eqn:E; [|done]. intros Hval. apply elem_of_cons in Hin as [->|Hin]; [done|].
    apply IH; [done|]. match type of Hval with is_ok (?m ≫= _) = true => destruct m; [|done] end.
    cbn in Hval. by destruct (threadPath id (th_ID x)).
  - done.
  - apply (ok_id _ _ Hok).
  - exact Ht.
  - intros th old Hin. by apply (Hth th Hin).
  - intros id' [f Hf']. cbn in Hf'. rewrite (ok_id _ _ Hok) in Hf'.
    apply lookup_insert_Some in Hf' as [[<- _]|[_ Hf']]; [done|left; by eexists].
Qed.

Lemma stored_some id t : task_at v0 id = Some t → is_Some (v_tasks v0 !! id).
Proof. unfold task_at. destruct (v_tasks v0 !! id); [by eexists|discriminate]. Qed.

Lemma save_keeps id t t1 :
  loaded v0 id t → good_step id t t1 → spec (safe forward) held (saveLocked t1) (λ _ _, True).
Proof.
  intros [Hok (t0 & Ht0 & Ha0 & Hact0) (th & Hth & Hl & Hs & Hthid)] [Hok1 Ha Hs1 Hact Hkept].
  destruct (vk_thread _ v0_ok _ _ _ Hl) as (th' & E & Hthok). injection E as _ <-.
  assert (tk_ActiveThreadID t1 ≠ "") as Hne.
  { rewrite Hact. by eapply validateThreadID_nonempty, (to_name _ _ _ Hthok). }
  destruct (saved_thread_facts t1) as (Eid & Etask & Esteps & Etitle & Egoal & Eparent & Ecreated).
  rewrite (proj2 (String.eqb_neq _ _) Hne) in Eid. cbn [negb] in Eid. rewrite (ok_id _ _ Hok1) in Etask.
  assert (∃ x, tk_ActiveThread t1 = Some x ∧ th_Title x = th_Title th ∧ th_Goal x = th_Goal th ∧
    th_ParentThreadID x = th_ParentThreadID th ∧ th_CreatedAt x = th_CreatedAt th) as (x & Ex & X1 & X2 & X3 & X4).
  { rewrite Hth in Hkept. destruct Hkept as [->|(w & ->)]; by eexists. }
  rewrite Ex in *. cbn in Etitle, Egoal, Eparent, Ecreated. unfold saveLocked.
  rewrite (proj2 (String.eqb_neq _ _) Hne). cbv zeta. apply (bundle_keeps id).
  - left. by eapply stored_some.
  - done.
  - intros t' Ht'. rewrite Ht0 in Ht'. injection Ht' as <-. by eapply task_after_trans.
  - intros y ->%list_elem_of_singleton. split_and!; [done|rewrite Esteps; apply Hok1|].
    rewrite Eid. intros old Hold. unfold thread_at in Hold. rewrite Hact, Hl in Hold. cbn in Hold. injection Hold as <-.
    split; [split; [congruence|by rewrite Etask, (to_task _ _ _ Hthok)]|split_and!; congruence|by rewrite Esteps, Hs].
  - exists (saved_thread t1). rewrite written_single, Eid, lookup_insert_eq. by split.
  - rewrite written_single. apply lookup_insert_is_Some'. right. apply (vk_main _ v0_ok).
    by eapply stored_some.
Qed.

Lemma mutate_keeps busy now id body : good_body body → keeps (mutate busy now id body).
Proof.
  intros Hbody. unfold mutate, keeps. eapply spec_bind; [apply reading_held|]. intros task.
  apply spec_if; intros _; [apply spec_fail|].
  eapply spec_bind with (R := λ t1 d, held d ∧ loaded v0 id task ∧ good_step id task t1).
  { apply spec_lift. intros t1 d E _ [Hh (m & Hm)]. split; [done|].
    assert (loaded v0 id task) as Hl. { destruct Hh as (_ & <- & _). by eapply load_Ok. }
    split; [done|]. eapply Hbody; [apply Hl|exact E]. }
  intros t1. cbv zeta. eapply spec_bind with (R := λ _ _, True).
  - apply spec_pre. intros d (Hh & Hl & Hg). eapply spec_weaken; [eapply (save_keeps id task)|by intros d' _ ->|done]; [done|].
    apply (good_step_core id task t1); [reflexivity| |reflexivity|exact Hg]. apply Hg.
  - intros ?. eapply spec_bind with (R := λ _ _, True); [by apply spec_read|]. intros ?. by apply spec_lift.
Qed.

(** ** Creation *)

Lemma newID_valid raw : length raw = 8%nat → validateID (newID raw) = Ok tt.
Proof.
  intros Hl. unfold validateID, newID, newOpaqueID, opaque_suffix.
  rewrite len_app, len_hex_encode, Hl. rewrite bytes_app.
  replace (drop 4 (bytes "tsk_" ++ bytes (hex_encode raw))) with (bytes (hex_encode raw)) by reflexivity.
  rewrite hex_encode_lower. by destruct (hex_encode raw).
Qed.

Lemma create_task_ok raw title goal project device texts steps refs bindings now t :
  create_task raw title goal project device texts steps refs bindings now = Ok t → length raw = 8%nat →
  tk_ID t = newID raw ∧ tk_ActiveThreadID t = "" ∧ tk_ActiveThread t = None ∧
  task_ok (newID raw) (t <| tk_ActiveThreadID := MainThreadID |>).
Proof.
  unfold create_task. intros E Hl. cbv zeta in E. apply reject_bind_Ok in E as [_ E]. do 2 (apply bind_Ok in E as (? & _ & E)).
  do 3 (apply reject_bind_Ok in E as [_ E]). apply bind_Ok in E as (? & _ & E).
  apply bind_Ok in E as (taskSteps & Es & E). apply bind_Ok in E as (templateRefs & _ & E). apply bind_Ok in E as (bs & _ & E).
  injection E as E. set (t0 := mkTask _ _ _ _ _ _ _ _ _ _ _ _ _ _ _ _ _ _ _ _ _ _ _ _ _ _ _ _ _ _ _ _ _ _ _) in E.
  assert (task_ok (newID raw) (t0 <| tk_ActiveThreadID := MainThreadID |>)) as Hok.
  { split; cbn; try done.
    - by apply newID_valid.
    - left.
    - by eapply normalizeTaskSteps_ok.
    - split; [done|]. intros e ->%list_elem_of_singleton. done. }
  destruct (is_empty templateRefs); subst t; split_and!; try done.
  match goal with |- task_ok _ ((appendTaskEvent _ ?e) <| tk_ActiveThreadID := _ |>) =>
    change (task_ok (newID raw) (appendTaskEvent (t0 <| tk_ActiveThreadID := MainThreadID |>) e)) end.
  eapply task_ok_core; [apply append_core| |exact Hok]. apply append_events_ok, Hok.
Qed.

Lemma create_keeps busy now raw title goal project device texts steps refs bindings :
  length raw = 8%nat → v_tasks v0 !! newID raw = None → born = Some (newID raw) →
  keeps (CreateWithContext busy now raw title goal project device texts steps refs bindings).
Proof.
  intros Hl Hfresh Hborn. unfold keeps, CreateWithContext. eapply spec_bind; [apply acquire_held|]. intros ?.
  eapply spec_bind with (R := λ t d, held d ∧ tk_ID t = newID raw ∧ tk_ActiveThreadID t = "" ∧ tk_ActiveThread t = None ∧
    task_ok (newID raw) (t <| tk_ActiveThreadID := MainThreadID |>)).
  { apply spec_lift. intros t d E _ Hh. split; [done|]. by eapply create_task_ok. }
  intros t. eapply spec_bind with (R := λ _ _, True).
  - apply spec_pre. intros d (Hh & Hid & Hact & Hthread & Hok). eapply spec_weaken with (P := held); [|by intros d' _ ->|done].
    unfold saveLocked. rewrite Hact. cbn [String.eqb]. cbv zeta.
    destruct (saved_thread_facts t) as (Eid & Etask & Esteps & _). rewrite Hact, Hthread in Eid. cbn in Eid.
    apply (bundle_keeps (newID raw)).
    + by right.
    + done.
    + intros t' Ht'. unfold task_at in Ht'. by rewrite Hfresh in Ht'.
    + intros th ->%list_elem_of_singleton. split_and!; [by rewrite Etask|rewrite Esteps; apply (ok_steps _ _ Hok)|].
      intros old Hold. unfold thread_at in Hold. destruct (v_threads v0 !! (newID raw, th_ID (saved_thread t))) eqn:E; [|done].
      destruct (vk_owner _ v0_ok _ _ (mk_is_Some _ _ E)) as [g Hg]. by rewrite Hfresh in Hg.
    + exists (saved_thread t). rewrite written_single, Eid. cbn. rewrite lookup_insert_eq. by split.
    + rewrite written_single, Eid, lookup_insert_eq. by eexists.
  - intros ?. eapply spec_bind with (R := λ _ _, True); [by apply spec_read|]. intros ?. by apply spec_lift.
Qed.

(** ** Threads *)

(** What an operation on the threads of a task works with. *)
Definition open_task (id : string) (t : Task) : Prop := loaded v0 id t ∧ tk_Status t ≠ StatusCompleted ∧ ¬ passed t.

Lemma mutable_task_open d m id t : held d → mutable_task d m id = Ok t → open_task id t ∧ loadLocked d m id = Ok t.
Proof.
  intros (_ & Hf & _) E. unfold mutable_task in E. apply bind_Ok in E as (t' & El & E).
  apply bind_Ok in E as (? & Hm%requireMutable_Ok & E). apply bind_Ok in E as (? & Hp%requireFinalReviewOpen_Ok & E). injection E as ->.
  split; [|done]. split_and!; [|done..]. rewrite <- Hf. eapply load_Ok; [|exact El]. by rewrite Hf.
Qed.

Lemma open_stored id t d n th :
  open_task id t → held d → loadThreadLocked d t n = Ok th → v_threads v0 !! (id, n) = Some (thread_file th) ∧ thread_ok id n th.
Proof.
  intros ([Hok (t0 & Ht0 & _) _] & _) (_ & Hf & _) E. apply load_thread_stored in E.
  - rewrite (ok_id _ _ Hok) in E. by rewrite <- Hf.
  - by rewrite Hf.
  - rewrite (ok_id _ _ Hok). change (td_tasks d) with (v_tasks (files d)). rewrite Hf.
    by eapply stored_some.
Qed.

Lemma open_after id t t' : open_task id t → task_after t t' → ∀ old, task_at v0 id = Some old → task_after old t'.
Proof.
  intros ([_ (t0 & Ht0 & Ha & _) _] & _) Ht old Hold. rewrite Ht0 in Hold. injection Hold as <-. by eapply task_after_trans.
Qed.

Lemma open_main id t : open_task id t → is_Some (v_threads v0 !! (id, MainThreadID)).
Proof.
  intros ([_ (t0 & Ht0 & _) _] & _). apply (vk_main _ v0_ok). by eapply stored_some.
Qed.

Lemma open_some id t : open_task id t → is_Some (v_tasks v0 !! id).
Proof. intros ([_ (t0 & Ht0 & _) _] & _). by eapply stored_some. Qed.

(** Another thread and another review of a task that is open. *)
Lemma project_open id t th review :
  open_task id t → steps_ok (th_Steps th) → review = tk_FinalReview t ∨ review = None →
  task_ok id ((projectThread t th) <| tk_FinalReview := review |>) ∧ task_after t ((projectThread t th) <| tk_FinalReview := review |>).
Proof.
  intros ([[] _ _] & Hne & Hp) Hs Hr.
  split; split; cbn; try done.
  intros r -> Hpass. destruct Hp. destruct Hr as [Hr|Hr]; [|done]. by exists r.
Qed.

(** Saving one thread that moved forward with its task. *)
Lemma one_thread_keeps id t t' n th th' :
  open_task id t → v_threads v0 !! (id, n) = Some (thread_file th) → thread_ok id n th →
  thread_after th th' → steps_ok (th_Steps th') →
  task_ok id t' → task_after t t' →
  (tk_ActiveThreadID t' = n ∧ tk_Steps t' = th_Steps th' ∨ tk_ActiveThreadID t' = tk_ActiveThreadID t ∧ tk_ActiveThreadID t ≠ n ∧ tk_Steps t' = tk_Steps t) →
  spec (safe forward) held (saveThreadBundleLocked t' [th']) (λ _ _, True).
Proof.
  intros Ho Hl Hthok Ha Hs Hok' Hta Hact. pose proof (tf_id _ _ Ha) as [Eid Etask]. rewrite (to_id _ _ _ Hthok) in Eid.
  apply (bundle_keeps id).
  - left. by eapply open_some.
  - done.
  - by apply (open_after id t).
  - intros x ->%list_elem_of_singleton. split_and!; [by rewrite Etask, (to_task _ _ _ Hthok)|done|].
    rewrite Eid. intros old Hold. unfold thread_at in Hold. rewrite Hl in Hold. by injection Hold as <-.
  - rewrite written_single, Eid. destruct Hact as [[-> E]|(-> & Hne & E)].
    + exists th'. by rewrite lookup_insert_eq, E.
    + destruct (ld_thread _ _ _ (proj1 Ho)) as (tha & _ & Hla & Hsa & _). exists tha. split; [|by rewrite E].
      rewrite lookup_insert_ne; [done|]. by intros [= ->].
  - rewrite written_single. apply lookup_insert_is_Some'. right. by eapply open_main.
Qed.

Lemma switch_keeps busy now id n : keeps (SwitchThread busy now id n).
Proof.
  unfold keeps, SwitchThread. eapply spec_bind with (R := λ p d, held d ∧ open_task id p.1 ∧
    v_threads v0 !! (id, n) = Some (thread_file p.2) ∧ thread_ok id n p.2).
  - eapply spec_weaken; [apply reading_held|by intros|]. intros [t th] d _ [Hh (m & E)]. apply bind_Ok in E as (t' & Et & E).
    apply bind_Ok in E as (th' & Eth & E). apply reject_bind_Ok in E as [_ E]. injection E as -> ->.
    destruct (mutable_task_open _ _ _ _ Hh Et) as [Ho _].
    exact (conj Hh (conj Ho (open_stored _ _ _ _ _ Ho Hh Eth))).
  - intros [t th]. cbv zeta. eapply spec_bind with (R := λ _ _, True); [|intros ?; by apply spec_ret].
    apply spec_pre. intros d (Hh & Ho & Hl & Hthok). eapply spec_weaken with (P := held); [|by intros d' _ ->|done].
    destruct (project_open id t th None Ho (to_steps _ _ _ Hthok)) as [Hok Hta]; [by right|].
    apply (one_thread_keeps id t _ n th th); [done..|reflexivity|apply Hthok| | |].
    + by apply (task_ok_core id ((projectThread t th) <| tk_FinalReview := None |>)); [reflexivity|apply (ok_events _ _ Hok)|].
    + by apply (task_after_core t ((projectThread t th) <| tk_FinalReview := None |>)).
    + left. split; [|done]. apply (to_id _ _ _ Hthok).
Qed.

Lemma drop_review t : drop_failed_review t = t <| tk_FinalReview := tk_FinalReview (drop_failed_review t) |>.
Proof. unfold drop_failed_review. destruct (review_is _ t); by destruct t. Qed.

Lemma update_keeps busy now id n action input : keeps (UpdateThread busy now id n action input).
Proof.
  unfold keeps, UpdateThread. eapply spec_bind with (R := λ _, start); [by apply spec_lift|]. intros ?.
  set (n' := λ t, if n =s "" then tk_ActiveThreadID t else n).
  eapply spec_bind with (R := λ p d, held d ∧ open_task id p.1.1 ∧
    (v_threads v0 !! (id, n' p.1.1) = Some (thread_file p.1.2) ∧ thread_ok id (n' p.1.1) p.1.2) ∧
    update_thread p.1.1 p.1.2 action input now = Ok p.2).
  - eapply spec_weaken; [apply reading_held|by intros|]. intros [[t th] o] d _ [Hh (m & E)]. apply bind_Ok in E as (t' & Et & E).
    apply bind_Ok in E as (th' & Eth & E). apply bind_Ok in E as (o' & Eo & E). injection E as -> -> ->.
    destruct (mutable_task_open _ _ _ _ Hh Et) as [Ho _].
    exact (conj Hh (conj Ho (conj (open_stored _ _ _ _ _ Ho Hh Eth) Eo))).
  - intros [[t th] [up|]]; [|by apply spec_ret]. destruct (updated_bundle now t up) as [t2 th2] eqn:Eb.
    eapply spec_bind with (R := λ _ _, True); [|intros ?; by apply spec_ret].
    apply spec_pre. intros d (Hh & Ho & (Hl & Hthok) & Eu). eapply spec_weaken with (P := held); [|by intros d' _ ->|done].
    destruct (update_thread_after _ _ _ _ _ _ Eu (to_steps _ _ _ Hthok)) as [Hs Ha].
    unfold updated_bundle in Eb. cbv zeta in Eb. set (up' := up <| th_UpdatedAt := now |>) in *.
    cbn [fst snd] in Hl, Hthok, Ho, Ha. assert (th_ID up' = n' t) as Eup. { destruct (tf_id _ _ Ha) as [E _]. cbn. by rewrite E, (to_id _ _ _ Hthok). }
    assert (thread_after th up') as Ha' by (destruct Ha; by split).
    set (t1 := t <| tk_UpdatedAt := now |>) in *.
    assert (open_task id t1) as Ho1.
    { destruct Ho as ([Hok (t0 & Ht0 & Ha0 & Eact) Hth] & Hne & Hp). split_and!; [|done..].
      split; [|exists t0; by split_and!; [|apply (task_after_core t0 t)|]|done].
      by apply (task_ok_core id t); [|apply (ok_events _ _ Hok)|]. }
    injection Eb as Et2 <-. destruct (String.eqb_spec (th_ID up) (tk_ActiveThreadID t)) as [Eact|Eact]; subst t2.
    + rewrite drop_review. set (review := tk_FinalReview _). assert (review = tk_FinalReview t1 ∨ review = None) as Hr.
      { subst review. unfold drop_failed_review. destruct (review_is FinalReviewFailed (projectThread t1 up')); [by right|by left]. }
      destruct (project_open id t1 up' review Ho1 Hs Hr) as [Hok Hta].
      apply (one_thread_keeps id t1 _ (n' t) th up'); [done..|]. left. by split.
    + apply (one_thread_keeps id t1 _ (n' t) th up'); [done..|apply Ho1|apply task_after_refl|]. right.
      split_and!; [done| |done]. by rewrite <- Eup.
Qed.

Lemma create_thread_keeps busy now raw id source fork input :
  v_threads v0 !! (id, newOpaqueID "thr_" raw) = None → keeps (CreateThread busy now raw id source fork input).
Proof.
  intros Hfresh. unfold keeps, CreateThread. set (fresh := newOpaqueID "thr_" raw) in *. clearbody fresh.
  eapply spec_bind with (R := λ _, start); [by apply spec_lift|]. intros ?.
  set (n' := λ t, if source =s "" then tk_ActiveThreadID t else source).
  eapply spec_bind with (R := λ p d, held d ∧ open_task id p.1.1 ∧
    (v_threads v0 !! (id, n' p.1.1) = Some (thread_file p.1.2) ∧ thread_ok id (n' p.1.1) p.1.2) ∧
    create_thread p.1.2 fresh fork input now = Ok p.2).
  - eapply spec_weaken; [apply reading_held|by intros|]. intros [[t src] th] d _ [Hh (m & E)]. apply bind_Ok in E as (t' & Et & E).
    apply bind_Ok in E as (ths & _ & E). apply reject_bind_Ok in E as [_ E]. apply bind_Ok in E as (src' & Esrc & E).
    apply bind_Ok in E as (th' & Eth & E). injection E as -> -> ->. destruct (mutable_task_open _ _ _ _ Hh Et) as [Ho _].
    exact (conj Hh (conj Ho (conj (open_stored _ _ _ _ _ Ho Hh Esrc) Eth))).
  - intros [[t src] th]. cbn [fst snd]. eapply spec_bind with (R := λ _ _, True); [|intros ?; by apply spec_ret].
    apply spec_pre. intros d (Hh & Ho & (Hl & Hsrc) & Eth). eapply spec_weaken with (P := held); [|by intros d' _ ->|done].
    destruct (create_thread_ok _ _ _ _ _ _ Eth (to_steps _ _ _ Hsrc)) as (Eid & Etask & Hs).
    set (t1 := t <| tk_UpdatedAt := now |>). destruct (ld_thread _ _ _ (proj1 Ho)) as (tha & _ & Hla & Hsa & _).
    assert (∀ n f, v_threads v0 !! (id, n) = Some f → n ≠ fresh) as Hother.
    { intros n f Hn ->. by rewrite Hfresh in Hn. }
    assert (v_threads v0 !! (id, th_ID src) = Some (thread_file src)) as Hl' by (by rewrite (to_id _ _ _ Hsrc)).
    assert (∀ n, is_Some (v_threads v0 !! (id, n)) → (written id [src; th] ∪ v_threads v0) !! (id, n) = v_threads v0 !! (id, n)) as Hsame.
    { intros n [f Hn]. rewrite written_cons, written_single, Eid. pose proof (Hother n f Hn).
      rewrite lookup_insert_ne by congruence. destruct (decide (th_ID src = n)) as [<-|Hne].
      - by rewrite lookup_insert_eq.
      - apply lookup_insert_ne. congruence. }
    apply (bundle_keeps id).
    + left. by eapply open_some.
    + apply (task_ok_core id t); [done|apply (ok_events _ _ (ld_ok _ _ _ (proj1 Ho)))|apply (ld_ok _ _ _ (proj1 Ho))].
    + apply (open_after id t); [done|]. by apply (task_after_core t t); [|apply task_after_refl].
    + intros x [->|[->|[]%not_elem_of_nil]%elem_of_cons]%elem_of_cons.
      * split_and!; [apply Hsrc|apply Hsrc|]. intros old Hold. unfold thread_at in Hold. rewrite Hl' in Hold. by injection Hold as <-.
      * split_and!; [by rewrite Etask, (to_task _ _ _ Hsrc)|done|]. intros old Hold. unfold thread_at in Hold.
        by rewrite Eid, Hfresh in Hold.
    + exists tha. split; [|done]. change (tk_ActiveThreadID t1) with (tk_ActiveThreadID t). by rewrite Hsame by (by eexists).
    + pose proof (open_main _ _ Ho). by rewrite Hsame.
Qed.

(** ** Management, deletion and claims *)

Lemma held_forward d : held d → safe forward d.
Proof. intros (Hcl & Hf & Hc). unfold safe. rewrite (view_clean _ Hcl), Hf, Hc. by apply unmoved_forward. Qed.

Lemma manage_keeps busy now now' id change : keeps (ManageMetadata busy now now' id change).
Proof.
  unfold keeps, ManageMetadata. eapply spec_bind; [apply acquire_held|]. intros m.
  eapply spec_bind with (R := λ _ _, True); [by apply spec_read|]. intros d'.
  eapply spec_bind with (R := λ _ _, True); [by apply spec_lift|]. intros task. cbv zeta.
  eapply spec_bind with (R := λ _ _, True); [by apply spec_lift|]. intros [g title].
  eapply spec_bind with (R := λ _ _, True); [|intros ?; by apply spec_ret].
  eapply spec_weaken; [apply management_write_spec|by intros ? _ HP; exact HP|done].
Qed.

Lemma archive_keeps busy busy' now now' id archive : keeps (Archive busy busy' now now' id archive).
Proof.
  unfold keeps, Archive. eapply spec_bind with (R := λ _, start).
  - unfold Get. eapply spec_weaken; [apply reading_held|by intros|]. intros t d _ [(Hcl & Hf & Hc) _].
    unfold start, safe. by rewrite (view_clean _ Hcl).
  - intros task. apply spec_if; intros _; [apply spec_fail|apply manage_keeps].
Qed.

(** A deletion is of a task in the recycle bin, and of that task only. *)
Lemma delete_erases busy id :
  spec (safe (λ v c, c = c0 ∧ (v = v0 ∨ v = erase id v0))) start (Delete busy id)
    (λ t d, clean d ∧ tk_TrashedAt t ≠ None ∧ files d = erase id v0).
Proof.
  set (J := λ v c, c = c0 ∧ (v = v0 ∨ v = erase id v0)).
  assert (∀ v c, unmoved v c → J v c) as HJ by (intros v c [-> ->]; by split; [|left]).
  unfold Delete. eapply spec_bind with (R := λ _ d, held d).
  { eapply spec_weaken.
    - apply (spec_under (safe unmoved) (safe J)); [intros d; apply HJ|apply (acquire_spec unmoved busy)].
    - intros d _ Hs. by split.
    - intros m d _ [Hs Hc]. by apply start_held. }
  intros m. eapply spec_bind with (R := λ d' d, held d ∧ d' = d); [by apply spec_read|]. intros d'.
  eapply spec_bind with (R := λ t d, held d ∧ tk_ID t = id).
  { apply spec_lift. intros t d E _ [Hh ->]. split; [done|]. destruct Hh as (_ & Hf & _).
    apply (ok_id id t), (ld_ok (files d) id t). eapply load_Ok; [|exact E]. by rewrite Hf. }
  intros t. eapply spec_bind with (R := λ _ d, clean d ∧ tk_TrashedAt t ≠ None ∧ files d = erase id v0); [|intros ?; by apply spec_ret].
  apply spec_catch; [|intros e; apply spec_fail]. eapply spec_weaken.
  - apply (delete_managed_spec J m t (λ d, held d ∧ tk_ID t = id)). intros d _ [(Hcl & Hf & Hc) Hid]. split; [done|].
    intros _. rewrite Hf, Hc, Hid. by split; [|right].
  - by intros.
  - intros ? d _ (Hcl & d0 & [(_ & Hf & _) Hid] & Htr & E). by rewrite E, Hf, Hid.
Qed.

Lemma claim_unmoved busy cancelled recent limit now :
  spec (safe (λ v _, v = v0)) (λ _, True) (ClaimCompletionNotifications busy cancelled recent limit now) (λ _ _, True).
Proof.
  unfold ClaimCompletionNotifications. do 2 (apply spec_if; intros _; [apply spec_fail|]).
  eapply spec_bind with (R := λ _, clean).
  - unfold reading. eapply spec_bind; [apply acquire_spec|]. intros m.
    eapply spec_bind with (R := λ _, clean); [by apply spec_read|]. intros d'. by apply spec_lift.
  - intros [claimed items]. apply spec_if; intros _; [by apply spec_ret|]. apply spec_if; intros _; [apply spec_fail|].
    eapply spec_bind with (R := λ _ _, True); [|intros ?; by apply spec_ret]. by apply spec_write.
Qed.
End Keeps.

(** ** Operations and histories *)

(** The operations of the store; [ORead] is any of Get, GetThread, ListThreads,
    ListHistory, ManagedTasks and Discover, which read it under its lock. *)
Inductive op : Type :=
  | OCreate (busy : bool) (now : Time) (raw : list ascii) (title goal project device : string) (texts : list string)
      (steps : list TaskStepInput) (refs : list TemplateReference) (bindings : list EvolutionBinding)
  | OCheckpoint (busy : bool) (now : Time) (id stepID status summary : string)
  | OBatchCheckpoint (busy : bool) (now : Time) (id : string) (completed : list string) (current summary : string)
  | OBlock (busy : bool) (now : Time) (id summary : string)
  | OResume (busy : bool) (now : Time) (id summary : string)
  | OFinalReview (busy : bool) (now : Time) (raw : list ascii) (id : string) (input : FinalReviewInput)
  | OComplete (busy : bool) (now : Time) (raw : list ascii) (id : string)
  | OCompleteWithSource (busy : bool) (now : Time) (raw : list ascii) (id conversation thread : string)
  | OCancel (busy : bool) (now : Time) (id reason : string)
  | OSetWorkspace (busy : bool) (now : Time) (id workspaceID : string)
  | OSetGuidanceContext (busy : bool) (now : Time) (id : string) (items : list EvolutionContextItem)
  | OSetEvolutionCandidates (busy : bool) (now : Time) (id revision : string) (items : list EvolutionContextItem)
  | OBindEvolution (busy : bool) (now : Time) (id : string) (binding : EvolutionBinding)
  | OCreateThread (busy : bool) (now : Time) (raw : list ascii) (id source : string) (fork : bool) (input : ThreadInput)
  | OSwitchThread (busy : bool) (now : Time) (id thread : string)
  | OUpdateThread (busy : bool) (now : Time) (id thread action : string) (input : ThreadInput)
  | OManageMetadata (busy : bool) (now now' : Time) (id : string) (change : MetadataChange)
  | OArchive (busy busy' : bool) (now now' : Time) (id : string) (archive : bool)
  | ODelete (busy : bool) (id : string)
  | OClaim (busy : bool) (cancelled : nat → bool) (recent : string → bool) (limit : Z) (now : Time)
  | ORead (busy : bool) (f : disk → gmap string taskManagement → result unit).

Definition exec (o : op) : io disk unit :=
  match o with
  | OCreate busy now raw title goal project device texts steps refs bindings =>
      CreateWithContext busy now raw title goal project device texts steps refs bindings;; mret tt
  | OCheckpoint busy now id stepID status summary => Checkpoint busy now id stepID status summary;; mret tt
  | OBatchCheckpoint busy now id completed current summary => BatchCheckpoint busy now id completed current summary;; mret tt
  | OBlock busy now id summary => Block busy now id summary;; mret tt
  | OResume busy now id summary => Resume busy now id summary;; mret tt
  | OFinalReview busy now raw id input => FinalReview_ busy now raw id input;; mret tt
  | OComplete busy now raw id => Complete busy now raw id;; mret tt
  | OCompleteWithSource busy now raw id conversation thread => CompleteWithSource busy now raw id conversation thread;; mret tt
  | OCancel busy now id reason => Cancel busy now id reason;; mret tt
  | OSetWorkspace busy now id workspaceID => SetWorkspace busy now id workspaceID;; mret tt
  | OSetGuidanceContext busy now id items => SetGuidanceContext busy now id items;; mret tt
  | OSetEvolutionCandidates busy now id revision items => SetEvolutionCandidates busy now id revision items;; mret tt
  | OBindEvolution busy now id binding => BindEvolution busy now id binding;; mret tt
  | OCreateThread busy now raw id source fork input => CreateThread busy now raw id source fork input;; mret tt
  | OSwitchThread busy now id thread => SwitchThread busy now id thread;; mret tt
  | OUpdateThread busy now id thread action input => UpdateThread busy now id thread action input;; mret tt
  | OManageMetadata busy now now' id change => ManageMetadata busy now now' id change;; mret tt
  | OArchive busy busy' now now' id archive => Archive busy busy' now now' id archive;; mret tt
  | ODelete busy id => Delete busy id;; mret tt
  | OClaim busy cancelled recent limit now => ClaimCompletionNotifications busy cancelled recent limit now;; mret tt
  | ORead busy f => reading busy f
  end.

(** The identifiers an operation draws are new. *)
Definition op_fresh (v : view) (o : op) : Prop :=
  match o with
  | OCreate _ _ raw _ _ _ _ _ _ _ _ => length raw = 8%nat ∧ v_tasks v !! newID raw = None
  | OCreateThread _ _ raw id _ _ _ => v_threads v !! (id, newOpaqueID "thr_" raw) = None
  | _ => True
  end.

Definition removes (o : op) : option string := match o with ODelete _ id => Some id | _ => None end.
Definition claims (o : op) : bool := match o with OClaim _ _ _ _ _ => true | _ => false end.

(** The task that an operation may create. *)
Definition creates (o : op) : option string :=
  match o with OCreate _ _ raw _ _ _ _ _ _ _ _ => Some (newID raw) | _ => None end.

Lemma keeps_unit {A} v0 c0 born (m : io disk A) : keeps v0 c0 born m → keeps v0 c0 born (m;; mret tt).
Proof. intros Hm. eapply spec_bind; [exact Hm|]. intros ?. by apply spec_ret. Qed.

Lemma exec_keeps v0 c0 o : view_ok v0 → op_fresh v0 o → removes o = None → claims o = false → keeps v0 c0 (creates o) (exec o).
Proof.
  intros Hv Hf Hr Hc. destruct o; cbn [op_fresh removes claims exec] in *; try discriminate; try apply keeps_unit.
  - destruct Hf. by apply create_keeps.
  - by apply mutate_keeps, checkpoint_good.
  - by apply mutate_keeps, batch_good.
  - by apply mutate_keeps, block_good.
  - by apply mutate_keeps, resume_good.
  - by apply mutate_keeps, review_good.
  - by apply mutate_keeps, complete_good.
  - unfold CompleteWithSource. apply spec_if; intros _; [apply spec_fail|]. by apply mutate_keeps, complete_source_good.
  - by apply mutate_keeps, cancel_good.
  - unfold SetWorkspace. apply spec_if; intros _; [apply spec_fail|]. by apply mutate_keeps, workspace_good.
  - by apply mutate_keeps, guidance_good.
  - by apply mutate_keeps, candidates_good.
  - unfold BindEvolution. eapply spec_bind with (R := λ _, start v0 c0); [by apply spec_lift|]. intros b.
    by apply mutate_keeps, bind_good.
  - by apply create_thread_keeps.
  - by apply switch_keeps.
  - by apply update_keeps.
  - by apply manage_keeps.
  - by apply archive_keeps.
  - by apply reading_keeps.
Qed.

Lemma exec_forward o d l :
  view_ok (view_of d) → op_fresh (view_of d) o → removes o = None → claims o = false →
  let d' := run_disk (exec o d l) in
  view_ok (view_of d') ∧ view_after (view_of d) (view_of d') ∧ td_claims d' = td_claims d ∧
  ∀ id, is_Some (v_tasks (view_of d') !! id) → is_Some (v_tasks (view_of d) !! id) ∨ creates o = Some id.
Proof.
  intros Hv Hf Hr Hc. cbn zeta. destruct (exec_keeps (view_of d) (td_claims d) o Hv Hf Hr Hc d l) as [HJ _].
  - apply unmoved_forward; [done|by split].
  - by split.
  - exact HJ.
Qed.

Lemma exec_delete busy id d l :
  view_ok (view_of d) → let d' := run_disk (exec (ODelete busy id) d l) in
  td_claims d' = td_claims d ∧ (view_of d' = view_of d ∨ view_of d' = erase id (view_of d)).
Proof.
  intros Hv. assert (spec (safe (λ v c, c = td_claims d ∧ (v = view_of d ∨ v = erase id (view_of d)))) (start (view_of d) (td_claims d))
    (Delete busy id;; mret tt) (λ _ _, True)) as Hs.
  { eapply spec_bind; [by apply delete_erases|]. intros ?. by apply spec_ret. }
  destruct (Hs d l) as [HJ _]; [by split; [|left]|by split|]. exact HJ.
Qed.

Lemma exec_claim_view busy cancelled recent limit now d l :
  view_of (run_disk (exec (OClaim busy cancelled recent limit now) d l)) = view_of d.
Proof.
  assert (spec (safe (λ v _, v = view_of d)) (λ _, True)
    (ClaimCompletionNotifications busy cancelled recent limit now;; mret tt) (λ _ _, True)) as Hs.
  { eapply spec_bind; [by apply claim_unmoved|]. intros ?. by apply spec_ret. }
  by destruct (Hs d l) as [HJ _].
Qed.

Lemma life_cycle o d l :
  view_ok (view_of d) → op_fresh (view_of d) o →
  let d' := run_disk (exec o d l) in
  view_ok (view_of d') ∧
  match removes o with
  | None => view_after (view_of d) (view_of d')
  | Some id => view_of d' = view_of d ∨ view_of d' = erase id (view_of d)
  end.
Proof.
  intros Hv Hf. cbn zeta. destruct (removes o) as [id|] eqn:Er.
  - destruct o; try discriminate. injection Er as ->. destruct (exec_delete busy id d l Hv) as [_ [->| ->]]; split; auto.
    by apply view_ok_erase.
  - destruct (claims o) eqn:Ec.
    + destruct o; try discriminate. rewrite exec_claim_view. by split.
    + by destruct (exec_forward o d l Hv Hf Er Ec) as (? & ? & _).
Qed.

(** The disks a store goes through. *)
Definition new_store : disk := mkDisk ∅ ∅ None None None None.

Inductive reachable : disk → Prop :=
  | reachable_new : reachable new_store
  | reachable_op d o l : reachable d → op_fresh (view_of d) o → reachable (run_disk (exec o d l)).

Lemma reachable_view d : reachable d → view_ok (view_of d).
Proof. induction 1 as [|d o l _ IH Hf]; [apply view_ok_empty|]. by apply life_cycle. Qed.

(** C1: a task never goes back.  Whatever operation runs on the store and
    whatever error or crash it meets, the store's tasks stay well formed; the
    steps of every thread only move from pending over in progress to
    completed, one at most being in progress; once a task has passed its final
    review, its review and its steps are fixed; once it is completed or
    cancelled, so are its outcome, its completion and its times; and only a
    deletion removes a task, with all its threads and nothing else. *)
Theorem task_life_cycle o d l :
  reachable d → op_fresh (view_of d) o →
  let d' := run_disk (exec o d l) in
  view_ok (view_of d') ∧
  match removes o with
  | None => view_after (view_of d) (view_of d')
  | Some id => view_of d' = view_of d ∨ view_of d' = erase id (view_of d)
  end.
Proof. intros Hr. apply life_cycle. by apply reachable_view. Qed.

(** C2: what an operation reads of a task makes sense, in every store that any
    history of operations, errors and crashes leads to.  A task that succeeded
    has passed a final review with verified facts, has all its steps completed,
    a completion identifier and a time; a task that was cancelled has a reason;
    a task that has not ended has no completion.  At most one of its steps is
    in progress, and its journal is bounded. *)
Theorem finished_task_was_reviewed d busy id l t :
  reachable d → run_outcome (Get busy id d l) = Done t →
  tk_ID t = id ∧
  (tk_Status t = StatusCompleted → tk_Outcome t = "success" →
     (∃ r, tk_FinalReview t = Some r ∧ fr_Status r = FinalReviewPass ∧ fr_VerifiedFacts r ≠ []) ∧
     all_completed (tk_Steps t) ∧ is_Some (tk_Completion t) ∧ is_Some (tk_CompletedAt t)) ∧
  (tk_Status t = StatusCompleted → tk_Outcome t ≠ "success" → tk_Outcome t = "cancelled" ∧ tk_CancelReason t ≠ "") ∧
  (tk_Status t ≠ StatusCompleted → tk_Completion t = None ∧ tk_CompletedAt t = None) ∧
  one_running (tk_Steps t) ∧
  Z.of_nat (length (tk_Events t)) <= maxTaskEvents ∧ (∀ e, e ∈ tk_Events t → len (ev_Summary e) <= maxTaskEventSummaryBytes).
Proof.
  intros Hr Hget. destruct (reading_held (view_of d) (td_claims d) None (reachable_view _ Hr) busy (λ d m, loadLocked d m id) d l) as [_ HQ].
  - apply unmoved_forward; [by apply reachable_view|by split].
  - by split.
  - destruct (HQ t Hget) as [(_ & Hf & _) (m & Hm)].
    destruct (load_Ok _ _ _ _ ltac:(rewrite Hf; by apply reachable_view) Hm) as [[? ? ? ? Hs [He1 He2] Hp Hu Hfin] _ _].
    split_and!; [done|..].
    + intros Hc Ho. destruct (Hfin Hc) as [(_ & (r & Hr' & Hpass) & _ & c & at_ & Hcomp & Hat)|(Ho' & _)]; [|by rewrite Ho' in Ho].
      destruct (Hp r Hr' Hpass) as (? & ? & _). split_and!; [by exists r|done|by rewrite Hcomp|by rewrite Hat].
    + intros Hc Ho. destruct (Hfin Hc) as [(Ho' & _)|(? & ? & _)]; [by rewrite Ho' in Ho|done].
    + intros Hc. by destruct (Hu Hc) as (? & ? & _).
    + apply Hs.
    + done.
    + exact He2.
Qed.
End History.

(** ** Witnesses *)

Definition sample_ops : list op :=
  [OCreate false 1000 sample_raw "T" "goal" "" "" sample_conditions sample_steps [] [];
   OCheckpoint false 2000 sample_id " a " "COMPLETED" "did it";
   OBatchCheckpoint false 3000 sample_id ["b"] "" "x";
   OFinalReview false 4000 sample_raw sample_id sample_review;
   OComplete false 5000 sample_raw sample_id].

Definition exec_all (ops : list op) (d : disk) : disk :=
  foldl (λ d o, run_disk (@exec sample_case sample_sizes o d [])) d ops.

Definition created_disk : disk := exec_all (take 1 sample_ops) empty_disk.
Definition finished_disk : disk := exec_all (take 5 sample_ops) empty_disk.
Definition finished_task : Task :=
  match run_outcome (@Get sample_sizes false sample_id finished_disk []) with Done t => t | _ => sample_task end.

Lemma sample_fresh n o :
  sample_ops !! n = Some o → op_fresh (@view_of sample_sizes (exec_all (take n sample_ops) empty_disk)) o ∧ claims o = false.
Proof.
  destruct n as [|n]; [intros [= <-]; by vm_compute|]. generalize (@view_of sample_sizes (exec_all (take (S n) sample_ops) empty_disk)) as v.
  intros v E. change (tail sample_ops !! n = Some o) in E. apply list_elem_of_lookup_2, list_elem_of_In in E.
  cbn in E. by repeat (destruct E as [<-|E]).
Qed.

(** A property of disks that the operations of the sample keep holds along it. *)
Lemma sample_along (P : disk → Prop) n :
  P empty_disk →
  (∀ d o, P d → op_fresh (@view_of sample_sizes d) o → claims o = false → P (run_disk (@exec sample_case sample_sizes o d []))) →
  P (exec_all (take n sample_ops) empty_disk).
Proof.
  intros H0 HS. induction n as [|n IH]; [done|]. destruct (sample_ops !! n) as [o|] eqn:E.
  - rewrite (take_S_r _ _ _ E). destruct (sample_fresh n o E). unfold exec_all in *. rewrite foldl_app. cbn [foldl]. by apply HS.
  - apply lookup_ge_None in E. by rewrite !take_ge in * by lia.
Qed.

Lemma sample_reachable n : @reachable sample_case sample_sizes (exec_all (take n sample_ops) empty_disk).
Proof. apply sample_along; [apply reachable_new|]. intros d o Hd Hf _. by apply reachable_op. Qed.

Lemma task_life_cycle_witness :
  @view_ok sample_sizes (@view_of sample_sizes (run_disk
    (@exec sample_case sample_sizes (OCheckpoint false 2000 sample_id "a" "completed" "did it") created_disk [Severed]))).
Proof.
  refine (proj1 (@task_life_cycle sample_case sample_sizes
    (OCheckpoint false 2000 sample_id "a" "completed" "did it") created_disk [Severed] _ _)); [exact (sample_reachable 1)|exact I].
Defined.

Lemma finished_task_was_reviewed_witness :
  tk_Status finished_task = StatusCompleted ∧
  ∃ r, tk_FinalReview finished_task = Some r ∧ fr_Status r = FinalReviewPass ∧ fr_VerifiedFacts r ≠ [].
Proof.
  assert (tk_Status finished_task = StatusCompleted) as Hs by (by vm_compute).
  split; [exact Hs|].
  refine (proj1 (proj1 (proj2 (@finished_task_was_reviewed sample_case sample_sizes finished_disk false sample_id []
    finished_task _ _)) Hs _)); [exact (sample_reachable 5)|by vm_compute|by vm_compute].
Defined.
