(* ===== verification/TaskNotify.v ===== *)
(** * TaskNotify: completion notifications (internal/taskstate/notifications.go)

    The tray and the observers claim notifications of completed tasks from the
    store; a claim is recorded before it is answered, and old claims are
    dropped.  The theorem: as long as the clock does not go back, no history
    of operations, claims, errors and crashes announces a task twice. *)

From S2P Require Import Prelude GoText Durable Metadata TaskState TaskStore TaskSample TaskLog TaskSpec TaskHistory.
Local Open Scope Z_scope.

(** ** Directory entries *)

Lemma entries_NoDup d : NoDup (entries d).
Proof.
  unfold entries. rewrite sort_by_perm. apply NoDup_ListNoDup, List.NoDup_filter, NoDup_ListNoDup.
  change (map fst (map_to_list (td_tasks d))) with ((map_to_list (td_tasks d)).*1). apply NoDup_fst_map_to_list.
Qed.

Lemma take_sort_sub {A} (less : A → A → bool) n l x : x ∈ take n (sort_by less l) → x ∈ l.
Proof. intros Hx. apply (elem_of_sort_by less). eapply elem_of_submseteq; [exact Hx|]. apply sublist_submseteq, sublist_take. Qed.

Lemma take_sort_NoDup {A B} (f : A → B) (less : A → A → bool) n l :
  NoDup (map f l) → NoDup (map f (take n (sort_by less l))).
Proof.
  intros Hnd. assert (NoDup (f <$> sort_by less l)) as Hs by (rewrite sort_by_perm; exact Hnd).
  eapply sublist_NoDup; [exact Hs|]. apply fmap_sublist, sublist_take.
Qed.

Section Notify.
Context `{UnicodeCase} `{Encoding}.

(** ** The candidates of a claim *)

(** The notification of a stored task that is not claimed yet. *)
Definition announces (v : view) (claimed : gmap string Time) (cutoff now : Time) (n : CompletionNotification) : Prop :=
  claimed !! cn_ID n = None ∧
  ∃ t c at_, task_at v (cn_TaskID n) = Some t ∧ tk_Status t = StatusCompleted ∧ tk_Outcome t = "success" ∧
    tk_Completion t = Some c ∧ tc_ID c = cn_ID n ∧ tk_CompletedAt t = Some at_ ∧ cn_CompletedAt n = at_ ∧ cutoff <= at_ <= now.

Lemma read_task_stored d name t :
  view_ok (files d) → read_task d name = Ok t → task_at (files d) name = Some t ∧ task_ok name t.
Proof.
  intros Hv E. unfold read_task in E. apply bind_Ok in E as (found & Hf & E).
  destruct (td_tasks d !! name) as [f|] eqn:Ef; [|by injection Hf as <-].
  destruct (vk_task _ Hv _ _ Ef) as (t0 & th & -> & Hok & _ & Hth & _). unfold readTaskStateFile, task_file in Hf. cbn in Hf.
  destruct (_ <? _); [discriminate|]. injection Hf as <-. unfold task_at. cbn. rewrite Ef.
  destruct (vk_thread _ Hv _ _ _ Hth) as (? & _ & []).
  rewrite (decode_stored name t0 Hok) in E by (by eapply validateThreadID_nonempty). by injection E as <-.
Qed.

Lemma completion_announces d m claimed cutoff now name t n :
  view_ok (files d) → read_task d name = Ok t → completion_of (applyManagementLocked m t) cutoff now = Some n →
  claimed !! cn_ID n = None → cn_TaskID n = name ∧ announces (files d) claimed cutoff now n.
Proof.
  intros Hv Hr E Hc. destruct (read_task_stored _ _ _ Hv Hr) as [Hat Hok].
  destruct (management_core m t) as (Ec & _). set (t1 := applyManagementLocked m t) in *.
  unfold core in Ec. injection Ec as Eid _ _ _ _ _ _ _ Es _ _ _ _ Ecomp Eat _ Eo _.
  unfold completion_of in E. destruct (tk_CompletedAt t1) as [at_|] eqn:E1; [|discriminate].
  destruct (tk_Completion t1) as [c|] eqn:E2; [|discriminate].
  destruct (_ || _) eqn:Eg in E; [discriminate|]. do 4 apply orb_false_iff in Eg as [Eg ?].
  apply negb_false_iff, String.eqb_eq in Eg. match goal with H : (_ ≠s "success") = false |- _ => apply negb_false_iff, String.eqb_eq in H end.
  destruct ((at_ <? cutoff) || (now <? at_)) eqn:Et; [discriminate|]. apply orb_false_iff in Et as [Et1%Z.ltb_ge Et2%Z.ltb_ge].
  injection E as <-. cbn in *. rewrite (ok_id _ _ Hok) in Eid. split; [done|]. split; [done|].
  rewrite Eid. exists t, c, at_. split_and!; try done; congruence.
Qed.

(** The candidates of a scan of distinct names: notifications of distinct
    tasks among them. *)
Lemma candidates_ok d m recent claimed cutoff now limit names done_ cands :
  view_ok (files d) → NoDup (done_ ++ names) →
  (∀ n, n ∈ cands → cn_TaskID n ∈ done_ ∧ announces (files d) claimed cutoff now n) → NoDup (map cn_TaskID cands) →
  let cands' := foldl (claim_entry d m recent claimed cutoff now limit) cands names in
  (∀ n, n ∈ cands' → announces (files d) claimed cutoff now n) ∧ NoDup (map cn_TaskID cands').
Proof.
  intros Hv. cbn zeta. revert done_ cands. induction names as [|name names IH]; intros done_ cands Hnd Hc Hn; cbn.
  { split; [|done]. intros n Hin. by apply Hc. }
  apply (IH (done_ ++ [name])); [by rewrite <- app_assoc|..].
  - intros n. unfold claim_entry. destruct (negb _); [intros Hin; destruct (Hc n Hin); split; [apply elem_of_app; by left|done]|].
    destruct (read_task d name) as [t|] eqn:Er; [|intros Hin; destruct (Hc n Hin); split; [apply elem_of_app; by left|done]].
    destruct (completion_of _ _ _) as [item|] eqn:Ei; [|intros Hin; destruct (Hc n Hin); split; [apply elem_of_app; by left|done]].
    destruct (claimed !! cn_ID item) eqn:Ec; [intros Hin; destruct (Hc n Hin); split; [apply elem_of_app; by left|done]|].
    cbn [not_nil is_nil negb]. intros [Hin| ->%list_elem_of_singleton]%take_sort_sub%elem_of_app.
    + destruct (Hc n Hin). split; [apply elem_of_app; by left|done].
    + destruct (completion_announces d m claimed cutoff now name t item Hv Er Ei Ec) as [-> ?].
      split; [apply elem_of_app; right; by apply list_elem_of_singleton|done].
  - unfold claim_entry. destruct (negb _); [done|]. destruct (read_task d name) as [t|] eqn:Er; [|done].
    destruct (completion_of _ _ _) as [item|] eqn:Ei; [|done]. destruct (claimed !! cn_ID item) eqn:Ec; [done|].
    cbn [not_nil is_nil negb]. apply take_sort_NoDup. rewrite map_app. cbn. apply NoDup_app. split_and!; [done| |apply NoDup_singleton].
    intros x (n & <- & Hin)%list_elem_of_In%in_map_iff Hx%list_elem_of_singleton. apply list_elem_of_In in Hin.
    destruct (completion_announces d m claimed cutoff now name t item Hv Er Ei Ec) as [Hname _]. rewrite Hname in Hx.
    destruct (Hc n Hin) as [Hd _]. rewrite Hx in Hd. apply NoDup_app in Hnd as (_ & Hdis & _). apply (Hdis name Hd). left.
Qed.

(** ** One claim *)

Definition decoded (c : option (file notificationClaims)) : result (gmap string Time) :=
  found ← readTaskStateFile c; decode_claims found.

(** The notifications [ns] are claimed, and the claims file holds them. *)
Definition claimed_now (v : view) (c c' : option (file notificationClaims)) (now : Time) (ns : list CompletionNotification) : Prop :=
  ∃ claimed, decoded c = Ok claimed ∧
    (∀ n, n ∈ ns → announces v claimed (now - CompletionNotificationAge) now n) ∧ NoDup (map cn_TaskID ns) ∧
    c' = Some (claims_file (next_claims claimed ns (now - CompletionNotificationAge) now)).

Lemma claim_spec v0 c0 busy cancelled recent limit now :
  view_ok v0 →
  spec (safe (λ v c, v = v0 ∧ (c = c0 ∨ ∃ ns, claimed_now v0 c0 c now ns))) (start v0 c0)
    (ClaimCompletionNotifications busy cancelled recent limit now)
    (λ ns d, ns = [] ∧ td_claims d = c0 ∨ claimed_now v0 c0 (td_claims d) now ns).
Proof.
  intros Hv. set (J := λ v c, v = v0 ∧ (c = c0 ∨ ∃ ns, claimed_now v0 c0 c now ns)).
  assert (∀ v c, unmoved v0 c0 v c → J v c) as HJ by (intros v c [-> ->]; by split; [|left]).
  unfold ClaimCompletionNotifications. do 2 (apply spec_if; intros _; [apply spec_fail|]).
  eapply spec_bind with (R := λ p d, held v0 c0 d ∧ decoded c0 = Ok p.1 ∧
    (∀ n, n ∈ p.2 → announces v0 p.1 (now - CompletionNotificationAge) now n) ∧ NoDup (map cn_TaskID p.2)).
  - unfold reading. eapply spec_bind with (R := λ _ d, held v0 c0 d).
    { eapply spec_weaken.
      - apply (spec_under (safe (unmoved v0 c0)) (safe J)); [intros d; apply HJ|apply (acquire_spec (unmoved v0 c0) busy)].
      - intros d _ Hs. by split.
      - intros m d _ [Hs Hc]. by apply start_held. }
    intros m. eapply spec_bind with (R := λ d' d, held v0 c0 d ∧ d' = d); [by apply spec_read|]. intros d'.
    apply spec_lift. intros [claimed cands] d E _ [Hh ->]. split; [done|]. destruct Hh as (_ & Hf & Hc).
    apply bind_Ok in E as (found & Efound & E). apply bind_Ok in E as (cl & Ecl & E). apply reject_bind_Ok in E as [_ E].
    cbv zeta in E. injection E as <- <-. cbn [fst snd]. split; [unfold decoded; by rewrite <- Hc, Efound|].
    rewrite <- Hf. apply (candidates_ok d m recent cl _ now limit (entries d) [] []); [by rewrite Hf|apply entries_NoDup| |constructor].
    by intros n ?%not_elem_of_nil.
  - intros [claimed cands]. cbn [fst snd]. apply spec_if; intros _; [apply spec_ret; intros d _ [(_ & _ & Hc) _]; by left|].
    cbv zeta. apply spec_if; intros _; [apply spec_fail|].
    eapply spec_bind with (R := λ _ d, claimed_now v0 c0 (td_claims d) now cands).
    + apply spec_write. intros d _ ((Hcl & Hf & Hc) & Hdec & Ha & Hnd).
      assert (claimed_now v0 c0 (Some (claims_file (next_claims claimed cands (now - CompletionNotificationAge) now))) now cands) as Hnow.
      { by exists claimed. }
      split; [|exact Hnow]. unfold safe. rewrite view_clean by exact Hcl. split; [exact Hf|]. right. by exists cands.
    + intros ?. apply spec_ret. intros d _ ?. by right.
Qed.

(** ** Histories *)

Definition delivered (o : outcome (list CompletionNotification)) : list CompletionNotification :=
  match o with Done ns => ns | _ => [] end.

(** [history d t told]: a store in state [d] after operations, claims at times
    up to [t], and the notifications [told] delivered to observers.  The
    identifiers of new tasks were never used before. *)
Inductive history : disk → Time → list CompletionNotification → Prop :=
  | history_new t : history new_store t []
  | history_op d t told o l :
      history d t told → claims o = false → op_fresh (view_of d) o →
      (∀ id, creates o = Some id → id ∉ map cn_TaskID told) →
      history (run_disk (exec o d l)) t told
  | history_claim d t told busy cancelled recent limit now l :
      history d t told → t <= now →
      history (run_disk (ClaimCompletionNotifications busy cancelled recent limit now d l)) now
        (told ++ delivered (run_outcome (ClaimCompletionNotifications busy cancelled recent limit now d l))).

(** A task that was announced, as long as it is there, is still completed, and
    its claim is recorded unless it is too old to be announced again. *)
Definition settled (d : disk) (t : Time) (n : CompletionNotification) : Prop :=
  ∀ tk, task_at (view_of d) (cn_TaskID n) = Some tk →
    tk_Status tk = StatusCompleted ∧ ∃ c at_, tk_Completion tk = Some c ∧ tc_ID c = cn_ID n ∧ tk_CompletedAt tk = Some at_ ∧
      (at_ < t - 2 * CompletionNotificationAge ∨
       ∃ claimed when, td_claims d = Some (claims_file claimed) ∧ claimed !! cn_ID n = Some when ∧ at_ <= when <= t).

Lemma next_claims_new claimed ns cutoff now n : n ∈ ns → next_claims claimed ns cutoff now !! cn_ID n = Some now.
Proof.
  unfold next_claims. generalize (filter (λ p : string * Time, cutoff - CompletionNotificationAge <= p.2) claimed) as m.
  induction ns as [|x ns IH] using rev_ind; intros m Hin; [by apply not_elem_of_nil in Hin|]. rewrite foldl_app. cbn.
  destruct (decide (cn_ID x = cn_ID n)) as [->|Hne]; [by rewrite lookup_insert_eq|]. rewrite lookup_insert_ne by done.
  apply elem_of_app in Hin as [Hin|Hin]; [by apply IH|]. apply list_elem_of_singleton in Hin as ->. done.
Qed.

Lemma next_claims_old claimed ns cutoff now id when :
  claimed !! id = Some when → cutoff - CompletionNotificationAge <= when →
  next_claims claimed ns cutoff now !! id = Some when ∨ next_claims claimed ns cutoff now !! id = Some now.
Proof.
  intros Hid Hw. unfold next_claims.
  set (m := filter _ claimed). assert (m !! id = Some when) as Hm by (by apply map_lookup_filter_Some).
  clearbody m. revert m Hm.
  induction ns as [|x ns IH] using rev_ind; intros m Hm; [by left|]. rewrite foldl_app. cbn.
  destruct (decide (cn_ID x = id)) as [->|Hne]; [right; by rewrite lookup_insert_eq|]. rewrite !lookup_insert_ne by done. by apply IH.
Qed.

Lemma decoded_claims_file claimed cl : decoded (Some (claims_file claimed)) = Ok cl → cl = claimed.
Proof.
  unfold decoded, readTaskStateFile, claims_file. cbn. destruct (_ <? _); [discriminate|]. cbn.
  intros E. apply reject_bind_Ok in E as [_ E]. by injection E.
Qed.

(** A task announced before is not announced again. *)
Lemma settled_not_again d t n claimed now n' :
  settled d t n → t <= now → decoded (td_claims d) = Ok claimed →
  announces (view_of d) claimed (now - CompletionNotificationAge) now n' → cn_TaskID n' ≠ cn_TaskID n.
Proof.
  intros Hs Ht Hdec [Hnew (tk & c & at_ & Htk & _ & _ & Hc & Hid & Hat & Hcat & Hlo & _)] E. rewrite E in Htk.
  destruct (Hs tk Htk) as (_ & c' & at' & Hc' & Hid' & Hat' & Hold). rewrite Hc in Hc'. injection Hc' as <-.
  rewrite Hat in Hat'. injection Hat' as <-. assert (0 <= CompletionNotificationAge) by done.
  destruct Hold as [Hold|(cl & when & Hcl & Hw & _)]; [lia|]. rewrite Hcl in Hdec. apply decoded_claims_file in Hdec as ->.
  rewrite <- Hid, Hid' in Hnew. pose proof (eq_trans (eq_sym Hw) Hnew). discriminate.
Qed.

Lemma settled_op d t n o l :
  settled d t n → view_ok (view_of d) → op_fresh (view_of d) o → claims o = false →
  (∀ id, creates o = Some id → id ≠ cn_TaskID n) → settled (run_disk (exec o d l)) t n.
Proof.
  intros Hs Hv Hf Hc Hnew tk Htk.
  assert (∀ tk0, task_at (view_of d) (cn_TaskID n) = Some tk0 → task_after tk0 tk → td_claims (run_disk (exec o d l)) = td_claims d →
    tk_Status tk = StatusCompleted ∧ ∃ c at_, tk_Completion tk = Some c ∧ tc_ID c = cn_ID n ∧ tk_CompletedAt tk = Some at_ ∧
      (at_ < t - 2 * CompletionNotificationAge ∨
       ∃ claimed when, td_claims (run_disk (exec o d l)) = Some (claims_file claimed) ∧ claimed !! cn_ID n = Some when ∧ at_ <= when <= t)) as Hkeep.
  { intros tk0 Htk0 Ha ->. destruct (Hs tk0 Htk0) as (Hst & c & at_ & Ecomp & Eid & Eat & Hold).
    destruct (ta_finished _ _ Ha Hst) as (? & _ & _ & Ec & Et & _). split; [done|]. exists c, at_. by rewrite Ec, Et. }
  destruct (removes o) as [id|] eqn:Er.
  - destruct o; try discriminate. injection Er as ->. destruct (exec_delete busy id d l Hv) as [Ecl [Ev|Ev]].
    + rewrite Ev in Htk. eapply Hkeep; [exact Htk|apply task_after_refl|exact Ecl].
    + rewrite Ev in Htk. unfold task_at, erase in Htk. cbn in Htk. destruct (delete id _ !! _) as [f|] eqn:E; [|discriminate].
      apply lookup_delete_Some in E as [_ E]. eapply Hkeep; [unfold task_at; by rewrite E|apply task_after_refl|exact Ecl].
  - destruct (exec_forward o d l Hv Hf Er Hc) as (Hv' & Ha & Ecl & Hdom).
    destruct (Hdom (cn_TaskID n)) as [[f Hold]|Hb].
    + unfold task_at in Htk. destruct (v_tasks _ !! _); [by eexists|discriminate].
    + destruct (vk_task _ Hv _ _ Hold) as (tk0 & _ & -> & _).
      destruct (va_tasks _ _ Ha (cn_TaskID n) tk0) as (tk' & Htk' & Haf); [unfold task_at; by rewrite Hold|].
      rewrite Htk in Htk'. injection Htk' as <-. eapply Hkeep; [unfold task_at; by rewrite Hold|done|done].
    + by destruct (Hnew _ Hb).
Qed.

Lemma settled_claim d d' t now n ns :
  settled d t n → t <= now → view_of d' = view_of d →
  (td_claims d' = td_claims d ∨ claimed_now (view_of d) (td_claims d) (td_claims d') now ns) → settled d' now n.
Proof.
  intros Hs Ht Ev Hc tk Htk. rewrite Ev in Htk. destruct (Hs tk Htk) as (Hst & c & at_ & Ecomp & Eid & Eat & Hold).
  split; [done|]. exists c, at_. split_and!; [done..|]. destruct Hold as [Hold|(cl & when & Ecl & Hw & Hlo & Hhi)]; [left; lia|].
  destruct Hc as [->|(cl' & Hdec & _ & _ & ->)]; [right; exists cl, when; split_and!; [done..|lia]|].
  rewrite Ecl in Hdec. apply decoded_claims_file in Hdec as ->.
  destruct (Z.le_gt_cases (now - CompletionNotificationAge - CompletionNotificationAge) when) as [Hle|Hgt]; [|left; lia].
  right. destruct (next_claims_old cl ns (now - CompletionNotificationAge) now _ _ Hw Hle) as [E|E];
    eexists; eexists; (split; [reflexivity|]); (split; [exact E|lia]).
Qed.

Lemma settled_new d d' now n ns :
  n ∈ ns → view_of d' = view_of d → claimed_now (view_of d) (td_claims d) (td_claims d') now ns → settled d' now n.
Proof.
  intros Hin Ev (claimed & _ & Ha & _ & Ec) tk Htk. rewrite Ev in Htk.
  destruct (Ha n Hin) as [_ (tk' & c & at_ & Htk' & Hst & _ & Hc & Hid & Hat & _ & Hlo & Hhi)]. rewrite Htk in Htk'. injection Htk' as <-.
  split; [done|]. exists c, at_. split_and!; [done..|]. right. exists (next_claims claimed ns (now - CompletionNotificationAge) now), now.
  split_and!; [done|by apply next_claims_new|lia|lia].
Qed.

Lemma notified_ok d t told :
  history d t told → view_ok (view_of d) ∧ (∀ n, n ∈ told → settled d t n) ∧ NoDup (map cn_TaskID told).
Proof.
  induction 1 as [t|d t told o l _ (Hv & Hs & Hnd) Hc Hf Hnew|d t told busy cancelled recent limit now l _ (Hv & Hs & Hnd) Ht].
  - split_and!; [apply view_ok_empty| |constructor]. by intros n ?%not_elem_of_nil.
  - split_and!; [by apply life_cycle| |done]. intros n Hin. apply settled_op; [by apply Hs|done..|].
    intros id Hid ->. apply (Hnew _ Hid). by apply list_elem_of_In, in_map, list_elem_of_In.
  - set (r := ClaimCompletionNotifications busy cancelled recent limit now d l).
    destruct (claim_spec (view_of d) (td_claims d) busy cancelled recent limit now Hv d l) as [[Ev HJ] HQ]; [by split; [|left]|by split|].
    fold r in Ev, HJ, HQ. destruct (run_outcome r) as [ns| |] eqn:Er; cbn [delivered].
    + destruct (HQ ns eq_refl) as [[-> Ec]|Hcl].
      * rewrite app_nil_r. split_and!; [by rewrite Ev| |done]. intros n Hin. eapply (settled_claim d _ t now n []); [by apply Hs|done|done|by left].
      * pose proof Hcl as (claimed & Hdec & Ha & Hnd' & _). split_and!; [by rewrite Ev| |].
        -- intros n [Hin|Hin]%elem_of_app; [by eapply (settled_claim d _ t now n ns); [apply Hs| | |right]|by eapply settled_new].
        -- rewrite map_app. apply NoDup_app. split_and!; [done| |done].
           intros x (n & <- & Hin)%list_elem_of_In%in_map_iff (n' & E & Hin')%list_elem_of_In%in_map_iff.
           apply list_elem_of_In in Hin, Hin'. eapply settled_not_again; [apply (Hs n Hin)|exact Ht|exact Hdec|apply (Ha n' Hin')|exact E].
    + rewrite app_nil_r. split_and!; [by rewrite Ev| |done]. intros n Hin.
      destruct HJ as [E|(ns & Hcl)]; eapply (settled_claim d _ t now n); eauto.
    + rewrite app_nil_r. split_and!; [by rewrite Ev| |done]. intros n Hin.
      destruct HJ as [E|(ns & Hcl)]; eapply (settled_claim d _ t now n); eauto.
Unshelve. all: exact [].
Qed.

(** C11: a completion is announced at most once.  Over any history of the
    store's operations and of claims by any number of observers, with any
    errors and crashes, as long as the clock of the claims does not go back no
    task is announced twice; and a task that was announced is, as long as it
    exists, completed. *)
Theorem completion_announced_once d t told :
  history d t told →
  NoDup (map cn_TaskID told) ∧
  ∀ n tk, n ∈ told → task_at (view_of d) (cn_TaskID n) = Some tk →
    tk_Status tk = StatusCompleted ∧ ∃ c, tk_Completion tk = Some c ∧ tc_ID c = cn_ID n.
Proof.
  intros Hh. destruct (notified_ok d t told Hh) as (_ & Hs & Hnd). split; [done|].
  intros n tk Hin Htk. destruct (Hs n Hin tk Htk) as (? & c & _ & ? & ? & _). split; [done|by exists c].
Qed.
End Notify.

(** ** Witness: the sample is finished, and claimed twice *)

Definition sample_claim : io disk (list CompletionNotification) :=
  @ClaimCompletionNotifications sample_sizes false (λ _, false) (λ _, true) 3 6000.
Definition first_claim : run disk (list CompletionNotification) := sample_claim finished_disk [].
Definition second_claim : run disk (list CompletionNotification) := sample_claim (run_disk first_claim) [].
Definition sample_told : list CompletionNotification :=
  ([] ++ delivered (run_outcome first_claim)) ++ delivered (run_outcome second_claim).

Lemma sample_told_one : map cn_TaskID sample_told = [sample_id].
Proof. by vm_compute. Qed.

Lemma sample_history n : @history sample_case sample_sizes (exec_all (take n sample_ops) empty_disk) 6000 [].
Proof.
  apply (sample_along (λ d, @history sample_case sample_sizes d 6000 [])); [apply history_new|].
  intros d o Hd Hf Hc. apply history_op; [done..|]. by intros ? _ ?%not_elem_of_nil.
Qed.

Lemma completion_announced_once_witness : NoDup (map cn_TaskID sample_told) ∧ map cn_TaskID sample_told = [sample_id].
Proof.
  split; [|exact sample_told_one].
  refine (proj1 (@completion_announced_once sample_case sample_sizes (run_disk second_claim) 6000 sample_told _)).
  exact (history_claim _ _ _ _ _ _ _ _ _ (history_claim _ _ _ _ _ _ _ _ _ (sample_history 5) (Z.le_refl _)) (Z.le_refl _)).
Defined.
