(* ===== verification/TaskLists.v ===== *)
(** * TaskLists: histories, pages and the index of tasks (internal/taskstate)

    What the queries of the store return, against reference definitions: the
    latest tasks of a history, the pages of a managed list, which together are
    its selection, and the index of open tasks, which keeps eight tasks while
    it scans and drops items until its encoding fits. *)

From stdpp Require Import sorting.
From S2P Require Import Prelude GoText Durable Metadata TaskState TaskStore TaskSample TaskLog TaskSpec TaskHistory TaskLog TaskSpec.
Local Open Scope Z_scope.

Lemma later_asym a b : later a b = true → later b a = false.
Proof. unfold later. rewrite Z.ltb_lt, Z.ltb_ge. lia. Qed.
Lemma later_trans a b c : in_order later a b → in_order later b c → in_order later a c.
Proof. unfold in_order, later. rewrite !Z.ltb_ge. lia. Qed.

Section Lists.
Context `{UnicodeCase} `{Encoding}.

(** ** Histories *)

(** a history is the latest of the tasks that can be read and match, at
    most as many as asked for (50 when the limit is out of range), the latest
    first: no task left out is later than a task returned. *)
Theorem history_is_latest d m status limit includeArchived :
  let bound := if (limit <=? 0) || (200 <? limit) then 50 else limit in
  let all := omap (history_item d m status includeArchived) (entries d) in
  let tasks := history_tasks d m status limit includeArchived in
  Z.of_nat (length tasks) = Z.min bound (Z.of_nat (length all)) ∧
  StronglySorted (λ a b, tk_UpdatedAt b <= tk_UpdatedAt a) tasks ∧
  ∃ rest, tasks ++ rest ≡ₚ all ∧ ∀ t t', t ∈ tasks → t' ∈ rest → tk_UpdatedAt t' <= tk_UpdatedAt t.
Proof.
  intros bound all tasks. set (k := Z.to_nat bound).
  assert (tasks = take k (sort_by later all)) as Et by reflexivity.
  assert (0 <= bound) as Hb. { subst bound. destruct (Z.leb_spec limit 0); cbn; [done|]. destruct (200 <? limit); lia. }
  split_and!.
  - rewrite Et, length_take, length_sort_by. subst k. lia.
  - rewrite Et. assert (StronglySorted (in_order later) (take k (sort_by later all))) as Hs.
    { apply take_sorted, sort_by_sorted; [apply later_asym|apply later_trans]. }
    revert Hs. generalize (take k (sort_by later all)) as l. induction 1 as [|x l _ IH Hx]; constructor; [done|]. eapply Forall_impl; [exact Hx|]. intros y Hy. by apply Z.ltb_ge.
  - exists (drop k (sort_by later all)). rewrite Et, take_drop. split; [apply sort_by_perm|]. intros t t' Ht Ht'.
    apply Z.ltb_ge. by apply (take_sort_least later later_asym later_trans k all).
Qed.

(** ** Pages *)

Lemma attach_id d t t' : attachThreadLocked d t = Ok t' → tk_ID t' = tk_ID t.
Proof.
  unfold attachThreadLocked. intros E. cbv zeta in E. apply bind_Ok in E as (th & _ & E). injection E as <-.
  by destruct (tk_ActiveThreadID t =s "").
Qed.

Lemma page_loop_ids d tasks warnings : map mt_ID (page_loop d tasks warnings).1 = map tk_ID tasks.
Proof.
  revert warnings. induction tasks as [|t tasks IH]; intros warnings; cbn; [done|].
  destruct (attachThreadLocked d t) as [t'|] eqn:E.
  - specialize (IH warnings). destruct (page_loop d tasks warnings) as [items w]. cbn in *. by rewrite IH, (attach_id _ _ _ E).
  - match goal with |- context [page_loop d tasks ?w] => specialize (IH w); destruct (page_loop d tasks w) as [items w'] end.
    cbn in *. by rewrite IH.
Qed.

(** The tasks that a query selects, in order. *)
Definition selection (d : disk) (m : gmap string taskManagement) (query : TaskQuery) : list Task :=
  sort_by managed_less (managed_scan d m query (entries d) [] []).1.

Lemma managed_page_eq d m query :
  tq_Selection query = false → 0 <= tq_Offset query → 1 <= tq_Limit query →
  let total := Z.of_nat (length (selection d m query)) in
  ∃ page, managed_page d m query = Ok page ∧ mp_Total page = total ∧
    map mt_ID (mp_Tasks page) = map tk_ID (take (Z.to_nat (tq_Limit query)) (drop (Z.to_nat (tq_Offset query)) (selection d m query))) ∧
    mp_NextOffset page = Z.min (Z.min (tq_Offset query) total + tq_Limit query) total ∧
    mp_HasMore page = (mp_NextOffset page <? total).
Proof.
  intros Hsel Hoff Hlim total. unfold managed_page, selection in *. destruct (managed_scan d m query (entries d) [] []) as [cands warnings].
  cbn [fst] in *. set (l := sort_by managed_less cands) in *. rewrite Hsel.
  set (s := Z.min (tq_Offset query) (Z.of_nat (length l))). set (e := Z.min (s + tq_Limit query) (Z.of_nat (length l))).
  pose proof (page_loop_ids d (slice l s e) warnings) as Hids. destruct (page_loop d (slice l s e) warnings) as [items w].
  eexists. split; [reflexivity|]. cbn in *. split_and!; [done| |done..]. rewrite Hids. f_equal. unfold slice.
  destruct (Z.le_gt_cases (tq_Offset query) (Z.of_nat (length l))) as [Hle|Hgt].
  - replace s with (tq_Offset query) in * by lia. destruct (Z.le_gt_cases (tq_Offset query + tq_Limit query) (Z.of_nat (length l))).
    + replace (e - tq_Offset query) with (tq_Limit query) by lia. done.
    + rewrite !take_ge; [done|rewrite length_drop; lia..].
  - rewrite !drop_ge by lia. by rewrite !take_nil.
Qed.

(** A client that asks for the pages one after another. *)
Fixpoint walk (d : disk) (m : gmap string taskManagement) (fuel : nat) (query : TaskQuery) : option (list string) :=
  match fuel with
  | O => None
  | S fuel' =>
      match managed_page d m query with
      | Err _ => None
      | Ok page =>
          let ids := map mt_ID (mp_Tasks page) in
          if mp_HasMore page then app ids <$> walk d m fuel' (query <| tq_Offset := mp_NextOffset page |>) else Some ids
      end
  end.

Lemma selects_paging query o s : selects (query <| tq_Offset := o |> <| tq_Selection := s |>) = selects query.
Proof. reflexivity. Qed.

Lemma scan_ext d m q q' names cands warnings :
  selects q = selects q' → managed_scan d m q names cands warnings = managed_scan d m q' names cands warnings.
Proof.
  intros E. revert cands warnings. induction names as [|name names IH]; intros cands warnings; cbn; [done|].
  destruct (readTaskStateFile _) as [[t|]|]; [|by rewrite IH..]. destruct (decodeTask t); [|by rewrite IH]. by rewrite E, IH.
Qed.

Lemma selection_offset d m query o : selection d m (query <| tq_Offset := o |>) = selection d m query.
Proof. unfold selection. by rewrite (scan_ext d m (query <| tq_Offset := o |>) query). Qed.

Lemma walk_from d m fuel query :
  tq_Selection query = false → 0 <= tq_Offset query → 1 <= tq_Limit query →
  (Z.to_nat (Z.of_nat (length (selection d m query)) - tq_Offset query) < fuel)%nat →
  walk d m fuel query = Some (map tk_ID (drop (Z.to_nat (tq_Offset query)) (selection d m query))).
Proof.
  revert query. induction fuel as [|fuel IH]; intros query Hsel Hoff Hlim Hfuel; [lia|].
  destruct (managed_page_eq d m query Hsel Hoff Hlim) as (page & Hpage & _ & Hids & Hnext & Hmore).
  cbn [walk]. rewrite Hpage, Hids, Hmore. set (l := selection d m query) in *.
  destruct (Z.ltb_spec (mp_NextOffset page) (Z.of_nat (length l))) as [Hlt|Hge].
  - assert (mp_NextOffset page = tq_Offset query + tq_Limit query) as En by lia.
    rewrite IH; [|done|cbn; lia|done|rewrite selection_offset; fold l; cbn; lia].
    rewrite selection_offset. fold l. cbn. rewrite <- map_app. do 2 f_equal. rewrite En.
    rewrite Z2Nat.inj_add by lia. rewrite <- drop_drop. by rewrite take_drop.
  - do 2 f_equal. apply take_ge. rewrite length_drop. lia.
Qed.

(** C26: paging through a managed list loses and repeats nothing: a client that
    starts at the beginning and follows the offsets it is given reaches the end
    within as many pages as there are tasks, and has seen exactly the tasks
    that a selection with the same filters selects, in the same order. *)
Theorem managed_pages_cover d m query :
  tq_Selection query = false → tq_Offset query = 0 → 1 <= tq_Limit query →
  Z.of_nat (length (selection d m query)) <= 10000 →
  ∃ sel, managed_page d m (query <| tq_Selection := true |>) = Ok sel ∧
    mp_Total sel = Z.of_nat (length (mp_SelectedIDs sel)) ∧
    walk d m (S (length (mp_SelectedIDs sel))) query = Some (mp_SelectedIDs sel).
Proof.
  intros Hsel Hoff Hlim Hsmall.
  assert (managed_page d m (query <| tq_Selection := true |>) =
    Ok (mkManagedTaskPage [] (Z.of_nat (length (selection d m query))) false 0 (map tk_ID (selection d m query))
      (managed_scan d m query (entries d) [] []).2)) as E.
  { unfold managed_page. rewrite (scan_ext d m (query <| tq_Selection := true |>) query) by done. unfold selection in *.
    destruct (managed_scan d m query (entries d) [] []) as [cands warnings]. cbn [fst snd] in *. cbn.
    by rewrite (proj2 (Z.ltb_ge _ _) Hsmall). }
  eexists. split; [exact E|]. cbn [mp_Total mp_SelectedIDs]. rewrite length_map. split; [done|].
  rewrite walk_from; [by rewrite Hoff|done|lia|done|lia].
Qed.

(** ** The index of open tasks *)

(** The task of an entry, where it reads, decodes and is open. *)
Definition open_entry (d : disk) (m : gmap string taskManagement) (name : string) : option Task :=
  match read_task d name with
  | Err _ => None
  | Ok task =>
      let task := applyManagementLocked m task in
      if not_nil (tk_TrashedAt task) || not_nil (tk_ArchivedAt task) then None
      else if (tk_Status task =s StatusActive) || (tk_Status task =s StatusBlocked) then Some task else None
  end.

Definition count_status (status : string) (tasks : list Task) : Z :=
  Z.of_nat (length (List.filter (λ t, tk_Status t =s status) tasks)).

Lemma discover_entry_eq d m name index cands :
  let r := discover_entry d m name index cands in
  r.2 = (match open_entry d m name with Some t => take MaxTaskIndexItems (sort_by later (cands ++ [t])) | None => cands end) ∧
  dx_ActiveCount r.1 = dx_ActiveCount index + count_status StatusActive (option_list (open_entry d m name)) ∧
  dx_BlockedCount r.1 = dx_BlockedCount index + count_status StatusBlocked (option_list (open_entry d m name)) ∧
  dx_Truncated r.1 = dx_Truncated index ∧ dx_Items r.1 = dx_Items index.
Proof.
  assert (∀ message, dx_ActiveCount (warn message index) = dx_ActiveCount index ∧ dx_BlockedCount (warn message index) = dx_BlockedCount index ∧
    dx_Truncated (warn message index) = dx_Truncated index ∧ dx_Items (warn message index) = dx_Items index) as Hw.
  { intros message. unfold warn. by destruct (_ <? _)%nat. }
  cbn zeta. unfold discover_entry, open_entry, read_task, count_status.
  destruct (readTaskStateFile _) as [[t|]|]; cbn [mbind result_bind fst snd].
  - destruct (decodeTask t) as [t'|]; cbn [fst snd].
    + set (t1 := applyManagementLocked m t'). destruct (_ || _); cbn; [split_and!; lia || done|].
      destruct (String.eqb_spec (tk_Status t1) StatusActive) as [Ea|Ea].
      * cbn. rewrite Ea. cbn. split_and!; lia || done.
      * destruct (String.eqb_spec (tk_Status t1) StatusBlocked) as [Eb|Eb]; cbn; [rewrite Eb; cbn|]; split_and!; lia || done.
    + destruct (Hw ("Invalid task " +:+ name +:+ ".json")) as (-> & -> & -> & ->). cbn. split_and!; lia || done.
  - destruct (Hw ("Could not read " +:+ name +:+ ".json")) as (-> & -> & -> & ->). cbn. split_and!; lia || done.
  - destruct (Hw ("Could not read " +:+ name +:+ ".json")) as (-> & -> & -> & ->). cbn. split_and!; lia || done.
Qed.

Lemma count_status_app status a b : count_status status (a ++ b) = count_status status a + count_status status b.
Proof. unfold count_status. rewrite List.filter_app, length_app. lia. Qed.

Lemma omap_cons_list {A B} (f : A → option B) x l : omap f (x :: l) = option_list (f x) ++ omap f l.
Proof. cbn. by destruct (f x). Qed.

(** The scan keeps the eight latest open tasks and counts them all. *)
Lemma discover_scan_eq d m i names index seen :
  let r := discover_scan d m (λ _, false) i names index (take MaxTaskIndexItems (sort_by later seen)) in
  let all := seen ++ omap (open_entry d m) names in
  r.2 = take MaxTaskIndexItems (sort_by later all) ∧
  dx_ActiveCount r.1 = dx_ActiveCount index + count_status StatusActive (omap (open_entry d m) names) ∧
  dx_BlockedCount r.1 = dx_BlockedCount index + count_status StatusBlocked (omap (open_entry d m) names) ∧
  dx_Truncated r.1 = dx_Truncated index ∧ dx_Items r.1 = dx_Items index.
Proof.
  cbn zeta. revert i index seen. induction names as [|name names IH]; intros i index seen.
  - unfold count_status. cbn. rewrite app_nil_r. split_and!; lia || done.
  - cbn [discover_scan]. pose proof (discover_entry_eq d m name index (take MaxTaskIndexItems (sort_by later seen))) as Hd.
    cbn zeta in Hd. destruct (discover_entry _ _ _ _ _) as [index' cands']. cbn [fst snd] in Hd.
    destruct Hd as (Ec & Ea & Eb & Et & Ei).
    assert (cands' = take MaxTaskIndexItems (sort_by later (seen ++ option_list (open_entry d m name)))) as Ec'.
    { rewrite Ec. destruct (open_entry d m name); cbn; [|by rewrite app_nil_r].
      apply take_sort_snoc; [apply later_asym|apply later_trans]. }
    rewrite Ec'. destruct (IH (S i) index' (seen ++ option_list (open_entry d m name))) as (H1 & H2 & H3 & H4 & H5).
    rewrite omap_cons_list, app_assoc, !count_status_app. rewrite H1, H2, H3, H4, H5. split_and!; lia || done || congruence.
Qed.

Lemma discover_items_eq d cands index :
  let r := discover_items d cands index in
  dx_Items r = dx_Items index ++ omap (λ t, match attachThreadLocked d t with Ok t => Some (index_item t) | Err _ => None end) cands ∧
  dx_ActiveCount r = dx_ActiveCount index ∧ dx_BlockedCount r = dx_BlockedCount index ∧ dx_Truncated r = dx_Truncated index.
Proof.
  cbn zeta. revert index. induction cands as [|t cands IH]; intros index; [cbn; by rewrite app_nil_r|].
  rewrite omap_cons_list. cbn [discover_items]. destruct (attachThreadLocked d t) as [t'|].
  - destruct (IH (index <| dx_Items ::= (λ l, l ++ [index_item t']) |>)) as (-> & -> & -> & ->). split_and!; [|done..]. cbn. by rewrite <- app_assoc.
  - destruct (IH (warn ("Could not restore active thread of " +:+ tk_ID t) index)) as (-> & -> & -> & ->).
    unfold warn. by destruct (_ <? _)%nat.
Qed.

Lemma discover_trim_eq index_len n index r :
  (n <= length (dx_Items index))%nat → discover_trim index_len n index = Ok r →
  index_len r <= MaxTaskIndexBytes ∧
  (∃ k, (k <= n)%nat ∧ dx_Items r = take k (dx_Items index)) ∧ dx_ReturnedCount r = Z.of_nat (length (dx_Items r)) ∧
  dx_ActiveCount r = dx_ActiveCount index ∧ dx_BlockedCount r = dx_BlockedCount index ∧
  (dx_Truncated r = true ↔ dx_Truncated index = true ∨ dx_ReturnedCount r < dx_ActiveCount index + dx_BlockedCount index).
Proof.
  revert index. induction n as [|n IH]; intros index Hn E; cbn [discover_trim] in E; cbv zeta in E.
  - set (index' := (((index <| dx_Items := _ |>) <| dx_ReturnedCount := _ |>) <| dx_Truncated := _ |>)) in E.
    destruct (Z.leb_spec (index_len index') MaxTaskIndexBytes) as [Hle|Hgt]; [|discriminate]. injection E as <-.
    split_and!; [done|exists 0%nat; by split|done..|]. cbn. rewrite orb_true_iff, Z.ltb_lt. done.
  - set (index' := (((index <| dx_Items := _ |>) <| dx_ReturnedCount := _ |>) <| dx_Truncated := _ |>)) in E.
    destruct (Z.leb_spec (index_len index') MaxTaskIndexBytes) as [Hle|Hgt].
    + injection E as <-. split_and!; [done|exists (S n); by split|done..|]. cbn. rewrite orb_true_iff, Z.ltb_lt. done.
    + assert (length (dx_Items index') = S n) as Hl by (cbn; rewrite length_take; lia).
      destruct (IH index') as (H1 & (k & Hk & Hi) & H3 & H4 & H5 & H6); [lia|done|]. cbn in H4, H5.
      split_and!; [done| |done..|].
      * exists k. split; [lia|]. rewrite Hi. change (dx_Items index') with (take (S n) (dx_Items index)). by rewrite take_take, Nat.min_l by lia.
      * rewrite H6. change (dx_ActiveCount index') with (dx_ActiveCount index). change (dx_BlockedCount index') with (dx_BlockedCount index).
        change (dx_Truncated index') with (dx_Truncated index || (Z.of_nat (length (take (S n) (dx_Items index))) <? dx_ActiveCount index + dx_BlockedCount index)).
        rewrite orb_true_iff, Z.ltb_lt. split; [|tauto]. intros [[?|Hlt]|?]; [by left| |by right]. right.
        rewrite H3, Hi, length_take. rewrite length_take in Hlt. cbn. rewrite length_take. lia.
Qed.

(** The warnings of an index: at most eight short messages. *)
Definition small_warnings (index : TaskIndex) : Prop :=
  (length (dx_Warnings index) <= 8)%nat ∧ ∀ w, w ∈ dx_Warnings index → len w <= 256.

Lemma warn_small message index : small_warnings index → small_warnings (warn message index).
Proof.
  intros [Hl Hw]. unfold warn. destruct (Nat.ltb_spec (length (dx_Warnings index)) 8); [|done]. split; cbn.
  - rewrite length_app. cbn. lia.
  - intros w [Hin|Hin]%elem_of_app; [by apply Hw|]. apply list_elem_of_singleton in Hin as ->. by apply truncated_len.
Qed.

Lemma discover_scan_small d m cancelled i names index cands :
  small_warnings index → small_warnings (discover_scan d m cancelled i names index cands).1.
Proof.
  revert i index cands. induction names as [|name names IH]; intros i index cands Hs; cbn [discover_scan]; [done|].
  destruct (cancelled i); [by apply warn_small|].
  assert (small_warnings (discover_entry d m name index cands).1) as Hs'.
  { unfold discover_entry. destruct (readTaskStateFile _) as [[t|]|]; [|by apply warn_small..].
    destruct (decodeTask t); [|by apply warn_small]. cbv zeta. destruct (_ || _); [done|]. destruct (_ =s StatusActive); [done|].
    by destruct (_ =s StatusBlocked). }
  destruct (discover_entry d m name index cands). by apply IH.
Qed.

Lemma discover_items_small d cands index : small_warnings index → small_warnings (discover_items d cands index).
Proof.
  revert index. induction cands as [|t cands IH]; intros index Hs; cbn; [done|]. apply IH.
  destruct (attachThreadLocked d t); [done|by apply warn_small].
Qed.

Lemma discover_trim_total index_len n index :
  (∀ r, dx_Items r = [] → small_warnings r → index_len r <= MaxTaskIndexBytes) → small_warnings index →
  is_ok (discover_trim index_len n index) = true.
Proof.
  intros Hempty. revert index. induction n as [|n IH]; intros index Hs; cbn [discover_trim]; cbv zeta.
  - rewrite (proj2 (Z.leb_le _ _)); [done|]. by apply Hempty.
  - destruct (_ <=? _); [done|]. by apply IH.
Qed.

(** the index of open tasks is always found, as long as an index without
    items and with at most eight short warnings fits its size limit.  It counts
    every task that is active or blocked, shows the latest of them, at most
    eight and as many as fit, from the latest on, and says it is truncated
    exactly when it shows fewer than it counted. *)
Theorem discover_is_latest index_len d m :
  (∀ r, dx_Items r = [] → small_warnings r → index_len r <= MaxTaskIndexBytes) →
  ∃ r,
  discover_index index_len (λ _, false) d m = Ok r ∧
  let open_ := omap (open_entry d m) (entries d) in
  dx_ActiveCount r = count_status StatusActive open_ ∧ dx_BlockedCount r = count_status StatusBlocked open_ ∧
  index_len r <= MaxTaskIndexBytes ∧
  (∃ k, (k <= MaxTaskIndexItems)%nat ∧
     dx_Items r = take k (omap (λ t, match attachThreadLocked d t with Ok t => Some (index_item t) | Err _ => None end)
       (take MaxTaskIndexItems (sort_by later open_)))) ∧
  dx_ReturnedCount r = Z.of_nat (length (dx_Items r)) ∧
  (dx_Truncated r = true ↔ dx_ReturnedCount r < dx_ActiveCount r + dx_BlockedCount r).
Proof.
  intros Hempty. assert (is_ok (discover_index index_len (λ _, false) d m) = true) as Hok.
  { unfold discover_index. pose proof (discover_scan_small d m (λ _, false) 0 (entries d) EmptyTaskIndex []) as Hs.
    destruct (discover_scan _ _ _ _ _ _ _) as [index cands]. apply discover_trim_total; [done|].
    apply discover_items_small, Hs. split; [cbn; lia|]. by intros w ?%not_elem_of_nil. }
  destruct (discover_index index_len (λ _, false) d m) as [r|] eqn:E; [|discriminate]. clear Hok Hempty. exists r. split; [done|].
  intros open_. unfold discover_index in E. pose proof (discover_scan_eq d m 0 (entries d) EmptyTaskIndex []) as Hs. cbn zeta in Hs.
  cbn [sort_by take] in Hs. destruct (discover_scan _ _ _ _ _ _ _) as [index cands]. cbn [fst snd app] in Hs.
  destruct Hs as (-> & Ea & Eb & Et & Ei). cbv zeta in E.
  pose proof (discover_items_eq d (take MaxTaskIndexItems (sort_by later open_)) index) as Hi. cbn zeta in Hi.
  fold open_ in E. set (index2 := discover_items _ _ _) in *. destruct Hi as (Hi1 & Hi2 & Hi3 & Hi4).
  destruct (discover_trim_eq index_len (length (dx_Items index2)) index2 r (le_n _) E) as (H1 & (k & Hk & H2) & H3 & H4 & H5 & H6).
  cbn in Ea, Eb, Et, Ei. split_and!.
  - by rewrite H4, Hi2, Ea.
  - by rewrite H5, Hi3, Eb.
  - done.
  - exists k. rewrite Hi1, Ei in H2, Hk. cbn [app] in H2, Hk. split; [|done]. etrans; [exact Hk|].
    etrans; [|apply firstn_le_length with (l := sort_by later open_)]. clear. generalize (take MaxTaskIndexItems (sort_by later open_)) as l.
    induction l as [|t l IH]; cbn; [done|]. destruct (attachThreadLocked d t); cbn; lia.
  - done.
  - rewrite H6, Hi4, Et, Hi2, Hi3, H4, H5, Hi2, Hi3. split; [|by right]. intros [?|?]; [discriminate|done].
Qed.
End Lists.

(** ** Witnesses *)

Definition sample_query : TaskQuery := mkTaskQuery "all" "" "" "" "" 0 1 false.

Lemma managed_pages_cover_witness :
  ∃ sel, @managed_page sample_case finished_disk ∅ (sample_query <| tq_Selection := true |>) = Ok sel ∧ mp_Total sel = 1.
Proof.
  destruct (@managed_pages_cover sample_case finished_disk ∅ sample_query) as (sel & E & Ht & _);
    [by vm_compute..|].
  exists sel. split; [exact E|]. vm_compute in E. injection E as <-. reflexivity.
Defined.

Lemma discover_is_latest_witness :
  ∃ r, discover_index (λ _, 100) (λ _, false) created_disk ∅ = Ok r ∧ dx_ActiveCount r = 1 ∧ dx_ReturnedCount r = 1.
Proof.
  destruct (@discover_is_latest (λ _, 100) created_disk ∅) as (r & E & Ha & _); [by intros|].
  exists r. split_and!; [exact E|by rewrite Ha; vm_compute|]. vm_compute in E. injection E as <-. reflexivity.
Defined.
