(* ===== verification/TaskWork.v ===== *)
(** * TaskWork: checkpoints and conditions against their references (internal/taskstate)

    BatchCheckpoint works on a task and the checkpoint of UpdateThread on a
    thread, with two separate loops over a map of indexes; both do what a map
    over the steps does.  The normalisation of completion conditions removes
    repetitions and loses nothing else. *)

From S2P Require Import Prelude GoText TaskState TaskSample TaskSpec TaskHistory.
Local Open Scope Z_scope.

(** ** Checkpoints *)

(** What a checkpoint makes of a step. *)
Definition checkpoint_step (completed : list string) (current : string) (now : Time) (s : TaskStep) : TaskStep :=
  if one_of (st_ID s) completed then set_step StepCompleted now s
  else if (current ≠s "") && (st_ID s =s current) then set_step StepInProgress now s
  else s.

Lemma complete_all_lookup indexes ids now steps j :
  complete_all indexes ids now steps !! j =
  (if existsb (λ id, (default 0%nat (indexes !! id) =? j)%nat) ids then set_step StepCompleted now <$> steps !! j else steps !! j).
Proof.
  unfold complete_all. revert steps. induction ids as [|id ids IH]; intros steps; cbn; [done|]. rewrite IH.
  destruct (Nat.eqb_spec (default 0%nat (indexes !! id)) j) as [->|Hne]; cbn [orb].
  - rewrite list_lookup_alter_eq. destruct (existsb _ ids), (steps !! j); done.
  - by rewrite list_lookup_alter_ne.
Qed.

Lemma complete_ids_all indices ids now steps steps' :
  complete_ids indices ids now steps = Ok steps' → steps' = complete_all indices ids now steps ∧ (∀ id, id ∈ ids → is_Some (indices !! id)).
Proof.
  unfold complete_all. revert steps. induction ids as [|id ids IH]; intros steps E; cbn in *.
  - injection E as <-. split; [done|]. by intros id ?%not_elem_of_nil.
  - destruct (indices !! id) as [i|] eqn:Ei; [|discriminate]. destruct (negb _); [discriminate|].
    destruct (IH _ E) as [-> Hall]. split; [done|]. intros id' [->|Hin]%elem_of_cons; [by rewrite Ei|by apply Hall].
Qed.

Lemma start_step_eq steps0 completed current now steps steps' :
  start_step (step_indexes steps0) completed current now steps = Ok steps' →
  (current = "" ∧ steps' = steps) ∨
  ∃ i, current ≠ "" ∧ step_indexes steps0 !! current = Some i ∧ current ∉ completed ∧ steps' = alter (set_step StepInProgress now) i steps.
Proof.
  unfold start_step. destruct (String.eqb_spec current "") as [->|Hne]; [intros [= <-]; by left|].
  destruct (step_indexes steps0 !! current) as [i|]; [|discriminate]. destruct (one_of current completed) eqn:Ec; [discriminate|].
  destruct (negb _); [discriminate|]. destruct (existsb _ _); [discriminate|]. intros [= <-]. right. exists i. split_and!; [done..| |done].
  intros Hin. apply one_of_In in Hin. by rewrite Hin in Ec.
Qed.

Lemma step_indexes_unique steps i s :
  NoDup (map st_ID steps) → steps !! i = Some s → step_indexes steps !! st_ID s = Some i.
Proof.
  intros Hnd Hi. destruct (step_indexes steps !! st_ID s) as [j|] eqn:Ej.
  - destruct (step_indexes_Some _ _ _ Ej) as (s' & Hs' & E). f_equal. by eapply step_ids_unique.
  - exfalso. revert i Hi Hnd Ej. induction steps as [|x steps IH] using rev_ind; intros i Hi Hnd Ej; [done|].
    rewrite step_indexes_app in Ej. apply lookup_insert_None in Ej as [Ej Hne].
    rewrite map_app in Hnd. apply NoDup_app in Hnd as (Hnd & _ & _).
    apply lookup_app_Some in Hi as [Hi|[_ Hi]].
    + by eapply IH.
    + apply list_lookup_singleton_Some in Hi as [_ ->]. by apply Hne.
Qed.

(** Both loops are the map. *)
Lemma checkpoint_map steps completed current now steps' :
  NoDup (map st_ID steps) → (∀ id, id ∈ completed → is_Some (step_indexes steps !! id)) →
  (current = "" ∧ steps' = complete_all (step_indexes steps) completed now steps ∨
   ∃ i, current ≠ "" ∧ step_indexes steps !! current = Some i ∧ current ∉ completed ∧
     steps' = alter (set_step StepInProgress now) i (complete_all (step_indexes steps) completed now steps)) →
  steps' = map (checkpoint_step completed current now) steps.
Proof.
  intros Hnd Hc Hcur. apply list_eq. intros j. change (map ?f steps) with (f <$> steps). rewrite list_lookup_fmap.
  assert (∀ s, steps !! j = Some s → existsb (λ id, (default 0%nat (step_indexes steps !! id) =? j)%nat) completed = one_of (st_ID s) completed) as Hex.
  { intros s Hs. unfold one_of. apply eq_bool_prop_intro. rewrite !Is_true_true, !existsb_exists. split.
    - intros (id & Hin & E%Nat.eqb_eq). exists id. split; [done|]. apply list_elem_of_In in Hin. destruct (Hc id Hin) as [i Hi].
      rewrite Hi in E. cbn in E. subst i. destruct (step_indexes_Some _ _ _ Hi) as (s' & Hs' & <-). rewrite Hs in Hs'.
      injection Hs' as <-. apply String.eqb_refl.
    - intros (id & Hin & <-%String.eqb_eq). exists (st_ID s). split; [done|].
      rewrite (step_indexes_unique steps j s Hnd Hs). apply Nat.eqb_refl. }
  destruct (steps !! j) as [s|] eqn:Ej; cbn [fmap option_fmap option_map].
  - unfold checkpoint_step. rewrite <- (Hex s eq_refl). destruct Hcur as [(-> & ->)|(i & Hne & Hi & Hnin & ->)].
    + rewrite complete_all_lookup, Ej. cbn. by destruct (existsb _ _).
    + destruct (step_indexes_Some _ _ _ Hi) as (si & Hsi & Hid). rewrite (proj2 (String.eqb_neq _ _) Hne). cbn [negb andb].
      destruct (decide (i = j)) as [<-|Hij].
      * rewrite Ej in Hsi. injection Hsi as <-. rewrite list_lookup_alter_eq, complete_all_lookup, Ej, Hid, String.eqb_refl.
        rewrite (Hex s eq_refl), Hid. destruct (one_of current completed) eqn:Eo; [|done]. by apply one_of_In in Eo.
      * rewrite list_lookup_alter_ne, complete_all_lookup, Ej by done. destruct (existsb _ _); [done|].
        destruct (String.eqb_spec (st_ID s) current) as [E|]; [|done]. exfalso. apply Hij.
        eapply step_ids_unique; [exact Hnd|exact Hsi|exact Ej|]. by rewrite Hid, E.
  - assert (complete_all (step_indexes steps) completed now steps !! j = None) as E.
    { rewrite complete_all_lookup, Ej. by destruct (existsb _ _). }
    destruct Hcur as [(_ & ->)|(i & _ & _ & _ & ->)]; [done|]. destruct (decide (i = j)) as [->|Hij].
    + by rewrite list_lookup_alter_eq, E.
    + by rewrite list_lookup_alter_ne.
Qed.

(** The steps that a checkpoint names exist, and none is named as both. *)
Definition names_steps (completed : list string) (current : string) (steps : list TaskStep) : Prop :=
  (∀ sid, sid ∈ completed → ∃ s, s ∈ steps ∧ st_ID s = sid) ∧
  (current ≠ "" → current ∉ completed ∧ ∃ s, s ∈ steps ∧ st_ID s = current).

Lemma indexed_step steps sid : is_Some (step_indexes steps !! sid) → ∃ s, s ∈ steps ∧ st_ID s = sid.
Proof.
  intros [i Hi]. destruct (step_indexes_Some _ _ _ Hi) as (s & Hs & ?). exists s. split; [by eapply list_elem_of_lookup_2|done].
Qed.

Lemma names_steps_indexed completed current steps :
  (∀ sid, sid ∈ completed → is_Some (step_indexes steps !! sid)) →
  (current ≠ "" → current ∉ completed ∧ is_Some (step_indexes steps !! current)) → names_steps completed current steps.
Proof.
  intros Hc Hcur. split; [intros sid Hin; by apply indexed_step, Hc|]. intros Hne. destruct (Hcur Hne). split; [done|by apply indexed_step].
Qed.

Section Work.
Context `{UnicodeCase}.

Lemma batch_checkpoint ids current summary now id t t' :
  task_ok id t → batch_body ids current summary t now = Ok t' →
  tk_Steps t' = map (checkpoint_step (normalizeStepIDs ids) (TrimSpace current) now) (tk_Steps t) ∧
  tk_Summary t' = TrimSpace summary ∧ names_steps (normalizeStepIDs ids) (TrimSpace current) (tk_Steps t).
Proof.
  intros Hok E. unfold batch_body in E. do 2 (apply bind_Ok in E as (? & _ & E)). cbv zeta in E.
  do 2 (apply reject_bind_Ok in E as [_ E]). apply bind_Ok in E as (? & _ & E). apply bind_Ok in E as (u & Hcomp & E).
  apply bind_Ok in E as (o & Hcur%check_current_Ok & E). pose proof (check_completed_Ok _ _ _ _ Hcomp) as Hc.
  assert (∀ sid, sid ∈ normalizeStepIDs ids → is_Some (step_indexes (tk_Steps t) !! sid)) as Hsome.
  { intros sid Hin. destruct (Hc sid Hin) as (i & -> & _). by eexists. }
  assert (∀ steps phase e, Ok (appendTaskEvent ((drop_failed_review (t <| tk_Steps := steps |> <| tk_Phase := phase |>)) <| tk_Summary := TrimSpace summary |>) e) = Ok t' →
    tk_Steps t' = steps ∧ tk_Summary t' = TrimSpace summary) as Hfields.
  { intros steps phase e [= <-]. unfold drop_failed_review. by destruct (review_is _ _). }
  destruct o as [i|].
  - destruct Hcur as [Hnamed Hnin Hi _ _]. apply Hfields in E as [Es Esum]. split_and!; [|done|by apply names_steps_indexed; [|split; [|eexists]]].
    apply checkpoint_map; [apply Hok|done|]. right. by exists i.
  - assert (names_steps (normalizeStepIDs ids) (TrimSpace current) (tk_Steps t)) as Hnames by (apply names_steps_indexed; [done|by intros ?]).
    destruct (last (normalizeStepIDs ids)); apply Hfields in E as [Es Esum]; (split_and!; [|done|done]);
      (apply checkpoint_map; [apply Hok|done|]); by left.
Qed.

Lemma thread_checkpoint now th th' input :
  steps_ok (th_Steps th) → checkpointThread th input now = Ok th' →
  th_Steps th' = map (checkpoint_step (ti_CompletedStepIDs input) (ti_CurrentStepID input) now) (th_Steps th) ∧
  th_Summary th' = ti_Summary input ∧ names_steps (ti_CompletedStepIDs input) (ti_CurrentStepID input) (th_Steps th).
Proof.
  intros Hok E. unfold checkpointThread in E. do 2 (apply reject_bind_Ok in E as [_ E]). cbv zeta in E.
  apply bind_Ok in E as (s1 & E1 & E). apply bind_Ok in E as (s2 & E2 & E). destruct (complete_ids_all _ _ _ _ _ E1) as [-> Hsome].
  injection E as <-. apply start_step_eq in E2.
  assert (names_steps (ti_CompletedStepIDs input) (ti_CurrentStepID input) (th_Steps th)) as Hnames.
  { apply names_steps_indexed; [done|]. intros Hne. destruct E2 as [[? _]|(i & _ & Hi & Hnin & _)]; [done|]. by split; [|eexists]. }
  assert (s2 = map (checkpoint_step (ti_CompletedStepIDs input) (ti_CurrentStepID input) now) (th_Steps th)) as ->.
  { apply checkpoint_map; [apply Hok|done|exact E2]. }
  split_and!; [|destruct (ti_WorkspaceID input ≠s ""), (ti_SourceRef input ≠s ""); done|done].
  by destruct (ti_WorkspaceID input ≠s ""), (ti_SourceRef input ≠s "").
Qed.

(** C24: a checkpoint is all or nothing and does what it says.  The batch on a
    task and the checkpoint of a thread, which are two separate pieces of
    code, change the steps alike: those named as completed are completed, the
    one named as current is in progress, and no other step is touched.  A step
    is never both, and every step that is named, as completed or as current,
    exists: a checkpoint that names one that does not, or one as both, is an
    error. *)
Theorem checkpoints_agree ids current summary now :
  (∀ id t t', task_ok id t → batch_body ids current summary t now = Ok t' →
     tk_Steps t' = map (checkpoint_step (normalizeStepIDs ids) (TrimSpace current) now) (tk_Steps t) ∧
     tk_Summary t' = TrimSpace summary ∧
     names_steps (normalizeStepIDs ids) (TrimSpace current) (tk_Steps t)) ∧
  (∀ id t, task_ok id t → ¬ names_steps (normalizeStepIDs ids) (TrimSpace current) (tk_Steps t) →
     ∃ msg, batch_body ids current summary t now = Err msg) ∧
  (∀ th th' input, steps_ok (th_Steps th) → checkpointThread th input now = Ok th' →
     th_Steps th' = map (checkpoint_step (ti_CompletedStepIDs input) (ti_CurrentStepID input) now) (th_Steps th) ∧
     th_Summary th' = ti_Summary input ∧
     names_steps (ti_CompletedStepIDs input) (ti_CurrentStepID input) (th_Steps th)) ∧
  (∀ th input, steps_ok (th_Steps th) → ¬ names_steps (ti_CompletedStepIDs input) (ti_CurrentStepID input) (th_Steps th) →
     ∃ msg, checkpointThread th input now = Err msg).
Proof.
  split_and!.
  - intros id t t'. apply batch_checkpoint.
  - intros id t Hok Hnot. destruct (batch_body _ _ _ _ _) as [t'|msg] eqn:E; [|by exists msg]. destruct Hnot.
    by apply (batch_checkpoint _ _ _ _ _ _ _ Hok E).
  - apply thread_checkpoint.
  - intros th input Hok Hnot. destruct (checkpointThread _ _ _) as [th'|msg] eqn:E; [|by exists msg]. destruct Hnot.
    by apply (thread_checkpoint _ _ _ _ Hok E).
Qed.

(** ** Completion conditions *)

(** Two texts that a task does not keep both of. *)
Definition repeats (a b : string) : bool := (ToLower a =s ToLower b) || similarConditionText a b.

Record texts_ok (values out : list string) : Prop := {
  tx_sublist : out `sublist_of` map TrimSpace values;
  tx_nonblank : ∀ v, v ∈ out → v ≠ "";
  tx_distinct : ∀ i j a b, (i < j)%nat → out !! i = Some a → out !! j = Some b → repeats a b = false;
  tx_covered : ∀ x, x ∈ values → TrimSpace x ≠ "" → ∃ k, k ∈ out ∧ repeats k (TrimSpace x) = true;
}.

Lemma texts_ok_skip values out x :
  texts_ok values out → (TrimSpace x ≠ "" → ∃ k, k ∈ out ∧ repeats k (TrimSpace x) = true) → texts_ok (values ++ [x]) out.
Proof.
  intros [Hs Hn Hd Hc] Hx. split; [|done..|].
  - rewrite map_app. etrans; [exact Hs|]. apply sublist_inserts_r. reflexivity.
  - intros y [Hy| ->%list_elem_of_singleton]%elem_of_app; [by apply Hc|done].
Qed.

Lemma repeats_refl v : repeats v v = true.
Proof. unfold repeats. by rewrite String.eqb_refl. Qed.

Lemma texts_ok_keep values out x :
  texts_ok values out → TrimSpace x ≠ "" → (∀ k, k ∈ out → repeats k (TrimSpace x) = false) →
  texts_ok (values ++ [x]) (out ++ [TrimSpace x]).
Proof.
  intros [Hs Hn Hd Hc] Hx Hnew. split.
  - rewrite map_app. by apply sublist_app.
  - intros v [Hv| ->%list_elem_of_singleton]%elem_of_app; [by apply Hn|done].
  - intros i j a b Hij Hi Hj. apply lookup_app_Some in Hj as [Hj|[Hlen Hj]].
    + eapply Hd; [exact Hij| |exact Hj]. apply lookup_lt_Some in Hj. rewrite lookup_app_l in Hi by lia. exact Hi.
    + apply list_lookup_singleton_Some in Hj as [Hj <-]. rewrite lookup_app_l in Hi by lia.
      by eapply Hnew, list_elem_of_lookup_2.
  - intros y [Hy| ->%list_elem_of_singleton]%elem_of_app Hne.
    + destruct (Hc y Hy Hne) as (k & Hk & E). exists k. split; [|done]. apply elem_of_app. by left.
    + exists (TrimSpace x). split; [|apply repeats_refl]. apply elem_of_app. right. by apply list_elem_of_singleton.
Qed.

(** The keys seen are those of the texts kept. *)
Definition keys_of (seen out : list string) : Prop := ∀ k, k ∈ seen ↔ ∃ o, o ∈ out ∧ ToLower o = k.

Lemma keys_of_keep seen out v : keys_of seen out → keys_of (ToLower v :: seen) (out ++ [v]).
Proof.
  intros Hk k. rewrite elem_of_cons, (Hk k). setoid_rewrite elem_of_app. setoid_rewrite list_elem_of_singleton. split.
  - intros [->|(o & Ho & <-)]; [by exists v; split; [right|]|by exists o; split; [left|]].
  - intros (o & [Ho| ->] & <-); [right; by exists o|by left].
Qed.

Lemma texts_loop_ok values seen out done_ :
  texts_ok done_ out → keys_of seen out → texts_ok (done_ ++ values) (texts_loop values seen out).
Proof.
  revert seen out done_. induction values as [|x rest IH]; intros seen out done_ Hok Hk; cbn [texts_loop]; [by rewrite app_nil_r|].
  change (x :: rest) with ([x] ++ rest). rewrite app_assoc.
  destruct (String.eqb_spec (TrimSpace x) "") as [Hb|Hb]; [by apply IH; [apply texts_ok_skip|]|].
  destruct (one_of (ToLower (TrimSpace x)) seen) eqn:Eseen.
  { apply IH; [|done]. apply texts_ok_skip; [done|]. intros _. apply one_of_In, Hk in Eseen as (o & Ho & E). exists o.
    split; [done|]. unfold repeats. by rewrite E, String.eqb_refl. }
  destruct (existsb _ out) eqn:Esim.
  { apply IH; [|done]. apply texts_ok_skip; [done|]. intros _. apply existsb_exists in Esim as (o & Ho%list_elem_of_In & E).
    exists o. split; [done|]. unfold repeats. by rewrite E, orb_true_r. }
  apply IH; [|by apply keys_of_keep]. apply texts_ok_keep; [done..|]. intros k Hin. unfold repeats. apply orb_false_iff. split.
  - apply String.eqb_neq. intros E. assert (one_of (ToLower (TrimSpace x)) seen = true) as Ht; [|by rewrite Eseen in Ht].
    apply one_of_In, Hk. by exists k.
  - destruct (similarConditionText k (TrimSpace x)) eqn:E; [|done]. rewrite <- Esim. symmetry. apply existsb_exists. exists k.
    split; [by apply list_elem_of_In|done].
Qed.

(** the completion conditions of a task are its inputs less the
    repetitions.  They are trimmed, not blank and in the order given; no two
    of them are the same text in lower case or similar; and every input that
    is not blank is kept or repeats one that is. *)
Theorem conditions_deduplicated values : texts_ok values (normalizeTexts values).
Proof.
  apply (texts_loop_ok values [] [] []).
  - split; [apply sublist_nil_l|by intros ? ?%not_elem_of_nil|by intros i j ? ? _; rewrite lookup_nil|by intros ? ?%not_elem_of_nil].
  - intros k. split; [by intros ?%not_elem_of_nil|by intros (o & ?%not_elem_of_nil & _)].
Qed.
End Work.

(** ** Witness *)

Definition saved_task : Task := sample_task <| tk_ActiveThreadID := MainThreadID |>.
Definition sample_thread : TaskThread := virtualMain saved_task.
Definition sample_checkpoint (current : string) : ThreadInput := mkThreadInput "" "" current ["a"] "half" "" "" "" [].

Lemma saved_task_ok : task_ok sample_id saved_task.
Proof.
  destruct (@create_task_ok sample_case sample_raw "T" "goal" "" "" sample_conditions sample_steps [] [] 1000 sample_task) as (_ & _ & _ & Hok).
  - reflexivity.
  - reflexivity.
  - exact Hok.
Qed.

(** The first step is done and the second one begins; a step that does not exist is refused by both. *)
Lemma checkpoints_agree_witness :
  (∃ t, batch_body ["a"] " b " "half" saved_task 2000 = Ok t ∧
     map st_Status (tk_Steps t) = [StepCompleted; StepInProgress]) ∧
  (∃ msg, batch_body ["a"] "c" "half" saved_task 2000 = Err msg) ∧
  (∃ th, checkpointThread sample_thread (sample_checkpoint "b") 2000 = Ok th ∧
     map st_Status (th_Steps th) = [StepCompleted; StepInProgress]) ∧
  (∃ msg, checkpointThread sample_thread (sample_checkpoint "c") 2000 = Err msg).
Proof.
  assert (¬ names_steps ["a"] "c" (tk_Steps saved_task)) as Hmissing.
  { intros [_ Hc]. destruct (Hc ltac:(discriminate)) as (_ & s & Hs & E). vm_compute in Hs.
    apply elem_of_cons in Hs as [->|[->|[]%elem_of_nil]%elem_of_cons]; discriminate. }
  split_and!.
  - destruct (batch_body ["a"] " b " "half" saved_task 2000) as [t|] eqn:E; [|exfalso; vm_compute in E; discriminate].
    exists t. split; [done|].
    rewrite (proj1 (proj1 (checkpoints_agree ["a"] " b " "half" 2000) sample_id saved_task t saved_task_ok E)).
    vm_compute. reflexivity.
  - exact (proj1 (proj2 (checkpoints_agree ["a"] "c" "half" 2000)) sample_id saved_task saved_task_ok Hmissing).
  - destruct (checkpointThread sample_thread (sample_checkpoint "b") 2000) as [th|] eqn:E; [|exfalso; vm_compute in E; discriminate].
    exists th. split; [done|].
    rewrite (proj1 (proj1 (proj2 (proj2 (checkpoints_agree [] "" "" 2000))) sample_thread th (sample_checkpoint "b") (ok_steps _ _ saved_task_ok) E)).
    vm_compute. reflexivity.
  - exact (proj2 (proj2 (proj2 (checkpoints_agree [] "" "" 2000))) sample_thread (sample_checkpoint "c") (ok_steps _ _ saved_task_ok) Hmissing).
Defined.
