(* ===== verification/Update.v ===== *)
(** * Update: transactional updates (internal/updateengine)

    Models contract.go (the data, versions and their validation), store.go
    (the journal of the current transaction, its result files and the pointer
    to the active version) and arbiter.go (the run of an update: a trial that
    is verified and committed, or rolled back).

    The platform a driver works on is a type [P]; a driver is a record of
    operations on it, as the Go interface.  The files of the store are kept
    beside it, so that a driver cannot touch the journal or the results.  The
    readings of the clock during one run of the arbiter are a function
    [clock].  A record is read back as it was written. *)

From S2P Require Import Prelude GoText Durable.
Local Open Scope Z_scope.

Definition SchemaVersion : Z := 1.

Definition StateStaged : string := "staged".
Definition StateTrial : string := "trial".
Definition StateCommitted : string := "committed".
Definition StateRollingBack : string := "rolling_back".
Definition StateRolledBack : string := "rolled_back".
Definition StateFailed : string := "failed".

Definition PhaseStage : string := "stage".
Definition PhaseVerify : string := "verify".
Definition PhaseActivate : string := "activate".
Definition PhaseHealth : string := "health".
Definition PhaseCommit : string := "commit".
Definition PhaseRollback : string := "rollback".

(** ** Data *)

Record Failure : Type := mkFailure { fl_Code : string; fl_Message : string; fl_At : Time }.

Record WindowsPlan : Type := mkWindowsPlan {
  wp_InstallRoot : string;
  wp_SourceGeneration : string;
  wp_TargetGeneration : string;
  wp_HealthURLs : list string;
  wp_TaskName : string;
  wp_PrivilegeMode : string;
  wp_CoreWasRunning : bool;
  wp_TrayWasRunning : bool;
  wp_TunnelWasRunning : bool;
  wp_ProgressUIHandoff : bool;
  wp_BootstrapMigration : bool;
}.

Record MacOSPlan : Type := mkMacOSPlan {
  mp_SourceArbiterPath : string;
  mp_TargetAppPath : string;
  mp_TrialAppPath : string;
  mp_HandoffPath : string;
  mp_ResultPath : string;
  mp_ServiceStatePath : string;
  mp_HealthURL : string;
  mp_AppWasRunning : bool;
  mp_CoreWasEnabled : bool;
  mp_TunnelEnabled : bool;
  mp_BootstrapMigration : bool;
}.

Record Transaction : Type := mkTransaction {
  tr_SchemaVersion : Z;
  tr_TransactionID : string;
  tr_Platform : string;
  tr_SourceVersion : string;
  tr_TargetVersion : string;
  tr_ActiveVersion : string;
  tr_FallbackVersion : string;
  tr_State : string;
  tr_Phase : string;
  tr_StartedAt : Time;
  tr_UpdatedAt : Time;
  tr_CompletedAt : option Time;
  tr_Failure : option Failure;
  tr_Warnings : list string;
  tr_Windows : option WindowsPlan;
  tr_MacOS : option MacOSPlan;
}.
#[export] Instance Transaction_eta : Eta Transaction := λ t,
  mkTransaction (tr_SchemaVersion t) (tr_TransactionID t) (tr_Platform t) (tr_SourceVersion t) (tr_TargetVersion t)
    (tr_ActiveVersion t) (tr_FallbackVersion t) (tr_State t) (tr_Phase t) (tr_StartedAt t) (tr_UpdatedAt t)
    (tr_CompletedAt t) (tr_Failure t) (tr_Warnings t) (tr_Windows t) (tr_MacOS t).

Record Result : Type := mkResult {
  rs_SchemaVersion : Z;
  rs_TransactionID : string;
  rs_Platform : string;
  rs_SourceVersion : string;
  rs_TargetVersion : string;
  rs_ActiveVersion : string;
  rs_FallbackVersion : string;
  rs_State : string;
  rs_CompletedAt : Time;
  rs_Failure : option Failure;
  rs_Warnings : list string;
}.

Record ActiveVersion : Type := mkActiveVersion {
  av_SchemaVersion : Z;
  av_ActiveVersion : string;
  av_FallbackVersion : string;
  av_State : string;
  av_TransactionID : string;
  av_UpdatedAt : Time;
}.
#[export] Instance ActiveVersion_eta : Eta ActiveVersion := λ a,
  mkActiveVersion (av_SchemaVersion a) (av_ActiveVersion a) (av_FallbackVersion a) (av_State a) (av_TransactionID a)
    (av_UpdatedAt a).

(** ** Versions *)

Definition NormalizeVersion (value : string) : string :=
  let value := TrimSpace value in
  let value := TrimPrefix value "v" in
  if value =s "" then "" else "v" +:+ value.

(** The path separators and the characters that Windows refuses in names. *)
Definition unsafe_chars : string := of_bytes ["/"; "\"; "<"; ">"; ":"; "034"; "|"; "?"; "*"]%char.

Definition ValidateVersion (value : string) : result unit :=
  let normalized := NormalizeVersion value in
  reject (normalized =s "") "version is required";;
  let segment := TrimPrefix normalized "v" in
  reject (ContainsAny segment unsafe_chars) "version contains path-unsafe characters";;
  reject (existsb (λ c, is_control (ch_rune c) || is_space (ch_rune c)) (chunks (bytes segment)))
    "version contains whitespace or control characters";;
  reject (HasSuffix segment ".") "version cannot end with a dot".

(** The check of a version that may be left out. *)
Definition optional_version (value : string) : result unit :=
  if TrimSpace value ≠s "" then ValidateVersion value else Ok tt.

Definition validState (state : string) : bool :=
  one_of state [StateStaged; StateTrial; StateCommitted; StateRollingBack; StateRolledBack; StateFailed].

Definition validPhase (phase : string) : bool :=
  one_of phase [PhaseStage; PhaseVerify; PhaseActivate; PhaseHealth; PhaseCommit; PhaseRollback].

Definition known_platform (platform : string) : bool := (platform =s "windows") || (platform =s "darwin").

Definition terminal (state : string) : bool :=
  (state =s StateCommitted) || (state =s StateRolledBack) || (state =s StateFailed).

Definition validate_transaction (t : Transaction) : result unit :=
  reject (negb (tr_SchemaVersion t =? SchemaVersion)) "unsupported update transaction schema";;
  reject (TrimSpace (tr_TransactionID t) =s "") "update transaction id is required";;
  reject (negb (known_platform (tr_Platform t))) "unsupported update transaction platform";;
  ValidateVersion (tr_SourceVersion t);;
  ValidateVersion (tr_TargetVersion t);;
  optional_version (tr_ActiveVersion t);;
  optional_version (tr_FallbackVersion t);;
  reject (negb (validState (tr_State t))) "unsupported update transaction state";;
  reject (negb (validPhase (tr_Phase t))) "unsupported update transaction phase";;
  reject (IsZero (tr_StartedAt t) || IsZero (tr_UpdatedAt t)) "update transaction timestamps are required";;
  reject ((tr_Platform t =s "windows") && is_nil (tr_Windows t)) "windows update transaction requires windows plan";;
  reject ((tr_Platform t =s "darwin") && is_nil (tr_MacOS t)) "macOS update transaction requires macOS plan".

Definition validate_result (r : Result) : result unit :=
  reject (negb (rs_SchemaVersion r =? SchemaVersion)) "unsupported update result schema";;
  reject (TrimSpace (rs_TransactionID r) =s "") "update result transaction id is required";;
  reject (negb (known_platform (rs_Platform r))) "unsupported update result platform";;
  ValidateVersion (rs_SourceVersion r);;
  ValidateVersion (rs_TargetVersion r);;
  optional_version (rs_ActiveVersion r);;
  optional_version (rs_FallbackVersion r);;
  reject (negb (terminal (rs_State r))) "update result is not terminal";;
  reject (IsZero (rs_CompletedAt r)) "update result completion timestamp is required".

Definition validate_active (a : ActiveVersion) : result unit :=
  reject (negb (av_SchemaVersion a =? SchemaVersion)) "unsupported active-version schema";;
  ValidateVersion (av_ActiveVersion a);;
  optional_version (av_FallbackVersion a);;
  reject ((av_State a ≠s StateCommitted) && (av_State a ≠s StateTrial)) "unsupported active-version state";;
  reject ((av_State a =s StateTrial) && (TrimSpace (av_TransactionID a) =s "")) "trial active-version requires transaction id";;
  reject (IsZero (av_UpdatedAt a)) "active-version timestamp is required".

Definition NewTransactionID (raw : list ascii) : string := hex_encode raw.

Definition NewTransaction (raw : list ascii) (now : Time) (platform sourceVersion targetVersion : string) : result Transaction :=
  let t := mkTransaction SchemaVersion (NewTransactionID raw) (TrimSpace platform) (NormalizeVersion sourceVersion)
    (NormalizeVersion targetVersion) "" "" StateStaged PhaseStage now now None None [] None None in
  reject (negb (known_platform (tr_Platform t))) "unsupported update transaction platform";;
  reject ((tr_SourceVersion t =s "") || (tr_TargetVersion t =s "")) "update transaction source and target versions are required";;
  ValidateVersion (tr_SourceVersion t);;
  ValidateVersion (tr_TargetVersion t);;
  Ok t.

(** ** The files *)

(** A JSON file: absent, or of a content that decodes or not. *)
Definition jfile (A : Type) : Type := option (option A).

Definition readJSON {A} (f : jfile A) : result A :=
  match f with
  | None => Err "no such file"
  | Some None => Err "parse update state"
  | Some (Some a) => Ok a
  end.

Definition ReadActive (f : jfile ActiveVersion) : result ActiveVersion :=
  active ← readJSON f;
  validate_active active;;
  Ok active.

(** On the pointer to the active version alone. *)
Definition WriteActive (now : Time) (active : ActiveVersion) : io (jfile ActiveVersion) unit :=
  let active := active <| av_UpdatedAt := now |> in
  io_lift (validate_active active);;
  io_write (λ _, Some (Some active)).

Record disk (P : Type) : Type := mkDisk {
  ud_transaction : jfile Transaction;
  ud_results : gmap string (option Result);
  ud_current : jfile Result;
  ud_platform : P;
}.
Arguments mkDisk {P} _ _ _ _.
Arguments ud_transaction {P} _.
Arguments ud_results {P} _.
Arguments ud_current {P} _.
Arguments ud_platform {P} _.
#[export] Instance disk_eta P : Eta (disk P) := λ d, mkDisk (ud_transaction d) (ud_results d) (ud_current d) (ud_platform d).

Definition resultFromTerminalTransaction (t : Transaction) : result Result :=
  reject (negb (terminal (tr_State t))) "update transaction is not terminal";;
  match tr_CompletedAt t with
  | None => Err "terminal update transaction has no completion timestamp"
  | Some at_ =>
      reject (IsZero at_) "terminal update transaction has no completion timestamp";;
      let r := mkResult SchemaVersion (tr_TransactionID t) (tr_Platform t) (tr_SourceVersion t) (tr_TargetVersion t)
        (tr_ActiveVersion t) (tr_FallbackVersion t) (tr_State t) at_ (tr_Failure t) (tr_Warnings t) in
      validate_result r;;
      Ok r
  end.

(** [error] in [return result, err] beside a value. *)
Definition with_error (A : Type) : Type := (A * option string)%type.

(** The platform driver of a run: a Go interface. *)
Class Driver (P : Type) : Type := mkDriver {
  PrepareTrial : Transaction → io P unit;
  VerifyTrial : Transaction → io P (list string);
  Commit : Transaction → io P unit;
  Rollback : Transaction → io P unit;
}.

Section Store.
Context {P : Type}.
Local Abbreviation prog := (io (disk P)).

Definition put_transaction (t : Transaction) (d : disk P) : disk P := d <| ud_transaction := Some (Some t) |>.
Definition put_result (r : Result) (d : disk P) : disk P := d <| ud_results ::= <[rs_TransactionID r := Some r]> |>.
Definition put_current (r : Result) (d : disk P) : disk P := d <| ud_current := Some (Some r) |>.

Definition WriteTransaction (now : Time) (t : Transaction) : prog unit :=
  let t := t <| tr_UpdatedAt := now |> in
  io_lift (validate_transaction t);;
  io_write (put_transaction t).

Definition read_transaction (d : disk P) : result Transaction :=
  t ← readJSON (ud_transaction d);
  validate_transaction t;;
  Ok t.
Definition ReadTransaction : prog Transaction := d ← io_read (λ d, d); io_lift (read_transaction d).

Definition WriteResult (r : Result) : prog unit :=
  io_lift (validate_result r);;
  io_write (put_result r);;
  io_write (put_current r).

Definition repairCurrentResultProjection (r : Result) : prog unit :=
  d ← io_read (λ d, d);
  match read_transaction d with
  | Err _ => mret tt
  | Ok t =>
      if tr_TransactionID t ≠s rs_TransactionID r then mret tt
      else if negb (is_ok (resultFromTerminalTransaction t)) then mret tt
      else
        let current := match readJSON (ud_current d) with
          | Ok c => is_ok (validate_result c) && (rs_TransactionID c =s rs_TransactionID r)
          | Err _ => false
          end in
        if current then mret tt else io_write (put_current r)
  end.

(** The result file of a transaction, where it is sound. *)
Definition stored_result (d : disk P) (transactionID : string) : result Result :=
  r ← readJSON (ud_results d !! transactionID);
  validate_result r;;
  reject (rs_TransactionID r ≠s transactionID) "update result transaction changed";;
  Ok r.

Definition ReadResult (transactionID : string) : prog Result :=
  d ← io_read (λ d, d);
  match stored_result d transactionID with
  | Ok r => repairCurrentResultProjection r;; mret r
  | Err resultErr =>
      match read_transaction d with
      | Err _ => io_fail resultErr
      | Ok t =>
          if tr_TransactionID t ≠s transactionID then io_fail resultErr
          else
            match resultFromTerminalTransaction t with
            | Err _ => io_fail resultErr
            | Ok r => WriteResult r;; mret r
            end
      end
  end.

Definition completed (state : string) (failure : option Failure) (warnings : list string) (now : Time) (t : Transaction) : Transaction :=
  t <| tr_State := state |> <| tr_CompletedAt := Some now |> <| tr_Failure := failure |> <| tr_Warnings := warnings |>
    <| tr_Phase := if state =s StateCommitted then PhaseCommit else PhaseRollback |>.

Definition Complete (now now' : Time) (t : Transaction) (state : string) (failure : option Failure) (warnings : list string) :
    prog Result :=
  if negb (terminal state) then io_fail "cannot complete update transaction with non-terminal state"
  else
    let t := completed state failure warnings now t in
    WriteTransaction now' t;;
    let r := mkResult SchemaVersion (tr_TransactionID t) (tr_Platform t) (tr_SourceVersion t) (tr_TargetVersion t)
      (tr_ActiveVersion t) (tr_FallbackVersion t) state now failure warnings in
    WriteResult r;;
    mret r.

(** ** The arbiter *)

Context `{Driver P}.
Variable clock : nat → Time.

Definition on_platform {A} (m : io P A) : prog A := io_zoom ud_platform (λ p d, d <| ud_platform := p |>) m.

(** The source runs again, whatever became of the target. *)
Definition back_to_source (t : Transaction) : Transaction :=
  t <| tr_ActiveVersion := tr_SourceVersion t |> <| tr_FallbackVersion := tr_SourceVersion t |>.

Definition rollback (t : Transaction) (code cause : string) : prog (with_error Result) :=
  let failure := mkFailure code cause (clock 3) in
  let t := t <| tr_State := StateRollingBack |> <| tr_Phase := PhaseRollback |> <| tr_Failure := Some failure |> in
  WriteTransaction (clock 4) t;;
  r ← io_try (on_platform (Rollback t));
  match r with
  | Err err =>
      let rollbackFailure := mkFailure "rollback-failed" (cause +:+ String "010" "" +:+ err) (clock 5) in
      r ← Complete (clock 6) (clock 7) (back_to_source t) StateFailed (Some rollbackFailure) (tr_Warnings t);
      mret (r, Some (cause +:+ String "010" ("update rollback failed: " +:+ err)))
  | Ok _ =>
      r ← Complete (clock 6) (clock 7) (back_to_source t) StateRolledBack (Some failure) (tr_Warnings t);
      mret (r, Some cause)
  end.

Definition recoverInterruptedTrial (t : Transaction) : prog (with_error Result) :=
  rollback t "trial-interrupted" "previous update trial was interrupted before commit".

Definition runTrial (t : Transaction) : prog (with_error Result) :=
  let t := t <| tr_State := StateTrial |> <| tr_Phase := PhaseActivate |> <| tr_Failure := None |> in
  WriteTransaction (clock 0) t;;
  r ← io_try (on_platform (PrepareTrial t));
  match r with
  | Err err => rollback t "trial-activation-failed" err
  | Ok _ =>
      let t := t <| tr_Phase := PhaseHealth |> in
      r ← io_try (WriteTransaction (clock 1) t);
      match r with
      | Err err => rollback t "trial-journal-failed" err
      | Ok _ =>
          r ← io_try (on_platform (VerifyTrial t));
          match r with
          | Err err => rollback t "trial-verification-failed" err
          | Ok warnings =>
              let t := t <| tr_Phase := PhaseCommit |> <| tr_Warnings := warnings |> in
              r ← io_try (WriteTransaction (clock 2) t);
              match r with
              | Err err => rollback t "commit-journal-failed" err
              | Ok _ =>
                  r ← io_try (on_platform (Commit t));
                  match r with
                  | Err err => rollback t "commit-failed" err
                  | Ok _ =>
                      let t := t <| tr_ActiveVersion := tr_TargetVersion t |> <| tr_FallbackVersion := tr_SourceVersion t |> in
                      r ← Complete (clock 6) (clock 7) t StateCommitted None warnings;
                      mret (r, None)
                  end
              end
          end
      end
  end.

(** [busy]: the lock of the transaction could not be taken. *)
Definition Run (busy : bool) (transactionID : string) : prog (with_error Result) :=
  if transactionID =s "" then io_fail "update arbiter transaction id is required"
  else if busy then io_fail "acquire transaction lock"
  else
    t ← ReadTransaction;
    if tr_TransactionID t ≠s transactionID then io_fail "update transaction changed"
    else if terminal (tr_State t) then r ← ReadResult transactionID; mret (r, None)
    else if (tr_State t =s StateTrial) || (tr_State t =s StateRollingBack) then recoverInterruptedTrial t
    else if tr_State t =s StateStaged then runTrial t
    else io_fail "cannot arbitrate update state".
End Store.
