(* ===== verification/UpdateSpec.v ===== *)
(** * UpdateSpec: what an update promises (internal/updateengine)

    The promises a platform driver makes to the arbiter, as a class of laws;
    the abstract protocol of an update; and the proof that every run of the
    arbiter follows the protocol, whatever fails and wherever it is cut off,
    that its outcome is true of the platform, and that a run that is left
    alone settles the update. *)

From stdpp Require Import relations.
From S2P Require Import Prelude GoText Durable Update.
Local Open Scope Z_scope.

(** ** The promises of a driver *)

(** What stays the same of a transaction during its life. *)
Definition plan (t : Transaction) : Transaction :=
  t <| tr_State := "" |> <| tr_Phase := "" |> <| tr_UpdatedAt := 0 |> <| tr_CompletedAt := None |> <| tr_Failure := None |>
    <| tr_Warnings := [] |> <| tr_ActiveVersion := "" |> <| tr_FallbackVersion := "" |>.

(** [runs v p]: the platform runs version [v].  Between the start of a trial
    and its end the platform is [touched], also where an operation fails or the
    process dies in the middle of it.  [verified]: the target was seen to work. *)
Class DriverLaws (P : Type) `{Driver P} : Type := mkDriverLaws {
  runs : string → P → Prop;
  touched : Transaction → P → Prop;
  on_trial : Transaction → P → Prop;
  verified : Transaction → P → Prop;
  runs_touched : ∀ t p, runs (tr_SourceVersion t) p → touched (plan t) p;
  prepare_law : ∀ t, spec (touched (plan t)) (runs (tr_SourceVersion t)) (PrepareTrial t) (λ _, on_trial (plan t));
  verify_law : ∀ t, spec (touched (plan t)) (on_trial (plan t)) (VerifyTrial t) (λ _ p, on_trial (plan t) p ∧ verified (plan t) p);
  commit_law : ∀ t, spec (touched (plan t)) (λ p, on_trial (plan t) p ∧ verified (plan t) p) (Commit t)
    (λ _ p, runs (tr_TargetVersion t) p ∧ verified (plan t) p);
  rollback_law : ∀ t, spec (touched (plan t)) (λ _, True) (Rollback t) (λ _, runs (tr_SourceVersion t));
}.

(** ** The protocol *)

Inductive moves : string → string → Prop :=
  | moves_try : moves StateStaged StateTrial
  | moves_commit : moves StateTrial StateCommitted
  | moves_give_up : moves StateTrial StateRollingBack
  | moves_restored : moves StateRollingBack StateRolledBack
  | moves_lost : moves StateRollingBack StateFailed.

Lemma moves_not_terminal s s' : moves s s' → terminal s = false.
Proof. by destruct 1. Qed.

(** A state in which the trial is neither committed nor undone. *)
Definition midway (s : string) : Prop := s = StateTrial ∨ s = StateRollingBack.

Lemma midway_not_terminal s : midway s → terminal s = false.
Proof. by intros [->| ->]. Qed.

Lemma result_terminal t r : resultFromTerminalTransaction t = Ok r → terminal (tr_State t) = true.
Proof. unfold resultFromTerminalTransaction. intros E. apply reject_bind_Ok in E as [E _]. by apply negb_false_iff in E. Qed.

Lemma result_fields t r :
  resultFromTerminalTransaction t = Ok r →
  rs_TransactionID r = tr_TransactionID t ∧ rs_State r = tr_State t ∧ rs_SourceVersion r = tr_SourceVersion t ∧
  rs_TargetVersion r = tr_TargetVersion t ∧ validate_result r = Ok tt.
Proof.
  unfold resultFromTerminalTransaction. intros E. apply reject_bind_Ok in E as [_ E].
  destruct (tr_CompletedAt t) as [at_|]; [|discriminate]. apply reject_bind_Ok in E as [_ E]. cbv zeta in E.
  apply bind_Ok in E as ([] & Hv & E). by injection E as <-.
Qed.

(** A completed journal of a known time has a result. *)
Lemma terminal_result t now :
  validate_transaction t = Ok tt → terminal (tr_State t) = true → tr_CompletedAt t = Some now → now ≠ 0 →
  resultFromTerminalTransaction t = Ok (mkResult SchemaVersion (tr_TransactionID t) (tr_Platform t) (tr_SourceVersion t)
    (tr_TargetVersion t) (tr_ActiveVersion t) (tr_FallbackVersion t) (tr_State t) now (tr_Failure t) (tr_Warnings t)).
Proof.
  intros Hv Ht Hc Hn. assert (IsZero now = false) as Hz by (by apply Z.eqb_neq).
  unfold resultFromTerminalTransaction. rewrite Ht, Hc, Hz. cbn [negb reject mbind result_bind].
  match goal with |- context [validate_result ?r0] => assert (validate_result r0 = Ok tt) as ->; [|done] end.
  unfold validate_transaction in Hv. unfold validate_result. cbn [rs_SchemaVersion rs_TransactionID rs_Platform rs_SourceVersion
    rs_TargetVersion rs_ActiveVersion rs_FallbackVersion rs_State rs_CompletedAt].
  apply reject_bind_Ok in Hv as [_ Hv]. apply reject_bind_Ok in Hv as [-> Hv]. apply reject_bind_Ok in Hv as [-> Hv].
  do 4 (apply bind_Ok in Hv as ([] & -> & Hv)). rewrite Ht, Hz. done.
Qed.

Section Protocol.
Context {P : Type} `{DriverLaws P}.
Implicit Types (d : disk P) (t : Transaction) (r : Result) (p : P) (id : string).

(** What the state of the journal says about the platform. *)
Definition truthful t p : Prop :=
  if tr_State t =s StateStaged then runs (tr_SourceVersion t) p
  else if tr_State t =s StateCommitted then runs (tr_TargetVersion t) p ∧ verified (plan t) p
  else if tr_State t =s StateRolledBack then runs (tr_SourceVersion t) p
  else touched (plan t) p.

Lemma truthful_midway t p : midway (tr_State t) → truthful t p ↔ touched (plan t) p.
Proof. unfold truthful. by intros [->| ->]. Qed.

Lemma plan_source t t' : plan t = plan t' → tr_SourceVersion t = tr_SourceVersion t'.
Proof. intros E. by injection E. Qed.
Lemma plan_target t t' : plan t = plan t' → tr_TargetVersion t = tr_TargetVersion t'.
Proof. intros E. by injection E. Qed.
Lemma plan_id t t' : plan t = plan t' → tr_TransactionID t = tr_TransactionID t'.
Proof. intros E. by injection E. Qed.

(** A result file that ReadResult accepts. *)
Definition kept_result d id r : Prop :=
  ud_results d !! id = Some (Some r) ∧ validate_result r = Ok tt ∧ rs_TransactionID r = id.

(** The books of a run that started on the disk [d0] with the journal [t0]. *)
Record book (d0 : disk P) (t0 t : Transaction) (d : disk P) : Prop := {
  bk_journal : ud_transaction d = Some (Some t);
  bk_valid : validate_transaction t = Ok tt;
  bk_plan : plan t = plan t0;
  bk_moves : rtc moves (tr_State t0) (tr_State t);
  bk_final : terminal (tr_State t0) = true → t = t0;
  bk_result : ∀ r, kept_result d (tr_TransactionID t) r → resultFromTerminalTransaction t = Ok r;
  bk_current : ∀ r, ud_current d = Some (Some r) → rs_TransactionID r = tr_TransactionID t → resultFromTerminalTransaction t = Ok r;
  bk_kept : ∀ id r, kept_result d0 id r → kept_result d id r;
  bk_rest : terminal (tr_State t0) = true → ud_platform d = ud_platform d0;
  bk_complete : terminal (tr_State t) = true → ∃ r, resultFromTerminalTransaction t = Ok r;
}.

Section Run.
Variables (d0 : disk P) (t0 : Transaction).

Definition sound (d : disk P) : Prop := ∃ t, book d0 t0 t d ∧ truthful t (ud_platform d).

Lemma read_journal t d : book d0 t0 t d → read_transaction d = Ok t.
Proof. intros Hb. unfold read_transaction. rewrite (bk_journal _ _ _ _ Hb). cbn. by rewrite (bk_valid _ _ _ _ Hb). Qed.

Lemma sound_book t d : sound d → ud_transaction d = Some (Some t) → book d0 t0 t d ∧ truthful t (ud_platform d).
Proof. intros (t' & Hb & Ht) E. rewrite (bk_journal _ _ _ _ Hb) in E. injection E as <-. by split. Qed.

(** A new journal of the same plan, one move on. *)
Lemma book_write t t' d :
  book d0 t0 t d → terminal (tr_State t) = false → validate_transaction t' = Ok tt → plan t' = plan t0 →
  tr_State t' = tr_State t ∨ moves (tr_State t) (tr_State t') →
  (terminal (tr_State t') = true → ∃ r, resultFromTerminalTransaction t' = Ok r) → book d0 t0 t' (put_transaction t' d).
Proof.
  intros [Hj Hv Hp Hm Hf Hr Hc Hk Hrest Hco] Hnt Hv' Hp' Hm' Hco'.
  assert (tr_TransactionID t' = tr_TransactionID t) as Eid by (apply plan_id; by rewrite Hp').
  assert (∀ r, resultFromTerminalTransaction t ≠ Ok r) as Hno.
  { intros r E%result_terminal. by rewrite Hnt in E. }
  split; cbn; try done.
  - destruct Hm' as [->|Hm']; [done|]. by eapply rtc_r.
  - intros E. specialize (Hf E). subst t. by rewrite Hnt in E.
  - rewrite Eid. intros r E. by destruct (Hno r (Hr r E)).
  - rewrite Eid. intros r E1 E2. by destruct (Hno r (Hc r E1 E2)).
Qed.

Lemma write_journal_spec (J : disk P → Prop) (Q : P → Prop) now t' :
  plan t' = plan t0 →
  (validate_transaction (t' <| tr_UpdatedAt := now |>) = Ok tt → terminal (tr_State t') = true →
     ∃ r, resultFromTerminalTransaction (t' <| tr_UpdatedAt := now |>) = Ok r) →
  (∀ d, book d0 t0 (t' <| tr_UpdatedAt := now |>) d → truthful t' (ud_platform d) → J d) →
  spec J (λ d, ∃ t, book d0 t0 t d ∧ terminal (tr_State t) = false ∧ (tr_State t' = tr_State t ∨ moves (tr_State t) (tr_State t')) ∧
      truthful t' (ud_platform d) ∧ Q (ud_platform d))
    (WriteTransaction now t')
    (λ _ d, book d0 t0 (t' <| tr_UpdatedAt := now |>) d ∧ truthful t' (ud_platform d) ∧ Q (ud_platform d)).
Proof.
  intros Hp Hco HJ. unfold WriteTransaction.
  apply spec_lift_bind. intros [] Hv. apply spec_write. intros d _ (t & Hb & Hnt & Hm & Ht & HQ).
  assert (book d0 t0 (t' <| tr_UpdatedAt := now |>) (put_transaction (t' <| tr_UpdatedAt := now |>) d)) as Hb'.
  { eapply book_write; [exact Hb|done..|]. by apply Hco. }
  split; [by apply HJ|done].
Qed.

Lemma sound_intro now t' d : book d0 t0 (t' <| tr_UpdatedAt := now |>) d → truthful t' (ud_platform d) → sound d.
Proof. intros Hb Ht. by exists (t' <| tr_UpdatedAt := now |>). Qed.

(** The result is on disk, in its own file and as the current one. *)
Definition settled r d : Prop :=
  ∃ t, book d0 t0 t d ∧ truthful t (ud_platform d) ∧ resultFromTerminalTransaction t = Ok r ∧ kept_result d (tr_TransactionID t) r ∧
    ∃ c, ud_current d = Some (Some c) ∧ rs_TransactionID c = tr_TransactionID t.

Lemma book_put_result t r d : book d0 t0 t d → resultFromTerminalTransaction t = Ok r → book d0 t0 t (put_result r d).
Proof.
  intros [Hj Hv Hp Hm Hf Hr Hc Hk Hrest Hco] E. destruct (result_fields _ _ E) as (Eid & _ & _ & _ & Hvr).
  assert (∀ i r', kept_result d i r' → kept_result (put_result r d) i r') as Hkeep.
  { intros i r' Hkr. pose proof Hkr as (Hl & Hv' & Hi'). split; [|done]. cbn. rewrite Eid.
    destruct (decide (tr_TransactionID t = i)) as [<-|Hne]; [|by rewrite lookup_insert_ne].
    rewrite lookup_insert_eq. rewrite (Hr _ Hkr) in E. by injection E as <-. }
  split; cbn; try done; [|by intros; apply Hkeep, Hk].
  intros r' (Hl & _ & _). cbn in Hl. rewrite Eid, lookup_insert_eq in Hl. by injection Hl as <-.
Qed.

Lemma book_put_current t r d : book d0 t0 t d → resultFromTerminalTransaction t = Ok r → book d0 t0 t (put_current r d).
Proof. intros [Hj Hv Hp Hm Hf Hr Hc Hk Hrest Hco] E. split; cbn; try done. by intros r' [= <-] _. Qed.

Lemma write_result_spec t r :
  resultFromTerminalTransaction t = Ok r →
  spec sound (λ d, ud_transaction d = Some (Some t)) (WriteResult r) (λ _, settled r).
Proof.
  intros E. destruct (result_fields _ _ E) as (Eid & _ & _ & _ & Hv). unfold WriteResult.
  apply spec_lift_bind. intros [] _.
  eapply spec_bind with (R := λ _ d, ud_transaction d = Some (Some t) ∧ kept_result d (tr_TransactionID t) r).
  - apply spec_write. intros d Hs Hj. destruct (sound_book t d Hs Hj) as [Hb Ht].
    split; [exists t; by split; [apply book_put_result|]|]. split; [done|]. split; [|done].
    cbn. by rewrite Eid, lookup_insert_eq.
  - intros []. apply spec_write. intros d Hs [Hj Hk]. destruct (sound_book t d Hs Hj) as [Hb Ht].
    split; [exists t; by split; [apply book_put_current|]|]. exists t. split_and!; [by apply book_put_current|done..|].
    by exists r.
Qed.

Lemma complete_spec now now' t' state failure warnings :
  plan t' = plan t0 → now ≠ 0 →
  spec sound (λ d, ∃ t, book d0 t0 t d ∧ moves (tr_State t) state ∧ truthful (t' <| tr_State := state |>) (ud_platform d))
    (Complete now now' t' state failure warnings) (λ r d, settled r d ∧ rs_State r = state).
Proof.
  intros Hp Hnow. unfold Complete. apply spec_if; intros Hterm; [apply spec_fail|]. apply negb_false_iff in Hterm. cbv zeta.
  set (t1 := completed state failure warnings now t'). set (t2 := t1 <| tr_UpdatedAt := now' |>).
  set (r := mkResult _ _ _ _ _ _ _ _ _ _ _).
  assert (validate_transaction t2 = Ok tt → resultFromTerminalTransaction t2 = Ok r) as Hres.
  { intros Hv. by apply (terminal_result t2 now). }
  eapply spec_bind with (R := λ _ d, ud_transaction d = Some (Some t2) ∧ validate_transaction t2 = Ok tt).
  - eapply spec_weaken; [apply (write_journal_spec sound (λ _, True) now' t1 Hp)| |].
    + intros Hv _. exists r. by apply Hres.
    + apply (sound_intro now' t1).
    + intros d _ (t & Hb & Hm & Ht). exists t. split_and!; [done|by eapply moves_not_terminal|by right|exact Ht|done].
    + intros [] d _ (Hb & _). split; apply Hb.
  - intros []. intros d fs Hs [Hj Hv]. specialize (Hres Hv). revert d fs Hs Hj.
    change (spec sound (λ d, ud_transaction d = Some (Some t2)) (WriteResult r;; mret r) (λ r d, settled r d ∧ rs_State r = state)).
    eapply spec_bind; [by apply (write_result_spec _ r Hres)|]. intros []. apply spec_ret. by intros d _ Hs.
Qed.

(** ** Midway *)

(** The journal is [t] and the platform is as a trial or a rollback leaves it. *)
Definition held t d : Prop := book d0 t0 t d ∧ touched (plan t0) (ud_platform d).
Definition half d : Prop := ∃ t, midway (tr_State t) ∧ held t d.

Lemma held_sound t d : midway (tr_State t) → held t d → sound d.
Proof. intros Hm [Hb Ht]. exists t. split; [done|]. apply truthful_midway; [done|]. by rewrite (bk_plan _ _ _ _ Hb). Qed.

Lemma half_sound d : half d → sound d.
Proof. intros (t & Hm & Hh). by eapply held_sound. Qed.

Lemma book_platform t d p : midway (tr_State t) → book d0 t0 t d → book d0 t0 t (d <| ud_platform := p |>).
Proof.
  intros Hm [? ? ? ? Hf ? ? ? ? ?]. split; try done. intros Ht0. specialize (Hf Ht0). subst t.
  apply midway_not_terminal in Hm. by rewrite Hm in Ht0.
Qed.

(** An operation of the driver, and a look at its error. *)
Lemma driver_spec {A} (Pp : P → Prop) t t1 (op : io P A) (Q : A → P → Prop) :
  midway (tr_State t1) → plan t = plan t0 → spec (touched (plan t)) Pp op Q →
  spec sound (λ d, held t1 d ∧ Pp (ud_platform d)) (io_try (on_platform op))
    (λ o d, held t1 d ∧ match o with Ok a => Q a (ud_platform d) | Err _ => True end).
Proof.
  intros Hm Hp Hop. rewrite Hp in Hop.
  assert (spec (held t1) (λ d, Pp (ud_platform d)) (on_platform op) (λ a d, Q a (ud_platform d))) as Hz.
  { eapply spec_weaken.
    - apply (spec_zoom (held t1) (touched (plan t0)) Pp (book d0 t0 t1) ud_platform (λ p d, d <| ud_platform := p |>) op Q); [done| | |done].
      + intros d p. by apply book_platform.
      + intros d p Hb HJ. split; [by apply book_platform|done].
    - by intros d [Hb Ht] HP.
    - by intros a d _ (_ & _ & HQ). }
  exact (spec_under (held t1) sound _ _ _ (λ d Hd, held_sound t1 d Hm Hd) (spec_try _ _ _ _ Hz)).
Qed.

(** A journal of the trial, and a look at the error of its writing. *)
Lemma trial_journal_spec (Q : P → Prop) now t1 t' :
  plan t' = plan t0 → tr_State t1 = StateTrial → tr_State t' = StateTrial →
  spec sound (λ d, held t1 d ∧ Q (ud_platform d)) (io_try (WriteTransaction now t'))
    (λ o d, match o with Ok _ => held (t' <| tr_UpdatedAt := now |>) d ∧ Q (ud_platform d) | Err _ => half d end).
Proof.
  intros Hp Hs1 Hs'. assert (midway (tr_State t')) as Hm by (by left).
  assert (∀ d, truthful t' (ud_platform d) ↔ touched (plan t0) (ud_platform d)) as Htr.
  { intros d. rewrite truthful_midway by done. by rewrite Hp. }
  assert (spec half (λ d, held t1 d ∧ Q (ud_platform d)) (WriteTransaction now t')
    (λ _ d, held (t' <| tr_UpdatedAt := now |>) d ∧ Q (ud_platform d))) as Hw.
  { eapply spec_weaken; [apply (write_journal_spec half Q now t' Hp)| |].
    - by rewrite Hs'.
    - intros d Hb Ht. exists (t' <| tr_UpdatedAt := now |>). split; [done|]. split; [done|]. by apply Htr.
    - intros d _ [[Hb Ht] HQ]. exists t1. split_and!; [done|by rewrite Hs1|left; by rewrite Hs', Hs1|by apply Htr|done].
    - intros [] d _ (Hb & Ht & HQ). split; [split; [done|by apply Htr]|done]. }
  eapply spec_weaken; [exact (spec_under half sound _ _ _ half_sound (spec_try _ _ _ _ Hw))| |].
  - intros d _ [Hh HQ]. split; [exists t1; split; [by left|done]|by split].
  - intros [a|e] d _ [Hd HQ]; done.
Qed.

(** ** The runs of the arbiter *)

Variable clock : nat → Time.
Hypothesis clock_runs : ∀ i, clock i ≠ 0.

Lemma rollback_spec t code cause :
  plan t = plan t0 →
  spec sound half (rollback clock t code cause)
    (λ v d, settled v.1 d ∧ is_Some v.2 ∧ (rs_State v.1 = StateRolledBack ∨ rs_State v.1 = StateFailed)).
Proof.
  intros Hp. unfold rollback. cbv zeta. set (t1 := t <| tr_State := _ |> <| tr_Phase := _ |> <| tr_Failure := _ |>).
  assert (plan t1 = plan t0) as Hp1 by done. set (t2 := t1 <| tr_UpdatedAt := clock 4 |>).
  assert (midway (tr_State t2)) as Hm by (by right).
  eapply spec_bind with (R := λ _ d, held t2 d ∧ True).
  { eapply spec_weaken; [apply (write_journal_spec sound (λ _, True) (clock 4) t1 Hp1 (λ _ E, False_ind _ (diff_false_true E)) (sound_intro (clock 4) t1))| |].
    - intros d _ (t3 & Hm3 & Hb & Ht). exists t3. split_and!; [done|by apply midway_not_terminal| |change (touched (plan t1) (ud_platform d)); by rewrite Hp1|done].
      destruct Hm3 as [->| ->]; [right; constructor|by left].
    - intros [] d _ (Hb & Ht & _). split; [|done]. split; [done|]. change (touched (plan t1) (ud_platform d)) in Ht. by rewrite Hp1 in Ht. }
  intros []. eapply spec_bind; [apply (driver_spec (λ _, True) t1 t2 _ _ Hm Hp1 (rollback_law t1))|]. intros [u|err].
  - eapply spec_bind.
    + eapply spec_weaken; [apply (complete_spec (clock 6) (clock 7) (back_to_source t1) StateRolledBack _ (tr_Warnings t1)); [exact Hp1|apply clock_runs]| |intros r d _ Hs; exact Hs].
      intros d _ [[Hb _] Hr]. exists t2. split_and!; [done|constructor|exact Hr].
    + intros r. apply spec_ret. intros d _ [Hs Hst]. cbn [fst snd]. split_and!; [done|by eexists|by left].
  - eapply spec_bind.
    + eapply spec_weaken; [apply (complete_spec (clock 6) (clock 7) (back_to_source t1) StateFailed _ (tr_Warnings t1)); [exact Hp1|apply clock_runs]| |intros r d _ Hs; exact Hs].
      intros d _ [[Hb Ht] _]. exists t2. split_and!; [done|constructor|]. change (touched (plan t1) (ud_platform d)). by rewrite Hp1.
    + intros r. apply spec_ret. intros d _ [Hs Hst]. cbn [fst snd]. split_and!; [done|by eexists|by right].
Qed.

(** How a run that returns a result ends. *)
Definition ended (v : with_error Result) d : Prop :=
  settled v.1 d ∧
  (v.2 = None ∧ rs_State v.1 = StateCommitted ∨ is_Some v.2 ∧ (rs_State v.1 = StateRolledBack ∨ rs_State v.1 = StateFailed)).

Lemma rollback_ends t code cause : plan t = plan t0 → spec sound half (rollback clock t code cause) ended.
Proof.
  intros Hp. eapply spec_weaken; [by apply rollback_spec|done|]. intros v d _ (Hs & Ho & Hst). split; [done|by right].
Qed.

Lemma held_half t d : midway (tr_State t) → held t d → half d.
Proof. intros Hm Hh. by exists t. Qed.

Lemma runTrial_spec :
  tr_State t0 = StateStaged → spec sound (book d0 t0 t0) (runTrial clock t0) ended.
Proof.
  intros Hst. unfold runTrial. cbv zeta.
  set (t1 := t0 <| tr_State := StateTrial |> <| tr_Phase := _ |> <| tr_Failure := _ |>). set (t1' := t1 <| tr_UpdatedAt := clock 0 |>).
  assert (midway (tr_State t1')) as Hm1 by (by left).
  eapply spec_bind with (R := λ _ d, held t1' d ∧ runs (tr_SourceVersion t1) (ud_platform d)).
  { eapply spec_weaken; [apply (write_journal_spec sound (runs (tr_SourceVersion t0)) (clock 0) t1 eq_refl (λ _ E, False_ind _ (diff_false_true E)) (sound_intro (clock 0) t1))| |].
    - intros d Hs Hb. destruct (sound_book t0 d Hs (bk_journal _ _ _ _ Hb)) as [_ Ht]. unfold truthful in Ht. rewrite Hst in Ht.
      change (runs (tr_SourceVersion t0) (ud_platform d)) in Ht. exists t0. split_and!; [done|by rewrite Hst| |by apply runs_touched|done].
      right. rewrite Hst. constructor.
    - intros [] d _ (Hb & Ht & Hr). split; [|done]. split; [done|exact Ht]. }
  intros []. eapply spec_bind; [apply (driver_spec _ t1 t1' _ _ Hm1 eq_refl (prepare_law t1))|]. intros [u|err].
  2: { eapply spec_weaken; [by apply rollback_ends| |done]. intros d _ [Hh _]. by eapply held_half. }
  set (t2 := t1 <| tr_Phase := PhaseHealth |>). set (t2' := t2 <| tr_UpdatedAt := clock 1 |>).
  eapply spec_bind; [apply (trial_journal_spec (on_trial (plan t1)) (clock 1) t1' t2); done|]. intros [u2|err].
  2: { eapply spec_weaken; [by apply rollback_ends|done|done]. }
  assert (midway (tr_State t2')) as Hm2 by (by left).
  eapply spec_bind; [apply (driver_spec _ t2 t2' _ _ Hm2 eq_refl (verify_law t2))|]. intros [warnings|err].
  2: { eapply spec_weaken; [by apply rollback_ends| |done]. intros d _ [Hh _]. by eapply held_half. }
  set (t3 := t2 <| tr_Phase := PhaseCommit |> <| tr_Warnings := warnings |>). set (t3' := t3 <| tr_UpdatedAt := clock 2 |>).
  eapply spec_bind; [apply (trial_journal_spec (λ p, on_trial (plan t2) p ∧ verified (plan t2) p) (clock 2) t2' t3); done|]. intros [u3|err].
  2: { eapply spec_weaken; [by apply rollback_ends|done|done]. }
  assert (midway (tr_State t3')) as Hm3 by (by left).
  eapply spec_bind; [apply (driver_spec _ t3 t3' _ _ Hm3 eq_refl (commit_law t3))|]. intros [u4|err].
  2: { eapply spec_weaken; [by apply rollback_ends| |done]. intros d _ [Hh _]. by eapply held_half. }
  eapply spec_bind.
  - eapply spec_weaken; [apply complete_spec; [reflexivity|apply clock_runs]| |intros r d _ Hs; exact Hs].
    intros d _ [[Hb _] Hr]. exists t3'. split_and!; [done|constructor|exact Hr].
  - intros r. apply spec_ret. intros d _ [Hs Hc]. split; [done|]. by left.
Qed.

Lemma repair_spec r :
  spec sound (λ d, book d0 t0 t0 d ∧ kept_result d (rs_TransactionID r) r) (repairCurrentResultProjection r)
    (λ _ d, kept_result d (rs_TransactionID r) r ∧
      (tr_TransactionID t0 = rs_TransactionID r → is_ok (resultFromTerminalTransaction t0) = true → settled r d)).
Proof.
  unfold repairCurrentResultProjection.
  eapply spec_bind with (R := λ d1 d, d1 = d ∧ book d0 t0 t0 d ∧ kept_result d (rs_TransactionID r) r); [apply spec_read; by intros d _ ?|].
  intros d1 d fs Hs (-> & Hb & Hk). rewrite (read_journal t0 d Hb).
  assert (∀ d', sound d' → ud_transaction d' = ud_transaction d → ud_results d' = ud_results d →
    (∃ c, ud_current d' = Some (Some c) ∧ rs_TransactionID c = tr_TransactionID t0) →
    kept_result d' (rs_TransactionID r) r ∧
    (tr_TransactionID t0 = rs_TransactionID r → is_ok (resultFromTerminalTransaction t0) = true → settled r d')) as Hdone.
  { intros d' Hs' Ej Er Hc. assert (kept_result d' (rs_TransactionID r) r) as Hk' by (unfold kept_result; by rewrite Er).
    split; [done|]. intros Eid Hok. destruct (sound_book t0 d' Hs') as [Hb' Ht']; [rewrite Ej; apply Hb|].
    exists t0. split_and!; [done|done| |by rewrite Eid|done]. apply Hb'. by rewrite Eid. }
  assert (∀ d', kept_result d' (rs_TransactionID r) r → (tr_TransactionID t0 = rs_TransactionID r → is_ok (resultFromTerminalTransaction t0) = true → False) →
    kept_result d' (rs_TransactionID r) r ∧
    (tr_TransactionID t0 = rs_TransactionID r → is_ok (resultFromTerminalTransaction t0) = true → settled r d')) as Hother.
  { intros d' Hk' Hno. split; [done|]. intros E1 E2. by destruct (Hno E1 E2). }
  destruct (String.eqb_spec (tr_TransactionID t0) (rs_TransactionID r)) as [Eid|Hne]; cbn [negb]; [|split; [done|intros u _; by apply Hother]].
  destruct (resultFromTerminalTransaction t0) as [r0|e] eqn:Er0; cbn [is_ok negb]; [|split; [done|intros u _; by apply Hother]].
  assert (r0 = r) as ->. { rewrite <- Eid in Hk. apply (bk_result _ _ _ _ Hb) in Hk. rewrite Er0 in Hk. by injection Hk as <-. }
  match goal with |- context [if ?b then _ else _] => destruct b eqn:Ec end.
  - split; [done|]. intros u _. apply Hdone; [done..|]. destruct (ud_current d) as [[c|]|] eqn:Ecur; [|discriminate..].
    cbn in Ec. apply andb_true_iff in Ec as [_ Ec]. apply String.eqb_eq in Ec. exists c. split; [exact Ecur|]. by rewrite Eid.
  - apply (spec_write sound (put_current r) (λ d', d' = d) (λ _ d', kept_result d' (rs_TransactionID r) r ∧
      (tr_TransactionID t0 = rs_TransactionID r → is_ok (Ok r) = true → settled r d'))); [|done..].
    intros d' _ ->. assert (sound (put_current r d)) as Hs2.
    { exists t0. split; [by apply book_put_current|]. by destruct (sound_book t0 d Hs (bk_journal _ _ _ _ Hb)). }
    split; [done|]. apply Hdone; [done..|]. by exists r.
Qed.

Lemma settled_state r d : settled r d → terminal (rs_State r) = true ∧ rs_TransactionID r = tr_TransactionID t0.
Proof.
  intros (t & Hb & _ & E & _). destruct (result_fields _ _ E) as (-> & -> & _). split; [by eapply result_terminal|].
  apply plan_id, Hb.
Qed.

Lemma ReadResult_spec id :
  spec sound (book d0 t0 t0) (ReadResult id) (λ r d, kept_result d id r ∧ (tr_TransactionID t0 = id → settled r d)).
Proof.
  unfold ReadResult. eapply spec_bind with (R := λ d1 d, d1 = d ∧ book d0 t0 t0 d); [apply spec_read; by intros d _ ?|].
  intros d1 d fs Hs (-> & Hb). destruct (stored_result d id) as [r|e] eqn:Est.
  - unfold stored_result in Est. apply bind_Ok in Est as (r' & Er & Est). apply bind_Ok in Est as ([] & Hv & Est).
    apply reject_bind_Ok in Est as [Hid Est]. injection Est as ->. apply negb_false_iff, String.eqb_eq in Hid.
    assert (kept_result d id r) as Hk.
    { split; [|done]. destruct (ud_results d !! id) as [[r2|]|]; [by injection Er as ->|discriminate..]. }
    apply (spec_at sound (repairCurrentResultProjection r;; mret r) (λ r d', kept_result d' id r ∧ (tr_TransactionID t0 = id → settled r d'))); [|done].
    eapply spec_bind.
    + eapply spec_weaken; [apply (repair_spec r)| |intros u d' _ HQ; exact HQ]. intros d' _ ->. split; [done|]. by rewrite Hid.
    + intros []. apply spec_ret. intros d' _ [Hk' Hset]. rewrite Hid in Hk', Hset. split; [done|]. intros Eid.
      apply Hset; [done|]. rewrite <- Eid in Hk. by rewrite (bk_result _ _ _ _ Hb _ Hk).
  - rewrite (read_journal t0 d Hb). destruct (String.eqb_spec (tr_TransactionID t0) id) as [Eid|Hne]; cbn [negb]; [|by split].
    destruct (resultFromTerminalTransaction t0) as [r|e'] eqn:Er; [|by split].
    apply (spec_at sound (WriteResult r;; mret r) (λ r d', kept_result d' id r ∧ (tr_TransactionID t0 = id → settled r d'))); [|done].
    eapply spec_bind.
    + eapply spec_weaken; [apply (write_result_spec t0 r Er)| |intros u d' _ HQ; exact HQ]. intros d' _ ->. apply Hb.
    + intros []. apply spec_ret. intros d' _ Hset. split; [|done]. destruct Hset as (t & Hb' & _ & Ht & Hk & _).
      assert (tr_TransactionID t = id) as E by (rewrite <- Eid; apply plan_id, Hb'). by rewrite <- E.
Qed.

(** What a run that returns a result has done. *)
Definition concluded id (v : with_error Result) d : Prop :=
  settled v.1 d ∧ rs_TransactionID v.1 = id ∧
  (is_Some v.2 → rs_State v.1 = StateRolledBack ∨ rs_State v.1 = StateFailed).

Lemma ended_concluded v d : ended v d → tr_TransactionID t0 = rs_TransactionID v.1 ∧ concluded (tr_TransactionID t0) v d.
Proof.
  intros [Hs Ho]. destruct (settled_state _ _ Hs) as [_ E]. split; [done|]. split_and!; [done..|].
  intros [x Hx]. destruct Ho as [[Hn _]|[_ ?]]; [by rewrite Hx in Hn|done].
Qed.

Lemma Run_spec busy id : spec sound (book d0 t0 t0) (Run clock busy id) (concluded id).
Proof.
  unfold Run. apply spec_if; intros _; [apply spec_fail|]. apply spec_if; intros _; [apply spec_fail|].
  eapply spec_bind with (R := λ t d, t = t0 ∧ book d0 t0 t0 d).
  { unfold ReadTransaction. eapply spec_bind with (R := λ d1 d, d1 = d ∧ book d0 t0 t0 d); [apply spec_read; by intros d _ ?|].
    intros d1. apply spec_lift. intros t d E _ (-> & Hb). rewrite (read_journal t0 d Hb) in E. by injection E as <-. }
  intros t. intros d fs Hs (-> & Hb). revert d fs Hs Hb. change (spec sound (book d0 t0 t0)
    (if tr_TransactionID t0 ≠s id then io_fail "update transaction changed"
     else if terminal (tr_State t0) then r ← ReadResult id; mret (r, None)
     else if (tr_State t0 =s StateTrial) || (tr_State t0 =s StateRollingBack) then recoverInterruptedTrial clock t0
     else if tr_State t0 =s StateStaged then runTrial clock t0
     else io_fail "cannot arbitrate update state") (concluded id)).
  apply spec_if; intros Hid; [apply spec_fail|]. apply negb_false_iff, String.eqb_eq in Hid. subst id.
  apply spec_if; intros Hterm.
  { eapply spec_bind; [apply ReadResult_spec|]. intros r. apply spec_ret. intros d _ [Hk Hset]. specialize (Hset eq_refl).
    split_and!; [done|by destruct (settled_state _ _ Hset)|]. by intros [? ?]. }
  apply spec_if; intros Hmid.
  { eapply spec_weaken; [apply (rollback_ends t0); done| |intros v d _ Hv; by apply ended_concluded].
    assert (midway (tr_State t0)) as Hm by (apply orb_true_iff in Hmid as [E%String.eqb_eq|E%String.eqb_eq]; [by left|by right]).
    intros d Hs Hb. destruct (sound_book t0 d Hs (bk_journal _ _ _ _ Hb)) as [_ Ht]. exists t0. split; [done|]. split; [done|].
    by apply truthful_midway. }
  apply spec_if; intros Hst; [|apply spec_fail]. apply String.eqb_eq in Hst.
  eapply spec_weaken; [by apply runTrial_spec|done|]. intros v d _ Hv. by apply ended_concluded.
Qed.
End Run.

(** ** Histories *)

(** A transaction that is not in the store yet. *)
Definition fresh d t : Prop :=
  (∀ r, ¬ kept_result d (tr_TransactionID t) r) ∧
  (∀ c, ud_current d = Some (Some c) → rs_TransactionID c ≠ tr_TransactionID t).

(** What happens to a store: an updater that finds the source version running
    stages a new transaction, arbiters run, results are read, in any order and
    with any faults. *)
Inductive step : disk P → disk P → Prop :=
  | step_stage d t now fs :
      tr_State t = StateStaged → runs (tr_SourceVersion t) (ud_platform d) → fresh d t →
      step d (run_disk (WriteTransaction now t d fs))
  | step_run d clock busy id fs : (∀ i, clock i ≠ 0) → step d (run_disk (Run clock busy id d fs))
  | step_read d id fs : step d (run_disk (ReadResult id d fs)).

Definition history d : Prop := ∃ p, rtc step (mkDisk None ∅ None p) d.

Definition good d : Prop :=
  (ud_transaction d = None ∧ ud_results d = ∅ ∧ ud_current d = None) ∨ ∃ t, book d t t d ∧ truthful t (ud_platform d).

Lemma book_restart d0 t0 t d : book d0 t0 t d → book d t t d.
Proof. by intros [? ? ? ? ? ? ? ? ? ?]. Qed.

Lemma sound_good d0 t0 d : sound d0 t0 d → good d.
Proof. intros (t & Hb & Ht). right. exists t. split; [by eapply book_restart|done]. Qed.

Lemma book_sound d t : book d t t d → truthful t (ud_platform d) → sound d t d.
Proof. intros Hb Ht. by exists t. Qed.

Lemma empty_read d :
  ud_transaction d = None → (∀ fs clock busy id, run_disk (Run clock busy id d fs) = d ∧ ∀ v, run_outcome (Run clock busy id d fs) ≠ Done v) ∧
  (ud_results d = ∅ → ∀ fs id, run_disk (ReadResult id d fs) = d ∧ ∀ r, run_outcome (ReadResult id d fs) ≠ Done r).
Proof.
  intros E. assert (read_transaction d = Err "no such file") as Er by (unfold read_transaction; by rewrite E). split.
  - intros fs clock busy id. unfold Run. destruct (id =s ""), busy; [by split..|].
    assert (ReadTransaction d fs = mkRun (Failed "no such file") d fs) as Ert.
    { unfold ReadTransaction, mbind, io_bind. cbn [io_read]. by rewrite Er. }
    unfold mbind, io_bind. by rewrite Ert.
  - intros Es fs id. unfold ReadResult, mbind, io_bind. cbn [io_read]. unfold stored_result. rewrite Es, lookup_empty. cbn. by rewrite Er.
Qed.

Lemma stage_good d t now fs :
  good d → tr_State t = StateStaged → runs (tr_SourceVersion t) (ud_platform d) → fresh d t →
  let d' := run_disk (WriteTransaction now t d fs) in good d' ∧ ∀ id r, kept_result d id r → kept_result d' id r.
Proof.
  intros Hg Hst Hr [Hf1 Hf2]. cbn zeta.
  assert (spec (λ d', good d' ∧ ud_results d' = ud_results d) (λ d', d' = d) (WriteTransaction now t) (λ _ _, True)) as Hs.
  { unfold WriteTransaction. apply spec_lift_bind. intros [] Hv. apply spec_write. intros d' _ ->. split; [|done]. split; [|done].
    right. exists (t <| tr_UpdatedAt := now |>). split.
    - split; try done; cbn; rewrite ?Hst; try done.
      + intros r Hk. by destruct (Hf1 r).
      + intros r Hc E. by destruct (Hf2 r).
    - unfold truthful. change (tr_State (t <| tr_UpdatedAt := now |>)) with (tr_State t). rewrite Hst. exact Hr. }
  destruct (Hs d fs) as [[Hg' E] _]; [by split|done|]. split; [done|]. intros id r. unfold kept_result. by rewrite E.
Qed.

(** The invariant, over one step; the results stay. *)
Lemma step_good d d' : good d → step d d' → good d' ∧ ∀ id r, kept_result d id r → kept_result d' id r.
Proof.
  intros Hg Hstep. revert Hg. destruct Hstep as [d1 t now fs Hst Hr Hf|d1 clock busy id fs Hc|d1 id fs]; intros Hg; [by apply stage_good|..].
  - destruct Hg as [(Ej & Er & Ec)|(t & Hb & Ht)].
    + destruct (proj1 (empty_read d1 Ej) fs clock busy id) as [-> _]. split; [by left|done].
    + destruct (Run_spec d1 t clock Hc busy id d1 fs (book_sound d1 t Hb Ht) Hb) as [Hs _].
      split; [by eapply sound_good|]. destruct Hs as (t' & Hb' & _). apply Hb'.
  - destruct Hg as [(Ej & Er & Ec)|(t & Hb & Ht)].
    + destruct (proj2 (empty_read d1 Ej) Er fs id) as [-> _]. split; [by left|done].
    + destruct (ReadResult_spec d1 t id d1 fs (book_sound d1 t Hb Ht) Hb) as [Hs _].
      split; [by eapply sound_good|]. destruct Hs as (t' & Hb' & _). apply Hb'.
Qed.

Lemma steps_good d d' : good d → rtc step d d' → good d' ∧ ∀ id r, kept_result d id r → kept_result d' id r.
Proof.
  intros Hg Hs. induction Hs as [d|d1 d2 d3 H1 _ IH]; [by split|]. destruct (step_good d1 d2 Hg H1) as [Hg2 Hk].
  destruct (IH Hg2) as [Hg3 Hk']. split; [done|]. intros. by apply Hk', Hk.
Qed.

Lemma history_good d : history d → good d.
Proof. intros [p Hp]. by apply (steps_good (mkDisk None ∅ None p) d); [left|]. Qed.

Lemma run_concluded clock busy id d fs v :
  good d → (∀ i, clock i ≠ 0) → run_outcome (Run clock busy id d fs) = Done v →
  ∃ t, book d t t d ∧ concluded d t id v (run_disk (Run clock busy id d fs)).
Proof.
  intros Hg Hc Hv. destruct Hg as [(Ej & Er & Ec)|(t & Hb & Ht)].
  - by destruct (proj1 (empty_read d Ej) fs clock busy id) as [_ Hno]; destruct (Hno v).
  - exists t. split; [done|]. by apply (Run_spec d t clock Hc busy id d fs (book_sound d t Hb Ht) Hb).
Qed.

(** C12: the outcome of an update is true.  In any history of staged updates,
    runs and reads, with any errors and crashes, a run that returns a result
    returns the one of its transaction, which is on disk in its own file and as
    the current one.  A committed result means that the platform runs the
    target version, which was verified, and that no error is reported; a rolled
    back one that it runs the source version again. *)
Theorem update_outcome_true clock busy id d fs r e :
  history d → (∀ i, clock i ≠ 0) →
  run_outcome (Run clock busy id d fs) = Done (r, e) →
  let d' := run_disk (Run clock busy id d fs) in
  rs_TransactionID r = id ∧ terminal (rs_State r) = true ∧
  (rs_State r = StateCommitted → e = None ∧ runs (rs_TargetVersion r) (ud_platform d') ∧
     ∃ t, ud_transaction d' = Some (Some t) ∧ verified (plan t) (ud_platform d')) ∧
  (rs_State r = StateRolledBack → runs (rs_SourceVersion r) (ud_platform d')) ∧
  kept_result d' id r ∧ ∃ c, ud_current d' = Some (Some c) ∧ rs_TransactionID c = id.
Proof.
  intros Hh%history_good Hc Hv d'. destruct (run_concluded clock busy id d fs (r, e) Hh Hc Hv) as (t0 & _ & Hset & Hid & He).
  cbn [fst snd] in *. fold d' in Hset. destruct (settled_state _ _ _ _ Hset) as [Hterm _].
  destruct Hset as (t & Hb & Ht & Hres & Hk & Hcur). destruct (result_fields _ _ Hres) as (Eid & Est & Esrc & Etgt & _).
  rewrite <- Eid, Hid in Hk, Hcur. unfold truthful in Ht. rewrite <- Est, <- Esrc, <- Etgt in Ht.
  split_and!; [done..| | |done|done].
  - intros E. rewrite E in Ht, He. destruct Ht as [Hr Hver]. split_and!; [|exact Hr|exists t; split; [apply Hb|exact Hver]].
    destruct e as [x|]; [|done]. destruct (He (ex_intro _ x eq_refl)); discriminate.
  - intros E. by rewrite E in Ht.
Qed.

(** C13: the arbiter follows the protocol of an update: from staged to a trial,
    from there to committed or into a rollback, and from a rollback to rolled
    back or failed.  Every run and every read, whatever fails and wherever it
    is cut off, takes the journal along the protocol, keeps the plan of the
    transaction, leaves a journal that is true of the platform, and once the
    journal is terminal changes neither it nor the platform. *)
Theorem update_refines_protocol d t :
  history d → ud_transaction d = Some (Some t) →
  ∀ clock busy id fs, (∀ i, clock i ≠ 0) →
  ∀ d', d' = run_disk (Run clock busy id d fs) ∨ d' = run_disk (ReadResult id d fs) →
  ∃ t', ud_transaction d' = Some (Some t') ∧ plan t' = plan t ∧ rtc moves (tr_State t) (tr_State t') ∧
    truthful t' (ud_platform d') ∧ (terminal (tr_State t) = true → t' = t ∧ ud_platform d' = ud_platform d).
Proof.
  intros Hh%history_good Ej clock busy id fs Hc d' Hd.
  destruct Hh as [(E & _)|(t1 & Hb & Ht)]; [by rewrite E in Ej|]. pose proof (bk_journal _ _ _ _ Hb) as E. rewrite E in Ej. injection Ej as ->.
  assert (sound d t d') as (t' & [] & Ht').
  { destruct Hd as [->| ->]; [by apply (Run_spec d t clock Hc busy id d fs (book_sound d t Hb Ht) Hb)|].
    by apply (ReadResult_spec d t id d fs (book_sound d t Hb Ht) Hb). }
  exists t'. split_and!; auto.
Qed.

(** The answer of a run or a read to the caller. *)
Definition answered id d r d' : Prop :=
  (∃ fs, run_outcome (ReadResult id d fs) = Done r ∧ d' = run_disk (ReadResult id d fs)) ∨
  (∃ clock busy fs e, (∀ i, clock i ≠ 0) ∧ run_outcome (Run clock busy id d fs) = Done (r, e) ∧ d' = run_disk (Run clock busy id d fs)).

Lemma answered_kept id d r d' : good d → answered id d r d' → kept_result d' id r ∧ step d d'.
Proof.
  intros Hg [(fs & Hv & ->)|(clock & busy & fs & e & Hc & Hv & ->)].
  - split; [|by constructor]. destruct Hg as [(Ej & Er & Ec)|(t & Hb & Ht)].
    + destruct (proj2 (empty_read d Ej) Er fs id) as [_ Hno]. by destruct (Hno r).
    + destruct (ReadResult_spec d t id d fs (book_sound d t Hb Ht) Hb) as [_ HQ]. by apply HQ.
  - split; [|by constructor]. destruct (run_concluded clock busy id d fs (r, e) Hg Hc Hv) as (t0 & _ & Hset & Hid & _).
    cbn [fst] in *. destruct Hset as (t & Hb & _ & Hres & Hk & _). destruct (result_fields _ _ Hres) as (Eid & _). by rewrite <- Eid, Hid in Hk.
Qed.

(** C19: an answer is final: once a run or a read has answered a result for a
    transaction, whatever happens to the store after it, newer updates
    included, every answer for that transaction is that result. *)
Theorem update_answer_final id d r d' d1 r1 d2 :
  history d → answered id d r d' → rtc step d' d1 → answered id d1 r1 d2 → r1 = r.
Proof.
  intros Hh%history_good Ha Hs Ha1. destruct (answered_kept id d r d' Hh Ha) as [Hk Hst].
  destruct (step_good d d' Hh Hst) as [Hg' _]. destruct (steps_good d' d1 Hg' Hs) as [Hg1 Hk1].
  destruct (answered_kept id d1 r1 d2 Hg1 Ha1) as [Hk2 Hst2]. destruct (step_good d1 d2 Hg1 Hst2) as [_ Hk3].
  destruct (Hk3 id r (Hk1 id r Hk)) as [E _]. destruct Hk2 as [E2 _]. rewrite E in E2. by injection E2 as ->.
Qed.

(** ** Runs that are left alone *)

(** On a platform that stays alive, operations come to an end where nothing
    outside them fails. *)
Definition returns (alive : P → Prop) {A} (op : io P A) : Prop :=
  ∀ p, alive p → run_outcome (op p []) ≠ Dead ∧ run_faults (op p []) = [] ∧ alive (run_disk (op p [])).
Definition driver_returns (alive : P → Prop) : Prop :=
  ∀ t, returns alive (PrepareTrial t) ∧ returns alive (VerifyTrial t) ∧ returns alive (Commit t) ∧ returns alive (Rollback t).

Section Through.
Variable alive : P → Prop.

Definition goes_through {A} (m : io (disk P) A) d : Prop := ∃ a d', m d [] = mkRun (Done a) d' [] ∧ alive (ud_platform d').

Lemma through_ret {A} (a : A) d : alive (ud_platform d) → goes_through (mret a) d.
Proof. intros Hd. by exists a, d. Qed.

Lemma through_bind {A B} (m : io (disk P) A) (k : A → io (disk P) B) d :
  goes_through m d → (∀ a d', alive (ud_platform d') → goes_through (k a) d') → goes_through (m ≫= k) d.
Proof.
  intros (a & d' & E & Hd) Hk. destruct (Hk a d' Hd) as (b & d2 & E2 & Hd2). exists b, d2. split; [|done].
  by rewrite (io_bind_Done _ _ _ _ _ _ _ E).
Qed.

Lemma through_try {A} (op : io P A) d : returns alive op → alive (ud_platform d) → goes_through (io_try (on_platform op)) d.
Proof.
  intros Hr Hd. destruct (Hr (ud_platform d) Hd) as (Ho & Hf & Ha). unfold goes_through, io_try, on_platform, io_zoom.
  destruct (op (ud_platform d) []) as [[a|e|] p l]; cbn in *; subst l; [by eexists _, _|by eexists _, _|done].
Qed.

Lemma through_try_write now t d : alive (ud_platform d) → goes_through (io_try (WriteTransaction now t)) d.
Proof.
  intros Hd. unfold goes_through, io_try, WriteTransaction, mbind, io_bind.
  destruct (validate_transaction _) as [[]|e]; cbn; by eexists _, _.
Qed.

Lemma through_write now t d :
  validate_transaction (t <| tr_UpdatedAt := now |>) = Ok tt → alive (ud_platform d) → goes_through (WriteTransaction now t) d.
Proof. intros Hv Hd. unfold goes_through, WriteTransaction, mbind, io_bind. rewrite Hv. cbn. by eexists _, _. Qed.

Lemma through_result r d : validate_result r = Ok tt → alive (ud_platform d) → goes_through (WriteResult r) d.
Proof. intros Hv Hd. unfold goes_through, WriteResult, mbind, io_bind. rewrite Hv. cbn. by eexists _, _. Qed.
End Through.

Lemma optional_Ok v : ValidateVersion v = Ok tt → optional_version v = Ok tt.
Proof. unfold optional_version. by destruct (TrimSpace v ≠s ""). Qed.

(** A journal of the same plan is valid if what may change of it is. *)
Lemma validate_change t t' :
  validate_transaction t = Ok tt → plan t' = plan t → validState (tr_State t') = true → validPhase (tr_Phase t') = true →
  tr_UpdatedAt t' ≠ 0 → optional_version (tr_ActiveVersion t') = Ok tt → optional_version (tr_FallbackVersion t') = Ok tt →
  validate_transaction t' = Ok tt.
Proof.
  intros Hv Hp Hs Hph Hu Ha Hf. injection Hp as E1 E2 E3 E4 E5 E6 E7 E8. unfold validate_transaction in *.
  rewrite E1, E2, E3, E4, E5, E6, E7, E8, Hs, Hph, Ha, Hf. assert (IsZero (tr_UpdatedAt t') = false) as -> by (by apply Z.eqb_neq).
  do 5 (apply bind_Ok in Hv as ([] & -> & Hv)). do 4 (apply bind_Ok in Hv as (? & _ & Hv)).
  apply reject_bind_Ok in Hv as [Hz Hv]. apply orb_false_iff in Hz as [-> _]. exact Hv.
Qed.

Lemma validate_versions t :
  validate_transaction t = Ok tt →
  ValidateVersion (tr_SourceVersion t) = Ok tt ∧ ValidateVersion (tr_TargetVersion t) = Ok tt ∧
  optional_version (tr_ActiveVersion t) = Ok tt ∧ optional_version (tr_FallbackVersion t) = Ok tt ∧ tr_TransactionID t ≠ "".
Proof.
  intros Hv. unfold validate_transaction in Hv. apply reject_bind_Ok in Hv as [_ Hv]. apply reject_bind_Ok in Hv as [Hid Hv].
  apply reject_bind_Ok in Hv as [_ Hv]. do 4 (apply bind_Ok in Hv as ([] & ? & Hv)). split_and!; try done.
  intros E. by rewrite E in Hid.
Qed.

Section Alone.
Variable alive : P → Prop.
Hypothesis Hreturns : driver_returns alive.
Variable clock : nat → Time.
Hypothesis clock_runs : ∀ i, clock i ≠ 0.

Lemma through_complete t state failure warnings d :
  validate_transaction t = Ok tt → optional_version (tr_ActiveVersion t) = Ok tt → optional_version (tr_FallbackVersion t) = Ok tt →
  terminal state = true → alive (ud_platform d) → goes_through alive (Complete (clock 6) (clock 7) t state failure warnings) d.
Proof.
  intros Hv Ha Hf Ht Hd. unfold Complete. rewrite Ht. cbn [negb]. cbv zeta.
  set (t1 := completed state failure warnings (clock 6) t).
  assert (validate_transaction (t1 <| tr_UpdatedAt := clock 7 |>) = Ok tt) as Hv1.
  { apply (validate_change t); try done; [| |apply clock_runs].
    - unfold terminal in Ht. apply orb_true_iff in Ht as [[E|E]%orb_true_iff|E]; apply String.eqb_eq in E; by subst state.
    - change (tr_Phase (t1 <| tr_UpdatedAt := clock 7 |>)) with (if state =s StateCommitted then PhaseCommit else PhaseRollback).
      by destruct (state =s StateCommitted). }
  apply through_bind; [by apply through_write|]. intros [] d1 Hd1. apply through_bind; [|intros; by apply through_ret].
  apply through_result; [|done]. pose proof (terminal_result (t1 <| tr_UpdatedAt := clock 7 |>) (clock 6) Hv1 Ht eq_refl (clock_runs 6)) as E.
  destruct (result_fields _ _ E) as (_ & _ & _ & _ & Hvr). exact Hvr.
Qed.

Lemma back_valid t : validate_transaction t = Ok tt → validate_transaction (back_to_source t) = Ok tt.
Proof.
  intros Hv. destruct (validate_versions t Hv) as (Hs & _). apply (validate_change t); try done; try (by apply optional_Ok).
  - unfold validate_transaction in Hv. do 7 (apply bind_Ok in Hv as (? & _ & Hv)). apply reject_bind_Ok in Hv as [E _]. by apply negb_false_iff in E.
  - unfold validate_transaction in Hv. do 8 (apply bind_Ok in Hv as (? & _ & Hv)). apply reject_bind_Ok in Hv as [E _]. by apply negb_false_iff in E.
  - unfold validate_transaction in Hv. do 9 (apply bind_Ok in Hv as (? & _ & Hv)). apply reject_bind_Ok in Hv as [E _].
    apply orb_false_iff in E as [_ E]. by apply Z.eqb_neq.
Qed.

Lemma through_rollback t code cause d :
  validate_transaction t = Ok tt → alive (ud_platform d) → goes_through alive (rollback clock t code cause) d.
Proof.
  intros Hv Hd. unfold rollback. cbv zeta. set (t1 := t <| tr_State := _ |> <| tr_Phase := _ |> <| tr_Failure := _ |>).
  destruct (validate_versions t Hv) as (Hs & Ht & Ha & Hf & _).
  assert (∀ now, now ≠ 0 → validate_transaction (t1 <| tr_UpdatedAt := now |>) = Ok tt) as Hv1 by (intros; by apply (validate_change t)).
  apply through_bind; [by apply through_write; [apply Hv1|]|]. intros [] d1 Hd1. apply through_bind; [by apply through_try; [apply Hreturns|]|].
  assert (validate_transaction t1 = Ok tt) as Hvt.
  { apply (validate_change t); try done. unfold validate_transaction in Hv. do 9 (apply bind_Ok in Hv as (? & _ & Hv)).
    apply reject_bind_Ok in Hv as [E _]. apply orb_false_iff in E as [_ E]. by apply Z.eqb_neq. }
  intros [u|err] d2 Hd2; (apply through_bind; [|intros; by apply through_ret]); (apply through_complete; [by apply back_valid|by apply optional_Ok..|done|done]).
Qed.

Lemma through_runTrial t d : validate_transaction t = Ok tt → alive (ud_platform d) → goes_through alive (runTrial clock t) d.
Proof.
  intros Hv Hd. destruct (validate_versions t Hv) as (Hs & Ht & Ha & Hf & _).
  assert (tr_UpdatedAt t ≠ 0) as Hu.
  { unfold validate_transaction in Hv. do 9 (apply bind_Ok in Hv as (? & _ & Hv)).
    apply reject_bind_Ok in Hv as [E _]. apply orb_false_iff in E as [_ E]. by apply Z.eqb_neq. }
  assert (∀ phase warnings now, validPhase phase = true → now ≠ 0 →
    validate_transaction (t <| tr_State := StateTrial |> <| tr_Phase := phase |> <| tr_Failure := None |> <| tr_Warnings := warnings |>
      <| tr_UpdatedAt := now |>) = Ok tt) as Hval by (intros; by apply (validate_change t)).
  unfold runTrial. cbv zeta. apply through_bind; [apply through_write; [apply (Hval PhaseActivate (tr_Warnings t)); [done|apply clock_runs]|done]|].
  intros [] d1 Hd1. apply through_bind; [by apply through_try; [apply Hreturns|]|]. intros [u|err] d2 Hd2.
  2: { apply through_rollback; [by apply (Hval PhaseActivate (tr_Warnings t) (tr_UpdatedAt t))|done]. }
  apply through_bind; [by apply through_try_write|]. intros [u1|err] d3 Hd3.
  2: { apply through_rollback; [by apply (Hval PhaseHealth (tr_Warnings t) (tr_UpdatedAt t))|done]. }
  apply through_bind; [by apply through_try; [apply Hreturns|]|]. intros [warnings|err] d4 Hd4.
  2: { apply through_rollback; [by apply (Hval PhaseHealth (tr_Warnings t) (tr_UpdatedAt t))|done]. }
  apply through_bind; [by apply through_try_write|]. intros [u2|err] d5 Hd5.
  2: { apply through_rollback; [by apply (Hval PhaseCommit warnings (tr_UpdatedAt t))|done]. }
  apply through_bind; [by apply through_try; [apply Hreturns|]|]. intros [u3|err] d6 Hd6.
  2: { apply through_rollback; [by apply (Hval PhaseCommit warnings (tr_UpdatedAt t))|done]. }
  apply through_bind; [|intros; by apply through_ret]. apply through_complete; [|by apply optional_Ok..|done|done].
  by apply (validate_change t); try apply optional_Ok.
Qed.

Lemma through_ReadResult t d :
  book d t t d → terminal (tr_State t) = true → alive (ud_platform d) → goes_through alive (ReadResult (tr_TransactionID t)) d.
Proof.
  intros Hb Hterm Hd. destruct (bk_complete _ _ _ _ Hb Hterm) as [r0 Er0].
  assert (∀ r, goes_through alive (repairCurrentResultProjection r) d) as Hrep.
  { intros r. unfold goes_through, repairCurrentResultProjection, mbind, io_bind. cbn [io_read].
    destruct (read_transaction d); [|by eexists _, _]. repeat (match goal with |- context [if ?b then _ else _] => destruct b; [by eexists _, _|] end).
    cbn. by eexists _, _. }
  destruct (stored_result d (tr_TransactionID t)) as [r|e] eqn:Est.
  - destruct (through_bind alive (repairCurrentResultProjection r) (λ _, mret r) d (Hrep r) (λ _ _, through_ret alive r _)) as (a & d' & E & Hd').
    exists a, d'. split; [|done]. unfold ReadResult. erewrite io_bind_Done; [|reflexivity]. by rewrite Est.
  - destruct (result_fields _ _ Er0) as (_ & _ & _ & _ & Hv).
    destruct (through_bind alive (WriteResult r0) (λ _, mret r0) d (through_result alive r0 d Hv Hd) (λ _ _, through_ret alive r0 _)) as (a & d' & E & Hd').
    exists a, d'. split; [|done]. unfold ReadResult. erewrite io_bind_Done; [|reflexivity].
    rewrite Est, (read_journal d t t d Hb), String.eqb_refl. cbn [negb]. by rewrite Er0.
Qed.

Lemma through_Run t d : book d t t d → alive (ud_platform d) → goes_through alive (Run clock false (tr_TransactionID t)) d.
Proof.
  intros Hb Hd. pose proof (bk_valid _ _ _ _ Hb) as Hv. destruct (validate_versions t Hv) as (_ & _ & _ & _ & Hid).
  assert (goes_through alive (if terminal (tr_State t) then r ← ReadResult (tr_TransactionID t); mret (r, None)
     else if (tr_State t =s StateTrial) || (tr_State t =s StateRollingBack) then recoverInterruptedTrial clock t
     else if tr_State t =s StateStaged then runTrial clock t
     else io_fail "cannot arbitrate update state") d) as (a & d' & E & Hd').
  { destruct (terminal (tr_State t)) eqn:Hterm; [apply through_bind; [by apply through_ReadResult|intros; by apply through_ret]|].
    destruct (_ || _) eqn:Hmid; [by apply through_rollback|]. destruct (String.eqb_spec (tr_State t) StateStaged) as [Est|Hne]; [by apply through_runTrial|].
    exfalso. unfold validate_transaction in Hv. do 7 (apply bind_Ok in Hv as (? & _ & Hv)). apply reject_bind_Ok in Hv as [Hs _].
    apply negb_false_iff in Hs. unfold validState, one_of in Hs. cbn [existsb] in Hs. unfold terminal in Hterm.
    apply orb_false_iff in Hmid as [H1 H2]. apply orb_false_iff in Hterm as [[H3 H4]%orb_false_iff H5].
    apply String.eqb_neq in Hne. rewrite Hne, H1, H2, H3, H4, H5 in Hs. discriminate. }
  exists a, d'. split; [|done]. unfold Run. rewrite (proj2 (String.eqb_neq _ _) Hid). cbv iota. erewrite io_bind_Done.
  2: { unfold ReadTransaction. erewrite io_bind_Done; [|reflexivity]. by rewrite (read_journal d t t d Hb). }
  rewrite String.eqb_refl. cbn [negb]. exact E.
Qed.
End Alone.

(** C18: an update always comes to an end.  Whatever happened before, one run of
    the arbiter that nothing outside it cuts off, with a driver whose
    operations return, be it with errors, ends in a result, and from then on
    the journal is terminal. *)
Theorem update_settles alive clock d t :
  history d → ud_transaction d = Some (Some t) → driver_returns alive → alive (ud_platform d) → (∀ i, clock i ≠ 0) →
  ∃ r e, run_outcome (Run clock false (tr_TransactionID t) d []) = Done (r, e) ∧ terminal (rs_State r) = true ∧
    ∃ t', ud_transaction (run_disk (Run clock false (tr_TransactionID t) d [])) = Some (Some t') ∧ tr_State t' = rs_State r.
Proof.
  intros Hh Ej Hret Hd Hc. pose proof (history_good d Hh) as Hg. destruct Hg as [(E & _)|(t1 & Hb & Ht)]; [by rewrite E in Ej|].
  pose proof (bk_journal _ _ _ _ Hb) as E. rewrite E in Ej. injection Ej as ->.
  destruct (through_Run alive Hret clock Hc t d Hb Hd) as ([r e] & d' & Erun & _). exists r, e. rewrite Erun. cbn [run_outcome run_disk].
  destruct (run_concluded clock false (tr_TransactionID t) d [] (r, e) (history_good d Hh) Hc) as (t0 & _ & Hset & _); [by rewrite Erun|].
  rewrite Erun in Hset. cbn [fst run_disk] in Hset. split; [done|]. split; [by eapply settled_state|].
  destruct Hset as (t' & Hb' & _ & Hres & _). exists t'. split; [apply Hb'|]. by destruct (result_fields _ _ Hres) as (_ & -> & _).
Qed.
End Protocol.
