(* ===== verification/WindowsUpdate.v ===== *)
(** * WindowsUpdate: the Windows driver of an update (internal/updateplatform/windows.go)

    The driver switches the pointer to the active generation and stops and
    starts processes.  The platform is the pointer's file, the log of the
    commands the driver gave to the machine with their answers, and the answers
    still to come (a command succeeds, fails, or is the last before the process
    dies), and the readings of the clock to come.  The functions filepath.Abs (with filepath.Clean), filepath.Join and
    the simple case folding of runes are arguments.  The driver keeps its
    promises to the arbiter. *)

From S2P Require Import Prelude GoText Durable Update UpdateSpec.
Local Open Scope Z_scope.

(** ** The machine *)

Inductive command : Type :=
  | Stat (path : string)
  | CheckExecutionCompatibility (core : string)
  | RunCore (args : list string)
  | StopProcesses (binary : string)
  | StartTray
  | WaitForVersion (urls : list string) (version : string)
  | WaitProcess (binary : string)
  | StartTunnel.

(** [None]: the process dies. *)
Definition answer : Type := option (result unit).

Record platform : Type := mkPlatform {
  pf_active : jfile ActiveVersion;
  pf_log : list (command * result unit);
  pf_answers : list answer;
  pf_times : list Time;
}.
#[export] Instance platform_eta : Eta platform := λ p, mkPlatform (pf_active p) (pf_log p) (pf_answers p) (pf_times p).

(** A command to the machine; when no answers are given, commands succeed. *)
Definition perform (c : command) : io platform unit := λ p fs,
  let answer := default (Some (Ok tt)) (head (pf_answers p)) in
  let p := p <| pf_answers ::= tail |> in
  match answer with
  | None => mkRun Dead p fs
  | Some a =>
      let p := p <| pf_log ::= (λ log, log ++ [(c, a)]) |> in
      match a with Ok _ => mkRun (Done tt) p fs | Err e => mkRun (Failed e) p fs end
  end.

(** [_ = f()]: the error is dropped. *)
Definition attempt (m : io platform unit) : io platform unit := io_try m;; mret tt.

Definition when (b : bool) (m : io platform unit) : io platform unit := if b then m else mret tt.

(** WriteActive at the next reading of the clock. *)
Definition write_pointer (active : ActiveVersion) : io platform unit := λ p,
  let now := default 0 (head (pf_times p)) in
  io_zoom pf_active (λ f p, p <| pf_active := f |>) (WriteActive now active) (p <| pf_times ::= tail |>).

Class WindowsPaths : Type := mkWindowsPaths {
  path_abs : string → result string;
  path_join : list string → string;
  fold_rune : N → N;
}.

(** ** Commands that are answered *)

(** No answer to come is the last. *)
Definition answered_commands (p : platform) : Prop := None ∉ pf_answers p.
Local Abbreviation returns := (returns answered_commands).

Lemma returns_bind {A B} (m : io platform A) (k : A → io platform B) : returns m → (∀ a, returns (k a)) → returns (m ≫= k).
Proof.
  intros Hm Hk p Hp. destruct (Hm p Hp) as (Ho & Hf & Ha). unfold mbind, io_bind.
  destruct (m p []) as [[a|e|] p' l]; cbn in *; subst l; [by apply Hk|done..].
Qed.

Lemma returns_ret {A} (a : A) : returns (mret a).
Proof. by intros p Hp. Qed.

Lemma returns_fail {A} e : returns (@io_fail platform A e).
Proof. by intros p Hp. Qed.

Lemma returns_lift {A} (r : result A) : returns (io_lift r).
Proof. intros p Hp. by destruct r. Qed.

Lemma returns_try {A} (m : io platform A) : returns m → returns (io_try m).
Proof.
  intros Hm p Hp. destruct (Hm p Hp) as (Ho & Hf & Ha). unfold io_try. by destruct (m p []) as [[a|e|] p' l].
Qed.

Lemma returns_perform c : returns (perform c).
Proof.
  intros p Hp. assert (answered_commands (p <| pf_answers ::= tail |>)) as Ht.
  { unfold answered_commands in *. cbn. intros Hin. apply Hp. destruct (pf_answers p); [done|by right]. }
  unfold perform. destruct (pf_answers p) as [|[[[]|e]|] answers] eqn:E; try done.
  destruct Hp. rewrite E. by left.
Qed.

Lemma returns_write a : returns (write_pointer a).
Proof.
  intros p Hp. unfold write_pointer, io_zoom, WriteActive, mbind, io_bind. cbv zeta.
  by destruct (validate_active _) as [[]|e].
Qed.

Lemma returns_if {A} (b : bool) (m m' : io platform A) : returns m → returns m' → returns (if b then m else m').
Proof. by destruct b. Qed.

Create HintDb returns.
#[local] Hint Resolve returns_ret returns_fail returns_lift returns_try returns_perform returns_write returns_if returns_bind : returns.

Section Driver.
Context `{WindowsPaths}.
Variable root : string.

(** strings.EqualFold. *)
Definition EqualFold (a b : string) : bool :=
  bool_decide (map (λ c, fold_rune (ch_rune c)) (chunks (bytes a)) = map (λ c, fold_rune (ch_rune c)) (chunks (bytes b))).

Definition samePath (a b : string) : bool :=
  match path_abs a, path_abs b with Ok a, Ok b => EqualFold a b | _, _ => false end.

(** ** The layout of the generations *)

Definition VersionsDir : string := path_join [root; "versions"].
Definition GenerationDir (version : string) : string := path_join [VersionsDir; NormalizeVersion version].
Definition GenerationCore (version : string) : string := path_join [GenerationDir version; "agentdock-core.exe"].
Definition GenerationTray (version : string) : string := path_join [GenerationDir version; "agentdock-tray.exe"].
Definition GenerationArbiter (version : string) : string := path_join [GenerationDir version; "agentdock-arbiter.exe"].

Definition generation_files (version : string) : list string :=
  [GenerationCore version; GenerationTray version; GenerationArbiter version;
   path_join [GenerationDir version; "wsl-helper"; "manifest.json"];
   path_join [GenerationDir version; "wsl-helper"; "agentdock-wsl-helper-linux-amd64"];
   path_join [GenerationDir version; "wsl-helper"; "agentdock-wsl-helper-linux-arm64"]].

(** ** The driver *)

Definition windows_plan (t : Transaction) : result WindowsPlan :=
  match tr_Windows t with
  | Some plan =>
      reject (tr_Platform t ≠s "windows") "Windows arbiter requires a Windows transaction plan";;
      reject (negb (samePath (wp_InstallRoot plan) root)) "Windows transaction belongs to another install root";;
      Ok plan
  | None => Err "Windows arbiter requires a Windows transaction plan"
  end.

Fixpoint stat_files (paths : list string) : io platform unit :=
  match paths with
  | [] => mret tt
  | path :: rest => perform (Stat path);; stat_files rest
  end.

Definition verifyGeneration (version generationRoot : string) : io platform unit :=
  if negb (samePath generationRoot (GenerationDir version)) then io_fail "generation path does not match version"
  else stat_files (generation_files version).

Definition runStableCore (args : list string) : io platform unit := perform (RunCore (args ++ ["--runtime-root"; root])).

(** WriteActive sets the time. *)
Definition trial_pointer (t : Transaction) : ActiveVersion :=
  mkActiveVersion SchemaVersion (tr_TargetVersion t) (tr_SourceVersion t) StateTrial (tr_TransactionID t) 0.
Definition committed_pointer (t : Transaction) : ActiveVersion :=
  mkActiveVersion SchemaVersion (tr_TargetVersion t) (tr_SourceVersion t) StateCommitted "" 0.
Definition restored_pointer (t : Transaction) : ActiveVersion :=
  mkActiveVersion SchemaVersion (tr_SourceVersion t) (tr_FallbackVersion t) StateCommitted "" 0.

Definition windows_PrepareTrial (t : Transaction) : io platform unit :=
  plan ← io_lift (windows_plan t);
  verifyGeneration (tr_SourceVersion t) (wp_SourceGeneration plan);;
  verifyGeneration (tr_TargetVersion t) (wp_TargetGeneration plan);;
  perform (CheckExecutionCompatibility (GenerationCore (tr_TargetVersion t)));;
  when (wp_TunnelWasRunning plan) (runStableCore ["tunnel"; "stop"]);;
  runStableCore ["service"; "stop"];;
  perform (StopProcesses (GenerationTray (tr_SourceVersion t)));;
  write_pointer (trial_pointer t);;
  when (wp_CoreWasRunning plan) (runStableCore ["service"; "start"]).

Definition windows_VerifyTrial (t : Transaction) : io platform (list string) :=
  plan ← io_lift (windows_plan t);
  when (wp_CoreWasRunning plan) (perform (WaitForVersion (wp_HealthURLs plan) (tr_TargetVersion t)));;
  when (wp_TrayWasRunning plan) (perform StartTray;; perform (WaitProcess (GenerationTray (tr_TargetVersion t))));;
  mret [].

Definition windows_Commit (t : Transaction) : io platform unit :=
  plan ← io_lift (windows_plan t);
  write_pointer (committed_pointer t);;
  when (wp_TunnelWasRunning plan) (attempt (perform StartTunnel)).

(** The errors of the restart are collected and joined. *)
Definition collect (m : io platform unit) (errors : list string) : io platform (list string) :=
  r ← io_try m;
  mret (match r with Ok _ => errors | Err e => errors ++ [e] end).

Definition windows_Rollback (t : Transaction) : io platform unit :=
  plan ← io_lift (windows_plan t);
  attempt (runStableCore ["tunnel"; "stop"]);;
  attempt (runStableCore ["service"; "stop"]);;
  attempt (perform (StopProcesses (GenerationTray (tr_TargetVersion t))));;
  write_pointer (restored_pointer t);;
  perform (CheckExecutionCompatibility (GenerationCore (tr_SourceVersion t)));;
  errors ← (if wp_CoreWasRunning plan
    then collect (runStableCore ["service"; "start"];; perform (WaitForVersion (wp_HealthURLs plan) (tr_SourceVersion t))) []
    else mret []);
  errors ← (if wp_TrayWasRunning plan then collect (perform StartTray) errors else mret errors);
  when (wp_TunnelWasRunning plan) (attempt (perform StartTunnel));;
  match errors with
  | [] => mret tt
  | _ => io_fail (String.concat (String "010" "") errors)
  end.

#[export] Instance windows_driver : Driver platform :=
  mkDriver platform windows_PrepareTrial windows_VerifyTrial windows_Commit windows_Rollback.

(** ** The promises *)

Definition points_to (v : string) (p : platform) : Prop :=
  ∃ a, ReadActive (pf_active p) = Ok a ∧ av_ActiveVersion a = v ∧ av_State a = StateCommitted.

Definition points_within (t : Transaction) (p : platform) : Prop :=
  ∃ a, ReadActive (pf_active p) = Ok a ∧ (av_ActiveVersion a = tr_SourceVersion t ∨ av_ActiveVersion a = tr_TargetVersion t).

Definition points_to_trial (t : Transaction) (p : platform) : Prop :=
  ∃ a, ReadActive (pf_active p) = Ok a ∧ av_ActiveVersion a = tr_TargetVersion t ∧ av_State a = StateTrial ∧
    av_TransactionID a = tr_TransactionID t.

(** What was running before answered from the target version. *)
Definition seen_healthy (t : Transaction) (p : platform) : Prop :=
  ∃ plan, tr_Windows t = Some plan ∧
    (wp_CoreWasRunning plan = true → (WaitForVersion (wp_HealthURLs plan) (tr_TargetVersion t), Ok tt) ∈ pf_log p) ∧
    (wp_TrayWasRunning plan = true → (WaitProcess (GenerationTray (tr_TargetVersion t)), Ok tt) ∈ pf_log p).

(** A property of the platform that commands keep: it is about the pointer, or
    grows with the log. *)
Definition lasting (P : platform → Prop) : Prop :=
  ∀ p p', pf_active p' = pf_active p → (∀ x, x ∈ pf_log p → x ∈ pf_log p') → P p → P p'.

Lemma points_to_lasting v : lasting (points_to v).
Proof. intros p p' E _ (a & ?). exists a. by rewrite E. Qed.
Lemma points_within_lasting t : lasting (points_within t).
Proof. intros p p' E _ (a & ?). exists a. by rewrite E. Qed.
Lemma points_to_trial_lasting t : lasting (points_to_trial t).
Proof. intros p p' E _ (a & ?). exists a. by rewrite E. Qed.
Lemma seen_healthy_lasting t : lasting (seen_healthy t).
Proof. intros p p' _ Hl (plan & ? & Hc & Ht). exists plan. split_and!; [done|by intros ?; apply Hl, Hc|by intros ?; apply Hl, Ht]. Qed.
Lemma and_lasting (P Q : platform → Prop) : lasting P → lasting Q → lasting (λ p, P p ∧ Q p).
Proof. intros HP HQ p p' E Hl [? ?]. split; [by eapply HP|by eapply HQ]. Qed.
Lemma true_lasting : lasting (λ _, True).
Proof. by intros p p' _ _ _. Qed.

Section Laws.
Variable I : platform → Prop.
Hypothesis HI : lasting I.

Lemma perform_spec c (P : platform → Prop) :
  lasting P → spec I P (perform c) (λ _ p, P p ∧ (c, Ok tt) ∈ pf_log p).
Proof.
  intros HP p fs Hi Hp. unfold perform. destruct (default _ _) as [[[]|e]|]; cbn.
  - split; [by eapply HI; [| |exact Hi]; [|intros; apply elem_of_app; left]|]. intros [] _.
    split; [by eapply HP; [| |exact Hp]; [|intros; apply elem_of_app; left]|].
    apply elem_of_app. right. by apply list_elem_of_singleton.
  - split; [by eapply HI; [| |exact Hi]; [|intros; apply elem_of_app; left]|discriminate].
  - split; [by eapply HI; [| |exact Hi]|discriminate].
Qed.

Lemma perform_keeps c (P : platform → Prop) : lasting P → spec I P (perform c) (λ _, P).
Proof. intros HP. eapply spec_weaken; [by apply perform_spec|done|]. by intros u p _ [? _]. Qed.

Lemma when_keeps b m (P : platform → Prop) : spec I P m (λ _, P) → spec I P (when b m) (λ _, P).
Proof. intros Hm. destruct b; [done|by apply spec_ret]. Qed.

Lemma seq_keeps {A} m (k : unit → io platform A) (P : platform → Prop) Q : spec I P m (λ _, P) → spec I P (k tt) Q → spec I P (m ≫= k) Q.
Proof. intros Hm Hk. eapply spec_bind; [exact Hm|]. by intros []. Qed.

(** A command that may fail without the caller caring. *)
Lemma attempt_keeps c (P : platform → Prop) : lasting P → spec I P (attempt (perform c)) (λ _, P).
Proof.
  intros HP p fs Hi Hp. unfold attempt, io_try, perform, mbind, io_bind. destruct (default _ _) as [[[]|e]|]; cbn.
  - split; [by eapply HI; [| |exact Hi]; [|intros; apply elem_of_app; left]|]. intros [] _.
    by eapply HP; [| |exact Hp]; [|intros; apply elem_of_app; left].
  - split; [by eapply HI; [| |exact Hi]; [|intros; apply elem_of_app; left]|]. intros [] _.
    by eapply HP; [| |exact Hp]; [|intros; apply elem_of_app; left].
  - split; [by eapply HI; [| |exact Hi]|discriminate].
Qed.

Lemma stat_files_keeps paths (P : platform → Prop) : lasting P → spec I P (stat_files paths) (λ _, P).
Proof. intros HP. induction paths as [|path paths IH]; [by apply spec_ret|]. apply seq_keeps; [by apply perform_keeps|done]. Qed.

Lemma verifyGeneration_keeps version gen (P : platform → Prop) : lasting P → spec I P (verifyGeneration version gen) (λ _, P).
Proof. intros HP. apply spec_if; intros _; [apply spec_fail|by apply stat_files_keeps]. Qed.

(** The pointer, where it is valid. *)
Lemma write_pointer_spec a (P : platform → Prop) (Q : platform → Prop) :
  (∀ p now, I p → P p → validate_active (a <| av_UpdatedAt := now |>) = Ok tt →
     let p' := p <| pf_times ::= tail |> <| pf_active := Some (Some (a <| av_UpdatedAt := now |>)) |> in I p' ∧ Q p') →
  spec I P (write_pointer a) (λ _, Q).
Proof.
  intros Hw p fs Hi Hp. unfold write_pointer, io_zoom, WriteActive, mbind, io_bind. cbv zeta.
  set (now := default 0 (head (pf_times p))). specialize (Hw p now Hi Hp).
  assert (I (p <| pf_times ::= tail |>)) as Hi2 by (by eapply HI; [| |exact Hi]).
  destruct (validate_active (a <| av_UpdatedAt := now |>)) as [[]|e] eqn:Hv; cbn [io_lift].
  - destruct (Hw eq_refl) as [Hi' HQ]. destruct fs as [|[] fs]; cbn; (split; [done|]); intros [] E; by try discriminate E.
  - split; [done|discriminate].
Qed.
End Laws.

Lemma read_written a : validate_active a = Ok tt → ReadActive (Some (Some a)) = Ok a.
Proof. intros Hv. unfold ReadActive. cbn. by rewrite Hv. Qed.

Create HintDb windows.
#[local] Hint Resolve points_to_lasting points_within_lasting points_to_trial_lasting seen_healthy_lasting and_lasting true_lasting : windows.

Lemma points_to_within t p : points_to (tr_SourceVersion t) p → points_within (plan t) p.
Proof. intros (a & E & Ha & _). exists a. split; [done|]. by left. Qed.

Lemma windows_prepare t :
  spec (points_within (plan t)) (points_to (tr_SourceVersion t)) (windows_PrepareTrial t) (λ _, points_to_trial (plan t)).
Proof.
  unfold windows_PrepareTrial. apply spec_lift_bind. intros w _.
  do 2 (apply seq_keeps; [apply verifyGeneration_keeps; auto with windows|]).
  apply seq_keeps; [apply perform_keeps; auto with windows|].
  apply seq_keeps; [apply when_keeps, perform_keeps; auto with windows|].
  do 2 (apply seq_keeps; [apply perform_keeps; auto with windows|]).
  eapply spec_bind.
  - apply (write_pointer_spec _ (points_within_lasting (plan t)) _ _ (points_to_trial (plan t))). intros p now _ _ Hv. cbv zeta.
    split; (eexists; split; [by apply read_written|]); [by right|done].
  - intros []. apply when_keeps, perform_keeps; auto with windows.
Qed.

Lemma windows_verify t :
  spec (points_within (plan t)) (points_to_trial (plan t)) (windows_VerifyTrial t)
    (λ _ p, points_to_trial (plan t) p ∧ seen_healthy (plan t) p).
Proof.
  unfold windows_VerifyTrial. apply spec_lift_bind. intros w Hw.
  assert (tr_Windows t = Some w) as Ew.
  { unfold windows_plan in Hw. destruct (tr_Windows t); [|discriminate]. do 2 (apply reject_bind_Ok in Hw as [_ Hw]). by injection Hw as ->. }
  set (health := WaitForVersion (wp_HealthURLs w) (tr_TargetVersion t)).
  set (tray := WaitProcess (GenerationTray (tr_TargetVersion t))).
  assert (∀ c, lasting (λ p, (c, Ok tt) ∈ pf_log p)) as Hlog by (intros c p p' _ Hl; apply Hl).
  eapply spec_bind with (R := λ _ p, points_to_trial (plan t) p ∧ (wp_CoreWasRunning w = true → (health, Ok tt) ∈ pf_log p)).
  { destruct (wp_CoreWasRunning w); cbn [when].
    - eapply spec_weaken; [apply (perform_spec _ (points_within_lasting (plan t)) health (points_to_trial (plan t))); auto with windows|done|]. by intros u p _ [? ?].
    - apply spec_ret. by intros p _ ?. }
  intros []. set (P1 := λ p, _ ∧ _). assert (lasting P1) as HP1.
  { apply and_lasting; [auto with windows|]. intros p p' _ Hl Hc E. by apply Hl, Hc. }
  eapply spec_bind with (R := λ _ p, P1 p ∧ (wp_TrayWasRunning w = true → (tray, Ok tt) ∈ pf_log p)).
  { destruct (wp_TrayWasRunning w); cbn [when].
    - apply seq_keeps; [by apply perform_keeps; auto with windows|].
      eapply spec_weaken; [apply (perform_spec _ (points_within_lasting (plan t)) tray P1); exact HP1|done|]. by intros u p _ [? ?].
    - apply spec_ret. by intros p _ ?. }
  intros []. apply spec_ret. intros p _ [[Hp Hc] Ht]. split; [done|]. by exists w.
Qed.

Lemma windows_commit t :
  spec (points_within (plan t)) (λ p, points_to_trial (plan t) p ∧ seen_healthy (plan t) p) (windows_Commit t)
    (λ _ p, points_to (tr_TargetVersion t) p ∧ seen_healthy (plan t) p).
Proof.
  unfold windows_Commit. apply spec_lift_bind. intros w _. eapply spec_bind.
  - apply (write_pointer_spec _ (points_within_lasting (plan t)) _ _ (λ p, points_to (tr_TargetVersion t) p ∧ seen_healthy (plan t) p)). intros p now _ [_ Hs] Hv.
    cbv zeta. split; [eexists; split; [by apply read_written|by right]|]. split; [eexists; split; [by apply read_written|done]|exact Hs].
  - intros []. apply when_keeps, attempt_keeps; auto with windows.
Qed.

Lemma collect_keeps m errors (I P : platform → Prop) : spec I P m (λ _, P) → (∀ p fs, I p → P p → P (run_disk (m p fs))) →
  spec I P (collect m errors) (λ _, P).
Proof.
  intros Hm HP p fs Hi Hp. destruct (Hm p fs Hi Hp) as [Hi' _]. specialize (HP p fs Hi Hp). unfold collect, io_try, mbind, io_bind.
  destruct (m p fs) as [[u|e|] p' fs']; cbn in *; (split; [done|]); by intros l [= <-].
Qed.

Lemma perform_leaves c (P : platform → Prop) p fs : lasting P → P p → P (run_disk (perform c p fs)).
Proof. intros HP Hp. by destruct (perform_keeps P HP c (λ _, True) true_lasting p fs Hp Logic.I) as [HP' _]. Qed.

Lemma windows_rollback t :
  spec (points_within (plan t)) (λ _, True) (windows_Rollback t) (λ _, points_to (tr_SourceVersion t)).
Proof.
  unfold windows_Rollback. apply spec_lift_bind. intros w _.
  do 3 (apply seq_keeps; [apply attempt_keeps; auto with windows|]).
  eapply spec_bind.
  - apply (write_pointer_spec _ (points_within_lasting (plan t)) _ _ (points_to (tr_SourceVersion t))). intros p now _ _ Hv. cbv zeta.
    split; (eexists; split; [by apply read_written|]); [by left|done].
  - intros []. apply seq_keeps; [apply perform_keeps; auto with windows|].
    eapply spec_bind with (R := λ _, points_to (tr_SourceVersion t)).
    { apply spec_if; intros _; [|by apply spec_ret]. apply collect_keeps.
      - apply seq_keeps; apply perform_keeps; auto with windows.
      - intros p fs _ Hp. unfold mbind, io_bind. pose proof (perform_leaves (RunCore (["service"; "start"] ++ ["--runtime-root"; root])) _ p fs (points_to_lasting _) Hp) as Hp1.
        unfold runStableCore. destruct (perform _ p fs) as [[u|e|] p' fs']; [|done..]. by apply perform_leaves; [apply points_to_lasting|]. }
    intros errors. eapply spec_bind with (R := λ _, points_to (tr_SourceVersion t)).
    { apply spec_if; intros _; [|by apply spec_ret]. apply collect_keeps; [apply perform_keeps; auto with windows|].
      intros p fs _ Hp. apply perform_leaves; auto with windows. }
    intros errors2. apply seq_keeps; [apply when_keeps, attempt_keeps; auto with windows|].
    destruct errors2; [by apply spec_ret|apply spec_fail].
Qed.

#[export] Instance windows_laws : DriverLaws platform := {|
  runs := points_to;
  touched := points_within;
  on_trial := points_to_trial;
  verified := seen_healthy;
  runs_touched := points_to_within;
  prepare_law := windows_prepare;
  verify_law := windows_verify;
  commit_law := windows_commit;
  rollback_law := windows_rollback;
|}.

(** On a machine that answers every command, every operation returns. *)
Lemma windows_returns : driver_returns answered_commands.
Proof.
  assert (∀ paths, returns (stat_files paths)) as Hstat by (induction paths; cbn; auto with returns).
  assert (∀ version gen, returns (verifyGeneration version gen)) as Hver by (intros; unfold verifyGeneration; auto with returns).
  assert (∀ m, returns m → returns (attempt m)) as Hatt by (intros; unfold attempt; auto with returns).
  assert (∀ m errors, returns m → returns (collect m errors)) as Hcol by (intros; unfold collect; auto with returns).
  assert (∀ b m, returns m → returns (when b m)) as Hwhen by (intros; unfold when; auto with returns).
  intros t. split_and!; cbn; unfold windows_PrepareTrial, windows_VerifyTrial, windows_Commit, windows_Rollback, runStableCore;
    (apply returns_bind; [by apply returns_lift|]); intros w; repeat (apply returns_bind; [auto 6 with returns|intros ?]); auto with returns.
  case_match; auto with returns.
Qed.

Lemma always_starts d t :
  history d → ud_transaction d = Some (Some t) →
  validate_transaction t = Ok tt ∧ points_within t (ud_platform d) ∧
  (tr_State t = StateCommitted → points_to (tr_TargetVersion t) (ud_platform d) ∧ seen_healthy t (ud_platform d)) ∧
  (tr_State t = StateRolledBack → points_to (tr_SourceVersion t) (ud_platform d)).
Proof.
  intros Hh%history_good Ej. destruct Hh as [(E & _)|(t' & Hb & Ht)]; [by rewrite E in Ej|].
  pose proof (bk_journal _ _ _ _ Hb) as E. rewrite E in Ej. injection Ej as ->.
  assert (∀ v, v = tr_SourceVersion t ∨ v = tr_TargetVersion t → points_to v (ud_platform d) → points_within t (ud_platform d)) as Hin.
  { intros v Hv (a & Ha & Hav & _). exists a. split; [done|]. by rewrite Hav. }
  unfold truthful in Ht. split_and!; [apply Hb|..].
  - destruct (tr_State t =s StateStaged); [by apply (Hin (tr_SourceVersion t)); [left|]|].
    destruct (tr_State t =s StateCommitted); [destruct Ht as [Ht _]; by apply (Hin (tr_TargetVersion t)); [right|]|].
    destruct (tr_State t =s StateRolledBack); [by apply (Hin (tr_SourceVersion t)); [left|]|]. exact Ht.
  - intros Es. rewrite Es in Ht. exact Ht.
  - intros Es. rewrite Es in Ht. exact Ht.
Qed.

(** C14: on Windows there is always a version to start.  In every state that
    any history of updates leads to, whatever failed and wherever a process
    died, the pointer to the active generation is a valid file that names the
    source or the target of the current transaction; and where the journal
    says committed it names the target, committed, after the core and the tray
    that were running before had answered from it. *)
Theorem windows_always_starts d t :
  history d → ud_transaction d = Some (Some t) →
  points_within t (ud_platform d) ∧
  (tr_State t = StateCommitted → points_to (tr_TargetVersion t) (ud_platform d) ∧ seen_healthy t (ud_platform d)) ∧
  (tr_State t = StateRolledBack → points_to (tr_SourceVersion t) (ud_platform d)).
Proof. intros Hh Et. by destruct (always_starts d t Hh Et) as (_ & Hs). Qed.
End Driver.

(** ** Witnesses: an update from v1.0.0 to v1.1.0 *)

#[local] Instance sample_paths : WindowsPaths := mkWindowsPaths (λ p, Ok p) (String.concat "\") (λ r, r).
Definition sample_root : string := "C:\AgentDock".
#[local] Instance sample_driver : Driver platform := windows_driver sample_root.
#[local] Instance sample_laws : DriverLaws platform := windows_laws sample_root.

Definition sample_plan : WindowsPlan :=
  mkWindowsPlan sample_root (GenerationDir sample_root "v1.0.0") (GenerationDir sample_root "v1.1.0") ["http://127.0.0.1/healthz"]
    "AgentDock" "user" true true false false false.
Definition sample_transaction : Transaction :=
  mkTransaction SchemaVersion "abcdef" "windows" "v1.0.0" "v1.1.0" "v1.0.0" "" StateStaged PhaseStage 10 10 None None [] (Some sample_plan) None.
Definition sample_pointer : ActiveVersion := mkActiveVersion SchemaVersion "v1.0.0" "" StateCommitted "" 5.
Definition sample_new (answers : list answer) : disk platform :=
  mkDisk None ∅ None (mkPlatform (Some (Some sample_pointer)) [] answers [20; 30; 40]).
Definition sample_staged (answers : list answer) : disk platform :=
  run_disk (WriteTransaction 11 sample_transaction (sample_new answers) []).
Definition sample_clock (i : nat) : Time := 100 + Z.of_nat i.
#[local] Abbreviation sample_run answers := (@Run platform sample_driver sample_clock false "abcdef" (sample_staged answers) []).
(** The health check is the 17th command. *)
Definition unhealthy : list answer := repeat (Some (Ok tt)) 16 ++ [Some (Err "unhealthy")].

Lemma windows_sample_history answers : @history platform sample_driver sample_laws (sample_staged answers).
Proof.
  exists (ud_platform (sample_new answers)). apply rtc_once. apply step_stage; [done| |].
  - exists sample_pointer. split_and!; [by vm_compute|done..].
  - split; [intros r (E & _); change ((∅ : gmap string (option Result)) !! "abcdef" = Some (Some r)) in E; by rewrite lookup_empty in E|by intros c E].
Qed.

Lemma sample_clock_runs i : sample_clock i ≠ 0.
Proof. unfold sample_clock. lia. Qed.

Lemma update_outcome_true_witness :
  ∃ r, run_outcome (sample_run []) = Done (r, None) ∧ rs_State r = StateCommitted ∧
    points_to "v1.1.0" (ud_platform (run_disk (sample_run []))).
Proof.
  set (r := match run_outcome (sample_run []) with Done (r, _) => r | _ => mkResult 0 "" "" "" "" "" "" "" 0 None [] end).
  assert (run_outcome (sample_run []) = Done (r, None)) as E by (by vm_compute).
  assert (rs_State r = StateCommitted) as Es by (by vm_compute). assert (rs_TargetVersion r = "v1.1.0") as Et by (by vm_compute).
  clearbody r. exists r. split; [exact E|]. split; [exact Es|].
  destruct (@update_outcome_true platform sample_driver sample_laws sample_clock false "abcdef" (sample_staged []) [] r None (windows_sample_history []) sample_clock_runs E)
    as (_ & _ & Hc & _).
  destruct (Hc Es) as (_ & Hr & _). rewrite Et in Hr. exact Hr.
Defined.

(** Runs of the sample, and the state they leave. *)
#[local] Abbreviation after answers := (run_disk (sample_run answers)).

Lemma update_refines_protocol_witness :
  ∃ t', ud_transaction (after unhealthy) = Some (Some t') ∧ rtc moves StateStaged (tr_State t') ∧ tr_State t' = StateRolledBack.
Proof.
  set (t := match ud_transaction (sample_staged unhealthy) with Some (Some t) => t | _ => sample_transaction end).
  assert (ud_transaction (sample_staged unhealthy) = Some (Some t)) as E by (by vm_compute).
  assert (tr_State t = StateStaged) as Es by (by vm_compute).
  assert (option_map (option_map tr_State) (ud_transaction (after unhealthy)) = Some (Some StateRolledBack)) as Er by (by vm_compute).
  clearbody t.
  destruct (@update_refines_protocol platform sample_driver sample_laws (sample_staged unhealthy) t (windows_sample_history unhealthy) E
    sample_clock false "abcdef" [] sample_clock_runs (after unhealthy) (or_introl eq_refl)) as (t' & Et & _ & Hm & _).
  exists t'. split; [exact Et|]. split; [by rewrite <- Es|]. rewrite Et in Er. by injection Er.
Defined.

(** The result of the committed run, read again. *)
#[local] Abbreviation sample_read := (@ReadResult platform "abcdef" (after []) []).

Lemma update_answer_final_witness :
  ∃ r, run_outcome (sample_run []) = Done (r, None) ∧ ∀ r1, run_outcome sample_read = Done r1 → r1 = r.
Proof.
  set (r := match run_outcome (sample_run []) with Done (r, _) => r | _ => mkResult 0 "" "" "" "" "" "" "" 0 None [] end).
  assert (run_outcome (sample_run []) = Done (r, None)) as E by (by vm_compute).
  clearbody r. exists r. split; [exact E|]. intros r1 E1.
  apply (@update_answer_final platform sample_driver sample_laws "abcdef" (sample_staged []) r (after []) (after []) r1 (run_disk sample_read)
    (windows_sample_history [])).
  - right. exists sample_clock, false, [], None. split; [exact sample_clock_runs|]. split; [exact E|done].
  - apply rtc_refl.
  - left. exists []. split; [exact E1|done].
Defined.

Lemma update_settles_witness :
  ∃ r e, run_outcome (sample_run unhealthy) = Done (r, e) ∧ terminal (rs_State r) = true.
Proof.
  set (t := match ud_transaction (sample_staged unhealthy) with Some (Some t) => t | _ => sample_transaction end).
  assert (ud_transaction (sample_staged unhealthy) = Some (Some t)) as E by (by vm_compute).
  assert (tr_TransactionID t = "abcdef") as Eid by (by vm_compute). clearbody t.
  assert (answered_commands (ud_platform (sample_staged unhealthy))) as Ha.
  { unfold answered_commands. assert (pf_answers (ud_platform (sample_staged unhealthy)) = unhealthy) as -> by (by vm_compute).
    intros [Hin%list_elem_of_In%repeat_spec|Hin%list_elem_of_singleton]%elem_of_app; discriminate. }
  destruct (@update_settles platform sample_driver sample_laws answered_commands sample_clock (sample_staged unhealthy) t
    (windows_sample_history unhealthy) E (windows_returns sample_root) Ha sample_clock_runs) as (r & e & Hr & Ht & _).
  rewrite Eid in Hr. exists r, e. split; [exact Hr|exact Ht].
Defined.

Lemma windows_always_starts_witness : points_to "v1.0.0" (ud_platform (after unhealthy)).
Proof.
  assert (@history platform sample_driver sample_laws (after unhealthy)) as Hh.
  { destruct (windows_sample_history unhealthy) as [p Hp]. exists p. eapply rtc_r; [exact Hp|].
    apply (@step_run platform sample_driver sample_laws (sample_staged unhealthy) sample_clock false "abcdef" []). exact sample_clock_runs. }
  set (t := match ud_transaction (after unhealthy) with Some (Some t) => t | _ => sample_transaction end).
  assert (ud_transaction (after unhealthy) = Some (Some t)) as E by (by vm_compute).
  assert (tr_State t = StateRolledBack) as Es by (by vm_compute). assert (tr_SourceVersion t = "v1.0.0") as Ev by (by vm_compute).
  clearbody t. destruct (@windows_always_starts sample_paths sample_root (after unhealthy) t Hh E) as (_ & _ & Hr).
  rewrite <- Ev. exact (Hr Es).
Defined.
