(* ===== verification/RetentionSpec.v ===== *)
(** * RetentionSpec: versions and the cleanup of generations

    What a validated version is as the name of a directory, and that a cleanup
    never removes a generation that something still needs. *)

From S2P Require Import Prelude GoText Durable Update UpdateSpec WindowsUpdate Retention.
Local Open Scope Z_scope.

(** ** Versions as names of directories *)

Definition no_space (cs : list chunk) : Prop := ∀ c, c ∈ cs → is_space (ch_rune c) = false.

Lemma drop_space_id cs : no_space cs → drop_space cs = cs.
Proof. destruct cs as [|c cs]; [done|]. intros Hc. cbn. by rewrite (Hc c) by left. Qed.

Lemma TrimSpace_id s : no_space (chunks (bytes s)) → TrimSpace s = s.
Proof.
  intros Hs. unfold TrimSpace. rewrite (drop_space_id (chunks _)) by done. rewrite drop_space_id.
  - by rewrite rev_involutive, flatten_chunks, of_bytes_bytes.
  - intros c Hc. by apply Hs, list_elem_of_In, in_rev, list_elem_of_In.
Qed.

Lemma bytes_v g : bytes ("v" +:+ g) = "v"%char :: bytes g.
Proof. by rewrite bytes_app. Qed.

Lemma chunks_v g : chunks (bytes ("v" +:+ g)) = mkChunk 118 ["v"%char] true :: chunks (bytes g).
Proof. rewrite bytes_v, chunks_cons. reflexivity. Qed.

Lemma TrimPrefix_v g : TrimPrefix ("v" +:+ g) "v" = g.
Proof. unfold TrimPrefix. rewrite bytes_v. replace (has_prefix _ _) with true by by destruct g. apply of_bytes_bytes. Qed.

(** One element of a path, with either separator: neither this directory nor the one above. *)
Definition path_element (s : string) : Prop := s ≠ "" ∧ s ≠ "." ∧ s ≠ ".." ∧ "/"%char ∉ bytes s ∧ "\"%char ∉ bytes s.

(** A character that Windows takes in names: none of the two separators, the
    comparisons, the colon, the quotation mark, the bar and the wild cards. *)
Definition windows_takes (a : ascii) : Prop :=
  a ≠ "/"%char ∧ a ≠ "\"%char ∧ a ≠ "<"%char ∧ a ≠ ">"%char ∧ a ≠ ":"%char ∧ a ≠ "034"%char ∧ a ≠ "|"%char ∧ a ≠ "?"%char ∧ a ≠ "*"%char.

(** What every platform accepts as the rest of the name of one directory. *)
Definition safe_segment (g : string) : Prop :=
  g ≠ "" ∧ (∀ a, a ∈ bytes g → windows_takes a) ∧
  (∀ c, c ∈ chunks (bytes g) → is_control (ch_rune c) = false ∧ is_space (ch_rune c) = false) ∧
  ¬ (∃ l, bytes g = l ++ ["."%char]).

Lemma unsafe_chars_spec a : existsb (Ascii.eqb a) (bytes unsafe_chars) = false ↔ windows_takes a.
Proof. cbn. rewrite !orb_false_iff, !Ascii.eqb_neq. unfold windows_takes. naive_solver. Qed.

Lemma ContainsAny_safe g : ContainsAny g unsafe_chars = false ↔ ∀ a, a ∈ bytes g → windows_takes a.
Proof.
  unfold ContainsAny. split.
  - intros E a Ha. apply unsafe_chars_spec. destruct (existsb (Ascii.eqb a) _) eqn:F; [|done].
    rewrite (proj2 (existsb_exists _ (bytes g))) in E; [discriminate|]. exists a. by rewrite <- list_elem_of_In.
  - intros Hsafe. destruct (existsb _ (bytes g)) eqn:E; [|done]. apply existsb_exists in E as (a & Ha%list_elem_of_In & E).
    by rewrite (proj2 (unsafe_chars_spec a) (Hsafe a Ha)) in E.
Qed.

Lemma HasSuffix_dot g : HasSuffix g "." = false ↔ ¬ ∃ l, bytes g = l ++ ["."%char].
Proof.
  unfold HasSuffix. assert (bytes g = rev (rev (bytes g))) as E by by rewrite rev_involutive.
  destruct (rev (bytes g)) as [|a l]; rewrite E; cbn -[Ascii.eqb].
  - split; [|done]. intros _ [l E0]. by destruct l.
  - replace (has_prefix l []) with true by by destruct l. rewrite andb_true_r, Ascii.eqb_neq. split.
    + intros Ha [k [_ [= Hk]]%app_inj_2]; [by apply Ha|done].
    + intros Hno E1. apply Hno. exists (rev l). by rewrite E1.
Qed.

Lemma safe_path_element g : safe_segment g → path_element ("v" +:+ g).
Proof.
  intros (Hne & Hsafe & _ & _). split_and!; [done..| |]; rewrite bytes_v; intros [E|Hin]%elem_of_cons;
    [discriminate E|by destruct (Hsafe _ Hin)|discriminate E|by destruct (Hsafe _ Hin) as (_ & ? & _)].
Qed.

Lemma no_rune cs :
  existsb (λ c, is_control (ch_rune c) || is_space (ch_rune c)) cs = false ↔
  ∀ c, c ∈ cs → is_control (ch_rune c) = false ∧ is_space (ch_rune c) = false.
Proof.
  split.
  - intros E c Hc. apply orb_false_iff. destruct (_ || _) eqn:F; [|done].
    rewrite (proj2 (existsb_exists _ cs)) in E; [discriminate|]. exists c. by rewrite <- list_elem_of_In.
  - intros Hc. destruct (existsb _ cs) eqn:E; [|done]. apply existsb_exists in E as (c & Hin%list_elem_of_In & E).
    destruct (Hc c Hin) as [H1 H2]. by rewrite H1, H2 in E.
Qed.

Lemma safe_no_space g : safe_segment g → no_space (chunks (bytes ("v" +:+ g))).
Proof. intros (_ & _ & Hc & _) c. rewrite chunks_v, elem_of_cons. intros [->|Hin]; [done|]. by apply Hc. Qed.

Lemma NormalizeVersion_v g : safe_segment g → NormalizeVersion ("v" +:+ g) = "v" +:+ g.
Proof.
  intros Hg. unfold NormalizeVersion. cbv zeta. rewrite TrimSpace_id, TrimPrefix_v by by apply safe_no_space.
  by rewrite (proj2 (String.eqb_neq _ _) (proj1 Hg)).
Qed.

Lemma normalized_nonempty value g : NormalizeVersion value = "v" +:+ g → g ≠ "".
Proof.
  unfold NormalizeVersion. cbv zeta. destruct (String.eqb_spec (TrimPrefix (TrimSpace value) "v") ""); intros E; [discriminate|].
  injection E as E. change (TrimPrefix (TrimSpace value) "v" = g) in E. by rewrite <- E.
Qed.

Lemma ValidateVersion_iff value :
  ValidateVersion value = Ok tt ↔ ∃ g, NormalizeVersion value = "v" +:+ g ∧ safe_segment g.
Proof.
  unfold ValidateVersion. cbv zeta. split.
  - intros E. apply reject_bind_Ok in E as [E1 E]. apply reject_bind_Ok in E as [E2 E]. apply reject_bind_Ok in E as [E3 E].
    assert (∃ g, NormalizeVersion value = "v" +:+ g) as [g Hg].
    { unfold NormalizeVersion in *. cbv zeta in *. destruct (TrimPrefix (TrimSpace value) "v" =s ""); [discriminate E1|by eexists]. }
    exists g. split; [done|]. rewrite Hg, TrimPrefix_v in E2, E3, E. split; [by eapply normalized_nonempty|]. split; [by apply ContainsAny_safe|]. split; [by apply no_rune|].
    apply HasSuffix_dot. by destruct (HasSuffix g ".").
  - intros (g & Hg & Hne & Hu%ContainsAny_safe & Hc & Hd%HasSuffix_dot). rewrite Hg, TrimPrefix_v, Hu, (proj2 (no_rune _) Hc), Hd. done.
Qed.

(** C40: ValidateVersion makes a version the name of one directory.  It accepts
    a version exactly when its normal form is [v] and a segment that is not
    empty, has none of the nine characters that separate paths or that Windows
    refuses in names, no control characters and no spaces, and does not end in
    a dot.  The normal form is then one element of a path, and its own normal
    form, so that a version and its directory name each other. *)
Theorem version_names_directory value :
  (ValidateVersion value = Ok tt ↔ ∃ g, NormalizeVersion value = "v" +:+ g ∧ safe_segment g) ∧
  (ValidateVersion value = Ok tt →
     path_element (NormalizeVersion value) ∧
     NormalizeVersion (NormalizeVersion value) = NormalizeVersion value ∧ ValidateVersion (NormalizeVersion value) = Ok tt).
Proof.
  split; [apply ValidateVersion_iff|]. intros (g & Hg & Hs)%ValidateVersion_iff. rewrite Hg. pose proof (NormalizeVersion_v g Hs) as E.
  split; [by apply safe_path_element|]. split; [done|]. apply ValidateVersion_iff. by exists g.
Qed.

Lemma version_names_directory_witness :
  ValidateVersion " 1.2.3 " = Ok tt ∧ path_element (NormalizeVersion " 1.2.3 ") ∧ NormalizeVersion (NormalizeVersion " 1.2.3 ") = "v1.2.3".
Proof.
  destruct (version_names_directory " 1.2.3 ") as [_ H]. assert (ValidateVersion " 1.2.3 " = Ok tt) as E by reflexivity.
  split; [exact E|]. split; [exact (proj1 (H E))|]. rewrite (proj1 (proj2 (H E))). reflexivity.
Defined.

(** ** Canonical versions *)

(** The two normal forms agree. *)
Lemma normalizeVersion_NormalizeVersion value :
  ValidateVersion value = Ok tt → normalizeVersion (NormalizeVersion value) = normalizeVersion value.
Proof.
  intros (g & Hg & Hs)%ValidateVersion_iff. assert (TrimSpace ("v" +:+ g) = "v" +:+ g) as Ht by by apply TrimSpace_id, safe_no_space.
  unfold normalizeVersion. cbv zeta. rewrite Hg, Ht, TrimPrefix_v. unfold NormalizeVersion in Hg. cbv zeta in Hg.
  destruct (TrimPrefix (TrimSpace value) "v" =s "") eqn:E; [discriminate|]. injection Hg as Hg. change (TrimPrefix (TrimSpace value) "v" = g) in Hg. by rewrite Hg.
Qed.

Lemma canonical_parts `{UnicodeCase} v :
  canonicalVersion v ≠ "" →
  ∃ g, normalizeVersion v = "v" +:+ g ∧ g ≠ "" ∧ no_space (chunks (bytes ("v" +:+ g))) ∧ canonicalVersion v = ToLower ("v" +:+ g).
Proof.
  unfold canonicalVersion. cbv zeta. destruct (_ || _) eqn:E; [done|]. destruct (existsb _ _) eqn:E2; [done|]. intros _.
  do 4 (apply orb_false_iff in E as [E _]). unfold normalizeVersion in *. cbv zeta in *.
  destruct (String.eqb_spec (TrimPrefix (TrimPrefix (TrimSpace v) "v") "V") "") as [|Hne]; [done|]. eexists. split_and!; [done..| |done].
  intros c Hc. by apply (proj1 (no_rune _) E2).
Qed.

Lemma ToLower_cons `{UnicodeCase} g :
  ToLower ("v" +:+ g) = "v" +:+ ToLower g.
Proof. unfold ToLower. rewrite chunks_v. done. Qed.

(** The second normalisation of a version loses nothing, unless more of the
    letters v follow the first. *)
Definition plain `{UnicodeCase} (v : string) : bool := negb (HasPrefix (canonicalVersion v) "vv").

Lemma canonical_stable `{UnicodeCase} v : plain v = true → canonicalVersion (normalizeVersion v) = canonicalVersion v ∨ canonicalVersion v = "".
Proof.
  intros Hp. destruct (String.eqb_spec (canonicalVersion v) "") as [|Hne]; [by right|]. left.
  destruct (canonical_parts v Hne) as (g & Hn & Hg & Hs & Hc). unfold plain in Hp. rewrite Hc, ToLower_cons in Hp.
  assert (normalizeVersion (normalizeVersion v) = normalizeVersion v) as E; [|by unfold canonicalVersion; cbv zeta; rewrite E].
  rewrite Hn. unfold normalizeVersion. cbv zeta. rewrite (TrimSpace_id _ Hs), TrimPrefix_v.
  assert (TrimPrefix g "V" = g) as ->; [|by rewrite (proj2 (String.eqb_neq _ _) Hg)].
  unfold TrimPrefix. destruct (has_prefix (bytes g) (bytes "V")) eqn:Hpre; [|done]. exfalso.
  destruct g as [|a g]; [done|].
  change (Ascii.eqb "V" a && has_prefix (bytes g) [] = true) in Hpre. apply andb_true_iff in Hpre as [<-%Ascii.eqb_eq _].
  unfold ToLower in Hp. change (bytes (String "V" g)) with ("V"%char :: bytes g) in Hp. rewrite chunks_cons in Hp.
  assert (∀ l, negb (HasPrefix ("v" +:+ of_bytes ("v"%char :: l)) "vv") = false) as Hv.
  { intros l. change (negb (String.prefix "" (of_bytes l)) = false). by destruct (of_bytes l). }
  apply (diff_false_true). rewrite <- Hp. symmetry. apply Hv.
Qed.

(** ** Protected versions *)

Section Keeps.
Context `{UnicodeCase} `{WindowsPaths} `{FilePaths}.
Implicit Types (m : gmap string string) (v w : string).

(** The versions of the same directory as [v] are protected. *)
Definition has m v : Prop := canonicalVersion v = "" ∨ is_Some (m !! canonicalVersion v).

(** A protected version is the normal form of one of its key. *)
Definition normal_values m : Prop := ∀ k w, m !! k = Some w → ∃ v, canonicalVersion v = k ∧ k ≠ "" ∧ w = normalizeVersion v.

Lemma normal_values_empty : normal_values ∅.
Proof. intros k w E. by rewrite lookup_empty in E. Qed.

Lemma protectVersion_lookup m v k :
  is_Some (protectVersion m v !! k) ↔ is_Some (m !! k) ∨ (k = canonicalVersion v ∧ k ≠ "").
Proof.
  unfold protectVersion. cbv zeta. destruct (String.eqb_spec (canonicalVersion v) "") as [E|E].
  { split; [by left|]. intros [?|[-> ?]]; [done|by rewrite E in *]. }
  destruct (m !! canonicalVersion v) as [w|] eqn:Ew.
  { split; [by left|]. intros [?|[-> _]]; [done|by exists w]. }
  destruct (decide (k = canonicalVersion v)) as [->|Hne].
  - rewrite lookup_insert_eq. split; [by right|by eexists].
  - rewrite lookup_insert_ne by done. split; [by left|by intros [?|[? _]]].
Qed.

Lemma protectVersion_normal m v : normal_values m → normal_values (protectVersion m v).
Proof.
  intros Hm. unfold protectVersion. cbv zeta. destruct (String.eqb_spec (canonicalVersion v) "") as [|E]; [done|].
  destruct (m !! canonicalVersion v); [done|]. intros k w. destruct (decide (k = canonicalVersion v)) as [->|Hne].
  - rewrite lookup_insert_eq. intros [= <-]. by exists v.
  - rewrite lookup_insert_ne by done. apply Hm.
Qed.

Lemma has_mono m m' v : (∀ k, is_Some (m !! k) → is_Some (m' !! k)) → has m v → has m' v.
Proof. intros Hm [?|?]; [by left|right; auto]. Qed.

Lemma has_same m v w : canonicalVersion v = canonicalVersion w → has m v → has m w.
Proof. unfold has. by intros ->. Qed.

Lemma protect_all_lookup vs m k :
  is_Some (protect_all m vs !! k) ↔ is_Some (m !! k) ∨ k ≠ "" ∧ ∃ v, v ∈ vs ∧ k = canonicalVersion v.
Proof.
  unfold protect_all. revert m. induction vs as [|v vs IH]; intros m; cbn [foldl].
  - split; [by left|]. intros [?|(_ & v & Hv & _)]; [done|by apply not_elem_of_nil in Hv].
  - rewrite IH, protectVersion_lookup. split.
    + intros [[?|[E Hk]]|(Hk & w & Hw & E)]; [by left|right; split; [done|]..]; [exists v|exists w]; (split; [|done]); [by left|by right].
    + intros [?|(Hk & w & [->|Hw]%elem_of_cons & E)]; [by left; left|by left; right|]. right. split; [done|]. by exists w.
Qed.

Lemma protect_all_has vs m v : v ∈ vs → has (protect_all m vs) v.
Proof.
  intros Hv. destruct (String.eqb_spec (canonicalVersion v) "") as [E|E]; [by left|]. right. apply protect_all_lookup. right.
  split; [done|]. by exists v.
Qed.

Lemma protect_all_grows vs m k : is_Some (m !! k) → is_Some (protect_all m vs !! k).
Proof. intros Hk. apply protect_all_lookup. by left. Qed.

Lemma protect_all_normal vs m : normal_values m → normal_values (protect_all m vs).
Proof. unfold protect_all. revert m. induction vs as [|v vs IH]; intros m Hm; [done|]. apply IH. by apply protectVersion_normal. Qed.

Lemma elem_of_values m w : w ∈ (map_to_list m).*2 ↔ ∃ k, m !! k = Some w.
Proof.
  rewrite list_elem_of_fmap. split.
  - intros ([k w'] & -> & E%elem_of_map_to_list). by exists k.
  - intros [k E]. exists (k, w). split; [done|]. by apply elem_of_map_to_list.
Qed.

(** ** The cleanup follows its policy *)

Definition named_by (policy : Policy) : list string :=
  po_ActiveVersion policy :: po_FallbackVersion policy :: po_ProtectedVersions policy.

(** The policy names a version of the same directory, or no directory of that
    name is ever removed. *)
Definition policy_keeps (policy : Policy) v : Prop :=
  canonicalVersion v = "" ∨ ∃ w, w ∈ named_by policy ∧ canonicalVersion w = canonicalVersion v.

Lemma foldl_handed m tree dir v name es s :
  has m v → name ∈ cl_Handed (foldl (clean_entry tree dir m) s es) →
  (name ∈ cl_Handed s → canonicalVersion name ≠ canonicalVersion v) → canonicalVersion name ≠ canonicalVersion v.
Proof.
  intros Hm. revert s. induction es as [|[n d] es IH]; intros s Hin Hs; [by apply Hs|]. cbn [foldl] in Hin. apply (IH _ Hin).
  unfold clean_entry. destruct (_ || _); [done|]. cbv zeta. destruct (String.eqb_spec (canonicalVersion n) "") as [|Hne]; [done|].
  destruct (m !! canonicalVersion n) eqn:Em; [done|]. destruct (negb (isImmediateChild _ _)); [done|].
  unfold removed. cbv zeta. destruct (match vt_remove _ _ with Err _ => _ | Ok _ => _ end) as [error warnings]. cbn [cl_Handed].
  intros [?| ->%list_elem_of_singleton]%elem_of_app; [by apply Hs|]. destruct Hm as [->|[w Hw]]; [done|].
  intros E. by rewrite E, Hw in Em.
Qed.

Lemma clean_handed policy tree name v :
  name ∈ cl_Handed (clean policy tree) → policy_keeps policy v → canonicalVersion name ≠ canonicalVersion v.
Proof.
  intros Hin Hk. unfold clean in Hin. destruct (path_abs _) as [versionsDir|]; [|by apply not_elem_of_nil in Hin].
  destruct (TrimSpace _ =s ""); [by apply not_elem_of_nil in Hin|]. cbv zeta in Hin.
  destruct (vt_entries tree) as [[entries|]|]; try by apply not_elem_of_nil in Hin.
  eapply (foldl_handed (protect_all ∅ (named_by policy))); [|exact Hin|by intros ?%not_elem_of_nil].
  destruct Hk as [E|(w & Hw & E)]; [by left|]. apply (has_same _ w); [done|]. by apply protect_all_has.
Qed.

(** ** The policy names what is needed *)

(** A transaction whose versions may still have to start. *)
Definition in_use (active r : stateRecord) : bool :=
  negb (terminalState (sr_State r)) || sameVersion (sr_TargetVersion r) (sr_ActiveVersion active).

Definition holds {A} (file : file_at A) (a : A) : Prop := ∃ f, file = Some (Ok f) ∧ sf_Content f = Some a.

Lemma read_holds file r o required : readStateRecord file required = Ok o → holds file r → o = Some r.
Proof.
  intros E (f & -> & Hf). cbn in E. apply bind_Ok in E as (r' & E & Eo). injection Eo as <-.
  unfold read_file in E. apply reject_bind_Ok in E as [_ E]. rewrite Hf in E. by injection E as ->.
Qed.

Lemma Ok_inj {A} (x y : A) : Ok x = Ok y → x = y.
Proof. by intros [= ->]. Qed.

Lemma collect_transaction_spec tree dir active m file m' :
  collect_transaction tree dir active m file = Ok m' →
  (normal_values m → normal_values m') ∧ (∀ k, is_Some (m !! k) → is_Some (m' !! k)) ∧
  ∀ r, holds file r → in_use active r = true → ∀ v, v ∈ record_versions r → has m' v.
Proof.
  intros E. unfold collect_transaction in E. apply bind_Ok in E as (o & Ho & E). destruct o as [r|].
  2: { injection E as <-. split_and!; [done..|]. intros r Hr. by apply (read_holds _ _ _ _ Ho) in Hr. }
  apply bind_Ok in E as ([vs present] & _ & E). cbv zeta in E. apply reject_bind_Ok in E as [_ E].
  apply Ok_inj in E as <-. split_and!.
  - intros Hm. match goal with |- context [if ?b then protect_all _ _ else _] => destruct b end; repeat apply protect_all_normal; done.
  - intros k Hk. match goal with |- context [if ?b then protect_all _ _ else _] => destruct b end; repeat apply protect_all_grows; done.
  - intros r' Hr Hu v Hv. apply (read_holds _ _ _ _ Ho) in Hr. injection Hr as <-. unfold in_use in Hu.
    assert (negb (terminalState (sr_State r)) || present || sameVersion (sr_TargetVersion r) (sr_ActiveVersion active) = true) as ->.
    { apply orb_true_iff in Hu as [-> | ->]; [done|apply orb_true_r]. }
    by apply protect_all_has.
Qed.

Lemma kept_by_values m v active fallback :
  normal_values m → has m v → plain v = true →
  canonicalVersion v = "" ∨ ∃ w, canonicalVersion w = canonicalVersion v ∧
    (w ∈ List.filter (λ version, negb (sameVersion version active) && negb (sameVersion version fallback)) (map_to_list m).*2 ∨
     w = active ∨ w = fallback).
Proof.
  intros Hm [Hv|[w Hw]] Hp; [by left|]. right. destruct (Hm _ _ Hw) as (v0 & E0 & Hne & ->).
  assert (canonicalVersion (normalizeVersion v0) = canonicalVersion v) as E.
  { destruct (canonical_stable v0) as [E|E]; [unfold plain in *; by rewrite E0|by rewrite E|by rewrite <- E0, E in Hne]. }
  destruct (sameVersion (normalizeVersion v0) active) eqn:Ea.
  { exists active. split; [|by right; left]. unfold sameVersion in Ea. cbv zeta in Ea. apply andb_true_iff in Ea as [_ Ea].
    by apply String.eqb_eq in Ea as <-. }
  destruct (sameVersion (normalizeVersion v0) fallback) eqn:Ef.
  { exists fallback. split; [|by right; right]. unfold sameVersion in Ef. cbv zeta in Ef. apply andb_true_iff in Ef as [_ Ef].
    by apply String.eqb_eq in Ef as <-. }
  exists (normalizeVersion v0). split; [done|]. left. apply list_elem_of_In, filter_In. rewrite <- list_elem_of_In, Ea, Ef.
  split; [|done]. apply elem_of_values. by exists (canonicalVersion v).
Qed.

Lemma CollectPolicy_keeps tree root dir policy active :
  CollectPolicy tree root dir = Ok policy → holds (st_active tree) active →
  sr_ActiveVersion active ∈ named_by policy ∧ sr_FallbackVersion active ∈ named_by policy ∧
  canonicalVersion (sr_ActiveVersion active) ≠ "" ∧
  ∀ file r, file ∈ [st_install tree; st_update tree] → holds file r → in_use active r = true →
    ∀ v, v ∈ record_versions r → plain v = true → policy_keeps policy v.
Proof.
  intros E Ha. unfold CollectPolicy in E. cbv zeta in E. apply reject_bind_Ok in E as [_ E]. apply bind_Ok in E as (_ & _ & E).
  apply bind_Ok in E as (versions & _ & E). apply bind_Ok in E as (o & Ho & E). rewrite (read_holds _ _ _ _ Ho Ha) in E.
  apply reject_bind_Ok in E as [Hact E]. apply bind_Ok in E as (m1 & E1 & E). apply bind_Ok in E as (m2 & E2 & E). apply Ok_inj in E as <-.
  destruct (collect_transaction_spec _ _ _ _ _ _ E1) as (Hn1 & _ & Hu1).
  destruct (collect_transaction_spec _ _ _ _ _ _ E2) as (Hn2 & Hg2 & Hu2).
  split_and!; [by left|by right; left|by apply String.eqb_neq|].
  intros file r Hfile Hr Hu v Hv Hp. assert (has m2 v) as Hhas.
  { apply elem_of_cons in Hfile as [->|Hfile%list_elem_of_singleton]; [by apply (has_mono m1); [|apply (Hu1 r)]|]. subst file. by apply (Hu2 r). }
  destruct (kept_by_values m2 v (sr_ActiveVersion active) (sr_FallbackVersion active)) as [E|(w & Ew & Hw)]; [|done..|by left|].
  { apply Hn2, Hn1, protect_all_normal, normal_values_empty. }
  right. exists w. split; [|done]. unfold named_by. cbn [po_ActiveVersion po_FallbackVersion po_ProtectedVersions].
  destruct Hw as [Hw|[->| ->]]; [|by left|by right; left]. right; right. by apply elem_of_sort_by.
Qed.

(** ** Cleanups and updates on Windows *)

(** What cleanup.go reads of the files of the updater. *)
Definition record_of (t : Transaction) : stateRecord :=
  mkStateRecord (tr_TransactionID t) (tr_SourceVersion t) (tr_TargetVersion t) (tr_ActiveVersion t) (tr_FallbackVersion t) (tr_State t).
Definition record_of_active (a : ActiveVersion) : stateRecord :=
  mkStateRecord (av_TransactionID a) "" "" (av_ActiveVersion a) (av_FallbackVersion a) (av_State a).

(** The files the cleanup reads are those of the updater's disk. *)
Definition reads_disk (tree : state_tree) (d : Update.disk platform) : Prop :=
  (∀ a, pf_active (ud_platform d) = Some (Some a) → holds (st_active tree) (record_of_active a)) ∧
  (∀ t, ud_transaction d = Some (Some t) → holds (st_update tree) (record_of t)).

Lemma named_not_handed policy tree v : v ∈ named_by policy → ValidateVersion v = Ok tt → NormalizeVersion v ∉ cl_Handed (clean policy tree).
Proof.
  intros Hv Hval Hin. apply (clean_handed policy tree (NormalizeVersion v) v Hin); [right; by exists v|].
  unfold canonicalVersion. cbv zeta. by rewrite normalizeVersion_NormalizeVersion.
Qed.

Lemma kept_not_handed policy tree v : policy_keeps policy v → ValidateVersion v = Ok tt → NormalizeVersion v ∉ cl_Handed (clean policy tree).
Proof.
  intros Hk Hval Hin. apply (clean_handed policy tree (NormalizeVersion v) v Hin Hk).
  unfold canonicalVersion. cbv zeta. by rewrite normalizeVersion_NormalizeVersion.
Qed.

Lemma points_record d v : points_to v (ud_platform d) →
  ∃ a, pf_active (ud_platform d) = Some (Some a) ∧ av_ActiveVersion a = v ∧ validate_active a = Ok tt.
Proof.
  intros (a & E & Ha & _). unfold ReadActive in E. destruct (pf_active (ud_platform d)) as [[a'|]|]; try discriminate.
  cbn in E. apply bind_Ok in E as ([] & Hv & E). injection E as ->. by exists a.
Qed.
Lemma points_within_record t (p : platform) : points_within t p →
  ∃ a, pf_active p = Some (Some a) ∧ validate_active a = Ok tt.
Proof.
  intros (a & E & _). unfold ReadActive in E. destruct (pf_active p) as [[a'|]|]; try discriminate.
  cbn in E. apply bind_Ok in E as ([] & Hv & E). injection E as ->. by exists a.
Qed.

(** The cleanup takes a transaction for over where the arbiter does, failures
    apart. *)
Lemma terminal_state_of state :
  validState state = true → terminalState state = true → state = StateCommitted ∨ state = StateRolledBack.
Proof.
  unfold validState, one_of. cbn [existsb]. intros Hv Ht.
  repeat (apply orb_true_iff in Hv as [Hv|Hv]; [apply String.eqb_eq in Hv; subst state; first [discriminate Ht|by left|by right]|]).
  discriminate.
Qed.

Section WithUpdates.
Variable root : string.
Local Abbreviation history := (@history platform (windows_driver root) (windows_laws root)).

(** C15: no cleanup removes a version an update may still have to start.  In
    every state that any history of updates on Windows leads to, whatever the
    installer left behind and whatever is in the directory, a cleanup by the
    policy collected from the files never hands to the removal the generation
    the pointer names, nor the one of the transaction's source, nor, unless
    the update was rolled back, the one of its target (for versions that do
    not start with a repeated v). *)
Theorem cleanup_keeps_generations d t tree stateRoot dir policy versions :
  history d → ud_transaction d = Some (Some t) → reads_disk tree d → CollectPolicy tree stateRoot dir = Ok policy →
  let handed := cl_Handed (clean policy versions) in
  (∃ a, pf_active (ud_platform d) = Some (Some a) ∧ NormalizeVersion (av_ActiveVersion a) ∉ handed) ∧
  (plain (tr_SourceVersion t) = true → NormalizeVersion (tr_SourceVersion t) ∉ handed) ∧
  (plain (tr_TargetVersion t) = true → tr_State t ≠ StateRolledBack → NormalizeVersion (tr_TargetVersion t) ∉ handed).
Proof.
  intros Hh Et [Hra Hrt] Hp. destruct (always_starts root d t Hh Et) as (Hv & Hw & Hc & Hr).
  destruct (validate_versions t Hv) as (Hvs & Hvt & _). specialize (Hrt t Et).
  assert (validState (tr_State t) = true) as Hvalid.
  { unfold validate_transaction in Hv. do 7 (apply bind_Ok in Hv as (? & _ & Hv)). apply reject_bind_Ok in Hv as [E _]. by apply negb_false_iff in E. }
  destruct (points_within_record t _ Hw) as (a & Ea & Hva). specialize (Hra a Ea).
  destruct (CollectPolicy_keeps tree stateRoot dir policy (record_of_active a) Hp Hra) as (Hact & _ & Hne & Hu).
  assert (tr_State t ≠ StateRolledBack → in_use (record_of_active a) (record_of t) = true) as Huse.
  { intros Hnr. unfold in_use. cbn [sr_State record_of]. destruct (terminalState (tr_State t)) eqn:Hterm; [|done].
    destruct (terminal_state_of _ Hvalid Hterm) as [Es|Es]; [|done]. destruct (points_record d _ (proj1 (Hc Es))) as (a' & Ea' & Etgt & _).
    rewrite Ea in Ea'. injection Ea' as <-. cbn [negb orb]. unfold sameVersion. cbn [sr_TargetVersion record_of]. cbv zeta.
    cbn [sr_ActiveVersion record_of_active] in *. by rewrite <- Etgt, String.eqb_refl, (proj2 (String.eqb_neq _ _) Hne). }
  assert (∀ v, v ∈ record_versions (record_of t) → tr_State t ≠ StateRolledBack → plain v = true → policy_keeps policy v) as Hkeep.
  { intros v Hin Hnr Hpl. apply (Hu (st_update tree) (record_of t)); auto. by right; left. }
  cbv zeta. split_and!.
  - exists a. split; [done|]. apply named_not_handed; [done|]. unfold validate_active in Hva.
    apply reject_bind_Ok in Hva as [_ Hva]. by apply bind_Ok in Hva as ([] & ? & _).
  - intros Hpl. destruct (String.eqb_spec (tr_State t) StateRolledBack) as [Es|Hnr].
    + destruct (points_record d _ (Hr Es)) as (a' & Ea' & Esrc & _). rewrite Ea in Ea'. injection Ea' as <-.
      rewrite <- Esrc. apply named_not_handed; [done|]. by rewrite Esrc.
    + apply kept_not_handed; [|done]. apply Hkeep; [|done..]. unfold record_versions. by right; right; left.
  - intros Hpl Hnr. apply kept_not_handed; [|done]. apply Hkeep; [|done..]. unfold record_versions. by right; right; right; left.
Qed.
End WithUpdates.
End Keeps.

(** ** Witness: the cleanup after the update from v1.0.0 to v1.1.0 *)

#[local] Instance sample_case : UnicodeCase := λ r, r.
#[local] Instance sample_files : FilePaths :=
  mkFilePaths (λ parent child, Ok (of_bytes (drop (S (String.length parent)) (bytes child)))) (λ p, p) (λ p, p) (λ _, ".") (λ _, true)
    (λ p, p) "\"%char.

Definition json_file {A B} (f : A → B) (j : jfile A) : file_at B :=
  match j with
  | None => None
  | Some a => Some (Ok (mkStateFile true 400 (option_map f a)))
  end.

Definition tree_of (d : Update.disk platform) : state_tree :=
  mkStateTree (json_file record_of_active (pf_active (ud_platform d))) None (json_file record_of (ud_transaction d)) (λ _, None).

Lemma tree_of_reads d : reads_disk (tree_of d) d.
Proof. split; intros a E; unfold tree_of; cbn [st_active st_update]; rewrite E; by eexists. Qed.

Definition sample_versions : versions_tree :=
  mkVersionsTree (Ok (Some [("v1.1.0", true); ("v1.0.0", true); ("v0.9.0", true); ("readme.txt", false)])) (λ _, Ok tt) (λ _, Ok false).

#[local] Abbreviation updated :=
  (run_disk (@Run platform WindowsUpdate.sample_driver sample_clock false "abcdef" (sample_staged []) [])).

Lemma cleanup_keeps_generations_witness :
  ∃ policy, @CollectPolicy sample_case sample_paths sample_files (tree_of updated) sample_root "C:\AgentDock\versions" = Ok policy ∧
    cl_Handed (@clean sample_case sample_paths sample_files policy sample_versions) = ["v0.9.0"] ∧
    "v1.0.0" ∉ cl_Handed (@clean sample_case sample_paths sample_files policy sample_versions).
Proof.
  set (policy := match @CollectPolicy sample_case sample_paths sample_files (tree_of updated) sample_root "C:\AgentDock\versions" with
    | Ok policy => policy | Err _ => mkPolicy "" "" "" [] end).
  assert (@CollectPolicy sample_case sample_paths sample_files (tree_of updated) sample_root "C:\AgentDock\versions" = Ok policy) as E by (by vm_compute).
  assert (cl_Handed (@clean sample_case sample_paths sample_files policy sample_versions) = ["v0.9.0"]) as Eh by (by vm_compute).
  set (t := match ud_transaction updated with Some (Some t) => t | _ => sample_transaction end).
  assert (ud_transaction updated = Some (Some t)) as Et by (by vm_compute).
  assert (tr_SourceVersion t = "v1.0.0") as Ev by (by vm_compute).
  clearbody policy t. exists policy. split; [exact E|]. split; [exact Eh|].
  assert (@history platform WindowsUpdate.sample_driver sample_laws updated) as Hh.
  { destruct (windows_sample_history []) as [p Hp]. exists p. eapply rtc_r; [exact Hp|].
    apply (@step_run platform WindowsUpdate.sample_driver sample_laws (sample_staged []) sample_clock false "abcdef" []). exact sample_clock_runs. }
  destruct (@cleanup_keeps_generations sample_case sample_paths sample_files sample_root updated t (tree_of updated) sample_root
    "C:\AgentDock\versions" policy sample_versions Hh Et (tree_of_reads updated) E) as (_ & Hs & _).
  rewrite Ev in Hs. exact (Hs eq_refl).
Defined.
