(* ===== verification/FileTree.v ===== *)
(** * FileTree: a Linux file system that loses power

    The file system that internal/wslfilehelper works on: a tree of nodes, the
    system calls on it, and what a loss of power leaves of it.  As on ext4, the
    changes since the last sync reach the disk in their order, so a loss of
    power leaves one of the trees since then; of a regular file that was not
    synced the content may be lost.

    A path is the list of its components, the last one first; it is absolute
    and clean.  Symbolic links are not followed: a path through one is blocked.
    A system call that returns an error has had no effect; the sync of a
    directory may also have taken place. *)

From S2P Require Import Prelude GoText Durable.
Local Open Scope Z_scope.

Abbreviation path := (list string).

(** filepath.Dir. *)
Definition parent (p : path) : path := tail p.

Record regular : Type := mkRegular {
  rg_Content : string;
  rg_Mode : Z;
  rg_UID : Z;
  rg_GID : Z;
  rg_Synced : bool;
}.
#[export] Instance regular_eta : Eta regular := λ f, mkRegular (rg_Content f) (rg_Mode f) (rg_UID f) (rg_GID f) (rg_Synced f).

Inductive node : Type :=
  | Regular (f : regular)
  | Directory
  | Symlink
  | Special.

#[export] Instance regular_dec : EqDecision regular.
Proof. solve_decision. Defined.
#[export] Instance node_dec : EqDecision node.
Proof. solve_decision. Defined.

Abbreviation tree := (@gmap (list string) (@list_eq_dec string String.eq_dec) (@list_countable string String.eq_dec String.countable) node).

(** The trees since the last sync, the latest first, and the random
    identifiers to come. *)
Record world : Type := mkWorld { w_now : tree; w_past : list tree; w_ids : list string }.
#[export] Instance world_eta : Eta world := λ w, mkWorld (w_now w) (w_past w) (w_ids w).

Definition EEXIST : string := "file exists".
Definition ENOENT : string := "no such file or directory".
Definition ENOTDIR : string := "not a directory".
Definition EIO : string := "input/output error".

(** What the kernel decides: who the process is, whether files may be given
    away, what writing to a file and giving it away leave of its mode, whether
    the file system knows RENAME_NOREPLACE, and of which directories the sync
    may fail. *)
Class Kernel : Type := mkKernel {
  euid : Z;
  egid : Z;
  may_chown : Z → Z → bool;
  kept_mode : Z → Z;
  rename_flags : bool;
  sync_fails : path → bool;
}.

(** ** Looking *)

Inductive reach : Type := Reached | Missing | Blocked.

Fixpoint walk (t : tree) (p : path) : reach :=
  match p with
  | [] => Reached
  | _ :: q =>
      match walk t q with
      | Reached => match t !! p with Some Directory => Reached | None => Missing | Some _ => Blocked end
      | r => r
      end
  end.

Definition lstat (p : path) (t : tree) : result (option node) :=
  match p with
  | [] => Ok (Some Directory)
  | _ :: q => match walk t q with Reached => Ok (t !! p) | Missing => Ok None | Blocked => Err ENOTDIR end
  end.

(** The directory an entry is put into. *)
Definition enter (p : path) (t : tree) : result unit :=
  match walk t (parent p) with Reached => Ok tt | Missing => Err ENOENT | Blocked => Err ENOTDIR end.

Definition is_child (d p : path) : bool := match p with [] => false | _ :: q => bool_decide (q = d) end.
Definition has_children (d : path) (t : tree) : bool := existsb (λ '(p, _), is_child d p) (map_to_list t).

(** The entries of a directory, with their nodes. *)
Definition children (d : path) (t : tree) : list (string * node) :=
  omap (λ '(p, n), match p with x :: q => if bool_decide (q = d) then Some (x, n) else None | [] => None end) (map_to_list t).

(** ** Changing *)

Definition step (A : Type) : Type := tree → result (A * tree).

Definition vacant (p : path) (t : tree) : result unit :=
  enter p t;;
  reject (not_nil (t !! p)) EEXIST.

Definition present (p : path) (t : tree) : result node :=
  n ← lstat p t;
  match n with Some n => Ok n | None => Err ENOENT end.

Definition mkdir (p : path) : step unit := λ t,
  vacant p t;;
  Ok (tt, <[p := Directory]> t).

(** open with O_CREATE and O_EXCL. *)
Definition create `{Kernel} (p : path) (mode : Z) : step unit := λ t,
  vacant p t;;
  Ok (tt, <[p := Regular (mkRegular "" mode euid egid false)]> t).

Definition on_file (p : path) (f : regular → regular) : step unit := λ t,
  n ← present p t;
  match n with Regular r => Ok (tt, <[p := Regular (f r)]> t) | _ => Err "bad file descriptor" end.

Definition remove (p : path) : step unit := λ t,
  n ← present p t;
  match n with
  | Directory => reject (has_children p t) "directory not empty";; Ok (tt, delete p t)
  | _ => Ok (tt, delete p t)
  end.

(** renameat2 with RENAME_NOREPLACE, of files. *)
Definition move_new (source target : path) : step unit := λ t,
  n ← present source t;
  vacant target t;;
  match n with Directory => Err "is a directory" | _ => Ok (tt, <[target := n]> (delete source t)) end.

(** rename, of files. *)
Definition move_over (source target : path) : step unit := λ t,
  n ← present source t;
  enter target t;;
  match n, t !! target with
  | Directory, _ | _, Some Directory => Err "is a directory"
  | _, _ => Ok (tt, <[target := n]> (delete source t))
  end.

Definition link (source target : path) : step unit := λ t,
  n ← present source t;
  vacant target t;;
  match n with Directory => Err "operation not permitted" | _ => Ok (tt, <[target := n]> t) end.

(** ** System calls *)

Definition moved (t : tree) (w : world) : world := w <| w_past ::= cons (w_now w) |> <| w_now := t |>.
Definition synced (w : world) : world := w <| w_past := [] |>.

Definition call {A} (f : step A) : io world A := λ w fs,
  match f (w_now w) with
  | Err e => mkRun (Failed e) w fs
  | Ok (a, t) =>
      match fs with
      | [] => mkRun (Done a) (moved t w) []
      | Committed :: fs => mkRun (Done a) (moved t w) fs
      | Refused :: fs | Uncertain :: fs => mkRun (Failed EIO) w fs
      | Crashed :: fs => mkRun Dead w fs
      | Severed :: fs => mkRun Dead (moved t w) fs
      end
  end.

(** A call that only looks. *)
Definition look {A} (f : tree → result A) : io world A := λ w fs,
  match f (w_now w) with
  | Err e => mkRun (Failed e) w fs
  | Ok a =>
      match fs with
      | [] => mkRun (Done a) w []
      | Committed :: fs => mkRun (Done a) w fs
      | Refused :: fs | Uncertain :: fs => mkRun (Failed EIO) w fs
      | Crashed :: fs | Severed :: fs => mkRun Dead w fs
      end
  end.

(** fsync of a directory. *)
Definition sync_dir `{Kernel} (d : path) : io world unit := λ w fs,
  match walk (w_now w) d with
  | Reached =>
      match fs with
      | [] => mkRun (Done tt) (synced w) []
      | Committed :: fs => mkRun (Done tt) (synced w) fs
      | Refused :: fs => if sync_fails d then mkRun (Failed EIO) w fs else mkRun (Done tt) (synced w) fs
      | Uncertain :: fs => if sync_fails d then mkRun (Failed EIO) (synced w) fs else mkRun (Done tt) (synced w) fs
      | Crashed :: fs => mkRun Dead w fs
      | Severed :: fs => mkRun Dead (synced w) fs
      end
  | Missing => mkRun (Failed ENOENT) w fs
  | Blocked => mkRun (Failed ENOTDIR) w fs
  end.

Definition next_id : io world string := λ w fs, mkRun (Done (default "" (head (w_ids w)))) (w <| w_ids ::= tail |>) fs.

(** ** Losing power *)

(** What may be left of a node. *)
Inductive survives : node → node → Prop :=
  | survives_as_it_is n : survives n n
  | survives_empty_handed f content : rg_Synced f = false → survives (Regular f) (Regular (f <| rg_Content := content |> <| rg_Synced := true |>)).

Definition left_of (t t' : tree) : Prop :=
  ∀ p, match t !! p with Some n => ∃ n', t' !! p = Some n' ∧ survives n n' | None => t' !! p = None end.

Definition power_loss (w w' : world) : Prop :=
  ∃ t, (t = w_now w ∨ t ∈ w_past w) ∧ left_of t (w_now w') ∧ w_past w' = [] ∧ w_ids w' = w_ids w.

(** ** Lemmas *)

(** Every entry is in a directory. *)
Definition wf (t : tree) : Prop := ∀ x q, is_Some (t !! (x :: q)) → walk t q = Reached.

Lemma walk_mono t t' p : (∀ q, t !! q = Some Directory → t' !! q = Some Directory) → walk t p = Reached → walk t' p = Reached.
Proof.
  intros Ht. induction p as [|x q IH]; [done|]. cbn [walk]. destruct (walk t q) eqn:E; [|done..].
  rewrite (IH eq_refl). destruct (t !! (x :: q)) as [[]|] eqn:El; intros Hx; try discriminate Hx. by rewrite (Ht _ El).
Qed.

Lemma lstat_wf t p : wf t → p ≠ [] → ∀ n, lstat p t = Ok n → n = t !! p.
Proof.
  intros Hw Hp n. destruct p as [|x q]; [done|]. cbn. destruct (walk t q) eqn:E; intros [= <-]; [done|].
  destruct (t !! (x :: q)) eqn:El; [|done]. assert (walk t q = Reached) as E2 by (apply (Hw x); by eexists). by rewrite E in E2.
Qed.

Lemma present_wf t p n : wf t → p ≠ [] → present p t = Ok n → t !! p = Some n.
Proof.
  intros Hw Hp E. unfold present in E. apply bind_Ok in E as ([n'|] & El & E); [|discriminate]. injection E as ->.
  symmetry. by apply lstat_wf.
Qed.

Lemma enter_walk p t u : enter p t = Ok u → walk t (parent p) = Reached.
Proof. unfold enter. by destruct (walk t (parent p)). Qed.

Lemma vacant_Ok p t u : vacant p t = Ok u → walk t (parent p) = Reached ∧ t !! p = None.
Proof.
  unfold vacant. intros E. apply bind_Ok in E as (v & E1 & E2). split; [by eapply enter_walk|].
  by destruct (t !! p).
Qed.

Lemma wf_insert t p n : wf t → p ≠ [] → walk t (parent p) = Reached → (t !! p = Some Directory → n = Directory) → wf (<[p := n]> t).
Proof.
  intros Hw Hp Hpar Hd x q Hs. assert (∀ r, t !! r = Some Directory → <[p := n]> t !! r = Some Directory) as Hm.
  { intros r Hr. destruct (decide (p = r)) as [<-|Hne]; [rewrite lookup_insert_eq; by rewrite Hd|by rewrite lookup_insert_ne]. }
  apply (walk_mono t); [done|]. destruct (decide (p = x :: q)) as [->|Hne]; [done|].
  rewrite lookup_insert_ne in Hs by done. by apply (Hw x).
Qed.

Lemma walk_delete t p q : (t !! p ≠ Some Directory) → walk t q = Reached → walk (delete p t) q = Reached.
Proof.
  intros Hp. apply walk_mono. intros r Hr. destruct (decide (p = r)) as [<-|Hne]; [done|by rewrite lookup_delete_ne].
Qed.

Lemma wf_delete t p : wf t → (t !! p = Some Directory → has_children p t = false) → wf (delete p t).
Proof.
  intros Hw Hc x q Hs. destruct (decide (p = x :: q)) as [->|Hne]; [rewrite lookup_delete_eq in Hs; by destruct Hs|].
  rewrite lookup_delete_ne in Hs by done. specialize (Hw x q Hs).
  destruct (decide (t !! p = Some Directory)) as [Hd|Hd]; [|by apply walk_delete]. specialize (Hc Hd).
  assert (∀ y, is_Some (t !! (y :: p)) → False) as Hno.
  { intros y [n Hn]. assert (has_children p t = true) as E; [|by rewrite E in Hc]. apply existsb_exists. exists (y :: p, n).
    split; [by apply list_elem_of_In, elem_of_map_to_list|]. cbn. by rewrite bool_decide_eq_true_2. }
  assert (q ≠ p) as Hqp by (intros ->; by apply (Hno x)). clear Hs Hne. revert Hw Hqp. induction q as [|y q IH]; [done|]. cbn [walk].
  intros Hw Hqp. destruct (walk t q) eqn:E; [|discriminate..].
  rewrite lookup_delete_ne by done. destruct (t !! (y :: q)) as [[]|] eqn:El; try discriminate.
  rewrite IH; [done|done|]. intros ->. apply (Hno y). by eexists.
Qed.

Lemma left_of_wf t t' : left_of t t' → wf t → wf t'.
Proof.
  intros Hl Hw x q [n Hn]. pose proof (Hl (x :: q)) as Hx. destruct (t !! (x :: q)) as [n0|] eqn:E; [|by rewrite Hx in Hn].
  apply (walk_mono t); [|apply (Hw x); by rewrite E]. intros r Hr. specialize (Hl r). rewrite Hr in Hl.
  destruct Hl as (n' & -> & Hs). by inversion Hs.
Qed.

(** On the trees of a world: [now G P] is [P] of the present tree while [G] is
    true of it and of all that a loss of power may bring back.  The identifiers
    to come are hexadecimal. *)
Section OnTrees.
Context `{Kernel}.

Definition hex_id (x : string) : Prop := forallb is_lower_hex (bytes x) = true.
Record held (G : tree → Prop) (w : world) : Prop := {
  held_now : G (w_now w);
  held_past : ∀ t, t ∈ w_past w → G t;
  held_ids : ∀ x, x ∈ w_ids w → hex_id x;
}.
Definition now (G P : tree → Prop) (w : world) : Prop := held G w ∧ P (w_now w).

(** The trees stay in [G]. *)
Definition tri_in {A : Type} (G P : tree → Prop) (m : io world A) (Q : A → tree → Prop) (E : tree → Prop) : Prop :=
  tri (now G P) m (λ a, now G (Q a)) (now G E) (held G).

Lemma held_moved (G : tree → Prop) t w : held G w → G t → held G (moved t w).
Proof. intros [Hn Hp Hi] Ht. split; [done| |done]. cbn. by intros t' [->|Hin]%elem_of_cons; [|apply Hp]. Qed.

Lemma held_synced (G G' : tree → Prop) w : held G w → G' (w_now w) → held G' (synced w).
Proof. intros [_ _ Hi] Hn. split; [done| |done]. cbn. by intros t ?%not_elem_of_nil. Qed.

Lemma call_in {A : Type} (f : step A) (G P : tree → Prop) (Q : A → tree → Prop) (E : tree → Prop) :
  (∀ t a t', G t → P t → f t = Ok (a, t') → G t' ∧ Q a t') → (∀ t, P t → E t) → tri_in G P (call f) Q E.
Proof.
  intros Hf HE w fs [Hh HP]. unfold call. destruct (f (w_now w)) as [[a t]|e] eqn:Ef; [|by split; [|apply HE]].
  destruct (Hf _ _ _ (held_now _ _ Hh) HP Ef) as [HG HQ]. pose proof (held_moved G t w Hh HG) as Hm.
  destruct fs as [|[] fs]; cbn; try done; by split; [|apply HE].
Qed.

Lemma held_mono (G G' : tree → Prop) w : (∀ t, G t → G' t) → held G w → held G' w.
Proof. intros HG [Hn Hp Hi]. split; auto. Qed.

(** A call that may leave [G] for a larger [G']. *)
Lemma call_to {A : Type} (f : step A) (G G' P : tree → Prop) (Q : A → tree → Prop) (E : tree → Prop) :
  (∀ t a t', G t → P t → f t = Ok (a, t') → G' t' ∧ Q a t') → (∀ t, G t → G' t) → (∀ t, P t → E t) →
  tri (now G P) (call f) (λ a, now G' (Q a)) (now G E) (held G').
Proof.
  intros Hf HG HE w fs [Hh HP]. pose proof (held_mono G G' w HG Hh) as Hh'. unfold call.
  destruct (f (w_now w)) as [[a t]|e] eqn:Ef; [|by split; [|apply HE]].
  destruct (Hf _ _ _ (held_now _ _ Hh) HP Ef) as [Hg HQ]. pose proof (held_moved G' t w Hh' Hg) as Hm.
  destruct fs as [|[] fs]; cbn; try done; by split; [|apply HE].
Qed.

Lemma look_in {A : Type} (f : tree → result A) (G P : tree → Prop) (Q : A → tree → Prop) (E : tree → Prop) :
  (∀ t a, G t → P t → f t = Ok a → Q a t) → (∀ t, P t → E t) → tri_in G P (look f) Q E.
Proof.
  intros Hf HE w fs [Hh HP]. unfold look. destruct (f (w_now w)) as [a|e] eqn:Ef; [|by split; [|apply HE]].
  pose proof (Hf _ _ (held_now _ _ Hh) HP Ef) as HQ. destruct fs as [|[] fs]; cbn; try done; by split; [|apply HE].
Qed.

Lemma sync_in d (G P : tree → Prop) : tri_in G P (sync_dir d) (λ _, P) P.
Proof.
  intros w fs [Hh HP]. unfold sync_dir. pose proof (held_synced G G w Hh (held_now _ _ Hh)) as Hs.
  destruct (walk (w_now w) d); [|done..]. destruct fs as [|[] fs]; cbn; try done; by destruct (sync_fails d).
Qed.

Lemma sync_to d (G P E : tree → Prop) : (∀ t, P t → E t) → tri_in G P (sync_dir d) (λ _, P) E.
Proof. intros HE. eapply tri_conseq; [apply (sync_in d G P)|done..| |done]. intros w [Hh HP]. split; [done|by apply HE]. Qed.

(** A sync that cannot fail leaves nothing else to come back. *)
Lemma sync_sure d (G G' P : tree → Prop) :
  sync_fails d = false → (∀ t, P t → walk t d = Reached ∧ G' t) → tri (now G P) (sync_dir d) (λ _, now G' P) (λ _, False) (held G).
Proof.
  intros Hd HP w fs [Hh Hp]. unfold sync_dir. destruct (HP _ Hp) as [-> Hg']. rewrite Hd.
  pose proof (held_synced G G w Hh (held_now _ _ Hh)) as Hs. pose proof (held_synced G G' w Hh Hg') as Hs'. destruct fs as [|[] fs]; cbn; try done; by split.
Qed.

Lemma id_in (G P : tree → Prop) E : tri_in G P next_id (λ x t, hex_id x ∧ P t) E.
Proof.
  intros w fs [[Hn Hp Hi] HP]. cbn. split; [split; [done..|]|split; [|done]]; cbn.
  - intros x Hx. apply Hi. destruct (w_ids w); [done|by right].
  - destruct (w_ids w) as [|x l]; [done|]. apply Hi. by left.
Qed.

Lemma read_in {A : Type} (f : tree → A) (G P : tree → Prop) (Q : A → tree → Prop) (E : tree → Prop) :
  (∀ t, G t → P t → Q (f t) t) → tri_in G P (io_read (λ w, f (w_now w))) Q E.
Proof. intros HQ w fs [Hh HP]. split; [done|]. apply HQ; [exact (held_now _ _ Hh)|done]. Qed.

Lemma ret_in {A : Type} (a : A) (G P : tree → Prop) (Q : A → tree → Prop) E : (∀ t, G t → P t → Q a t) → tri_in G P (mret a) Q E.
Proof. intros HQ w fs [Hh HP]. split; [done|]. apply HQ; [exact (held_now _ _ Hh)|done]. Qed.

Lemma fail_in {A : Type} e (G P : tree → Prop) (Q : A → tree → Prop) (E : tree → Prop) : (∀ t, P t → E t) → tri_in G P (io_fail e) Q E.
Proof. intros HE w fs [Hh HP]. split; [done|by apply HE]. Qed.

Lemma bind_in {A B : Type} (m : io world A) (k : A → io world B) (G P : tree → Prop) (R : A → tree → Prop) (Q : B → tree → Prop) (E : tree → Prop) :
  tri_in G P m R E → (∀ a, tri_in G (R a) (k a) Q E) → tri_in G P (m ≫= k) Q E.
Proof. intros Hm Hk. eapply tri_bind; [exact Hm|exact Hk]. Qed.

Lemma conseq_in {A : Type} (m : io world A) (G P P' : tree → Prop) (Q Q' : A → tree → Prop) (E E' : tree → Prop) :
  tri_in G P m Q E → (∀ t, G t → P' t → P t) → (∀ a t, G t → Q a t → Q' a t) → (∀ t, G t → E t → E' t) → tri_in G P' m Q' E'.
Proof.
  intros Hm HP HQ HE. eapply tri_conseq; [exact Hm|..]; try done.
  - intros w [Hh Hp]. split; [done|]. apply HP; [exact (held_now _ _ Hh)|done].
  - intros a w [Hh Hq]. split; [done|]. apply HQ; [exact (held_now _ _ Hh)|done].
  - intros w [Hh He]. split; [done|]. apply HE; [exact (held_now _ _ Hh)|done].
Qed.

Lemma try_in {A : Type} (m : io world A) (G P : tree → Prop) (Q : A → tree → Prop) (E E' : tree → Prop) :
  tri_in G P m Q E → tri_in G P (io_try m) (λ r t, match r with Ok a => Q a t | Err _ => E t end) E'.
Proof.
  intros Hm w fs HP. specialize (Hm w fs HP). unfold io_try. by destruct (m w fs) as [[a|e|] w' fs'].
Qed.

Lemma absurd_in {A : Type} (m : io world A) (G P : tree → Prop) (Q : A → tree → Prop) (E : tree → Prop) :
  (∀ t, G t → P t → False) → tri_in G P m Q E.
Proof. intros HP w fs [Hh Hp]. destruct (HP _ (held_now _ _ Hh) Hp). Qed.

(** What is seen of a power loss. *)
Lemma power_loss_held (G : tree → Prop) w w' :
  (∀ t t', left_of t t' → G t → G t') → held G w → power_loss w w' → held G w'.
Proof.
  intros HG [Hn Hp Hi] (t & Ht & Hl & Hpast & Hids). split; [|rewrite Hpast; by intros ? ?%not_elem_of_nil|by rewrite Hids].
  apply (HG t); [done|]. destruct Ht as [->|Ht]; [done|by apply Hp].
Qed.
End OnTrees.
