(* ===== verification/Patch.v ===== *)
(** * Patch: patches of several files as one transaction (internal/wslfilehelper)

    Models transaction.go with checkedPath of paths.go and renameNoReplace of
    io.go: a patch journals what it is about to do, writes the new files beside
    their targets, moves the old ones away and the new ones in, marks the
    journal committed and cleans up; on an error, or when a journal is found
    later, it is rolled back or cleaned up.

    Paths are kept clean; the strings of a request are cleaned once.  An error
    is the code of its ToolFailure, or the message of the system.  The state
    directory is an argument, as are SHA-256 and the JSON encoding of a
    journal.  [busy]: the lock is taken. *)

From stdpp Require Import pretty.
From S2P Require Import Prelude GoText Durable FileTree.
Local Open Scope Z_scope.

Definition maxTextFileBytes : Z := Z.shiftl 32 20.
Definition writeBlockedRoots : list string := ["proc"; "sys"; "dev"; "run"].

(** ** Data *)

Record ChangeRequest : Type := mkChangeRequest {
  cr_Path : string;
  cr_ExpectedExists : option bool;
  cr_NewExists : option bool;
  cr_ExpectedSHA256 : string;
  cr_ExpectedMode : option Z;
  cr_ExpectedUID : option Z;
  cr_ExpectedGID : option Z;
  cr_Content : option string;
  cr_SHA256 : string;
  cr_Mode : option Z;
  cr_OwnerUID : option Z;
  cr_OwnerGID : option Z;
}.

Record transactionItem : Type := mkItem {
  ti_Path : path;
  ti_ExpectedExists : bool;
  ti_NewExists : bool;
  ti_ExpectedSHA256 : string;
  ti_ExpectedMode : option Z;
  ti_ExpectedUID : option Z;
  ti_ExpectedGID : option Z;
  ti_NewSHA256 : string;
  ti_NewMode : option Z;
  ti_NewUID : option Z;
  ti_NewGID : option Z;
  ti_TempPath : option path;
  ti_BackupPath : option path;
  ti_Content : string;
}.

Record transactionJournal : Type := mkJournal {
  tj_Version : Z;
  tj_TransactionID : string;
  tj_Workdir : path;
  tj_Phase : string;
  tj_CreatedDirs : list path;
  tj_Items : list transactionItem;
}.
#[export] Instance transactionJournal_eta : Eta transactionJournal := λ j,
  mkJournal (tj_Version j) (tj_TransactionID j) (tj_Workdir j) (tj_Phase j) (tj_CreatedDirs j) (tj_Items j).

Record fileSnapshot : Type := mkSnapshot { sn_SHA256 : string; sn_Mode : Z; sn_UID : Z; sn_GID : Z }.

Record Response : Type := mkResponse {
  re_TransactionID : string;
  re_FilesChanged : Z;
  re_RecoveredTransactions : Z;
  re_CleanupPending : bool;
}.

(** What patchTransaction returns: a response, or an error with its
    edit_outcome and residual_outcomes. *)
Inductive patched : Type :=
  | Patched (r : Response)
  | NotPatched (code edit_outcome : string) (residuals : list (path * string)).

Class PatchHost : Type := mkPatchHost {
  sha256 : string → string;
  encode_journal : transactionJournal → string;
  decode_journal : string → option transactionJournal;
}.

(** The errors that are a ToolFailure. *)
Definition tool_codes : list string :=
  ["INVALID_ARGUMENT"; "PROTECTED_WSL_PATH"; "SYMLINK_NOT_ALLOWED"; "NOT_REGULAR_FILE"; "FILE_TOO_LARGE"; "PATH_NOT_FOUND";
   "NOT_A_DIRECTORY"; "PATCH_BUSY"; "PATCH_CONFLICT"; "OWNERSHIP_CHANGE_BLOCKED"; "WRITE_VERIFICATION_FAILED";
   "PATCH_RECOVERY_REQUIRED"; "PATCH_ROLLBACK_INCOMPLETE"; "NO_REPLACE_UNSUPPORTED"].

Definition failureFrom (err : string) : string := if one_of err tool_codes then err else "WSL_FILE_RUNTIME_ERROR".
Definition join_errors (e1 e2 : string) : string := if one_of e1 tool_codes then e1 else e2.

Definition show_path (p : path) : string := "/" +:+ String.concat "/" (rev p).
Definition path_less (p q : path) : bool := String.ltb (show_path p) (show_path q).

(** [for _, x := range l { if err := f(x); err != nil { return err } }]. *)
Fixpoint each {D A} (f : A → io D unit) (l : list A) : io D unit :=
  match l with
  | [] => mret tt
  | x :: l => f x;; each f l
  end.

(** ** Paths *)

(** filepath.Clean of an absolute path. *)
Definition clean_path (value : string) : path :=
  let '(part, parts) := split_bytes "/" (bytes value) in
  foldl (λ acc part,
    if one_of part [""; "."] then acc else if part =s ".." then tail acc else part :: acc) [] (map of_bytes (part :: parts)).

(** The proper ancestors below the root, the outermost first. *)
Fixpoint up (q : path) : list path :=
  match q with
  | [] => []
  | _ :: q' => up q' ++ [q]
  end.

Fixpoint check_ancestors (l : list path) : io world unit :=
  match l with
  | [] => mret tt
  | current :: l =>
      info ← look (lstat current);
      match info with
      | None => mret tt
      | Some Symlink => io_fail "SYMLINK_NOT_ALLOWED"
      | Some _ => check_ancestors l
      end
  end.

(** checkedPath for writing, on a clean path. *)
Definition check_write (p : path) : io world unit :=
  if one_of (default "" (last p)) writeBlockedRoots then io_fail "PROTECTED_WSL_PATH" else check_ancestors (up (parent p)).

Definition checkedPath (value : string) (write : bool) : io world path :=
  if negb (HasPrefix value "/") then io_fail "INVALID_ARGUMENT"
  else if ContainsAny value (of_bytes [zero]) then io_fail "INVALID_ARGUMENT"
  else
    let p := clean_path value in
    (if write then check_write p else mret tt);;
    mret p.

(** The nearest ancestor that exists is a directory. *)
Fixpoint ensureTransactionScope (p : path) : io world unit :=
  info ← look (lstat p);
  match info with
  | Some Symlink => io_fail "SYMLINK_NOT_ALLOWED"
  | Some Directory => mret tt
  | Some _ => io_fail "NOT_A_DIRECTORY"
  | None => match p with [] => io_fail ENOENT | _ :: q => ensureTransactionScope q end
  end.

Section Patch.
Context `{Kernel} `{PatchHost}.

Definition renameNoReplace (source destination : path) : io world unit :=
  if rename_flags then call (move_new source destination)
  else
    r ← io_try (call (link source destination));
    match r with
    | Err e => io_fail (if e =s EEXIST then EEXIST else "NO_REPLACE_UNSUPPORTED")
    | Ok _ => call (remove source)
    end.

(** ** Journals and snapshots *)

Definition writeJSONAtomic (p : path) (value : transactionJournal) : io world unit :=
  id ← next_id;
  match p with
  | [] => io_fail "is a directory"
  | name :: dir =>
      let temporary := (name +:+ ".tmp-" +:+ id) :: dir in
      call (create temporary 384);;
      r ← io_try (call (on_file temporary (λ f, f <| rg_Content := encode_journal value |>));;
                  call (on_file temporary (λ f, f <| rg_Synced := true |>));;
                  call (move_over temporary p));
      match r with
      | Err err => io_try (call (remove temporary));; io_fail err
      | Ok _ => sync_dir dir
      end
  end.

Definition snapshot_of (f : regular) : fileSnapshot := mkSnapshot (sha256 (rg_Content f)) (rg_Mode f) (rg_UID f) (rg_GID f).

Definition pathSnapshot (p : path) : io world (option fileSnapshot) :=
  check_write p;;
  info ← look (lstat p);
  match info with
  | None => mret None
  | Some Symlink => io_fail "SYMLINK_NOT_ALLOWED"
  | Some (Regular f) => if maxTextFileBytes <? len (rg_Content f) then io_fail "FILE_TOO_LARGE" else mret (Some (snapshot_of f))
  | Some _ => io_fail "NOT_REGULAR_FILE"
  end.

Definition agrees (expected : option Z) (value : Z) : bool := match expected with Some e => value =? e | None => true end.

Definition snapshotMatches (snapshot : option fileSnapshot) (sha : string) (mode uid gid : option Z) : bool :=
  match snapshot with
  | None => false
  | Some s => (sn_SHA256 s =s sha) && agrees mode (sn_Mode s) && agrees uid (sn_UID s) && agrees gid (sn_GID s)
  end.

Definition is_expected (i : transactionItem) (s : option fileSnapshot) : bool :=
  snapshotMatches s (ti_ExpectedSHA256 i) (ti_ExpectedMode i) (ti_ExpectedUID i) (ti_ExpectedGID i).
Definition is_new (i : transactionItem) (s : option fileSnapshot) : bool :=
  snapshotMatches s (ti_NewSHA256 i) (ti_NewMode i) (ti_NewUID i) (ti_NewGID i).

(** ** Preparing *)

(** [cursor]: the directory that is looked at. *)
Fixpoint missing_from (cursor : path) (missing : list path) : io world (list path) :=
  info ← look (lstat cursor);
  match info with
  | None => match cursor with [] => io_fail "PATH_NOT_FOUND" | _ :: q => missing_from q (cursor :: missing) end
  | Some Symlink => io_fail "SYMLINK_NOT_ALLOWED"
  | Some Directory => mret missing
  | Some _ => io_fail "NOT_A_DIRECTORY"
  end.
Definition missingParentDirectories (p : path) : io world (list path) := missing_from (parent p) [].

Definition backup_name (transactionID : string) (index : N) : string :=
  ".agentdock-patch-backup-" +:+ transactionID +:+ "-" +:+ pretty index.
Definition write_name (transactionID : string) (index : N) : string :=
  ".agentdock-patch-write-" +:+ transactionID +:+ "-" +:+ pretty index.

Definition check_expected (raw : ChangeRequest) : result unit :=
  reject (negb (len (cr_ExpectedSHA256 raw) =? 64)) "INVALID_ARGUMENT";;
  reject (is_nil (cr_ExpectedMode raw) || is_nil (cr_ExpectedUID raw) || is_nil (cr_ExpectedGID raw)) "INVALID_ARGUMENT".

Definition check_new (raw : ChangeRequest) : result string :=
  match cr_Content raw with
  | None => Err "INVALID_ARGUMENT"
  | Some content =>
      reject (maxTextFileBytes <? len content) "FILE_TOO_LARGE";;
      reject (cr_SHA256 raw ≠s sha256 content) "INVALID_ARGUMENT";;
      reject (is_nil (cr_Mode raw)) "INVALID_ARGUMENT";;
      reject (negb (Bool.eqb (is_nil (cr_OwnerUID raw)) (is_nil (cr_OwnerGID raw)))) "INVALID_ARGUMENT";;
      Ok content
  end.

(** One turn of normalizeTransactionChanges: the item, and the directories
    that are missing for it. *)
Definition normalize_change (transactionID : string) (index : N) (seen : list path) (raw : ChangeRequest) :
    io world (transactionItem * list path) :=
  p ← checkedPath (cr_Path raw) true;
  if bool_decide (p ∈ seen) then io_fail "INVALID_ARGUMENT"
  else match cr_ExpectedExists raw, cr_NewExists raw with
  | Some expected, Some new =>
      io_lift (if expected then check_expected raw else Ok tt);;
      content ← io_lift (if new then check_new raw else Ok "");
      missing ← (if new then missingParentDirectories p else mret []);
      mret (mkItem p expected new (cr_ExpectedSHA256 raw) (cr_ExpectedMode raw) (cr_ExpectedUID raw) (cr_ExpectedGID raw)
        (cr_SHA256 raw) (cr_Mode raw) (cr_OwnerUID raw) (cr_OwnerGID raw)
        (if new then Some (write_name transactionID index :: parent p) else None)
        (if expected then Some (backup_name transactionID index :: parent p) else None) content, missing)
  | _, _ => io_fail "INVALID_ARGUMENT"
  end.

Definition add_new (dirs missing : list path) : list path :=
  foldl (λ dirs d, if bool_decide (d ∈ dirs) then dirs else dirs ++ [d]) dirs missing.

Fixpoint normalize_loop (transactionID : string) (index : N) (changes : list ChangeRequest) (items : list transactionItem)
    (dirs : list path) : io world (list transactionItem * list path) :=
  match changes with
  | [] => mret (items, dirs)
  | raw :: changes =>
      '(item, missing) ← normalize_change transactionID index (map ti_Path items) raw;
      normalize_loop transactionID (N.succ index) changes (items ++ [item]) (add_new dirs missing)
  end.

Definition dir_less (p q : path) : bool :=
  if bool_decide (length p = length q) then path_less p q else bool_decide (length p < length q)%nat.

Definition normalizeTransactionChanges (changes : list ChangeRequest) (transactionID : string) :
    io world (list transactionItem * list path) :=
  if is_empty changes then io_fail "INVALID_ARGUMENT"
  else
    '(items, dirs) ← normalize_loop transactionID 0 changes [] [];
    mret (items, sort_by dir_less dirs).

Definition preflight_item (i : transactionItem) : io world unit :=
  snapshot ← pathSnapshot (ti_Path i);
  if negb (ti_ExpectedExists i) then (if not_nil snapshot then io_fail "PATCH_CONFLICT" else mret tt)
  else if negb (is_expected i snapshot) then io_fail "PATCH_CONFLICT"
  else mret tt.

Definition verifyTransactionPreflight (items : list transactionItem) : io world unit := each preflight_item items.

Definition change_owner (temp : path) (uid gid : Z) : io world unit :=
  if negb (may_chown uid gid) then io_fail "OWNERSHIP_CHANGE_BLOCKED"
  else call (on_file temp (λ f, f <| rg_UID := uid |> <| rg_GID := gid |> <| rg_Mode ::= kept_mode |>)).

Definition createTransactionTemp (i : transactionItem) : io world unit :=
  match ti_TempPath i, ti_NewExists i with
  | Some temp, true =>
      check_write temp;;
      call (create temp 384);;
      call (on_file temp (λ f, f <| rg_Mode := Z.land (default 0 (ti_NewMode i)) 4095 |>));;
      match ti_NewUID i with
      | Some uid => change_owner temp uid (default 0 (ti_NewGID i))
      | None => mret tt
      end;;
      call (on_file temp (λ f, f <| rg_Content := ti_Content i |> <| rg_Mode ::= kept_mode |> <| rg_Synced := false |>));;
      call (on_file temp (λ f, f <| rg_Synced := true |>))
  | _, _ => mret tt
  end.

Definition verifyBackup (i : transactionItem) : io world unit :=
  snapshot ← pathSnapshot (default [] (ti_BackupPath i));
  if is_expected i snapshot then mret tt else io_fail "PATCH_CONFLICT".

Definition newTargetMatches (i : transactionItem) : io world bool :=
  snapshot ← pathSnapshot (ti_Path i);
  mret (is_new i snapshot).

Definition originalTargetMatches (i : transactionItem) : io world bool :=
  snapshot ← pathSnapshot (ti_Path i);
  mret (is_expected i snapshot).

Definition pathExistsLexically (p : path) : io world bool :=
  io_read (λ w, match lstat p (w_now w) with Ok (Some _) => true | _ => false end).

(** ** Rolling back and cleaning up *)

(** [if err := m; err != nil { errors = append(errors, ...) }]. *)
Definition collect_error (m : io world unit) : io world (list string) :=
  r ← io_try m;
  mret (match r with Ok _ => [] | Err e => [e] end).

(** A test whose error counts as no. *)
Definition or_false (m : io world bool) : io world bool :=
  r ← io_try m;
  mret (match r with Ok b => b | Err _ => false end).

(** The errors of a stage of a rollback, whether a backup and a target are
    left, and the targets it removed. *)
Record stage : Type := mkStage { sg_Errors : list string; sg_Backup : bool; sg_Target : bool; sg_Removed : list path }.

Definition drop_backup (i : transactionItem) (backup : path) : io world stage :=
  errors ← collect_error (call (remove backup);; sync_dir (parent (ti_Path i)));
  mret (mkStage errors (negb (is_empty errors)) true []).

Definition drop_target (i : transactionItem) (backupExists : bool) : io world stage :=
  r ← io_try (call (remove (ti_Path i)));
  match r with
  | Err e => mret (mkStage [e] backupExists true [])
  | Ok _ =>
      errors ← collect_error (sync_dir (parent (ti_Path i)));
      mret (mkStage errors backupExists false [ti_Path i])
  end.

Definition rollback_target (i : transactionItem) (backup : path) (backupExists targetExists : bool) : io world stage :=
  if ti_ExpectedExists i && negb backupExists then
    mret (mkStage (if targetExists then [] else ["original target and backup are both missing"]) backupExists targetExists [])
  else if targetExists then
    originalUnchanged ← (if ti_ExpectedExists i && backupExists then or_false (originalTargetMatches i) else mret false);
    installedUnchanged ← (if ti_NewExists i then or_false (newTargetMatches i) else mret false);
    if originalUnchanged : bool then drop_backup i backup
    else if installedUnchanged : bool then drop_target i backupExists
    else mret (mkStage ["patched target changed during rollback; preserving current file"] backupExists targetExists [])
  else mret (mkStage [] backupExists targetExists []).

Definition restore_backup (i : transactionItem) (backup : path) : io world unit :=
  pathSnapshot backup;;
  renameNoReplace backup (ti_Path i);;
  sync_dir (parent (ti_Path i)).

Definition remove_if_there (p : path) : io world unit :=
  r ← io_try (call (remove p));
  match r with
  | Err e => if e =s ENOENT then mret tt else io_fail e
  | Ok _ => mret tt
  end.

Definition remove_all (l : list path) : io world (list string) :=
  foldr (λ p m, errors ← collect_error (remove_if_there p); rest ← m; mret (errors ++ rest)) (mret []) l.

Definition rollback_item (i : transactionItem) : io world (list string * list path) :=
  let backup := default [] (ti_BackupPath i) in
  backupExists ← (if is_nil (ti_BackupPath i) then mret false else pathExistsLexically backup);
  targetExists ← pathExistsLexically (ti_Path i);
  s ← rollback_target i backup backupExists targetExists;
  restored ← (if sg_Backup s && negb (sg_Target s) then collect_error (restore_backup i backup) else mret []);
  temp ← remove_all (option_list (ti_TempPath i));
  mret (sg_Errors s ++ restored ++ temp, sg_Removed s).

Definition rollback_dir (d : path) : io world (list string) :=
  r ← io_try (call (remove d));
  match r with
  | Err e => mret (if e =s ENOENT then [] else [e])
  | Ok _ => collect_error (sync_dir (parent d))
  end.

Fixpoint rollback_items (items : list transactionItem) : io world (list string * list path) :=
  match items with
  | [] => mret ([], [])
  | i :: items =>
      '(errors, removed) ← rollback_item i;
      '(errors', removed') ← rollback_items items;
      mret (errors ++ errors', removed ++ removed')
  end.

Fixpoint rollback_dirs (dirs : list path) : io world (list string) :=
  match dirs with
  | [] => mret []
  | d :: dirs => errors ← rollback_dir d; errors' ← rollback_dirs dirs; mret (errors ++ errors')
  end.

(** The errors, and the targets that were removed. *)
Definition rollbackTransaction (j : transactionJournal) : io world (list string * list path) :=
  '(errors, removed) ← rollback_items (rev (tj_Items j));
  errors' ← rollback_dirs (rev (tj_CreatedDirs j));
  mret (errors ++ errors', removed).

Definition affected (items : list transactionItem) : list path := sort_by path_less (remove_dups (map (λ i, parent (ti_Path i)) items)).

Fixpoint sync_all (dirs : list path) : io world (list string) :=
  match dirs with
  | [] => mret []
  | d :: dirs => errors ← collect_error (sync_dir d); errors' ← sync_all dirs; mret (errors ++ errors')
  end.

Definition cleanupCommittedTransaction (j : transactionJournal) : io world (list string) :=
  errors ← remove_all (concat (map (λ i, option_list (ti_BackupPath i) ++ option_list (ti_TempPath i)) (tj_Items j)));
  errors' ← sync_all (affected (tj_Items j));
  mret (errors ++ errors').

Definition is_journal (entry : string * node) : bool :=
  match entry with (_, Directory) => false | (name, _) => HasSuffix name ".json" end.

Definition journal_names (dir : path) (t : tree) : result (list string) :=
  match walk t dir with
  | Missing => Ok []
  | Blocked => Err ENOTDIR
  | Reached => Ok (sort_by String.ltb (map fst (List.filter is_journal (children dir t))))
  end.

Definition read_journal (p : path) (t : tree) : result transactionJournal :=
  n ← present p t;
  match n with
  | Regular f => match decode_journal (rg_Content f) with Some j => Ok j | None => Err "invalid journal" end
  | _ => Err "cannot read journal"
  end.

Definition recover_journal (stateDir : path) (name : string) : io world unit :=
  r ← io_try (look (read_journal (name :: stateDir)));
  match r with
  | Err _ => io_fail "PATCH_RECOVERY_REQUIRED"
  | Ok journal =>
      if negb (tj_Version journal =? 1) then io_fail "PATCH_RECOVERY_REQUIRED"
      else
        errors ← (if tj_Phase journal =s "committed" then cleanupCommittedTransaction journal
                  else '(errors, _) ← rollbackTransaction journal; mret errors);
        if negb (is_empty errors) then io_fail "PATCH_RECOVERY_REQUIRED"
        else
          remove_if_there (name :: stateDir);;
          sync_dir stateDir
  end.

Definition recoverTransactionJournals (stateDir : path) : io world Z :=
  names ← look (journal_names stateDir);
  each (recover_journal stateDir) names;;
  mret (Z.of_nat (length names)).

(** ** The patch *)

(** The variables of patchTransaction that survive an error of its commit. *)
Record progress : Type := mkProgress {
  pg_journal : transactionJournal;
  pg_unchanged : bool;
  pg_installed : list path;
  pg_backedUp : list path;
}.
#[export] Instance progress_eta : Eta progress := λ p,
  mkProgress (pg_journal p) (pg_unchanged p) (pg_installed p) (pg_backedUp p).

Definition on_world {A} (m : io world A) : io (world * progress) A := io_zoom fst (λ w s, (w, s.2)) m.
Definition note (f : progress → progress) : io (world * progress) unit := λ '(w, p) fs, mkRun (Done tt) (w, f p) fs.
Definition journal_now : io (world * progress) transactionJournal := io_read (λ s, pg_journal s.2).

(** A computation on variables of its own: its result or error, and their
    last values. *)
Definition with_progress {A} (p : progress) (m : io (world * progress) A) : io world (result A * progress) := λ w fs,
  match m (w, p) fs with
  | mkRun (Done a) (w', p') fs' => mkRun (Done (Ok a, p')) w' fs'
  | mkRun (Failed e) (w', p') fs' => mkRun (Done (Err e, p')) w' fs'
  | mkRun Dead (w', _) fs' => mkRun Dead w' fs'
  end.

Definition write_current (journalPath : path) : io (world * progress) unit :=
  j ← journal_now;
  on_world (writeJSONAtomic journalPath j).

Definition make_dir (journalPath : path) (d : path) : io (world * progress) unit :=
  r ← io_try (on_world (call (mkdir d)));
  match r with
  | Err e =>
      if e ≠s EEXIST then io_fail e
      else
        info ← on_world (look (lstat d));
        match info with
        | None => io_fail ENOENT
        | Some Symlink => io_fail "SYMLINK_NOT_ALLOWED"
        | Some Directory => mret tt
        | Some _ => io_fail "NOT_A_DIRECTORY"
        end
  | Ok _ =>
      note (λ p, p <| pg_journal ::= (λ j, j <| tj_CreatedDirs ::= (λ ds, ds ++ [d]) |>) |>);;
      write_current journalPath
  end.

Definition conflict_or (m : io world unit) : io world unit :=
  io_catch m (λ e, io_fail (if e =s EEXIST then "PATCH_CONFLICT" else e)).

Definition back_up (i : transactionItem) : io (world * progress) unit :=
  if negb (ti_ExpectedExists i) then mret tt
  else
    on_world (conflict_or (renameNoReplace (ti_Path i) (default [] (ti_BackupPath i))));;
    note (λ p, p <| pg_backedUp ::= cons (ti_Path i) |>);;
    on_world (sync_dir (parent (ti_Path i)));;
    on_world (verifyBackup i).

Definition install (i : transactionItem) : io (world * progress) unit :=
  if negb (ti_NewExists i) then mret tt
  else
    on_world (conflict_or (renameNoReplace (default [] (ti_TempPath i)) (ti_Path i)));;
    note (λ p, p <| pg_installed ::= cons (ti_Path i) |>);;
    on_world (sync_dir (parent (ti_Path i))).

Definition verify_item (i : transactionItem) : io world unit :=
  if ti_NewExists i then
    matches ← newTargetMatches i;
    if matches : bool then mret tt else io_fail "WRITE_VERIFICATION_FAILED"
  else
    exists_ ← pathExistsLexically (ti_Path i);
    if exists_ : bool then io_fail "PATCH_CONFLICT" else mret tt.

Definition commit (journalPath : path) (items : list transactionItem) (plannedDirs : list path) : io (world * progress) unit :=
  each (make_dir journalPath) plannedDirs;;
  on_world (each (λ i, check_write (ti_Path i)) items);;
  on_world (each createTransactionTemp items);;
  note (λ p, p <| pg_journal ::= (λ j, j <| tj_Phase := "prepared" |>) |>);;
  write_current journalPath;;
  note (λ p, p <| pg_unchanged := false |>);;
  on_world (each (λ i, check_write (ti_Path i)) items);;
  each back_up items;;
  each install items;;
  on_world (each verify_item items);;
  on_world (each sync_dir (affected items));;
  note (λ p, p <| pg_journal ::= (λ j, j <| tj_Phase := "committed" |>) |>);;
  write_current journalPath.

Definition residual (p : progress) (removed : list path) (i : transactionItem) : io world (path * string) :=
  r ← io_try (pathSnapshot (ti_Path i));
  match r with
  | Err _ => mret (ti_Path i, "unknown")
  | Ok current =>
      if (negb (ti_ExpectedExists i) && is_nil current) || is_expected i current then mret (ti_Path i, "unchanged")
      else if bool_decide (ti_Path i ∈ pg_installed p) && ti_NewExists i && is_new i current then mret (ti_Path i, "committed")
      else if is_nil current && bool_decide (ti_Path i ∈ pg_backedUp p) &&
        (negb (bool_decide (ti_Path i ∈ pg_installed p)) || bool_decide (ti_Path i ∈ removed)) then
        r ← io_try (verifyBackup i);
        mret (ti_Path i, if is_ok r then "deleted" else "unknown")
      else mret (ti_Path i, "unknown")
  end.

Fixpoint transactionResiduals (p : progress) (removed : list path) (items : list transactionItem) : io world (list (path * string)) :=
  match items with
  | [] => mret []
  | i :: items => x ← residual p removed i; rest ← transactionResiduals p removed items; mret (x :: rest)
  end.

Definition outcome_word (unchanged : bool) : string := if unchanged then "unchanged" else "unknown".

(** After the commit failed. *)
Definition patch_failed (stateDir journalPath : path) (items : list transactionItem) (commitErr : string) (p : progress) : io world patched :=
  '(errors, removed) ← rollbackTransaction (pg_journal p);
  if negb (is_empty errors) then
    residuals ← transactionResiduals p removed items;
    mret (NotPatched "PATCH_ROLLBACK_INCOMPLETE" (outcome_word false) residuals)
  else
    r ← io_try (remove_if_there journalPath;; sync_dir stateDir);
    mret (NotPatched (failureFrom (match r with Err e => join_errors commitErr e | Ok _ => commitErr end)) (outcome_word true) []).

(** After the commit went through. *)
Definition conclude (stateDir journalPath : path) (transactionID : string) (recovered : Z) (items : list transactionItem)
    (p : progress) : io world patched :=
  errors ← cleanupCommittedTransaction (pg_journal p);
  pending ← (if negb (is_empty errors) then mret true
             else r ← io_try (remove_if_there journalPath;; sync_dir stateDir); mret (negb (is_ok r)));
  mret (Patched (mkResponse transactionID (Z.of_nat (length items)) recovered pending)).

(** Up to the first journal on the disk. *)
Definition prepare (stateDir : path) (busy : bool) (workdir : string) (changes : list ChangeRequest) :
    io world (Z * string * list transactionItem * list path * transactionJournal) :=
  dir ← checkedPath workdir false;
  ensureTransactionScope dir;;
  if busy then io_fail "PATCH_BUSY"
  else
    recovered ← recoverTransactionJournals stateDir;
    transactionID ← next_id;
    '(items, plannedDirs) ← normalizeTransactionChanges changes transactionID;
    verifyTransactionPreflight items;;
    let journal := mkJournal 1 transactionID dir "preparing" [] items in
    writeJSONAtomic ((transactionID +:+ ".json") :: stateDir) journal;;
    mret (recovered, transactionID, items, plannedDirs, journal).

Definition patchTransaction (stateDir : path) (busy : bool) (workdir : string) (changes : list ChangeRequest) : io world patched :=
  r ← io_try (prepare stateDir busy workdir changes);
  match r with
  | Err err => mret (NotPatched (failureFrom err) (outcome_word true) [])
  | Ok (recovered, transactionID, items, plannedDirs, journal) =>
      let journalPath := (transactionID +:+ ".json") :: stateDir in
      '(r, p) ← with_progress (mkProgress journal true [] []) (commit journalPath items plannedDirs);
      match r with
      | Err commitErr => patch_failed stateDir journalPath items commitErr p
      | Ok _ => conclude stateDir journalPath transactionID recovered items p
      end
  end.

Definition recoverPatchTransactions (stateDir : path) (busy : bool) (workdir : string) : io world Z :=
  dir ← checkedPath workdir false;
  ensureTransactionScope dir;;
  if busy then io_fail "PATCH_BUSY" else recoverTransactionJournals stateDir.
End Patch.
