(* ===== verification/PatchSpec.v ===== *)
(** * PatchSpec: a patch is applied as a whole or not at all

    The states a patch goes through, on the disk and after a loss of power, and
    what its steps, its rollback and the recovery of its journal make of them.
    A tree is either one whose patch will be undone ([will_be_old]): no journal
    and the old files, or a journal that is not committed and files that the
    rollback knows; or one whose patch is applied ([is_updated]): the new files,
    with a committed journal or none. *)

From stdpp Require Import pretty relations.
From S2P Require Import Prelude GoText Durable FileTree Patch.
Local Open Scope Z_scope.

(** A journal as it is read back: the contents of the items are not stored. *)
Definition strip (i : transactionItem) : transactionItem :=
  mkItem (ti_Path i) (ti_ExpectedExists i) (ti_NewExists i) (ti_ExpectedSHA256 i) (ti_ExpectedMode i) (ti_ExpectedUID i)
    (ti_ExpectedGID i) (ti_NewSHA256 i) (ti_NewMode i) (ti_NewUID i) (ti_NewGID i) (ti_TempPath i) (ti_BackupPath i) "".
Definition stored (j : transactionJournal) : transactionJournal := j <| tj_Items ::= map strip |>.

(** ** The system calls on the tree *)

Lemma remove_Ok p t u t' : wf t → p ≠ [] → remove p t = Ok (u, t') → t' = delete p t ∧ wf t' ∧ is_Some (t !! p).
Proof.
  intros Hw Hp E. unfold remove in E. apply bind_Ok in E as (n & En & E). apply present_wf in En; [|done..].
  assert (t' = delete p t ∧ (n = Directory → has_children p t = false)) as [-> Hc].
  { destruct n; try (by injection E as <- <-). apply reject_bind_Ok in E as [Ec E]. by injection E as <- <-. }
  split_and!; [done| |by eexists]. apply wf_delete; [done|]. rewrite En. intros [= ->]. by apply Hc.
Qed.

Lemma move_new_Ok s d t u t' : wf t → s ≠ [] → d ≠ [] → move_new s d t = Ok (u, t') →
  ∃ n, t !! s = Some n ∧ t !! d = None ∧ t' = <[d := n]> (delete s t) ∧ wf t' ∧ wf (<[d := n]> t).
Proof.
  intros Hw Hs Hd E. unfold move_new in E. apply bind_Ok in E as (n & En & E). apply present_wf in En; [|done..].
  apply bind_Ok in E as (v & Ev & E). apply vacant_Ok in Ev as [Hwalk Hno].
  assert (n ≠ Directory ∧ t' = <[d := n]> (delete s t)) as [Hn ->] by (destruct n; [by injection E as <- <-|discriminate|by injection E as <- <-..]).
  exists n. split_and!; [done..| |].
  - apply wf_insert; [|done| |].
    + apply wf_delete; [done|]. rewrite En. intros [= ->]. done.
    + apply walk_delete; [|done]. rewrite En. congruence.
    + destruct (decide (s = d)) as [->|Hne]; [by rewrite lookup_delete_eq|by rewrite lookup_delete_ne, Hno].
  - apply wf_insert; [done..|]. by rewrite Hno.
Qed.

Lemma link_Ok s d t u t' : wf t → s ≠ [] → d ≠ [] → link s d t = Ok (u, t') →
  ∃ n, t !! s = Some n ∧ t !! d = None ∧ t' = <[d := n]> t ∧ wf t'.
Proof.
  intros Hw Hs Hd E. unfold link in E. apply bind_Ok in E as (n & En & E). apply present_wf in En; [|done..].
  apply bind_Ok in E as (v & Ev & E). apply vacant_Ok in Ev as [Hwalk Hno].
  assert (t' = <[d := n]> t) as -> by (destruct n; [by injection E as <- <-|discriminate|by injection E as <- <-..]).
  exists n. split_and!; [done..|]. apply wf_insert; [done..|]. by rewrite Hno.
Qed.

Lemma mkdir_Ok d t u t' : wf t → d ≠ [] → mkdir d t = Ok (u, t') → t !! d = None ∧ t' = <[d := Directory]> t ∧ wf t'.
Proof.
  intros Hw Hd E. unfold mkdir in E. apply bind_Ok in E as (v & Ev & E). apply vacant_Ok in Ev as [Hwalk Hno]. injection E as <- <-.
  split_and!; [done..|]. by apply wf_insert.
Qed.

Lemma create_Ok `{Kernel} p mode t u t' : wf t → p ≠ [] → create p mode t = Ok (u, t') →
  t !! p = None ∧ t' = <[p := Regular (mkRegular "" mode euid egid false)]> t ∧ wf t'.
Proof.
  intros Hw Hd E. unfold create in E. apply bind_Ok in E as (v & Ev & E). apply vacant_Ok in Ev as [Hwalk Hno]. injection E as <- <-.
  split_and!; [done..|]. apply wf_insert; [done..|]. by rewrite Hno.
Qed.

Lemma on_file_Ok p f t u t' : wf t → p ≠ [] → on_file p f t = Ok (u, t') →
  ∃ r, t !! p = Some (Regular r) ∧ t' = <[p := Regular (f r)]> t ∧ wf t'.
Proof.
  intros Hw Hp E. unfold on_file in E. apply bind_Ok in E as (n & En & E). apply present_wf in En; [|done..].
  destruct n as [r| | |]; try discriminate. injection E as <- <-. exists r. split_and!; [done..|].
  apply wf_insert; [done..| |by rewrite En]. destruct p as [|x q]; [done|]. apply (Hw x). by eexists.
Qed.

Lemma move_over_Ok s d t u t' : wf t → s ≠ [] → d ≠ [] → move_over s d t = Ok (u, t') →
  ∃ n, t !! s = Some n ∧ t' = <[d := n]> (delete s t) ∧ wf t'.
Proof.
  intros Hw Hs Hd E. unfold move_over in E. apply bind_Ok in E as (n & En & E). apply present_wf in En; [|done..].
  apply bind_Ok in E as (v & Ev & E). apply enter_walk in Ev.
  assert (n ≠ Directory ∧ t !! d ≠ Some Directory ∧ t' = <[d := n]> (delete s t)) as (Hn & Hnd & ->).
  { destruct n; [|discriminate|..]; (destruct (t !! d) as [[]|]; try discriminate; by injection E as <- <-). }
  exists n. split_and!; [done..|]. apply wf_insert; [|done| |].
  - apply wf_delete; [done|]. rewrite En. intros [= ->]. done.
  - apply walk_delete; [|done]. rewrite En. congruence.
  - destruct (decide (s = d)) as [->|Hne]; [by rewrite lookup_delete_eq|by rewrite lookup_delete_ne].
Qed.

(** A tree changes on the paths [ps] only. *)
Definition only (ps : list path) (t t' : tree) : Prop := ∀ p, p ∉ ps → t' !! p = t !! p.

Lemma only_insert ps p n t : p ∈ ps → only ps t (<[p := n]> t).
Proof. intros Hp q Hq. rewrite lookup_insert_ne; [done|]. by intros ->. Qed.
Lemma only_delete ps p t : p ∈ ps → only ps t (delete p t).
Proof. intros Hp q Hq. rewrite lookup_delete_ne; [done|]. by intros ->. Qed.
Lemma only_trans ps t t' t'' : only ps t t' → only ps t' t'' → only ps t t''.
Proof. intros H1 H2 p Hp. by rewrite H2, H1. Qed.
Lemma only_weaken ps ps' t t' : (∀ p, p ∈ ps → p ∈ ps') → only ps t t' → only ps' t t'.
Proof. intros Hs Ho p Hp. apply Ho. auto. Qed.
Lemma only_sym ps t t' : only ps t t' → only ps t' t.
Proof. intros Ho p Hp. by rewrite Ho. Qed.

(** What is on the disk for good survives. *)
Lemma left_of_kept t t' p : left_of t t' → (∀ f, t !! p = Some (Regular f) → rg_Synced f = true) → t' !! p = t !! p.
Proof.
  intros Hl Hs. specialize (Hl p). destruct (t !! p) as [n|] eqn:E; [|done]. destruct Hl as (n' & -> & Hsv).
  inversion Hsv as [|f c Hf]; subst; [done|]. by rewrite (Hs f) in Hf.
Qed.

(** ** A patch in progress *)

Section Plan.
Context `{Kernel} `{PatchHost}.
Variables (stateDir : path) (id : string) (base : tree) (items : list transactionItem).
Implicit Types (i j : transactionItem) (t : tree) (p q d : path) (n : option node).

Definition jname : string := id +:+ ".json".
Definition jpath : path := jname :: stateDir.

Definition item_paths i : list path := ti_Path i :: option_list (ti_BackupPath i) ++ option_list (ti_TempPath i).
Definition touched : list path := concat (map item_paths items).

(** The file that is written beside the target. *)
Definition new_file i : regular :=
  let mode := Z.land (default 0 (ti_NewMode i)) 4095 in
  match ti_NewUID i with
  | Some uid => mkRegular (ti_Content i) (kept_mode (kept_mode mode)) uid (default 0 (ti_NewGID i)) true
  | None => mkRegular (ti_Content i) (kept_mode mode) euid egid true
  end.

(** The same file, as far as a snapshot tells, and safe on the disk. *)
Definition same_file n n0 : Prop :=
  match n, n0 with
  | Some (Regular f), Some (Regular f0) => rg_Synced f = true ∧ snapshot_of f = snapshot_of f0
  | None, None => True
  | _, _ => False
  end.

Definition was i : option node := base !! ti_Path i.
Definition target i t : option node := t !! ti_Path i.
Definition backup i t : option node := match ti_BackupPath i with Some b => t !! b | None => None end.
Definition temp i t : option node := match ti_TempPath i with Some m => t !! m | None => None end.
Definition installed i : option node := if ti_NewExists i then Some (Regular (new_file i)) else None.

(** The old file is in its place. *)
Definition old_at i t : Prop := same_file (target i t) (was i) ∧ backup i t = None.

(** The old file is there or in the backup, and the target is one that the
    rollback knows. *)
Definition mid_at i t : Prop :=
  old_at i t ∨
  (ti_ExpectedExists i = true ∧ same_file (backup i t) (was i) ∧
   (target i t = None ∨ target i t = installed i ∨ same_file (target i t) (was i))) ∨
  (ti_ExpectedExists i = false ∧ target i t = installed i).

(** The new file is in its place, as it was asked for. *)
Definition new_at i t : Prop :=
  target i t = installed i ∧ (ti_NewExists i = true → is_new i (Some (snapshot_of (new_file i))) = true).

(** An item as the normalisation and the preflight leave it. *)
Record planned i : Prop := {
  pl_old : ti_ExpectedExists i = true → ∃ f, was i = Some (Regular f) ∧ rg_Synced f = true ∧ is_expected i (Some (snapshot_of f)) = true;
  pl_none : ti_ExpectedExists i = false → was i = None;
  pl_full : ti_ExpectedExists i = true → not_nil (ti_ExpectedMode i) && not_nil (ti_ExpectedUID i) && not_nil (ti_ExpectedGID i) = true;
  pl_backup : is_Some (ti_BackupPath i) ↔ ti_ExpectedExists i = true;
  pl_temp : is_Some (ti_TempPath i) ↔ ti_NewExists i = true;
  pl_fresh : ∀ p, p ∈ option_list (ti_BackupPath i) ++ option_list (ti_TempPath i) → base !! p = None;
  pl_paths : ∀ p, p ∈ item_paths i → p ≠ [] ∧ parent p ≠ stateDir;
  pl_nodup : NoDup (item_paths i);
}.

Hypothesis items_planned : ∀ i, i ∈ items → planned i.
Hypothesis items_apart : ∀ i j, i ∈ items → j ∈ items → i = j ∨ ∀ p, p ∈ item_paths i → p ∉ item_paths j.
Hypothesis items_nodup : NoDup items.
Hypothesis base_synced : ∀ p f, base !! p = Some (Regular f) → rg_Synced f = true.
Hypothesis decode_encode : ∀ k, decode_journal (encode_journal k) = Some (stored k).
Hypothesis state_syncs : sync_fails stateDir = false.
Hypothesis id_hex : hex_id id.

(** Nothing else changes; there is no other journal. *)
Record core t : Prop := {
  co_wf : wf t;
  co_frame : ∀ p, p ≠ [] → p ∉ touched → parent p ≠ stateDir → t !! p = base !! p ∨ (base !! p = None ∧ t !! p = Some Directory);
  co_others : ∀ name, HasSuffix name ".json" = true → name ≠ jname → t !! (name :: stateDir) = None;
}.

Definition dir_ok d : Prop := (d ≠ []) ∧ (d ∉ touched) ∧ base !! d = None ∧ parent d ≠ stateDir.

(** A journal of the patch that is not committed, and one that is. *)
Record open_journal (k : transactionJournal) : Prop := {
  oj_version : tj_Version k = 1;
  oj_items : map strip (tj_Items k) = map strip items;
  oj_phase : tj_Phase k ≠ "committed";
  oj_dirs : ∀ d, d ∈ tj_CreatedDirs k → dir_ok d;
}.
Record closed_journal (k : transactionJournal) : Prop := {
  cj_version : tj_Version k = 1;
  cj_items : map strip (tj_Items k) = map strip items;
  cj_phase : tj_Phase k = "committed";
}.

Definition holds (J : transactionJournal → Prop) n : Prop :=
  ∃ f k, n = Some (Regular f) ∧ rg_Synced f = true ∧ rg_Content f = encode_journal k ∧ J k.

Definition open t : Prop := core t ∧ holds open_journal (t !! jpath) ∧ ∀ i, i ∈ items → mid_at i t.
Definition will_be_old t : Prop := open t ∨ (core t ∧ t !! jpath = None ∧ ∀ i, i ∈ items → old_at i t).
Definition is_updated t : Prop := core t ∧ (t !! jpath = None ∨ holds closed_journal (t !! jpath)) ∧ ∀ i, i ∈ items → new_at i t.
Definition good t : Prop := will_be_old t ∨ is_updated t.

(** ** Paths *)

Lemma in_touched i p : i ∈ items → p ∈ item_paths i → p ∈ touched.
Proof.
  intros Hi Hp. unfold touched. apply list_elem_of_In, in_concat. exists (item_paths i).
  split; [by apply in_map, list_elem_of_In|by apply list_elem_of_In].
Qed.

Lemma of_touched p : p ∈ touched → ∃ i, i ∈ items ∧ p ∈ item_paths i.
Proof.
  intros Hp%list_elem_of_In. apply in_concat in Hp as (l & Hl & Hp). apply in_map_iff in Hl as (i & <- & Hi).
  exists i. by rewrite !list_elem_of_In.
Qed.

Lemma touched_outside p : p ∈ touched → p ≠ [] ∧ parent p ≠ stateDir.
Proof. intros (i & Hi & Hp)%of_touched. by apply (pl_paths i (items_planned i Hi)). Qed.

Lemma state_untouched x : x :: stateDir ∉ touched.
Proof. intros [_ Hx]%touched_outside. by apply Hx. Qed.

Lemma path_in i : ti_Path i ∈ item_paths i.
Proof. by left. Qed.
Lemma backup_in i b : ti_BackupPath i = Some b → b ∈ item_paths i.
Proof. intros E. unfold item_paths. rewrite E. by right; left. Qed.
Lemma temp_in i m : ti_TempPath i = Some m → m ∈ item_paths i.
Proof. intros E. unfold item_paths. rewrite E. right. apply elem_of_app. right. by left. Qed.

(** What is said of an item is about its paths. *)
Definition same_on i t t' : Prop := ∀ p, p ∈ item_paths i → t' !! p = t !! p.
Definition local_to i (F : tree → Prop) : Prop := ∀ t t', same_on i t t' → F t → F t'.

Lemma target_on i t t' : same_on i t t' → target i t' = target i t.
Proof. intros Hs. apply Hs, path_in. Qed.
Lemma backup_on i t t' : same_on i t t' → backup i t' = backup i t.
Proof. intros Hs. unfold backup. destruct (ti_BackupPath i) eqn:E; [|done]. by apply Hs, backup_in. Qed.
Lemma temp_on i t t' : same_on i t t' → temp i t' = temp i t.
Proof. intros Hs. unfold temp. destruct (ti_TempPath i) eqn:E; [|done]. by apply Hs, temp_in. Qed.

Lemma old_local i : local_to i (old_at i).
Proof. intros t t' Hs. unfold old_at. by rewrite (target_on i t t' Hs), (backup_on i t t' Hs). Qed.
Lemma mid_local i : local_to i (mid_at i).
Proof. intros t t' Hs. unfold mid_at, old_at. by rewrite (target_on i t t' Hs), (backup_on i t t' Hs). Qed.
Lemma new_local i : local_to i (new_at i).
Proof. intros t t' Hs. unfold new_at. by rewrite (target_on i t t' Hs). Qed.

Lemma only_state_on ps i t t' : i ∈ items → only ps t t' → (∀ p, p ∈ ps → p ∉ touched) → same_on i t t'.
Proof. intros Hi Ho Hps p Hp. apply Ho. intros Hin. by apply (Hps p Hin), (in_touched i). Qed.

Lemma only_other_on i j t t' : i ∈ items → j ∈ items → j ≠ i → only (item_paths i) t t' → same_on j t t'.
Proof. intros Hi Hj Hne Ho p Hp. apply Ho. intros Hin. by destruct (items_apart i j Hi Hj) as [->|Hap]; [|apply (Hap p)]. Qed.

(** ** Steps *)

Lemma core_item t t' i : core t → i ∈ items → wf t' → only (item_paths i) t t' → core t'.
Proof.
  intros [Hw Hf Ho] Hi Hw' Honly. split; [done| |].
  - intros p Hp Hnt Hpar. rewrite (Honly p); [by apply Hf|]. intros Hin. by apply Hnt, (in_touched i).
  - intros name Hs Hne. rewrite (Honly _); [by apply Ho|]. intros Hin. by eapply state_untouched, in_touched.
Qed.

Lemma jpath_item t t' i : i ∈ items → only (item_paths i) t t' → t' !! jpath = t !! jpath.
Proof. intros Hi Ho. apply Ho. intros Hin. by eapply state_untouched, in_touched. Qed.

(** A step on the paths of one item. *)
Lemma open_item t t' i : open t → i ∈ items → wf t' → only (item_paths i) t t' → mid_at i t' → open t'.
Proof.
  intros (Hc & Hj & Hm) Hi Hw Ho Hmi. split; [by eapply core_item|]. rewrite (jpath_item t t' i Hi Ho). split; [done|].
  intros j Hj'. destruct (items_apart i j Hi Hj') as [->|Hap]; [done|]. apply (mid_local j t); [|by apply Hm].
  intros p Hp. apply Ho. intros Hin. by apply (Hap p).
Qed.

Lemma updated_item t t' i : is_updated t → i ∈ items → wf t' → only (item_paths i) t t' → new_at i t' → is_updated t'.
Proof.
  intros (Hc & Hj & Hm) Hi Hw Ho Hmi. split; [by eapply core_item|]. rewrite (jpath_item t t' i Hi Ho). split; [done|].
  intros j Hj'. destruct (items_apart i j Hi Hj') as [->|Hap]; [done|]. apply (new_local j t); [|by apply Hm].
  intros p Hp. apply Ho. intros Hin. by apply (Hap p).
Qed.

(** A step beside the journal in the state directory. *)
Lemma core_state t t' x : core t → wf t' → only [x :: stateDir] t t' → HasSuffix x ".json" = false → core t'.
Proof.
  intros [Hw Hf Ho] Hw' Honly Hx. split; [done| |].
  - intros p Hp Hnt Hpar. rewrite (Honly p); [by apply Hf|]. intros ->%list_elem_of_singleton. by apply Hpar.
  - intros name Hs Hne. rewrite (Honly _); [by apply Ho|]. intros [= ->]%list_elem_of_singleton. by rewrite Hs in Hx.
Qed.

(** A step on the journal. *)
Lemma core_journal t t' : core t → wf t' → only [jpath] t t' → core t'.
Proof.
  intros [Hw Hf Ho] Hw' Honly. split; [done| |].
  - intros p Hp Hnt Hpar. rewrite (Honly p); [by apply Hf|]. intros ->%list_elem_of_singleton. by apply Hpar.
  - intros name Hs Hne. rewrite (Honly _); [by apply Ho|]. intros [= ->]%list_elem_of_singleton. done.
Qed.

(** A step on a directory that the patch creates. *)
Lemma core_dir t t' d : core t → wf t' → dir_ok d → only [d] t t' → t' !! d = None ∨ t' !! d = Some Directory → core t'.
Proof.
  intros [Hw Hf Ho] Hw' (Hd & Hdt & Hdb & Hds) Honly Hd'. split; [done| |].
  - intros p Hp Hnt Hpar. destruct (decide (p = d)) as [->|Hne]; [rewrite Hdb; by destruct Hd' as [->| ->]; [left|right]|].
    rewrite (Honly p); [by apply Hf|]. by intros ?%list_elem_of_singleton.
  - intros name Hs Hne. rewrite (Honly _); [by apply Ho|]. intros <-%list_elem_of_singleton. by apply Hds.
Qed.

(** ** Losing power *)

Lemma same_file_left t t' p n0 : left_of t t' → same_file (t !! p) n0 → same_file (t' !! p) n0.
Proof.
  intros Hl Hs. rewrite (left_of_kept t t' p Hl); [done|]. intros f E. rewrite E in Hs. by destruct n0 as [[]|]; try destruct Hs.
Qed.

Lemma installed_left i t t' : left_of t t' → target i t = installed i → target i t' = installed i.
Proof.
  intros Hl E. unfold target in *. rewrite (left_of_kept t t' _ Hl); [done|]. intros f Ef. rewrite Ef in E. unfold installed, new_file in E.
  by destruct (ti_NewExists i), (ti_NewUID i); try discriminate E; injection E as ->.
Qed.

Lemma none_left t t' p : left_of t t' → t !! p = None → t' !! p = None.
Proof. intros Hl E. specialize (Hl p). by rewrite E in Hl. Qed.

Lemma backup_same_left i t t' : left_of t t' → same_file (backup i t) (was i) → same_file (backup i t') (was i).
Proof. intros Hl. unfold backup. destruct (ti_BackupPath i); [by apply same_file_left|done]. Qed.

Lemma old_left i t t' : left_of t t' → old_at i t → old_at i t'.
Proof.
  intros Hl [Ht Hb]. split; [by eapply same_file_left|]. unfold backup in *. destruct (ti_BackupPath i); [by eapply none_left|done].
Qed.

Lemma mid_left i t t' : left_of t t' → mid_at i t → mid_at i t'.
Proof.
  intros Hl [Ho|[(He & Hb & Ht)|[He Ht]]]; [left; by eapply old_left|right; left|right; right].
  - split; [done|]. split; [by eapply backup_same_left|]. destruct Ht as [Ht|[Ht|Ht]]; [left; by eapply none_left|right; left; by eapply installed_left|].
    right; right. by eapply same_file_left.
  - split; [done|by eapply installed_left].
Qed.

Lemma core_left t t' : left_of t t' → core t → core t'.
Proof.
  intros Hl [Hw Hf Ho]. split; [by eapply left_of_wf| |].
  - intros p Hp Hnt Hpar. rewrite (left_of_kept t t' p Hl); [by apply Hf|]. intros f Ef. destruct (Hf p Hp Hnt Hpar) as [E|[_ E]].
    + rewrite E in Ef. by eapply base_synced.
    + by rewrite E in Ef.
  - intros name Hs Hne. eapply none_left; [done|]. by apply Ho.
Qed.

Lemma holds_left J t t' : left_of t t' → holds J (t !! jpath) → holds J (t' !! jpath).
Proof.
  intros Hl (f & k & E & Hs & Hc & HJ). exists f, k. split; [|done]. rewrite (left_of_kept t t' _ Hl); [done|].
  intros f' E'. rewrite E in E'. by injection E' as <-.
Qed.

Lemma will_be_old_left t t' : left_of t t' → will_be_old t → will_be_old t'.
Proof.
  intros Hl [(Hc & Hj & Hm)|(Hc & Hj & Ho)]; [left|right]; (split; [by eapply core_left|]).
  - split; [by eapply holds_left|]. intros i Hi. eapply mid_left; [done|]. by apply Hm.
  - split; [by eapply none_left|]. intros i Hi. eapply old_left; [done|]. by apply Ho.
Qed.

Lemma is_updated_left t t' : left_of t t' → is_updated t → is_updated t'.
Proof.
  intros Hl (Hc & Hj & Hn). split; [by eapply core_left|]. split.
  - destruct Hj as [Hj|Hj]; [left; by eapply none_left|right; by eapply holds_left].
  - intros i Hi. destruct (Hn i Hi) as [Ht Hv]. split; [by eapply installed_left|done].
Qed.

Lemma good_left t t' : left_of t t' → good t → good t'.
Proof. intros Hl [Ho|Hu]; [left; by eapply will_be_old_left|right; by eapply is_updated_left]. Qed.

(** ** Looking *)

Section In.
Variable G : tree → Prop.

Lemma check_ancestors_in l P : tri_in G P (check_ancestors l) (λ _, P) P.
Proof.
  induction l as [|p l IH]; cbn [check_ancestors]; [by apply ret_in|]. eapply bind_in; [by apply (look_in _ _ _ (λ _, P))|].
  intros [[]|]; try done; [by apply fail_in|by apply ret_in].
Qed.

Lemma check_write_in p P : tri_in G P (check_write p) (λ _, P) P.
Proof. unfold check_write. destruct (one_of _ _); [by apply fail_in|apply check_ancestors_in]. Qed.

Hypothesis G_wf : ∀ t, G t → wf t.

Lemma pathSnapshot_in p P : p ≠ [] →
  tri_in G P (pathSnapshot p)
    (λ s t, P t ∧ match s with None => t !! p = None | Some s => ∃ f, t !! p = Some (Regular f) ∧ s = snapshot_of f end) P.
Proof.
  intros Hp. unfold pathSnapshot. eapply bind_in; [apply check_write_in|]. intros [].
  eapply bind_in; [apply (look_in _ _ _ (λ n t, P t ∧ n = t !! p)); [|done]|].
  { intros t n Hg HP E. split; [done|]. apply (lstat_wf t); auto. }
  intros [[f| | |]|].
  - destruct (_ <? _); [by apply fail_in; intros t [? _]|]. apply ret_in. intros t _ [HP E]. split; [done|]. by exists f.
  - by apply fail_in; intros t [? _].
  - by apply fail_in; intros t [? _].
  - by apply fail_in; intros t [? _].
  - apply ret_in. by intros t _ [HP E].
Qed.

Lemma pathExists_in p P E : p ≠ [] → tri_in G P (pathExistsLexically p) (λ b t, P t ∧ b = not_nil (t !! p)) E.
Proof.
  intros Hp w fs [Hh HP]. pose proof (held_now _ _ Hh) as Hg. split; [done|]. cbn. split; [done|]. set (t := w_now w) in *.
  destruct (lstat p t) as [n|e] eqn:El0.
  - pose proof (lstat_wf t p (G_wf t Hg) Hp n El0) as ->. by destruct (t !! p).
  - destruct (t !! p) eqn:El; [|done]. destruct p as [|x q]; [done|]. cbn [lstat] in El0.
    assert (walk t q = Reached) as Hwalk by (apply (G_wf t Hg x); by eexists). by rewrite Hwalk in El0.
Qed.

Lemma matches_in {A} (p : path) (test : option fileSnapshot → A) P : p ≠ [] →
  tri_in G P (s ← pathSnapshot p; mret (test s))
    (λ b t, P t ∧ ∃ s, b = test s ∧ match s with None => t !! p = None | Some s => ∃ f, t !! p = Some (Regular f) ∧ s = snapshot_of f end) P.
Proof.
  intros Hp. eapply bind_in; [by apply (pathSnapshot_in p P)|]. intros s. apply ret_in. intros t _ [HP E]. split; [done|]. by exists s.
Qed.

Lemma or_false_in (m : io world bool) P (Q : bool → tree → Prop) :
  tri_in G P m Q P → tri_in G P (or_false m) (λ b t, if b then Q true t else Q false t ∨ P t) (λ _, False).
Proof.
  intros Hm. unfold or_false. eapply bind_in; [eapply try_in; exact Hm|]. intros [b|e]; apply ret_in; intros t _ HQ; [|by right].
  destruct b; [done|by left].
Qed.
End In.

(** ** The rollback of an item *)

Section Rollback.
Variable G : tree → Prop.
Hypothesis G_wf : ∀ t, G t → wf t.
Hypothesis G_old : ∀ t, will_be_old t → G t.

Definition beside i (F : tree → Prop) : Prop := ∀ t t', only (item_paths i) t t' → F t → F t'.

Lemma open_wf t : open t → wf t.
Proof. intros ([] & _ & _). done. Qed.

Lemma item_call {A : Type} i F (f : step A) (P : tree → Prop) (Q : A → tree → Prop) :
  i ∈ items → beside i F →
  (∀ t a t', open t → wf t → P t → f t = Ok (a, t') → wf t' ∧ only (item_paths i) t t' ∧ mid_at i t' ∧ Q a t') →
  tri_in G (λ t, (open t ∧ F t) ∧ P t) (call f) (λ a t, (open t ∧ F t) ∧ Q a t) (λ t, (open t ∧ F t) ∧ P t).
Proof.
  intros Hi HF Hf. apply call_in; [|done]. intros t a t' _ [[Ho Ht] HP] E.
  destruct (Hf t a t' Ho (open_wf t Ho) HP E) as (Hw & Honly & Hm & HQ).
  assert (open t') as Ho' by (by apply (open_item t t' i)). split; [apply G_old; by left|]. split; [|done]. split; [done|by eapply HF].
Qed.

Lemma remove_item i F p (P Q : tree → Prop) :
  i ∈ items → beside i F → p ∈ item_paths i →
  (∀ t, open t → P t → is_Some (t !! p) → mid_at i (delete p t) ∧ Q (delete p t)) →
  tri_in G (λ t, (open t ∧ F t) ∧ P t) (call (remove p)) (λ _ t, (open t ∧ F t) ∧ Q t) (λ t, (open t ∧ F t) ∧ P t).
Proof.
  intros Hi HF Hp HQ. apply (item_call i); [done..|]. intros t a t' Ho Hw HP E.
  apply remove_Ok in E as (-> & Hw' & Hs); [|done|by apply (pl_paths i (items_planned i Hi))].
  destruct (HQ t Ho HP Hs) as [Hm HQ']. split_and!; [done|by apply only_delete|done..].
Qed.

Lemma rename_item i F s d (P Q : tree → Prop) :
  i ∈ items → beside i F → s ∈ item_paths i → d ∈ item_paths i → s ≠ d →
  (∀ t (x : node), open t → P t → t !! s = Some x → t !! d = None →
     mid_at i (<[d := x]> t) ∧ mid_at i (<[d := x]> (delete s t)) ∧ Q (<[d := x]> (delete s t))) →
  tri_in G (λ t, (open t ∧ F t) ∧ P t) (renameNoReplace s d) (λ _ t, (open t ∧ F t) ∧ Q t) (λ t, open t ∧ F t).
Proof.
  intros Hi HF Hs Hd Hne HQ. pose proof (pl_paths i (items_planned i Hi)) as Hpl. destruct (Hpl s Hs) as [Hs0 _], (Hpl d Hd) as [Hd0 _].
  unfold renameNoReplace. destruct rename_flags.
  - eapply conseq_in; [eapply (item_call i F _ P (λ _, Q)); [done..|]|done|done|by intros t _ [? _]].
    intros t a t' Ho Hw HP E. apply move_new_Ok in E as (n & En & Ed & -> & Hw' & _); [|done..].
    destruct (HQ t n Ho HP En Ed) as (_ & Hm & HQ'). split_and!; [done| |done..].
    eapply only_trans; [by apply (only_delete _ s)|by apply only_insert].
  - set (R := λ t : tree, ∃ (t0 : tree) (x : node), open t0 ∧ P t0 ∧ t0 !! s = Some x ∧ t0 !! d = None ∧ t = <[d := x]> t0).
    eapply bind_in with (R := λ r t, (open t ∧ F t) ∧ match r with Ok _ => R t | Err _ => True end).
    + eapply conseq_in; [eapply try_in, (item_call i F (link s d) P (λ _, R)); [done..|]|done| |].
      * intros t a t' Ho Hw HP E. apply link_Ok in E as (n & En & Ed & -> & Hw'); [|done..].
        destruct (HQ t n Ho HP En Ed) as (Hm & _). split_and!; [done|by apply only_insert|done|by exists t, n].
      * intros [u|e] t _; [by intros [? ?]|by intros [? _]].
      * exact (λ t _ (X : False), match X with end).
    + intros [u|e]; [|apply fail_in; by intros t [? _]].
      eapply conseq_in; [eapply (remove_item i F s R (λ t, Q t)); [done..|]|done|done|by intros t _ [? _]].
      intros t Ho (t0 & n & Ho0 & HP0 & En & Ed & ->) _. destruct (HQ t0 n Ho0 HP0 En Ed) as (_ & Hm & HQ').
      by rewrite delete_insert_ne.
Qed.

Lemma backup_ne i b : planned i → ti_BackupPath i = Some b → ti_Path i ≠ b.
Proof. intros Hp E. pose proof (pl_nodup i Hp) as Hnd. unfold item_paths in Hnd. rewrite E in Hnd. apply NoDup_cons in Hnd as [Hnd _]. intros Eb. apply Hnd. rewrite Eb. by left. Qed.
Lemma temp_ne i m : planned i → ti_TempPath i = Some m → ti_Path i ≠ m.
Proof.
  intros Hp E. pose proof (pl_nodup i Hp) as Hnd. unfold item_paths in Hnd. rewrite E in Hnd. apply NoDup_cons in Hnd as [Hnd _].
  intros Em. apply Hnd. rewrite Em. apply elem_of_app. right. by left.
Qed.
Lemma backup_temp_ne i b m : planned i → ti_BackupPath i = Some b → ti_TempPath i = Some m → b ≠ m.
Proof.
  intros Hp E Em. pose proof (pl_nodup i Hp) as Hnd. unfold item_paths in Hnd. rewrite E, Em in Hnd. cbn in Hnd.
  apply NoDup_cons in Hnd as [_ Hnd]. apply NoDup_cons in Hnd as [Hnd _]. intros ->. apply Hnd. by left.
Qed.

Lemma expected_unique i s s' :
  planned i → ti_ExpectedExists i = true → is_expected i (Some s) = true → is_expected i (Some s') = true → s = s'.
Proof.
  intros Hp He. pose proof (pl_full i Hp He) as Hf. unfold is_expected, snapshotMatches.
  destruct (ti_ExpectedMode i), (ti_ExpectedUID i), (ti_ExpectedGID i); try discriminate. cbn [agrees].
  intros E E'. repeat (apply andb_true_iff in E as [E ?]; apply andb_true_iff in E' as [E' ?]).
  apply String.eqb_eq in E, E'.
  repeat match goal with X : (_ =? _) = true |- _ => apply Z.eqb_eq in X end. destruct s, s'. cbn in *. f_equal; congruence.
Qed.

(** A target that is as expected is the old file. *)
Lemma expected_same i n f :
  planned i → ti_ExpectedExists i = true → n = Some (Regular f) → rg_Synced f = true → is_expected i (Some (snapshot_of f)) = true → same_file n (was i).
Proof.
  intros Hp He -> Hs E. destruct (pl_old i Hp He) as (f0 & -> & _ & E0). split; [done|]. by eapply expected_unique.
Qed.

(** The backup is there and the target is not. *)
Definition restorable i t : Prop := ti_ExpectedExists i = true ∧ same_file (backup i t) (was i) ∧ target i t = None.

Lemma was_there i : planned i → ti_ExpectedExists i = true → ¬ same_file None (was i).
Proof. intros Hp He. destruct (pl_old i Hp He) as (f & -> & _). intros X. exact X. Qed.

Lemma target_synced i t f : planned i → mid_at i t → target i t = Some (Regular f) → rg_Synced f = true.
Proof.
  intros Hp Hm E. assert (target i t = installed i → rg_Synced f = true) as Hin.
  { rewrite E. unfold installed, new_file. destruct (ti_NewExists i), (ti_NewUID i); try discriminate; by intros [= ->]. }
  assert (same_file (target i t) (was i) → rg_Synced f = true) as Hsame.
  { rewrite E. destruct (was i) as [[]|]; try done. by intros [? _]. }
  destruct Hm as [[Ht _]|[(_ & _ & [Ht|[Ht|Ht]])|[_ Ht]]]; auto. by rewrite E in Ht.
Qed.

Lemma collect_in m (P Q E : tree → Prop) :
  tri_in G P m (λ _, Q) E → tri_in G P (collect_error m) (λ errors t, (errors = [] ∧ Q t) ∨ (errors ≠ [] ∧ E t)) (λ _, False).
Proof.
  intros Hm. unfold collect_error. eapply bind_in; [eapply try_in; exact Hm|]. intros [[]|e]; apply ret_in; intros t _ Ht; [by left|by right].
Qed.

Section Item.
Variables (i : transactionItem) (F : tree → Prop).
Hypothesis (Hi : i ∈ items) (HF : beside i F).
Let Hpl : planned i := items_planned i Hi.

Lemma drop_backup_in b :
  ti_BackupPath i = Some b →
  tri_in G (λ t, (open t ∧ F t) ∧ same_file (target i t) (was i)) (drop_backup i b)
    (λ s t, (open t ∧ F t) ∧ sg_Target s = true ∧ (sg_Errors s = [] → old_at i t)) (λ _, False).
Proof.
  intros Eb. unfold drop_backup. eapply bind_in.
  - apply (collect_in _ _ (λ t, (open t ∧ F t) ∧ old_at i t) (λ t, open t ∧ F t)). eapply bind_in with (R := λ _ t, (open t ∧ F t) ∧ old_at i t).
    + eapply conseq_in; [apply (remove_item i F b (λ t, same_file (target i t) (was i)) (λ t, old_at i t) Hi HF (backup_in i b Eb))|done|done|by intros t _ [? _]].
      intros t Ho Hs _. assert (old_at i (delete b t)) as Hold; [|by split; [left|]].
      split; [|unfold backup; rewrite Eb; apply lookup_delete_eq]. unfold target. rewrite lookup_delete_ne; [done|].
      intros ->. by apply (backup_ne i _ Hpl Eb).
    + intros []. apply sync_to. by intros t [? _].
  - intros errors. apply ret_in. intros t _ [(-> & ? & ?)|[Hne Ht]]; (split; [done|]; split; [done|]); cbn; [done|]. by intros ->.
Qed.

Lemma target_gone t : open t → ti_ExpectedExists i = not_nil (backup i t) → is_Some (target i t) →
  mid_at i (delete (ti_Path i) t) ∧
  (if ti_ExpectedExists i then restorable i (delete (ti_Path i) t) else old_at i (delete (ti_Path i) t)).
Proof.
  intros (_ & _ & Hm) Hb Ht. specialize (Hm i Hi). set (t' := delete (ti_Path i) t).
  assert (target i t' = None) as Et by apply lookup_delete_eq.
  assert (backup i t' = backup i t) as Ebk.
  { unfold backup, t'. destruct (ti_BackupPath i) as [b|] eqn:Eb; [|done]. rewrite lookup_delete_ne; [done|]. by apply (backup_ne i). }
  destruct (ti_ExpectedExists i) eqn:He.
  - assert (same_file (backup i t') (was i)) as Hs.
    { rewrite Ebk. destruct Hm as [[_ Hno]|[(_ & Hs & _)|[He2 _]]]; [by rewrite Hno in Hb|done|by rewrite He in He2]. }
    split; [|by split_and!]. right; left. split_and!; [done..|by left].
  - assert (old_at i t') as Ho; [|by split; [left|]]. split; [by rewrite Et, (pl_none i Hpl He)|]. rewrite Ebk.
    by destruct (backup i t).
Qed.

Lemma drop_target_in be :
  tri_in G (λ t, (open t ∧ F t) ∧ be = not_nil (backup i t) ∧ ti_ExpectedExists i = be) (drop_target i be)
    (λ s t, (open t ∧ F t) ∧ (if sg_Backup s && negb (sg_Target s) then restorable i t else sg_Errors s = [] → old_at i t)) (λ _, False).
Proof.
  unfold drop_target. eapply bind_in.
  - eapply try_in, (remove_item i F (ti_Path i) _ (λ t, if be then restorable i t else old_at i t) Hi HF (path_in i)).
    intros t Ho [Eb He] Hs. destruct (target_gone t Ho) as [Hm Hr]; [congruence|done|]. rewrite He in Hr. by split.
  - intros [u|e]; [|apply ret_in; intros t _ [? _]; split; [done|]; cbn; by rewrite andb_false_r].
    eapply bind_in; [apply collect_in, sync_in|]. intros errors. apply ret_in. intros t _ Ht.
    assert ((open t ∧ F t) ∧ if be then restorable i t else old_at i t) as [? Hr] by (by destruct Ht as [[_ ?]|[_ ?]]).
    split; [done|]. cbn. revert Hr. destruct be; intros Hr; [exact Hr|intros _; exact Hr].
Qed.

Lemma rollback_target_in b be te :
  (∀ b', ti_BackupPath i = Some b' → b' = b) →
  tri_in G (λ t, (open t ∧ F t) ∧ be = not_nil (backup i t) ∧ te = not_nil (target i t)) (rollback_target i b be te)
    (λ s t, (open t ∧ F t) ∧ (if sg_Backup s && negb (sg_Target s) then restorable i t else sg_Errors s = [] → old_at i t)) (λ _, False).
Proof.
  intros Hb. unfold rollback_target. destruct (ti_ExpectedExists i && negb be) eqn:Hcase.
  { apply andb_true_iff in Hcase as [He Hbe]. apply negb_true_iff in Hbe as ->. apply ret_in. intros t _ (Ht & Ebe & Ete).
    split; [done|]. cbn. intros Herr. destruct Ht as [(_ & _ & Hm) _]. destruct (Hm i Hi) as [?|[(_ & Hs & _)|[He2 _]]]; [done| |by rewrite He in He2].
    destruct (backup i t); [done|]. by apply (was_there i Hpl He) in Hs. }
  assert (∀ t, be = not_nil (backup i t) → ti_ExpectedExists i = be) as Hbe.
  { intros t Ebe. destruct be; [|by destruct (ti_ExpectedExists i)]. apply (pl_backup i Hpl). unfold backup in Ebe. by destruct (ti_BackupPath i). }
  destruct te.
  - eapply bind_in with (R := λ o t, ((open t ∧ F t) ∧ be = not_nil (backup i t)) ∧ (o = true → be = true ∧ same_file (target i t) (was i))).
    { destruct (ti_ExpectedExists i && be) eqn:Heb.
      - apply andb_true_iff in Heb as [He ->]. eapply conseq_in.
        + apply or_false_in. apply (matches_in G G_wf (ti_Path i) (is_expected i) (λ t, (open t ∧ F t) ∧ true = not_nil (backup i t))).
          apply (pl_paths i Hpl), path_in.
        + by intros t _ (? & ? & _).
        + cbv beta. intros [] t _ Ht; [|split; [|discriminate]; destruct Ht as [[? _]|?]; done].
          destruct Ht as (Ht & s & Es & Hs). split; [done|]. intros _. split; [done|]. destruct s as [s|]; [|discriminate Es]. destruct Hs as (f & Ef & ->).
          apply (expected_same i _ f Hpl He Ef); [|done]. apply (target_synced i t f Hpl); [|done]. destruct Ht as [[(_ & _ & Hm) _] _]. by apply Hm.
        + by intros t _ [].
      - apply ret_in. intros t _ (Ht & Eb & _). split; [done|discriminate]. }
    intros o. eapply bind_in with (R := λ _ t, ((open t ∧ F t) ∧ be = not_nil (backup i t)) ∧ (o = true → be = true ∧ same_file (target i t) (was i))).
    { destruct (ti_NewExists i); [|by apply ret_in]. eapply conseq_in.
      - apply or_false_in. apply (matches_in G G_wf (ti_Path i) (is_new i)). apply (pl_paths i Hpl), path_in.
      - intros t _ Ht. exact Ht.
      - intros [] t _ Ht; [by destruct Ht|]. by destruct Ht as [[? _]|?].
      - by intros t _ []. }
    intros n. destruct o.
    + destruct (ti_BackupPath i) as [b'|] eqn:Eb.
      * rewrite (Hb b' eq_refl) in Eb. eapply conseq_in; [apply (drop_backup_in b Eb)| | |done].
        -- intros t _ [[Ht _] Hs]. split; [done|]. by apply Hs.
        -- intros s t _ (Ht & Est & Hold). split; [done|]. by rewrite Est, andb_false_r.
      * apply absurd_in. intros t _ [[_ Ebe] Hs]. destruct (Hs eq_refl) as [-> _]. unfold backup in Ebe. by rewrite Eb in Ebe.
    + destruct n.
      * eapply conseq_in; [apply (drop_target_in be)| |done|done]. intros t _ [[Ht Ebe] _]. split; [done|]. split; [done|by eapply Hbe].
      * apply ret_in. intros t _ [[Ht _] _]. split; [done|]. cbn. by rewrite andb_false_r.
  - apply ret_in. intros t _ (Ht & Ebe & Ete). split; [done|]. cbn. pose proof (Hbe t Ebe) as He. destruct Ht as [(_ & _ & Hm) _]. specialize (Hm i Hi).
    assert (target i t = None) as Et by by destruct (target i t).
    destruct be; cbn.
    + split_and!; [done| |done]. destruct Hm as [[_ Hno]|[(_ & Hs & _)|[He2 _]]]; [by rewrite Hno in Ebe|done|by rewrite He in He2].
    + intros _. split; [by rewrite Et, (pl_none i Hpl He)|by destruct (backup i t)].
Qed.

(** A backup comes back. *)
Lemma restore_in b :
  ti_BackupPath i = Some b →
  tri_in G (λ t, (open t ∧ F t) ∧ restorable i t) (restore_backup i b) (λ _ t, (open t ∧ F t) ∧ old_at i t) (λ t, open t ∧ F t).
Proof.
  intros Eb. pose proof (backup_ne i b Hpl Eb) as Hne. pose proof (pl_paths i Hpl b (backup_in i b Eb)) as [Hb0 _]. unfold restore_backup.
  eapply bind_in with (R := λ _ t, (open t ∧ F t) ∧ restorable i t).
  { eapply conseq_in; [apply (pathSnapshot_in G G_wf b _ Hb0)|intros t _ Ht; exact Ht|by intros s t _ [? _]|by intros t _ [? _]]. }
  intros _s. eapply bind_in with (R := λ _ t, (open t ∧ F t) ∧ old_at i t).
  - apply (rename_item i F b (ti_Path i) _ _ Hi HF (backup_in i b Eb) (path_in i)); [by apply not_eq_sym|].
    intros t x Ho (He & Hs & Ht) Ex Hno. assert (backup i t = Some x) as Ebk by (unfold backup; by rewrite Eb). rewrite Ebk in Hs.
    assert (old_at i (<[ti_Path i := x]> (delete b t))) as Hold.
    { split; [unfold target; by rewrite lookup_insert_eq|]. unfold backup. by rewrite Eb, lookup_insert_ne, lookup_delete_eq by done. }
    split_and!; [|by left|done]. right; left. split; [done|].
    assert (backup i (<[ti_Path i := x]> t) = Some x) as -> by (unfold backup in *; rewrite Eb in *; by rewrite lookup_insert_ne).
    split; [done|]. right; right. unfold target. by rewrite lookup_insert_eq.
  - intros []. apply sync_to. by intros t [? _].
Qed.

Lemma remove_there_in m (P : tree → Prop) :
  m ∈ item_paths i → (∀ t, open t → P t → is_Some (t !! m) → mid_at i (delete m t) ∧ P (delete m t)) →
  tri_in G (λ t, (open t ∧ F t) ∧ P t) (remove_if_there m) (λ _ t, (open t ∧ F t) ∧ P t) (λ t, (open t ∧ F t) ∧ P t).
Proof.
  intros Hm HP. unfold remove_if_there. eapply bind_in; [eapply try_in, (remove_item i F m P P Hi HF Hm HP)|].
  intros [[]|e]; [by apply ret_in|]. destruct (e =s ENOENT); [by apply ret_in|by apply fail_in].
Qed.

Lemma temp_deleted t m : ti_TempPath i = Some m → target i (delete m t) = target i t ∧ backup i (delete m t) = backup i t.
Proof.
  intros Em. split.
  - unfold target. rewrite lookup_delete_ne; [done|]. by apply not_eq_sym, temp_ne.
  - unfold backup. destruct (ti_BackupPath i) as [b|] eqn:Eb; [|done]. rewrite lookup_delete_ne; [done|]. by apply not_eq_sym, (backup_temp_ne i).
Qed.

Lemma old_deleted t m : ti_TempPath i = Some m → old_at i t → old_at i (delete m t).
Proof. intros Em. destruct (temp_deleted t m Em) as [E1 E2]. unfold old_at. by rewrite E1, E2. Qed.

Lemma mid_deleted t m : ti_TempPath i = Some m → mid_at i t → mid_at i (delete m t).
Proof. intros Em. destruct (temp_deleted t m Em) as [E1 E2]. unfold mid_at, old_at. by rewrite E1, E2. Qed.

Lemma remove_temp_in (P : tree → Prop) :
  (∀ t m, ti_TempPath i = Some m → P t → P (delete m t)) →
  tri_in G (λ t, (open t ∧ F t) ∧ P t) (remove_all (option_list (ti_TempPath i))) (λ _ t, (open t ∧ F t) ∧ P t) (λ _, False).
Proof.
  intros HP. destruct (ti_TempPath i) as [m|] eqn:Em; cbn; [|by apply ret_in].
  eapply bind_in.
  - apply (collect_in _ _ (λ t, (open t ∧ F t) ∧ P t)). apply (remove_there_in m P (temp_in i m Em)). intros t Ho Ht _. split; [|by apply HP].
    apply (mid_deleted t m Em). destruct Ho as (_ & _ & Hm). by apply Hm.
  - intros errors. eapply bind_in with (R := λ _ t, (open t ∧ F t) ∧ P t); [|intros rest; by apply ret_in].
    apply ret_in. by intros t _ [[_ ?]|[_ ?]].
Qed.

Lemma rollback_item_in :
  tri_in G (λ t, open t ∧ F t) (rollback_item i) (λ r t, (open t ∧ F t) ∧ (r.1 = [] → old_at i t)) (λ _, False).
Proof.
  unfold rollback_item. cbv zeta. set (b := default [] (ti_BackupPath i)).
  assert (∀ b', ti_BackupPath i = Some b' → b' = b) as Hb by (intros b' E; unfold b; by rewrite E).
  eapply bind_in with (R := λ be t, (open t ∧ F t) ∧ be = not_nil (backup i t)).
  { unfold backup. destruct (ti_BackupPath i) as [b'|] eqn:Eb; cbn [is_nil]; [|apply ret_in; by intros]. rewrite <- (Hb b' eq_refl).
    apply (pathExists_in G G_wf b'). by apply (pl_paths i Hpl), backup_in. }
  intros be. eapply bind_in with (R := λ te t, ((open t ∧ F t) ∧ be = not_nil (backup i t)) ∧ te = not_nil (target i t)).
  { apply (pathExists_in G G_wf (ti_Path i)). by apply (pl_paths i Hpl), path_in. }
  intros te. eapply bind_in.
  { eapply conseq_in; [apply (rollback_target_in b be te Hb)|by intros t _ [[? ?] ?]|done|done]. }
  intros s. eapply bind_in with (R := λ restored t, (open t ∧ F t) ∧ (sg_Errors s ++ restored = [] → old_at i t)).
  { destruct (sg_Backup s && negb (sg_Target s)).
    - destruct (ti_BackupPath i) as [b'|] eqn:Eb.
      + rewrite (Hb b' eq_refl) in Eb. eapply conseq_in; [apply collect_in, (restore_in b Eb)|done| |done].
        cbv beta. intros errors t _ [(-> & ? & ?)|[Hne ?]]; [done|]. split; [done|]. intros E. by apply app_eq_nil in E as [_ ->].
      + apply absurd_in. intros t _ [_ (He & Hs & _)]. unfold backup in Hs. rewrite Eb in Hs. by apply (was_there i Hpl He) in Hs.
    - apply ret_in. intros t _ [Ht Ho]. split; [done|]. by rewrite app_nil_r. }
  intros restored. eapply bind_in.
  { apply (remove_temp_in (λ t, sg_Errors s ++ restored = [] → old_at i t)). intros t m Em Ho E. apply (old_deleted t m Em), Ho, E. }
  intros temps. apply ret_in. intros t _ [Ht Ho]. split; [done|]. cbn. rewrite app_assoc. intros E. apply app_eq_nil in E as [E _]. auto.
Qed.
End Item.

Lemma rollback_items_in l F :
  (∀ i, i ∈ l → i ∈ items) → NoDup l → (∀ i, i ∈ l → beside i F) →
  tri_in G (λ t, open t ∧ F t) (rollback_items l) (λ r t, (open t ∧ F t) ∧ (r.1 = [] → ∀ i, i ∈ l → old_at i t)) (λ _, False).
Proof.
  revert F. induction l as [|i l IH]; intros F Hl Hnd HF.
  - apply ret_in. intros t _ Ht. split; [done|]. by intros _ i ?%not_elem_of_nil.
  - apply NoDup_cons in Hnd as [Hni Hnd]. cbn [rollback_items]. eapply bind_in.
    + apply (rollback_item_in i F); [apply Hl|apply HF]; by left.
    + intros [errors removed]. cbn [fst]. eapply bind_in.
      * eapply conseq_in; [apply (IH (λ t, F t ∧ (errors = [] → old_at i t)))| |intros r t _ Ht; exact Ht|done].
        -- intros j Hj. apply Hl. by right.
        -- done.
        -- intros j Hj t t' Honly [Ht Ho]. split; [apply (HF j) with t; [by right|done..]|]. intros E. apply (old_local i t); [|by apply Ho].
           apply (only_other_on j i); [apply Hl; by right|apply Hl; by left|by intros ->|done].
        -- by intros t _ [[? ?] ?].
      * intros [errors' removed']. apply ret_in. cbn [fst]. intros t _ [[Ho [Ht Hi]] Hr]. split; [done|]. intros E.
        apply app_eq_nil in E as [-> ->]. intros j [->|Hj]%elem_of_cons; [by apply Hi|by apply Hr].
Qed.

(** A step beside the files of the patch and its journal. *)
Lemma open_beside t t' ps :
  open t → core t' → only ps t t' → (∀ p, p ∈ ps → p ∉ touched) → jpath ∉ ps → open t'.
Proof.
  intros (Hc & Hj & Hm) Hc' Ho Hps Hjp. split; [done|]. rewrite (Ho jpath Hjp). split; [done|]. intros i Hi. apply (mid_local i t); [|by apply Hm].
  by apply (only_state_on ps).
Qed.

(** A property of the files of the patch. *)
Definition on_touched (F : tree → Prop) : Prop := ∀ t t', (∀ p, p ∈ touched → t' !! p = t !! p) → F t → F t'.

Lemma dir_not_jpath d : dir_ok d → jpath ∉ [d].
Proof. intros (_ & _ & _ & Hd) <-%list_elem_of_singleton. by apply Hd. Qed.

Lemma rollback_dir_in d F :
  dir_ok d → on_touched F → tri_in G (λ t, open t ∧ F t) (rollback_dir d) (λ _ t, open t ∧ F t) (λ _, False).
Proof.
  intros Hd HF. unfold rollback_dir. eapply bind_in.
  - eapply try_in, (call_in _ _ (λ t, open t ∧ F t) (λ _ t, open t ∧ F t)); [|intros t Ht; exact Ht]. intros t u t' _ [Ho Ht] E.
    apply remove_Ok in E as (-> & Hw & _); [|by apply open_wf|apply Hd].
    assert (only [d] t (delete d t)) as Honly by (by apply only_delete, list_elem_of_singleton).
    assert (∀ p, p ∈ [d] → p ∉ touched) as Hdt by (intros p ->%list_elem_of_singleton; apply Hd).
    assert (open (delete d t)) as Ho'.
    { apply (open_beside t _ [d]); [done| |done..|by apply dir_not_jpath]. apply (core_dir t _ d); [apply Ho|done..|left; apply lookup_delete_eq]. }
    split; [apply G_old; by left|]. split; [done|]. apply (HF t); [|done]. intros p Hp. apply Honly. intros Hin. by apply (Hdt p).
  - intros [u|e]; [|by apply ret_in]. eapply conseq_in; [apply collect_in, sync_in|intros t _ Ht; exact Ht| |done]. by intros errors t _ [[_ ?]|[_ ?]].
Qed.

Lemma rollback_dirs_in ds F :
  (∀ d, d ∈ ds → dir_ok d) → on_touched F → tri_in G (λ t, open t ∧ F t) (rollback_dirs ds) (λ _ t, open t ∧ F t) (λ _, False).
Proof.
  intros Hds HF. induction ds as [|d ds IH]; [by apply ret_in|]. cbn [rollback_dirs].
  eapply bind_in; [apply rollback_dir_in; [apply Hds; by left|done]|]. intros errors.
  eapply bind_in; [apply IH; intros d' Hd'; apply Hds; by right|]. intros errors'. by apply ret_in.
Qed.

Lemma rollback_items_strip l : rollback_items (map strip l) = rollback_items l.
Proof. induction l as [|i l IH]; [done|]. cbn [map rollback_items]. rewrite IH. reflexivity. Qed.

Lemma rollback_items_of l : map strip l = map strip items → rollback_items (rev l) = rollback_items (rev items).
Proof. intros E. by rewrite <- (rollback_items_strip (rev l)), <- (rollback_items_strip (rev items)), !map_rev, E. Qed.

Definition all_old t : Prop := ∀ i, i ∈ items → old_at i t.

Lemma all_old_touched : on_touched all_old.
Proof. intros t t' Hs Ho i Hi. apply (old_local i t); [|by apply Ho]. intros p Hp. by apply Hs, (in_touched i). Qed.

(** A rollback that reports no error has put every old file back. *)
Lemma rollback_in k :
  map strip (tj_Items k) = map strip items → (∀ d, d ∈ tj_CreatedDirs k → dir_ok d) →
  tri_in G open (rollbackTransaction k) (λ r t, open t ∧ (r.1 = [] → all_old t)) (λ _, False).
Proof.
  intros Hk Hds. unfold rollbackTransaction. rewrite (rollback_items_of _ Hk). eapply bind_in.
  - eapply conseq_in; [apply (rollback_items_in (rev items) (λ _, True))|by intros t _ ?|intros r t _ Ht; exact Ht|done].
    + intros i Hi. by apply list_elem_of_In, in_rev, list_elem_of_In.
    + by apply NoDup_ListNoDup, NoDup_rev, NoDup_ListNoDup.
    + done.
  - intros [errors removed]. cbn [fst]. eapply bind_in.
    + eapply conseq_in; [apply (rollback_dirs_in (rev (tj_CreatedDirs k)) (λ t, errors = [] → all_old t))| |intros r t _ Ht; exact Ht|done].
      * intros d Hd. apply Hds. by apply list_elem_of_In, in_rev, list_elem_of_In.
      * intros t t' Hs Ho E. by apply (all_old_touched t), Ho.
      * intros t _ [[Ho _] Hr]. split; [done|]. intros E i Hi. apply Hr; [done|]. by apply list_elem_of_In, in_rev, list_elem_of_In in Hi.
    + intros errors'. apply ret_in. cbn [fst]. intros t _ [Ho Hr]. split; [done|]. intros E. apply app_eq_nil in E as [-> _]. auto.
Qed.
End Rollback.

(** ** Journals in the state directory *)

Lemma has_prefix_app (l r : list ascii) : has_prefix (l ++ r) l = true.
Proof. induction l as [|a l IH]; cbn; [by destruct r|]. by rewrite Ascii.eqb_refl. Qed.

Lemma jname_suffix : HasSuffix jname ".json" = true.
Proof. unfold HasSuffix, jname. rewrite bytes_app, rev_app_distr. apply has_prefix_app. Qed.

Lemma in_children d t name (x : node) : (name, x) ∈ children d t ↔ t !! (name :: d) = Some x.
Proof.
  unfold children. rewrite list_elem_of_omap. split.
  - intros ([p n'] & Hin%elem_of_map_to_list & E). destruct p as [|y q]; [discriminate|]. destruct (bool_decide_reflect (q = d)) as [->|]; [|discriminate].
    by injection E as -> ->.
  - intros E. exists (name :: d, x). split; [by apply elem_of_map_to_list|]. by rewrite bool_decide_eq_true_2.
Qed.

Lemma children_names d t : NoDup (children d t).*1.
Proof.
  unfold children. pose proof (NoDup_fst_map_to_list t) as Hnd. induction (map_to_list t) as [|[p n] l IH]; [constructor|].
  cbn in Hnd. apply NoDup_cons in Hnd as [Hno Hnd]. specialize (IH Hnd). destruct p as [|x q]; cbn; [done|].
  destruct (bool_decide_reflect (q = d)) as [->|]; [|done]. cbn. constructor; [|done]. intros Hin. apply Hno.
  apply list_elem_of_fmap in Hin as ([y m] & -> & Hin). apply list_elem_of_omap in Hin as ([p n'] & Hin & E). destruct p as [|z q]; [discriminate|].
  destruct (bool_decide_reflect (q = d)) as [->|]; [|discriminate]. injection E as -> ->. apply list_elem_of_fmap. by eexists (_, _).
Qed.

Lemma filter_names (l : list (string * node)) : NoDup l.*1 → NoDup (List.filter is_journal l).*1.
Proof.
  induction l as [|x l IH]; [done|]. cbn. intros [Hno Hnd]%NoDup_cons. destruct (is_journal x); [|by apply IH]. cbn. constructor; [|by apply IH].
  intros Hin. apply Hno. apply list_elem_of_fmap in Hin as (y & E & Hy). apply list_elem_of_fmap. exists y. split; [done|].
  apply list_elem_of_In, filter_In in Hy as [Hy _]. by apply list_elem_of_In.
Qed.

(** The journals that are found: that of the patch, where there is one. *)
Lemma names_found t names :
  core t → journal_names stateDir t = Ok names →
  (t !! jpath = None → names = []) ∧ (∀ f, t !! jpath = Some (Regular f) → names = [jname]).
Proof.
  intros [Hw _ Ho] E. unfold journal_names in E.
  assert (∀ name, name ∈ map fst (List.filter is_journal (children stateDir t)) → name = jname ∧ is_Some (t !! jpath)) as Hnames.
  { intros name Hin%list_elem_of_In. apply in_map_iff in Hin as ([x n] & <- & Hin). apply filter_In in Hin as [Hin%list_elem_of_In%in_children Hj].
    cbn [fst] in *. destruct (decide (x = jname)) as [->|Hne]; [split; [done|by eexists]|].
    rewrite (Ho x) in Hin; [discriminate| |done]. cbn in Hj. by destruct n. }
  assert (NoDup (map fst (List.filter is_journal (children stateDir t)))) as Hnd by apply filter_names, children_names.
  set (l := map fst _) in *. destruct (walk t stateDir) eqn:Ewalk; [| |discriminate].
  - injection E as <-. split.
    + intros Ej. destruct l as [|x l]; [done|]. destruct (Hnames x) as [_ Hs]; [by left|]. rewrite Ej in Hs. by destruct Hs.
    + intros f Ef. assert (jname ∈ l) as Hin.
      { apply list_elem_of_In, in_map_iff. exists (jname, Regular f). split; [done|]. apply filter_In. split; [by apply list_elem_of_In, in_children|]. apply jname_suffix. }
      destruct l as [|x l]; [by apply not_elem_of_nil in Hin|]. destruct (Hnames x) as [-> _]; [by left|]. destruct l as [|y l]; [done|].
      destruct (Hnames y) as [-> _]; [by right; left|]. apply NoDup_cons in Hnd as [Hnd _]. destruct Hnd. by left.
  - injection E as <-. split; [done|]. intros f Ef. assert (walk t stateDir = Reached) as E2 by (apply (Hw jname); by eexists). by rewrite E2 in Ewalk.
Qed.

Lemma strip_strip i : strip (strip i) = strip i.
Proof. reflexivity. Qed.

Lemma stored_items k : map strip (tj_Items (stored k)) = map strip (tj_Items k).
Proof. cbn. rewrite map_map. by apply map_ext. Qed.

Lemma open_journal_stored k : open_journal k → open_journal (stored k).
Proof. intros [? Hi ? ?]. split; [done| |done..]. by rewrite stored_items. Qed.

Lemma closed_stored k : closed_journal k → closed_journal (stored k).
Proof. intros [? Hi ?]. split; [done| |done]. by rewrite stored_items. Qed.

Lemma read_journal_holds J t k : wf t → holds J (t !! jpath) → read_journal jpath t = Ok k → ∃ k', J k' ∧ k = stored k'.
Proof.
  intros Hw (f & k' & Ef & _ & Ec & HJ) E. unfold read_journal in E. apply bind_Ok in E as (n & En & E).
  apply present_wf in En; [|done..]. rewrite Ef in En. injection En as <-. rewrite Ec, decode_encode in E. injection E as <-. by exists k'.
Qed.

Section Recover.
Variable G : tree → Prop.
Hypothesis G_wf : ∀ t, G t → wf t.

Lemma remove_there_or_not p (P Q E : tree → Prop) :
  p ≠ [] →
  (∀ t, G t → P t → wf (delete p t) → is_Some (t !! p) → G (delete p t) ∧ Q (delete p t)) →
  (∀ t, P t → t !! p = None → Q t) → (∀ t, P t → E t) →
  tri_in G P (remove_if_there p) (λ _, Q) E.
Proof.
  intros Hp Hd Hn HE w fs [Hh HP]. pose proof (held_now _ _ Hh) as Hg. unfold remove_if_there, mbind, io_bind, io_try, call.
  destruct (remove p (w_now w)) as [[u t]|e] eqn:Er.
  - destruct (remove_Ok _ _ _ _ (G_wf _ Hg) Hp Er) as (-> & Hw & Hs). destruct (Hd _ Hg HP Hw Hs) as [Hg' HQ].
    pose proof (held_moved G _ w Hh Hg') as Hm. destruct fs as [|[] fs]; cbn; try done; (split; [done|by apply HE]).
  - cbn. destruct (String.eqb_spec e ENOENT) as [->|Hne]; cbn; (split; [done|]); [|by apply HE]. apply Hn; [done|].
    destruct (w_now w !! p) as [n|] eqn:El; [|done]. exfalso. unfold remove, present in Er. destruct p as [|x q]; [done|]. cbn [lstat] in Er.
    rewrite (G_wf _ Hg x q) in Er by by eexists. rewrite El in Er. cbn in Er. destruct n; cbn in Er; try discriminate.
    destruct (has_children _ _); discriminate.
Qed.

Lemma remove_all_in l (P : tree → Prop) :
  (∀ p, p ∈ l → p ≠ [] ∧ ∀ t, G t → P t → wf (delete p t) → G (delete p t) ∧ P (delete p t)) →
  tri_in G P (remove_all l) (λ _, P) (λ _, False).
Proof.
  intros Hl. induction l as [|p l IH]; [by apply ret_in|]. cbn [remove_all foldr]. destruct (Hl p) as [Hp Hd]; [by left|]. eapply bind_in.
  - eapply conseq_in; [apply (collect_in G _ P P P), (remove_there_or_not p P P P Hp); [by intros; apply Hd|done..]|done| |done].
    intros errors t _ Ht. assert (P t) as Hpt by (by destruct Ht as [[_ ?]|[_ ?]]). exact Hpt.
  - intros errors. eapply bind_in; [apply IH; intros q Hq; apply Hl; by right|]. intros rest. by apply ret_in.
Qed.

Lemma sync_all_in ds (P : tree → Prop) : tri_in G P (sync_all ds) (λ _, P) (λ _, False).
Proof.
  induction ds as [|d ds IH]; [by apply ret_in|]. cbn [sync_all]. eapply bind_in.
  - eapply conseq_in; [apply (collect_in G _ P P P), sync_in|done| |done].
    intros errors t _ Ht. assert (P t) as Hpt by (by destruct Ht as [[_ ?]|[_ ?]]). exact Hpt.
  - intros errors. eapply bind_in; [apply IH|]. intros rest. by apply ret_in.
Qed.
End Recover.

(** ** Recovery *)

Definition all_new t : Prop := ∀ i, i ∈ items → new_at i t.
Definition settled_old t : Prop := core t ∧ t !! jpath = None ∧ all_old t.
Definition settled_new t : Prop := core t ∧ t !! jpath = None ∧ all_new t.
Definition closed t : Prop := core t ∧ holds closed_journal (t !! jpath) ∧ all_new t.

Lemma jpath_touched : jpath ∉ touched.
Proof. apply state_untouched. Qed.

Lemma journal_removed t : core t → wf (delete jpath t) →
  core (delete jpath t) ∧ delete jpath t !! jpath = None ∧ ∀ i, i ∈ items → same_on i t (delete jpath t).
Proof.
  intros Hc Hw. assert (only [jpath] t (delete jpath t)) as Ho by (by apply only_delete, list_elem_of_singleton).
  split_and!; [by eapply core_journal|apply lookup_delete_eq|]. intros i Hi. apply (only_state_on [jpath]); [done..|].
  intros p ->%list_elem_of_singleton. apply jpath_touched.
Qed.

Lemma open_old_removed t : open t → all_old t → wf (delete jpath t) → settled_old (delete jpath t).
Proof.
  intros (Hc & _ & _) Ho Hw. destruct (journal_removed t Hc Hw) as (Hc' & Hn & Hs). split_and!; [done..|].
  intros i Hi. apply (old_local i t); [by apply Hs|by apply Ho].
Qed.

Lemma closed_removed t : closed t → wf (delete jpath t) → settled_new (delete jpath t).
Proof.
  intros (Hc & _ & Ho) Hw. destruct (journal_removed t Hc Hw) as (Hc' & Hn & Hs). split_and!; [done..|].
  intros i Hi. apply (new_local i t); [by apply Hs|by apply Ho].
Qed.

(** The end of a recovery or of a rollback: the journal goes. *)
Lemma drop_journal_old G :
  (∀ t, G t → wf t) → (∀ t, will_be_old t → G t) →
  tri_in G (λ t, open t ∧ all_old t) (remove_if_there jpath;; sync_dir stateDir) (λ _, settled_old) (λ t, will_be_old t ∧ all_old t).
Proof.
  intros Hw HG. eapply bind_in with (R := λ _, settled_old).
  - apply (remove_there_or_not G Hw); [done| | |intros t [Ho Ha]; split; [by left|done]].
    + intros t _ [Ho Hall] Hwd _. assert (settled_old (delete jpath t)) as Hs by by apply open_old_removed. split; [|done]. apply HG. by right.
    + intros t [(_ & (f & k & Ef & _) & _) _] Hno. by rewrite Ef in Hno.
  - intros []. apply sync_to. intros t Hs. split; [by right|apply Hs].
Qed.

Lemma drop_journal_new G :
  (∀ t, G t → wf t) → (∀ t, is_updated t → G t) →
  tri_in G closed (remove_if_there jpath;; sync_dir stateDir) (λ _, settled_new) is_updated.
Proof.
  intros Hw HG. assert (∀ t, settled_new t → is_updated t) as Hsn by (intros t (Hc & Hn & Ha); split_and!; [done|by left|done]).
  eapply bind_in with (R := λ _, settled_new).
  - apply (remove_there_or_not G Hw); [done| | |].
    + intros t _ Hc Hwd _. assert (settled_new (delete jpath t)) as Hs by by apply closed_removed. split; [|done]. by apply HG, Hsn.
    + intros t (_ & (f & k & Ef & _) & _) Hno. by rewrite Ef in Hno.
    + intros t (Hc & Hj & Ha). split_and!; [done|by right|done].
  - intros []. by apply sync_to.
Qed.

Lemma cleanup_in G k :
  (∀ t, G t → wf t) → (∀ t, is_updated t → G t) → map strip (tj_Items k) = map strip items →
  tri_in G closed (cleanupCommittedTransaction k) (λ _, closed) (λ _, False).
Proof.
  intros Hw HG Hk. unfold cleanupCommittedTransaction. set (l := concat _).
  assert (∀ p, p ∈ l → ∃ i, i ∈ items ∧ p ∈ option_list (ti_BackupPath i) ++ option_list (ti_TempPath i)) as Hl.
  { assert (l = concat (map (λ i, option_list (ti_BackupPath i) ++ option_list (ti_TempPath i)) items)) as ->.
    { transitivity (concat (map (λ i, option_list (ti_BackupPath i) ++ option_list (ti_TempPath i)) (map strip (tj_Items k)))); [by rewrite map_map|].
      by rewrite Hk, map_map. }
    intros p Hp%list_elem_of_In. apply in_concat in Hp as (ps & Hps & Hp). apply in_map_iff in Hps as (i & <- & Hi).
    exists i. by rewrite !list_elem_of_In. }
  eapply bind_in.
  - apply (remove_all_in G Hw). intros p Hp. destruct (Hl p Hp) as (i & Hi & Hpi). pose proof (items_planned i Hi) as Hpl.
    assert (p ∈ item_paths i) as Hin by by right. split; [by apply (pl_paths i Hpl)|]. intros t _ (Hc & Hj & Ha) Hwd.
    assert (only (item_paths i) t (delete p t)) as Ho by by apply only_delete.
    assert (ti_Path i ≠ p) as Hne.
    { apply elem_of_app in Hpi as [Hpi|Hpi]; [destruct (ti_BackupPath i) as [b|] eqn:Eb|destruct (ti_TempPath i) as [m|] eqn:Em]; try by apply not_elem_of_nil in Hpi.
      - apply list_elem_of_singleton in Hpi as ->. by apply backup_ne.
      - apply list_elem_of_singleton in Hpi as ->. by apply temp_ne. }
    assert (is_updated (delete p t)) as (Hc' & _ & Ha').
    { apply (updated_item t _ i); [split_and!; [done|by right|done]|done..|]. destruct (Ha i Hi) as [Ht Hv]. split; [|done].
      unfold target in *. by rewrite lookup_delete_ne. }
    assert (closed (delete p t)) as Hcl by (split_and!; [done|by rewrite (jpath_item t _ i)|done]).
    split; [|done]. apply HG. split_and!; [done|right; apply Hcl|done].
  - intros errors. eapply bind_in; [apply sync_all_in|]. intros errors'. by apply ret_in.
Qed.

Section RecoverBoth.
Variable G : tree → Prop.
Hypothesis G_wf : ∀ t, G t → wf t.

(** The recovery of a journal that is not committed. *)
Lemma recover_open_in :
  (∀ t, will_be_old t → G t) → tri_in G open (recover_journal stateDir jname) (λ _, settled_old) will_be_old.
Proof.
  intros HG. assert (∀ t, open t → will_be_old t) as Hopen by by left. unfold recover_journal.
  eapply bind_in with (R := λ r t, open t ∧ match r with Ok k => open_journal k | Err _ => True end).
  { eapply conseq_in; [eapply try_in, (look_in _ G open (λ k t, open t ∧ open_journal k) open); [|done]|done| |done].
    - intros t k Hg Ho E. split; [done|]. destruct Ho as (_ & Hj & _). destruct (read_journal_holds _ _ _ (G_wf t Hg) Hj E) as (k' & Hk & ->). by apply open_journal_stored.
    - intros [k|e] t _; [by intros [? ?]|done]. }
  intros [k|e]; [|apply fail_in; intros t [? _]; auto]. destruct (negb (tj_Version k =? 1)); [apply fail_in; intros t [? _]; auto|].
  intros w fs [Hh [Ho Hk]]. revert w fs Hh Ho. 
  assert (tri_in G open (errors ← (if tj_Phase k =s "committed" then cleanupCommittedTransaction k
                  else '(errors, _) ← rollbackTransaction k; mret errors);
        if negb (is_empty errors) then io_fail "PATCH_RECOVERY_REQUIRED" else remove_if_there (jname :: stateDir);; sync_dir stateDir)
     (λ _, settled_old) will_be_old) as Hgoal; [|intros w fs Hh Ho; by apply Hgoal].
  rewrite (proj2 (String.eqb_neq _ _) (oj_phase k Hk)). eapply bind_in with (R := λ errors t, open t ∧ (errors = [] → all_old t)).
  - eapply bind_in.
    + eapply conseq_in; [apply (rollback_in G G_wf HG k (oj_items k Hk) (oj_dirs k Hk))|intros t _ Ht; exact Ht|intros r t _ Ht; exact Ht|by intros t _ []].
    + intros [errors removed]. apply ret_in. intros t _ Ht. exact Ht.
  - intros errors. destruct errors as [|e l]; cbn [is_empty negb]; [|apply fail_in; intros t [? _]; auto].
    eapply conseq_in; [apply (drop_journal_old G G_wf HG)| |done|by intros t _ [? _]]. intros t _ [? Ha]. split; [done|by apply Ha].
Qed.

(** The recovery of a committed journal. *)
Lemma recover_closed_in :
  (∀ t, is_updated t → G t) → tri_in G closed (recover_journal stateDir jname) (λ _, settled_new) is_updated.
Proof.
  intros HG. assert (∀ t, closed t → is_updated t) as Hcl by (intros t (? & ? & ?); split_and!; [done|by right|done]). unfold recover_journal.
  eapply bind_in with (R := λ r t, closed t ∧ match r with Ok k => closed_journal k | Err _ => True end).
  { eapply conseq_in; [eapply try_in, (look_in _ G closed (λ k t, closed t ∧ closed_journal k) closed); [|done]|done| |done].
    - intros t k Hg Ho E. split; [done|]. destruct Ho as (_ & Hj & _). destruct (read_journal_holds _ _ _ (G_wf t Hg) Hj E) as (k' & Hk & ->). by apply closed_stored.
    - intros [k|e] t _; [by intros [? ?]|done]. }
  intros [k|e]; [|apply fail_in; intros t [? _]; auto]. destruct (negb (tj_Version k =? 1)); [apply fail_in; intros t [? _]; auto|].
  intros w fs [Hh [Ho Hk]]. revert w fs Hh Ho.
  assert (tri_in G closed (errors ← (if tj_Phase k =s "committed" then cleanupCommittedTransaction k
                  else '(errors, _) ← rollbackTransaction k; mret errors);
        if negb (is_empty errors) then io_fail "PATCH_RECOVERY_REQUIRED" else remove_if_there (jname :: stateDir);; sync_dir stateDir)
     (λ _, settled_new) is_updated) as Hgoal; [|intros w fs Hh Ho; by apply Hgoal].
  rewrite (cj_phase k Hk). cbn [String.eqb Ascii.eqb Bool.eqb]. eapply bind_in with (R := λ _, closed).
  - eapply conseq_in; [apply (cleanup_in G k G_wf HG (cj_items k Hk))|done|done|by intros t _ []].
  - intros errors. destruct errors as [|e l]; cbn [is_empty negb]; [|apply fail_in; auto]. by apply drop_journal_new.
Qed.

Lemma recover_old_in :
  (∀ t, will_be_old t → G t) → tri_in G will_be_old (recoverTransactionJournals stateDir) (λ _, settled_old) will_be_old.
Proof.
  intros HG. unfold recoverTransactionJournals.
  eapply bind_in with (R := λ names t, (names = [jname] ∧ open t) ∨ (names = [] ∧ settled_old t)).
  { apply look_in; [|done]. intros t names _ [Ho|Hs] E.
    - left. split; [|done]. destruct Ho as (Hc & (f & k & Ef & _) & _). by apply (proj2 (names_found t names Hc E) f).
    - right. split; [|done]. destruct Hs as (Hc & Hn & _). by apply (names_found t names Hc E). }
  intros names. eapply bind_in with (R := λ _, settled_old); [|intros []; by apply ret_in].
  intros w fs [Hh [[-> Ho]|[-> Hs]]].
  - assert (tri_in G open (each (recover_journal stateDir) [jname]) (λ _, settled_old) will_be_old) as Hgoal; [|by apply Hgoal].
    cbn [each]. eapply bind_in; [by apply recover_open_in|]. intros []. by apply ret_in.
  - assert (tri_in G settled_old (each (recover_journal stateDir) []) (λ _, settled_old) will_be_old) as Hgoal; [|by apply Hgoal]. by apply ret_in.
Qed.

Lemma recover_new_in :
  (∀ t, is_updated t → G t) → tri_in G is_updated (recoverTransactionJournals stateDir) (λ _, settled_new) is_updated.
Proof.
  intros HG. unfold recoverTransactionJournals.
  eapply bind_in with (R := λ names t, (names = [jname] ∧ closed t) ∨ (names = [] ∧ settled_new t)).
  { apply look_in; [|done]. intros t names _ (Hc & [Hn|Hj] & Ha) E.
    - right. split; [|by split_and!]. by apply (names_found t names Hc E).
    - left. split; [|by split_and!]. destruct Hj as (f & k & Ef & _). by apply (proj2 (names_found t names Hc E) f). }
  intros names. eapply bind_in with (R := λ _, settled_new); [|intros []; by apply ret_in].
  intros w fs [Hh [[-> Ho]|[-> Hs]]].
  - assert (tri_in G closed (each (recover_journal stateDir) [jname]) (λ _, settled_new) is_updated) as Hgoal; [|by apply Hgoal].
    cbn [each]. eapply bind_in; [by apply recover_closed_in|]. intros []. by apply ret_in.
  - assert (tri_in G settled_new (each (recover_journal stateDir) []) (λ _, settled_new) is_updated) as Hgoal; [|by apply Hgoal]. by apply ret_in.
Qed.
End RecoverBoth.

(** ** Writing a journal *)

Lemma tmp_suffix x : hex_id x → HasSuffix (jname +:+ ".tmp-" +:+ x) ".json" = false.
Proof.
  intros Hx. unfold HasSuffix, hex_id in *. rewrite !bytes_app, !rev_app_distr. destruct (rev (bytes x)) as [|a l] eqn:E; [reflexivity|].
  assert (is_lower_hex a = true) as Ha.
  { rewrite forallb_forall in Hx. apply Hx. rewrite in_rev, E. by left. }
  change (Ascii.eqb "n" a && has_prefix ((l ++ rev (bytes ".tmp-")) ++ rev (bytes jname)) (rev (bytes ".jso")) = false).
  apply andb_false_iff. left. apply Ascii.eqb_neq. intros <-. discriminate Ha.
Qed.

Section Write.
Variables (G G' : tree → Prop) (K : option node → Prop) (J : transactionJournal → Prop) (F : tree → Prop) (k : transactionJournal).
Hypothesis G_wf : ∀ t, G t → wf t.
Hypothesis HK : ∀ t, core t → K (t !! jpath) → F t → G t.
Hypothesis HJ : ∀ t, core t → holds J (t !! jpath) → F t → G' t.
Hypothesis HG : ∀ t, G t → G' t.
Hypothesis HF : on_touched F.
Hypothesis Hk : J k.

Definition before t : Prop := core t ∧ K (t !! jpath) ∧ F t.
Definition after t : Prop := core t ∧ holds J (t !! jpath) ∧ F t.

Lemma before_step t t' x :
  before t → wf t' → only [x :: stateDir] t t' → HasSuffix x ".json" = false → before t' ∧ G t'.
Proof.
  intros (Hc & HKt & Ht) Hw Ho Hx. assert (x :: stateDir ≠ jpath) as Hne by (intros [= ->]; by rewrite jname_suffix in Hx).
  assert (core t') as Hc' by by eapply core_state. assert (t' !! jpath = t !! jpath) as Ej by by apply Ho; intros ?%list_elem_of_singleton.
  assert (F t') as Ht'.
  { apply (HF t); [|done]. intros p Hp. apply Ho. intros ->%list_elem_of_singleton. by apply state_untouched in Hp. }
  assert (K (t' !! jpath)) as HK' by by rewrite Ej. split; [done|by apply HK].
Qed.

Lemma write_journal_in (Q E X : world → Prop) :
  (∀ w, now G before w → E w) → (∀ w, held G' w → X w) →
  tri (now G' after) (sync_dir stateDir) (λ _, Q) E X → tri (now G before) (writeJSONAtomic jpath k) (λ _, Q) E X.
Proof.
  intros HE HX' Hsync. assert (∀ w, held G w → X w) as HX by (intros w Hh; apply HX'; by eapply held_mono). unfold writeJSONAtomic. eapply tri_bind with (R := λ x, now G (λ t, hex_id x ∧ before t)).
  { eapply tri_conseq; [apply (id_in G before before)|done|done|done|done]. }
  intros x. unfold jpath at 1. cbv iota zeta beta. set (tp := (jname +:+ ".tmp-" +:+ x) :: stateDir).
  intros w fs [Hh [Hx HP]]. assert (now G before w) as Hnow by done. clear Hh HP. revert w fs Hnow.
  match goal with |- ∀ w fs, _ → match run_outcome (?m w fs) with _ => _ end => change (tri (now G before) m (λ _, Q) E X) end.
  pose proof (tmp_suffix x Hx) as Hsuf.
  assert (∀ t t', before t → wf t' → only [tp] t t' → before t' ∧ G t') as Hstep by (intros; by eapply before_step).
  assert (∀ t p nd, only [p] t (<[p := nd]> t)) as Hins by (intros; by apply only_insert, list_elem_of_singleton).
  eapply tri_bind with (R := λ _, now G before).
  { eapply tri_conseq; [apply (call_in (create tp 384) G before (λ _, before) before)|done|done|done|done]; [|done].
    intros t u t' Hg Hb E'. apply create_Ok in E' as (_ & -> & Hw); [|by apply G_wf|done]. by apply and_comm, (Hstep t). }
  intros []. eapply tri_bind with (R := λ r, match r with Ok _ => now G' after | Err _ => now G before end).
  { eapply tri_conseq; [eapply (tri_try _ (now G before) (λ _, now G' after) (now G before) (now G before) X)|done|by intros [u|e] w|done|done].
    set (fresh := λ (good : regular → Prop) t, before t ∧ ∃ f, t !! tp = Some (Regular f) ∧ good f).
    assert (∀ (f : regular → regular) (good' : regular → Prop) P, (∀ t, P t → before t) → (∀ t r, P t → t !! tp = Some (Regular r) → good' (f r)) →
      tri (now G P) (call (on_file tp f)) (λ _, now G (fresh good')) (now G before) X) as Hfile.
    { intros f good' P HPb Hg'. eapply tri_conseq; [apply (call_in (on_file tp f) G P (λ _, fresh good') before)|done..]; [|done].
      intros t u t' Hg HP E'. apply on_file_Ok in E' as (r & Er & -> & Hw); [|by apply G_wf|done].
      destruct (Hstep t _ (HPb t HP) Hw (Hins _ _ _)) as [Hb' Hg2]. split; [done|]. split; [done|]. exists (f r). split; [apply lookup_insert_eq|]. by eapply Hg'. }
    eapply tri_bind; [apply (Hfile _ (λ f, rg_Content f = encode_journal k) before); done|]. intros [].
    eapply tri_bind.
    { apply (Hfile _ (λ f, rg_Content f = encode_journal k ∧ rg_Synced f = true) (fresh (λ f, rg_Content f = encode_journal k))); [by intros t [? _]|].
      intros t r [_ (f & Ef & Hc)] Er. rewrite Ef in Er. by injection Er as <-. }
    intros []. eapply tri_conseq; [apply (call_to (move_over tp jpath) G G' (fresh (λ f, rg_Content f = encode_journal k ∧ rg_Synced f = true)) (λ _, after) before)|done|done|done|done]; [|done|by intros t [? _]].
    intros t u t' Hg [(Hc & HKt & Ht) (f & Ef & Ec & Es)] E'.
    apply move_over_Ok in E' as (nd & End & -> & Hw); [|by apply G_wf|done..]. rewrite Ef in End. injection End as <-.
    assert (wf (delete tp t)) as Hwd by (apply wf_delete; [by apply G_wf|by rewrite Ef]).
    assert (only [tp] t (delete tp t)) as Hod by by apply only_delete, list_elem_of_singleton.
    assert (core (<[jpath := Regular f]> (delete tp t))) as Hc'.
    { apply (core_journal (delete tp t)); [|done|apply Hins]. by eapply core_state. }
    assert (F (<[jpath := Regular f]> (delete tp t))) as Ht'.
    { apply (HF t); [|done]. intros p Hp. rewrite lookup_insert_ne by (intros <-; by apply jpath_touched in Hp).
      apply Hod. intros ->%list_elem_of_singleton. by apply state_untouched in Hp. }
    assert (holds J (<[jpath := Regular f]> (delete tp t) !! jpath)) as Hh' by (rewrite lookup_insert_eq; by exists f, k).
    split; [by apply HJ|done]. }
  intros [u|err]; [exact Hsync|]. eapply tri_bind with (R := λ _, now G before); [|intros r; by apply tri_fail].
  eapply tri_conseq; [eapply (try_in _ G before (λ _, before) before before), call_in| | | |]; [|done|done|by intros [u|e] w|done|done].
  intros t u t' Hg Hb E'. apply remove_Ok in E' as (-> & Hw & _); [|by apply G_wf|done]. by apply and_comm, (Hstep t), only_delete, list_elem_of_singleton.
Qed.
End Write.

(** ** The commit *)

Section Commit.
Lemma will_be_old_wf t : will_be_old t → wf t.
Proof. by intros [(Hc & _)|(Hc & _)]; destruct Hc. Qed.

(** The variables of the commit: a journal that says what is done. *)
Definition in_progress (s : world * progress) : Prop := open_journal (pg_journal s.2).
Definition both (P : tree → Prop) (s : world * progress) : Prop := now will_be_old P s.1 ∧ in_progress s.
(** Where it stops: the rollback can do its work. *)
Definition stopped (s : world * progress) : Prop :=
  now will_be_old open s.1 ∧ map strip (tj_Items (pg_journal s.2)) = map strip items ∧ ∀ d, d ∈ tj_CreatedDirs (pg_journal s.2) → dir_ok d.
Definition died (s : world * progress) : Prop := held good s.1.

Definition step_of {A : Type} (P : tree → Prop) (m : io (world * progress) A) (Q : A → tree → Prop) : Prop :=
  tri (both P) m (λ a, both (Q a)) stopped died.

Lemma both_stopped P s : (∀ t, P t → open t) → both P s → stopped s.
Proof. intros HP [[Hh Hp] [? ? ? ?]]. by split; [split; [|apply HP]|]. Qed.

Lemma on_world_of {A : Type} (m : io world A) P (Q : A → tree → Prop) :
  tri_in will_be_old P m Q open → step_of P (on_world m) Q.
Proof.
  intros Hm [w p] fs [Hw Hp]. specialize (Hm w fs Hw). unfold on_world, io_zoom. cbn.
  destruct (run_outcome (m w fs)); cbn; [done|split; [done|]; destruct Hp; by split|].
  eapply held_mono; [|exact Hm]. by left.
Qed.

Lemma note_of f P : (∀ pg : progress, open_journal (pg_journal pg) → open_journal (pg_journal (f pg))) → step_of P (note f) (λ _, P).
Proof. intros Hf [w p] fs [Hw Hp]. split; [done|]. by apply Hf. Qed.

Lemma bind_of {A B : Type} (m : io (world * progress) A) (k : A → io (world * progress) B) P (R : A → tree → Prop) (Q : B → tree → Prop) :
  step_of P m R → (∀ a, step_of (R a) (k a) Q) → step_of P (m ≫= k) Q.
Proof. intros Hm Hk. eapply tri_bind; [exact Hm|exact Hk]. Qed.

Lemma conseq_of {A : Type} (m : io (world * progress) A) P P' (Q Q' : A → tree → Prop) :
  step_of P m Q → (∀ t, P' t → P t) → (∀ a t, Q a t → Q' a t) → step_of P' m Q'.
Proof.
  intros Hm HP HQ. eapply tri_conseq; [exact Hm| | |done|done].
  - intros s [[Hh Hp] Hj]. by split; [split; [|apply HP]|].
  - intros a s [[Hh Hq] Hj]. by split; [split; [|apply HQ]|].
Qed.

Lemma ret_of {A : Type} (a : A) P (Q : A → tree → Prop) : (∀ t, P t → Q a t) → step_of P (mret a) Q.
Proof. intros HQ s fs [[Hh Hp] Hj]. by split; [split; [|apply HQ]|]. Qed.

Lemma fail_of {A : Type} e P (Q : A → tree → Prop) : (∀ t, P t → open t) → step_of P (io_fail e) Q.
Proof. intros HP s fs Hs. by apply (both_stopped P). Qed.

(** A state of all items changes item by item. *)
Lemma each_items {D : Type} (S : (tree → Prop) → D → Prop) (f : transactionItem → io D unit) (A B : transactionItem → tree → Prop) E X :
  (∀ (P P' : tree → Prop) (s : D), (∀ t, P t → P' t) → S P s → S P' s) → (∀ i, local_to i (A i)) → (∀ i, local_to i (B i)) →
  (∀ i F, i ∈ items → beside i F → tri (S (λ t, (open t ∧ F t) ∧ A i t)) (f i) (λ _, S (λ t, (open t ∧ F t) ∧ B i t)) E X) →
  tri (S (λ t, open t ∧ ∀ i, i ∈ items → A i t)) (each f items) (λ _, S (λ t, open t ∧ ∀ i, i ∈ items → B i t)) E X.
Proof.
  intros HS HA HB Hf.
  assert (∀ l F, (∀ i, i ∈ l → i ∈ items) → NoDup l → (∀ i, i ∈ l → beside i F) →
    tri (S (λ t, open t ∧ F t ∧ ∀ i, i ∈ l → A i t)) (each f l) (λ _, S (λ t, open t ∧ F t ∧ ∀ i, i ∈ l → B i t)) E X) as Hl.
  { induction l as [|i l IH]; intros F Hl Hnd HF; cbn [each].
    - apply tri_ret. intros d. apply HS. intros t (Ho & Ht & _). split_and!; [done..|]. by intros i ?%not_elem_of_nil.
    - apply NoDup_cons in Hnd as [Hni Hnd].
      assert (∀ j (C : transactionItem → tree → Prop), j ∈ i :: l → (∀ k, local_to k (C k)) →
        beside j (λ t, ∀ k, k ∈ i :: l → k ≠ j → C k t)) as Hother.
      { intros j C Hj HC t t' Honly Hk k Hkl Hne. apply (HC k t); [|by apply Hk]. apply (only_other_on j k); [by apply Hl|by apply Hl|done|done]. }
      eapply tri_bind with (R := λ _, S (λ t, (open t ∧ F t ∧ ∀ k, k ∈ l → A k t) ∧ B i t)).
      + eapply tri_conseq; [apply (Hf i (λ t, F t ∧ ∀ k, k ∈ i :: l → k ≠ i → A k t))| | |done|done].
        * apply Hl. by left.
        * intros t t' Honly [Ht Hk]. split; [apply (HF i) with t; [by left|done..]|]. eapply (Hother i A); [by left|done|exact Honly|done].
        * intros d. apply HS. intros t (Ho & Ht & Ha). split_and!; [done..| |apply Ha; by left]. intros k Hk _. by apply Ha.
        * intros u d. apply HS. intros t ((Ho & Ht & Ha) & Hb). split_and!; [done..| |done]. intros k Hk. apply Ha; [by right|]. by intros ->.
      + intros _. eapply tri_conseq; [apply (IH (λ t, F t ∧ B i t))| | |done|done].
        * intros j Hj. apply Hl. by right.
        * done.
        * intros j Hj t t' Honly [Ht Hb]. split; [apply (HF j) with t; [by right|done..]|].
          apply (HB i t); [|done]. apply (only_other_on j i); [apply Hl; by right|apply Hl; by left|by intros ->|done].
        * intros d. apply HS. by intros t ((? & ? & ?) & ?).
        * intros u d. apply HS. intros t (Ho & (Ht & Hb) & Hr). split_and!; [done..|]. by intros j [->|Hj]%elem_of_cons; [|apply Hr]. }
  eapply tri_conseq; [apply (Hl items (λ _, True)); [done|exact items_nodup|done]| | |done|done].
  - intros d. apply HS. by intros t [? ?].
  - intros u d. apply HS. by intros t (? & _ & ?).
Qed.

(** *** Writing the journal of the commit *)

Lemma write_current_of F :
  on_touched F → (∀ t, F t → ∀ i, i ∈ items → mid_at i t) →
  step_of (λ t, open t ∧ F t) (write_current jpath) (λ _ t, open t ∧ F t).
Proof.
  intros HF HFm [w pg] fs [Hw Hj]. change (open_journal (pg_journal pg)) in Hj.
  assert (tri (now will_be_old (λ t, open t ∧ F t)) (writeJSONAtomic jpath (pg_journal pg)) (λ _, now will_be_old (λ t, open t ∧ F t)) (now will_be_old open) (held good)) as Hm.
  { assert (∀ t, core t → holds open_journal (t !! jpath) → F t → open t) as Hopen by (intros t Hc Hk Ht; split_and!; [done..|by apply HFm]).
    assert (∀ w', held will_be_old w' → held good w') as Hgood by (intros w'; apply held_mono; by left).
    eapply tri_conseq; [apply (write_journal_in will_be_old will_be_old (holds open_journal) open_journal F (pg_journal pg)) with (E := now will_be_old open)| | | |].
    - apply will_be_old_wf.
    - intros t Hc Hk Ht. left. by apply Hopen.
    - intros t Hc Hk Ht. left. by apply Hopen.
    - done.
    - exact HF.
    - done.
    - intros w' [Hh (Hc & Hk & Ht)]. split; [done|]. by apply Hopen.
    - exact Hgood.
    - eapply tri_conseq; [apply (sync_in stateDir will_be_old)|done|intros u w' Hw'; exact Hw'| |exact Hgood].
      intros w' [Hh (Hc & Hk & Ht)]. split; [done|]. by apply Hopen.
    - intros w' [Hh [(Hc & Hk & _) Ht]]. by split.
    - intros u w' [Hh (Hc & Hk & Ht)]. split; [done|]. split; [by apply Hopen|done].
    - done.
    - done. }
  specialize (Hm w fs Hw). unfold write_current, journal_now, on_world, io_zoom, io_read, mbind, io_bind. cbn [fst snd].
  cbn [run_outcome run_disk]. destruct (run_outcome (writeJSONAtomic jpath (pg_journal pg) w fs)) eqn:Eo; cbn; [done|split; [done|]; by destruct Hj|done].
Qed.

Lemma create_dir_in d F :
  dir_ok d → on_touched F → tri_in will_be_old (λ t, open t ∧ F t) (call (mkdir d)) (λ _ t, open t ∧ F t) (λ t, open t ∧ F t).
Proof.
  intros Hd HF. apply call_in; [|done]. intros t u t' Hg [Ho Ht] E.
  apply mkdir_Ok in E as (_ & -> & Hw); [|by apply will_be_old_wf|apply Hd].
  assert (only [d] t (<[d := Directory]> t)) as Honly by by apply only_insert, list_elem_of_singleton.
  assert (∀ p, p ∈ [d] → p ∉ touched) as Hdt by (intros p ->%list_elem_of_singleton; apply Hd).
  assert (open (<[d := Directory]> t)) as Ho'.
  { apply (open_beside t _ [d]); [done| |done..|by apply dir_not_jpath].
    apply (core_dir t _ d); [apply Ho|done..|right; apply lookup_insert_eq]. }
  split; [by left|]. split; [done|]. apply (HF t); [|done]. intros p Hp. apply Honly. intros Hin. by apply (Hdt p).
Qed.

Lemma make_dir_of d : dir_ok d → step_of (λ t, open t ∧ all_old t) (make_dir jpath d) (λ _ t, open t ∧ all_old t).
Proof.
  intros Hd. unfold make_dir.
  eapply bind_of with (R := λ _ t, open t ∧ all_old t).
  { eapply tri_conseq; [apply (tri_try _ (both (λ t, open t ∧ all_old t)) (λ _, both (λ t, open t ∧ all_old t)) (both (λ t, open t ∧ all_old t)) stopped died)|done|by intros [u|e] s|done|done].
    intros [w pg] fs [Hw Hj]. pose proof (create_dir_in d all_old Hd all_old_touched w fs Hw) as Hm. unfold on_world, io_zoom. cbn.
    destruct (run_outcome (call (mkdir d) w fs)); cbn; [done..|]. eapply held_mono; [|exact Hm]. by left. }
  intros [u|e].
  - eapply bind_of with (R := λ _ t, open t ∧ all_old t).
    + apply note_of. intros pg [? ? ? Hds]. split; [done..|]. cbn. intros q [Hq| ->%list_elem_of_singleton]%elem_of_app; [by apply Hds|done].
    + intros []. apply write_current_of; [apply all_old_touched|]. intros t Ho i Hi. left. by apply Ho.
  - destruct (negb _); [by apply fail_of; intros t [? _]|].
    eapply bind_of with (R := λ _ t, open t ∧ all_old t).
    + apply on_world_of. by apply look_in; [|intros t [? _]].
    + intros [[]|]; try (by apply fail_of; intros t [? _]). by apply ret_of.
Qed.

Lemma make_dirs_of ds :
  (∀ d, d ∈ ds → dir_ok d) → step_of (λ t, open t ∧ all_old t) (each (make_dir jpath) ds) (λ _ t, open t ∧ all_old t).
Proof.
  intros Hds. induction ds as [|d ds IH]; cbn [each]; [by apply ret_of|].
  eapply bind_of; [apply make_dir_of, Hds; by left|]. intros []. apply IH. intros q Hq. apply Hds. by right.
Qed.

Lemma check_paths_in l P : tri_in will_be_old P (each (λ i, check_write (ti_Path i)) l) (λ _, P) P.
Proof.
  induction l as [|i l IH]; cbn [each]; [by apply ret_in|]. eapply bind_in; [apply check_write_in|]. intros []. exact IH.
Qed.

(** *** What is done to an item *)

Section Work.
Variables (i : transactionItem) (F : tree → Prop).
Hypothesis (Hi : i ∈ items) (HF : beside i F).
Let Hpl : planned i := items_planned i Hi.
Let G_wf : ∀ t, will_be_old t → wf t := will_be_old_wf.
Let G_old : ∀ t, will_be_old t → will_be_old t := λ t Ht, Ht.

(** The new file is beside the target, *)
Definition written t : Prop := ti_NewExists i = true → temp i t = Some (Regular (new_file i)).
Definition ready t : Prop := old_at i t ∧ written t.
(** the old one is in the backup, *)
Definition away t : Prop := (if ti_ExpectedExists i then restorable i t else old_at i t) ∧ written t.
(** the new one is in its place. *)
Definition placed t : Prop := mid_at i t ∧ target i t = installed i.

Lemma to_open (P : tree → Prop) : ∀ t, will_be_old t → (open t ∧ F t) ∧ P t → open t.
Proof. by intros t _ [[? _] _]. Qed.

Definition temp_has m (r : regular) t : Prop := old_at i t ∧ t !! m = Some (Regular r).

Lemma old_inserted t m x : ti_TempPath i = Some m → old_at i t → old_at i (<[m := x]> t).
Proof.
  intros Em [Ht Hb]. split.
  - unfold target. rewrite lookup_insert_ne; [done|]. by apply not_eq_sym, temp_ne.
  - unfold backup in *. destruct (ti_BackupPath i) as [b|] eqn:Eb; [|done]. rewrite lookup_insert_ne; [done|]. by apply not_eq_sym, (backup_temp_ne i).
Qed.

Lemma temp_step_in m (f : step unit) (P : tree → Prop) (r : regular) :
  ti_TempPath i = Some m → (∀ t, P t → old_at i t) →
  (∀ t u t', wf t → P t → f t = Ok (u, t') → t' = <[m := Regular r]> t ∧ wf t') →
  tri_in will_be_old (λ t, (open t ∧ F t) ∧ P t) (call f) (λ _ t, (open t ∧ F t) ∧ temp_has m r t) open.
Proof.
  intros Em HP Hf. eapply conseq_in; [apply (item_call will_be_old G_old i F f P (λ _, temp_has m r) Hi HF)|done|done|by apply to_open].
  intros t u t' Ho Hw Ht E. destruct (Hf t u t' Hw Ht E) as (-> & Hw').
  assert (old_at i (<[m := Regular r]> t)) as Hold by (apply old_inserted; [done|by apply HP]).
  split; [done|]. split; [by apply only_insert, temp_in|]. split; [by left|]. split; [done|apply lookup_insert_eq].
Qed.

Lemma on_temp_in m (f : regular → regular) (r : regular) :
  ti_TempPath i = Some m →
  tri_in will_be_old (λ t, (open t ∧ F t) ∧ temp_has m r t) (call (on_file m f)) (λ _ t, (open t ∧ F t) ∧ temp_has m (f r) t) open.
Proof.
  intros Em. apply temp_step_in; [done|by intros t [? _]|]. intros t u t' Hw (_ & Er) E.
  apply on_file_Ok in E as (r' & Er' & -> & Hw'); [|done|by apply (pl_paths i Hpl), temp_in].
  rewrite Er in Er'. by injection Er' as <-.
Qed.

Lemma create_temp_in m :
  ti_TempPath i = Some m →
  tri_in will_be_old (λ t, (open t ∧ F t) ∧ old_at i t) (call (create m 384))
    (λ _ t, (open t ∧ F t) ∧ temp_has m (mkRegular "" 384 euid egid false) t) open.
Proof.
  intros Em. apply temp_step_in; [done..|]. intros t u t' Hw _ E.
  by apply create_Ok in E as (_ & -> & Hw'); [|done|by apply (pl_paths i Hpl), temp_in].
Qed.

Lemma write_new_in : tri_in will_be_old (λ t, (open t ∧ F t) ∧ old_at i t) (createTransactionTemp i) (λ _ t, (open t ∧ F t) ∧ ready t) open.
Proof.
  unfold createTransactionTemp. pose proof (pl_temp i Hpl) as Htemp. unfold ready, written.
  destruct (ti_TempPath i) as [m|] eqn:Em.
  2:{ apply ret_in. intros t _ [Ht Ho]. split; [done|]. split; [done|]. intros Hn. by destruct (proj2 Htemp Hn). }
  rewrite (proj1 Htemp) by by eexists. set (mode := Z.land (default 0 (ti_NewMode i)) 4095).
  eapply bind_in; [eapply conseq_in; [apply check_write_in|intros t _ Ht; exact Ht|intros u t _ Ht; exact Ht|by apply to_open]|]. intros [].
  eapply bind_in; [by apply create_temp_in|]. intros []. eapply bind_in; [by apply on_temp_in|]. intros [].
  set (owned := match ti_NewUID i with Some uid => mkRegular "" (kept_mode mode) uid (default 0 (ti_NewGID i)) false | None => mkRegular "" mode euid egid false end).
  eapply bind_in with (R := λ _ t, (open t ∧ F t) ∧ temp_has m owned t).
  { subst owned. destruct (ti_NewUID i) as [uid|]; [|by apply ret_in]. unfold change_owner.
    destruct (negb _); [by apply fail_in; intros t [[? _] _]|]. eapply conseq_in; [by apply on_temp_in|intros t _ Ht; exact Ht|intros u t _ Ht; exact Ht|done]. }
  intros []. eapply bind_in; [by apply on_temp_in|]. intros [].
  eapply conseq_in; [by apply on_temp_in|intros t _ Ht; exact Ht| |done].
  intros u t _ (Ht & Ho & Er). split; [done|]. split; [done|]. intros _. unfold temp. rewrite Em, Er. unfold new_file. subst owned mode.
  by destruct (ti_NewUID i).
Qed.
End Work.

Lemma conflict_in (m : io world unit) P (Q E : tree → Prop) :
  tri_in will_be_old P m (λ _, Q) E → tri_in will_be_old P (conflict_or m) (λ _, Q) E.
Proof. intros Hm. eapply tri_catch; [exact Hm|]. intros e. by apply tri_fail. Qed.

Lemma syncs_in ds P : tri_in will_be_old P (each sync_dir ds) (λ _, P) P.
Proof. induction ds as [|d ds IH]; cbn [each]; [by apply ret_in|]. eapply bind_in; [apply sync_in|]. intros []. exact IH. Qed.

Section Moves.
Variables (i : transactionItem) (F : tree → Prop).
Hypothesis (Hi : i ∈ items) (HF : beside i F).
Let Hpl : planned i := items_planned i Hi.
Let G_wf : ∀ t, will_be_old t → wf t := will_be_old_wf.
Let G_old : ∀ t, will_be_old t → will_be_old t := λ t Ht, Ht.

Lemma not_there t : ti_ExpectedExists i = false → old_at i t → target i t = None.
Proof. intros He [Ht _]. rewrite (pl_none i Hpl He) in Ht. by destruct (target i t) as [[]|]. Qed.

Lemma back_up_of : step_of (λ t, (open t ∧ F t) ∧ ready i t) (back_up i) (λ _ t, (open t ∧ F t) ∧ away i t).
Proof.
  unfold back_up. unfold away. destruct (ti_ExpectedExists i) eqn:He; cbn [negb]; [|by apply ret_of].
  destruct (ti_BackupPath i) as [b|] eqn:Eb; [|by destruct (proj2 (pl_backup i Hpl) He) as [? ?]; congruence]. cbn [default].
  pose proof (backup_ne i b Hpl Eb) as Hne.
  eapply bind_of with (R := λ _ t, (open t ∧ F t) ∧ restorable i t ∧ written i t).
  { apply on_world_of, conflict_in. eapply conseq_in; [apply (rename_item will_be_old G_old i F (ti_Path i) b (ready i) (λ t, restorable i t ∧ written i t) Hi HF (path_in i) (backup_in i b Eb) Hne)|done|done|by intros t _ [? _]].
    intros t x Ho [[Hs _] Hwr] Ex Hno. unfold target in Hs. rewrite Ex in Hs.
    assert (∀ t', t' !! b = Some x → backup i t' = Some x) as Hb by (intros t' E; unfold backup; by rewrite Eb).
    pose proof (Hb _ (lookup_insert_eq t b (x))) as Hb1. pose proof (Hb _ (lookup_insert_eq (delete (ti_Path i) t) b (x))) as Hb2.
    assert (target i (<[b := x]> (delete (ti_Path i) t)) = None) as Ht2 by (unfold target; by rewrite lookup_insert_ne, lookup_delete_eq).
    assert (restorable i (<[b := x]> (delete (ti_Path i) t))) as Hr by (split_and!; [done|by rewrite Hb2|done]).
    split; [|split; [|split; [done|]]].
    - right; left. split; [done|]. split; [by rewrite Hb1|]. right; right. unfold target. rewrite lookup_insert_ne by done. by rewrite Ex.
    - right; left. destruct Hr as (? & ? & ?). split_and!; [done..|by left].
    - intros Hn. specialize (Hwr Hn). unfold temp in *. destruct (ti_TempPath i) as [m|] eqn:Em; [|done].
      rewrite lookup_insert_ne by (by apply (backup_temp_ne i)). rewrite lookup_delete_ne; [done|]. by apply temp_ne. }
  intros []. eapply bind_of; [by apply note_of|]. intros []. eapply bind_of.
  { apply on_world_of. apply sync_to. by intros t [[? _] _]. }
  intros []. apply on_world_of. unfold verifyBackup. rewrite Eb. cbn [default]. eapply bind_in.
  - eapply conseq_in; [apply (pathSnapshot_in _ G_wf b)|intros t _ Ht; exact Ht| |by intros t _ [[? _] _]].
    + by apply (pl_paths i Hpl), backup_in.
    + intros s t _ [Ht _]. exact Ht.
  - intros s. destruct (is_expected i s); [by apply ret_in|apply fail_in; by intros t [[? _] _]].
Qed.

Lemma away_known t : away i t → target i t = None ∧
  (ti_ExpectedExists i = true ∧ same_file (backup i t) (was i) ∨ ti_ExpectedExists i = false).
Proof.
  intros [Ha _]. destruct (ti_ExpectedExists i) eqn:He; [destruct Ha as (_ & Hs & Ht); split; [done|by left]|].
  split; [by apply not_there|by right].
Qed.

Lemma placed_of t : target i t = installed i → ti_ExpectedExists i = true ∧ same_file (backup i t) (was i) ∨ ti_ExpectedExists i = false → placed i t.
Proof. intros Ht [[He Hb]|He]; (split; [right|done]); [left|right]; split; [done|split; [done|right; by left]|done..]. Qed.

Lemma install_of : step_of (λ t, (open t ∧ F t) ∧ away i t) (install i) (λ _ t, (open t ∧ F t) ∧ placed i t).
Proof.
  unfold install. destruct (ti_NewExists i) eqn:Hn; cbn [negb].
  2:{ apply ret_of. intros t [Ht Ha]. split; [done|]. destruct (away_known t Ha) as [Hno Hk]. apply placed_of; [|done]. unfold installed. by rewrite Hn. }
  destruct (ti_TempPath i) as [m|] eqn:Em; [|by destruct (proj2 (pl_temp i Hpl) Hn) as [? ?]; congruence]. cbn [default].
  pose proof (not_eq_sym (temp_ne i m Hpl Em)) as Hne.
  eapply bind_of with (R := λ _ t, (open t ∧ F t) ∧ placed i t).
  { apply on_world_of, conflict_in. eapply conseq_in; [apply (rename_item will_be_old G_old i F m (ti_Path i) (away i) (placed i) Hi HF (temp_in i m Em) (path_in i) Hne)|done|done|by intros t _ [? _]].
    intros t x Ho Ha Ex Hno. destruct (away_known t Ha) as [_ Hk]. destruct Ha as [_ Hwr]. specialize (Hwr Hn). unfold temp in Hwr.
    rewrite Em, Ex in Hwr. injection Hwr as ->.
    assert (∀ t', t' !! ti_Path i = Some (Regular (new_file i)) → backup i t' = backup i t → placed i t') as Hp.
    { intros t' Et Eb. apply placed_of; [unfold target, installed; by rewrite Hn|by rewrite Eb]. }
    assert (placed i (<[ti_Path i := Regular (new_file i)]> t)) as Hp1.
    { apply Hp; [apply lookup_insert_eq|]. unfold backup. destruct (ti_BackupPath i) as [b|] eqn:Eb; [|done].
      by rewrite lookup_insert_ne by by apply (backup_ne i). }
    assert (placed i (<[ti_Path i := Regular (new_file i)]> (delete m t))) as Hp2.
    { apply Hp; [apply lookup_insert_eq|]. unfold backup. destruct (ti_BackupPath i) as [b|] eqn:Eb; [|done].
      rewrite lookup_insert_ne by by apply (backup_ne i). rewrite lookup_delete_ne; [done|]. by apply not_eq_sym, (backup_temp_ne i). }
    split; [apply Hp1|]. split; [apply Hp2|exact Hp2]. }
  intros []. eapply bind_of; [by apply note_of|]. intros [].
  apply on_world_of. apply sync_to. by intros t [[? _] _].
Qed.

Lemma verify_item_in :
  tri_in will_be_old (λ t, (open t ∧ F t) ∧ placed i t) (verify_item i) (λ _ t, (open t ∧ F t) ∧ mid_at i t ∧ new_at i t) open.
Proof.
  unfold verify_item. destruct (ti_NewExists i) eqn:Hn.
  - eapply bind_in.
    + eapply conseq_in; [apply (matches_in _ G_wf (ti_Path i) (is_new i) (λ t, (open t ∧ F t) ∧ placed i t))|done| |by intros t _ [[? _] _]].
      * apply (pl_paths i Hpl), path_in.
      * intros b t _ Ht. exact Ht.
    + intros [].
      * apply ret_in. intros t _ [[Ht [Hm Hins]] (s & Es & Hs)]. split; [done|]. split; [done|]. split; [done|]. intros _.
        unfold target, installed in Hins. rewrite Hn in Hins. rewrite Hins in Hs. destruct s as [s|]; [|done].
        by destruct Hs as (f & [= <-] & ->).
      * apply fail_in. by intros t [[[? _] _] _].
  - eapply bind_in; [apply (pathExists_in _ G_wf (ti_Path i)); apply (pl_paths i Hpl), path_in|].
    intros []; [apply fail_in; by intros t [[[? _] _] _]|]. apply ret_in. intros t _ [[Ht [Hm Hins]] _]. split; [done|]. split; [done|].
    split; [done|]. by rewrite Hn.
Qed.
End Moves.

(** *** The whole commit *)

Lemma ready_local i : local_to i (ready i).
Proof. intros t t' Hs [Ho Hw]. split; [by apply (old_local i t)|]. unfold written. by rewrite (temp_on i t t' Hs). Qed.
Lemma away_local i : local_to i (away i).
Proof.
  intros t t' Hs [Ha Hw]. split; [|unfold written; by rewrite (temp_on i t t' Hs)]. destruct (ti_ExpectedExists i); [|by apply (old_local i t)].
  unfold restorable in *. by rewrite (target_on i t t' Hs), (backup_on i t t' Hs).
Qed.
Lemma placed_local i : local_to i (placed i).
Proof. intros t t' Hs [Hm Ht]. split; [by apply (mid_local i t)|]. by rewrite (target_on i t t' Hs). Qed.
Lemma both_local i : local_to i (λ t, mid_at i t ∧ new_at i t).
Proof. intros t t' Hs [Hm Ht]. split; [by apply (mid_local i t)|by apply (new_local i t)]. Qed.

Lemma now_mono G (P P' : tree → Prop) w : (∀ t, P t → P' t) → now G P w → now G P' w.
Proof. intros HP [Hh Hp]. split; [done|by apply HP]. Qed.
Lemma both_mono (P P' : tree → Prop) s : (∀ t, P t → P' t) → both P s → both P' s.
Proof. intros HP [Hh Hp]. split; [by eapply now_mono|done]. Qed.

Lemma stage_in (f : transactionItem → io world unit) (A B : transactionItem → tree → Prop) :
  (∀ i, local_to i (A i)) → (∀ i, local_to i (B i)) →
  (∀ i F, i ∈ items → beside i F → tri_in will_be_old (λ t, (open t ∧ F t) ∧ A i t) (f i) (λ _ t, (open t ∧ F t) ∧ B i t) open) →
  step_of (λ t, open t ∧ ∀ i, i ∈ items → A i t) (on_world (each f items)) (λ _ t, open t ∧ ∀ i, i ∈ items → B i t).
Proof. intros HA HB Hf. apply on_world_of. apply (each_items (now will_be_old) f A B); [|done..]. intros P P' w. apply now_mono. Qed.

Lemma stage_of (f : transactionItem → io (world * progress) unit) (A B : transactionItem → tree → Prop) :
  (∀ i, local_to i (A i)) → (∀ i, local_to i (B i)) →
  (∀ i F, i ∈ items → beside i F → step_of (λ t, (open t ∧ F t) ∧ A i t) (f i) (λ _ t, (open t ∧ F t) ∧ B i t)) →
  step_of (λ t, open t ∧ ∀ i, i ∈ items → A i t) (each f items) (λ _ t, open t ∧ ∀ i, i ∈ items → B i t).
Proof. intros HA HB Hf. apply (each_items both f A B); [|done..]. intros P P' s. apply both_mono. Qed.

(** The journal that is committed replaces the one that is not: until then
    the patch will be undone, from then on it is applied. *)
Lemma write_committed_in k :
  closed_journal k →
  tri (now will_be_old (λ t, open t ∧ ∀ i, i ∈ items → mid_at i t ∧ new_at i t)) (writeJSONAtomic jpath k)
    (λ _, now is_updated closed) (now will_be_old open) (held good).
Proof.
  intros Hk. set (F := λ t, ∀ i, i ∈ items → mid_at i t ∧ new_at i t).
  assert (on_touched F) as HF.
  { intros t t' Hs Ht i Hi. apply (both_local i t); [|by apply Ht]. intros p Hp. by apply Hs, (in_touched i). }
  assert (∀ t, F t → all_new t) as HFn by (intros t Ht i Hi; by apply Ht).
  assert (∀ t, core t → holds open_journal (t !! jpath) → F t → open t) as Hopen by (intros t Hc Hj Ht; split_and!; [done..|intros i Hi; by apply Ht]).
  assert (∀ t, core t → holds closed_journal (t !! jpath) → F t → is_updated t) as Hclosed by (intros t Hc Hj Ht; split_and!; [done|by right|by apply HFn]).
  eapply tri_conseq; [apply (write_journal_in will_be_old good (holds open_journal) closed_journal F k will_be_old_wf) with
    (Q := now is_updated closed) (E := now will_be_old open) (X := held good)| |done..]; try done.
  - intros t Hc Hj Ht. left. by apply Hopen.
  - intros t Hc Hj Ht. right. by apply Hclosed.
  - by left.
  - intros w [Hh (Hc & Hj & Ht)]. split; [done|]. by apply Hopen.
  - eapply tri_conseq; [apply (sync_sure stateDir good is_updated (after closed_journal F) state_syncs)|done| |by intros w []|done].
    + intros t (Hc & Hj & Ht). split; [|by apply Hclosed]. destruct Hj as (f & k' & E & _). apply (co_wf t Hc jname). by eexists.
    + intros u w [Hh (Hc & Hj & Ht)]. split; [done|]. split_and!; [done..|by apply HFn].
  - intros w [Hh [(Hc & Hj & _) Ht]]. by split.
Qed.

Lemma commit_in plannedDirs :
  (∀ d, d ∈ plannedDirs → dir_ok d) →
  tri (both (λ t, open t ∧ all_old t)) (commit jpath items plannedDirs)
    (λ _ s, now is_updated closed s.1 ∧ map strip (tj_Items (pg_journal s.2)) = map strip items) stopped died.
Proof.
  intros Hdirs. unfold commit.
  eapply tri_bind; [by apply make_dirs_of|]. intros []. eapply tri_bind; [apply on_world_of; eapply conseq_in; [apply check_paths_in|intros t _ Ht; exact Ht|intros u t _ Ht; exact Ht|by intros t _ [? _]]|]. intros [].
  eapply tri_bind; [apply (stage_in _ old_at ready); [apply old_local|apply ready_local|intros i F Hi HF; by apply write_new_in]|]. intros [].
  assert (on_touched (λ t, ∀ i, i ∈ items → ready i t)) as Hready.
  { intros t t' Hs Ht i Hi. apply (ready_local i t); [|by apply Ht]. intros p Hp. by apply Hs, (in_touched i). }
  eapply tri_bind; [apply (note_of _ (λ t, open t ∧ ∀ i, i ∈ items → ready i t)); by intros pg [? ? ? ?]|]. intros [].
  eapply tri_bind; [apply (write_current_of _ Hready); intros t Ht i Hi; left; by apply Ht|]. intros [].
  eapply tri_bind; [by apply note_of|]. intros [].
  eapply tri_bind; [apply on_world_of; eapply conseq_in; [apply check_paths_in|intros t _ Ht; exact Ht|intros u t _ Ht; exact Ht|by intros t _ [? _]]|]. intros [].
  eapply tri_bind; [apply (stage_of _ ready away); [apply ready_local|apply away_local|intros i F Hi HF; by apply back_up_of]|]. intros [].
  eapply tri_bind; [apply (stage_of _ away placed); [apply away_local|apply placed_local|intros i F Hi HF; by apply install_of]|]. intros [].
  eapply tri_bind; [apply (stage_in _ placed (λ i t, mid_at i t ∧ new_at i t)); [apply placed_local|apply both_local|intros i F Hi HF; by apply verify_item_in]|]. intros [].
  eapply tri_bind; [apply on_world_of; eapply conseq_in; [apply syncs_in|intros t _ Ht; exact Ht|intros u t _ Ht; exact Ht|by intros t _ [? _]]|]. intros [].
  intros [w pg] fs [Hw [Hv Hi Hp Hd]]. cbn [fst snd] in *.
  set (k := (pg_journal pg) <| tj_Phase := "committed" |>). assert (closed_journal k) as Hk by by split.
  pose proof (write_committed_in k Hk w fs Hw) as Hm.
  change ((note (λ pg', pg' <| pg_journal ::= (λ k, k <| tj_Phase := "committed" |>) |>);; write_current jpath) (w, pg) fs)
    with (on_world (writeJSONAtomic jpath k) (w, pg <| pg_journal := k |>) fs).
  unfold on_world, io_zoom. cbn [fst run_outcome run_disk]. destruct (run_outcome (writeJSONAtomic jpath k w fs)); cbn; [by split|by split|done].
Qed.

(** *** After the commit *)

Lemma snapshot_keeps G p P : tri_in G P (pathSnapshot p) (λ _, P) P.
Proof.
  unfold pathSnapshot. eapply bind_in; [apply check_write_in|]. intros []. eapply bind_in; [by apply (look_in _ _ _ (λ _, P))|].
  intros [[f| | |]|]; try by apply fail_in. - destruct (_ <? _); [by apply fail_in|by apply ret_in]. - by apply ret_in.
Qed.

Lemma residuals_in G (pg : progress) removed l P : tri_in G P (transactionResiduals pg removed l) (λ _, P) (λ _, False).
Proof.
  induction l as [|i l IH]; cbn [transactionResiduals]; [by apply ret_in|].
  assert (∀ {A B : Type} (m : io world A) (f : result A → B), tri_in G P m (λ _, P) P → tri_in G P (r ← io_try m; mret (f r)) (λ _, P) (λ _, False)) as Htry.
  { intros A B m f Hm. eapply bind_in; [eapply try_in; exact Hm|]. intros [a|e]; by apply ret_in. }
  eapply bind_in with (R := λ _, P).
  - unfold residual. eapply bind_in; [eapply try_in, (snapshot_keeps G (ti_Path i) P)|]. intros [s|e]; [|by apply ret_in].
    destruct (_ || _); [by apply ret_in|]. destruct (_ && _ && _); [by apply ret_in|]. destruct (_ && _ && _); [|by apply ret_in].
    apply Htry. unfold verifyBackup. eapply bind_in; [apply snapshot_keeps|]. intros s'. destruct (is_expected _ _); [by apply ret_in|by apply fail_in].
  - intros x. eapply bind_in; [apply IH|]. intros rest. by apply ret_in.
Qed.

(** What the caller is told, and what holds. *)
Definition told (r : patched) t : Prop :=
  match r with Patched _ => False | NotPatched _ outcome _ => outcome = "unchanged" → all_old t end.

Lemma patch_failed_in l commitErr (pg : progress) :
  map strip (tj_Items (pg_journal pg)) = map strip items → (∀ d, d ∈ tj_CreatedDirs (pg_journal pg) → dir_ok d) →
  tri_in will_be_old open (patch_failed stateDir jpath l commitErr pg) told (λ _, False).
Proof.
  intros Hk Hd. unfold patch_failed. pose proof will_be_old_wf as Hw. eapply bind_in; [by apply (rollback_in will_be_old Hw)|].
  intros [errors removed]. cbn [fst]. destruct errors as [|e errors]; cbn [is_empty negb].
  - eapply bind_in.
    + eapply try_in, conseq_in; [by apply (drop_journal_old will_be_old Hw)|intros t _ [Ho Ha]; split; [exact Ho|by apply Ha]|intros u t _ Ht; exact Ht|intros t _ Ht; exact Ht].
    + intros [u|e]; apply ret_in; intros t _ Ht _; apply Ht.
  - eapply bind_in; [apply residuals_in|]. intros rs. apply ret_in. intros t _ _ E. discriminate E.
Qed.

Lemma conclude_in x recovered l (pg : progress) :
  map strip (tj_Items (pg_journal pg)) = map strip items →
  tri_in is_updated closed (conclude stateDir jpath x recovered l pg) (λ r _, ∃ a, r = Patched a) (λ _, False).
Proof.
  intros Hk. assert (∀ t, is_updated t → wf t) as Hw by (by intros t (Hc & _); destruct Hc).
  unfold conclude. eapply bind_in; [by apply (cleanup_in is_updated)|]. intros errors. eapply bind_in with (R := λ _ _, True).
  - destruct (negb _); [by apply ret_in|]. eapply bind_in; [eapply try_in; by apply (drop_journal_new is_updated)|].
    intros r. by apply ret_in.
  - intros pending. apply ret_in. intros t _ _. by eexists.
Qed.

Definition finish (journal : transactionJournal) (l : list transactionItem) (plannedDirs : list path) (recovered : Z) : io world patched :=
  '(r, p) ← with_progress (mkProgress journal true [] []) (commit jpath l plannedDirs);
  match r with
  | Err commitErr => patch_failed stateDir jpath l commitErr p
  | Ok _ => conclude stateDir jpath id recovered l p
  end.

(** The end of a patch, as it is told. *)
Definition ended (r : patched) (w : world) : Prop :=
  match r with
  | Patched _ => held is_updated w
  | NotPatched _ outcome _ => held will_be_old w ∧ (outcome = "unchanged" → all_old (w_now w))
  end.

Lemma finish_in k plannedDirs recovered :
  open_journal k → (∀ d, d ∈ plannedDirs → dir_ok d) →
  tri (now will_be_old (λ t, open t ∧ all_old t)) (finish k items plannedDirs recovered) ended (λ _, False) (held good).
Proof.
  intros Hk Hd. unfold finish.
  eapply tri_bind with (R := λ r w, match r.1 with
    | Ok _ => now is_updated closed w ∧ map strip (tj_Items (pg_journal r.2)) = map strip items
    | Err _ => stopped (w, r.2) end).
  - intros w fs Hw. pose proof (commit_in plannedDirs Hd (w, mkProgress k true [] []) fs) as Hm. unfold with_progress.
    destruct (commit _ _ _ _ _) as [[u|e|] [w' pg] fs']; cbn in *; by apply Hm.
  - intros [[u|e] pg]; cbn [fst snd]; intros w fs Hw.
    + destruct Hw as [Hw Hi]. pose proof (conclude_in id recovered items pg Hi w fs Hw) as Hm.
      destruct (run_outcome _); [|by destruct Hm|eapply held_mono; [|exact Hm]; by right]. destruct Hm as [Hh [x ->]]. exact Hh.
    + destruct Hw as (Hw & Hi & Hdirs). pose proof (patch_failed_in items e pg Hi Hdirs w fs Hw) as Hm.
      destruct (run_outcome _) as [r| |]; [|by destruct Hm|eapply held_mono; [|exact Hm]; by left].
      destruct Hm as [Hh Ht]. destruct r; [done|]. by split.
Qed.

(** The first journal, on the files as they were. *)
Lemma start_in k :
  open_journal k →
  tri (now will_be_old settled_old) (writeJSONAtomic jpath k) (λ _, now will_be_old (λ t, open t ∧ all_old t)) (now will_be_old all_old) (held will_be_old).
Proof.
  intros Hk. assert (∀ t, core t → holds open_journal (t !! jpath) → all_old t → open t) as Hopen by (intros t Hc Hj Ht; split_and!; [done..|intros i Hi; left; by apply Ht]).
  eapply tri_conseq; [apply (write_journal_in will_be_old will_be_old (λ n, n = None) open_journal all_old k will_be_old_wf) with
    (Q := now will_be_old (λ t, open t ∧ all_old t)) (E := now will_be_old all_old) (X := held will_be_old)|done..]; try done.
  - intros t Hc Hn Ht. by right.
  - intros t Hc Hj Ht. left. by apply Hopen.
  - apply all_old_touched.
  - intros w [Hh (_ & _ & Ht)]. by split.
  - eapply tri_conseq; [apply (sync_in stateDir will_be_old (after open_journal all_old))|done| | |done].
    + intros u w [Hh (Hc & Hj & Ht)]. split; [done|]. split; [by apply Hopen|done].
    + intros w [Hh (_ & _ & Ht)]. by split.
Qed.

(** *** What becomes of the trees of a patch *)

(** Trees in [F] stay in [F] when power is lost and while journals are
    recovered; a recovery that returns leaves one in [S]. *)
Record fate (F S : tree → Prop) : Prop := {
  fate_left : ∀ t t', left_of t t' → F t → F t';
  fate_recover : tri_in F F (recoverTransactionJournals stateDir) (λ _, S) F;
}.

Lemma old_fate : fate will_be_old settled_old.
Proof. split; [apply will_be_old_left|]. apply (recover_old_in will_be_old will_be_old_wf). done. Qed.

Lemma updated_wf t : is_updated t → wf t.
Proof. by intros (Hc & _); destruct Hc. Qed.

Lemma new_fate : fate is_updated settled_new.
Proof. split; [apply is_updated_left|]. apply (recover_new_in is_updated updated_wf). done. Qed.

Lemma good_fate : fate good (λ t, settled_old t ∨ settled_new t).
Proof.
  assert (∀ t, good t → wf t) as Hw by (intros t [Ht|Ht]; [by apply will_be_old_wf|by apply updated_wf]).
  split; [apply good_left|]. intros w fs [Hh [Ht|Ht]].
  - pose proof (recover_old_in good Hw (λ t Ht0, or_introl Ht0) w fs (conj Hh Ht)) as Hm.
    destruct (run_outcome _); [|destruct Hm as [Hm ?]; (split; [done|by left])..|done]. destruct Hm. split; [done|by left].
  - pose proof (recover_new_in good Hw (λ t Ht0, or_intror Ht0) w fs (conj Hh Ht)) as Hm.
    destruct (run_outcome _); [|destruct Hm as [Hm ?]; (split; [done|by right])..|done]. destruct Hm. split; [done|by right].
Qed.
End Commit.
End Plan.
