(* ===== verification/PatchPlan.v ===== *)
(** * PatchPlan: what a patch is asked to do, and that it does it

    The normalisation of a request and the preflight make a plan as PatchSpec
    assumes it; so a patch, whatever fails and whenever the power goes, leaves
    files that a later recovery brings to their old state or to the new one. *)

From stdpp Require Import pretty.
From S2P Require Import Prelude GoText Durable FileTree Patch PatchSpec.
Local Open Scope Z_scope.

(** ** The items of a request *)

Section Made.
Context `{Kernel} `{PatchHost}.
Variables (x : string) (w0 : world).
Let base : tree := w_now w0.
Implicit Types (raw : ChangeRequest) (i j : transactionItem) (n : N) (p q d : path).

Definition target_of raw : path := clean_path (cr_Path raw).

(** The item that is made of the request with the number [n]. *)
Definition made n raw i : Prop :=
  ∃ expected new content,
    cr_ExpectedExists raw = Some expected ∧ cr_NewExists raw = Some new ∧
    (expected = true → check_expected raw = Ok tt) ∧ (new = true → check_new raw = Ok content) ∧
    i = mkItem (target_of raw) expected new (cr_ExpectedSHA256 raw) (cr_ExpectedMode raw) (cr_ExpectedUID raw) (cr_ExpectedGID raw)
        (cr_SHA256 raw) (cr_Mode raw) (cr_OwnerUID raw) (cr_OwnerGID raw)
        (if new then Some (write_name x n :: parent (target_of raw)) else None)
        (if expected then Some (backup_name x n :: parent (target_of raw)) else None) content.

Fixpoint made_all n (changes : list ChangeRequest) (items : list transactionItem) : Prop :=
  match changes, items with
  | [], [] => True
  | raw :: changes, i :: items => made n raw i ∧ made_all (N.succ n) changes items
  | _, _ => False
  end.

Lemma made_path n raw i : made n raw i → ti_Path i = target_of raw.
Proof. by intros (e & w & c & _ & _ & _ & _ & ->). Qed.

(** Where nothing is changed, only what is learnt is of interest. *)
Definition still {A : Type} (m : io world A) (R : A → Prop) : Prop :=
  tri (λ w, w = w0) m (λ a w, w = w0 ∧ R a) (λ w, w = w0) (λ w, w = w0).

Lemma still_bind {A B : Type} (m : io world A) (k : A → io world B) (R : A → Prop) (Q : B → Prop) :
  still m R → (∀ a, R a → still (k a) Q) → still (m ≫= k) Q.
Proof. intros Hm Hk. eapply tri_bind; [exact Hm|]. intros a w fs [Hw Ha]. by apply (Hk a Ha). Qed.

Lemma still_conseq {A : Type} (m : io world A) (R R' : A → Prop) : still m R → (∀ a, R a → R' a) → still m R'.
Proof. intros Hm HR. eapply tri_conseq; [exact Hm|done| |done..]. intros a w [? ?]. auto. Qed.

Lemma still_ret {A : Type} (a : A) (R : A → Prop) : R a → still (mret a) R.
Proof. intros Ha w fs ->. by split. Qed.
Lemma still_fail {A : Type} e (R : A → Prop) : still (io_fail e) R.
Proof. by intros w fs ->. Qed.
Lemma still_look {A : Type} (f : tree → result A) (R : A → Prop) : (∀ a, f base = Ok a → R a) → still (look f) R.
Proof.
  intros HR w fs ->. unfold look. fold base. destruct (f base) as [a|e] eqn:E; [|done]. specialize (HR a eq_refl). by destruct fs as [|[] fs].
Qed.
Lemma still_lift {A : Type} (r : result A) (R : A → Prop) : (∀ a, r = Ok a → R a) → still (io_lift r) R.
Proof. intros HR. destruct r as [a|e]; [by apply still_ret, HR|apply still_fail]. Qed.

Lemma still_write p : still (check_write p) (λ _, True).
Proof.
  unfold check_write. destruct (one_of _ _); [apply still_fail|]. generalize (up (parent p)). intros l.
  induction l as [|q l IH]; cbn [check_ancestors]; [by apply still_ret|]. eapply still_bind with (R := λ _, True); [by apply still_look|].
  intros [[]|] _; try exact IH; [apply still_fail|by apply still_ret].
Qed.

Lemma still_checked value write : still (checkedPath value write) (λ p, p = clean_path value).
Proof.
  unfold checkedPath. destruct (negb _); [apply still_fail|]. destruct (ContainsAny _ _); [apply still_fail|]. cbv zeta.
  eapply still_bind with (R := λ _, True); [destruct write; [apply still_write|by apply still_ret]|]. intros [] _. by apply still_ret.
Qed.

Lemma still_scope p : still (ensureTransactionScope p) (λ _, True).
Proof.
  induction p as [|y q IH]; cbn [ensureTransactionScope]; (eapply still_bind with (R := λ _, True); [by apply still_look|]);
    intros [[]|] _; try apply still_fail; try by apply still_ret. exact IH.
Qed.

Hypothesis base_wf : wf base.

(** A directory that is missing above [p]. *)
Definition missing_at p d : Prop := d ≠ [] ∧ base !! d = None ∧ d `suffix_of` p.

Lemma missing_above d p q : missing_at p d → p `suffix_of` q → missing_at q d.
Proof. intros (? & ? & ?) ?. split_and!; [done..|]. by transitivity p. Qed.

Lemma still_missing p l : still (missing_from p l) (λ r, ∀ d, d ∈ r → d ∈ l ∨ missing_at p d).
Proof.
  revert l. induction p as [|y q IH]; intros l; cbn [missing_from].
  - eapply still_bind with (R := λ _, True); [by apply still_look|]. intros [[]|] _; try apply still_fail. apply still_ret. by left.
  - eapply still_bind with (R := λ info, info = base !! (y :: q)).
    { apply still_look. intros info E. by apply (lstat_wf base). }
    intros [[]|] E; try apply still_fail; [apply still_ret; by left|].
    eapply still_conseq; [apply (IH ((y :: q) :: l))|]. cbv beta. intros r Hr d Hd. specialize (Hr d Hd).
    destruct Hr as [[->|Hl]%elem_of_cons|Hm]; [right; by split_and!|by left|right]. eapply missing_above; [done|]. by apply suffix_cons_r.
Qed.

Lemma still_change n seen raw :
  still (normalize_change x n seen raw)
    (λ r, made n raw r.1 ∧ ti_Path r.1 ∉ seen ∧ ∀ d, d ∈ r.2 → missing_at (parent (ti_Path r.1)) d).
Proof.
  unfold normalize_change. eapply still_bind; [apply still_checked|]. intros p ->. fold (target_of raw).
  destruct (bool_decide_reflect (target_of raw ∈ seen)) as [|Hseen]; [apply still_fail|].
  destruct (cr_ExpectedExists raw) as [e|] eqn:Ee; [|apply still_fail]. destruct (cr_NewExists raw) as [w|] eqn:Ew; [|apply still_fail].
  eapply still_bind with (R := λ _, e = true → check_expected raw = Ok tt).
  { apply still_lift. intros [] E ->. exact E. }
  intros [] Hexp. eapply still_bind with (R := λ c, w = true → check_new raw = Ok c).
  { apply still_lift. intros c E ->. exact E. }
  intros c Hnew. eapply still_bind with (R := λ ds, ∀ d, d ∈ ds → missing_at (parent (target_of raw)) d).
  { destruct w; [|apply still_ret; by intros d ?%not_elem_of_nil]. eapply still_conseq; [apply still_missing|].
    cbv beta. intros ds Hds d Hd. by destruct (Hds d Hd) as [?%not_elem_of_nil|?]. }
  intros ds Hds. apply still_ret. split_and!; [|done|done]. by exists e, w, c.
Qed.

Lemma in_add_new missing dirs d : d ∈ add_new dirs missing → d ∈ dirs ∨ d ∈ missing.
Proof.
  unfold add_new. revert dirs. induction missing as [|q l IH]; intros dirs Hd; [by left|]. cbn in Hd.
  destruct (IH _ Hd) as [Hin|Hin]; [|right; by right]. destruct (bool_decide _); [by left|].
  apply elem_of_app in Hin as [Hin| ->%list_elem_of_singleton]; [by left|right; by left].
Qed.

Lemma still_loop changes : ∀ n items dirs,
  NoDup (map ti_Path items) →
  still (normalize_loop x n changes items dirs)
    (λ r, ∃ items', r.1 = items ++ items' ∧ made_all n changes items' ∧ NoDup (map ti_Path r.1) ∧
       ∀ d, d ∈ r.2 → d ∈ dirs ∨ ∃ i, i ∈ items' ∧ missing_at (parent (ti_Path i)) d).
Proof.
  induction changes as [|raw changes IH]; intros n items dirs Hnd; cbn [normalize_loop].
  - apply still_ret. exists []. cbn [fst snd]. rewrite app_nil_r. split_and!; [done..|]. by left.
  - eapply still_bind; [apply still_change|]. intros [i ds] (Hm & Hni & Hds). cbn [fst snd] in *.
    assert (NoDup (map ti_Path (items ++ [i]))) as Hnd'.
    { rewrite map_app. apply NoDup_app. split_and!; [done| |apply NoDup_singleton]. intros p Hp ->%list_elem_of_singleton. done. }
    eapply still_conseq; [apply (IH (N.succ n) (items ++ [i]) _ Hnd')|]. cbv beta.
    intros r (items' & E & Hall & Hnd2 & Hd). exists (i :: items'). split; [by rewrite E, <- app_assoc|]. split; [done|]. split; [done|].
    intros d Hin. destruct (Hd d Hin) as [[?|?]%in_add_new|(j & Hj & Hjm)]; [by left|right; exists i; split; [by left|by apply Hds]|].
    right. exists j. split; [by right|done].
Qed.

(** The preflight. *)
Definition preflighted i : Prop :=
  if ti_ExpectedExists i then ∃ f, base !! ti_Path i = Some (Regular f) ∧ is_expected i (Some (snapshot_of f)) = true
  else base !! ti_Path i = None.

Lemma still_snapshot p :
  p ≠ [] → still (pathSnapshot p) (λ s, match s with None => base !! p = None | Some s => ∃ f, base !! p = Some (Regular f) ∧ s = snapshot_of f end).
Proof.
  intros Hp. unfold pathSnapshot. eapply still_bind; [apply still_write|]. intros [] _.
  eapply still_bind with (R := λ info, info = base !! p); [apply still_look; intros info E; by apply (lstat_wf base)|].
  intros [[f| | |]|] E; try apply still_fail; [|by apply still_ret]. destruct (_ <? _); [apply still_fail|]. apply still_ret. by exists f.
Qed.

Lemma still_preflight l : (∀ i, i ∈ l → ti_Path i ≠ []) → still (verifyTransactionPreflight l) (λ _, ∀ i, i ∈ l → preflighted i).
Proof.
  unfold verifyTransactionPreflight. induction l as [|i l IH]; intros Hl; cbn [each].
  - apply still_ret. by intros i ?%not_elem_of_nil.
  - eapply still_bind with (R := λ _, preflighted i).
    + unfold preflight_item, preflighted. eapply still_bind; [apply still_snapshot, Hl; by left|].
      intros s Hs. cbv beta in Hs. destruct (ti_ExpectedExists i); cbn [negb].
      * destruct (is_expected i s) eqn:Ee; [|apply still_fail]. apply still_ret. destruct s as [s|]; [|discriminate]. destruct Hs as (f & Ef & ->). by exists f.
      * destruct s; [apply still_fail|by apply still_ret].
    + intros [] Hi. eapply still_conseq; [apply IH; intros j Hj; apply Hl; by right|].
      cbv beta. intros [] Hr j [->|Hj]%elem_of_cons; auto.
Qed.
End Made.

(** ** The plan *)

Lemma cons_head {A : Type} (a b : A) l l' : a :: l = b :: l' → a = b.
Proof. by intros [= ->]. Qed.

Lemma backup_name_inj x m n : backup_name x m = backup_name x n → m = n.
Proof. unfold backup_name. intros E. do 3 apply (inj (String.append _)) in E. by apply (inj pretty) in E. Qed.
Lemma write_name_inj x m n : write_name x m = write_name x n → m = n.
Proof. unfold write_name. intros E. do 3 apply (inj (String.append _)) in E. by apply (inj pretty) in E. Qed.
Lemma backup_write_name x m n : backup_name x m ≠ write_name x n.
Proof. unfold backup_name, write_name. intros E. discriminate E. Qed.

(** A state from which a patch is begun: nothing is waiting to be synced or
    recovered, and the names the transaction will use are new. *)
Record calm (stateDir : path) (w : world) (changes : list ChangeRequest) : Prop := {
  calm_wf : wf (w_now w);
  calm_past : w_past w = [];
  calm_synced : ∀ p f, w_now w !! p = Some (Regular f) → rg_Synced f = true;
  calm_journals : ∀ name, HasSuffix name ".json" = true → w_now w !! (name :: stateDir) = None;
  calm_ids : ∀ x, x ∈ w_ids w → hex_id x;
  calm_names : ∀ q n, let x := default "" (head (w_ids w)) in
    w_now w !! (backup_name x n :: q) = None ∧ w_now w !! (write_name x n :: q) = None;
  calm_requests : ∀ raw n, raw ∈ changes → let x := default "" (head (w_ids w)) in
    backup_name x n ∉ target_of raw ∧ write_name x n ∉ target_of raw;
  calm_outside : ∀ raw, raw ∈ changes → ¬ stateDir `suffix_of` target_of raw;
  calm_flat : ∀ raw raw', raw ∈ changes → raw' ∈ changes → ¬ target_of raw `suffix_of` parent (target_of raw');
}.

Section Planned.
Context `{Kernel} `{PatchHost}.
Variables (stateDir : path) (w : world) (changes : list ChangeRequest).
Hypothesis Hcalm : calm stateDir w changes.
Implicit Types (raw : ChangeRequest) (i j : transactionItem) (n : N) (p q d : path) (t : tree).
Let x : string := default "" (head (w_ids w)).
Let base : tree := w_now w.

Lemma target_ne raw : raw ∈ changes → target_of raw ≠ [].
Proof. intros Hr E. apply (calm_flat _ _ _ Hcalm raw raw Hr Hr). rewrite E. apply suffix_nil. Qed.

Lemma target_head raw : raw ∈ changes → ∃ y, target_of raw = y :: parent (target_of raw).
Proof. intros Hr. pose proof (target_ne raw Hr). destruct (target_of raw) as [|y q]; [done|]. by exists y. Qed.

Lemma of_made n items : ∀ cs,
  made_all x n cs items → ∀ i, i ∈ items → ∃ raw k, raw ∈ cs ∧ (n ≤ k)%N ∧ made x k raw i.
Proof.
  revert n. induction items as [|i items IH]; intros n [|raw cs] Hm; try by destruct Hm.
  - by intros i ?%not_elem_of_nil.
  - destruct Hm as [Hi Hm]. intros j [->|Hj]%elem_of_cons; [exists raw, n; split_and!; [by left|lia|done]|].
    destruct (IH _ _ Hm j Hj) as (r & k & Hr & Hk & Hrk). exists r, k. split_and!; [by right|lia|done].
Qed.

Lemma made_apart n items : ∀ cs,
  made_all x n cs items → NoDup (map ti_Path items) → ∀ i j, i ∈ items → j ∈ items →
  i = j ∨ ∃ ri rj a b, ri ∈ cs ∧ rj ∈ cs ∧ a ≠ b ∧ made x a ri i ∧ made x b rj j ∧ ti_Path i ≠ ti_Path j.
Proof.
  revert n. induction items as [|k items IH]; intros n [|raw cs] Hm Hnd; try by destruct Hm.
  - by intros i j ?%not_elem_of_nil.
  - destruct Hm as [Hk Hm]. cbn in Hnd. apply NoDup_cons in Hnd as [Hno Hnd].
    assert (∀ j, j ∈ items → ti_Path k ≠ ti_Path j) as Hne.
    { intros j Hj E. apply Hno. rewrite E. by apply list_elem_of_In, in_map, list_elem_of_In. }
    intros i j [->|Hi]%elem_of_cons [->|Hj]%elem_of_cons; [by left| | |].
    + right. destruct (of_made _ _ _ Hm j Hj) as (r & a & Hr & Ha & Hra). exists raw, r, n, a.
      split_and!; [by left|by right|lia|done|done|by apply Hne].
    + right. destruct (of_made _ _ _ Hm i Hi) as (r & a & Hr & Ha & Hra). exists r, raw, a, n.
      split_and!; [by right|by left|lia|done|done|]. by apply not_eq_sym, Hne.
    + destruct (IH _ _ Hm Hnd i j Hi Hj) as [->|(ri & rj & a & b & ? & ? & ?)]; [by left|right].
      exists ri, rj, a, b. split_and!; [by right|by right|naive_solver..].
Qed.

(** The paths of an item, by name. *)
Lemma made_paths n raw i p : made x n raw i → p ∈ item_paths i →
  p = target_of raw ∨ p = backup_name x n :: parent (target_of raw) ∨ p = write_name x n :: parent (target_of raw).
Proof.
  intros (e & v & c & _ & _ & _ & _ & ->). set (b := backup_name x n :: _). set (m := write_name x n :: _). clearbody b m. intros [->|[Hp|Hp]%elem_of_app]%elem_of_cons; [by left|right..].
  - destruct e; [|by apply not_elem_of_nil in Hp]. apply list_elem_of_singleton in Hp. by left.
  - destruct v; [|by apply not_elem_of_nil in Hp]. apply list_elem_of_singleton in Hp. by right.
Qed.

Lemma not_named raw n q : raw ∈ changes → backup_name x n :: q ≠ target_of raw ∧ write_name x n :: q ≠ target_of raw.
Proof.
  intros Hr. destruct (calm_requests _ _ _ Hcalm raw n Hr) as [Hb Hw]. fold x in Hb, Hw.
  split; intros E; [apply Hb|apply Hw]; rewrite <- E; by left.
Qed.

Lemma made_planned n raw i : raw ∈ changes → made x n raw i → preflighted w i → planned stateDir base i.
Proof.
  intros Hr Hm Hpre. pose proof (target_head raw Hr) as [y Ey]. pose proof (calm_outside _ _ _ Hcalm raw Hr) as Hout.
  assert (parent (target_of raw) ≠ stateDir) as Hpar by (intros E; apply Hout; rewrite Ey, E; by apply suffix_cons_r).
  assert (∀ p, p ∈ item_paths i → p ≠ [] ∧ parent p ≠ stateDir) as Hpaths.
  { intros p Hp. destruct (made_paths n raw i p Hm Hp) as [->|[->| ->]]; split; try done. by apply target_ne. }
  destruct Hm as (e & v & c & Ee & Ev & He & Hv & ->). destruct (not_named raw n (parent (target_of raw)) Hr) as [Hnb Hnw].
  destruct (calm_names _ _ _ Hcalm (parent (target_of raw)) n) as [Hb0 Hm0]. fold x in Hb0, Hm0.
  set (b := backup_name x n :: parent (target_of raw)) in *. set (m := write_name x n :: parent (target_of raw)) in *.
  assert (b ≠ m) as Hbm by (intros E%cons_head; by apply (backup_write_name x n n)). clearbody b m. unfold preflighted in Hpre. cbn in Hpre.
  split; unfold was; cbn.
  - intros ->. destruct Hpre as (f & Ef & Ex). exists f. split_and!; [done| |done]. by apply (calm_synced _ _ _ Hcalm (target_of raw)).
  - by intros ->.
  - intros ->. specialize (He eq_refl). unfold check_expected in He. apply reject_bind_Ok in He as [_ He].
    destruct (cr_ExpectedMode raw), (cr_ExpectedUID raw), (cr_ExpectedGID raw); done.
  - destruct e; split; try done; by intros [? ?].
  - destruct v; split; try done; by intros [? ?].
  - intros p [Hp|Hp]%elem_of_app.
    + destruct e; [|by apply not_elem_of_nil in Hp]. by apply list_elem_of_singleton in Hp as ->.
    + destruct v; [|by apply not_elem_of_nil in Hp]. by apply list_elem_of_singleton in Hp as ->.
  - exact Hpaths.
  - unfold item_paths. cbn. destruct e, v; cbn; repeat constructor; rewrite ?elem_of_cons, ?elem_of_nil; naive_solver.
Qed.

Lemma made_disjoint a b ri rj i j :
  ri ∈ changes → rj ∈ changes → a ≠ b → made x a ri i → made x b rj j → ti_Path i ≠ ti_Path j → ∀ p, p ∈ item_paths i → p ∉ item_paths j.
Proof.
  intros Hri Hrj Hab Hi Hj Hne p Hpi Hpj. rewrite (made_path x a ri i Hi), (made_path x b rj j Hj) in Hne.
  pose proof (made_paths a ri i p Hi Hpi) as [E|[E|E]]; pose proof (made_paths b rj j p Hj Hpj) as [E'|[E'|E']]; rewrite E in E'.
  - by apply Hne.
  - destruct (not_named ri b (parent (target_of rj)) Hri) as [Hn _]. by apply Hn.
  - destruct (not_named ri b (parent (target_of rj)) Hri) as [_ Hn]. by apply Hn.
  - destruct (not_named rj a (parent (target_of ri)) Hrj) as [Hn _]. by apply Hn.
  - apply cons_head in E'. by apply Hab, (backup_name_inj x).
  - apply cons_head in E'. by apply (backup_write_name x) in E'.
  - destruct (not_named rj a (parent (target_of ri)) Hrj) as [_ Hn]. by apply Hn.
  - apply cons_head in E'. symmetry in E'. by apply (backup_write_name x) in E'.
  - apply cons_head in E'. by apply Hab, (write_name_inj x).
Qed.

Hypothesis decode_encode : ∀ k, decode_journal (encode_journal k) = Some (stored k).
Hypothesis state_syncs : sync_fails stateDir = false.

Definition is_base t : Prop := t = base.

(** The plan that is made of the request. *)
Record plan (items : list transactionItem) : Prop := {
  pn_made : made_all x 0 changes items;
  pn_planned : ∀ i, i ∈ items → planned stateDir base i;
  pn_apart : ∀ i j, i ∈ items → j ∈ items → i = j ∨ ∀ p, p ∈ item_paths i → p ∉ item_paths j;
  pn_nodup : NoDup items;
}.

Lemma plan_ok items :
  made_all x 0 changes items → NoDup (map ti_Path items) → (∀ i, i ∈ items → preflighted w i) → plan items.
Proof.
  intros Hm Hnd Hpre. split; [done| | |by apply (NoDup_fmap_1 ti_Path)].
  - intros i Hi. destruct (of_made _ _ _ Hm i Hi) as (raw & n & Hr & _ & Hn). apply (made_planned n raw i Hr Hn). by apply Hpre.
  - intros i j Hi Hj. destruct (made_apart _ _ _ Hm Hnd i j Hi Hj) as [->|(ri & rj & a & b & Hri & Hrj & Hab & Hmi & Hmj & Hne)]; [by left|right].
    by apply (made_disjoint a b ri rj).
Qed.

Lemma id_is_hex : hex_id x.
Proof. unfold x. pose proof (calm_ids _ _ _ Hcalm) as Hi. destruct (w_ids w) as [|y l]; [done|]. apply Hi. by left. Qed.

Lemma core_base items : core stateDir x base items base.
Proof.
  split; [apply (calm_wf _ _ _ Hcalm)|by left|]. intros name Hs _. by apply (calm_journals _ _ _ Hcalm).
Qed.

Lemma base_settled items : plan items → settled_old stateDir x base items base.
Proof.
  intros Hp. split; [apply core_base|]. split; [apply (calm_journals _ _ _ Hcalm), jname_suffix|].
  intros i Hi. pose proof (pn_planned _ Hp i Hi) as Hpl. split.
  - unfold target, was. destruct (ti_ExpectedExists i) eqn:He.
    + destruct (pl_old _ _ _ Hpl He) as (f & Ef & Hs & _). unfold was in Ef. by rewrite Ef.
    + pose proof (pl_none _ _ _ Hpl He) as E. unfold was in E. by rewrite E.
  - unfold backup. destruct (ti_BackupPath i) as [b|] eqn:Eb; [|done]. apply (pl_fresh _ _ _ Hpl). rewrite Eb. by left.
Qed.

Lemma dirs_ok items d : plan items → (∃ i, i ∈ items ∧ missing_at w (parent (ti_Path i)) d) → dir_ok stateDir base items d.
Proof.
  intros Hp (i & Hi & Hd & Hb & Hsuf). destruct (of_made _ _ _ (pn_made _ Hp) i Hi) as (raw & n & Hr & _ & Hm).
  rewrite (made_path _ _ _ _ Hm) in Hsuf. destruct (target_head raw Hr) as [y Ey].
  assert (d `suffix_of` target_of raw) as Hsuf' by (rewrite Ey; by apply suffix_cons_r).
  split; [done|]. split; [|split; [done|]].
  - intros Ht. apply (of_touched items) in Ht as (j & Hj & Hin).
    destruct (of_made _ _ _ (pn_made _ Hp) j Hj) as (rj & k & Hrj & _ & Hmj).
    assert (∀ a q, d = a :: q → a ∈ target_of raw) as Hhead.
    { intros a q ->. destruct Hsuf' as [l ->]. apply elem_of_app. right. by left. }
    destruct (calm_requests _ _ _ Hcalm raw k Hr) as [Hnb Hnw].
    destruct (made_paths k rj j d Hmj Hin) as [->|[E|E]].
    + by apply (calm_flat _ _ _ Hcalm rj raw Hrj Hr).
    + by eapply Hnb, Hhead.
    + by eapply Hnw, Hhead.
  - intros E. apply (calm_outside _ _ _ Hcalm raw Hr). transitivity d; [|done]. rewrite <- E. destruct d as [|a q]; [done|]. by apply suffix_cons_r.
Qed.

(** ** The run of a patch *)

Lemma held_base w' : w' = w → held is_base w'.
Proof. intros ->. split; [done| |apply (calm_ids _ _ _ Hcalm)]. rewrite (calm_past _ _ _ Hcalm). by intros t ?%not_elem_of_nil. Qed.

Lemma still_recover : still w (recoverTransactionJournals stateDir) (λ _, True).
Proof.
  unfold recoverTransactionJournals. eapply still_bind with (R := λ names, names = []).
  { apply still_look. intros names E. apply (names_found stateDir x base [] base names (core_base []) E).
    apply (calm_journals _ _ _ Hcalm), jname_suffix. }
  intros names ->. cbn [each]. eapply still_bind with (R := λ _, True); [by apply still_ret|]. intros [] _. by apply still_ret.
Qed.

(** How a patch is left that did not commit, and one that died. *)
Definition undone (w' : world) : Prop :=
  held is_base w' ∨ ∃ items, plan items ∧ held (will_be_old stateDir x base items) w'.
Definition undone_now (w' : world) : Prop :=
  held is_base w' ∨ ∃ items, plan items ∧ now (will_be_old stateDir x base items) (all_old base items) w'.
Definition undecided (w' : world) : Prop :=
  held is_base w' ∨ ∃ items, plan items ∧ held (good stateDir x base items) w'.
Definition applied (w' : world) : Prop := ∃ items, plan items ∧ held (is_updated stateDir x base items) w'.

Lemma undone_now_undone w' : undone_now w' → undone w'.
Proof. intros [?|(items & ? & ? & _)]; [by left|right; by exists items]. Qed.

Definition prepared (a : Z * string * list transactionItem * list path * transactionJournal) (w' : world) : Prop :=
  let '(_, id, items, dirs, k) := a in
  id = x ∧ plan items ∧ (∀ d, d ∈ dirs → dir_ok stateDir base items d) ∧ open_journal stateDir base items k ∧
  now (will_be_old stateDir x base items) (λ t, open stateDir x base items t ∧ all_old base items t) w'.

(** The world after the identifier of the transaction was drawn. *)
Definition drawn : world := w <| w_ids ::= tail |>.

Lemma held_drawn : held is_base drawn.
Proof.
  split; [done| |].
  - unfold drawn. cbn. rewrite (calm_past _ _ _ Hcalm). by intros t ?%not_elem_of_nil.
  - intros y Hy. apply (calm_ids _ _ _ Hcalm). cbn in Hy. destruct (w_ids w); [done|by right].
Qed.

Lemma of_still {A : Type} w' (m : io world A) (R : A → Prop) :
  held is_base w' → still w' m R → tri (λ v, v = w') m (λ a v, v = w' ∧ R a) undone_now undecided.
Proof. intros Hh Hm. eapply tri_conseq; [exact Hm|done..| |]; by intros d ->; left. Qed.

Definition normalized (r : list transactionItem * list path) : Prop :=
  made_all x 0 changes r.1 ∧ NoDup (map ti_Path r.1) ∧ ∀ d, d ∈ r.2 → ∃ i, i ∈ r.1 ∧ missing_at w (parent (ti_Path i)) d.

Lemma still_normalize : still drawn (normalizeTransactionChanges changes x) normalized.
Proof.
  unfold normalizeTransactionChanges. destruct (is_empty changes); [apply still_fail|].
  eapply still_bind; [apply (still_loop x drawn); [apply (calm_wf _ _ _ Hcalm)|constructor]|].
  intros [items dirs] (items' & E & Hm & Hnd & Hd). cbn [fst snd app] in *. subst items'.
  apply still_ret. split; [done|]. split; [done|]. intros d Hin%elem_of_sort_by. by destruct (Hd d Hin) as [?%not_elem_of_nil|?].
Qed.

Lemma still_plan items dirs :
  normalized (items, dirs) → still drawn (verifyTransactionPreflight items) (λ _, plan items ∧ ∀ d, d ∈ dirs → dir_ok stateDir base items d).
Proof.
  intros (Hm & Hnd & Hd). cbn [fst snd] in *. eapply still_conseq; [apply (still_preflight drawn); [apply (calm_wf _ _ _ Hcalm)|]|].
  - intros i Hi. destruct (of_made _ _ _ Hm i Hi) as (raw & n & Hr & _ & Hn). rewrite (made_path _ _ _ _ Hn). by apply target_ne.
  - intros [] Hpre. assert (plan items) as Hp by by apply plan_ok. split; [done|]. intros d Hin. by apply dirs_ok, Hd.
Qed.

Lemma prepare_in busy workdir : tri (λ w', w' = w) (prepare stateDir busy workdir changes) prepared undone_now undecided.
Proof.
  unfold prepare. pose proof (held_base w eq_refl) as Hw.
  eapply tri_bind; [apply of_still; [done|apply still_checked]|]. intros dir. eapply tri_bind with (R := λ _ v, v = w ∧ True).
  { eapply tri_pre; [apply of_still; [done|apply still_scope]|by intros d [? _]]. }
  intros []. destruct busy; [by apply tri_fail; intros d [-> _]; left|].
  eapply tri_bind with (R := λ _ v, v = w ∧ True); [eapply tri_pre; [apply of_still; [done|apply still_recover]|by intros d [? _]]|].
  intros recovered. eapply tri_bind with (R := λ id v, id = x ∧ v = drawn); [by intros d fs [-> _]|].
  intros id. intros d fs [-> ->]. pose proof held_drawn as Hd.
  assert (tri (λ v, v = drawn) ('(items, plannedDirs) ← normalizeTransactionChanges changes x;
    verifyTransactionPreflight items;;
    let journal := mkJournal 1 x dir "preparing" [] items in
    writeJSONAtomic ((x +:+ ".json") :: stateDir) journal;;
    mret (recovered, x, items, plannedDirs, journal)) prepared undone_now undecided) as Hm; [|by apply Hm].
  eapply tri_bind; [apply of_still; [done|apply still_normalize]|]. intros [items dirs].
  intros d' fs' [-> Hn]. revert fs'.
  assert (tri (λ v, v = drawn) (verifyTransactionPreflight items;;
    let journal := mkJournal 1 x dir "preparing" [] items in
    writeJSONAtomic ((x +:+ ".json") :: stateDir) journal;;
    mret (recovered, x, items, dirs, journal)) prepared undone_now undecided) as Hm; [|intros fs'; by apply Hm].
  eapply tri_bind; [apply of_still; [done|by apply still_plan]|]. intros [] d' fs' [-> [Hp Hdirs]]. revert fs'. cbv zeta.
  set (k := mkJournal 1 x dir "preparing" [] items).
  assert (open_journal stateDir base items k) as Hk by (split; [done..|by intros q ?%not_elem_of_nil]).
  assert (tri (λ v, v = drawn) (writeJSONAtomic (jpath stateDir x) k;; mret (recovered, x, items, dirs, k)) prepared undone_now undecided) as Hm; [|intros fs'; by apply Hm].
  assert (now (will_be_old stateDir x base items) (settled_old stateDir x base items) drawn) as Hnow.
  { pose proof (base_settled items Hp) as Hs. split; [|done]. apply (held_mono is_base); [intros t ->; by right|done]. }
  eapply tri_bind.
  - eapply tri_conseq; [apply (start_in stateDir x base items (pn_planned _ Hp) k Hk)|by intros d ->|intros u d Hq; exact Hq| |].
    + intros d Hq. right. by exists items.
    + intros d Hq. right. exists items. split; [done|]. eapply held_mono; [|exact Hq]. by left.
  - intros []. apply tri_ret. intros d Hq. by split_and!.
Qed.

(** A file is as it was. *)
Definition as_before p t : Prop := t !! p = base !! p ∨ same_file (t !! p) (base !! p).

(** A file is as it was asked for. *)
Definition as_asked raw t : Prop :=
  match cr_NewExists raw with
  | Some true => ∃ f, t !! target_of raw = Some (Regular f) ∧ cr_Content raw = Some (rg_Content f) ∧
      snapshotMatches (Some (snapshot_of f)) (cr_SHA256 raw) (cr_Mode raw) (cr_OwnerUID raw) (cr_OwnerGID raw) = true
  | _ => t !! target_of raw = None
  end.

(** What is none of the patch's business. *)
Definition beside_patch p : Prop :=
  p ≠ [] ∧ parent p ≠ stateDir ∧ (∀ raw, raw ∈ changes → p ≠ target_of raw) ∧ ∀ n q, p ≠ backup_name x n :: q ∧ p ≠ write_name x n :: q.

(** Nothing else has changed, but for directories that were created, and no
    journal is left. *)
Definition nothing_else t : Prop :=
  (∀ p, beside_patch p → t !! p = base !! p ∨ (base !! p = None ∧ t !! p = Some Directory)) ∧
  ∀ name, HasSuffix name ".json" = true → t !! (name :: stateDir) = None.

Definition all_before t : Prop := ∀ raw, raw ∈ changes → as_before (target_of raw) t.
Definition all_asked t : Prop := ∀ raw, raw ∈ changes → as_asked raw t.

Lemma made_for n items : ∀ cs, made_all x n cs items → ∀ raw, raw ∈ cs → ∃ i k, i ∈ items ∧ made x k raw i.
Proof.
  revert n. induction items as [|i items IH]; intros n [|r cs] Hm; try by destruct Hm.
  - by intros raw ?%not_elem_of_nil.
  - destruct Hm as [Hi Hm]. intros raw [->|Hr]%elem_of_cons; [exists i, n; split; [by left|done]|].
    destruct (IH _ _ Hm raw Hr) as (j & k & Hj & Hk). exists j, k. split; [by right|done].
Qed.

Lemma old_is_before items t : plan items → all_old base items t → all_before t.
Proof.
  intros Hp Ho raw Hr. destruct (made_for _ _ _ (pn_made _ Hp) raw Hr) as (i & k & Hi & Hm).
  destruct (Ho i Hi) as [Ht _]. unfold target, was in Ht. rewrite (made_path _ _ _ _ Hm) in Ht. by right.
Qed.

Lemma new_is_asked items t : plan items → all_new items t → all_asked t.
Proof.
  intros Hp Ha raw Hr. destruct (made_for _ _ _ (pn_made _ Hp) raw Hr) as (i & k & Hi & Hm).
  destruct (Ha i Hi) as [Ht Hn]. destruct Hm as (e & v & c & _ & Ev & _ & Hc & ->). unfold target, installed in Ht. cbn in Ht, Hn.
  unfold as_asked. rewrite Ev. destruct v; [|exact Ht]. eexists. split; [exact Ht|]. split; [|by apply Hn].
  specialize (Hc eq_refl). unfold check_new in Hc. destruct (cr_Content raw) as [content|]; [|discriminate].
  repeat apply reject_bind_Ok in Hc as [_ Hc]. injection Hc as ->. unfold new_file. cbn. by destruct (cr_OwnerUID raw).
Qed.

Lemma core_nothing_else items t : plan items → core stateDir x base items t → t !! jpath stateDir x = None → nothing_else t.
Proof.
  intros Hp [_ Hf Ho] Hj. split.
  - intros p (Hp0 & Hps & Hpt & Hpn). apply Hf; [done| |done]. intros Hin. apply of_touched in Hin as (i & Hi & Hin).
    destruct (of_made _ _ _ (pn_made _ Hp) i Hi) as (raw & n & Hr & _ & Hm).
    destruct (Hpn n (parent (target_of raw))) as [Hnb Hnw]. destruct (made_paths n raw i p Hm Hin) as [->|[->| ->]]; [by eapply Hpt|done..].
  - intros name Hs. destruct (decide (name = jname x)) as [->|Hne]; [exact Hj|by apply Ho].
Qed.

Definition restored t : Prop := nothing_else t ∧ all_before t.
Definition patched_as_asked t : Prop := nothing_else t ∧ all_asked t.

Lemma settled_restored items t : plan items → settled_old stateDir x base items t → restored t.
Proof. intros Hp (Hc & Hj & Ho). split; [by eapply core_nothing_else|by eapply old_is_before]. Qed.
Lemma settled_patched items t : plan items → settled_new stateDir x base items t → patched_as_asked t.
Proof. intros Hp (Hc & Hj & Ho). split; [by eapply core_nothing_else|by eapply new_is_asked]. Qed.
Lemma base_restored : restored base.
Proof. split; [split; [by left|apply (calm_journals _ _ _ Hcalm)]|by left]. Qed.

(** How a patch ends. *)
Definition ends (r : patched) (w' : world) : Prop :=
  match r with
  | Patched _ => applied w'
  | NotPatched _ outcome _ => undone w' ∧ (outcome = "unchanged" → all_before (w_now w'))
  end.

Lemma patch_in busy workdir : tri (λ w', w' = w) (patchTransaction stateDir busy workdir changes) ends (λ _, False) undecided.
Proof.
  unfold patchTransaction. eapply tri_bind; [eapply tri_try, prepare_in|]. intros [a|err].
  - destruct a as [[[[recovered id] items] dirs] k]. intros w' fs (-> & Hp & Hd & Hk & Hnow).
    pose proof (finish_in stateDir x base items (pn_planned _ Hp) (pn_apart _ Hp) (pn_nodup _ Hp) state_syncs
      k dirs recovered Hk Hd w' fs Hnow) as Hm.
    change (match run_outcome (finish stateDir x k items dirs recovered w' fs) with
      | Done a => ends a (run_disk (finish stateDir x k items dirs recovered w' fs)) | Failed _ => False
      | Dead => undecided (run_disk (finish stateDir x k items dirs recovered w' fs)) end).
    destruct (run_outcome _) as [r|e|]; [|done|right; by exists items]. destruct r as [r|code outcome res]; cbn in *.
    + by exists items.
    + destruct Hm as [Hh Ho]. split; [right; by exists items|]. intros E. by eapply old_is_before, Ho.
  - apply tri_ret. intros w' Hu. split; [by apply undone_now_undone|]. intros _. destruct Hu as [Hh|(items & Hp & Hh & Ho)].
    + rewrite (held_now _ _ Hh). by left.
    + by eapply old_is_before.
Qed.

(** ** Afterwards *)

(** The fate of the trees of a patch, by how it was left. *)
Lemma base_fate : fate stateDir is_base is_base.
Proof.
  split.
  - intros t t' Hl ->. unfold is_base. apply map_eq. intros p. apply (left_of_kept _ _ _ Hl). intros f. apply (calm_synced _ _ _ Hcalm).
  - unfold recoverTransactionJournals. eapply bind_in with (R := λ names t, names = []).
    + apply look_in; [|done]. intros t names -> _ E. apply (names_found stateDir x base [] base names (core_base []) E).
      apply (calm_journals _ _ _ Hcalm), jname_suffix.
    + intros names. intros w' fs [Hh ->]. pose proof (held_now _ _ Hh) as E. by split.
Qed.

Lemma plan_old_fate items : plan items → fate stateDir (will_be_old stateDir x base items) (settled_old stateDir x base items).
Proof. intros Hp. apply old_fate; [apply Hp..|apply (calm_synced _ _ _ Hcalm)|done]. Qed.
Lemma plan_new_fate items : plan items → fate stateDir (is_updated stateDir x base items) (settled_new stateDir x base items).
Proof. intros Hp. apply new_fate; [apply Hp..|apply (calm_synced _ _ _ Hcalm)|done]. Qed.
Lemma plan_good_fate items :
  plan items → fate stateDir (good stateDir x base items) (λ t, settled_old stateDir x base items t ∨ settled_new stateDir x base items t).
Proof. intros Hp. apply good_fate; [apply Hp..|apply (calm_synced _ _ _ Hcalm)|done]. Qed.
End Planned.

(** What may happen after a patch: power is lost, and journals are recovered,
    in turn and whatever fails. *)
Inductive later `{Kernel} `{PatchHost} (stateDir : path) : world → world → Prop :=
  | later_now w : later stateDir w w
  | later_loss w w' w'' : power_loss w w' → later stateDir w' w'' → later stateDir w w''
  | later_recovery w busy workdir fs w'' :
      later stateDir (run_disk (recoverPatchTransactions stateDir busy workdir w fs)) w'' → later stateDir w w''.

Section Later.
Context `{Kernel} `{PatchHost}.
Variables (stateDir : path) (F S : tree → Prop).
Hypothesis HF : fate stateDir F S.

Lemma scope_in (G P : tree → Prop) p : tri_in G P (ensureTransactionScope p) (λ _, P) P.
Proof.
  induction p as [|y q IH]; cbn [ensureTransactionScope]; (eapply bind_in; [by apply (look_in _ _ _ (λ _, P))|]);
    intros [[]|]; try by apply fail_in. - by apply ret_in. - by apply ret_in. - exact IH.
Qed.

Lemma recover_in busy workdir : tri_in F F (recoverPatchTransactions stateDir busy workdir) (λ _, S) F.
Proof.
  unfold recoverPatchTransactions. eapply bind_in with (R := λ _, F).
  - unfold checkedPath. destruct (negb _); [by apply fail_in|]. destruct (ContainsAny _ _); [by apply fail_in|]. cbv zeta.
    eapply bind_in with (R := λ _, F); [by apply ret_in|]. intros []. by apply ret_in.
  - intros dir. eapply bind_in; [apply scope_in|]. intros []. destruct busy; [by apply fail_in|apply HF].
Qed.

Lemma held_present w : held F w → now F F w.
Proof. intros Hh. split; [done|apply (held_now _ _ Hh)]. Qed.

Lemma later_held w w' : later stateDir w w' → held F w → held F w'.
Proof.
  induction 1 as [|w w' w'' Hl _ IH|w busy wd fs w'' _ IH]; intros Hh; [done| |]; apply IH.
  - apply (power_loss_held F w); [|done..]. apply (fate_left _ _ _ HF).
  - pose proof (recover_in busy wd w fs (held_present w Hh)) as Hm. destruct (run_outcome _); [by destruct Hm..|done].
Qed.

Lemma recovered w busy workdir fs n w' fs' :
  held F w → recoverPatchTransactions stateDir busy workdir w fs = mkRun (Done n) w' fs' → S (w_now w').
Proof.
  intros Hh E. pose proof (recover_in busy workdir w fs (held_present w Hh)) as Hm. rewrite E in Hm. by destruct Hm.
Qed.
End Later.

(** ** The properties *)

Section Theorems.
Context `{Kernel} `{PatchHost}.
Variables (stateDir : path) (w : world) (changes : list ChangeRequest).


End Theorems.
