(* ===== verification/PatchSample.v ===== *)
(** * PatchSample: a patch that runs

    A kernel, an encoding of journals that is read back, and a request of two
    changes, on which the definitions of Patch are evaluated: a run that goes
    through, one that is cut by a loss of power, and what happens where the
    directory of the journals cannot be synced. *)

From stdpp Require Import countable.
From S2P Require Import Prelude GoText Durable FileTree Patch PatchSpec PatchPlan.
Local Open Scope Z_scope.

(** ** Journals as strings of bits *)

Fixpoint to_bits (p : positive) : string :=
  match p with
  | xH => ""
  | xO p => String "0" (to_bits p)
  | xI p => String "1" (to_bits p)
  end.

Fixpoint of_bits (s : string) : option positive :=
  match s with
  | EmptyString => Some xH
  | String a s => p ← of_bits s; Some (if Ascii.eqb a "0" then xO p else xI p)
  end.

Lemma of_to_bits p : of_bits (to_bits p) = Some p.
Proof. induction p as [p IH|p IH|]; cbn; [by rewrite IH..|done]. Qed.

Definition item_fields (i : transactionItem) : list positive :=
  [countable.encode (ti_Path i); countable.encode (ti_ExpectedExists i); countable.encode (ti_NewExists i); countable.encode (ti_ExpectedSHA256 i); countable.encode (ti_ExpectedMode i);
   countable.encode (ti_ExpectedUID i); countable.encode (ti_ExpectedGID i); countable.encode (ti_NewSHA256 i); countable.encode (ti_NewMode i); countable.encode (ti_NewUID i);
   countable.encode (ti_NewGID i); countable.encode (ti_TempPath i); countable.encode (ti_BackupPath i)].

Definition of_item_fields (l : list positive) : option transactionItem :=
  match l with
  | [a; b; c; d; e; f; g; h; i; j; k; m; n] =>
      a ← countable.decode a; b ← countable.decode b; c ← countable.decode c; d ← countable.decode d; e ← countable.decode e; f ← countable.decode f; g ← countable.decode g;
      h ← countable.decode h; i ← countable.decode i; j ← countable.decode j; k ← countable.decode k; m ← countable.decode m; n ← countable.decode n;
      Some (mkItem a b c d e f g h i j k m n "")
  | _ => None
  end.

Lemma of_item_fields_of i : of_item_fields (item_fields i) = Some (strip i).
Proof. unfold of_item_fields, item_fields. by repeat (rewrite decode_encode; cbn [mbind option_bind]). Qed.

Definition journal_fields (k : transactionJournal) : list positive :=
  [countable.encode (tj_Version k); countable.encode (tj_TransactionID k); countable.encode (tj_Workdir k); countable.encode (tj_Phase k); countable.encode (tj_CreatedDirs k);
   countable.encode (map item_fields (tj_Items k))].

Definition of_journal_fields (l : list positive) : option transactionJournal :=
  match l with
  | [a; b; c; d; e; f] =>
      a ← countable.decode a; b ← countable.decode b; c ← countable.decode c; d ← countable.decode d; e ← countable.decode e; f ← countable.decode f;
      items ← mapM of_item_fields f;
      Some (mkJournal a b c d e items)
  | _ => None
  end.

Definition to_text (k : transactionJournal) : string := to_bits (countable.encode (journal_fields k)).
Definition of_text (s : string) : option transactionJournal := p ← of_bits s; l ← countable.decode p; of_journal_fields l.

Lemma of_to_text k : of_text (to_text k) = Some (stored k).
Proof.
  unfold of_text, to_text. rewrite of_to_bits. cbn [mbind option_bind]. rewrite decode_encode. cbn [mbind option_bind].
  unfold of_journal_fields, journal_fields. repeat (rewrite decode_encode; cbn [mbind option_bind]).
  assert (mapM of_item_fields (map item_fields (tj_Items k)) = Some (map strip (tj_Items k))) as ->; [|done].
  induction (tj_Items k) as [|i l IH]; [done|]. cbn [map mapM]. by rewrite of_item_fields_of, IH.
Qed.

(** ** A host *)

(** Of 64 characters, as the hash is. *)
Definition pad (s : string) : string := of_bytes (take 64 (bytes s ++ repeat "."%char 64)).

Definition sample_kernel : Kernel := mkKernel 0 0 (λ _ _, true) (λ mode, Z.land mode 1023) true (λ d, false).
Definition sample_host : PatchHost := mkPatchHost pad to_text of_text.
#[local] Existing Instance sample_kernel.
#[local] Existing Instance sample_host.

Definition state_dir : path := ["state"; "var"].
Definition file_of (content : string) (mode : Z) : node := Regular (mkRegular content mode 0 0 true).

Definition sample_tree : tree :=
  list_to_map [(["var"], Directory); (state_dir, Directory); (["srv"], Directory); (["a"; "srv"], file_of "old" 420); (["o"; "srv"], file_of "other" 420)].
Definition sample_world : world := mkWorld sample_tree [] ["c0"; "d0"; "d1"; "d2"; "d3"].

Definition sample_changes : list ChangeRequest :=
  [mkChangeRequest "/srv/a" (Some true) (Some true) (pad "old") (Some 420) (Some 0) (Some 0) (Some "new") (pad "new") (Some 420) None None;
   mkChangeRequest "/srv/d/b" (Some false) (Some true) "" None None None (Some "b") (pad "b") (Some 384) (Some 7) (Some 7)].

Definition sample_run (fs : list fault) : run world patched := patchTransaction state_dir false "/srv" sample_changes sample_world fs.
Definition recovery (w : world) : run world Z := recoverPatchTransactions state_dir false "/srv" w [].

(** ** The request is made in a calm state *)

Definition sample_nodes : list (path * node) :=
  [(["var"], Directory); (state_dir, Directory); (["srv"], Directory); (["a"; "srv"], file_of "old" 420); (["o"; "srv"], file_of "other" 420)].

Lemma sample_node p (x : node) : sample_tree !! p = Some x → (p, x) ∈ sample_nodes.
Proof. apply elem_of_list_to_map_2. Qed.
Lemma sample_no_node p : p ∉ map fst sample_nodes → sample_tree !! p = None.
Proof. apply not_elem_of_list_to_map_1. Qed.

(** No component of these paths is a name of the transaction. *)
Definition plain_path (p : path) : bool := forallb (λ c, negb (HasPrefix c ".agentdock")) p.

Lemma plain_not_named x n p : plain_path p = true → backup_name x n ∉ p ∧ write_name x n ∉ p.
Proof.
  unfold plain_path. rewrite forallb_forall. intros Hp. split; intros Hin%list_elem_of_In; by specialize (Hp _ Hin).
Qed.

Lemma sample_calm : calm state_dir sample_world sample_changes.
Proof.
  split.
  - intros y q [x Hx%sample_node]. cbn [w_now sample_world] in *. unfold sample_nodes in Hx. rewrite !elem_of_cons, elem_of_nil in Hx.
    destruct Hx as [[= -> -> _]|[[= -> -> _]|[[= -> -> _]|[[= -> -> _]|[[= -> -> _]|[]]]]]]; by vm_compute.
  - done.
  - intros p f Hx%sample_node. unfold sample_nodes in Hx. rewrite !elem_of_cons, elem_of_nil in Hx. by destruct Hx as [[=]|[[=]|[[=]|[[= _ ->]|[[= _ ->]|[]]]]]].
  - intros name _. apply sample_no_node. cbn. rewrite !elem_of_cons, elem_of_nil. by intros [[=]|[[=]|[[=]|[[=]|[[=]|[]]]]]].
  - intros x Hx. cbn in Hx. rewrite !elem_of_cons, elem_of_nil in Hx. by destruct Hx as [->|[->|[->|[->|[->|[]]]]]].
  - intros q n x. assert (∀ y : string, HasPrefix y ".agentdock" = true → sample_tree !! (y :: q) = None) as Hy; [|split; by apply Hy].
    intros y Hp. apply sample_no_node. cbn. rewrite !elem_of_cons, elem_of_nil.
    by intros [[= -> ->]|[[= -> ->]|[[= -> ->]|[[= -> ->]|[[= -> ->]|[]]]]]].
  - intros raw n Hr x. apply plain_not_named. unfold sample_changes in Hr. rewrite !elem_of_cons, elem_of_nil in Hr. by destruct Hr as [->|[->|[]]].
  - intros raw Hr. unfold sample_changes in Hr. rewrite !elem_of_cons, elem_of_nil in Hr. apply (bool_decide_unpack _). by destruct Hr as [->|[->|[]]].
  - intros raw raw' Hr Hr'. unfold sample_changes in Hr, Hr'. rewrite !elem_of_cons, elem_of_nil in Hr, Hr'. apply (bool_decide_unpack _).
    by destruct Hr as [->|[->|[]]], Hr' as [->|[->|[]]].
Qed.

(** ** Runs *)

(** Power is lost when the second file is about to be moved into its place. *)
Definition cut : list fault := repeat Committed 52 ++ [Crashed].
Definition after_cut : world := (run_disk (sample_run cut)) <| w_past := [] |>.
Definition after_recovery : world := run_disk (recovery after_cut).

Lemma power_loss_now w : power_loss w (w <| w_past := [] |>).
Proof.
  exists (w_now w). split; [by left|]. split; [|done]. intros p. cbn. destruct (w_now w !! p) as [x|] eqn:E; [|done].
  exists x. split; [done|constructor].
Qed.

Lemma cut_dies : run_outcome (sample_run cut) = Dead.
Proof. by vm_compute. Qed.

Lemma cut_recovers : recovery after_cut = mkRun (Done 1) after_recovery [].
Proof. by vm_compute. Qed.


Definition after_patch : world := run_disk (sample_run []).
Definition rebooted : world := after_patch <| w_past := [] |>.

Lemma patch_applies : run_outcome (sample_run []) = Done (Patched (mkResponse "c0" 2 0 false)).
Proof. by vm_compute. Qed.

Lemma nothing_to_recover : recovery rebooted = mkRun (Done 0) rebooted [].
Proof. by vm_compute. Qed.


(** ** A directory that cannot be synced *)

(** The committed journal is in its place but its directory cannot be synced:
    the rollback begins, and dies with the new file removed and the old one in
    its backup.  The recovery believes the journal and deletes the backup. *)
Definition unsynced_kernel : Kernel := mkKernel 0 0 (λ _ _, true) (λ mode, Z.land mode 1023) true (λ d, bool_decide (d = state_dir)).
Definition unsynced_run : run world patched :=
  @patchTransaction unsynced_kernel sample_host state_dir false "/srv" sample_changes sample_world
    (repeat Committed 66 ++ [Refused] ++ repeat Committed 9 ++ [Severed]).
Definition unsynced_recovery : run world Z :=
  @recoverPatchTransactions unsynced_kernel sample_host state_dir false "/srv" (run_disk unsynced_run) [].

(** Where the sync of the state directory can fail, a patch can lose a file:
    after a recovery that succeeds, the target holds neither what it held nor
    what was asked for, and no backup is left. *)
Theorem unsynced_journal_loses_file :
  run_outcome unsynced_run = Dead ∧ run_outcome unsynced_recovery = Done 1 ∧
  sample_tree !! ["a"; "srv"] = Some (file_of "old" 420) ∧ w_now (run_disk unsynced_recovery) !! ["a"; "srv"] = None ∧
  w_now (run_disk unsynced_recovery) !! [backup_name "c0" 0; "srv"] = None.
Proof. by vm_compute. Qed.

(** ** A directory that no journal names *)

Definition nested_changes : list ChangeRequest :=
  [mkChangeRequest "/srv/d/e/b" (Some false) (Some true) "" None None None (Some "b") (pad "b") (Some 384) None None].
Definition nested_run : run world patched := patchTransaction state_dir false "/srv" nested_changes sample_world (repeat Committed 21 ++ [Severed]).
Definition nested_recovery : run world Z := recovery (run_disk nested_run).

(** A process that dies when it has created the second of two nested
    directories leaves a transaction that no recovery can finish: the outer
    directory, which the journal names, is not empty. *)
Theorem nested_directory_blocks_recovery :
  run_outcome nested_run = Dead ∧ run_outcome nested_recovery = Failed "PATCH_RECOVERY_REQUIRED" ∧
  run_outcome (recovery (run_disk nested_recovery)) = Failed "PATCH_RECOVERY_REQUIRED" ∧
  w_now (run_disk (recovery (run_disk nested_recovery))) !! ["e"; "d"; "srv"] = Some Directory.
Proof. split_and!; vm_compute; reflexivity. Qed.
