(* ===== verification/ActivityEvent.v ===== *)
(** * ActivityEvent: the events of the activity journal

    internal/activity/model.go, measurements.go, append_validation.go: what is
    recorded of an execution, which records are accepted and which are read
    back. *)

From S2P Require Import Prelude GoText Binding.
Local Open Scope Z_scope.

Definition SchemaVersion : Z := 1.
Definition MaxPreviewBytes : Z := 8192.
Definition MaxEventBytes : Z := 32768.
Definition MaxQueryEvents : Z := 500.
Definition MaxRecordedAffectedFiles : Z := 16.

Record Payload : Type := mkPayload {
  py_State : string;
  py_Format : string;
  py_Ref : string;
  py_Bytes : Z;
  py_Lines : Z;
  py_Preview : string;
  py_Truncated : bool;
  py_Reason : string;
}.
#[export] Instance Payload_eta : Eta Payload := λ p,
  mkPayload (py_State p) (py_Format p) (py_Ref p) (py_Bytes p) (py_Lines p) (py_Preview p) (py_Truncated p)
    (py_Reason p).

Record AffectedFile : Type := mkAffectedFile {
  af_StatsState : string;
  af_Insertions : option Z;
  af_Deletions : option Z;
  af_ProposedInsertions : option Z;
  af_ProposedDeletions : option Z;
  af_Path : string;
  af_Operation : string;
  af_MoveTo : string;
}.
#[export] Instance AffectedFile_eta : Eta AffectedFile := λ a,
  mkAffectedFile (af_StatsState a) (af_Insertions a) (af_Deletions a) (af_ProposedInsertions a) (af_ProposedDeletions a)
    (af_Path a) (af_Operation a) (af_MoveTo a).

Record FileEditDetails : Type := mkFileEditDetails {
  fe_Action : string;
  fe_Path : string;
  fe_NewPath : string;
  fe_DryRun : bool;
  fe_Recursive : bool;
  fe_Executed : bool;
  fe_Changed : option bool;
  fe_AffectedFiles : list AffectedFile;
  fe_AffectedCount : option Z;
  fe_FilesTruncated : bool;
  fe_StatsState : string;
  fe_Insertions : option Z;
  fe_Deletions : option Z;
  fe_ProposedInsertions : option Z;
  fe_ProposedDeletions : option Z;
  fe_DiffPreview : string;
  fe_DiffTruncated : bool;
}.
#[export] Instance FileEditDetails_eta : Eta FileEditDetails := λ f,
  mkFileEditDetails (fe_Action f) (fe_Path f) (fe_NewPath f) (fe_DryRun f) (fe_Recursive f) (fe_Executed f) (fe_Changed f)
    (fe_AffectedFiles f) (fe_AffectedCount f) (fe_FilesTruncated f) (fe_StatsState f) (fe_Insertions f)
    (fe_Deletions f) (fe_ProposedInsertions f) (fe_ProposedDeletions f) (fe_DiffPreview f)
    (fe_DiffTruncated f).

Record CallMeasurements : Type := mkCallMeasurements {
  cm_RequestReceivedAt : option Time;
  cm_RPCCompletedAt : option Time;
  cm_RPCElapsedMS : option Z;
  cm_RPCStatus : string;
  cm_ExecutionElapsedMS : option Z;
  cm_WaitElapsedMS : option Z;
  cm_ApprovalWaitMS : option Z;
  cm_OperationElapsedMS : option Z;
  cm_ProcessElapsedMS : option Z;
}.
#[export] Instance CallMeasurements_eta : Eta CallMeasurements := λ c,
  mkCallMeasurements (cm_RequestReceivedAt c) (cm_RPCCompletedAt c) (cm_RPCElapsedMS c) (cm_RPCStatus c)
    (cm_ExecutionElapsedMS c) (cm_WaitElapsedMS c) (cm_ApprovalWaitMS c) (cm_OperationElapsedMS c)
    (cm_ProcessElapsedMS c).

Record Event : Type := mkEvent {
  ev_Measurements : CallMeasurements;
  ev_Request : option Payload;
  ev_Response : option Payload;
  ev_OutputSource : option Payload;
  ev_FileEdit : option FileEditDetails;
  ev_OwnerPID : Z;
  ev_OwnerInstance : string;
  ev_ApprovalID : string;
  ev_RuleID : string;
  ev_PermissionMode : string;
  ev_ErrorCode : string;
  ev_ChangeStatsKnown : bool;
  ev_SchemaVersion : Z;
  ev_Seq : Z;
  ev_EventID : string;
  ev_CreatedAt : Time;
  ev_Binding : ExecutionScope;
  ev_Kind : string;
  ev_Status : string;
  ev_Title : string;
  ev_ToolName : string;
  ev_SessionID : string;
  ev_Runtime : string;
  ev_Workdir : string;
  ev_ParameterSummary : string;
  ev_DisplayCommand : string;
  ev_ExitCode : option Z;
  ev_CommandOK : option bool;
  ev_TimedOut : bool;
  ev_ElapsedMS : Z;
  ev_OutputPreview : string;
  ev_StderrPreview : string;
  ev_StdoutTruncated : bool;
  ev_StderrTruncated : bool;
  ev_LogicalPath : string;
  ev_ResolvedPath : string;
  ev_Insertions : Z;
  ev_Deletions : Z;
  ev_Summary : string;
}.
#[export] Instance Event_eta : Eta Event := λ e,
  mkEvent (ev_Measurements e) (ev_Request e) (ev_Response e) (ev_OutputSource e) (ev_FileEdit e) (ev_OwnerPID e)
    (ev_OwnerInstance e) (ev_ApprovalID e) (ev_RuleID e) (ev_PermissionMode e) (ev_ErrorCode e)
    (ev_ChangeStatsKnown e) (ev_SchemaVersion e) (ev_Seq e) (ev_EventID e) (ev_CreatedAt e) (ev_Binding e)
    (ev_Kind e) (ev_Status e) (ev_Title e) (ev_ToolName e) (ev_SessionID e) (ev_Runtime e) (ev_Workdir e)
    (ev_ParameterSummary e) (ev_DisplayCommand e) (ev_ExitCode e) (ev_CommandOK e) (ev_TimedOut e)
    (ev_ElapsedMS e) (ev_OutputPreview e) (ev_StderrPreview e) (ev_StdoutTruncated e) (ev_StderrTruncated e)
    (ev_LogicalPath e) (ev_ResolvedPath e) (ev_Insertions e) (ev_Deletions e) (ev_Summary e).

(** ** Copies

    A clone of a value shares nothing with it; without [preview] it carries no
    text. *)

Definition Payload_clone (preview : bool) (payload : Payload) : Payload :=
  if preview then payload else payload <| py_Preview := "" |>.
Definition FileEditDetails_clone (preview : bool) (details : FileEditDetails) : FileEditDetails :=
  if preview then details else details <| fe_DiffPreview := "" |>.

(** ** Kinds *)

Definition validKind (kind : string) : bool :=
  match Split kind "." with
  | [a; b] => matches_id a && matches_id b
  | _ => false
  end.

Definition genuineActivityEvent (kind : string) : bool :=
  one_of kind ["call.created"; "call.pending"; "call.started"; "call.completed"; "call.rpc_returned";
    "command.started"; "command.output"; "tool.output"; "command.completed"; "tool.started"; "tool.completed";
    "file.requested"; "file.changed"].

Definition genuineInteractionEvent (kind : string) (rpcAlreadyReturned : bool) : bool :=
  negb rpcAlreadyReturned && genuineActivityEvent kind.

Definition RecentlyActive (last : option Time) (now : Time) (terminated : bool) : bool :=
  match last with
  | Some last => negb terminated && negb (IsZero last) && negb (now <? last) && (time_sub now last <? 120 * Second)
  | None => false
  end.

(** ** What is accepted

    [check remaining texts] takes the bytes of the texts from what remains of
    a budget; [None] is the answer false. *)
Fixpoint check (remaining : Z) (texts : list string) : option Z :=
  match texts with
  | [] => Some remaining
  | text :: texts => if remaining <? len text then None else check (remaining - len text) texts
  end.

Definition payload_texts (payload : option Payload) : list string :=
  match payload with
  | Some p => [py_Ref p; py_State p; py_Preview p; py_Reason p]
  | None => []
  end.

Definition or_reject {A} (o : option A) (msg : string) : result A :=
  match o with Some a => Ok a | None => Err msg end.

Definition validateRawAppend (event : Event) : result unit :=
  let b := ev_Binding event in
  left ← or_reject (check (Z.shiftl 1 20)
    [xs_Label b; ev_Title event; ev_ParameterSummary event; ev_DisplayCommand event; ev_Summary event;
     ev_OutputPreview event; ev_StderrPreview event; ev_Workdir event; ev_LogicalPath event; ev_ResolvedPath event;
     ev_OwnerInstance event; ev_ApprovalID event; ev_RuleID event; ev_PermissionMode event; ev_ErrorCode event;
     xs_Source b; xs_SourceOwnerKey b; xs_Visibility b; xs_BindingQuality b])
    "raw activity event exceeds preparation budget";
  left ← or_reject (check left
    (payload_texts (ev_Request event) ++ payload_texts (ev_Response event) ++ payload_texts (ev_OutputSource event)))
    "raw activity payload exceeds preparation budget";
  match ev_FileEdit event with
  | None => Ok tt
  | Some detail =>
      left ← or_reject (check left [fe_Action detail; fe_Path detail; fe_NewPath detail; fe_DiffPreview detail])
        "raw activity edit exceeds preparation budget";
      _ ← or_reject (check left
        (concat (map (λ file, [af_Path file; af_MoveTo file; af_Operation file])
          (take (Z.to_nat MaxRecordedAffectedFiles) (fe_AffectedFiles detail)))))
        "raw activity files exceed preparation budget";
      Ok tt
  end.

(** A record of the journal that a reader takes for an event. *)
Definition readable (e : Event) : bool :=
  (ev_SchemaVersion e =? SchemaVersion) && (0 <? ev_Seq e) && is_ok (Validate (ev_Binding e)) && validKind (ev_Kind e).

(** The identifiers of an event, by which calls and queries know it. *)
Definition ev_CallID (e : Event) : string := xs_CallID (ev_Binding e).
Definition ev_ConversationID (e : Event) : string := xs_ConversationID (ev_Binding e).
Definition ev_TaskID (e : Event) : string := xs_TaskID (ev_Binding e).
Definition ev_ThreadID (e : Event) : string := xs_ThreadID (ev_Binding e).

(** An event of which nothing is known. *)
Definition no_measurements : CallMeasurements := mkCallMeasurements None None None "" None None None None None.
Definition blank_event : Event :=
  mkEvent no_measurements None None None None 0 "" "" "" "" "" false 0 0 "" 0 no_binding "" "" "" "" "" "" "" "" ""
    None None false 0 "" "" false false "" "" 0 0 "".
