(* ===== verification/ActivityCalls.v ===== *)
(** * ActivityCalls: the calls that the events of the journal describe

    internal/activity/calls.go, call_transitions.go, legacy_projection.go and
    measurements.go: the projection of the journal.  Go keeps it as maps of
    pointers to calls that are changed in place; here a call is put back under
    its key when it has changed. *)

From S2P Require Import Prelude GoText Binding Metadata ActivityEvent.
Local Open Scope Z_scope.

Definition ExecutionSchemaVersion : Z := 2.

Record FileChange : Type := mkFileChange {
  fc_Path : string;
  fc_Insertions : Z;
  fc_Deletions : Z;
  fc_StatsKnown : bool;
}.
#[export] Instance FileChange_eta : Eta FileChange := λ f,
  mkFileChange (fc_Path f) (fc_Insertions f) (fc_Deletions f) (fc_StatsKnown f).

Record CallManagement : Type := mkCallManagement {
  gm_Management : Management;
  gm_IsolatedAt : option Time;
  gm_DeletedAt : option Time;
}.
#[export] Instance CallManagement_eta : Eta CallManagement := λ c,
  mkCallManagement (gm_Management c) (gm_IsolatedAt c) (gm_DeletedAt c).

Record ExecutionCall : Type := mkExecutionCall {
  xc_Request : option Payload;
  xc_Response : option Payload;
  xc_OutputSource : option Payload;
  xc_LastActivityAt : option Time;
  xc_LastInteractionAt : option Time;
  xc_Measurements : CallMeasurements;
  xc_FileEdit : option FileEditDetails;
  xc_Managed : CallManagement;
  xc_OwnerPID : Z;
  xc_OwnerInstance : string;
  xc_Binding : ExecutionScope;
  xc_DisplayTitle : string;
  xc_StartedAt : Time;
  xc_ParameterSummary : string;
  xc_OutputSummary : string;
  xc_ErrorSummary : string;
  xc_TaskThreadID : string;
  xc_ReadOnlyLegacy : bool;
  xc_SchemaVersion : Z;
  xc_Status : string;
  xc_Title : string;
  xc_ToolName : string;
  xc_SessionID : string;
  xc_Runtime : string;
  xc_Workdir : string;
  xc_DisplayCommand : string;
  xc_Summary : string;
  xc_ApprovalID : string;
  xc_RuleID : string;
  xc_PermissionMode : string;
  xc_ErrorCode : string;
  xc_CreatedAt : Time;
  xc_UpdatedAt : Time;
  xc_CompletedAt : option Time;
  xc_CreatedSeq : Z;
  xc_UpdatedSeq : Z;
  xc_ElapsedMS : Z;
  xc_EventCount : Z;
  xc_ExitCode : option Z;
  xc_CommandOK : option bool;
  xc_TimedOut : bool;
  xc_HasOutput : bool;
  xc_OutputPreview : string;
  xc_StderrPreview : string;
  xc_StdoutTruncated : bool;
  xc_StderrTruncated : bool;
  xc_FileChanges : list FileChange;
  xc_ChangesTruncated : bool;
  xc_HistoryIncomplete : bool;
  xc_Legacy : bool;
}.
#[export] Instance ExecutionCall_eta : Eta ExecutionCall := λ c,
  mkExecutionCall (xc_Request c) (xc_Response c) (xc_OutputSource c) (xc_LastActivityAt c) (xc_LastInteractionAt c)
    (xc_Measurements c) (xc_FileEdit c) (xc_Managed c) (xc_OwnerPID c) (xc_OwnerInstance c) (xc_Binding c)
    (xc_DisplayTitle c) (xc_StartedAt c) (xc_ParameterSummary c) (xc_OutputSummary c) (xc_ErrorSummary c)
    (xc_TaskThreadID c) (xc_ReadOnlyLegacy c) (xc_SchemaVersion c) (xc_Status c) (xc_Title c) (xc_ToolName c)
    (xc_SessionID c) (xc_Runtime c) (xc_Workdir c) (xc_DisplayCommand c) (xc_Summary c) (xc_ApprovalID c)
    (xc_RuleID c) (xc_PermissionMode c) (xc_ErrorCode c) (xc_CreatedAt c) (xc_UpdatedAt c) (xc_CompletedAt c)
    (xc_CreatedSeq c) (xc_UpdatedSeq c) (xc_ElapsedMS c) (xc_EventCount c) (xc_ExitCode c) (xc_CommandOK c)
    (xc_TimedOut c) (xc_HasOutput c) (xc_OutputPreview c) (xc_StderrPreview c) (xc_StdoutTruncated c)
    (xc_StderrTruncated c) (xc_FileChanges c) (xc_ChangesTruncated c) (xc_HistoryIncomplete c) (xc_Legacy c).

Definition no_management : CallManagement := mkCallManagement (mkManagement false [] None None None) None None.
(** The zero value of a call. *)
Definition blank_call : ExecutionCall :=
  mkExecutionCall None None None None None no_measurements None no_management 0 "" no_binding "" 0 "" "" "" "" false 0
    "" "" "" "" "" "" "" "" "" "" "" "" 0 0 None 0 0 0 0 None None false false "" "" false false []
    false false false.

(** The projection.  The sets of Go are maps to [true]. *)
Record legacySession : Type := mkLegacySession {
  ls_id : string;
  ls_binding : ExecutionScope;
  ls_last : Time;
  ls_ambiguous : bool;
}.
#[export] Instance legacySession_eta : Eta legacySession := λ s,
  mkLegacySession (ls_id s) (ls_binding s) (ls_last s) (ls_ambiguous s).

Record callProjection : Type := mkCallProjection {
  cp_seq : Z;
  cp_pruned : Z;
  cp_calls : gmap string ExecutionCall;
  cp_conversations : gmap string (gset string);
  cp_tasks : gmap string (gset string);
  cp_legacySessions : gmap string legacySession;
  cp_warnings : list string;
  cp_gap : bool;
}.
#[export] Instance callProjection_eta : Eta callProjection := λ p,
  mkCallProjection (cp_seq p) (cp_pruned p) (cp_calls p) (cp_conversations p) (cp_tasks p) (cp_legacySessions p)
    (cp_warnings p) (cp_gap p).

Definition newCallProjection : callProjection := mkCallProjection 0 0 ∅ ∅ ∅ ∅ [] false.

(** ** Helpers *)

Definition CallTerminal (status : string) : bool :=
  one_of status ["succeeded"; "partial"; "failed"; "cancelled"; "unknown"].

Definition normalizedCallStatus (status : string) (ok : option bool) : string :=
  if one_of status ["created"; "pending_approval"; "running"; "succeeded"; "partial"; "failed"; "cancelled"; "unknown"]
  then status
  else if status =s "success" then "succeeded"
  else if one_of status ["killed"; "terminated"] then "cancelled"
  else if one_of status ["timeout"; "error"] then "failed"
  else if status =s "exited" then match ok with Some true => "succeeded" | _ => "failed" end
  else "".

Definition warning (text : string) (p : callProjection) : callProjection :=
  let p := p <| cp_gap := true |> in
  if one_of text (cp_warnings p) then p
  else if (length (cp_warnings p) <? 8)%nat then p <| cp_warnings ::= λ w, w ++ [text] |> else p.

Definition index_of (index : gmap string (gset string)) (key : string) : gset string := default ∅ (index !! key).
Definition callIndexAdd (index : gmap string (gset string)) (key id : string) : gmap string (gset string) :=
  <[key := {[id]} ∪ index_of index key]> index.
(** Go's [delete(index[key], id)]. *)
Definition callIndexRemove (index : gmap string (gset string)) (key id : string) : gmap string (gset string) :=
  alter (λ ids, ids ∖ {[id]}) key index.

(** The call [id] is listed under [key], and no longer under [old]. *)
Definition reindex (index : gmap string (gset string)) (old key id : string) : gmap string (gset string) :=
  callIndexAdd (if old ≠s key then callIndexRemove index old id else index) key id.

(** The bytes at and after the start of a rune. *)
Fixpoint rune_start (l : list ascii) : list ascii :=
  match l with
  | a :: l' => if is_cont a then rune_start l' else l
  | [] => []
  end.

Definition appendCallOutput (previous next : string) (truncated : bool) : string * bool :=
  let value := bytes previous ++ bytes next in
  if Z.of_nat (length value) <=? MaxPreviewBytes then (of_bytes value, truncated)
  else (of_bytes (rune_start (drop (length value - Z.to_nat MaxPreviewBytes) value)), true).

(** ** Bindings *)

Definition conflict (a b : string) : bool := (a ≠s "") && (b ≠s "") && (a ≠s b).
Definition keep (a b : string) : string := if a =s "" then b else a.

Definition conflicting_calls : string := "Conflicting call bindings were rejected while rebuilding execution history.".
Definition conflicting_threads : string :=
  "Conflicting task-thread or workspace bindings were rejected while rebuilding execution history.".

(** The bindings that decide where a call is listed. *)
Definition bind_owner (event : Event) (call : ExecutionCall) : ExecutionCall :=
  call <| xc_Binding ::= λ b, b
    <| xs_ConversationID := keep (xs_ConversationID b) (ev_ConversationID event) |>
    <| xs_TaskID := keep (xs_TaskID b) (ev_TaskID event) |> |>.

Definition bind_rest (event : Event) (call : ExecutionCall) : ExecutionCall :=
  let e := ev_Binding event in
  let call := call <| xc_Binding ::= λ b, b
    <| xs_ThreadID := keep (xs_ThreadID b) (xs_ThreadID e) |>
    <| xs_StepID := keep (xs_StepID b) (xs_StepID e) |>
    <| xs_WorkspaceID := keep (xs_WorkspaceID b) (xs_WorkspaceID e) |>
    <| xs_ParentCallID := keep (xs_ParentCallID b) (xs_ParentCallID e) |>
    <| xs_RetryOfCallID := keep (xs_RetryOfCallID b) (xs_RetryOfCallID e) |>
    <| xs_Label := keep (xs_Label b) (xs_Label e) |> |> in
  let title := if (xc_Title call =s "") || (ev_Kind event =s "call.bound") then ev_Title event else xc_Title call in
  call <| xc_Title := title |>
       <| xc_ToolName := keep (xc_ToolName call) (ev_ToolName event) |>
       <| xc_DisplayTitle := title |>
       <| xc_TaskThreadID := xs_ThreadID (xc_Binding call) |>.

(** Whether the binding was taken, the call, and the projection (in which the
    call is yet to be put back). *)
Definition applyCallBinding (call : ExecutionCall) (event : Event) (id : string) (p : callProjection) :
    bool * ExecutionCall * callProjection :=
  let old := xc_Binding call in
  if conflict (xs_ConversationID old) (ev_ConversationID event) || conflict (xs_TaskID old) (ev_TaskID event)
  then (false, call <| xc_HistoryIncomplete := true |>, warning conflicting_calls p)
  else
    let call := bind_owner event call in
    if conflict (xs_ThreadID old) (ev_ThreadID event)
       || conflict (xs_WorkspaceID old) (xs_WorkspaceID (ev_Binding event))
    then (false, call <| xc_HistoryIncomplete := true |>, warning conflicting_threads p)
    else
      let call := bind_rest event call in
      (true, call,
       p <| cp_conversations ::= λ i, reindex i (xs_ConversationID old) (xs_ConversationID (xc_Binding call)) id |>
         <| cp_tasks ::= λ i, reindex i (xs_TaskID old) (xs_TaskID (xc_Binding call)) id |>).

(** ** Facts of an execution

    The assignments of a function, in their order. *)
Definition assign (steps : list (ExecutionCall → ExecutionCall)) (call : ExecutionCall) : ExecutionCall :=
  foldl (λ c f, f c) call steps.

Definition non_nil {A} (new old : option A) : option A := if is_nil new then old else new.
Definition non_blank (new old : string) : string := if new =s "" then old else new.

Definition applyMeasurements (event : Event) : ExecutionCall → ExecutionCall :=
  let m := ev_Measurements event in
  assign [
    (λ c, c <| xc_OutputSource ::= non_nil (Payload_clone true <$> ev_OutputSource event) |>);
    (λ c, c <| xc_Request ::= non_nil (Payload_clone true <$> ev_Request event) |>);
    (λ c, if is_nil (ev_Response event) then c
          else c <| xc_Response := Payload_clone true <$> ev_Response event |> <| xc_HasOutput := true |>);
    (λ c, if (ev_Kind event =s "call.created") && is_nil (cm_RequestReceivedAt (xc_Measurements c))
          then c <| xc_Measurements ::= λ x, x <| cm_RequestReceivedAt := cm_RequestReceivedAt m |> |> else c);
    (λ c, if (ev_Kind event =s "call.rpc_returned") && is_nil (cm_RPCCompletedAt (xc_Measurements c))
          then c <| xc_Measurements ::= λ x, x <| cm_RPCCompletedAt := cm_RPCCompletedAt m |>
                 <| cm_RPCElapsedMS := cm_RPCElapsedMS m |> <| cm_RPCStatus := cm_RPCStatus m |> |> else c);
    (λ c, c <| xc_Measurements ::= λ x, x
      <| cm_ExecutionElapsedMS ::= non_nil (cm_ExecutionElapsedMS m) |>
      <| cm_WaitElapsedMS ::= non_nil (cm_WaitElapsedMS m) |>
      <| cm_ApprovalWaitMS ::= non_nil (cm_ApprovalWaitMS m) |>
      <| cm_OperationElapsedMS ::= non_nil (cm_OperationElapsedMS m) |> |>);
    (λ c, if ev_Kind event =s "command.completed"
          then c <| xc_Measurements ::= λ x, x <| cm_ProcessElapsedMS := Some (ev_ElapsedMS event) |> |> else c);
    (λ c, c <| xc_FileEdit ::= non_nil (FileEditDetails_clone true <$> ev_FileEdit event) |>)].

(** A call that a client made and waits for. *)
Definition external (c : ExecutionCall) : bool :=
  not_nil (cm_RequestReceivedAt (xc_Measurements c)) && (xs_ParentCallID (xc_Binding c) =s "")
  && (xs_Visibility (xc_Binding c) ≠s "diagnostic").

(** [a.After(b)] for a time that may be nil. *)
Definition later (a : Time) (b : option Time) : bool := match b with Some b => b <? a | None => true end.
Definition latest (a : Time) (b : option Time) : option Time := if later a b then Some a else b.

Definition interactionAt (event : Event) (c : ExecutionCall) : Time :=
  let at_ := ev_CreatedAt event in
  let at_ := if ev_Kind event =s "call.created" then default at_ (cm_RequestReceivedAt (xc_Measurements c)) else at_ in
  if ev_Kind event =s "call.rpc_returned" then default at_ (cm_RPCCompletedAt (xc_Measurements c)) else at_.

Definition record_activity (event : Event) (rpcAlreadyReturned : bool) : ExecutionCall → ExecutionCall :=
  assign [
    (λ c, if external c && genuineActivityEvent (ev_Kind event)
          then c <| xc_LastActivityAt ::= latest (ev_CreatedAt event) |> else c);
    (λ c, if external c && genuineInteractionEvent (ev_Kind event) rpcAlreadyReturned
          then c <| xc_LastInteractionAt ::= latest (interactionAt event c) |> else c)].

Definition summarises (event : Event) (c : ExecutionCall) : bool :=
  (ev_Summary event ≠s "") && ((xc_Summary c =s "") || HasPrefix (ev_Kind event) "call."
                               || one_of (ev_Kind event) ["tool.completed"; "command.completed"]).

Definition has_output (c : ExecutionCall) : bool :=
  match xc_OutputSource c with Some source => py_Ref source ≠s "" | None => false end
  || match xc_Response c with Some response => py_State response ≠s "pending" | None => false end
  || (xc_OutputPreview c ≠s "") || (xc_StderrPreview c ≠s "") || xc_StdoutTruncated c || xc_StderrTruncated c.

Definition record_output (event : Event) : ExecutionCall → ExecutionCall :=
  assign [
    (λ c, if ev_OutputPreview event =s "" then c else
          let '(text, truncated) := appendCallOutput (xc_OutputPreview c) (ev_OutputPreview event) (xc_StdoutTruncated c) in
          c <| xc_OutputPreview := text |> <| xc_StdoutTruncated := truncated |>);
    (λ c, if ev_StderrPreview event =s "" then c else
          let '(text, truncated) := appendCallOutput (xc_StderrPreview c) (ev_StderrPreview event) (xc_StderrTruncated c) in
          c <| xc_StderrPreview := text |> <| xc_StderrTruncated := truncated |>);
    (λ c, c <| xc_StdoutTruncated ::= λ b, b || ev_StdoutTruncated event |>
            <| xc_StderrTruncated ::= λ b, b || ev_StderrTruncated event |>);
    (λ c, c <| xc_HasOutput := has_output c |>);
    (λ c, if ev_Kind event ≠s "file.changed" then c
          else if (length (xc_FileChanges c) <? 128)%nat
          then c <| xc_FileChanges ::= λ l, l ++ [mkFileChange (ev_ResolvedPath event) (ev_Insertions event)
                                                   (ev_Deletions event) (ev_ChangeStatsKnown event)] |>
          else c <| xc_ChangesTruncated := true |>)].

Definition record_runtime (event : Event) : ExecutionCall → ExecutionCall :=
  assign [
    (λ c, c <| xc_EventCount ::= λ n, n + 1 |>);
    (λ c, if xc_OwnerPID c =? 0
          then c <| xc_OwnerPID := ev_OwnerPID event |> <| xc_OwnerInstance := ev_OwnerInstance event |> else c);
    (λ c, c <| xc_SessionID ::= non_blank (ev_SessionID event) |> <| xc_Runtime ::= non_blank (ev_Runtime event) |>
            <| xc_Workdir ::= non_blank (ev_Workdir event) |>
            <| xc_DisplayCommand ::= non_blank (ev_DisplayCommand event) |>
            <| xc_ApprovalID ::= non_blank (ev_ApprovalID event) |> <| xc_RuleID ::= non_blank (ev_RuleID event) |>
            <| xc_PermissionMode ::= non_blank (ev_PermissionMode event) |>
            <| xc_ErrorCode ::= non_blank (ev_ErrorCode event) |>);
    (λ c, if xc_ElapsedMS c <? ev_ElapsedMS event then c <| xc_ElapsedMS := ev_ElapsedMS event |> else c);
    (λ c, if summarises event c then c <| xc_Summary := ev_Summary event |> else c);
    (λ c, c <| xc_ExitCode ::= non_nil (ev_ExitCode event) |> <| xc_CommandOK ::= non_nil (ev_CommandOK event) |>);
    (λ c, c <| xc_TimedOut ::= λ b, b || ev_TimedOut event |>)].

Definition applyCallExecutionFacts (call : ExecutionCall) (event : Event) : ExecutionCall :=
  let call := call <| xc_ParameterSummary ::= non_blank (ev_ParameterSummary event) |>
    <| xc_Binding ::= λ b, b <| xs_BindingQuality ::= non_blank (xs_BindingQuality (ev_Binding event)) |>
                             <| xs_Visibility ::= non_blank (xs_Visibility (ev_Binding event)) |> |>
    <| xc_UpdatedAt := ev_CreatedAt event |> <| xc_UpdatedSeq := ev_Seq event |> in
  let rpcAlreadyReturned := not_nil (cm_RPCCompletedAt (xc_Measurements call)) in
  record_output event (record_runtime event (record_activity event rpcAlreadyReturned (applyMeasurements event call))).

(** ** Life cycle *)

Definition event_status (event : Event) : string :=
  let kind := ev_Kind event in
  if kind =s "call.created" then "created"
  else if kind =s "call.pending" then "pending_approval"
  else if one_of kind ["call.started"; "tool.started"; "command.started"] then "running"
  else if one_of kind ["call.completed"; "call.recovered"; "tool.completed"; "command.completed"]
  then normalizedCallStatus (ev_Status event) (ev_CommandOK event)
  else "".

Definition applyCallLifecycle (call : ExecutionCall) (event : Event) (legacy ambiguous : bool) : ExecutionCall :=
  let status := event_status event in
  let status := if legacy && (ambiguous || negb (CallTerminal status)) then "unknown" else status in
  if (status ≠s "") && (negb (CallTerminal (xc_Status call)) || CallTerminal status) then
    let call := call <| xc_Status := status |> in
    if CallTerminal status then
      let call := call <| xc_OutputSummary := xc_Summary call |> in
      let call := if one_of status ["failed"; "unknown"] then call <| xc_ErrorSummary := xc_Summary call |> else call in
      call <| xc_CompletedAt := Some (ev_CreatedAt event) |>
    else call
  else call.

(** ** Events of before there were calls *)

(** [n] hexadecimal digits of [seq], the format [%0<n>x]. *)
Fixpoint hex_digits (n : nat) (seq : Z) : string :=
  match n with
  | O => ""
  | S n => hex_digits n (seq / 16) +:+ of_bytes [hex_digit (Z.to_N (seq mod 16))]
  end.
Definition legacyEventID (seq : Z) : string := "legacy_" +:+ hex_digits 32 seq.

Definition overlapping_starts : string :=
  "An old command session had overlapping starts; ambiguous records remain separate and read-only.".
Definition inconsistent_session : string :=
  "An old command session had inconsistent bindings or order; affected events remain separate and read-only.".

(** A call that turns out to be ambiguous. *)
Definition disown (id : string) (p : callProjection) : callProjection :=
  p <| cp_calls ::= alter (λ prior, prior <| xc_HistoryIncomplete := true |> <| xc_Status := "unknown" |>) id |>.

(** The key of the call, whether it is ambiguous; an empty key drops the event. *)
Definition legacyIdentity (event : Event) (p : callProjection) : string * bool * callProjection :=
  let own := legacyEventID (ev_Seq event) in
  let session := ev_SessionID event in
  if existsb (HasPrefix (ev_Kind event)) ["task."; "step."; "thread."; "review."; "activity."] then ("", false, p)
  else if (session =s "") || negb (HasPrefix (ev_Kind event) "command.") then (own, true, p)
  else
    let current := cp_legacySessions p !! session in
    if ev_Kind event =s "command.started" then
      let p := match current with Some c => warning overlapping_starts (disown (ls_id c) p) | None => p end in
      (own, not_nil current,
       p <| cp_legacySessions ::= insert session
              (mkLegacySession own (ev_Binding event) (ev_CreatedAt event) (not_nil current)) |>)
    else match current with
    | None => (own, true, p)
    | Some current =>
        let completed := ev_Kind event =s "command.completed" in
        let same := (ev_TaskID event =s xs_TaskID (ls_binding current))
          && (ev_ThreadID event =s xs_ThreadID (ls_binding current))
          && (xs_WorkspaceID (ev_Binding event) =s xs_WorkspaceID (ls_binding current))
          && negb (ev_CreatedAt event <? ls_last current) in
        if negb same || ls_ambiguous current then
          let p := disown (ls_id current)
                     (p <| cp_legacySessions ::= insert session (current <| ls_ambiguous := true |>) |>) in
          let p := if completed then p <| cp_legacySessions ::= delete session |> else p in
          (own, true, warning inconsistent_session p)
        else
          let p := p <| cp_legacySessions ::= insert session (current <| ls_last := ev_CreatedAt event |>) |> in
          let p := if completed then p <| cp_legacySessions ::= delete session |> else p in
          (ls_id current, false, p)
    end.

(** ** The projection *)

Definition missing_numbers : string :=
  "Some activity sequence numbers are missing; the retained history is incomplete.".

(** A call at its first event. *)
Definition newCall (event : Event) (id : string) (legacy ambiguous : bool) : ExecutionCall :=
  let binding := (ev_Binding event) <| xs_CallID := id |> in
  let binding := if xs_BindingQuality binding =s "" then binding <| xs_BindingQuality := "unattributed" |> else binding in
  let binding := if xs_Visibility binding =s "" then binding <| xs_Visibility := "normal" |> else binding in
  blank_call <| xc_SchemaVersion := ExecutionSchemaVersion |> <| xc_Binding := binding |>
    <| xc_ToolName := ev_ToolName event |> <| xc_Title := ev_Title event |> <| xc_Status := "created" |>
    <| xc_CreatedAt := ev_CreatedAt event |> <| xc_CreatedSeq := ev_Seq event |> <| xc_Legacy := legacy |>
    <| xc_StartedAt := ev_CreatedAt event |> <| xc_DisplayTitle := ev_Title event |> <| xc_ReadOnlyLegacy := legacy |>
    <| xc_HistoryIncomplete := ambiguous || negb (one_of (ev_Kind event)
         ["call.created"; "call.started"; "command.started"; "tool.started"]) |>.

(** The event under the key of its call. *)
Definition apply_to (event : Event) (id : string) (legacy ambiguous : bool) (p : callProjection) : callProjection :=
  let call := default (newCall event id legacy ambiguous) (cp_calls p !! id) in
  let '(bound, call, p) := applyCallBinding call event id p in
  let call := if bound then applyCallLifecycle (applyCallExecutionFacts call event) event legacy ambiguous else call in
  p <| cp_calls ::= insert id call |>.

Definition legacy_binding (event : Event) : Event :=
  event <| ev_Binding ::= λ b, b <| xs_ConversationID := "" |> <| xs_ParentCallID := "" |>
                                 <| xs_BindingQuality := "unattributed" |> |>.

Definition apply (p : callProjection) (event : Event) : callProjection :=
  if ev_Seq event <=? cp_seq p then p
  else
    let p := if negb (cp_seq p =? 0) && (u64 (cp_seq p + 1) <? ev_Seq event) then warning missing_numbers p else p in
    let p := p <| cp_seq := ev_Seq event |> in
    if ev_CallID event =s "" then
      let '(id, ambiguous, p) := legacyIdentity event p in
      if id =s "" then p else apply_to (legacy_binding event) id true ambiguous p
    else apply_to event (ev_CallID event) false false p.

(** One turn of the loop of [prune]. *)
Definition prune_call (before : Z) (entry : string * ExecutionCall) (p : callProjection) : callProjection :=
  let '(id, call) := entry in
  let call := if xc_CreatedSeq call <=? before then call <| xc_HistoryIncomplete := true |> else call in
  if (xc_UpdatedSeq call <=? before) && CallTerminal (xc_Status call) then
    p <| cp_conversations ::= λ i, callIndexRemove i (xs_ConversationID (xc_Binding call)) id |>
      <| cp_tasks ::= λ i, callIndexRemove i (xs_TaskID (xc_Binding call)) id |>
      <| cp_calls ::= delete id |>
  else p <| cp_calls ::= insert id call |>.

Definition prune (before : Z) (p : callProjection) : callProjection :=
  if before <=? cp_pruned p then p
  else foldr (prune_call before) (p <| cp_pruned := before |>) (map_to_list (cp_calls p)).

(** What an append does to the projection that is kept. *)
Definition projectAppendedLocked (projection : option callProjection) (event : Event) : option callProjection :=
  match projection with
  | None => None
  | Some p => if u64 (cp_seq p + 1) =? ev_Seq event then Some (apply p event) else None
  end.
