(* ===== verification/ActivityCallsSpec.v ===== *)
(** * ActivityCallsSpec: what the projection of the journal promises

    The life of a call under any events and prunings, and the invariant of the
    projection: calls are numbered by distinct events, and unless a gap is
    reported every call is listed under its conversation and its task. *)

From S2P Require Import Prelude GoText Binding Metadata ActivityEvent ActivityCalls.
Local Open Scope Z_scope.

Lemma assign_frame {A} (P : ExecutionCall → A) steps c :
  Forall (λ f, ∀ c, P (f c) = P c) steps → P (assign steps c) = P c.
Proof.
  intros H. unfold assign. revert c. induction H as [|f steps Hf _ IH]; intros c; cbn; [done|]. by rewrite IH, Hf.
Qed.

(** What the rest of the model looks at in a call. *)
Record core : Type := mkCore {
  co_status : string;
  co_binding : ExecutionScope;
  co_created : Z;
  co_updated : Z;
}.
Definition core_of (c : ExecutionCall) : core :=
  mkCore (xc_Status c) (xc_Binding c) (xc_CreatedSeq c) (xc_UpdatedSeq c).

Ltac frame_steps :=
  apply assign_frame; repeat (apply List.Forall_cons; [intros ?|]); [..|apply List.Forall_nil];
  repeat case_match; reflexivity.

Lemma measurements_core event c : core_of (applyMeasurements event c) = core_of c.
Proof. unfold applyMeasurements. frame_steps. Qed.
Lemma activity_core event b c : core_of (record_activity event b c) = core_of c.
Proof. unfold record_activity. frame_steps. Qed.
Lemma runtime_core event c : core_of (record_runtime event c) = core_of c.
Proof. unfold record_runtime. frame_steps. Qed.
Lemma output_core event c : core_of (record_output event c) = core_of c.
Proof. unfold record_output. frame_steps. Qed.

Lemma facts_core event c :
  core_of (applyCallExecutionFacts c event) =
  mkCore (xc_Status c)
    ((xc_Binding c) <| xs_BindingQuality ::= non_blank (xs_BindingQuality (ev_Binding event)) |>
                  <| xs_Visibility ::= non_blank (xs_Visibility (ev_Binding event)) |>)
    (xc_CreatedSeq c) (ev_Seq event).
Proof. unfold applyCallExecutionFacts. by rewrite output_core, runtime_core, activity_core, measurements_core. Qed.

Definition key_of (c : ExecutionCall) : string * string * Z * Z :=
  (xs_ConversationID (xc_Binding c), xs_TaskID (xc_Binding c), xc_CreatedSeq c, xc_UpdatedSeq c).

Lemma facts_key event c :
  key_of (applyCallExecutionFacts c event) =
  (xs_ConversationID (xc_Binding c), xs_TaskID (xc_Binding c), xc_CreatedSeq c, ev_Seq event).
Proof. pose proof (facts_core event c) as H. injection H as _ Hb Hc Hu. unfold key_of. by rewrite Hb, Hc, Hu. Qed.

Lemma facts_status event c : xc_Status (applyCallExecutionFacts c event) = xc_Status c.
Proof. pose proof (facts_core event c) as H. by injection H. Qed.

Lemma lifecycle_key c event legacy ambiguous : key_of (applyCallLifecycle c event legacy ambiguous) = key_of c.
Proof. unfold applyCallLifecycle. cbv zeta. repeat case_match; reflexivity. Qed.

(** ** The life of a call *)

Lemma lifecycle_terminal c event legacy ambiguous :
  CallTerminal (xc_Status c) = true → CallTerminal (xc_Status (applyCallLifecycle c event legacy ambiguous)) = true.
Proof.
  intros H. unfold applyCallLifecycle. cbv zeta.
  set (status := if legacy && _ then _ else _). rewrite H. cbn [negb orb].
  destruct (status ≠s ""), (CallTerminal status) eqn:E; cbn [andb]; try exact H.
  case_match; exact E.
Qed.

(** The call [id] is retained, and [P] holds of it. *)
Definition retained (P : ExecutionCall → Prop) (id : string) (p : callProjection) : Prop :=
  ∃ c, cp_calls p !! id = Some c ∧ P c.
Definition terminal (c : ExecutionCall) : Prop := CallTerminal (xc_Status c) = true.

Lemma warning_calls text p : cp_calls (warning text p) = cp_calls p.
Proof. unfold warning. repeat case_match; reflexivity. Qed.
Lemma warning_seq text p : cp_seq (warning text p) = cp_seq p.
Proof. unfold warning. repeat case_match; reflexivity. Qed.
Lemma warning_conversations text p : cp_conversations (warning text p) = cp_conversations p.
Proof. unfold warning. repeat case_match; reflexivity. Qed.
Lemma warning_tasks text p : cp_tasks (warning text p) = cp_tasks p.
Proof. unfold warning. repeat case_match; reflexivity. Qed.
Lemma warning_gap text p : cp_gap (warning text p) = true.
Proof. unfold warning. repeat case_match; reflexivity. Qed.

(** What is left of the parts of the projection when a call takes a binding. *)
Lemma binding_frame call event id p bound call' p' :
  applyCallBinding call event id p = (bound, call', p') →
  xc_Status call' = xc_Status call ∧ xc_CreatedSeq call' = xc_CreatedSeq call ∧ xc_UpdatedSeq call' = xc_UpdatedSeq call
  ∧ cp_calls p' = cp_calls p ∧ cp_seq p' = cp_seq p ∧ cp_pruned p' = cp_pruned p
  ∧ cp_gap p' = cp_gap p || negb bound.
Proof.
  unfold applyCallBinding. cbv zeta. intros H. repeat case_match; injection H as <- <- <-; cbn [negb];
    rewrite ?warning_calls, ?warning_seq, ?warning_gap, ?orb_true_r, ?orb_false_r; try by split_and!.
  all: split_and!; try done; unfold warning; repeat case_match; reflexivity.
Qed.

Lemma disown_lookup id p id' :
  cp_calls (disown id p) !! id' =
  (if decide (id = id') then (λ c, c <| xc_HistoryIncomplete := true |> <| xc_Status := "unknown" |>) <$> cp_calls p !! id'
   else cp_calls p !! id').
Proof.
  unfold disown. cbn. case_decide as E; [subst; by rewrite lookup_alter_eq|by rewrite lookup_alter_ne].
Qed.

(** [disown] is all that happens to the calls when an old event is given its key. *)
Lemma legacyIdentity_calls event p id ambiguous p' :
  legacyIdentity event p = (id, ambiguous, p') →
  (cp_calls p' = cp_calls p ∨ ∃ prior, cp_calls p' = cp_calls (disown prior p)) ∧ cp_seq p' = cp_seq p
  ∧ cp_conversations p' = cp_conversations p ∧ cp_tasks p' = cp_tasks p ∧ (cp_gap p = true → cp_gap p' = true)
  ∧ cp_pruned p' = cp_pruned p.
Proof.
  unfold legacyIdentity. cbv zeta. intros H.
  repeat case_match; injection H as <- <- <-; cbn;
    rewrite ?warning_calls, ?warning_seq, ?warning_conversations, ?warning_tasks, ?warning_gap; cbn;
    split_and!; try done; eauto; unfold warning; repeat case_match; reflexivity.
Qed.

Lemma disown_terminal id p id' : retained terminal id' p → ∃ c, cp_calls (disown id p) !! id' = Some c ∧ terminal c.
Proof.
  intros (c & Hc & Ht). rewrite disown_lookup, Hc. case_decide; cbn; (eexists; split; [done|]); [reflexivity|done].
Qed.

(** The call that [apply_to] puts back, [bound] being the answer of the binding. *)
Definition settled (event : Event) (legacy ambiguous bound : bool) (call : ExecutionCall) : ExecutionCall :=
  if bound then applyCallLifecycle (applyCallExecutionFacts call event) event legacy ambiguous else call.
#[global] Opaque applyCallLifecycle applyCallExecutionFacts applyCallBinding.

Lemma apply_to_spec event id legacy ambiguous p :
  ∃ bound call p', applyCallBinding (default (newCall event id legacy ambiguous) (cp_calls p !! id)) event id p = (bound, call, p')
    ∧ apply_to event id legacy ambiguous p = p' <| cp_calls ::= insert id (settled event legacy ambiguous bound call) |>.
Proof. unfold apply_to. destruct (applyCallBinding _ _ _ _) as [[bound call] p']. by eexists _, _, _. Qed.

Lemma settled_terminal event legacy ambiguous bound call : terminal call → terminal (settled event legacy ambiguous bound call).
Proof.
  intros H. destruct bound; cbn; [|done]. apply lifecycle_terminal. by rewrite facts_status.
Qed.

Lemma apply_to_terminal event key legacy ambiguous p id :
  retained terminal id p → retained terminal id (apply_to event key legacy ambiguous p).
Proof.
  intros (c & Hc & Ht). destruct (apply_to_spec event key legacy ambiguous p) as (bound & call' & p' & E & ->).
  apply binding_frame in E as (Hs & _ & _ & Hp & _). unfold retained. cbn. rewrite Hp.
  destruct (decide (key = id)) as [->|Hne].
  - rewrite lookup_insert_eq. eexists. split; [done|]. apply settled_terminal.
    rewrite Hc in Hs. unfold terminal. by rewrite Hs.
  - rewrite lookup_insert_ne by done. eauto.
Qed.

Lemma apply_terminal event p id : retained terminal id p → retained terminal id (apply p event).
Proof.
  intros H. unfold apply. case_match; [done|]. cbv zeta.
  set (p1 := if negb _ && _ then _ else _).
  assert (retained terminal id (p1 <| cp_seq := ev_Seq event |>)) as H1.
  { destruct H as (c & Hc & Ht). exists c. split; [|done]. subst p1. cbn. case_match; by rewrite ?warning_calls. }
  revert H1. generalize (p1 <| cp_seq := ev_Seq event |>) as q. intros q Hq. clear p1 H.
  case_match; [|by apply apply_to_terminal].
  destruct (legacyIdentity event q) as [[key ambiguous] q'] eqn:E.
  apply legacyIdentity_calls in E as ([Hc|[prior Hc]] & _).
  all: assert (retained terminal id q') as Hq' by (unfold retained; rewrite Hc; first [exact Hq|by apply disown_terminal]).
  all: case_match; [done|by apply apply_to_terminal].
Qed.

(** ** Pruning *)

Definition droppable (before : Z) (call : ExecutionCall) : bool :=
  (xc_UpdatedSeq call <=? before) && CallTerminal (xc_Status call).
Definition marked (before : Z) (call : ExecutionCall) : ExecutionCall :=
  if xc_CreatedSeq call <=? before then call <| xc_HistoryIncomplete := true |> else call.
Definition pruned_call (before : Z) (call : ExecutionCall) : option ExecutionCall :=
  if droppable before call then None else Some (marked before call).

Lemma marked_core before call : core_of (marked before call) = core_of call.
Proof. unfold marked. by case_match. Qed.

Lemma prune_call_spec before id call p :
  prune_call before (id, call) p =
  if droppable before call
  then p <| cp_conversations ::= λ i, callIndexRemove i (xs_ConversationID (xc_Binding call)) id |>
         <| cp_tasks ::= λ i, callIndexRemove i (xs_TaskID (xc_Binding call)) id |> <| cp_calls ::= delete id |>
  else p <| cp_calls ::= insert id (marked before call) |>.
Proof.
  unfold prune_call, droppable, marked. by destruct (xc_CreatedSeq call <=? before).
Qed.

Lemma prune_fold_lookup before l q id :
  NoDup l.*1 →
  cp_calls (foldr (prune_call before) q l) !! id =
  match list_to_map (M := gmap string ExecutionCall) l !! id with
  | Some call => pruned_call before call
  | None => cp_calls q !! id
  end.
Proof.
  induction l as [|[id' call] l IH]; cbn [foldr fmap list_fmap]; intros Hl; [by rewrite list_to_map_nil, lookup_empty|].
  cbn in Hl. apply NoDup_cons in Hl as [Hid Hl].
  rewrite prune_call_spec. unfold pruned_call in *. rewrite list_to_map_cons.
  destruct (decide (id' = id)) as [->|Hne].
  - rewrite lookup_insert_eq. destruct (droppable before call); cbn; [by rewrite lookup_delete_eq|by rewrite lookup_insert_eq].
  - rewrite lookup_insert_ne, <- IH by done.
    destruct (droppable before call); cbn; [by rewrite lookup_delete_ne|by rewrite lookup_insert_ne].
Qed.

Lemma prune_lookup before p id :
  cp_calls (prune before p) !! id =
  (if before <=? cp_pruned p then cp_calls p !! id else cp_calls p !! id ≫= pruned_call before).
Proof.
  unfold prune. case_match; [done|]. rewrite prune_fold_lookup by apply NoDup_fst_map_to_list.
  cbn. rewrite list_to_map_to_list. by destruct (cp_calls p !! id).
Qed.

Lemma prune_terminal before p id :
  retained terminal id p → retained terminal id (prune before p) ∨ cp_calls (prune before p) !! id = None.
Proof.
  intros (c & Hc & Ht). unfold retained. rewrite prune_lookup, Hc. case_match; [left; eauto|]. cbn.
  unfold pruned_call. case_match; [by right|left]. eexists. split; [done|].
  pose proof (marked_core before c) as H'. injection H' as Hs _ _ _. unfold terminal. by rewrite Hs.
Qed.

(** ** Indices *)

Lemma index_add index key id key' id' :
  id' ∈ index_of (callIndexAdd index key id) key' ↔ (key' = key ∧ id' = id) ∨ id' ∈ index_of index key'.
Proof.
  unfold callIndexAdd. unfold index_of at 1. destruct (decide (key = key')) as [->|Hne].
  - rewrite lookup_insert_eq. cbn. set_solver.
  - rewrite lookup_insert_ne by done. fold (index_of index key'). naive_solver.
Qed.

Lemma index_remove index key id key' id' :
  id' ∈ index_of (callIndexRemove index key id) key' ↔ id' ∈ index_of index key' ∧ ¬ (key' = key ∧ id' = id).
Proof.
  unfold callIndexRemove, index_of. destruct (decide (key = key')) as [->|Hne].
  - rewrite lookup_alter_eq. destruct (index !! key') as [ids|]; cbn; set_solver.
  - rewrite lookup_alter_ne by done. naive_solver.
Qed.

Lemma index_reindex index old key id key' id' :
  id' ∈ index_of (reindex index old key id) key' ↔
  (key' = key ∧ id' = id) ∨ (id' ∈ index_of index key' ∧ ¬ (old ≠ key ∧ key' = old ∧ id' = id)).
Proof.
  unfold reindex. rewrite index_add. destruct (String.eqb_spec old key) as [->|Hne]; cbn; [|rewrite index_remove]; naive_solver.
Qed.

(** ** The invariant *)

Definition listed (id : string) (c : ExecutionCall) (p : callProjection) : Prop :=
  id ∈ index_of (cp_conversations p) (xs_ConversationID (xc_Binding c))
  ∧ id ∈ index_of (cp_tasks p) (xs_TaskID (xc_Binding c)).

Record sound (p : callProjection) : Prop := {
  so_seq : 0 <= cp_seq p;
  so_ordered : ∀ id c, cp_calls p !! id = Some c → 0 < xc_CreatedSeq c <= xc_UpdatedSeq c ∧ xc_UpdatedSeq c <= cp_seq p;
  so_created : ∀ id id' c c', cp_calls p !! id = Some c → cp_calls p !! id' = Some c' →
    xc_CreatedSeq c = xc_CreatedSeq c' → id = id';
  so_updated : ∀ id id' c c', cp_calls p !! id = Some c → cp_calls p !! id' = Some c' →
    xc_UpdatedSeq c = xc_UpdatedSeq c' → id = id';
  so_listed : cp_gap p = false → ∀ id c, cp_calls p !! id = Some c → listed id c p;
}.

Lemma sound_new : sound newCallProjection.
Proof. constructor; cbn; try lia; intros *; rewrite ?lookup_empty; discriminate. Qed.

(** Changes of the calls that keep their numbers and their owners. *)
Definition like (c c' : ExecutionCall) : Prop := key_of c = key_of c'.

Lemma sound_like p p' :
  sound p → cp_seq p <= cp_seq p' → (cp_gap p' = false → cp_gap p = false) →
  (∀ id c', cp_calls p' !! id = Some c' → ∃ c, cp_calls p !! id = Some c ∧ like c c' ∧ (listed id c p → listed id c' p')) →
  sound p'.
Proof.
  intros Hp Hseq Hgap Hlike. constructor.
  - pose proof (so_seq p Hp). lia.
  - intros id c' Hc'. destruct (Hlike _ _ Hc') as (c & Hc & Hk & _). injection Hk as _ _ ? ?.
    pose proof (so_ordered p Hp _ _ Hc). lia.
  - intros id id' c1 c2 H1 H2 E. destruct (Hlike _ _ H1) as (d1 & Hd1 & Hk1 & _), (Hlike _ _ H2) as (d2 & Hd2 & Hk2 & _).
    injection Hk1; injection Hk2; intros. eapply (so_created p Hp); eauto; congruence.
  - intros id id' c1 c2 H1 H2 E. destruct (Hlike _ _ H1) as (d1 & Hd1 & Hk1 & _), (Hlike _ _ H2) as (d2 & Hd2 & Hk2 & _).
    injection Hk1; injection Hk2; intros. eapply (so_updated p Hp); eauto; congruence.
  - intros G id c' Hc'. destruct (Hlike _ _ Hc') as (c & Hc & _ & Hl). apply Hl. by apply (so_listed p Hp); [apply Hgap|].
Qed.

Lemma listed_like id c c' p p' :
  like c c' → cp_conversations p' = cp_conversations p → cp_tasks p' = cp_tasks p → listed id c p → listed id c' p'.
Proof. intros Hk Hc Ht. unfold listed. injection Hk as -> -> _ _. by rewrite Hc, Ht. Qed.

Lemma binding_listed call event id p call' p' :
  applyCallBinding call event id p = (true, call', p') →
  listed id call' p' ∧ ∀ id' c, id' ≠ id → listed id' c p → listed id' c p'.
Proof.
  with_strategy transparent [applyCallBinding] unfold applyCallBinding. cbv zeta. intros H.
  repeat (case_match; [discriminate H|]).
  injection H as <- <-. unfold listed. cbn [over cp_conversations cp_tasks]. rewrite !index_reindex.
  split; [by split; left|]. intros id' c Hne [Hc Ht]. rewrite !index_reindex. naive_solver.
Qed.

Lemma conflict_self a : conflict a a = false.
Proof. unfold conflict. by rewrite String.eqb_refl, !andb_false_r. Qed.

Lemma newCall_owner event id legacy ambiguous :
  let b := xc_Binding (newCall event id legacy ambiguous) in
  xs_ConversationID b = ev_ConversationID event ∧ xs_TaskID b = ev_TaskID event ∧ xs_ThreadID b = ev_ThreadID event
  ∧ xs_WorkspaceID b = xs_WorkspaceID (ev_Binding event).
Proof. unfold newCall. cbv zeta. repeat case_match; by split_and!. Qed.

(** An event never contradicts the call that it creates. *)
Lemma binding_agrees event call id p bound call' p' :
  let b := xc_Binding call in
  xs_ConversationID b = ev_ConversationID event ∧ xs_TaskID b = ev_TaskID event ∧ xs_ThreadID b = ev_ThreadID event
  ∧ xs_WorkspaceID b = xs_WorkspaceID (ev_Binding event) →
  applyCallBinding call event id p = (bound, call', p') → bound = true.
Proof.
  intros b (Hc & Ht & Hth & Hw) E. with_strategy transparent [applyCallBinding] unfold applyCallBinding in E.
  cbv zeta in E. fold b in E. rewrite Hc, Ht, Hth, Hw, !conflict_self in E. by injection E.
Qed.

Lemma settled_key event legacy ambiguous call :
  key_of (settled event legacy ambiguous true call) =
  (xs_ConversationID (xc_Binding call), xs_TaskID (xc_Binding call), xc_CreatedSeq call, ev_Seq event).
Proof. cbn [settled]. by rewrite lifecycle_key, facts_key. Qed.

Lemma sound_same_calls p p' :
  sound p → cp_calls p' = cp_calls p → cp_seq p <= cp_seq p' → (cp_gap p' = false → cp_gap p = false) →
  cp_conversations p' = cp_conversations p → cp_tasks p' = cp_tasks p → sound p'.
Proof.
  intros Hp Hcalls Hseq Hgap Hc Ht. apply (sound_like p); [done..|]. intros id c Hid. rewrite Hcalls in Hid.
  exists c. split_and!; [done|done|]. by apply listed_like.
Qed.

Lemma sound_warning text p : sound p → sound (warning text p).
Proof.
  intros Hp. apply (sound_same_calls p); rewrite ?warning_calls, ?warning_seq, ?warning_conversations, ?warning_tasks, ?warning_gap;
    done || lia.
Qed.

Lemma sound_disown id p : sound p → sound (disown id p).
Proof.
  intros Hp. apply (sound_like p); [done|cbn; lia|done|]. intros id' c'. rewrite disown_lookup. case_decide as E.
  - intros (c & Hc & ->)%fmap_Some. exists c. split_and!; [done|reflexivity|by apply listed_like].
  - intros Hc. exists c'. by split_and!.
Qed.

(** The invariant before the call of the newest event is put back. *)
Definition awaiting (event : Event) (p : callProjection) : Prop :=
  sound p ∧ cp_seq p = ev_Seq event ∧ ∀ id c, cp_calls p !! id = Some c → xc_UpdatedSeq c < ev_Seq event.

(** The call is put back at the number of the newest event. *)
Lemma sound_put event id call p q :
  0 < ev_Seq event → awaiting event p → cp_calls q = cp_calls p → cp_seq q = cp_seq p → cp_gap q = cp_gap p →
  0 < xc_CreatedSeq call <= ev_Seq event → xc_UpdatedSeq call = ev_Seq event →
  (∀ id' c, id' ≠ id → cp_calls p !! id' = Some c → xc_CreatedSeq c ≠ xc_CreatedSeq call) →
  listed id call q → (∀ id' c, id' ≠ id → listed id' c p → listed id' c q) →
  sound (q <| cp_calls ::= insert id call |>).
Proof.
  intros Hpos (Hp & Hseq & Hbelow) Hcalls Hqs Hgap Hcr Hup Hdistinct Hself Hothers.
  constructor; cbn [over cp_calls cp_seq cp_gap]; rewrite ?Hcalls, ?Hqs, ?Hseq.
  - lia.
  - intros id' c [[<- <-]|[Hne Hc]]%lookup_insert_Some; [lia|]. pose proof (so_ordered p Hp _ _ Hc). lia.
  - intros id1 id2 c1 c2 [[<- <-]|[H1 Hc1]]%lookup_insert_Some [[<- <-]|[H2 Hc2]]%lookup_insert_Some Heq; [done|..].
    + exfalso. apply (Hdistinct id2 c2); congruence.
    + exfalso. apply (Hdistinct id1 c1); congruence.
    + by eapply (so_created p Hp).
  - intros id1 id2 c1 c2 [[<- <-]|[H1 Hc1]]%lookup_insert_Some [[<- <-]|[H2 Hc2]]%lookup_insert_Some Heq; [done|..].
    + pose proof (Hbelow _ _ Hc2). lia.
    + pose proof (Hbelow _ _ Hc1). lia.
    + by eapply (so_updated p Hp).
  - intros G id' c [[<- <-]|[Hne Hc]]%lookup_insert_Some; [exact Hself|].
    apply (Hothers id' c); [done|]. apply (so_listed p Hp); congruence.
Qed.

(** The call is put back with its numbers, a gap having been reported. *)
Lemma sound_rejected id call c0 p q :
  sound p → cp_calls q = cp_calls p → cp_seq q = cp_seq p → cp_gap q = true →
  cp_calls p !! id = Some c0 → xc_CreatedSeq call = xc_CreatedSeq c0 → xc_UpdatedSeq call = xc_UpdatedSeq c0 →
  sound (q <| cp_calls ::= insert id call |>).
Proof.
  intros Hp Hcalls Hqs Hgap Hc0 Hcr Hup.
  assert (∀ id' c', <[id:=call]> (cp_calls p) !! id' = Some c' → ∃ c, cp_calls p !! id' = Some c ∧
    xc_CreatedSeq c' = xc_CreatedSeq c ∧ xc_UpdatedSeq c' = xc_UpdatedSeq c) as Hsame.
  { intros id' c' [[<- <-]|[_ Hc]]%lookup_insert_Some; eauto. }
  constructor; cbn [over cp_calls cp_seq cp_gap]; rewrite ?Hcalls, ?Hqs.
  - apply (so_seq p Hp).
  - intros id' c' (c & Hc & -> & ->)%Hsame. by apply (so_ordered p Hp id').
  - intros id1 id2 c1 c2 (d1 & H1 & -> & _)%Hsame (d2 & H2 & -> & _)%Hsame. by apply (so_created p Hp).
  - intros id1 id2 c1 c2 (d1 & H1 & _ & ->)%Hsame (d2 & H2 & _ & ->)%Hsame. by apply (so_updated p Hp).
  - congruence.
Qed.

Lemma newCall_created event id legacy ambiguous : xc_CreatedSeq (newCall event id legacy ambiguous) = ev_Seq event.
Proof. unfold newCall. cbv zeta. repeat case_match; reflexivity. Qed.

Lemma created_distinct event id legacy ambiguous p :
  0 < ev_Seq event → awaiting event p →
  let created := xc_CreatedSeq (default (newCall event id legacy ambiguous) (cp_calls p !! id)) in
  0 < created <= ev_Seq event ∧ ∀ id' c, id' ≠ id → cp_calls p !! id' = Some c → xc_CreatedSeq c ≠ created.
Proof.
  intros Hpos (Hp & Hseq & Hbelow) created. subst created. destruct (cp_calls p !! id) as [c0|] eqn:Hc0; cbn [from_option Datatypes.id].
  - pose proof (so_ordered p Hp _ _ Hc0). split; [lia|]. intros id' c Hne Hc Heq. apply Hne. by eapply (so_created p Hp).
  - rewrite newCall_created. split; [lia|]. intros id' c Hne Hc.
    pose proof (so_ordered p Hp _ _ Hc). pose proof (Hbelow _ _ Hc). lia.
Qed.

Lemma apply_to_sound event id legacy ambiguous p :
  0 < ev_Seq event → awaiting event p → sound (apply_to event id legacy ambiguous p).
Proof.
  intros Hpos Haw. destruct (apply_to_spec event id legacy ambiguous p) as (bound & call & q & E & ->).
  destruct (binding_frame _ _ _ _ _ _ _ E) as (_ & Hcr & Hup & Hcalls & Hqs & _ & Hgap).
  destruct (created_distinct event id legacy ambiguous p Hpos Haw) as [Hcreated Hdistinct].
  destruct bound.
  - destruct (binding_listed _ _ _ _ _ _ E) as [Hself Hothers]. rewrite <- Hcr in Hcreated, Hdistinct.
    pose proof (settled_key event legacy ambiguous call) as Hk.
    set (call' := settled event legacy ambiguous true call) in *. clearbody call'. injection Hk as Hkc Hkt Hkcr Hkup.
    rewrite orb_false_r in Hgap.
    apply (sound_put event id call' p); rewrite ?Hkcr; try done. unfold listed. by rewrite Hkc, Hkt.
  - rewrite orb_true_r in Hgap. destruct (cp_calls p !! id) as [c0|] eqn:Hc0; cbn [from_option Datatypes.id] in *.
    + by apply (sound_rejected id call c0 p); [apply Haw|..].
    + by apply binding_agrees in E; [|apply newCall_owner].
Qed.

Lemma awaiting_advance event p :
  sound p → cp_seq p < ev_Seq event → awaiting event (p <| cp_seq := ev_Seq event |>).
Proof.
  intros Hp Hlt. split_and!; [|done|].
  - by apply (sound_same_calls p); [| |cbn; lia|..].
  - intros id c Hc. pose proof (so_ordered p Hp _ _ Hc). lia.
Qed.

Lemma awaiting_legacy event p id ambiguous p' :
  awaiting event p → legacyIdentity event p = (id, ambiguous, p') → awaiting event p'.
Proof.
  intros (Hp & Hseq & Hbelow) E. apply legacyIdentity_calls in E as (Hcalls & Hs & Hc & Ht & Hgap & _).
  assert (cp_gap p' = false → cp_gap p = false) as Hgap' by (destruct (cp_gap p); [by rewrite Hgap|done]).
  destruct Hcalls as [Hcalls|[prior Hcalls]].
  - split_and!; [|congruence|intros id' c'; rewrite Hcalls; apply Hbelow]. apply (sound_same_calls p); done || lia.
  - split_and!; [|congruence|].
    + apply (sound_same_calls (disown prior p)); [by apply sound_disown|exact Hcalls|cbn; lia|exact Hgap'|exact Hc|exact Ht].
    + intros id' c'. rewrite Hcalls, disown_lookup. case_decide; [|by apply Hbelow].
      intros (c & Hc' & ->)%fmap_Some. exact (Hbelow id' c Hc').
Qed.

Lemma apply_sound event p : sound p → sound (apply p event).
Proof.
  intros Hp. unfold apply. destruct (Z.leb_spec (ev_Seq event) (cp_seq p)) as [|Hlt]; [done|]. cbv zeta.
  set (p1 := if negb _ && _ then _ else _).
  assert (sound p1 ∧ cp_seq p1 < ev_Seq event) as [H1 Hlt1].
  { subst p1. case_match; [|done]. rewrite warning_seq. split; [by apply sound_warning|done]. }
  clearbody p1. pose proof (awaiting_advance event p1 H1 Hlt1) as Haw.
  assert (0 < ev_Seq event) as Hpos by (pose proof (so_seq p Hp); lia).
  case_match; [|by apply apply_to_sound].
  destruct (legacyIdentity event _) as [[key ambiguous] q] eqn:E.
  pose proof (awaiting_legacy _ _ _ _ _ Haw E) as Hq.
  case_match; [apply Hq|]. by apply apply_to_sound.
Qed.

Lemma prune_fold_listed before l q id c :
  listed id c q → Forall (λ '(id', call), id' = id → droppable before call = false) l →
  listed id c (foldr (prune_call before) q l).
Proof.
  intros Hq. induction 1 as [|[id' call] l Hid Hl IH]; cbn [foldr]; [done|]. rewrite prune_call_spec.
  destruct (droppable before call) eqn:E; [|exact IH]. destruct IH as [Hc Ht].
  unfold listed. cbn [over cp_conversations cp_tasks]. rewrite !index_remove. naive_solver.
Qed.

Lemma prune_fold_rest before l q :
  let p := foldr (prune_call before) q l in cp_seq p = cp_seq q ∧ cp_gap p = cp_gap q ∧ cp_pruned p = cp_pruned q.
Proof.
  induction l as [|[id call] l IH]; cbn [foldr]; [done|]. cbv zeta. rewrite prune_call_spec. by destruct (droppable before call).
Qed.

Lemma prune_rest before p : cp_seq (prune before p) = cp_seq p ∧ cp_gap (prune before p) = cp_gap p.
Proof.
  unfold prune. case_match; [done|].
  destruct (prune_fold_rest before (map_to_list (cp_calls p)) (p <| cp_pruned := before |>)) as (Hs & Hg & _).
  by rewrite Hs, Hg.
Qed.

Lemma prune_sound before p : sound p → sound (prune before p).
Proof.
  intros Hp. destruct (prune_rest before p) as [Hs Hg].
  apply (sound_like p); [done|lia|congruence|]. intros id c'. rewrite prune_lookup. unfold prune.
  destruct (before <=? cp_pruned p); [intros Hc; exists c'; by split_and!|].
  destruct (cp_calls p !! id) as [c|] eqn:Hc; [|done]. cbn [mbind option_bind]. unfold pruned_call.
  destruct (droppable before c) eqn:E; [done|]. intros [= <-]. exists c.
  pose proof (marked_core before c) as Hm. injection Hm as _ Hb Hcr Hup.
  assert (like c (marked before c)) as Hlike by (unfold like, key_of; by rewrite Hb, Hcr, Hup).
  split_and!; [done|exact Hlike|]. intros Hl.
  enough (listed id c (foldr (prune_call before) (p <| cp_pruned := before |>) (map_to_list (cp_calls p)))) as H
    by (revert H; unfold listed; by rewrite Hb).
  apply prune_fold_listed; [exact Hl|]. apply Forall_forall. intros [id' call] Hin%elem_of_map_to_list ->.
  congruence.
Qed.

(** ** Histories

    What reaches a projection: events, and the pruning of the journal. *)
Inductive input : Type :=
  | Event_seen (event : Event)
  | Pruned_through (before : Z).

Definition feed (p : callProjection) (i : input) : callProjection :=
  match i with Event_seen event => apply p event | Pruned_through before => prune before p end.

Lemma feed_sound p i : sound p → sound (feed p i).
Proof. destruct i; [apply apply_sound|apply prune_sound]. Qed.

Lemma history_sound inputs p : sound p → sound (foldl feed p inputs).
Proof. revert p. induction inputs as [|i inputs IH]; intros p Hp; cbn [foldl]; [done|]. by apply IH, feed_sound. Qed.

(** C20: Within one projection in memory, whatever events arrive, in whatever order, and however the journal is pruned
    under it, a call that has ended (succeeded, partial, failed, cancelled, unknown) keeps an ended status as long as it
    is retained: a late start, a late asynchronous return or a repeated creation does not make it run again.  A
    projection that is built anew from a pruned journal is another one, see [rebuilt_call_reopens]. *)
Theorem terminal_call_final (p : callProjection) (id : string) (inputs : list input) :
  retained terminal id p →
  (∀ k, cp_calls (foldl feed p (take k inputs)) !! id ≠ None) →
  retained terminal id (foldl feed p inputs).
Proof.
  revert p. induction inputs as [|i inputs IH]; intros p Hp Hk; cbn [foldl]; [done|]. apply IH.
  - destruct i as [event|before]; cbn [feed]; [by apply apply_terminal|].
    destruct (prune_terminal before p id Hp) as [|Hnone]; [done|]. by destruct (Hk 1%nat).
  - intros k. exact (Hk (S k)).
Qed.

(** A call that succeeds, is started again by a late event and outlives a pruning. *)
Definition sample_event (seq : Z) (kind status : string) (binding : ExecutionScope) : Event :=
  blank_event <| ev_SchemaVersion := SchemaVersion |> <| ev_Seq := seq |> <| ev_CreatedAt := seq * Second |>
    <| ev_Kind := kind |> <| ev_Status := status |> <| ev_Binding := binding |>.
Definition sample_binding : ExecutionScope :=
  no_binding <| xs_CallID := "call_1" |> <| xs_TaskID := "task_1" |> <| xs_ThreadID := "thread_1" |>.
Definition sample_projection : callProjection :=
  foldl apply newCallProjection
    [sample_event 1 "call.created" "" sample_binding; sample_event 2 "call.completed" "success" sample_binding].
Definition sample_inputs : list input :=
  [Event_seen (sample_event 3 "call.started" "" sample_binding); Pruned_through 2;
   Event_seen (sample_event 4 "call.created" "" sample_binding)].

Lemma terminal_call_final_witness :
  retained terminal "call_1" sample_projection
  ∧ (∀ k, cp_calls (foldl feed sample_projection (take k sample_inputs)) !! "call_1" ≠ None)
  ∧ retained terminal "call_1" (foldl feed sample_projection sample_inputs).
Proof.
  assert (retained terminal "call_1" sample_projection) as H1 by (eexists; split; vm_compute; reflexivity).
  assert (∀ k, cp_calls (foldl feed sample_projection (take k sample_inputs)) !! "call_1" ≠ None) as H2
    by (intros [|[|[|k]]]; [..|rewrite take_ge by (cbn; lia)]; vm_compute; discriminate).
  split; [exact H1|]. split; [exact H2|].
  exact (@terminal_call_final sample_projection "call_1" sample_inputs H1 H2).
Defined.

(** What rebuild reads of a journal pruned through a number: the events after it. *)
Definition rebuilt_from (before : Z) (events : list Event) : callProjection :=
  foldl apply (newCallProjection <| cp_pruned := before |> <| cp_seq := before |>) (List.filter (λ e, before <? ev_Seq e) events).

Definition managed_events : list Event :=
  [sample_event 2 "call.completed" "success" sample_binding; sample_event 3 "call.managed" "" sample_binding].

(** A call that has ended, of which pruning leaves only an event without a status: the projection in memory still says
    how it ended, the one that is built from what the journal still has says that it was created. *)
Lemma rebuilt_call_reopens :
  xc_Status <$> cp_calls (foldl feed newCallProjection (map Event_seen managed_events ++ [Pruned_through 2])) !! "call_1" = Some "succeeded"
  ∧ xc_Status <$> cp_calls (rebuilt_from 2 managed_events) !! "call_1" = Some "created".
Proof. vm_compute. done. Qed.
