(* ===== verification/ActivityView.v ===== *)
(** * ActivityView: what is shown of the calls

    internal/activity/calls.go and call_management.go: the pages of calls, the
    record of one call, the management of calls and the statistics, as
    functions of the projection. *)

From S2P Require Import Prelude GoText Binding Metadata ActivityEvent ActivityCalls.
Local Open Scope Z_scope.

Definition MaxCallPage : Z := 200.

Record CallQuery : Type := mkCallQuery {
  cq_View : string;
  cq_ConversationID : string;
  cq_TaskID : string;
  cq_ThreadID : string;
  cq_ParentCallID : string;
  cq_Status : string;
  cq_Search : string;
  cq_Before : Z;
  cq_After : Z;
  cq_Updates : bool;
  cq_Limit : Z;
  cq_IncludeDiagnostic : bool;
  cq_IncludeOutput : bool;
  cq_Unattributed : bool;
  cq_TopLevel : bool;
}.
#[export] Instance CallQuery_eta : Eta CallQuery := λ c,
  mkCallQuery (cq_View c) (cq_ConversationID c) (cq_TaskID c) (cq_ThreadID c) (cq_ParentCallID c) (cq_Status c)
    (cq_Search c) (cq_Before c) (cq_After c) (cq_Updates c) (cq_Limit c) (cq_IncludeDiagnostic c)
    (cq_IncludeOutput c) (cq_Unattributed c) (cq_TopLevel c).

Record CallPage : Type := mkCallPage {
  kp_Calls : list ExecutionCall;
  kp_NextBefore : Z;
  kp_NextSeq : Z;
  kp_LatestSeq : Z;
  kp_PrunedThrough : Z;
  kp_HasMore : bool;
  kp_Gap : bool;
  kp_Reset : bool;
  kp_Warnings : list string;
}.
#[export] Instance CallPage_eta : Eta CallPage := λ c,
  mkCallPage (kp_Calls c) (kp_NextBefore c) (kp_NextSeq c) (kp_LatestSeq c) (kp_PrunedThrough c) (kp_HasMore c)
    (kp_Gap c) (kp_Reset c) (kp_Warnings c).

(** ** Management *)

Definition no_item : CallManagement := no_management.
Definition item_of (items : gmap string CallManagement) (id : string) : CallManagement := default no_item (items !! id).

Definition callManagementMatches (item : CallManagement) (view : string) : bool :=
  let m := gm_Management item in
  if not_nil (gm_DeletedAt item) then false
  else if view =s "all" then true
  else if view =s "trash" then not_nil (mg_TrashedAt m)
  else if view =s "archived" then is_nil (mg_TrashedAt m) && not_nil (mg_ArchivedAt m)
  else if view =s "isolated" then is_nil (mg_TrashedAt m) && not_nil (gm_IsolatedAt item)
  else is_nil (mg_TrashedAt m) && is_nil (mg_ArchivedAt m) && is_nil (gm_IsolatedAt item).

Definition inherit_from (ancestor item : CallManagement) : CallManagement :=
  let a := gm_Management ancestor in
  item <| gm_DeletedAt ::= non_nil (gm_DeletedAt ancestor) |>
       <| gm_Management ::= λ m, if is_nil (mg_TrashedAt a) then m
            else m <| mg_TrashedAt := mg_TrashedAt a |> <| mg_PurgeAfter := mg_PurgeAfter a |> |>
       <| gm_Management ::= λ m, m <| mg_ArchivedAt ::= non_nil (mg_ArchivedAt a) |> |>
       <| gm_IsolatedAt ::= non_nil (gm_IsolatedAt ancestor) |>.

Section Inherit.
Context (items : gmap string CallManagement) (calls : gmap string ExecutionCall).

(** The loop over the ancestors, [depth] turns of it. *)
Fixpoint inherit (depth : nat) (parent : string) (item : CallManagement) : CallManagement :=
  match depth with
  | O => item
  | S depth =>
      if parent =s "" then item
      else
        let item := inherit_from (item_of items parent) item in
        match calls !! parent with
        | None => item
        | Some value => inherit depth (xs_ParentCallID (xc_Binding value)) item
        end
  end.

Definition managed (id : string) (call : ExecutionCall) : ExecutionCall :=
  call <| xc_Managed := inherit 64 (xs_ParentCallID (xc_Binding call)) (item_of items id) |>.
End Inherit.

Definition applyCallManagementLocked (items : gmap string CallManagement) (p : callProjection) : callProjection :=
  p <| cp_calls ::= λ calls, map_imap (λ id call, Some (managed items calls id call)) calls |>.

(** *** The records that a change of [id] concerns: the call and what it called *)

Definition child_of (calls : gmap string ExecutionCall) (parent : string) : gset string :=
  dom (filter (λ '(_, call), xs_ParentCallID (xc_Binding call) = parent) calls).

Section Manage.
Context `{MapOrder} (calls : gmap string ExecutionCall).

(** The loop [for i := 0; i < len(ids); i++]; an id that is no call would be a
    nil pointer.  Each turn but the last visits another call, so the number of
    calls is fuel enough. *)
Fixpoint members (fuel : nat) (ids : list string) (i : nat) : result (list string) :=
  match ids !! i with
  | None => Ok ids
  | Some id =>
      match fuel, calls !! id with
      | S fuel, Some call =>
          reject (negb (CallTerminal (xc_Status call))) "record or child is still running or awaiting approval";;
          members fuel (ids ++ filter (.∉ ids) (iterate (child_of calls id))) (S i)
      | _, _ => Err "nil"
      end
  end.

Definition manage_item (change : MetadataChange) (now : Time) (item : CallManagement) : result CallManagement :=
  let action := mc_Action change in
  if action =s "isolate" then Ok (item <| gm_IsolatedAt := Some now |>)
  else if action =s "unisolate" then Ok (item <| gm_IsolatedAt := None |>)
  else if action =s "delete" then Ok (item <| gm_DeletedAt := Some now |>)
  else if one_of action ["archive"; "unarchive"; "trash"; "restore"] then
    changed ← ApplyManagement (gm_Management item) "" change now;
    Ok (item <| gm_Management := changed.1 |>)
  else Err "unsupported call management action".

Fixpoint manage_items (change : MetadataChange) (now : Time) (ids : list string) (items : gmap string CallManagement) :
    result (gmap string CallManagement) :=
  match ids with
  | [] => Ok items
  | id :: ids =>
      item ← manage_item change now (item_of items id);
      manage_items change now ids (<[id := item]> items)
  end.

Definition ErrCallNotFound : string := "execution call not found in retained history".

(** The part of ManageCall under the lock: the new items. *)
Definition manage (id : string) (change : MetadataChange) (now : Time) (items : gmap string CallManagement) :
    result (gmap string CallManagement) :=
  match calls !! id with
  | None => Err ErrCallNotFound
  | Some root =>
      reject (not_nil (gm_DeletedAt (xc_Managed root))) ErrCallNotFound;;
      reject ((mc_Action change =s "delete") && is_nil (mg_TrashedAt (gm_Management (xc_Managed root))))
        "move the record to trash before permanent deletion";;
      ids ← members (size calls) [id] 0;
      manage_items change now ids items
  end.
End Manage.

(** ** One call *)

Definition cloneCall (output : bool) (call : ExecutionCall) : ExecutionCall :=
  let copied := call <| xc_Request ::= fmap (Payload_clone output) |> <| xc_Response ::= fmap (Payload_clone output) |>
    <| xc_OutputSource ::= fmap (Payload_clone output) |> <| xc_FileEdit ::= fmap (FileEditDetails_clone output) |> in
  if output then copied else copied <| xc_OutputPreview := "" |> <| xc_StderrPreview := "" |>.

Definition Call (id : string) (p : callProjection) : result ExecutionCall :=
  reject (negb (matches_id id)) "invalid call_id";;
  match cp_calls p !! id with
  | None => Err ErrCallNotFound
  | Some call => if not_nil (gm_DeletedAt (xc_Managed call)) then Err ErrCallNotFound else Ok (cloneCall true call)
  end.

(** ** Pages of calls *)

Section Pages.
Context `{UnicodeCase} `{MapOrder}.

(** [a] asks for a value and [b] is another one. *)
Definition differs (a b : string) : bool := (a ≠s "") && (b ≠s a).

Definition callMatches (query : CallQuery) (call : ExecutionCall) : bool :=
  let b := xc_Binding call in
  if negb (cq_Updates query) && negb (callManagementMatches (xc_Managed call) (cq_View query)) then false
  else if (xs_Visibility b =s "diagnostic") && negb (cq_IncludeDiagnostic query) then false
  else if differs (cq_ConversationID query) (xs_ConversationID b) || differs (cq_TaskID query) (xs_TaskID b)
          || differs (cq_ThreadID query) (xs_ThreadID b) then false
  else if (cq_Unattributed query && (xs_ConversationID b ≠s "")) || (cq_TopLevel query && (xs_ParentCallID b ≠s ""))
          || differs (cq_ParentCallID query) (xs_ParentCallID b) then false
  else if (if cq_Status query =s "attention" then negb (one_of (xc_Status call) ["pending_approval"; "failed"; "unknown"])
           else negb (cq_Updates query) && differs (cq_Status query) (xc_Status call)) then false
  else if ((0 <? cq_Before query) && (cq_Before query <=? xc_CreatedSeq call))
          || (cq_Updates query && (xc_UpdatedSeq call <=? cq_After query)) then false
  else if (cq_Search query ≠s "")
          && negb (Contains (ToLower (xc_Title call +:+ " " +:+ xc_ToolName call +:+ " " +:+ xc_DisplayCommand call +:+ " "
                                      +:+ xc_Summary call +:+ " " +:+ xc_Workdir call +:+ " " +:+ xc_ParameterSummary call))
                            (ToLower (cq_Search query))) then false
  else true.

Definition goes_before (query : CallQuery) (a b : ExecutionCall) : bool :=
  if cq_Updates query then xc_UpdatedSeq a <? xc_UpdatedSeq b else xc_CreatedSeq b <? xc_CreatedSeq a.

(** The keys that a query looks at. *)
Definition looked_at (query : CallQuery) (p : callProjection) : gset string :=
  if cq_ConversationID query ≠s "" then index_of (cp_conversations p) (cq_ConversationID query)
  else if cq_Unattributed query then index_of (cp_conversations p) ""
  else if cq_TaskID query ≠s "" then index_of (cp_tasks p) (cq_TaskID query)
  else dom (cp_calls p).

Definition candidates (query : CallQuery) (p : callProjection) : list ExecutionCall :=
  filter (λ call, callMatches query call = true) (omap (λ id, cp_calls p !! id) (iterate (looked_at query p))).

Definition page_limit (query : CallQuery) : Z :=
  if (cq_Limit query <=? 0) || (MaxCallPage <? cq_Limit query) then 100 else cq_Limit query.

(** The page, the query being valid. *)
Definition page_of (query : CallQuery) (p : callProjection) : CallPage :=
  let gap := cp_gap p || (cq_Updates query && (cq_After query <? cp_pruned p))
             || (negb (cq_Updates query) && (0 <? cp_pruned p)) in
  let page := mkCallPage [] 0 (cp_seq p) (cp_seq p) (cp_pruned p) false gap
                (cq_Updates query && (cp_seq p <? cq_After query)) (cp_warnings p) in
  if cq_Updates query && (cp_seq p <=? cq_After query) then page
  else
    let found := sort_by (goes_before query) (candidates query p) in
    let limit := Z.to_nat (page_limit query) in
    let more := (limit <? length found)%nat in
    let found := if more then take limit found else found in
    let page := page <| kp_HasMore := more |> <| kp_Calls := map (cloneCall (cq_IncludeOutput query)) found |> in
    match last found with
    | None => page
    | Some call =>
        let page := page <| kp_NextBefore := xc_CreatedSeq call |> in
        if cq_Updates query && more then page <| kp_NextSeq := xc_UpdatedSeq call |> else page
    end.

Definition Calls (query : CallQuery) (p : callProjection) : result CallPage :=
  Validate (no_binding <| xs_ConversationID := cq_ConversationID query |> <| xs_TaskID := cq_TaskID query |>
                       <| xs_ThreadID := cq_ThreadID query |> <| xs_ParentCallID := cq_ParentCallID query |>);;
  reject (negb (one_of (cq_View query) [""; "active"; "all"; "archived"; "isolated"; "trash"])) "invalid call view";;
  reject (512 <? len (cq_Search query)) "search exceeds 512 bytes";;
  Ok (page_of query p).
End Pages.
