(* ===== verification/ActivityViewSpec.v ===== *)
(** * ActivityViewSpec: what the pages of calls and the management promise

    Pages are complete when no gap is reported; the management of a call
    concerns exactly the calls below it, and none that still runs. *)

From stdpp Require Import relations sorting.
From S2P Require Import Prelude GoText Binding Metadata ActivityEvent ActivityCalls ActivityCallsSpec ActivityView.
Local Open Scope Z_scope.

(** ** Sorting by distinct ranks *)

Section Ranked.
Context {A : Type} (rank : A → Z).
Implicit Types (l k : list A).

Definition ranked : list A → Prop := StronglySorted (λ x y, rank x <= rank y).

Lemma ranked_unique l k :
  ranked l → ranked k → l ≡ₚ k → (∀ x y, x ∈ l → y ∈ l → rank x = rank y → x = y) → l = k.
Proof.
  intros Hl. revert k. induction Hl as [|x l Hl IH Hx]; intros k Hk Hp Hinj.
  { by apply Permutation_nil_l in Hp as ->. }
  destruct Hk as [|y k Hk Hy]; [by apply Permutation_nil_r in Hp|].
  assert (x = y) as <-.
  { assert (x ∈ y :: k) as H1 by (rewrite <- Hp; left). assert (y ∈ x :: l) as H2 by (rewrite Hp; left).
    apply Hinj; [left|done|].
    apply elem_of_cons in H1 as [->|H1]; [done|]. apply elem_of_cons in H2 as [->|H2]; [done|].
    rewrite Forall_forall in Hx, Hy. pose proof (Hx _ H2). pose proof (Hy _ H1). lia. }
  f_equal. apply IH; [done|by eapply Permutation_cons_inv|]. intros a b Ha Hb. apply Hinj; by right.
Qed.

Lemma ranked_filter (P : A → Prop) `{∀ x, Decision (P x)} l : ranked l → ranked (filter P l).
Proof.
  induction 1 as [|x l Hl IH Hx]; [constructor|]. rewrite filter_cons. case_decide; [|done].
  constructor; [done|]. apply Forall_forall. intros y [_ Hy]%list_elem_of_filter. by eapply Forall_forall in Hx.
Qed.

Lemma filter_none (P : A → Prop) `{∀ x, Decision (P x)} l : Forall (λ x, ¬ P x) l → filter P l = [].
Proof. induction 1 as [|x l Hx _ IH]; [done|]. by rewrite filter_cons_False. Qed.
Lemma filter_all (P : A → Prop) `{∀ x, Decision (P x)} l : Forall P l → filter P l = l.
Proof. induction 1 as [|x l Hx _ IH]; [done|]. by rewrite filter_cons_True, IH. Qed.

(** What stands behind an element is what ranks after it. *)
Lemma ranked_behind l k x :
  ranked (l ++ x :: k) → NoDup (l ++ x :: k) →
  (∀ x' y, x' ∈ l ++ x :: k → y ∈ l ++ x :: k → rank x' = rank y → x' = y) →
  filter (λ y, rank x < rank y) (l ++ x :: k) = k.
Proof.
  intros (Hlk & _ & Hk)%StronglySorted_app Hnd Hinj. rewrite filter_app.
  rewrite filter_none by (apply Forall_forall; intros y Hy; pose proof (Hlk y x Hy ltac:(left)) as H; cbn in H; lia).
  rewrite filter_cons_False by lia. apply filter_all, Forall_forall. intros y Hy.
  inversion Hk as [|? ? Hk' Hx]; subst. eapply Forall_forall in Hx; [|exact Hy]. cbn in Hx.
  destruct (decide (rank x = rank y)) as [Heq|]; [exfalso|lia].
  assert (x = y) as <- by (apply Hinj; [set_solver..|done]).
  apply NoDup_app in Hnd as (_ & _ & Hnd). by inversion Hnd.
Qed.
End Ranked.

(** ** Pages *)

Section Pages.
Context `{UnicodeCase} `{MapOrder}.
Implicit Types (query : CallQuery) (p : callProjection) (call : ExecutionCall).

Definition all_calls p : list ExecutionCall := (map_to_list (cp_calls p)).*2.

(** The reference: every call that matches, in the order of the list. *)
Definition matching query p : list ExecutionCall :=
  sort_by (goes_before query) (filter (λ call, callMatches query call = true) (all_calls p)).

Definition rank query call : Z := if cq_Updates query then xc_UpdatedSeq call else - xc_CreatedSeq call.

Lemma goes_before_rank query a b : goes_before query a b = (rank query a <? rank query b).
Proof. unfold goes_before, rank. case_match; lia. Qed.

Lemma sort_ranked query l : ranked (rank query) (sort_by (goes_before query) l).
Proof.
  assert (StronglySorted (in_order (goes_before query)) (sort_by (goes_before query) l)) as Hs
    by (apply sort_by_sorted; unfold in_order; intros *; rewrite !goes_before_rank; lia).
  induction Hs as [|x k Hk IH Hx]; constructor; [done|]. eapply Forall_impl; [exact Hx|].
  intros y. unfold in_order. rewrite goes_before_rank. lia.
Qed.

Lemma elem_of_all_calls p call : call ∈ all_calls p ↔ ∃ id, cp_calls p !! id = Some call.
Proof.
  unfold all_calls. rewrite list_elem_of_fmap. split.
  - intros ([id c] & -> & Hc%elem_of_map_to_list). eauto.
  - intros (id & Hc). exists (id, call). split; [done|by apply elem_of_map_to_list].
Qed.

Lemma all_calls_rank query p x y :
  sound p → x ∈ all_calls p → y ∈ all_calls p → rank query x = rank query y → x = y.
Proof.
  intros Hp [i Hx]%elem_of_all_calls [j Hy]%elem_of_all_calls E.
  enough (i = j) by congruence. unfold rank in E. case_match.
  - by eapply (so_updated p Hp).
  - eapply (so_created p Hp); eauto; lia.
Qed.

Lemma all_calls_NoDup p : sound p → NoDup (all_calls p).
Proof.
  intros Hp. unfold all_calls. apply NoDup_fmap_2_strong; [|apply NoDup_map_to_list].
  intros [i x] [j y] Hx%elem_of_map_to_list Hy%elem_of_map_to_list E. cbn in E. subst y.
  f_equal. by eapply (so_created p Hp).
Qed.

Lemma NoDup_omap_strong {A B} (f : A → option B) l :
  (∀ x y b, f x = Some b → f y = Some b → x = y) → NoDup l → NoDup (omap f l).
Proof.
  intros Hinj. induction 1 as [|x l Hx Hl IH]; cbn; [constructor|]. destruct (f x) as [b|] eqn:E; [|done].
  constructor; [|done]. intros (y & Hy & Hb)%list_elem_of_omap. by rewrite (Hinj x y b) in Hx.
Qed.

(** What is looked at holds all that matches, when no gap is reported. *)
Lemma candidates_perm query p :
  sound p → cp_gap p = false →
  candidates query p ≡ₚ filter (λ call, callMatches query call = true) (all_calls p).
Proof.
  intros Hp Hgap. unfold candidates. apply NoDup_Permutation.
  - apply NoDup_filter, NoDup_omap_strong.
    + intros i j c Hi Hj. by eapply (so_created p Hp).
    + rewrite iterate_perm. apply NoDup_elements.
  - by apply NoDup_filter, all_calls_NoDup.
  - intros call. rewrite !list_elem_of_filter, list_elem_of_omap, elem_of_all_calls.
    split; [intros (Hm & id & _ & Hc); eauto|]. intros (Hm & id & Hc). split; [done|]. exists id. split; [|done].
    rewrite iterate_perm, elem_of_elements. destruct (so_listed p Hp Hgap _ _ Hc) as [Hconv Htask].
    unfold looked_at. unfold callMatches, differs in Hm. cbv zeta in Hm.
    destruct (String.eqb_spec (cq_ConversationID query) "") as [E1|E1]; cbn [negb] in *.
    2: { destruct (String.eqb_spec (xs_ConversationID (xc_Binding call)) (cq_ConversationID query)) as [<-|];
           [exact Hconv|exfalso; revert Hm; clear; cbn; repeat case_match; congruence]. }
    destruct (cq_Unattributed query); cbn [negb andb orb] in *.
    { destruct (String.eqb_spec (xs_ConversationID (xc_Binding call)) "") as [<-|];
           [exact Hconv|exfalso; revert Hm; clear; cbn; repeat case_match; congruence]. }
    destruct (String.eqb_spec (cq_TaskID query) "") as [E2|E2]; cbn [negb andb orb] in *.
    + apply elem_of_dom. eauto.
    + destruct (String.eqb_spec (xs_TaskID (xc_Binding call)) (cq_TaskID query)) as [<-|];
        [exact Htask|exfalso; revert Hm; clear; cbn; repeat case_match; congruence].
Qed.

Lemma sort_unique query p l k :
  sound p → l ≡ₚ k → (∀ x, x ∈ l → x ∈ all_calls p) → sort_by (goes_before query) l = sort_by (goes_before query) k.
Proof.
  intros Hp Hlk Hin. apply (ranked_unique (rank query)); [apply sort_ranked..| |].
  - by rewrite !sort_by_perm.
  - intros x y. rewrite !elem_of_sort_by. intros Hx Hy. by apply (all_calls_rank query p); auto.
Qed.

Lemma page_found query p :
  sound p → cp_gap p = false → sort_by (goes_before query) (candidates query p) = matching query p.
Proof.
  intros Hp Hgap. apply (sort_unique query p); [done|by apply candidates_perm|].
  intros x. rewrite (candidates_perm query p) by done. by intros [_ ?]%list_elem_of_filter.
Qed.

(** *** From one page to the next *)

Definition next_query query (page : CallPage) : CallQuery :=
  if cq_Updates query then query <| cq_After := kp_NextSeq page |> else query <| cq_Before := kp_NextBefore page |>.

Lemma matches_before query b call :
  0 < b → callMatches (query <| cq_Before := b |>) call =
  callMatches (query <| cq_Before := 0 |>) call && (xc_CreatedSeq call <? b).
Proof.
  intros Hb. unfold callMatches. cbn. replace (0 <? b) with true by lia.
  destruct (Z.ltb_spec (xc_CreatedSeq call) b), (Z.leb_spec b (xc_CreatedSeq call)); try lia; cbn; repeat case_match; done.
Qed.

Lemma matches_after query a call :
  cq_Updates query = true → callMatches (query <| cq_After := a |>) call =
  callMatches (query <| cq_After := xc_UpdatedSeq call - 1 |>) call && (a <? xc_UpdatedSeq call).
Proof.
  intros Hu. unfold callMatches. cbn. rewrite Hu. cbn.
  destruct (Z.leb_spec (xc_UpdatedSeq call) (xc_UpdatedSeq call - 1)); [lia|].
  destruct (Z.leb_spec (xc_UpdatedSeq call) a), (Z.ltb_spec a (xc_UpdatedSeq call)); try lia;
    rewrite ?orb_true_r, ?orb_false_r; cbn; repeat case_match; done.
Qed.

Lemma query_eta query : query = query <| cq_Before := cq_Before query |> ∧ query = query <| cq_After := cq_After query |>.
Proof. by destruct query. Qed.

Lemma matches_window query c :
  (0 < cq_Before query →
     callMatches query c = callMatches (query <| cq_Before := 0 |>) c && (xc_CreatedSeq c <? cq_Before query))
  ∧ (cq_Before query <= 0 → callMatches query c = callMatches (query <| cq_Before := 0 |>) c)
  ∧ (cq_Updates query = true →
     callMatches query c = callMatches (query <| cq_After := xc_UpdatedSeq c - 1 |>) c && (cq_After query <? xc_UpdatedSeq c)).
Proof.
  destruct (query_eta query) as [Eb Ea]. split_and!; intros Hq.
  - rewrite <- matches_before by done. by rewrite <- Eb.
  - unfold callMatches. cbn. by replace (0 <? cq_Before query) with false by lia.
  - rewrite <- matches_after by done. by rewrite <- Ea.
Qed.

Lemma matches_next query page x call :
  0 < xc_CreatedSeq x → callMatches query x = true →
  kp_NextBefore page = xc_CreatedSeq x → (cq_Updates query = true → kp_NextSeq page = xc_UpdatedSeq x) →
  callMatches (next_query query page) call = callMatches query call && (rank query x <? rank query call).
Proof.
  intros Hpos Hx Hb Ha. destruct (matches_window query x) as (X1 & X2 & X3), (matches_window query call) as (C1 & C2 & C3).
  unfold next_query, rank. destruct (cq_Updates query) eqn:Hu.
  - rewrite Ha by done. rewrite matches_after by (rewrite Hu; done). rewrite X3 in Hx by done. rewrite C3 by done.
    rewrite <- andb_assoc. f_equal. lia.
  - rewrite Hb, matches_before by done. destruct (decide (0 < cq_Before query)) as [Hz|Hz].
    + rewrite X1 in Hx by done. rewrite C1 by done. rewrite <- andb_assoc. f_equal. lia.
    + rewrite C2 by lia. f_equal. lia.
Qed.

Lemma goes_before_next query page : goes_before (next_query query page) = goes_before query.
Proof. unfold next_query, goes_before. destruct (cq_Updates query) eqn:E; cbn; by rewrite E. Qed.

Lemma elem_of_matching query p x : x ∈ matching query p → callMatches query x = true ∧ x ∈ all_calls p.
Proof. unfold matching. by rewrite elem_of_sort_by, list_elem_of_filter. Qed.

Lemma matching_ranked query p : ranked (rank query) (matching query p).
Proof. apply sort_ranked. Qed.

Lemma matching_NoDup query p : sound p → NoDup (matching query p).
Proof. intros Hp. unfold matching. rewrite sort_by_perm. by apply NoDup_filter, all_calls_NoDup. Qed.

Lemma filter_and {A} (P Q : A → bool) (l : list A) :
  filter (λ x, P x && Q x = true) l = filter (λ x, Q x = true) (filter (λ x, P x = true) l).
Proof.
  induction l as [|x l IH]; [done|]. rewrite !filter_cons. repeat case_decide; rewrite ?filter_cons; repeat case_decide;
    rewrite ?IH; try done; destruct (P x), (Q x); done.
Qed.

Lemma matching_next query p page x :
  sound p → x ∈ matching query p →
  kp_NextBefore page = xc_CreatedSeq x → (cq_Updates query = true → kp_NextSeq page = xc_UpdatedSeq x) →
  matching (next_query query page) p = filter (λ y, rank query x < rank query y) (matching query p).
Proof.
  intros Hp [Hx Hin]%elem_of_matching Hb Ha. assert (0 < xc_CreatedSeq x) as Hpos.
  { apply elem_of_all_calls in Hin as [id Hid]. pose proof (so_ordered p Hp _ _ Hid). lia. }
  unfold matching at 1. rewrite goes_before_next. apply (ranked_unique (rank query)); [apply sort_ranked| | |].
  - apply ranked_filter, matching_ranked.
  - unfold matching. rewrite !sort_by_perm.
    rewrite (list_filter_iff _ (λ call, callMatches query call && (rank query x <? rank query call) = true))
      by (intros call; by rewrite (matches_next query page x)).
    rewrite filter_and. erewrite (list_filter_iff (λ call, (rank query x <? rank query call) = true)); [reflexivity|].
    intros y. cbn. by rewrite Z.ltb_lt.
  - intros y z [_ Hy]%elem_of_sort_by%list_elem_of_filter [_ Hz]%elem_of_sort_by%list_elem_of_filter.
    by apply (all_calls_rank query p).
Qed.

(** What a page holds. *)
Lemma page_of_spec query p :
  sound p → cp_gap p = false →
  let page := page_of query p in
  let n := Z.to_nat (page_limit query) in
  kp_Calls page = map (cloneCall (cq_IncludeOutput query)) (take n (matching query p))
  ∧ (kp_HasMore page = false → length (matching query p) <= n)%nat
  ∧ (kp_HasMore page = true → (n < length (matching query p))%nat ∧
       matching (next_query query page) p = drop n (matching query p)).
Proof.
  intros Hp Hgap page n. subst page. unfold page_of. cbv zeta. rewrite page_found by done. fold n.
  destruct (cq_Updates query && (cp_seq p <=? cq_After query)) eqn:Early.
  { cbn. assert (matching query p = []) as ->; [|by split_and!; [destruct n|cbn; lia|]].
    apply andb_true_iff in Early as [Hu Hle]. unfold matching. rewrite filter_none; [done|].
    apply Forall_forall. intros call [id Hc]%elem_of_all_calls Hm. pose proof (so_ordered p Hp _ _ Hc).
    destruct (matches_window query call) as (_ & _ & Hw). rewrite Hw in Hm by done. lia. }
  assert (1 <= n)%nat as Hn by (subst n; unfold page_limit, MaxCallPage; case_match; lia).
  destruct (Nat.ltb_spec n (length (matching query p))) as [Hlt|Hge].
  - destruct (last (take n (matching query p))) as [x|] eqn:Hlast.
    2: { apply last_None in Hlast. apply (f_equal length) in Hlast. rewrite length_take in Hlast. cbn in Hlast. lia. }
    destruct (last_Some (take n (matching query p)) x) as [[l El] _]; [done|].
    assert (matching query p = l ++ x :: drop n (matching query p)) as Esplit
      by (rewrite <- (take_drop n (matching query p)) at 1; rewrite El, <- app_assoc; done).
    assert (x ∈ matching query p) as Hin by (rewrite Esplit; apply elem_of_app; right; left).
    assert (∀ q', matching q' p = filter (λ y, rank query x < rank query y) (matching query p) →
      matching q' p = drop n (matching query p)) as Hdrop.
    { intros q' ->. rewrite Esplit at 1. apply (ranked_behind (rank query)).
      - rewrite <- Esplit. apply matching_ranked.
      - rewrite <- Esplit. by apply matching_NoDup.
      - intros a b. rewrite <- Esplit. intros [_ Ha]%elem_of_matching [_ Hb]%elem_of_matching. by apply (all_calls_rank query p). }
    destruct (cq_Updates query) eqn:Hu; cbn; (split_and!; [done|done|intros _; split; [done|]]);
      apply Hdrop, (matching_next query p _ x); cbn; rewrite ?Hu; done.
  - cbn. rewrite take_ge by done. case_match; [destruct (cq_Updates query)|]; cbn; by split_and!.
Qed.

(** Page after page, until one has no more. *)
Fixpoint pages (fuel : nat) query p : list ExecutionCall :=
  let page := page_of query p in
  kp_Calls page ++
  (if kp_HasMore page then match fuel with O => [] | S fuel => pages fuel (next_query query page) p end else []).

Lemma pages_all fuel query p :
  sound p → cp_gap p = false → (length (matching query p) <= fuel)%nat →
  pages fuel query p = map (cloneCall (cq_IncludeOutput query)) (matching query p).
Proof.
  intros Hp Hgap. revert query. induction fuel as [|fuel IH]; intros query Hfuel; cbn [pages];
    destruct (page_of_spec query p Hp Hgap) as (Hcalls & Hlast & Hnext); rewrite Hcalls.
  - rewrite take_ge by lia. destruct (kp_HasMore _); [lia|by rewrite app_nil_r].
  - destruct (kp_HasMore (page_of query p)) eqn:E; [|rewrite take_ge, app_nil_r by auto; done].
    destruct (Hnext eq_refl) as [Hlt Hdrop]. rewrite IH, Hdrop.
    + assert (∀ page, cq_IncludeOutput (next_query query page) = cq_IncludeOutput query) as ->
        by (intros page; unfold next_query; by destruct (cq_Updates query)).
      by rewrite <- map_app, take_drop.
    + rewrite Hdrop, length_drop. assert (1 <= Z.to_nat (page_limit query))%nat; [|lia].
      unfold page_limit, MaxCallPage. case_match; lia.
Qed.

Lemma matching_bound query p : (length (matching query p) <= size (cp_calls p))%nat.
Proof.
  unfold matching. rewrite length_sort_by, length_filter. unfold all_calls. by rewrite length_fmap, length_map_to_list.
Qed.

Lemma managed_sound items p : sound p → sound (applyCallManagementLocked items p).
Proof.
  intros Hp. apply (sound_like p); [done|cbn; lia|done|]. intros id c'. cbn. rewrite map_lookup_imap.
  destruct (cp_calls p !! id) as [c|]; [|done]. intros [= <-]. exists c. split_and!; [done|reflexivity|].
  by apply listed_like.
Qed.

(** C22: A client that asks for page after page of the calls - older ones before the last it saw, or, when it follows
    updates, newer ones after the cursor it was given - receives every retained call that matches its query, each once
    and in order (newest first, or by last change), whatever events built the projection, however it was pruned and
    managed, whichever index the query is answered from and in whatever order Go walks its maps, provided that the
    projection does not report a gap in the history. *)
Theorem call_pages_cover (inputs : list input) (items : gmap string CallManagement) query :
  let p := applyCallManagementLocked items (foldl feed newCallProjection inputs) in
  cp_gap p = false →
  pages (size (cp_calls p)) query p = map (cloneCall (cq_IncludeOutput query)) (matching query p).
Proof.
  intros p Hgap. apply pages_all; [|done|apply matching_bound]. apply managed_sound, history_sound, sound_new.
Qed.
End Pages.

(** ** The management of a call *)

Section Manage.
Context `{MapOrder} (calls : gmap string ExecutionCall).
Implicit Types (id x : string) (ids : list string).

(** [x] was called by [id]. *)
Definition calls_directly id x : Prop := ∃ c, calls !! x = Some c ∧ xs_ParentCallID (xc_Binding c) = id.
Definition below : string → string → Prop := rtc calls_directly.

Lemma elem_of_children id x : x ∈ iterate (child_of calls id) ↔ calls_directly id x.
Proof.
  rewrite iterate_perm, elem_of_elements. unfold child_of, calls_directly. rewrite elem_of_dom. unfold is_Some.
  split; intros (c & Hc); exists c; [by apply map_lookup_filter_Some in Hc|by apply map_lookup_filter_Some].
Qed.

Lemma children_NoDup id : NoDup (iterate (child_of calls id)).
Proof. rewrite iterate_perm. apply NoDup_elements. Qed.

(** The loop of [members] at [i]: what was visited has ended, and what it
    called is in the list. *)
Record visiting (root : string) ids (i : nat) : Prop := {
  vi_NoDup : NoDup ids;
  vi_root : root ∈ ids;
  vi_below : ∀ x, x ∈ ids → below root x ∧ is_Some (calls !! x);
  vi_ended : ∀ j x c, (j < i)%nat → ids !! j = Some x → calls !! x = Some c → terminal c;
  vi_closed : ∀ j x y, (j < i)%nat → ids !! j = Some x → calls_directly x y → y ∈ ids;
}.

Lemma visiting_start root c : calls !! root = Some c → visiting root [root] 0.
Proof.
  intros Hc. constructor; [apply NoDup_singleton|by apply list_elem_of_singleton| |lia|lia].
  intros x ->%list_elem_of_singleton. split; [apply rtc_refl|eauto].
Qed.

Lemma visiting_step root ids i id c :
  visiting root ids i → ids !! i = Some id → calls !! id = Some c → terminal c →
  visiting root (ids ++ filter (.∉ ids) (iterate (child_of calls id))) (S i).
Proof.
  intros V Hid Hc Ht. assert (id ∈ ids) as Hin by by eapply list_elem_of_lookup_2.
  assert (∀ j x, (j < S i)%nat → (ids ++ filter (.∉ ids) (iterate (child_of calls id))) !! j = Some x →
    ids !! j = Some x) as Hlook.
  { intros j x Hj Hx. rewrite lookup_app_l in Hx; [done|]. apply lookup_lt_Some in Hid. lia. }
  constructor.
  - apply NoDup_app. split_and!; [apply V|by intros x Hx [? _]%list_elem_of_filter|apply NoDup_filter, children_NoDup].
  - apply elem_of_app. left. apply V.
  - intros x [Hx|[_ Hx]%list_elem_of_filter]%elem_of_app; [by apply V|]. apply elem_of_children in Hx.
    split; [|by destruct Hx as (d & Hd & _); eauto]. eapply rtc_r; [by apply V|exact Hx].
  - intros j x d Hj Hx Hd. apply Hlook in Hx; [|done]. destruct (decide (j = i)) as [->|].
    + congruence.
    + by apply (vi_ended _ _ _ V j x d); [lia|..].
  - intros j x y Hj Hx Hy. apply Hlook in Hx; [|done]. apply elem_of_app. destruct (decide (j = i)) as [->|].
    + assert (x = id) as -> by congruence. destruct (decide (y ∈ ids)); [by left|right].
      apply list_elem_of_filter. split; [done|by apply elem_of_children].
    + left. by apply (vi_closed _ _ _ V j x y); [lia|..].
Qed.

Lemma visiting_all root ids i : visiting root ids i → ids !! i = None → visiting root ids (length ids).
Proof.
  intros V Hi%lookup_ge_None. constructor; try apply V.
  - intros j x c Hj. apply (vi_ended _ _ _ V). lia.
  - intros j x y Hj. apply (vi_closed _ _ _ V). lia.
Qed.

Lemma visiting_length root ids i : visiting root ids i → (length ids <= size calls)%nat.
Proof.
  intros V. rewrite <- size_dom, <- (size_list_to_set (C := gset string)) by apply V.
  apply subseteq_size. intros x Hx%elem_of_list_to_set. apply elem_of_dom. by apply V.
Qed.

Definition running_msg : string := "record or child is still running or awaiting approval".

(** The loop ends with all that is below the root, or at a call that runs. *)
Lemma members_spec fuel root ids i :
  visiting root ids i → (size calls <= fuel + i)%nat →
  match members calls fuel ids i with
  | Ok all => visiting root all (length all)
  | Err e => e = running_msg ∧ ∃ x c, below root x ∧ calls !! x = Some c ∧ ¬ terminal c
  end.
Proof.
  revert ids i. induction fuel as [|fuel IH]; intros ids i V Hfuel; cbn [members].
  - pose proof (visiting_length _ _ _ V). destruct (ids !! i) eqn:E; [apply lookup_lt_Some in E; lia|].
    by apply (visiting_all _ _ i).
  - destruct (ids !! i) as [id|] eqn:E.
    + assert (id ∈ ids) as Hin by by eapply list_elem_of_lookup_2.
      destruct (vi_below _ _ _ V id Hin) as [Hb [c Hc]]. rewrite Hc.
      destruct (CallTerminal (xc_Status c)) eqn:Ht; cbn [reject negb mbind result_bind].
      * apply IH; [by eapply visiting_step|lia].
      * split; [done|]. exists id, c. split_and!; [done|done|]. unfold terminal. by rewrite Ht.
    + by apply (visiting_all _ _ i).
Qed.

Lemma visited_below root all x : visiting root all (length all) → x ∈ all ↔ below root x.
Proof.
  intros V. split; [apply V|]. revert x. refine (rtc_ind_r (λ x, x ∈ all) root _ _); [apply V|]. intros y z _ Hz IH.
  apply list_elem_of_lookup_1 in IH as [j Hj]. eapply (vi_closed _ _ _ V); eauto using lookup_lt_Some.
Qed.

Lemma manage_items_spec change now ids items :
  NoDup ids →
  match manage_items change now ids items with
  | Ok items' => (∀ x, x ∈ ids → ∃ item, manage_item change now (item_of items x) = Ok item ∧ items' !! x = Some item)
      ∧ (∀ x, x ∉ ids → items' !! x = items !! x)
  | Err e => ∃ x, x ∈ ids ∧ manage_item change now (item_of items x) = Err e
  end.
Proof.
  intros Hnd. revert items. induction Hnd as [|id ids Hid Hnd IH]; intros items; cbn [manage_items].
  { split; [by intros x ?%not_elem_of_nil|done]. }
  destruct (manage_item change now (item_of items id)) as [item|e] eqn:E; cbn [mbind result_bind]; [|exists id; split; [left|done]].
  specialize (IH (<[id:=item]> items)).
  assert (∀ x, x ∈ ids → item_of (<[id:=item]> items) x = item_of items x) as Hsame.
  { intros x Hx. unfold item_of. rewrite lookup_insert_ne; [done|]. by intros ->. }
  destruct (manage_items change now ids (<[id:=item]> items)) as [items'|e].
  - destruct IH as [Hin Hout]. split.
    + intros x [->|Hx]%elem_of_cons; [|rewrite <- Hsame by done; by apply Hin].
      exists item. split; [done|]. rewrite Hout by done. apply lookup_insert_eq.
    + intros x [Hne Hx]%not_elem_of_cons. rewrite Hout by done. by apply lookup_insert_ne.
  - destruct IH as (x & Hx & He). exists x. rewrite Hsame in He by done. split; [by right|done].
Qed.

(** C23: Managing a call (archive, trash, restore, isolate, delete ...) changes the management data of that call and of
    everything below it - the calls it made, the calls those made, and so on - and of nothing else; it is refused
    while any of them has not ended, and then changes nothing; a call is deleted only from the recycle bin.  The walk
    over the calls ends on its own, whatever the calls name as their parents. *)
Theorem manage_concerns_descendants root (change : MetadataChange) (now : Time) (items : gmap string CallManagement) call :
  calls !! root = Some call →
  match manage calls root change now items with
  | Ok items' =>
      gm_DeletedAt (xc_Managed call) = None
      ∧ (mc_Action change = "delete" → mg_TrashedAt (gm_Management (xc_Managed call)) ≠ None)
      ∧ (∀ x c, below root x → calls !! x = Some c → terminal c)
      ∧ (∀ x, below root x → ∃ item, manage_item change now (item_of items x) = Ok item ∧ items' !! x = Some item)
      ∧ (∀ x, ¬ below root x → items' !! x = items !! x)
  | Err e =>
      gm_DeletedAt (xc_Managed call) ≠ None
      ∨ (mc_Action change = "delete" ∧ mg_TrashedAt (gm_Management (xc_Managed call)) = None)
      ∨ (e = running_msg ∧ ∃ x c, below root x ∧ calls !! x = Some c ∧ ¬ terminal c)
      ∨ (∃ x, below root x ∧ manage_item change now (item_of items x) = Err e)
  end.
Proof.
  intros Hcall. unfold manage. rewrite Hcall.
  destruct (gm_DeletedAt (xc_Managed call)) eqn:Hdel; cbn [not_nil is_nil negb reject mbind result_bind]; [by left|].
  destruct (String.eqb_spec (mc_Action change) "delete") as [Hd|Hd], (mg_TrashedAt (gm_Management (xc_Managed call))) eqn:Htr;
    cbn [andb is_nil reject mbind result_bind]; try by (right; left).
  all: pose proof (members_spec (size calls) root [root] 0 (visiting_start root call Hcall) ltac:(lia)) as Hm;
    destruct (members calls (size calls) [root] 0) as [all|e]; cbn [mbind result_bind]; [|by (right; right; left)];
    pose proof (manage_items_spec change now all items ltac:(apply Hm)) as Hi;
    destruct (manage_items change now all items) as [items'|e];
    [|destruct Hi as (x & Hx & He); right; right; right; exists x; split; [by apply (visited_below root all)|done]];
    destruct Hi as [Hin Hout].
  all: split_and!; [done|try done|..].
  all: try by (intros x Hx; apply Hin; apply (visited_below root all)).
  all: try by (intros x Hx; apply Hout; intros Hx'; apply Hx; apply (visited_below root all)).
  all: intros x c Hx Hc; apply (visited_below root all) in Hx as [j Hj]%list_elem_of_lookup_1; [|done];
    by eapply (vi_ended _ _ _ Hm); eauto using lookup_lt_Some.
Qed.
End Manage.

(** ** Runs *)

Definition ascii_lower : UnicodeCase := λ r, if ((65 <=? r) && (r <=? 90))%N then (r + 32)%N else r.
Definition sorted_order : MapOrder := mkMapOrder elements (λ _, reflexivity _).

Definition any_query : CallQuery := mkCallQuery "" "" "" "" "" "" "" 0 0 false 0 false false false false.

(** Three calls, listed two on a page. *)
Definition paged_inputs : list input :=
  map (λ '(seq, id), Event_seen (sample_event seq "call.created" "" (no_binding <| xs_CallID := id |>)))
    [(1, "call_a"); (2, "call_b"); (3, "call_c")].

Lemma call_pages_cover_witness :
  let p := applyCallManagementLocked ∅ (foldl feed newCallProjection paged_inputs) in
  cp_gap p = false
  ∧ (let pages := @pages ascii_lower sorted_order (size (cp_calls p)) (any_query <| cq_Limit := 2 |>) p in
     pages = map (cloneCall false) (@matching ascii_lower (any_query <| cq_Limit := 2 |>) p)
     ∧ map (λ call, xs_CallID (xc_Binding call)) pages = ["call_c"; "call_b"; "call_a"]).
Proof.
  intros p. assert (cp_gap p = false) as Hgap by (vm_compute; reflexivity). split; [exact Hgap|]. split.
  - exact (@call_pages_cover ascii_lower sorted_order paged_inputs ∅ (any_query <| cq_Limit := 2 |>) Hgap).
  - vm_compute. reflexivity.
Defined.

Definition archive : MetadataChange := mkMetadataChange "archive" "" [] 0.
Definition family : gmap string ExecutionCall :=
  cp_calls (foldl apply newCallProjection
    [sample_event 1 "call.completed" "success" (no_binding <| xs_CallID := "call_a" |>);
     sample_event 2 "call.completed" "failed" (no_binding <| xs_CallID := "call_b" |> <| xs_ParentCallID := "call_a" |>);
     sample_event 3 "call.started" "" (no_binding <| xs_CallID := "call_c" |>)]).

Lemma manage_concerns_descendants_witness :
  ∃ call items', family !! "call_a" = Some call
    ∧ @manage sorted_order family "call_a" archive 7 ∅ = Ok items'
    ∧ elements (dom items') = ["call_a"; "call_b"]
    ∧ (∀ x, ¬ below family "call_a" x → items' !! x = (∅ : gmap string CallManagement) !! x).
Proof.
  destruct (family !! "call_a") as [call|] eqn:Hcall; [|vm_compute in Hcall; discriminate Hcall].
  pose proof (@manage_concerns_descendants sorted_order family "call_a" archive 7 ∅ call Hcall) as H.
  destruct (@manage sorted_order family "call_a" archive 7 ∅) as [items'|e] eqn:E.
  - exists call, items'. split; [reflexivity|]. split; [reflexivity|].
    split; [vm_compute in E; injection E as <-; vm_compute; reflexivity|]. apply H.
  - exfalso. vm_compute in E. discriminate E.
Defined.

(** An event whose task thread contradicts the one of its call is rejected, but
    its conversation has been taken over by then: the call is listed under no
    conversation, and not among the calls without one. *)
Definition conversation : string := "conv_00112233445566778899aabbccddeeff".
Definition half_bound : callProjection :=
  foldl apply newCallProjection
    [sample_event 1 "call.created" "" sample_binding;
     sample_event 2 "call.bound" ""
       (sample_binding <| xs_ConversationID := conversation |> <| xs_ThreadID := "thread_2" |>)].

Lemma rejected_binding_hides_call :
  (∃ call, cp_calls half_bound !! "call_1" = Some call ∧ xs_ConversationID (xc_Binding call) = conversation)
  ∧ kp_Calls (@page_of ascii_lower sorted_order (any_query <| cq_ConversationID := conversation |>) half_bound) = []
  ∧ kp_Calls (@page_of ascii_lower sorted_order (any_query <| cq_Unattributed := true |>) half_bound) = []
  ∧ length (kp_Calls (@page_of ascii_lower sorted_order any_query half_bound)) = 1%nat.
Proof. split_and!; [eexists; split|..]; vm_compute; reflexivity. Qed.
