(* ===== verification/ActivityLog.v ===== *)
(** * ActivityLog: the event journal (internal/activity/store.go)

    Events are lines of segment files that are named by the number of the
    first event planned for them; a number is never given twice, old segments
    are removed, and the file sequence.json says through which event.

    [journal] is the directory of the store.  A segment has its bytes and the
    contents that a loss of power may leave instead, one for every byte written
    since the last sync.  Writes are byte by byte, as in AtomicFile: a write
    that fails has written a prefix.  Reads do not fail. *)

From stdpp Require Import sorting.
From S2P Require Import Prelude GoText Durable Binding ActivityEvent ActivityCalls.
Local Open Scope Z_scope.

(** ** Encodings

    [encode_event] is json.Marshal, [decode_event] json.Unmarshal;
    [json_text] says of an event that JSON can carry it: its strings are valid
    UTF-8 and its times have a year of four digits. *)
Class EventCodec : Type := mkEventCodec {
  encode_event : Event → list ascii;
  decode_event : list ascii → option Event;
  json_text : Event → Prop;
}.

Definition newline : ascii := "010".

Class EventCodecLaws `{EventCodec} : Prop := {
  decode_encode e : json_text e → decode_event (encode_event e) = Some e;
  decode_terminated e : decode_event (encode_event e ++ [newline]) = decode_event (encode_event e);
  decode_torn e n : (n < length (encode_event e))%nat → decode_event (take n (encode_event e)) = None;
  encode_one_line e : newline ∉ encode_event e;
  encode_object e : ∃ body, encode_event e = "{"%char :: body ++ ["}"%char];
}.

(** ** The directory *)

Record sequenceState : Type := mkSequenceState {
  sq_Seq : Z;
  sq_PrunedThrough : Z;
}.
#[export] Instance sequenceState_eta : Eta sequenceState := λ s, mkSequenceState (sq_Seq s) (sq_PrunedThrough s).

Record segment : Type := mkSegment {
  sg_bytes : list ascii;
  sg_past : list (list ascii);
}.
#[export] Instance segment_eta : Eta segment := λ s, mkSegment (sg_bytes s) (sg_past s).

Record journal : Type := mkJournal {
  j_segments : gmap Z segment;
  j_state : option (file sequenceState);
}.
#[export] Instance journal_eta : Eta journal := λ j, mkJournal (j_segments j) (j_state j).

Definition no_journal : journal := mkJournal ∅ None.

Definition bytes_of (path : Z) (j : journal) : list ascii := default [] (sg_bytes <$> j_segments j !! path).

Record Options : Type := mkOptions {
  op_SegmentBytes : Z;
  op_Segments : Z;
}.

(** ** Reading *)

(** The parts between newlines. *)
Definition parts (l : list ascii) : list (list ascii) :=
  let '(part, rest) := split_bytes newline l in part :: rest.

(** What ReadSlice returns line after line; the last has no newline. *)
Fixpoint terminated (l : list (list ascii)) : list (list ascii) :=
  match l with
  | [] => []
  | [part] => [part]
  | part :: l => (part ++ [newline]) :: terminated l
  end.

Definition trimmed (l : list ascii) : list ascii := bytes (TrimSpace (of_bytes l)).
Definition length_of (l : list ascii) : Z := Z.of_nat (length l).

Section Reading.
Context `{EventCodec}.

(** A line is blank, a record, or damaged; a line that exceeds the buffer is
    skipped in chunks. *)
Inductive line : Type :=
  | Blank
  | Damaged
  | Record_ (e : Event).

Definition scan_line (l : list ascii) : line :=
  if MaxEventBytes <? length_of l then Damaged
  else if is_empty (trimmed l) then Blank
  else match decode_event l with
  | None => Damaged
  | Some e => if readable e then Record_ e else Damaged
  end.

Definition scan (content : list ascii) : list line := map scan_line (terminated (parts content)).

(** scanEvents, the visitor being a state that an event changes and a flag that
    asks for more; also whether a damaged line was met before the end. *)
Section Visit.
Context {S : Type} (visit : Event → S → S * bool).
Fixpoint visit_lines (lines : list line) (s : S) (warning : bool) : S * bool :=
  match lines with
  | [] => (s, warning)
  | Blank :: lines => visit_lines lines s warning
  | Damaged :: lines => visit_lines lines s true
  | Record_ e :: lines => let '(s, more) := visit e s in if (more : bool) then visit_lines lines s warning else (s, warning)
  end.
Definition scanEvents (content : list ascii) (s : S) : S * bool := visit_lines (scan content) s false.
End Visit.

(** The events that a complete scan visits. *)
Definition records (content : list ascii) : list Event :=
  omap (λ l, match l with Record_ e => Some e | _ => None end) (scan content).

(** *** The newest event of a segment *)

Definition tail_line (l : list ascii) : option Z :=
  let l := trimmed l in
  if is_empty l || (MaxEventBytes <? length_of l) then None
  else match decode_event l with
  | Some e => if readable e then Some (ev_Seq e) else None
  | None => None
  end.

Fixpoint first_some {A B} (f : A → option B) (l : list A) : option B :=
  match l with
  | [] => None
  | a :: l => match f a with Some b => Some b | None => first_some f l end
  end.

(** [bytes.IndexByte] and the bytes behind. *)
Fixpoint after_newline (l : list ascii) : list ascii :=
  match l with
  | [] => []
  | a :: l => if Ascii.eqb a newline then l else after_newline l
  end.

Definition window (content : list ascii) : nat := length content - Z.to_nat (MaxEventBytes + 1).

Definition latestSegmentSequence (content : list ascii) : option Z :=
  if is_empty content then None
  else
    let start := window content in
    let data := drop start content in
    let data := if (0 <? start)%nat then after_newline data else data in
    match first_some tail_line (rev (parts data)) with
    | Some seq => Some seq
    | None =>
        let latest := (scanEvents (λ e latest, (Z.max latest (ev_Seq e), true)) content 0).1 in
        if 0 <? latest then Some latest else None
    end.

(** *** The segments and the state *)

Definition segments (j : journal) : result (list Z) :=
  let files := merge_sort Z.le (elements (dom (j_segments j))) in
  reject (128 <? Z.of_nat (length files)) "activity segment inventory exceeds safety limit";;
  Ok files.

Definition saved (j : journal) : result sequenceState :=
  match j_state j with
  | None => Ok (mkSequenceState 0 0)
  | Some f =>
      match f_content f with
      | Some s => if 4096 <? f_size f then Err "activity sequence state is damaged; preserve it before repair" else Ok s
      | None => Err "activity sequence state is damaged; preserve it before repair"
      end
  end.

Definition state (files : list Z) (j : journal) : result sequenceState :=
  s ← saved j;
  match files with
  | [] => Ok s
  | first :: _ =>
      let s := if (1 <? first) && (sq_PrunedThrough s <? first - 1) then s <| sq_PrunedThrough := first - 1 |> else s in
      match first_some (λ path, latestSegmentSequence (bytes_of path j)) (rev files) with
      | Some seq => Ok (if sq_Seq s <? seq then s <| sq_Seq := seq |> else s)
      | None => Ok s
      end
  end.
End Reading.

(** ** Writing *)

Definition append_byte (path : Z) (a : ascii) (j : journal) : journal :=
  j <| j_segments ::= alter (λ s, mkSegment (sg_bytes s ++ [a]) (sg_bytes s :: sg_past s)) path |>.
Definition create_segment (path : Z) (j : journal) : journal :=
  j <| j_segments ::= λ m, match m !! path with Some _ => m | None => <[path := mkSegment [] []]> m end |>.
Definition sync_segment (path : Z) (j : journal) : journal :=
  j <| j_segments ::= alter (λ s, mkSegment (sg_bytes s) []) path |>.
Definition cut_segment (path : Z) (n : nat) (j : journal) : journal :=
  j <| j_segments ::= alter (λ s, mkSegment (take n (sg_bytes s)) (sg_bytes s :: sg_past s)) path |>.
Definition remove_segment (path : Z) (j : journal) : journal := j <| j_segments ::= delete path |>.

Fixpoint write_to (path : Z) (data : list ascii) : io journal unit :=
  match data with
  | [] => mret tt
  | a :: data => sys "write" (append_byte path a);; write_to path data
  end.

(** os.OpenFile for appending, Write, and Sync and Close also after an error. *)
Definition append_block (path : Z) (data : list ascii) : io journal unit :=
  sys "open" (create_segment path);;
  written ← io_try (write_to path data);
  synced ← io_try (sys "sync" (sync_segment path));
  closed ← io_try (sys "close" id);
  io_lift (written;; synced;; closed).

Section Writing.
Context `{EventCodec}.

(** The bytes after the last newline, and where they start. *)
Definition last_part (l : list ascii) : list ascii := default [] (last (parts l)).

(** repairTail of a segment that ends in the middle of a line. *)
Definition repairTail (path : Z) : io journal unit :=
  content ← io_read (bytes_of path);
  (if is_empty content then mret tt
   else
     let start := window content in
     let data := drop start content in
     match last data with
     | Some a =>
         if Ascii.eqb a newline then mret tt
         else
           let tail := last_part data in
           if (length tail =? length data)%nat && (0 <? start)%nat then io_fail "activity tail exceeds recovery limit"
           else
             let complete := match decode_event tail with
                             | Some e => (ev_SchemaVersion e =? SchemaVersion) && (0 <? ev_Seq e)
                             | None => false
                             end in
             (if complete then write_to path [newline]
              else sys "truncate" (cut_segment path (start + (length data - length tail))));;
             sys "sync" (sync_segment path)
     | None => mret tt
     end).

(** A request: the prepared event, the clock and the random bytes it gets, or
    [None] when reading them fails. *)
Record request : Type := mkRequest {
  rq_Event : Event;
  rq_Now : Time;
  rq_Random : option (list ascii);
}.

Record preparedAppend : Type := mkPreparedAppend {
  pa_event : Event;
  pa_data : list ascii;
  pa_path : Z;
}.

Definition max_uint64 : Z := 18446744073709551615.

Definition stamped (r : request) (seq : Z) (raw : list ascii) : Event :=
  (rq_Event r) <| ev_SchemaVersion := SchemaVersion |> <| ev_Seq := seq |> <| ev_CreatedAt := rq_Now r |>
             <| ev_EventID := "evt_" +:+ hex_encode raw |>.

(** The first loop of appendBatchLocked; [current] is the segment and its size. *)
Fixpoint prepare_all (options : Options) (seq : Z) (current : option (Z * Z)) (requests : list request) :
    result (list preparedAppend) :=
  match requests with
  | [] => Ok []
  | r :: requests =>
      let seq := seq + 1 in
      match rq_Random r with
      | None => Err "random"
      | Some raw =>
          let event := stamped r seq raw in
          let data := encode_event event ++ [newline] in
          if MaxEventBytes <? length_of data then Err "activity event exceeds size limit"
          else
            let '(path, size) :=
              match current with
              | Some (path, size) => if op_SegmentBytes options <? size + length_of data then (seq, 0) else (path, size)
              | None => (seq, 0)
              end in
            rest ← prepare_all options seq (Some (path, size + length_of data)) requests;
            Ok (mkPreparedAppend event data path :: rest)
      end
  end.

(** The items of the segment of the first one, and the others. *)
Fixpoint same_path (path : Z) (items : list preparedAppend) : list preparedAppend * list preparedAppend :=
  match items with
  | item :: rest => if pa_path item =? path then let '(a, b) := same_path path rest in (item :: a, b) else ([], items)
  | [] => ([], [])
  end.

(** The second loop: the blocks of one segment after the other, until one
    fails; how many items were written, and the error. *)
Fixpoint write_groups (fuel : nat) (items : list preparedAppend) : io journal (list preparedAppend * option string) :=
  match fuel, items with
  | S fuel, item :: _ =>
      let '(group, rest) := same_path (pa_path item) items in
      r ← io_try (append_block (pa_path item) (concat (map pa_data group)));
      match r with
      | Err e => mret ([], Some e)
      | Ok _ =>
          done_ ← write_groups fuel rest;
          mret (group ++ done_.1, done_.2)
      end
  | _, _ => mret ([], None)
  end.

Definition save_state (s : sequenceState) (size : Z) : io journal unit :=
  io_write (λ j, j <| j_state := Some (mkFile size (Some s)) |>).

Fixpoint remove_all (files : list Z) : io journal unit :=
  match files with
  | [] => mret tt
  | path :: files => sys "remove" (remove_segment path);; remove_all files
  end.

(** The retention: the oldest segments beyond those to be kept. *)
Definition retain (options : Options) (s : sequenceState) (size : Z) : io journal unit :=
  files ← (λ j, io_lift (segments j) j);
  (if op_Segments options <? Z.of_nat (length files) then
     let count := (length files - Z.to_nat (op_Segments options))%nat in
     let start := default 0 (files !! count) in
     save_state (s <| sq_PrunedThrough := start - 1 |>) size;;
     remove_all (take count files)
   else mret tt).

Record appendResult : Type := mkAppendResult {
  ar_event : option Event;
  ar_err : option string;
}.

Definition fail_all (requests : list request) (e : string) : list appendResult :=
  map (λ _, mkAppendResult None (Some e)) requests.

(** appendBatchLocked: the result of every request, and the events that the
    projection is told of. *)
Definition append_batch (options : Options) (size : Z) (requests : list request) :
    io journal (list appendResult * list Event) :=
  planned ← io_try (
    files ← (λ j, io_lift (segments j) j);
    s ← (λ j, io_lift (state files j) j);
    io_lift (reject (max_uint64 - sq_Seq s <? Z.of_nat (length requests)) "activity sequence exhausted");;
    current ← match last files with
              | None => mret None
              | Some path => repairTail path;; n ← io_read (λ j, length_of (bytes_of path j)); mret (Some (path, n))
              end;
    items ← io_lift (prepare_all options (sq_Seq s) current requests);
    mret (s, items));
  match planned with
  | Err e => mret (fail_all requests e, [])
  | Ok (s, items) =>
      written ← write_groups (length items) items;
      let '(succeeded, err) := written in
      let events := map pa_event succeeded in
      let failed := map (λ _, mkAppendResult None err) (drop (length succeeded) items) in
      if is_empty succeeded then mret (failed, [])
      else
        kept ← io_try (retain options (s <| sq_Seq := sq_Seq s + Z.of_nat (length requests) |>) size);
        let late := match kept with Ok _ => None | Err e => Some e end in
        mret (map (λ e, mkAppendResult (Some e) late) events ++ failed, events)
  end.

(** ** Removing what has expired *)

(** The loop of Cleanup; [expired path] says that the modification time of the
    segment is before the cutoff. *)
Fixpoint cleanup_loop (expired : Z → bool) (s : sequenceState) (size : Z) (files : list Z) : io journal nat :=
  match files with
  | path :: ((next :: _) as files') =>
      if expired path then
        let s := s <| sq_PrunedThrough := next - 1 |> in
        save_state s size;;
        sys "remove" (remove_segment path);;
        count ← cleanup_loop expired s size files';
        mret (S count)
      else mret 0%nat
  | _ => mret 0%nat
  end.

Definition Cleanup (before now : Time) (expired : Z → bool) (size : Z) : io journal nat :=
  io_lift (reject (IsZero before || (now <? before)) "cleanup cutoff must be in the past");;
  files ← (λ j, io_lift (segments j) j);
  s ← (λ j, io_lift (state files j) j);
  cleanup_loop expired s size files.
End Writing.
