(* ===== verification/ActivityLines.v ===== *)
(** * ActivityLines: the bytes of a segment

    A segment that the store has written is a sequence of encoded events, each
    with its newline, and the torn end of a write that failed.  What the
    readers of the journal and the repair of its end make of such bytes. *)

From stdpp Require Import sorting.
From S2P Require Import Prelude GoText Durable Binding ActivityEvent ActivityCalls ActivityLog.
Local Open Scope Z_scope.

(** ** Trimming *)

Lemma drop_space_suffix cs : ∃ spaces, cs = spaces ++ drop_space cs.
Proof.
  induction cs as [|c cs [spaces IH]]; [by exists []|]. cbn. destruct (is_space (ch_rune c)); [|by exists []].
  exists (c :: spaces). cbn. by rewrite <- IH.
Qed.

Lemma flatten_app a b : flatten (a ++ b) = flatten a ++ flatten b.
Proof. unfold flatten. by rewrite map_app, concat_app. Qed.

Lemma chunks_object l : ∃ cs, chunks ("{"%char :: l) = mkChunk 123 ["{"%char] true :: cs.
Proof. rewrite chunks_cons. eexists. reflexivity. Qed.

(** What begins with a brace is trimmed at its end only. *)
Lemma trimmed_object l : ∃ k, trimmed ("{"%char :: l) = "{"%char :: k ∧ "{"%char :: k `prefix_of` "{"%char :: l.
Proof.
  unfold trimmed, TrimSpace. rewrite !bytes_of_bytes. destruct (chunks_object l) as [cs Ecs]. rewrite Ecs.
  set (c := mkChunk 123 ["{"%char] true). change (drop_space (c :: cs)) with (c :: cs).
  destruct (drop_space_suffix (rev (c :: cs))) as [spaces E].
  assert (c :: cs = rev (drop_space (rev (c :: cs))) ++ rev spaces) as E'
    by (rewrite <- rev_app_distr, <- E; by rewrite rev_involutive).
  destruct (rev (drop_space (rev (c :: cs)))) as [|c' ds] eqn:Ed.
  { exfalso. assert (drop_space (rev (c :: cs)) = []) as En by (by rewrite <- (rev_involutive (drop_space _)), Ed).
    cbn [rev] in En. revert En. clear. generalize (rev cs) as l. induction l as [|d l IH]; cbn; [done|].
    by destruct (is_space (ch_rune d)). }
  injection E' as <- Ecs'. exists (flatten ds). split; [reflexivity|]. exists (flatten (rev spaces)).
  rewrite <- (flatten_chunks ("{"%char :: l)), Ecs, Ecs'.
  exact (flatten_app (c :: ds) (rev spaces)).
Qed.

Lemma decode_closing b rest : last (ch_bytes (decode b rest)) = Some "}"%char → is_space (ch_rune (decode b rest)) = false.
Proof.
  unfold decode, bad. intros H. repeat case_match; cbn in H; injection H as ->; try reflexivity;
    repeat match goal with E : _ && _ = true |- _ => apply andb_true_iff in E as [? ?] end; try discriminate.
Qed.

Lemma chunks_closing l : ∃ cs c, chunks (l ++ ["}"%char]) = cs ++ [c] ∧ is_space (ch_rune c) = false.
Proof.
  enough (∀ k, last k = Some "}"%char → ∃ cs c, chunks k = cs ++ [c] ∧ is_space (ch_rune c) = false) as H
    by (apply H; by rewrite last_snoc).
  clear l. intros k. induction k as [|b0 rest w Hw Hl Hlen Hb IH] using rune_ind; intros Hlast; [done|].
  rewrite chunks_cons, Hlen. destruct (drop w (b0 :: rest)) as [|a k] eqn:Ed.
  - exists [], (decode b0 rest). split; [done|]. apply decode_closing. rewrite Hb.
    rewrite <- (take_drop w (b0 :: rest)), Ed, app_nil_r in Hlast. exact Hlast.
  - destruct IH as (cs & c & -> & Hc); [|by exists (decode b0 rest :: cs), c].
    rewrite <- (take_drop w (b0 :: rest)), Ed in Hlast. by rewrite last_app_cons in Hlast.
Qed.

Lemma trimmed_whole l : trimmed ("{"%char :: l ++ ["}"%char]) = "{"%char :: l ++ ["}"%char].
Proof.
  unfold trimmed, TrimSpace. rewrite !bytes_of_bytes.
  destruct (chunks_closing ("{"%char :: l)) as (cs & c & E & Hc). cbn [app] in E.
  rewrite <- (flatten_chunks ("{"%char :: l ++ ["}"%char])) at 2. f_equal.
  destruct (chunks_object (l ++ ["}"%char])) as [ds Eds].
  assert (drop_space (chunks ("{"%char :: l ++ ["}"%char])) = chunks ("{"%char :: l ++ ["}"%char])) as -> by by rewrite Eds.
  rewrite E, rev_app_distr. cbn [rev app drop_space]. rewrite Hc. cbn [rev]. by rewrite rev_involutive.
Qed.

(** ** Lines *)

Lemma parts_cons l : ∃ part rest, parts l = part :: rest.
Proof. unfold parts. destruct (split_bytes newline l). eauto. Qed.

Lemma parts_line l k : newline ∉ l → parts (l ++ newline :: k) = l :: parts k.
Proof.
  intros Hl. unfold parts. induction l as [|a l IH]; cbn.
  { by destruct (split_bytes newline k). }
  apply not_elem_of_cons in Hl as [Ha Hl]. specialize (IH Hl).
  destruct (split_bytes newline (l ++ newline :: k)) as [p ps], (split_bytes newline k) as [q qs].
  destruct (Ascii.eqb_spec a newline) as [->|]; [done|]. by injection IH as -> ->.
Qed.

Lemma parts_end l : newline ∉ l → parts l = [l].
Proof.
  intros Hl. unfold parts. induction l as [|a l IH]; cbn; [done|].
  apply not_elem_of_cons in Hl as [Ha Hl]. specialize (IH Hl). destruct (split_bytes newline l) as [p ps].
  destruct (Ascii.eqb_spec a newline) as [->|]; [done|]. by injection IH as -> ->.
Qed.

(** A text is its parts with newlines between them. *)
Lemma parts_app_line l k : parts (l ++ newline :: k) = parts l ++ parts k.
Proof.
  unfold parts. induction l as [|a l IH]; cbn.
  { by destruct (split_bytes newline k). }
  destruct (split_bytes newline (l ++ newline :: k)) as [p ps], (split_bytes newline k) as [q qs], (split_bytes newline l) as [r rs].
  injection IH as -> ->. by destruct (Ascii.eqb_spec a newline).
Qed.

Lemma after_newline_cases l :
  (newline ∉ l ∧ after_newline l = []) ∨ ∃ x, newline ∉ x ∧ l = x ++ newline :: after_newline l.
Proof.
  induction l as [|a l IH]; [left; split; [by apply not_elem_of_nil|done]|]. cbn.
  destruct (Ascii.eqb_spec a newline) as [->|Ha].
  { right. exists []. split; [by apply not_elem_of_nil|done]. }
  destruct IH as [[Hl ->]|(x & Hx & E)]; [left|right].
  - split; [by apply not_elem_of_cons|done].
  - exists (a :: x). split; [by apply not_elem_of_cons|]. cbn. by rewrite <- E.
Qed.

Section Lines.
Context `{EventCodecLaws}.
Implicit Types (e : Event) (es : list Event) (t : list ascii).

(** An event as the store writes it. *)
Definition stored e : Prop := json_text e ∧ readable e = true ∧ length_of (encode_event e) < MaxEventBytes.
Definition line_of e : list ascii := encode_event e ++ [newline].
Definition flat es : list ascii := concat (map line_of es).

(** The end of a segment: a beginning of an event, up to all of it. *)
Definition torn t : Prop := t = [] ∨ ∃ e n, stored e ∧ t = take n (encode_event e).

(** The event at the end, when it lacks only its newline. *)
Definition finished t : list Event :=
  match decode_event t with Some e => if readable e then [e] else [] | None => [] end.

Lemma flat_cons e es : flat (e :: es) = encode_event e ++ newline :: flat es.
Proof. unfold flat, line_of. cbn. by rewrite <- app_assoc. Qed.

Lemma flat_app es es' : flat (es ++ es') = flat es ++ flat es'.
Proof. unfold flat. by rewrite map_app, concat_app. Qed.

Lemma torn_newline t : torn t → newline ∉ t.
Proof.
  intros [->|(e & n & _ & ->)]; [apply not_elem_of_nil|]. intros Hin. apply (encode_one_line e).
  rewrite <- (take_drop n (encode_event e)). apply elem_of_app. by left.
Qed.

Lemma torn_cases t :
  torn t → t = [] ∨ (∃ e, stored e ∧ t = encode_event e) ∨ (∃ e n, stored e ∧ (n < length (encode_event e))%nat ∧ t = take n (encode_event e)).
Proof.
  intros [->|(e & n & He & ->)]; [by left|right]. destruct (decide (n < length (encode_event e))%nat); [right|left].
  - by exists e, n.
  - exists e. by rewrite take_ge by lia.
Qed.

Lemma torn_length t : torn t → length_of t < MaxEventBytes.
Proof.
  intros [->|(e & n & (_ & _ & He) & ->)]; unfold length_of in *; [cbn; unfold MaxEventBytes; lia|]. rewrite length_take. lia.
Qed.

Lemma parts_flat es t : newline ∉ t → parts (flat es ++ t) = map encode_event es ++ [t].
Proof.
  intros Ht. induction es as [|e es IH]; [by apply parts_end|].
  rewrite flat_cons, <- app_assoc. cbn [app map]. rewrite parts_line by apply encode_one_line. by rewrite IH.
Qed.

Lemma terminated_flat es t : terminated (map encode_event es ++ [t]) = map line_of es ++ [t].
Proof.
  induction es as [|e es IH]; [done|]. cbn [map app]. rewrite <- IH.
  destruct (map encode_event es ++ [t]) eqn:E; [by destruct es|done].
Qed.

Lemma decode_line_of e : stored e → decode_event (encode_event e) = Some e.
Proof. intros (He & _). by apply decode_encode. Qed.

Lemma scan_line_of e : stored e → scan_line (line_of e) = Record_ e.
Proof.
  intros (He & Hr & Hl). unfold scan_line, line_of, length_of in *. rewrite length_app. cbn [length].
  rewrite (proj2 (Z.ltb_ge _ _)) by lia. destruct (encode_object e) as [body E].
  destruct (trimmed_object (body ++ ["}"%char] ++ [newline])) as (k & Ek & _).
  rewrite E at 1. cbn [app]. rewrite <- app_assoc, Ek. cbn [is_empty].
  by rewrite decode_terminated, decode_encode, Hr.
Qed.

Lemma decode_nil : decode_event [] = None.
Proof.
  destruct (encode_object blank_event) as [body E]. pose proof (decode_torn blank_event 0) as Hd.
  rewrite E in Hd. cbn in Hd. apply Hd. lia.
Qed.

Lemma finished_nil : finished [] = [].
Proof. unfold finished. by rewrite decode_nil. Qed.

Lemma finished_encode e : stored e → finished (encode_event e) = [e].
Proof. intros (He & Hr & _). unfold finished. by rewrite decode_encode, Hr. Qed.

Lemma finished_torn e n : (n < length (encode_event e))%nat → finished (take n (encode_event e)) = [].
Proof. intros Hn. unfold finished. by rewrite decode_torn. Qed.

(** What begins as an event does not vanish when it is trimmed. *)
Lemma take_object e n : take n (encode_event e) = [] ∨ ∃ l, take n (encode_event e) = "{"%char :: l.
Proof. destruct (encode_object e) as [body ->]. destruct n; [by left|right]. cbn. eauto. Qed.

Definition record_of (l : line) : option Event := match l with Record_ e => Some e | _ => None end.

Lemma scan_torn t : torn t → omap record_of [scan_line t] = finished t.
Proof.
  intros Ht. pose proof (torn_length t Ht) as Hlen. unfold scan_line.
  rewrite (proj2 (Z.ltb_ge _ _)) by lia. destruct Ht as [->|(e & n & He & ->)].
  - by rewrite finished_nil.
  - destruct (take_object e n) as [E|[l E]].
    + by rewrite E, finished_nil.
    + unfold finished. destruct (trimmed_object l) as (k & Ek & _). rewrite E at 1. rewrite Ek. cbn [is_empty].
      destruct (decode_event _); [|done]. cbn. by destruct (readable _).
Qed.

Lemma scan_flat es t : Forall stored es → newline ∉ t → scan (flat es ++ t) = map Record_ es ++ [scan_line t].
Proof.
  intros Hes Ht. unfold scan. rewrite parts_flat, terminated_flat, map_app by done. f_equal.
  induction Hes as [|e es He _ IH]; [done|]. cbn. by rewrite scan_line_of, IH.
Qed.

Lemma records_flat es t : Forall stored es → torn t → records (flat es ++ t) = es ++ finished t.
Proof.
  intros Hes Ht. unfold records. rewrite scan_flat by (done || by apply torn_newline).
  change (omap _ ?l) with (omap record_of l). rewrite omap_app, scan_torn by done. f_equal.
  clear Hes. induction es as [|e es IH]; [done|]. cbn. by rewrite IH.
Qed.

(** *** The newest event *)

Definition increasing es : Prop := StronglySorted (λ a b, ev_Seq a < ev_Seq b) es.

Lemma increasing_filter (P : Event → Prop) `{∀ x, Decision (P x)} es : increasing es → increasing (filter P es).
Proof.
  induction 1 as [|x l Hl IH Hx]; [constructor|]. rewrite filter_cons. case_decide; [|done].
  constructor; [done|]. apply Forall_forall. intros y [_ Hy]%list_elem_of_filter. by eapply Forall_forall in Hx.
Qed.

(** The number of the last event, if there is one. *)
Definition last_seq es : option Z := ev_Seq <$> last es.

Lemma stored_pos e : stored e → 0 < ev_Seq e.
Proof. intros (_ & Hr & _). unfold readable in Hr. repeat (apply andb_true_iff in Hr as [Hr ?]). lia. Qed.

Lemma tail_line_encode e : stored e → tail_line (encode_event e) = Some (ev_Seq e).
Proof.
  intros He. pose proof He as (Hj & Hr & Hl). unfold tail_line. destruct (encode_object e) as [body E].
  assert (trimmed (encode_event e) = encode_event e) as -> by (rewrite E; apply trimmed_whole).
  rewrite decode_encode, Hr by done. rewrite E at 1. cbn [is_empty orb].
  by rewrite (proj2 (Z.ltb_ge _ _)) by lia.
Qed.

Lemma tail_line_torn t : torn t → tail_line t = last_seq (finished t).
Proof.
  intros [->|[(e & He & ->)|(e & n & He & Hn & ->)]]%torn_cases.
  - by rewrite finished_nil.
  - by rewrite tail_line_encode, finished_encode.
  - rewrite finished_torn by done. unfold tail_line. destruct (take_object e n) as [->|[l E]]; [done|].
    destruct (trimmed_object l) as (k & Ek & Hk). rewrite E, Ek. cbn [is_empty orb].
    assert ("{"%char :: k = take (length ("{"%char :: k)) (encode_event e)) as Ek'.
    { destruct Hk as [r Hk]. rewrite <- (take_drop n (encode_event e)), E, Hk, <- app_assoc. by rewrite take_app_length. }
    rewrite Ek', decode_torn; [by case_match|].
    apply prefix_length in Hk. rewrite <- E, length_take in Hk. lia.
Qed.

Lemma first_some_app {A B} (f : A → option B) l k :
  first_some f (l ++ k) = match first_some f l with Some b => Some b | None => first_some f k end.
Proof. induction l as [|a l IH]; cbn; [done|]. by destruct (f a). Qed.

Lemma last_seq_snoc es e : last_seq (es ++ [e]) = Some (ev_Seq e).
Proof. unfold last_seq. by rewrite last_snoc. Qed.

Lemma first_some_lines es t :
  Forall stored es → torn t → first_some tail_line (rev (map encode_event es ++ [t])) = last_seq (es ++ finished t).
Proof.
  intros Hes Ht. rewrite rev_app_distr. cbn [rev app first_some]. rewrite tail_line_torn by done.
  unfold finished. destruct (decode_event t) as [e|]; [destruct (readable e)|].
  1: by rewrite last_seq_snoc.
  all: rewrite app_nil_r; cbn; destruct es as [|e' es _] using rev_ind; [done|];
    rewrite map_app, rev_app_distr; cbn; apply Forall_app in Hes as [_ He'%Forall_inv];
    by rewrite tail_line_encode, last_seq_snoc.
Qed.

(** A visitor that never stops folds over the records. *)
Lemma scan_fold {S} (f : Event → S → S) content s :
  (scanEvents (λ e s, (f e s, true)) content s).1 = foldl (λ s e, f e s) s (records content).
Proof.
  unfold scanEvents, records. generalize false. revert s. induction (scan content) as [|[| |e] l IH]; intros s b; cbn; auto.
Qed.

Lemma foldl_max es n :
  increasing es → Forall (λ e, n < ev_Seq e) es → foldl (λ s e, Z.max s (ev_Seq e)) n es = default n (last_seq es).
Proof.
  intros Hes. revert n. induction Hes as [|e es Hes IH He]; intros n Hn; [done|].
  apply Forall_cons in Hn as [Hn _]. cbn [foldl]. replace (Z.max n (ev_Seq e)) with (ev_Seq e) by lia. rewrite IH by done.
  unfold last_seq. rewrite last_cons. by destruct (last es).
Qed.

Lemma window_parts content :
  let start := window content in
  let data := drop start content in
  let data := if (0 <? start)%nat then after_newline data else data in
  data = [] ∨ ∃ l, parts content = l ++ parts data.
Proof.
  intros start data data'. subst data'. destruct (Nat.ltb_spec 0 start) as [Hs|Hs].
  - destruct (after_newline_cases data) as [[_ ->]|(x & Hx & E)]; [by left|right].
    exists (parts (take start content ++ x)). rewrite <- parts_app_line. f_equal.
    rewrite <- app_assoc, <- E. symmetry. apply take_drop.
  - right. exists []. subst data. by replace start with 0%nat by lia.
Qed.

Lemma latest_flat es t :
  Forall stored es → torn t → increasing (es ++ finished t) →
  latestSegmentSequence (flat es ++ t) = last_seq (es ++ finished t).
Proof.
  intros Hes Ht Hinc. unfold latestSegmentSequence. set (content := flat es ++ t).
  destruct (is_empty content) eqn:Eempty.
  { destruct content eqn:Ec; [|done]. subst content. apply app_eq_nil in Ec as [E1 ->].
    destruct es as [|e es]; [|by rewrite flat_cons in E1; destruct (encode_event e)].
    cbn [app]. by rewrite <- (tail_line_torn []) by by left. }
  pose proof (window_parts content) as Hw. cbv zeta in Hw |- *. set (data := if (0 <? window content)%nat then _ else _) in *.
  assert (first_some tail_line (rev (parts content)) = last_seq (es ++ finished t)) as Hall.
  { subst content. rewrite parts_flat by by apply torn_newline. by apply first_some_lines. }
  destruct (first_some tail_line (rev (parts data))) as [seq|] eqn:E.
  - destruct Hw as [Hw|[l Hw]].
    + rewrite Hw in E. discriminate E.
    + rewrite Hw, rev_app_distr, first_some_app, E in Hall. exact Hall.
  - rewrite (scan_fold (λ e latest, Z.max latest (ev_Seq e))). subst content. rewrite records_flat by done.
    assert (Forall (λ e, 0 < ev_Seq e) (es ++ finished t)) as Hpos.
    { apply Forall_app. split; [eapply Forall_impl; [exact Hes|apply stored_pos]|]. unfold finished.
      destruct (decode_event t) as [e|]; [|constructor]. destruct (readable e) eqn:Er; constructor; [|constructor].
      unfold readable in Er. repeat (apply andb_true_iff in Er as [Er ?]). lia. }
    rewrite foldl_max by done. unfold last_seq. destruct (last (es ++ finished t)) as [e|] eqn:El; [|done]. cbn.
    assert (e ∈ es ++ finished t) as He by by eapply last_Some_elem_of.
    eapply Forall_forall in Hpos; [|exact He]. by rewrite (proj2 (Z.ltb_lt _ _)).
Qed.
(** *** The repair of the end *)

Lemma flat_ends es : es ≠ [] → ∃ l, flat es = l ++ [newline].
Proof.
  intros Hes. destruct es as [|e es _] using rev_ind; [done|]. rewrite flat_app. unfold flat at 2, line_of. cbn.
  rewrite app_nil_r, app_assoc. eauto.
Qed.

Lemma drop_flat es n : (n < length (flat es))%nat → ∃ l, drop n (flat es) = l ++ [newline].
Proof.
  intros Hn. destruct (decide (es = [])) as [->|Hes]; [cbn in Hn; lia|]. destruct (flat_ends es Hes) as [l E].
  rewrite E in *. rewrite length_app in Hn. cbn in Hn. exists (drop n l). by rewrite drop_app_le by lia.
Qed.

Lemma last_part_app l t : newline ∉ t → last_part (l ++ newline :: t) = t.
Proof. intros Ht. unfold last_part. by rewrite parts_app_line, (parts_end t), last_snoc by done. Qed.

(** The window of a segment ends like the segment. *)
Lemma window_tail es t :
  torn t →
  let start := window (flat es ++ t) in
  let data := drop start (flat es ++ t) in
  (start <= length (flat es))%nat ∧ length data = (length (flat es) - start + length t)%nat
  ∧ ((start < length (flat es))%nat → ∃ l, data = l ++ newline :: t) ∧ (start = length (flat es) → data = t)
  ∧ ((0 < start)%nat → (start < length (flat es))%nat).
Proof.
  intros Ht start data. pose proof (torn_length t Ht) as Hl. unfold length_of, MaxEventBytes in Hl.
  assert (start = length (flat es) + length t - Z.to_nat 32769)%nat as Hstart
    by (subst start; unfold window, MaxEventBytes; rewrite length_app; reflexivity).
  assert (start <= length (flat es))%nat as Hle by lia.
  subst data. clearbody start. rewrite drop_app_le by done. rewrite length_app, length_drop. split_and!; [done|lia|..].
  - intros Hlt. destruct (drop_flat es start Hlt) as [l ->]. exists l. by rewrite <- app_assoc.
  - intros ->. by rewrite drop_ge.
  - lia.
Qed.

Lemma last_not_newline t : newline ∉ t → t ≠ [] → ∃ a, last t = Some a ∧ a ≠ newline.
Proof.
  intros Ht Hne. destruct t as [|a t _] using rev_ind; [done|]. exists a. rewrite last_snoc. split; [done|].
  intros ->. apply Ht, elem_of_app. right. by apply list_elem_of_singleton.
Qed.

Lemma repair_sees es t :
  torn t → t ≠ [] →
  let start := window (flat es ++ t) in
  let data := drop start (flat es ++ t) in
  (∃ a, last data = Some a ∧ Ascii.eqb a newline = false) ∧ last_part data = t
  ∧ (length t =? length data)%nat && (0 <? start)%nat = false ∧ (start + (length data - length t))%nat = length (flat es).
Proof.
  intros Ht Hne start data. destruct (window_tail es t Ht) as (Hle & Hlen & Hmid & Hall & Hpos).
  fold start in Hle, Hlen, Hmid, Hall, Hpos. fold data in Hlen, Hmid, Hall. clearbody start data.
  pose proof (torn_newline t Ht) as Hnl. destruct (last_not_newline t Hnl Hne) as (a & Ha & Hane).
  assert (Ascii.eqb a newline = false) as Heq by by apply Ascii.eqb_neq.
  split_and!; [| | |lia].
  - exists a. split; [|done]. destruct (decide (start = length (flat es))) as [E|E]; [by rewrite Hall|].
    destruct Hmid as [l ->]; [lia|]. rewrite last_app_cons, last_cons. by rewrite Ha.
  - destruct (decide (start = length (flat es))) as [E|E].
    + rewrite Hall by done. unfold last_part. by rewrite parts_end.
    + destruct Hmid as [l ->]; [lia|]. by apply last_part_app.
  - destruct (Nat.ltb_spec 0 start); [|by rewrite andb_false_r]. destruct (Nat.eqb_spec (length t) (length data)); [lia|done].
Qed.

Lemma whole_ends es : es ≠ [] → last (drop (window (flat es)) (flat es)) = Some newline.
Proof.
  intros Hes. destruct (window_tail es []) as (Hle & _ & Hmid & _ & Hpos); [by left|]. rewrite app_nil_r in *.
  assert (0 < length (flat es))%nat as Hl.
  { destruct (flat_ends es Hes) as [l ->]. rewrite length_app. cbn. lia. }
  destruct Hmid as [l ->]; [|by rewrite last_snoc]. destruct (decide (0 < window (flat es))%nat); [auto|lia].
Qed.

(** *** An interrupted write *)

(** The events of which [n] bytes of their lines show all. *)
Fixpoint visible es (n : nat) : list Event :=
  match es with
  | [] => []
  | e :: es => if (n <? length (encode_event e))%nat then [] else e :: visible es (n - S (length (encode_event e)))
  end.

Lemma visible_prefix es n : visible es n `prefix_of` es.
Proof. revert n. induction es as [|e es IH]; intros n; cbn [visible]; [done|]. case_match; [apply prefix_nil|by apply prefix_cons]. Qed.

Lemma visible_mono es i k : (i <= k)%nat → visible es i `prefix_of` visible es k.
Proof.
  revert i k. induction es as [|e es IH]; intros i k Hik; cbn [visible]; [done|].
  destruct (Nat.ltb_spec i (length (encode_event e))); [apply prefix_nil|].
  destruct (Nat.ltb_spec k (length (encode_event e))); [lia|]. apply prefix_cons, IH. lia.
Qed.

Lemma visible_all es n : (length (flat es) <= n)%nat → visible es n = es.
Proof.
  revert n. induction es as [|e es IH]; intros n Hn; cbn [visible]; [done|]. rewrite flat_cons, length_app in Hn. cbn [length] in Hn.
  destruct (Nat.ltb_spec n (length (encode_event e))); [lia|]. rewrite IH; [done|lia].
Qed.

Lemma encode_nonempty e : (0 < length (encode_event e))%nat.
Proof. destruct (encode_object e) as [body ->]. cbn. lia. Qed.

Lemma visible_0 es : visible es 0 = [].
Proof. destruct es as [|e es]; [done|]. cbn [visible]. pose proof (encode_nonempty e).
  by destruct (Nat.ltb_spec 0 (length (encode_event e))); [|lia]. Qed.

Lemma take_flat es n :
  Forall stored es → ∃ es1 t, take n (flat es) = flat es1 ++ t ∧ torn t ∧ Forall stored es1 ∧ es1 ++ finished t = visible es n.
Proof.
  intros Hes. revert n. induction Hes as [|e es He Hes IH]; intros n.
  { exists [], []. split_and!; [by destruct n|by left|done|by rewrite finished_nil]. }
  rewrite flat_cons. change (newline :: flat es) with ([newline] ++ flat es). rewrite app_assoc. cbn [visible].
  destruct (Nat.ltb_spec n (length (encode_event e))) as [Hn|Hn];
    [|destruct (decide (n = length (encode_event e))) as [->|Hne]].
  - exists [], (take n (encode_event e)). rewrite <- app_assoc, take_app_le by lia. split_and!; [done|right; by exists e, n|done|].
    by rewrite finished_torn.
  - exists [], (encode_event e). rewrite <- app_assoc, take_app_length. split_and!; [done| |done|].
    + right. exists e, (length (encode_event e)). by rewrite take_ge.
    + rewrite finished_encode by done. cbn [app].
      replace (length (encode_event e) - S (length (encode_event e)))%nat with 0%nat by lia. by rewrite visible_0.
  - destruct (IH (n - S (length (encode_event e)))%nat) as (es1 & t & E & Ht & Hs & Hv).
    exists (e :: es1), t. rewrite take_app_ge by (rewrite length_app; cbn; lia). split_and!; [|done|by constructor|].
    + rewrite flat_cons. rewrite length_app. cbn [length]. replace (length (encode_event e) + 1)%nat with (S (length (encode_event e))) by lia.
      rewrite E. by rewrite <- !app_assoc.
    + cbn [app]. by rewrite Hv.
Qed.

(** What a segment shows while further events are written to it. *)
Lemma records_writing es new n :
  Forall stored es → Forall stored new → records (flat es ++ take n (flat new)) = es ++ visible new n.
Proof.
  intros Hes Hnew. destruct (take_flat new n Hnew) as (es1 & t & -> & Ht & Hs & <-).
  rewrite app_assoc, <- flat_app, records_flat, app_assoc; [done|by apply Forall_app|done].
Qed.
End Lines.
