(* ===== verification/ActivityLogSpec.v ===== *)
(** * ActivityLogSpec: what the journal promises

    The invariant of the directory of the journal under appends, cleanups,
    errors, deaths of the process and losses of power: what was acknowledged
    stays readable until it is pruned, and no number is given twice. *)

From stdpp Require Import sorting.
From S2P Require Import Prelude GoText Durable Binding ActivityEvent ActivityCalls ActivityLog ActivityLines.
Local Open Scope Z_scope.

Section Spec.
Context `{EventCodecLaws}.
Implicit Types (j : journal) (e : Event) (acked es : list Event) (n m p : Z) (s : segment) (c : list ascii).

(** ** The invariant *)

(** What the file of a segment may hold after a loss of power. *)
Definition versions s : list (list ascii) := sg_bytes s :: sg_past s.

Definition shape c : Prop :=
  ∃ es t, c = flat es ++ t ∧ Forall stored es ∧ torn t ∧ increasing (es ++ finished t).

Definition saved_seq j : Z :=
  match j_state j with Some f => match f_content f with Some st => sq_Seq st | None => 0 end | None => 0 end.

Definition has j n e : Prop := ∃ s, j_segments j !! n = Some s ∧ e ∈ records (sg_bytes s).

Record inv acked j : Prop := {
  iv_state : ∀ f, j_state j = Some f → f_size f <= 4096 ∧ ∃ st, f_content f = Some st ∧ 0 <= sq_Seq st ∧ 0 <= sq_PrunedThrough st;
  iv_key : ∀ n, n ∈ dom (j_segments j) → 0 < n;
  iv_shape : ∀ n s c, j_segments j !! n = Some s → c ∈ versions s → shape c;
  iv_past : ∀ n s c e, j_segments j !! n = Some s → c ∈ versions s → e ∈ records c → e ∈ records (sg_bytes s);
  iv_from : ∀ n e, has j n e → n <= ev_Seq e;
  iv_below : ∀ n m e, has j n e → m ∈ dom (j_segments j) → n < m → ev_Seq e < m;
  iv_floor : ∀ n, n ∈ dom (j_segments j) → n - 1 <= saved_seq j ∨ ∃ m e, m < n ∧ has j m e ∧ n - 1 <= ev_Seq e;
  iv_acked : ∀ e, e ∈ acked →
    (∃ n s, j_segments j !! n = Some s ∧ ∀ c, c ∈ versions s → e ∈ records c)
    ∨ (ev_Seq e <= saved_seq j ∧ dom (j_segments j) ≠ ∅ ∧ ∀ n, n ∈ dom (j_segments j) → ev_Seq e < n);
}.

Lemma inv_new : inv [] no_journal.
Proof.
  constructor; cbn; try done; try (intros *; rewrite lookup_empty; done); try set_solver.
  all: intros *; try (intros (s & Hs & _); cbn in Hs; by rewrite lookup_empty in Hs).
Qed.

Lemma inv_acked_sub acked acked' j : inv acked j → acked' ⊆ acked → inv acked' j.
Proof. intros Hj Hsub. destruct Hj. constructor; auto. Qed.

Lemma shape_records c : shape c → increasing (records c).
Proof. intros (es & t & -> & Hes & Ht & Hinc). by rewrite records_flat. Qed.

Lemma shape_latest c : shape c → latestSegmentSequence c = last_seq (records c).
Proof. intros (es & t & -> & Hes & Ht & Hinc). rewrite records_flat by done. by apply latest_flat. Qed.

Lemma increasing_last es e x : increasing es → last es = Some x → e ∈ es → ev_Seq e <= ev_Seq x.
Proof.
  intros Hes Hx He. apply last_Some in Hx as [l ->]. apply elem_of_app in He as [He| ->%list_elem_of_singleton]; [|lia].
  apply StronglySorted_app in Hes as (Hes & _). specialize (Hes e x He ltac:(left)). cbn in Hes. lia.
Qed.

(** ** What the readers find *)

Lemma segments_sorted j files :
  segments j = Ok files → StronglySorted Z.le files ∧ NoDup files ∧ ∀ n, n ∈ files ↔ n ∈ dom (j_segments j).
Proof.
  unfold segments. cbv zeta. intros Hf. apply reject_bind_Ok in Hf as [_ [= <-]].
  assert (merge_sort Z.le (elements (dom (j_segments j))) ≡ₚ elements (dom (j_segments j))) as Hp by apply merge_sort_Permutation.
  split_and!; [apply StronglySorted_merge_sort; apply _|rewrite Hp; apply NoDup_elements|].
  intros n. by rewrite Hp, elem_of_elements.
Qed.

Lemma bytes_of_lookup j n s : j_segments j !! n = Some s → bytes_of n j = sg_bytes s.
Proof. unfold bytes_of. by intros ->. Qed.

(** The largest key. *)
Definition top j p : Prop := p ∈ dom (j_segments j) ∧ ∀ n, n ∈ dom (j_segments j) → n <= p.

Lemma segments_last j files p : segments j = Ok files → last files = Some p → top j p.
Proof.
  intros (Hs & Hnd & Hin)%segments_sorted Hl. apply last_Some in Hl as [l ->]. split; [apply Hin, elem_of_app; right; left|].
  intros n Hn%Hin. apply elem_of_app in Hn as [Hn| ->%list_elem_of_singleton]; [|lia].
  apply StronglySorted_app in Hs as (Hs & _). exact (Hs n p Hn ltac:(left)).
Qed.

Lemma has_dom j n e : has j n e → n ∈ dom (j_segments j).
Proof. intros (s & Hs & _). apply elem_of_dom. eauto. Qed.

(** The newest number: the one saved, or that of the last event in the last
    segment that has one. *)
Lemma first_some_segments acked j files :
  inv acked j → StronglySorted Z.le files → NoDup files → (∀ n, n ∈ files → n ∈ dom (j_segments j)) →
  match first_some (λ path, latestSegmentSequence (bytes_of path j)) (rev files) with
  | Some seq => (∃ n e, has j n e ∧ ev_Seq e = seq) ∧ ∀ n e, n ∈ files → has j n e → ev_Seq e <= seq
  | None => ∀ n e, n ∈ files → ¬ has j n e
  end.
Proof.
  intros Hj Hs Hnd Hin. induction files as [|p files IH] using rev_ind; [by intros n e ?%not_elem_of_nil|].
  rewrite rev_app_distr. cbn [rev app first_some].
  assert (p ∈ dom (j_segments j)) as [s Hp]%elem_of_dom by (apply Hin, elem_of_app; right; left).
  pose proof (iv_shape acked j Hj p s (sg_bytes s) Hp ltac:(left)) as Hshape.
  rewrite (bytes_of_lookup j p s Hp), shape_latest by done.
  destruct (last (records (sg_bytes s))) as [x|] eqn:Hx; unfold last_seq; rewrite Hx; cbn.
  - assert (has j p x) as Hhx by (exists s; split; [done|by eapply last_Some_elem_of]).
    split; [by exists p, x|]. intros n e [Hn| ->%list_elem_of_singleton]%elem_of_app He.
    + assert (n < p) as Hlt.
      { apply StronglySorted_app in Hs as (Hle & _). pose proof (Hle n p Hn ltac:(left)) as H1. cbn in H1.
        apply NoDup_app in Hnd as (_ & Hnd & _). enough (n ≠ p) by lia. intros ->. by apply (Hnd p Hn), list_elem_of_singleton. }
      pose proof (iv_below acked j Hj n p e He (has_dom _ _ _ Hhx) Hlt). pose proof (iv_from acked j Hj p x Hhx). lia.
    + destruct He as (s' & Hs' & He). assert (s' = s) as -> by congruence.
      eapply increasing_last; [by apply shape_records|done|done].
  - apply last_None in Hx.
    assert (∀ e, ¬ has j p e) as Hno by (intros e (s' & Hs' & He); assert (s' = s) as -> by congruence; rewrite Hx in He; by apply not_elem_of_nil in He).
    apply StronglySorted_app in Hs as (_ & Hs & _). apply NoDup_app in Hnd as (Hnd & _ & _).
    specialize (IH Hs Hnd ltac:(intros; apply Hin, elem_of_app; by left)).
    destruct (first_some _ (rev files)) as [seq|]; [destruct IH as [Hw IH]; split; [done|]|].
    all: intros n e [Hn| ->%list_elem_of_singleton]%elem_of_app He; [by eapply IH|by apply Hno in He].
Qed.

(** The state that [state] makes of a journal. *)
Record known acked j (b : Z) : Prop := {
  kn_has : ∀ n e, has j n e → ev_Seq e <= b;
  kn_saved : saved_seq j <= b;
  kn_reached : b <= saved_seq j ∨ ∃ n e, has j n e ∧ b <= ev_Seq e;
  kn_floor : ∀ n, n ∈ dom (j_segments j) → n <= b + 1;
  kn_acked : ∀ e, e ∈ acked → ev_Seq e <= b;
}.

Lemma known_intro acked j b :
  inv acked j → (∀ n e, has j n e → ev_Seq e <= b) → saved_seq j <= b →
  (b <= saved_seq j ∨ ∃ n e, has j n e ∧ b <= ev_Seq e) → known acked j b.
Proof.
  intros Hj Hhas Hsaved Hre. constructor; try done.
  - intros n Hn. destruct (iv_floor acked j Hj n Hn) as [Hf|(m & e & _ & He & Hf)]; [lia|]. pose proof (Hhas _ _ He). lia.
  - intros e He. destruct (iv_acked acked j Hj e He) as [(n & s & Hs & Hv)|[Hle _]]; [|lia].
    apply (Hhas n). exists s. split; [done|]. apply Hv. left.
Qed.

Lemma saved_ok acked j : inv acked j → ∃ st, saved j = Ok st ∧ sq_Seq st = saved_seq j ∧ 0 <= saved_seq j ∧ 0 <= sq_PrunedThrough st.
Proof.
  intros Hj. unfold saved, saved_seq. destruct (j_state j) as [f|] eqn:Ef; [|by exists (mkSequenceState 0 0)].
  destruct (iv_state acked j Hj f Ef) as (Hsz & st & Hst & Hpos & Hpr).
  rewrite Hst, (proj2 (Z.ltb_ge _ _)) by done. by exists st.
Qed.

Lemma state_known acked j files :
  inv acked j → segments j = Ok files →
  ∃ st, state files j = Ok st ∧ known acked j (sq_Seq st) ∧ 0 <= sq_Seq st
    ∧ (∀ n, (∀ m, m ∈ dom (j_segments j) → n <= m) → n - 1 <= sq_PrunedThrough st ∨ dom (j_segments j) = ∅).
Proof.
  intros Hj Hf. destruct (segments_sorted j files Hf) as (Hs & Hnd & Hin). destruct (saved_ok acked j Hj) as (st & Hst & Hseq & Hpos & Hpr).
  pose proof (first_some_segments acked j files Hj Hs Hnd (λ n, proj1 (Hin n))) as Hfirst.
  unfold state. rewrite Hst. cbn [mbind result_bind]. destruct files as [|first rest].
  { exists st. split; [done|]. assert (∀ n e, ¬ has j n e) as Hno by (intros n e He%has_dom; apply Hin in He; by apply not_elem_of_nil in He).
    split_and!; [|lia|]; [|intros n _; right; apply set_eq; intros m; by rewrite <- Hin, elem_of_nil, elem_of_empty].
    apply known_intro; [done|by intros n e ?%Hno|lia|left; lia]. }
  set (files := first :: rest) in *.
  set (st1 := if (1 <? first) && _ then _ else st).
  assert (sq_Seq st1 = saved_seq j ∧ first - 1 <= sq_PrunedThrough st1) as [Hseq1 Hpr1].
  { subst st1. destruct (Z.ltb_spec 1 first), (Z.ltb_spec (sq_PrunedThrough st) (first - 1)); cbn; lia. }
  assert (∀ n, (∀ m, m ∈ dom (j_segments j) → n <= m) → n <= first) as Hleast by (intros n Hn; apply Hn, Hin; left).
  clearbody st1. set (found := first_some _ _) in *. destruct found as [seq|]; eexists; (split; [reflexivity|]).
  - destruct Hfirst as [(n & e & He & Hne) Hall].
    assert (∀ n e, has j n e → ev_Seq e <= seq) as Hhas by (intros m e' He'; eapply (Hall m); [by apply Hin; eapply has_dom|done]).
    assert (sq_Seq (if sq_Seq st1 <? seq then st1 <| sq_Seq := seq |> else st1) = Z.max (saved_seq j) seq
      ∧ first - 1 <= sq_PrunedThrough (if sq_Seq st1 <? seq then st1 <| sq_Seq := seq |> else st1)) as [-> Hp].
    { rewrite Hseq1. destruct (Z.ltb_spec (saved_seq j) seq); cbn; lia. }
    split_and!; [|lia|intros m Hm; left; specialize (Hleast m Hm); lia].
    apply known_intro; [done|intros m e' He'; specialize (Hhas _ _ He'); lia|lia|].
    destruct (Z.max_spec (saved_seq j) seq) as [[_ ->]|[_ ->]]; [right; exists n, e; split; [done|lia]|left; lia].
  - rewrite Hseq1. split_and!; [|lia|intros m Hm; left; specialize (Hleast m Hm); lia].
    apply known_intro; [done| |lia|left; lia]. intros m e' He'. exfalso. eapply Hfirst; [|exact He']. by apply Hin; eapply has_dom.
Qed.

(** ** The steps *)

Definition put p s j : journal := j <| j_segments ::= insert p s |>.

(** The newest segment gets other contents, which keep its events. *)
Lemma inv_put acked j p s0 s :
  inv acked j → j_segments j !! p = Some s0 → (∀ n, n ∈ dom (j_segments j) → n <= p) →
  (∀ e, e ∈ records (sg_bytes s0) → e ∈ records (sg_bytes s)) →
  (∀ c, c ∈ versions s → c ∈ versions s0 ∨ (shape c ∧ (∀ e, e ∈ records (sg_bytes s0) → e ∈ records c)
     ∧ (∀ e, e ∈ records c → e ∈ records (sg_bytes s)))) →
  (∀ e, e ∈ records (sg_bytes s) → p <= ev_Seq e) →
  inv acked (put p s j).
Proof.
  intros Hj Hp Htop Hkeep Hv Hfrom.
  assert (dom (j_segments (put p s j)) = dom (j_segments j)) as Hdom.
  { cbn. rewrite dom_insert_L. assert (p ∈ dom (j_segments j)) by (apply elem_of_dom; eauto). set_solver. }
  assert (∀ n e, has (put p s j) n e → n = p ∧ e ∈ records (sg_bytes s) ∨ n ≠ p ∧ has j n e) as Hhas.
  { intros n e (s' & Hs' & He). cbn in Hs'. apply lookup_insert_Some in Hs' as [[<- <-]|[Hne Hs']]; [by left|right]. split; [done|by exists s']. }
  constructor; rewrite ?Hdom.
  - exact (iv_state acked j Hj).
  - exact (iv_key acked j Hj).
  - intros n s' c Hs' Hc. cbn in Hs'. apply lookup_insert_Some in Hs' as [[<- <-]|[Hne Hs']]; [|by eapply iv_shape].
    apply Hv in Hc as [Hc|(Hc & _)]; [by eapply iv_shape|done].
  - intros n s' c e Hs' Hc He. cbn in Hs'. apply lookup_insert_Some in Hs' as [[<- <-]|[Hne Hs']]; [|by eapply iv_past].
    apply Hv in Hc as [Hc|(_ & _ & Hc)]; [|by apply Hc]. apply Hkeep. by eapply iv_past.
  - intros n e [[-> He]|[_ He]]%Hhas; [by apply Hfrom|by eapply iv_from].
  - intros n m e [[-> He]|[_ He]]%Hhas Hm Hlt; [|by eapply (iv_below acked j Hj n)]. specialize (Htop m Hm). lia.
  - intros n Hn. destruct (iv_floor acked j Hj n Hn) as [Hf|(m & e & Hm & He & Hf)]; [by left|right]. exists m, e. split; [done|].
    split; [|done]. destruct He as (s' & Hs' & He). exists s'. split; [|done]. cbn. specialize (Htop n Hn). rewrite lookup_insert_ne by lia. done.
  - intros e He. destruct (iv_acked acked j Hj e He) as [(n & s' & Hs' & Ha)|Hold]; [left|by right].
    destruct (decide (n = p)) as [->|Hne].
    + exists p, s. split; [apply lookup_insert_eq|]. assert (s' = s0) as -> by congruence.
      intros c Hc. apply Hv in Hc as [Hc|(_ & Hc & _)]; [by apply Ha|]. apply Hc, Ha. left.
    + exists n, s'. split; [|done]. cbn. by rewrite lookup_insert_ne.
Qed.

(** A new segment behind the others. *)
Lemma inv_create acked j p b :
  inv acked j → known acked j b → p = b + 1 → 0 < p → p ∉ dom (j_segments j) → inv acked (put p (mkSegment [] []) j).
Proof.
  intros Hj Hb Ep Hpos Hp.
  assert (∀ n, n ∈ dom (j_segments j) → n < p) as Htop.
  { intros n Hn. pose proof (kn_floor acked j b Hb n Hn). enough (n ≠ p) by lia. by intros ->. }
  assert (∀ n e, has (put p (mkSegment [] []) j) n e → has j n e) as Hhas.
  { intros n e (s & Hs & He). cbn in Hs. apply lookup_insert_Some in Hs as [[<- <-]|[_ Hs]]; [by apply not_elem_of_nil in He|by exists s]. }
  assert (∀ n e, has j n e → has (put p (mkSegment [] []) j) n e) as Hkeeps.
  { intros n e He. pose proof (Htop n (has_dom _ _ _ He)). destruct He as (s & Hs & He). exists s. split; [|done].
    cbn. by rewrite lookup_insert_ne by lia. }
  constructor.
  - exact (iv_state acked j Hj).
  - intros n Hn%elem_of_dom. cbn in Hn. apply lookup_insert_is_Some in Hn as [<-|[_ Hn]]; [done|].
    by apply (iv_key acked j Hj), elem_of_dom.
  - intros n s c Hs Hc. cbn in Hs. apply lookup_insert_Some in Hs as [[<- <-]|[_ Hs]]; [|by eapply iv_shape].
    apply list_elem_of_singleton in Hc as ->. exists [], []. rewrite finished_nil. by split_and!; [|constructor|left|constructor].
  - intros n s c e Hs Hc. cbn in Hs. apply lookup_insert_Some in Hs as [[<- <-]|[_ Hs]]; [|by eapply iv_past].
    by apply list_elem_of_singleton in Hc as ->.
  - intros n e He%Hhas. by eapply iv_from.
  - intros n m e He%Hhas Hm%elem_of_dom Hlt. cbn in Hm. apply lookup_insert_is_Some in Hm as [<-|[_ Hm]].
    + pose proof (kn_has acked j b Hb n e He). lia.
    + eapply (iv_below acked j Hj n); [done|by apply elem_of_dom|done].
  - intros n Hn%elem_of_dom. cbn in Hn. apply lookup_insert_is_Some in Hn as [<-|[_ Hn]].
    + destruct (kn_reached acked j b Hb) as [Hr|(m & e & He & Hr)].
      { left. change (saved_seq _) with (saved_seq j). lia. }
      right. exists m, e.
      split_and!; [apply Htop; by eapply has_dom|by apply Hkeeps|lia].
    + apply elem_of_dom in Hn. destruct (iv_floor acked j Hj n Hn) as [Hf|(m & e & Hm & He & Hf)]; [by left|right].
      exists m, e. split_and!; [done|by apply Hkeeps|done].
  - intros e He. pose proof (kn_acked acked j b Hb e He). destruct (iv_acked acked j Hj e He) as [(n & s & Hs & Ha)|(Hle & _ & Ha)]; [left|right].
    + exists n, s. split; [|done]. cbn. rewrite lookup_insert_ne; [done|]. intros <-. apply Hp, elem_of_dom. eauto.
    + split; [done|]. split; [cbn; rewrite dom_insert_L; set_solver|]. intros n Hn%elem_of_dom. cbn in Hn. apply lookup_insert_is_Some in Hn as [<-|[_ Hn]]; [lia|].
      by apply Ha, elem_of_dom.
Qed.

(** The state is saved, with a number that covers all that was given. *)
Lemma inv_saved acked j b pruned size :
  inv acked j → saved_seq j <= b → 0 <= b → 0 <= pruned → size <= 4096 →
  inv acked (j <| j_state := Some (mkFile size (Some (mkSequenceState b pruned))) |>).
Proof.
  intros Hj Hs Hpos Hpr Hsize. constructor; try apply Hj.
  - intros f [= <-]. split; [done|]. by eexists.
  - intros n Hn. destruct (iv_floor acked j Hj n Hn) as [Hf|Hf]; [left; cbn; lia|by right].
  - intros e He. destruct (iv_acked acked j Hj e He) as [Ha|[Hle Ha]]; [by left|right]. split; [cbn; lia|exact Ha].
Qed.

(** The number that is saved covers all that was given. *)
Definition covered j : Prop := ∀ n e, has j n e → ev_Seq e <= saved_seq j.

Lemma inv_remove acked j p m :
  inv acked j → covered j → m ∈ dom (j_segments j) → p < m → (∀ n, n ∈ dom (j_segments j) → p <= n) →
  inv acked (remove_segment p j).
Proof.
  intros Hj Hcov Hm Hpm Hleast.
  assert (∀ n, n ∈ dom (j_segments (remove_segment p j)) ↔ n ≠ p ∧ n ∈ dom (j_segments j)) as Hdom
    by (intros n; cbn; rewrite dom_delete_L; set_solver).
  assert (∀ n s, j_segments (remove_segment p j) !! n = Some s ↔ n ≠ p ∧ j_segments j !! n = Some s) as Hlook.
  { intros n s. cbn. rewrite lookup_delete_Some. naive_solver. }
  assert (∀ n e, has (remove_segment p j) n e → has j n e) as Hhas by (intros n e (s & [_ Hs]%Hlook & He); by exists s).
  constructor.
  - exact (iv_state acked j Hj).
  - intros n [_ Hn]%Hdom. by apply (iv_key acked j Hj).
  - intros n s c [_ Hs]%Hlook. by eapply iv_shape.
  - intros n s c e [_ Hs]%Hlook. by eapply iv_past.
  - intros n e He%Hhas. by eapply iv_from.
  - intros n k e He%Hhas [_ Hk]%Hdom. by eapply iv_below.
  - intros n [Hne Hn]%Hdom. destruct (iv_floor acked j Hj n Hn) as [Hf|(k & e & Hk & He & Hf)]; [by left|left].
    pose proof (Hcov k e He). change (saved_seq _) with (saved_seq j). lia.
  - intros e He. assert (dom (j_segments (remove_segment p j)) ≠ ∅) as Hsome by (intros E; specialize (Hdom m); rewrite E in Hdom; set_solver by lia).
    destruct (iv_acked acked j Hj e He) as [(n & s & Hs & Ha)|(Hle & _ & Ha)].
    + destruct (decide (n = p)) as [->|Hne]; [right|left; exists n, s; by rewrite Hlook].
      assert (has j p e) as Hh by (exists s; split; [done|apply Ha; left]). split; [by apply (Hcov p)|]. split; [done|].
      intros n [Hne Hn]%Hdom. apply (iv_below acked j Hj p n e Hh Hn). specialize (Hleast n Hn). lia.
    + right. split; [done|]. split; [done|]. intros n [_ Hn]%Hdom. by apply Ha.
Qed.

(** ** Writing to the newest segment *)

Lemma put_put p s s' j : put p s (put p s' j) = put p s j.
Proof. unfold put. cbn. by rewrite insert_insert_eq. Qed.

Section Block.
Context (p : Z) (j0 : journal) (s0 : segment) (base data : list ascii).

(** [k] bytes of [data] have been written behind [base]. *)
Definition growing (k : nat) j : Prop :=
  ∃ s, j = put p s j0 ∧ sg_bytes s = base ++ take k data
    ∧ ∀ c, c ∈ versions s → c ∈ versions s0 ∨ ∃ i, (i <= k)%nat ∧ c = base ++ take i data.

Definition grown j : Prop := ∃ k, growing k j.

Lemma growing_byte k a j :
  data !! k = Some a → growing k j → growing (S k) (append_byte p a j).
Proof.
  intros Ha (s & -> & Hb & Hv). exists (mkSegment (sg_bytes s ++ [a]) (sg_bytes s :: sg_past s)). split_and!.
  - unfold append_byte, put. cbn. by rewrite alter_insert_eq.
  - cbn. rewrite Hb, <- app_assoc. by erewrite <- take_S_r.
  - intros c [->|Hc]%elem_of_cons.
    + right. exists (S k). split; [done|]. cbn. rewrite Hb, <- app_assoc. by erewrite <- take_S_r.
    + destruct (Hv c Hc) as [?|(i & Hi & ?)]; [by left|right]. exists i. split; [lia|done].
Qed.

Lemma write_to_tri rest k :
  drop k data = rest → tri (growing k) (write_to p rest) (λ _, growing (length data)) grown grown.
Proof.
  revert k. induction rest as [|a rest IH]; intros k Hk; cbn [write_to].
  - apply tri_ret. intros j (s & -> & Hb & Hv). assert (length data <= k)%nat as Hle.
    { apply (f_equal length) in Hk. rewrite length_drop in Hk. cbn in Hk. lia. }
    exists s. split_and!; [done|by rewrite Hb, !take_ge by lia|]. intros c Hc. destruct (Hv c Hc) as [?|(i & Hi & ->)]; [by left|right].
    destruct (decide (i <= length data)%nat); [by exists i|]. exists (length data). split; [done|]. by rewrite !take_ge by lia.
  - assert (data !! k = Some a) as Ha by (rewrite <- (Nat.add_0_r k), <- lookup_drop, Hk; done).
    apply (tri_bind _ _ _ (λ _, growing (S k))).
    + apply tri_sys. intros j Hj. pose proof (growing_byte k a j Ha Hj). unfold grown. eauto 10.
    + intros _. apply IH. by rewrite <- Nat.add_1_r, <- drop_drop, Hk.
Qed.

Lemma growing_sync k j : growing k j → growing k (sync_segment p j) ∧ ∃ s, sync_segment p j = put p s j0 ∧ sg_bytes s = base ++ take k data ∧ sg_past s = [].
Proof.
  intros (s & -> & Hb & Hv).
  assert (sync_segment p (put p s j0) = put p (mkSegment (sg_bytes s) []) j0) as -> by (unfold sync_segment, put; cbn; by rewrite alter_insert_eq).
  split; [|by exists (mkSegment (sg_bytes s) [])]. exists (mkSegment (sg_bytes s) []). split_and!; [done|done|].
  intros c [->|Hc]%elem_of_cons; [|by apply not_elem_of_nil in Hc]. right. by exists k.
Qed.

Definition all_synced j : Prop := ∃ s, j = put p s j0 ∧ sg_bytes s = base ++ data ∧ sg_past s = [].

Lemma block_tri :
  j_segments j0 !! p = Some s0 → sg_bytes s0 = base →
  tri (λ j, j = j0)
    (written ← io_try (write_to p data); synced ← io_try (sys "sync" (sync_segment p)); closed ← io_try (sys "close" id);
     io_lift (written;; synced;; closed))
    (λ _, all_synced) grown grown.
Proof.
  intros Hs0 Hbase.
  eapply (tri_bind _ _ _ (λ r j, match r with Ok _ => growing (length data) j | Err _ => grown j end)).
  { eapply tri_pre; [apply tri_try, (write_to_tri data 0); done|]. intros j ->. exists s0. split_and!.
    - unfold put. destruct j0 as [m st]. cbn in *. by rewrite insert_id.
    - cbn. by rewrite app_nil_r.
    - by left. }
  intros written.
  eapply (tri_bind _ _ _ (λ r j, grown j ∧ (is_ok (written;; r) = true → all_synced j))).
  { intros j fs Hj.
    assert (grown j ∧ grown (sync_segment p j) ∧ (is_ok written = true → all_synced (sync_segment p j))) as (H1 & H2 & H3).
    { destruct written as [u|e]; [|destruct Hj as [k Hj]]; destruct (growing_sync _ _ Hj) as [Hg Hs].
      - split_and!; [by eexists|by eexists|]. intros _. destruct Hs as (s & -> & Hb & Hp). exists s. by rewrite Hb, take_ge.
      - split_and!; [by eexists|by eexists|done]. }
    destruct fs as [|[] fs]; cbn; destruct written; cbn in *; auto; split_and!; auto; discriminate. }
  intros synced.
  eapply (tri_bind _ _ _ (λ r j, grown j ∧ (is_ok (written;; synced;; r) = true → all_synced j))).
  { intros j fs [Hg Hj]. destruct fs as [|[] fs]; cbn; destruct written, synced; cbn in *; auto; split_and!; auto; discriminate. }
  intros closed j fs [Hg Hj]. destruct written, synced, closed; cbn in *; auto.
Qed.
End Block.

(** The newest segment [p] is whole and holds the events [es]; the numbers
    through [b] are given. *)
Record ready acked j (b : Z) p es : Prop := {
  rd_inv : inv acked j;
  rd_known : known acked j b;
  rd_top : top j p;
  rd_bytes : ∃ s, j_segments j !! p = Some s ∧ sg_bytes s = flat es;
  rd_stored : Forall stored es;
}.

(** The events that get the next numbers. *)
Fixpoint numbered (b : Z) es : Prop :=
  match es with [] => True | e :: es => ev_Seq e = b + 1 ∧ numbered (b + 1) es end.

Lemma numbered_spec b es :
  numbered b es → increasing es ∧ (∀ e, e ∈ es → b < ev_Seq e <= b + Z.of_nat (length es))
  ∧ (es ≠ [] → ∃ e, e ∈ es ∧ ev_Seq e = b + Z.of_nat (length es)).
Proof.
  revert b. induction es as [|e es IH]; intros b; cbn [numbered]; [intros _; split_and!; [constructor|by intros e ?%not_elem_of_nil|done]|].
  intros [He Hes]. destruct (IH _ Hes) as (Hi & Hb & Hl). cbn [length]. split_and!.
  - constructor; [done|]. apply Forall_forall. intros x Hx. specialize (Hb x Hx). lia.
  - intros x [->|Hx]%elem_of_cons; [lia|]. specialize (Hb x Hx). lia.
  - intros _. destruct es as [|x es]; [exists e; split; [left|cbn; lia]|]. destruct Hl as (y & Hy & Ey); [done|].
    exists y. split; [by right|lia].
Qed.

Lemma increasing_app_numbered b es new :
  increasing es → (∀ e, e ∈ es → ev_Seq e <= b) → numbered b new → increasing (es ++ new).
Proof.
  intros Hes Hb (Hi & Hn & _)%numbered_spec. apply StronglySorted_app_2; [|done..].
  intros x y Hx Hy. specialize (Hb x Hx). specialize (Hn y Hy). cbn. lia.
Qed.

Lemma increasing_prefix es es' : es `prefix_of` es' → increasing es' → increasing es.
Proof. intros [k ->] Hi. by apply StronglySorted_app in Hi as (_ & ? & _). Qed.

Section Ready.
Context acked j0 b p es new s0
  (R : ready acked j0 b p es) (Hnew : Forall stored new) (Hnum : numbered b new)
  (Hs0 : j_segments j0 !! p = Some s0) (Hb0 : sg_bytes s0 = flat es).

Lemma ready_records : records (flat es) = es.
Proof. rewrite <- (app_nil_r (flat es)), records_flat, finished_nil by (apply R || by left). apply app_nil_r. Qed.

Lemma ready_has e : e ∈ es → has j0 p e.
Proof. intros He. exists s0. split; [done|]. by rewrite Hb0, ready_records. Qed.

Lemma ready_increasing : increasing es.
Proof.
  rewrite <- ready_records, <- Hb0. apply shape_records. eapply (iv_shape acked j0); [apply R|done|left].
Qed.

Lemma writing_shape i : shape (flat es ++ take i (flat new)).
Proof.
  destruct (take_flat new i Hnew) as (es1 & t & -> & Ht & Hs & Hv). exists (es ++ es1), t. split_and!.
  - by rewrite flat_app, app_assoc.
  - apply Forall_app. split; [apply R|done].
  - done.
  - rewrite <- app_assoc, Hv. eapply increasing_prefix; [apply prefix_app, visible_prefix|].
    eapply increasing_app_numbered; [apply ready_increasing| |done].
    intros e He. eapply (kn_has acked j0); [apply R|by apply ready_has].
Qed.

Lemma writing_from e i : e ∈ records (flat es ++ take i (flat new)) → p <= ev_Seq e.
Proof.
  rewrite records_writing by (done || apply R). intros [He|He]%elem_of_app.
  - eapply (iv_from acked j0); [apply R|by apply ready_has].
  - assert (e ∈ new) as Hin by by eapply elem_of_prefix, visible_prefix.
    apply numbered_spec in Hnum as (_ & Hn & _). specialize (Hn e Hin).
    pose proof (kn_floor acked j0 b (rd_known _ _ _ _ _ R) p (proj1 (rd_top _ _ _ _ _ R))). lia.
Qed.

Lemma growing_inv j : grown p j0 s0 (flat es) (flat new) j → inv acked j.
Proof.
  intros (k & s & -> & Hb & Hv). apply (inv_put acked j0 p s0 s); [apply R|done|apply R|..].
  - intros e. rewrite Hb0, Hb, ready_records, records_writing by (done || apply R). intros He. apply elem_of_app. by left.
  - intros c Hc. destruct (Hv c Hc) as [?|(i & Hi & ->)]; [by left|right]. split_and!; [apply writing_shape|..].
    + intros e. rewrite Hb0, ready_records, records_writing by (done || apply R). intros He. apply elem_of_app. by left.
    + intros e. rewrite Hb, !records_writing by (done || apply R). intros [He|He]%elem_of_app; apply elem_of_app; [by left|right].
      by eapply elem_of_prefix, visible_mono.
  - intros e. rewrite Hb. apply writing_from.
Qed.

(** No number beyond [B] is in use. *)
Definition bounded B j : Prop := (∀ n e, has j n e → ev_Seq e <= B) ∧ saved_seq j <= B.

Lemma growing_bounded j : grown p j0 s0 (flat es) (flat new) j → bounded (b + Z.of_nat (length new)) j.
Proof.
  pose proof (rd_known _ _ _ _ _ R) as Hk. intros (k & s & -> & Hb & _). split.
  - intros n e (s' & Hs' & He). cbn in Hs'. apply lookup_insert_Some in Hs' as [[<- <-]|[_ Hs']].
    + rewrite Hb, records_writing in He by (done || apply R). apply elem_of_app in He as [He|He].
      * pose proof (kn_has _ _ _ Hk p e (ready_has e He)). lia.
      * destruct (numbered_spec b new Hnum) as (_ & Hn & _). apply Hn. by eapply elem_of_prefix, visible_prefix.
    + assert (has j0 n e) as He' by by exists s'. pose proof (kn_has _ _ _ Hk n e He'). lia.
  - change (saved_seq _) with (saved_seq j0). pose proof (kn_saved _ _ _ Hk). lia.
Qed.

Lemma synced_ready j :
  all_synced p j0 (flat es) (flat new) j → ready (new ++ acked) j (b + Z.of_nat (length new)) p (es ++ new).
Proof.
  intros (s & -> & Hb & Hp).
  assert (sg_bytes s = flat es ++ take (length (flat new)) (flat new)) as Hb' by by rewrite take_ge.
  assert (records (sg_bytes s) = es ++ new) as Hrec.
  { rewrite Hb', records_writing, visible_all by (done || apply R). done. }
  assert (inv acked (put p s j0)) as Hinv.
  { apply growing_inv. exists (length (flat new)), s. split_and!; [done|done|]. intros c Hc. right.
    exists (length (flat new)). split; [done|]. unfold versions in Hc. rewrite Hp in Hc. apply list_elem_of_singleton in Hc as ->. done. }
  assert (∀ e, e ∈ new → has (put p s j0) p e) as Hhas.
  { intros e He. exists s. split; [apply lookup_insert_eq|]. rewrite Hrec. apply elem_of_app. by right. }
  destruct (numbered_spec b new Hnum) as (_ & Hn & Hl). pose proof (rd_known _ _ _ _ _ R) as Hk.
  assert (dom (j_segments (put p s j0)) = dom (j_segments j0)) as Hdom.
  { cbn. rewrite dom_insert_L. assert (p ∈ dom (j_segments j0)) by (apply elem_of_dom; eauto). set_solver. }
  constructor.
  - constructor; try apply Hinv. intros e [He|He]%elem_of_app; [left|by apply (iv_acked acked _ Hinv)].
    exists p, s. split; [apply lookup_insert_eq|]. intros c Hc. unfold versions in Hc. rewrite Hp in Hc.
    apply list_elem_of_singleton in Hc as ->. rewrite Hrec. apply elem_of_app. by right.
  - constructor.
    + intros n e (s' & Hs' & He). cbn in Hs'. apply lookup_insert_Some in Hs' as [[<- <-]|[_ Hs']].
      * rewrite Hrec in He. apply elem_of_app in He as [He|He]; [|by apply Hn].
        pose proof (kn_has _ _ _ Hk p e (ready_has e He)). lia.
      * assert (has j0 n e) as He' by by exists s'. pose proof (kn_has _ _ _ Hk n e He'). lia.
    + change (saved_seq _) with (saved_seq j0). pose proof (kn_saved _ _ _ Hk). lia.
    + destruct (decide (new = [])) as [->|Hne].
      * cbn. rewrite Z.add_0_r. destruct (kn_reached _ _ _ Hk) as [Hr|(n & e & He & Hr)]; [by left|right]. exists n, e.
        split; [|done]. destruct He as (s' & Hs' & He). destruct (decide (n = p)) as [->|Hnp].
        -- exists s. split; [apply lookup_insert_eq|]. assert (s' = s0) as -> by congruence.
           rewrite Hb0, ready_records in He. by rewrite Hrec, app_nil_r.
        -- exists s'. cbn. by rewrite lookup_insert_ne.
      * right. destruct (Hl Hne) as (e & He & Ee). exists p, e. split; [by apply Hhas|lia].
    + intros n. rewrite Hdom. intros Hd. pose proof (kn_floor _ _ _ Hk n Hd). lia.
    + intros e [He|He]%elem_of_app; [by apply Hn|]. pose proof (kn_acked _ _ _ Hk e He). lia.
  - pose proof (rd_top _ _ _ _ _ R). unfold top in *. by rewrite Hdom.
  - exists s. split; [apply lookup_insert_eq|]. by rewrite Hb, flat_app.
  - apply Forall_app. split; [apply R|done].
Qed.
End Ready.

(** ** The blocks of a batch *)

Lemma tri_at {D A} (P : D → Prop) (m : io D A) (Q : A → D → Prop) E X :
  (∀ d0, P d0 → tri (λ d, d = d0) m Q E X) → tri P m Q E X.
Proof. intros Hm d fs Hd. by apply (Hm d Hd). Qed.

(** Between the blocks: the newest segment is whole, or there is none. *)
Definition between acked (b : Z) (current : option Z) j : Prop :=
  inv acked j ∧ known acked j b ∧ 0 <= b ∧
  match current with Some p => ∃ es, ready acked j b p es | None => dom (j_segments j) = ∅ end.

Lemma create_segment_there q j : q ∈ dom (j_segments j) → create_segment q j = j.
Proof. intros [s Hs]%elem_of_dom. unfold create_segment. destruct j as [m st]. cbn in *. by rewrite Hs. Qed.

Lemma create_segment_new q j : q ∉ dom (j_segments j) → create_segment q j = put q (mkSegment [] []) j.
Proof. intros Hq%not_elem_of_dom. unfold create_segment, put. destruct j as [m st]. cbn in *. by rewrite Hq. Qed.

Lemma ready_new acked j b q :
  inv acked j → known acked j b → 0 <= b → q = b + 1 → q ∉ dom (j_segments j) → ready acked (put q (mkSegment [] []) j) b q [].
Proof.
  intros Hj Hk Hb Eq Hq.
  assert (inv acked (put q (mkSegment [] []) j)) as Hinv by (apply (inv_create acked j q b); (done || lia)).
  assert (∀ n, n ∈ dom (j_segments (put q (mkSegment [] []) j)) ↔ n = q ∨ n ∈ dom (j_segments j)) as Hdom
    by (intros n; cbn; rewrite dom_insert_L; set_solver).
  constructor; [done| | |by exists (mkSegment [] []); split; [apply lookup_insert_eq|]|constructor].
  - constructor.
    + intros n e (s & Hs & He). cbn in Hs. apply lookup_insert_Some in Hs as [[<- <-]|[_ Hs]]; [by apply not_elem_of_nil in He|].
      apply (kn_has _ _ _ Hk n). by exists s.
    + apply Hk.
    + destruct (kn_reached _ _ _ Hk) as [Hr|(n & e & He & Hr)]; [by left|right]. exists n, e. split; [|done].
      pose proof (has_dom _ _ _ He). destruct He as (s & Hs & He). exists s. split; [|done]. cbn. rewrite lookup_insert_ne; [done|]. by intros <-.
    + intros n [->|Hn]%Hdom; [lia|by apply Hk].
    + apply Hk.
  - split; [by apply Hdom; left|]. intros n [->|Hn]%Hdom; [done|]. pose proof (kn_floor _ _ _ Hk n Hn). lia.
Qed.

Lemma open_tri acked b current q :
  tri (λ j, between acked b current j ∧ (current = Some q ∨ q = b + 1)) (sys "open" (create_segment q))
    (λ _ j, ∃ es, ready acked j b q es) (λ j, inv acked j ∧ bounded b j) (inv acked).
Proof.
  apply tri_sys. intros j [(Hj & Hk & Hb & Hcur) Hq].
  assert (∃ es, ready acked (create_segment q j) b q es) as Hready.
  { destruct (decide (q ∈ dom (j_segments j))) as [Hin|Hin].
    - rewrite create_segment_there by done. destruct current as [p|]; [|set_solver]. destruct Hcur as [es R]. exists es.
      enough (p = q) as -> by done. destruct Hq as [[= ->]|Hq]; [done|]. pose proof (rd_top _ _ _ _ _ R) as [Hp Htop].
      specialize (Htop q Hin). pose proof (kn_floor _ _ _ Hk p Hp). lia.
    - rewrite create_segment_new by done. exists []. destruct Hq as [->|Hq]; [|by apply ready_new].
      destruct Hcur as [es R]. by destruct Hin; apply (rd_top _ _ _ _ _ R). }
  destruct Hready as [es R]. split; [by exists es|].
  split; [split; [done|split; apply Hk]|]. split; [split; [apply R|split; apply R]|]. split; [done|apply R].
Qed.

Lemma append_block_tri acked b current q new :
  Forall stored new → numbered b new →
  tri (λ j, between acked b current j ∧ (current = Some q ∨ q = b + 1)) (append_block q (flat new))
    (λ _ j, between (new ++ acked) (b + Z.of_nat (length new)) (Some q) j)
    (λ j, inv acked j ∧ bounded (b + Z.of_nat (length new)) j) (inv acked).
Proof.
  intros Hnew Hnum. unfold append_block. apply tri_at. intros j0 [Hbetween Hq].
  apply (tri_bind _ _ _ (λ _ j, (∃ es, ready acked j b q es) ∧ 0 <= b)).
  { assert (0 <= b) as Hb by apply Hbetween.
    eapply tri_conseq; [apply (open_tri acked b current q)|by intros j ->|intros ? j Hj; by split| |done].
    intros j (Hj & Hh & Hs). split; [done|]. split; [intros n e He; specialize (Hh n e He); lia|lia]. }
  intros _. apply tri_at. intros j1 [[es R] Hb]. destruct (rd_bytes _ _ _ _ _ R) as (s0 & Hs0 & Hb0).
  eapply tri_conseq; [by apply (block_tri q j1 s0 (flat es) (flat new))|done| | |by apply (growing_inv acked j1 b q es new s0)].
  2: { intros j Hj. split; [by apply (growing_inv acked j1 b q es new s0)|by apply (growing_bounded acked j1 b q es new s0)]. }
  intros ? j Hj. pose proof (synced_ready acked j1 b q es new s0 R Hnew Hnum Hs0 Hb0 j Hj) as R'.
  split; [apply R'|]. split; [apply R'|]. split; [lia|by exists (es ++ new)].
Qed.

Fixpoint planned (b : Z) (current : option Z) (items : list preparedAppend) : Prop :=
  match items with
  | [] => True
  | item :: items =>
      ev_Seq (pa_event item) = b + 1 ∧ stored (pa_event item) ∧ pa_data item = line_of (pa_event item)
      ∧ (current = Some (pa_path item) ∨ pa_path item = b + 1) ∧ planned (b + 1) (Some (pa_path item)) items
  end.

Definition events_of (items : list preparedAppend) : list Event := map pa_event items.

Lemma same_path_spec items b q group rest :
  planned b (Some q) items → same_path q items = (group, rest) →
  items = group ++ rest ∧ numbered b (events_of group) ∧ Forall stored (events_of group)
  ∧ concat (map pa_data group) = flat (events_of group) ∧ planned (b + Z.of_nat (length group)) (Some q) rest.
Proof.
  revert b group rest. induction items as [|item items IH]; intros b group rest; cbn [same_path planned].
  { intros _ [= <- <-]. cbn. by split_and!; [|..|constructor|]. }
  intros (Hseq & Hst & Hd & Hp & Hrest). destruct (Z.eqb_spec (pa_path item) q) as [Eq|Hne].
  - destruct (same_path q items) as [g r] eqn:E. intros [= <- <-]. rewrite Eq in Hrest.
    destruct (IH (b + 1) g r Hrest eq_refl) as (-> & Hn & Hs & Hc & Hr). cbn [events_of map numbered length concat].
    split; [done|]. split; [by split|].
    split; [by constructor|].
    split; [by rewrite Hd, Hc|].
    by replace (b + Z.of_nat (S (length g))) with (b + 1 + Z.of_nat (length g)) by lia.
  - intros [= <- <-]. cbn. rewrite Z.add_0_r. split; [done|]. split; [done|]. split; [constructor|]. split; [done|].
    split; [done|]. split; [done|]. split; [done|]. by split.
Qed.

Lemma planned_numbered b current items : planned b current items → numbered b (events_of items).
Proof.
  revert b current. induction items as [|item items IH]; intros b current; cbn; [done|].
  intros (Hseq & _ & _ & _ & Hrest). split; [done|by eapply IH].
Qed.

(** The items that were written are acknowledged; the rest is not there, or
    not for certain. *)
Lemma write_groups_tri fuel acked b current items :
  (length items <= fuel)%nat → planned b current items →
  tri (between acked b current) (write_groups fuel items)
    (λ r j, inv (events_of r.1 ++ acked) j ∧ bounded (b + Z.of_nat (length items)) j
            ∧ ∃ rest, items = r.1 ++ rest ∧ (r.2 = None → rest = []))
    (λ _, False) (inv acked).
Proof.
  revert acked b current items. induction fuel as [|fuel IH]; intros acked b current items Hfuel Hplan.
  { destruct items; [|cbn in Hfuel; lia]. apply tri_ret. intros j (Hj & Hk & _). cbn. rewrite Z.add_0_r.
    split; [done|]. split; [split; apply Hk|by exists []]. }
  destruct items as [|item items]; cbn [write_groups].
  { apply tri_ret. intros j (Hj & Hk & _). cbn. rewrite Z.add_0_r. split; [done|]. split; [split; apply Hk|by exists []]. }
  destruct (same_path (pa_path item) (item :: items)) as [group rest] eqn:Esame.
  assert (current = Some (pa_path item) ∨ pa_path item = b + 1) as Hq by apply Hplan.
  assert (planned b (Some (pa_path item)) (item :: items)) as Hplan'.
  { destruct Hplan as (? & ? & ? & _ & ?). cbn. split; [done|]. split; [done|]. split; [done|]. split; [by left|done]. }
  assert (0 < length group)%nat as Hgroup.
  { cbn in Esame. rewrite Z.eqb_refl in Esame. destruct (same_path (pa_path item) items). injection Esame as <- _. cbn. lia. }
  destruct (same_path_spec _ _ _ _ _ Hplan' Esame) as (Eitems & Hnum & Hst & Hdata & Hrest). rewrite Eitems, Hdata.
  assert (length (events_of group) = length group) as Hlen by apply length_map.
  eapply tri_bind.
  { apply tri_try. eapply tri_pre; [apply (append_block_tri acked b current (pa_path item) (events_of group)); done|]. by intros j Hj. }
  rewrite Hlen. intros [u|err].
  - eapply tri_bind; [|].
    { eapply tri_conseq; [apply (IH (events_of group ++ acked) (b + Z.of_nat (length group)) (Some (pa_path item)) rest)|done|intros ? j Hj; exact Hj|done|].
      - apply (f_equal length) in Eitems. rewrite length_app in Eitems. cbn in Eitems, Hfuel. lia.
      - exact Hrest.
      - intros j Hj. eapply inv_acked_sub; [exact Hj|]. set_solver. }
    intros [written err]. apply tri_ret. cbn. intros j (Hj & Hb & more & Emore & Hnone). split.
    + unfold events_of in *. rewrite map_app, <- app_assoc. eapply inv_acked_sub; [exact Hj|]. set_solver.
    + rewrite length_app, Nat2Z.inj_add, Z.add_assoc. split; [done|]. exists more. by rewrite Emore, <- app_assoc.
  - apply tri_ret. cbn. intros j [Hj Hb]. split; [done|]. split; [|by exists (group ++ rest)].
    rewrite length_app, Nat2Z.inj_add. destruct Hb as [Hh Hs]. split; [intros n e He; specialize (Hh n e He); lia|lia].
Qed.

(** ** The repair of the newest segment *)

Lemma flat_records es : Forall stored es → records (flat es) = es.
Proof. intros Hes. rewrite <- (app_nil_r (flat es)), records_flat, finished_nil by (done || by left). apply app_nil_r. Qed.

Lemma repaired acked j b p es s0 past :
  inv acked j → known acked j b → top j p → j_segments j !! p = Some s0 → records (sg_bytes s0) = es → Forall stored es →
  (∀ c, c ∈ past → c ∈ versions s0 ∨ c = flat es) →
  ready acked (put p (mkSegment (flat es) past) j) b p es.
Proof.
  intros Hj Hk Htop Hs0 Hrec Hes Hpast.
  assert (shape (flat es)) as Hshape.
  { exists es, []. rewrite finished_nil, !app_nil_r. split_and!; [done|done|by left|]. rewrite <- Hrec. apply shape_records.
    eapply iv_shape; [done..|left]. }
  assert (inv acked (put p (mkSegment (flat es) past) j)) as Hinv.
  { apply (inv_put acked j p s0); [done|done|apply Htop|..]; cbn [sg_bytes]; rewrite ?Hrec, ?flat_records by done; [done| |].
    - intros c [->|Hc]%elem_of_cons; [right|].
      + cbn [sg_bytes]. by rewrite flat_records.
      + destruct (Hpast c Hc) as [?| ->]; [by left|right]. by rewrite flat_records.
    - intros e He. eapply (iv_from acked j Hj). exists s0. split; [done|]. by rewrite Hrec. }
  assert (dom (j_segments (put p (mkSegment (flat es) past) j)) = dom (j_segments j)) as Hdom.
  { cbn. rewrite dom_insert_L. assert (p ∈ dom (j_segments j)) by (apply elem_of_dom; eauto). set_solver. }
  assert (∀ n e, has (put p (mkSegment (flat es) past) j) n e ↔ has j n e) as Hhas.
  { intros n e. unfold has. cbn. destruct (decide (n = p)) as [->|Hne]; [|by rewrite lookup_insert_ne].
    rewrite lookup_insert_eq, Hs0. split; intros (s & [= <-] & He); eexists; (split; [done|]); cbn in *.
    - by rewrite Hrec, <- flat_records.
    - by rewrite flat_records, <- Hrec. }
  constructor; [done| | |by eexists; split; [apply lookup_insert_eq|]|done].
  - constructor.
    + intros n e He%Hhas. by apply (kn_has _ _ _ Hk n).
    + apply Hk.
    + destruct (kn_reached _ _ _ Hk) as [Hr|(n & e & He & Hr)]; [by left|right]. exists n, e. by rewrite Hhas.
    + rewrite Hdom. apply Hk.
    + apply Hk.
  - unfold top in *. by rewrite Hdom.
Qed.

Lemma put_same p s j : j_segments j !! p = Some s → put p s j = j.
Proof. intros Hs. unfold put. destruct j as [m st]. cbn in *. by rewrite insert_id. Qed.

Definition complete t : bool :=
  match decode_event t with Some e => (ev_SchemaVersion e =? SchemaVersion) && (0 <? ev_Seq e) | None => false end.

Lemma complete_torn t :
  torn t → (complete t = true ∧ ∃ e, stored e ∧ t = encode_event e) ∨ (complete t = false ∧ finished t = []).
Proof.
  intros [->|[(e & He & ->)|(e & n & He & Hn & ->)]]%torn_cases; [right|left|right].
  - split; [|apply finished_nil]. unfold complete. by rewrite decode_nil.
  - split; [|by exists e]. unfold complete. rewrite decode_line_of by done. destruct He as (_ & Hr & _).
    unfold readable in Hr. do 2 apply andb_true_iff in Hr as [Hr _]. exact Hr.
  - split; [|by apply finished_torn]. unfold complete. by rewrite decode_torn.
Qed.

Lemma append_byte_put p a s j : append_byte p a (put p s j) = put p (mkSegment (sg_bytes s ++ [a]) (sg_bytes s :: sg_past s)) j.
Proof. unfold append_byte, put. cbn. by rewrite alter_insert_eq. Qed.
Lemma cut_put p (n : nat) s j : cut_segment p n (put p s j) = put p (mkSegment (take n (sg_bytes s)) (sg_bytes s :: sg_past s)) j.
Proof. unfold cut_segment, put. cbn. by rewrite alter_insert_eq. Qed.
Lemma sync_put p s j : sync_segment p (put p s j) = put p (mkSegment (sg_bytes s) []) j.
Proof. unfold sync_segment, put. cbn. by rewrite alter_insert_eq. Qed.

(** One step makes the segment whole, another syncs it. *)
Lemma mend_tri acked b p es j0 s0 msg (f : journal → journal) :
  inv acked j0 → known acked j0 b → 0 <= b → top j0 p → j_segments j0 !! p = Some s0 → records (sg_bytes s0) = es → Forall stored es →
  f j0 = put p (mkSegment (flat es) (sg_bytes s0 :: sg_past s0)) j0 →
  tri (λ j, j = j0) (sys msg f;; sys "sync" (sync_segment p)) (λ _, between acked b (Some p)) (inv acked) (inv acked).
Proof.
  intros Hj Hk Hb Htop Hs0 Hrec Hes Hf.
  pose proof (repaired acked j0 b p es s0 (versions s0) Hj Hk Htop Hs0 Hrec Hes ltac:(by left)) as R1.
  pose proof (repaired acked j0 b p es s0 [] Hj Hk Htop Hs0 Hrec Hes ltac:(by intros c ?%not_elem_of_nil)) as R2.
  apply (tri_bind _ _ _ (λ _ j, j = put p (mkSegment (flat es) (versions s0)) j0)).
  - apply tri_sys. intros j ->. rewrite Hf. split; [done|]. split; [done|]. split; [apply R1|]. split; [done|apply R1].
  - intros _. apply tri_sys. intros j ->. rewrite sync_put. cbn [sg_bytes].
    split; [split; [apply R2|split; [apply R2|split; [done|by exists es]]]|].
    split; [apply R1|]. split; [apply R2|]. split; [apply R1|apply R2].
Qed.

Lemma repairTail_tri acked b p :
  tri (λ j, inv acked j ∧ known acked j b ∧ 0 <= b ∧ top j p) (repairTail p) (λ _, between acked b (Some p)) (inv acked) (inv acked).
Proof.
  apply tri_at. intros j0 (Hj & Hk & Hb & Htop). pose proof (proj1 Htop) as [s0 Hs0]%elem_of_dom.
  destruct (iv_shape acked j0 Hj p s0 (sg_bytes s0) Hs0 ltac:(left)) as (es & t & Hbytes & Hes & Ht & Hinc).
  assert (records (sg_bytes s0) = es ++ finished t) as Hrec by (by rewrite Hbytes, records_flat).
  unfold repairTail. apply (tri_bind _ _ _ (λ c j, j = j0 ∧ c = sg_bytes s0)).
  { apply tri_read. intros j ->. split; [done|]. by apply bytes_of_lookup. }
  intros c. apply tri_at. intros ? [-> ->].
  assert (t = [] → between acked b (Some p) j0) as Hwhole.
  { intros ->. rewrite finished_nil, app_nil_r in Hrec. rewrite app_nil_r in Hbytes.
    assert (Forall stored es → ready acked j0 b p es) as R.
    { intros _. constructor; [done|done|done|by exists s0|done]. }
    split; [done|]. split; [done|]. split; [done|exists es; by apply R]. }
  destruct (is_empty (sg_bytes s0)) eqn:Eempty.
  { apply tri_ret. intros ? ->. apply Hwhole. destruct (sg_bytes s0); [|done]. symmetry in Hbytes. by apply app_eq_nil in Hbytes as [_ ->]. }
  destruct (decide (t = [])) as [Et|Et].
  { specialize (Hwhole Et). subst t. rewrite app_nil_r in Hbytes. rewrite Hbytes, whole_ends.
    - rewrite Ascii.eqb_refl. apply tri_ret. by intros ? ->.
    - intros ->. by rewrite Hbytes in Eempty. }
  destruct (repair_sees es t Ht Et) as ((a & Ha & Hane) & Hpart & Hreach & Hlen). rewrite Hbytes, Ha, Hane, Hpart, Hreach, Hlen.
  fold (complete t).
  destruct (complete_torn t Ht) as [[-> (e & He & Ee)]|[-> Hf]].
  - cbn [write_to].
    assert (∀ (m : io journal unit), tri (λ j, j = j0) (sys "write" (append_byte p newline);; m) (λ _, between acked b (Some p)) (inv acked) (inv acked) →
      tri (λ j, j = j0) ((sys "write" (append_byte p newline);; mret tt);; m) (λ _, between acked b (Some p)) (inv acked) (inv acked)) as Hassoc.
    { intros m Hm j fs Hjj. specialize (Hm j fs Hjj). by destruct fs as [|[] fs]. }
    apply Hassoc, (mend_tri acked b p (es ++ [e]) j0 s0); try done.
    + by rewrite Hrec, Ee, finished_encode.
    + apply Forall_app. split; [done|by constructor].
    + rewrite <- (put_same p s0 j0 Hs0) at 1. rewrite append_byte_put. unfold put. do 2 f_equal.
      rewrite Hbytes, Ee, flat_app. unfold flat at 3, line_of. cbn. by rewrite app_nil_r, <- app_assoc.
  - apply (mend_tri acked b p es j0 s0); try done.
    + by rewrite Hrec, Hf, app_nil_r.
    + rewrite <- (put_same p s0 j0 Hs0) at 1. rewrite cut_put. unfold put. do 2 f_equal. by rewrite Hbytes, take_app_length.
Qed.

(** ** A batch *)

(** What prepareAppend has checked of the event of a request. *)
Definition prepared (r : request) : Prop :=
  is_ok (Validate (ev_Binding (rq_Event r))) = true ∧ validKind (ev_Kind (rq_Event r)) = true
  ∧ ∀ seq raw, 0 < seq → rq_Random r = Some raw → json_text (stamped r seq raw).

Definition answers (r : request) e : Prop := ∃ seq raw, e = stamped r seq raw.

Lemma prepare_planned options requests b current items :
  0 <= b → Forall prepared requests → prepare_all options b current requests = Ok items →
  planned b (fst <$> current) items ∧ Forall2 (λ r item, answers r (pa_event item)) requests items.
Proof.
  intros Hb Hreq. revert b current items Hb. induction Hreq as [|r requests (Hv & Hkind & Hj) _ IH]; intros b current items Hb;
    cbn [prepare_all]; [intros [= <-]; split; [done|constructor]|].
  destruct (rq_Random r) as [raw|] eqn:Eraw; [|done]. cbv zeta.
  destruct (Z.ltb_spec MaxEventBytes (length_of (encode_event (stamped r (b + 1) raw) ++ [newline]))) as [|Hlen]; [done|].
  set (cur' := match current with Some _ => _ | None => _ end).
  assert (current = None ∧ cur'.1 = b + 1 ∨ ∃ p n, current = Some (p, n) ∧ (cur'.1 = p ∨ cur'.1 = b + 1)) as Hcur.
  { subst cur'. destruct current as [[p n]|]; [right|by left]. exists p, n. split; [done|]. case_match; [by right|by left]. }
  destruct cur' as [path size]. intros Hr. apply bind_Ok in Hr as (rest & Hrest & [= <-]).
  apply IH in Hrest as [Hplan Hall]; [|lia]. split; [|constructor; [by exists (b + 1), raw|done]].
  cbn [planned pa_event pa_data pa_path]. split; [done|]. split; [|split; [done|split; [|exact Hplan]]].
  - split; [apply Hj; [lia|done]|]. unfold length_of in Hlen |- *. rewrite length_app in Hlen. cbn [length] in Hlen. split; [|lia].
    unfold readable. cbn. rewrite Hv, Hkind. rewrite (proj2 (Z.ltb_lt _ _)) by lia. done.
  - cbn in Hcur. destruct Hcur as [[-> ->]|(p & n & -> & [->| ->])]; [by right|by left|by right].
Qed.

Lemma tri_look {A} (P : journal → Prop) (f : journal → result A) (Q : A → journal → Prop) E X :
  (∀ j, P j → match f j with Ok a => Q a j | Err _ => E j end) → tri P (λ j, io_lift (f j) j) Q E X.
Proof. intros Hf j fs Hj. specialize (Hf j Hj). by destruct (f j). Qed.

(** *** Retention *)

(** The segments are [l ++ rest], of which [rest] stays. *)
Definition removing acked (l rest : list Z) j : Prop :=
  inv acked j ∧ covered j ∧ StronglySorted Z.le (l ++ rest) ∧ NoDup (l ++ rest) ∧ (∀ n, n ∈ dom (j_segments j) ↔ n ∈ l ++ rest) ∧ rest ≠ [].

Lemma removing_step acked x l rest j : removing acked (x :: l) rest j → removing acked l rest (remove_segment x j).
Proof.
  intros (Hj & Hc & Hs & Hnd & Hdom & Hne). destruct rest as [|m rest]; [done|].
  cbn in Hs, Hnd. inversion Hs as [|? ? Hs' Hx]; subst. apply NoDup_cons in Hnd as [Hxn Hnd].
  rewrite Forall_forall in Hx.
  assert (m ∈ l ++ m :: rest) as Hm by (apply elem_of_app; right; left).
  assert (inv acked (remove_segment x j)) as Hinv.
  { apply (inv_remove acked j x m); [done|done|by apply Hdom, elem_of_cons; right| |].
    - pose proof (Hx m Hm). enough (x ≠ m) by lia. by intros ->.
    - intros n [->|Hn]%Hdom%elem_of_cons; [lia|by apply Hx]. }
  split; [done|]. split; [|split; [done|split; [done|split; [|done]]]].
  - intros n e (s & Hs1 & He). cbn in Hs1. apply lookup_delete_Some in Hs1 as [_ Hs1]. change (saved_seq _) with (saved_seq j).
    apply (Hc n). by exists s.
  - intros n. cbn. rewrite dom_delete_L, elem_of_difference, elem_of_singleton, Hdom. cbn. rewrite elem_of_cons. split; [naive_solver|].
    intros Hn. split; [by right|]. by intros ->.
Qed.

Lemma remove_all_tri acked l rest : tri (removing acked l rest) (remove_all l) (λ _, inv acked) (inv acked) (inv acked).
Proof.
  induction l as [|x l IH]; cbn [remove_all]; [apply tri_ret; by intros j [Hj _]|].
  apply (tri_bind _ _ _ (λ _, removing acked l rest)); [|intros _; exact IH]. apply tri_sys. intros j Hj. pose proof (removing_step _ _ _ _ _ Hj) as Hj'.
  split; [done|]. split; [apply Hj|]. split; [apply Hj'|]. split; [apply Hj|apply Hj'].
Qed.

(** The state is saved, and then covers every number in use. *)
Lemma save_tri acked b pruned size (P : journal → Prop) :
  0 <= b → 0 <= pruned → size <= 4096 → (∀ j j', j_segments j' = j_segments j → P j → P j') →
  tri (λ j, inv acked j ∧ bounded b j ∧ P j) (save_state (mkSequenceState b pruned) size)
    (λ _ j, inv acked j ∧ covered j ∧ bounded b j ∧ P j) (inv acked) (inv acked).
Proof.
  intros Hb Hpr Hsize HP j fs (Hj & [Hh Hs] & Hp).
  set (j' := j <| j_state := Some (mkFile size (Some (mkSequenceState b pruned))) |>).
  assert (inv acked j') as Hj' by by apply inv_saved.
  assert (inv acked j' ∧ covered j' ∧ bounded b j' ∧ P j') as Hdone.
  { split; [done|]. split; [|split; [split|]].
    - intros n e He. change (saved_seq j') with b. by apply (Hh n).
    - intros n e He. by apply (Hh n).
    - change (saved_seq j') with b. lia.
    - by apply (HP j). }
  destruct fs as [|[] fs]; cbn; first [exact Hdone|exact Hj'|exact Hj].
Qed.

Lemma retain_tri acked options st size :
  0 < op_Segments options → size <= 4096 → 0 <= sq_Seq st →
  tri (λ j, inv acked j ∧ bounded (sq_Seq st) j) (retain options st size) (λ _, inv acked) (inv acked) (inv acked).
Proof.
  intros Hopt Hsize Hst. unfold retain.
  eapply (tri_bind _ _ _ (λ files j, (inv acked j ∧ bounded (sq_Seq st) j) ∧ segments j = Ok files)).
  { apply tri_look. intros j Hj. destruct (segments j) eqn:E; [done|apply Hj]. }
  intros files. destruct (Z.ltb_spec (op_Segments options) (Z.of_nat (length files))) as [Hlt|Hle]; [|apply tri_ret; by intros j [[Hj _] _]].
  set (count := (length files - Z.to_nat (op_Segments options))%nat). cbv zeta.
  apply tri_at. intros j0 [[Hj Hb] Hf]. destruct (segments_sorted j0 files Hf) as (Hs & Hnd & Hin).
  assert (0 <= default 0 (files !! count) - 1) as Hpr.
  { destruct (lookup_lt_is_Some_2 files count) as [start Hstart]; [lia|]. rewrite Hstart. cbn.
    assert (start ∈ dom (j_segments j0)) as Hd by (apply Hin; by eapply list_elem_of_lookup_2).
    pose proof (iv_key acked j0 Hj start Hd). lia. }
  change (st <| sq_PrunedThrough := ?v |>) with (mkSequenceState (sq_Seq st) v).
  eapply tri_bind.
  - eapply tri_pre; [apply (save_tri acked (sq_Seq st) _ size (λ j, ∀ n, n ∈ dom (j_segments j) ↔ n ∈ files)); try done|].
    + intros j j' E. by rewrite E.
    + intros j ->. split; [done|]. split; [done|]. intros n. by rewrite Hin.
  - intros ?. eapply tri_pre; [apply (remove_all_tri acked (take count files) (drop count files))|].
    intros j (Hj' & Hc & _ & Hdom). unfold removing. rewrite take_drop. split; [done|]. split; [done|]. split; [done|]. split; [done|].
    split; [done|]. intros Hd. apply (f_equal length) in Hd. rewrite length_drop in Hd. cbn in Hd. lia.
Qed.

(** *** The batch *)

Definition delivered (results : list appendResult) : list Event := omap ar_event results.

Lemma delivered_failed {A} (l : list A) err : delivered (map (λ _, mkAppendResult None err) l) = [].
Proof. induction l as [|a l IH]; [done|]. exact IH. Qed.
Lemma delivered_done es late : delivered (map (λ e, mkAppendResult (Some e) late) es) = es.
Proof. induction es as [|e es IH]; [done|]. cbn. f_equal. exact IH. Qed.
Lemma delivered_app r r' : delivered (r ++ r') = delivered r ++ delivered r'.
Proof. apply omap_app. Qed.

Lemma numbered_app b es es' : numbered b (es ++ es') → numbered b es.
Proof. revert b. induction es as [|e es IH]; intros b; cbn; [done|]. intros [He Hes]. split; [done|by apply IH]. Qed.

(** What a batch answers: one result for each request, whose events are those
    requests under the next numbers. *)
Definition answered acked (requests : list request) (r : list appendResult * list Event) : Prop :=
  length r.1 = length requests ∧ r.2 = delivered r.1
  ∧ (∃ b, (∀ e, e ∈ acked → ev_Seq e <= b) ∧ numbered b (delivered r.1))
  ∧ ∀ i e err, r.1 !! i = Some (mkAppendResult (Some e) err) → ∃ rq, requests !! i = Some rq ∧ answers rq e.

Lemma answered_failed acked requests err : answered acked requests (fail_all requests err, []).
Proof.
  unfold answered, fail_all. cbn [fst snd]. rewrite length_map, delivered_failed. split_and!; [done|done| |].
  - exists (foldr (λ e b, Z.max (ev_Seq e) b) 0 acked). split; [|done]. intros e He.
    induction acked as [|x acked IH]; [by apply not_elem_of_nil in He|]. apply elem_of_cons in He as [->|He]; cbn; [lia|]. specialize (IH He). lia.
  - intros i e err' Hi. apply list_lookup_fmap_Some in Hi as (rq & [=] & _).
Qed.

(** The first half: the numbers and the segments are planned. *)
Definition plan (options : Options) (requests : list request) : io journal (sequenceState * list preparedAppend) :=
  files ← (λ j, io_lift (segments j) j);
  s ← (λ j, io_lift (state files j) j);
  io_lift (reject (max_uint64 - sq_Seq s <? Z.of_nat (length requests)) "activity sequence exhausted");;
  current ← match last files with
            | None => mret None
            | Some path => repairTail path;; n ← io_read (λ j, length_of (bytes_of path j)); mret (Some (path, n))
            end;
  items ← io_lift (prepare_all options (sq_Seq s) current requests);
  mret (s, items).

Lemma plan_tri acked options requests :
  Forall prepared requests →
  tri (inv acked) (plan options requests)
    (λ r j, ∃ current, between acked (sq_Seq r.1) current j ∧ planned (sq_Seq r.1) current r.2
                       ∧ Forall2 (λ rq item, answers rq (pa_event item)) requests r.2)
    (inv acked) (inv acked).
Proof.
  intros Hreq. unfold plan.
  apply (tri_bind _ _ _ (λ files j, inv acked j ∧ segments j = Ok files)).
  { apply tri_look. intros j Hj. by destruct (segments j). }
  intros files.
  apply (tri_bind _ _ _ (λ st j, inv acked j ∧ segments j = Ok files ∧ known acked j (sq_Seq st) ∧ 0 <= sq_Seq st)).
  { apply tri_look. intros j [Hj Hf]. destruct (state_known acked j files Hj Hf) as (st & -> & Hk & Hpos & _). done. }
  intros st.
  apply (tri_bind _ _ _ (λ _ j, inv acked j ∧ segments j = Ok files ∧ known acked j (sq_Seq st) ∧ 0 <= sq_Seq st)).
  { apply tri_lift; [done|by intros j [Hj _]]. }
  intros _.
  apply (tri_bind _ _ _ (λ current j, between acked (sq_Seq st) (fst <$> current) j)).
  { destruct (last files) as [p|] eqn:Hlast.
    - apply (tri_bind _ _ _ (λ _, between acked (sq_Seq st) (Some p))).
      { eapply tri_pre; [apply repairTail_tri|]. intros j (Hj & Hf & Hk & Hpos). split; [done|]. split; [done|]. split; [done|by eapply segments_last]. }
      intros _. apply (tri_bind _ _ _ (λ _, between acked (sq_Seq st) (Some p))); [by apply tri_read|].
      intros n. by apply tri_ret.
    - apply tri_ret. intros j (Hj & Hf & Hk & Hpos). split; [done|]. split; [done|]. split; [done|]. cbn.
      apply last_None in Hlast as ->. destruct (segments_sorted j [] Hf) as (_ & _ & Hin).
      apply set_eq. intros n. by rewrite <- Hin, elem_of_nil, elem_of_empty. }
  intros current.
  apply (tri_bind _ _ _ (λ items j, between acked (sq_Seq st) (fst <$> current) j ∧ 0 <= sq_Seq st ∧
    prepare_all options (sq_Seq st) current requests = Ok items)).
  { apply tri_lift; [|by intros j [Hj _]]. intros items E j Hj. split; [done|]. split; [apply Hj|done]. }
  intros items. apply tri_ret. intros j (Hj & Hpos & E). exists (fst <$> current). split; [done|].
  by eapply prepare_planned.
Qed.

Lemma append_batch_plan options size requests :
  append_batch options size requests =
  (planned ← io_try (plan options requests);
   match planned with
   | Err e => mret (fail_all requests e, [])
   | Ok (s, items) =>
       written ← write_groups (length items) items;
       let '(succeeded, err) := written in
       let events := map pa_event succeeded in
       let failed := map (λ _, mkAppendResult None err) (drop (length succeeded) items) in
       if is_empty succeeded then mret (failed, [])
       else
         kept ← io_try (retain options (s <| sq_Seq := sq_Seq s + Z.of_nat (length requests) |>) size);
         let late := match kept with Ok _ => None | Err e => Some e end in
         mret (map (λ e, mkAppendResult (Some e) late) events ++ failed, events)
   end).
Proof. reflexivity. Qed.

Lemma append_batch_tri acked options size requests :
  Forall prepared requests → 0 < op_Segments options → size <= 4096 →
  tri (inv acked) (append_batch options size requests)
    (λ r j, inv (delivered r.1 ++ acked) j ∧ answered acked requests r) (λ _, False) (inv acked).
Proof.
  intros Hreq Hopt Hsize. rewrite append_batch_plan.
  eapply tri_bind; [by apply tri_try, plan_tri|]. intros [[st items]|e].
  2: { apply tri_ret. intros j Hj. split; [|apply answered_failed]. unfold fail_all. cbn [fst]. by rewrite delivered_failed. }
  cbn [fst snd]. apply tri_exists. intros current. apply tri_at. intros j0 (Hbetween & Hplan & Hall).
  assert (0 <= sq_Seq st) as Hst by apply Hbetween.
  assert (∀ e, e ∈ acked → ev_Seq e <= sq_Seq st) as Hacked by (intros e; apply Hbetween).
  pose proof (planned_numbered _ _ _ Hplan) as Hnum. pose proof (Forall2_length _ _ _ Hall) as Hlen.
  eapply tri_bind.
  { eapply tri_conseq; [apply (write_groups_tri (length items) acked (sq_Seq st) current items); done|by intros j ->|intros ? j Hj; exact Hj|done|done]. }
  intros [succeeded err]. cbn [fst snd]. apply tri_at. intros j1 (Hj & Hb & rest & Eitems & _).
  assert (∀ late, answered acked requests
    (map (λ e, mkAppendResult (Some e) late) (events_of succeeded) ++ map (λ _, mkAppendResult None err) (drop (length succeeded) items),
     events_of succeeded)) as Hanswered.
  { intros late. unfold answered. cbn [fst snd]. rewrite delivered_app, delivered_done, delivered_failed, app_nil_r. split_and!.
    - rewrite length_app, !length_map, length_drop, Hlen, Eitems, length_app. unfold events_of. rewrite length_map. lia.
    - done.
    - exists (sq_Seq st). split; [done|]. rewrite Eitems in Hnum. unfold events_of in Hnum. rewrite map_app in Hnum. by apply numbered_app in Hnum.
    - intros i e err' Hi. apply lookup_app_Some in Hi as [Hi|[_ Hi]]; [|by apply list_lookup_fmap_Some in Hi as (? & [=] & _)].
      apply list_lookup_fmap_Some in Hi as (x & [= -> _] & Hx). apply list_lookup_fmap_Some in Hx as (item & -> & Hitem).
      destruct (Forall2_lookup_r _ _ _ i item Hall) as (rq & Hrq & Ha); [by rewrite Eitems, lookup_app_l by by eapply lookup_lt_Some|].
      by exists rq. }
  destruct (is_empty succeeded) eqn:Eempty.
  { destruct succeeded; [|done]. apply tri_ret. intros ? ->. split; [|exact (Hanswered None)].
    cbn [fst]. by rewrite delivered_failed. }
  eapply tri_bind.
  { apply tri_try. eapply tri_conseq; [apply (retain_tri (events_of succeeded ++ acked)); [done|done|]| |intros ? j H'; exact H'|intros j H'; exact H'|].
    - cbn. lia.
    - intros ? ->. cbn. split; [done|]. by rewrite Hlen.
    - intros j H'. eapply inv_acked_sub; [exact H'|]. set_solver. }
  intros kept. apply tri_ret. intros j Hj'. split; [|apply Hanswered]. cbn [fst].
  rewrite delivered_app, delivered_failed, app_nil_r, delivered_done. by destruct kept.
Qed.

(** ** Cleanup *)

Definition tidy acked (b : Z) (files : list Z) j : Prop :=
  inv acked j ∧ bounded b j ∧ StronglySorted Z.le files ∧ NoDup files ∧ ∀ n, n ∈ dom (j_segments j) ↔ n ∈ files.

Lemma cleanup_loop_tri acked (expired : Z → bool) b pruned size files :
  0 <= b → size <= 4096 →
  tri (tidy acked b files) (cleanup_loop expired (mkSequenceState b pruned) size files) (λ _, inv acked) (inv acked) (inv acked).
Proof.
  intros Hb Hsize. revert pruned. induction files as [|path files IH]; intros pruned; cbn [cleanup_loop]; [apply tri_ret; by intros j [Hj _]|].
  destruct files as [|next rest]; [apply tri_ret; by intros j [Hj _]|].
  destruct (expired path); [|apply tri_ret; by intros j [Hj _]]. cbv zeta.
  change ((mkSequenceState b pruned) <| sq_PrunedThrough := next - 1 |>) with (mkSequenceState b (next - 1)).
  apply tri_at. intros j0 (Hj & Hbound & Hs & Hnd & Hdom).
  assert (0 <= next - 1) as Hpr.
  { assert (next ∈ dom (j_segments j0)) as Hn by (apply Hdom; right; left). pose proof (iv_key acked j0 Hj next Hn). lia. }
  apply (tri_bind _ _ _ (λ _ j, inv acked j ∧ covered j ∧ bounded b j ∧ ∀ n, n ∈ dom (j_segments j) ↔ n ∈ path :: next :: rest)).
  { eapply tri_pre; [apply (save_tri acked b (next - 1) size (λ j, ∀ n, n ∈ dom (j_segments j) ↔ n ∈ path :: next :: rest)); try done|].
    - intros j j' E. by rewrite E.
    - by intros ? ->. }
  intros _. apply (tri_bind _ _ _ (λ _, tidy acked b (next :: rest))).
  - apply tri_sys. intros j (Hj' & Hc & Hbd & Hdom').
    assert (removing acked [path] (next :: rest) j) as Hrem by (split; [done|split; [done|split; [done|split; [done|by split]]]]).
    apply removing_step in Hrem as (Hr & _ & Hs' & Hnd' & Hdom'' & _).
    split; [|by split; [|split; [|split]]]. split; [done|]. split; [|split; [done|split; [done|exact Hdom'']]].
    destruct Hbd as [Hh Hsv]. split; [|done]. intros n e (s & Hls & He). cbn in Hls. apply lookup_delete_Some in Hls as [_ Hls].
    apply (Hh n). by exists s.
  - intros _. apply (tri_bind _ _ _ (λ _, inv acked)); [apply IH|]. intros n. by apply tri_ret.
Qed.

Lemma Cleanup_tri acked before now expired size :
  size <= 4096 → tri (inv acked) (Cleanup before now expired size) (λ _, inv acked) (inv acked) (inv acked).
Proof.
  intros Hsize. unfold Cleanup. apply (tri_bind _ _ _ (λ _, inv acked)); [by apply tri_lift|]. intros _.
  apply (tri_bind _ _ _ (λ files j, inv acked j ∧ segments j = Ok files)); [apply tri_look; intros j Hj; by destruct (segments j)|].
  intros files.
  apply (tri_bind _ _ _ (λ st j, tidy acked (sq_Seq st) files j ∧ 0 <= sq_Seq st)).
  { apply tri_look. intros j [Hj Hf]. destruct (state_known acked j files Hj Hf) as (st & -> & Hk & Hpos & _).
    destruct (segments_sorted j files Hf) as (Hs & Hnd & Hin). split; [|done]. split; [done|]. split; [split; apply Hk|].
    split; [done|]. split; [done|]. intros n. by rewrite Hin. }
  intros [b pruned]. apply tri_at. intros j0 [Ht Hb].
  eapply tri_pre; [by apply (cleanup_loop_tri acked expired b pruned size files)|]. by intros ? ->.
Qed.

(** ** Losses of power *)

(** The newest segment may hold any of its versions; the others were synced. *)
Record power_loss j j' : Prop := {
  pl_state : j_state j' = j_state j;
  pl_older : ∀ n s, j_segments j !! n = Some s → ¬ top j n → sg_past s = [] ∧ j_segments j' !! n = Some s;
  pl_newest : ∀ p s, j_segments j !! p = Some s → top j p → ∃ c, c ∈ versions s ∧ j_segments j' !! p = Some (mkSegment c []);
  pl_dom : dom (j_segments j') = dom (j_segments j);
}.

Lemma power_loss_inv acked j j' : power_loss j j' → inv acked j → inv acked j'.
Proof.
  intros L Hj.
  assert (∀ n s', j_segments j' !! n = Some s' → ∃ s, j_segments j !! n = Some s ∧ (∀ c, c ∈ versions s' → c ∈ versions s)
    ∧ (¬ top j n → s' = s)
    ∧ (∀ e, e ∈ records (sg_bytes s') → e ∈ records (sg_bytes s)) ∧ sg_past s' = []) as Hold.
  { intros n s' Hs'. assert (n ∈ dom (j_segments j)) as [s Hs]%elem_of_dom by (rewrite <- (pl_dom j j' L); apply elem_of_dom; eauto).
    exists s. split; [done|]. destruct (decide (Forall (λ m, m <= n) (elements (dom (j_segments j))))) as [Ht|Ht].
    - assert (top j n) as Htop.
      { split; [apply elem_of_dom; eauto|]. intros m Hm%elem_of_elements. by eapply Forall_forall in Ht. }
      destruct (pl_newest j j' L n s Hs Htop) as (c & Hc & E). assert (s' = mkSegment c []) as -> by congruence.
      split; [|split; [done|split; [|done]]].
      + by intros d ->%list_elem_of_singleton.
      + intros e He. by eapply (iv_past acked j Hj n s c).
    - assert (¬ top j n) as Htop.
      { intros [_ Htop]. apply Ht, Forall_forall. intros m Hm%elem_of_elements. by apply Htop. }
      destruct (pl_older j j' L n s Hs Htop) as [Hp E]. assert (s' = s) as -> by congruence. done. }
  assert (∀ n e, has j' n e → has j n e) as Hhas.
  { intros n e (s' & Hs' & He). destruct (Hold n s' Hs') as (s & Hs & _ & _ & Hsub & _). exists s. auto. }
  constructor; rewrite ?(pl_dom j j' L).
  - intros f. rewrite (pl_state j j' L). apply (iv_state acked j Hj).
  - apply (iv_key acked j Hj).
  - intros n s' c Hs' Hc. destruct (Hold n s' Hs') as (s & Hs & Hv & _). eapply iv_shape; eauto.
  - intros n s' c e Hs' Hc He. destruct (Hold n s' Hs') as (_ & _ & _ & _ & _ & Hp). unfold versions in Hc. rewrite Hp in Hc.
    by apply list_elem_of_singleton in Hc as ->.
  - intros n e He%Hhas. by eapply iv_from.
  - intros n m e He%Hhas. by apply (iv_below acked j Hj).
  - intros n Hn. unfold saved_seq. rewrite (pl_state j j' L). destruct (iv_floor acked j Hj n Hn) as [Hf|(m & e & Hm & He & Hf)]; [by left|right].
    exists m, e. split; [done|]. split; [|done]. destruct He as (s & Hs & He). exists s. split; [|done].
    apply (pl_older j j' L m s Hs). intros [_ Htop]. specialize (Htop n Hn). lia.
  - intros e He. unfold saved_seq. rewrite (pl_state j j' L). destruct (iv_acked acked j Hj e He) as [(n & s & Hs & Ha)|Hp]; [left|by right].
    assert (n ∈ dom (j_segments j')) as [s' Hs']%elem_of_dom by (rewrite (pl_dom j j' L); apply elem_of_dom; eauto).
    exists n, s'. split; [done|]. destruct (Hold n s' Hs') as (s2 & Hs2 & Hv & _). assert (s2 = s) as -> by congruence. auto.
Qed.

(** ** Histories

    Batches, cleanups and losses of power, in any order and with any faults;
    a process that dies is followed by another one. *)
Inductive history : list Event → journal → Prop :=
  | history_new : history [] no_journal
  | history_append acked j options size requests fs r :
      history acked j → Forall prepared requests → 0 < op_Segments options → size <= 4096 →
      run_outcome (append_batch options size requests j fs) = Done r →
      history (delivered r.1 ++ acked) (run_disk (append_batch options size requests j fs))
  | history_death acked j options size requests fs :
      history acked j → Forall prepared requests → 0 < op_Segments options → size <= 4096 →
      run_outcome (append_batch options size requests j fs) = Dead →
      history acked (run_disk (append_batch options size requests j fs))
  | history_cleanup acked j before now expired size fs :
      history acked j → size <= 4096 →
      history acked (run_disk (Cleanup before now expired size j fs))
  | history_power acked j j' :
      history acked j → power_loss j j' → history acked j'.

Lemma history_inv acked j : history acked j → inv acked j.
Proof.
  induction 1 as [|acked j options size requests fs r _ IH Hreq Hopt Hsize Hr|acked j options size requests fs _ IH Hreq Hopt Hsize Hr
    |acked j before now expired size fs _ IH Hsize|acked j j' _ IH L].
  - apply inv_new.
  - pose proof (append_batch_tri acked options size requests Hreq Hopt Hsize j fs IH) as Ht. rewrite Hr in Ht. apply Ht.
  - pose proof (append_batch_tri acked options size requests Hreq Hopt Hsize j fs IH) as Ht. by rewrite Hr in Ht.
  - pose proof (Cleanup_tri acked before now expired size Hsize j fs IH) as Ht. by destruct (run_outcome _).
  - by eapply power_loss_inv.
Qed.

(** The events that a reader finds in the journal, segment after segment. *)
Definition journal_events (files : list Z) j : list Event := concat (map (λ path, records (bytes_of path j)) files).

Lemma elem_of_journal files j e : e ∈ journal_events files j ↔ ∃ n, n ∈ files ∧ has j n e.
Proof.
  unfold journal_events. rewrite list_elem_of_In, in_concat. setoid_rewrite in_map_iff. setoid_rewrite <- list_elem_of_In. split.
  - intros (l & (n & <- & Hn) & He). exists n. split; [done|]. unfold bytes_of in He. destruct (j_segments j !! n) as [s|] eqn:E.
    + by exists s.
    + by apply not_elem_of_nil in He.
  - intros (n & Hn & s & Hs & He). exists (records (bytes_of n j)). split; [by exists n|]. by rewrite (bytes_of_lookup j n s).
Qed.

Lemma journal_increasing acked j files :
  inv acked j → StronglySorted Z.le files → NoDup files → (∀ n, n ∈ files → n ∈ dom (j_segments j)) → increasing (journal_events files j).
Proof.
  intros Hj Hs Hnd Hin. induction Hs as [|p files Hs IH Hp]; [constructor|]. apply NoDup_cons in Hnd as [Hpn Hnd].
  unfold journal_events. cbn [map concat]. fold (journal_events files j). apply StronglySorted_app_2.
  - intros x y Hx (n & Hn & Hy)%elem_of_journal. cbn.
    assert (has j p x) as Hhx.
    { unfold bytes_of in Hx. destruct (j_segments j !! p) as [s|] eqn:E; [by exists s|by apply not_elem_of_nil in Hx]. }
    eapply Forall_forall in Hp; [|exact Hn]. assert (p ≠ n) by (by intros ->).
    pose proof (iv_below acked j Hj p n x Hhx (has_dom _ _ _ Hy) ltac:(lia)). pose proof (iv_from acked j Hj n y Hy). lia.
  - assert (p ∈ dom (j_segments j)) as [s Hps]%elem_of_dom by (apply Hin; left). rewrite (bytes_of_lookup j p s Hps).
    apply shape_records. eapply (iv_shape acked j Hj); [done|left].
  - apply IH; [done|]. intros n Hn. apply Hin. by right.
Qed.

(** C4: Whatever happens to the journal - batches that succeed, fail in the middle of a line or of a segment, or die with
    the process, rotation, retention and cleanup, losses of power - a store that opens it finds a readable state, reads
    its events in strictly increasing order, and finds every event that was acknowledged to a caller, unless the event
    is at or below the number through which the journal says that it is pruned; and the number from which it goes on is
    not below any acknowledged one. *)
Theorem acknowledged_events_survive acked j files :
  history acked j → segments j = Ok files →
  ∃ st, state files j = Ok st
    ∧ increasing (journal_events files j)
    ∧ ∀ e, e ∈ acked → (e ∈ journal_events files j ∨ ev_Seq e <= sq_PrunedThrough st) ∧ ev_Seq e <= sq_Seq st.
Proof.
  intros Hh Hf. pose proof (history_inv acked j Hh) as Hj. destruct (segments_sorted j files Hf) as (Hs & Hnd & Hin).
  destruct (state_known acked j files Hj Hf) as (st & Hst & Hk & _ & Hpr). exists st. split; [done|].
  split; [apply (journal_increasing acked); try done; by intros n ?%Hin|]. intros e He. split; [|by apply Hk].
  destruct (iv_acked acked j Hj e He) as [(n & s & Hn & Ha)|(_ & Hne & Ha)]; [left|right].
  - apply elem_of_journal. exists n. split; [apply Hin, elem_of_dom; eauto|]. exists s. split; [done|apply Ha; left].
  - destruct (Hpr (ev_Seq e + 1)) as [Hle|Hnone]; [|lia|done]. intros m Hm. specialize (Ha m Hm). lia.
Qed.
End Spec.
