(* ===== verification/ActivityRedact.v ===== *)
(** * ActivityRedact: what is kept out of the journal

    internal/activity/redact.go, and prepareAppend of store.go: texts are
    rewritten before they are recorded, so that secrets do not reach the disk.
    What the patterns of secretPatterns match is the answer of the package
    regexp, the class [SecretPatterns]. *)

From S2P Require Import Prelude GoText Durable Binding Metadata ActivityEvent ActivityCalls ActivityLog.
Local Open Scope Z_scope.

Definition PayloadPreviewBytes : Z := 2048.

(** ** Texts *)

Definition redacted : list ascii := bytes "[REDACTED]".

(** strings.ReplaceAll of a value that is not empty; [skip] bytes of a match are left. *)
Fixpoint replace_from (old : list ascii) (skip : nat) (l : list ascii) : list ascii :=
  match l with
  | [] => []
  | a :: l' =>
      match skip with
      | S skip => replace_from old skip l'
      | O => if has_prefix l old then redacted ++ replace_from old (pred (length old)) l' else a :: replace_from old 0 l'
      end
  end.
Definition ReplaceAll (old l : list ascii) : list ascii := replace_from old 0 l.

(** A pattern cuts a text into parts, [true] being matches. *)
Class SecretPatterns : Type := mkSecretPatterns {
  secretPatterns : list (list ascii → list (bool * list ascii));
  secretPatterns_parts : ∀ pattern l, pattern ∈ secretPatterns → concat (map snd (pattern l)) = l;
}.
Definition ReplaceAllString (pattern : list ascii → list (bool * list ascii)) (l : list ascii) : list ascii :=
  concat (map (λ part : bool * list ascii, if part.1 then redacted else part.2) (pattern l)).

(** strings.ToValidUTF8 with U+FFFD for every run of invalid bytes. *)
Definition replacement : list ascii := encode_rune rune_error.
Fixpoint valid_chunks (cs : list chunk) (in_run : bool) : list ascii :=
  match cs with
  | [] => []
  | c :: cs =>
      if ch_valid c then ch_bytes c ++ valid_chunks cs false
      else (if in_run then [] else replacement) ++ valid_chunks cs true
  end.
Definition ToValidUTF8 (l : list ascii) : list ascii := valid_chunks (chunks l) false.

(** ** The redactor *)

Record Redactor : Type := mkRedactor { rd_values : list (list ascii) }.

Definition longer (a b : list ascii) : bool := (length b <? length a)%nat.

Section Redactor.
Context `{MapOrder} `{SecretPatterns}.

Definition NewRedactor (values : list string) : Redactor :=
  mkRedactor (sort_by longer (map bytes (iterate (list_to_set (filter (λ v, v ≠s "") values))))).
Definition WithSecrets (r : Redactor) (values : list string) : Redactor := NewRedactor (map of_bytes (rd_values r) ++ values).

Definition redact (r : Redactor) (value : list ascii) : list ascii :=
  ToValidUTF8 (foldl (λ l pattern, ReplaceAllString pattern l) (foldl (λ l secret, ReplaceAll secret l) value (rd_values r)) secretPatterns).
Definition redact_text (r : Redactor) (value : string) (limit : Z) : string :=
  Text (SafeTruncateString (of_bytes (redact r (bytes value))) limit).

Definition redact_payload (r : Redactor) (payload : Payload) : Payload :=
  Payload_clone true payload <| py_Preview ::= λ t, redact_text r t PayloadPreviewBytes |> <| py_Reason ::= λ t, redact_text r t 512 |>.

Definition redact_file (r : Redactor) (file : AffectedFile) : AffectedFile :=
  file <| af_Path ::= λ t, redact_text r t 512 |> <| af_MoveTo ::= λ t, redact_text r t 512 |>
       <| af_Operation ::= λ t, redact_text r t 32 |>.

(** The second check of the number of files never holds. *)
Definition redact_edit (r : Redactor) (edit : FileEditDetails) : FileEditDetails :=
  let many := (Z.to_nat MaxRecordedAffectedFiles <? length (fe_AffectedFiles edit))%nat in
  let bounded := if many then edit <| fe_AffectedFiles ::= take (Z.to_nat MaxRecordedAffectedFiles) |> <| fe_FilesTruncated := true |> else edit in
  let detail := FileEditDetails_clone true bounded in
  detail <| fe_Action ::= λ t, redact_text r t 32 |> <| fe_Path ::= λ t, redact_text r t 512 |> <| fe_NewPath ::= λ t, redact_text r t 512 |>
         <| fe_AffectedFiles ::= map (redact_file r) |>
         <| fe_DiffTruncated ::= λ b, b || (2048 <? len (fe_DiffPreview detail)) |> <| fe_DiffPreview ::= λ t, redact_text r t 2048 |>.

Definition redact_event (r : Redactor) (e : Event) : Event :=
  e <| ev_Request ::= fmap (redact_payload r) |> <| ev_Response ::= fmap (redact_payload r) |> <| ev_OutputSource ::= fmap (redact_payload r) |>
    <| ev_FileEdit ::= fmap (redact_edit r) |>
    <| ev_Binding ::= λ b, b <| xs_Label ::= λ t, redact_text r t 512 |> |>
    <| ev_Title ::= λ t, redact_text r t 512 |> <| ev_ParameterSummary ::= λ t, redact_text r t 4096 |>
    <| ev_DisplayCommand ::= λ t, redact_text r t 4096 |> <| ev_Workdir ::= λ t, redact_text r t 2048 |>
    <| ev_LogicalPath ::= λ t, redact_text r t 2048 |> <| ev_ResolvedPath ::= λ t, redact_text r t 2048 |>
    <| ev_StdoutTruncated ::= λ b, b || (MaxPreviewBytes <? len (ev_OutputPreview e)) |>
    <| ev_StderrTruncated ::= λ b, b || (MaxPreviewBytes <? len (ev_StderrPreview e)) |>
    <| ev_OutputPreview ::= λ t, redact_text r t MaxPreviewBytes |> <| ev_StderrPreview ::= λ t, redact_text r t MaxPreviewBytes |>
    <| ev_Summary ::= λ t, redact_text r t 4096 |>.
End Redactor.

(** ** prepareAppend (store.go, append_validation.go) *)

Section Prepare.
Context `{EventCodec} `{SecretPatterns}.

(** The year 9999, in nanoseconds. *)
Definition last_time : Time := 253402300799999999999.
Definition widest (e : Event) : Event :=
  e <| ev_SchemaVersion := SchemaVersion |> <| ev_Seq := max_uint64 |> <| ev_EventID := "evt_ffffffffffffffffffffffff" |>
    <| ev_CreatedAt := last_time |>.
Definition validatePreparedAppend (e : Event) : result unit :=
  reject (MaxEventBytes <? length_of (encode_event (widest e)) + 1) "activity event exceeds size limit".

(** [first] and [last] are the errors of the context at the two looks at it. *)
Definition prepareAppend (r : Redactor) (first last : option string) (e : Event) : result Event :=
  or_reject (match first with None => Some tt | Some _ => None end) (default "" first);;
  Validate (ev_Binding e);;
  reject (negb (validKind (ev_Kind e))) "invalid activity kind";;
  validateRawAppend e;;
  let e := redact_event r e in
  validatePreparedAppend e;;
  reject ((160 <? len (ev_ToolName e)) || (80 <? len (ev_SessionID e)) || (32 <? len (ev_Runtime e)) || (32 <? len (ev_Status e)))
    "activity metadata is too long";;
  match last with None => Ok e | Some err => Err err end.
End Prepare.

(** ** The lines of a process

    What a process writes comes in pieces; whole lines are passed on, none of a
    private key, within MaxPreviewBytes for each piece. *)

Record LineBuffer : Type := mkLineBuffer {
  lb_pending : list ascii;
  lb_discarding : bool;
  lb_privateKey : bool;
}.
#[export] Instance LineBuffer_eta : Eta LineBuffer := λ b, mkLineBuffer (lb_pending b) (lb_discarding b) (lb_privateKey b).

Definition new_buffer : LineBuffer := mkLineBuffer [] false false.

(** strings.Cut at newlines until nothing is left: the lines, and whether each
    is complete. *)
Fixpoint cut_lines (parts : list (list ascii)) : list (list ascii * bool) :=
  match parts with
  | [] => []
  | [part] => if is_empty part then [] else [(part, false)]
  | part :: parts => (part, true) :: cut_lines parts
  end.

Definition begins_key (line : list ascii) : bool := contains_at line (bytes "-----BEGIN ") && contains_at line (bytes "PRIVATE KEY-----").
Definition ends_key (line : list ascii) : bool := contains_at line (bytes "-----END ") && contains_at line (bytes "PRIVATE KEY-----").

(** One turn of the loop that reads a line to its end: the buffer, what is
    written, and whether the line was left out. *)
Definition feed_line (line : list ascii) (complete : bool) (written : Z) (b : LineBuffer) : LineBuffer * list ascii * bool :=
  let b := if begins_key line then b <| lb_privateKey := true |> else b in
  let '(b, out, cut) :=
    if lb_privateKey b then (if ends_key line then b <| lb_privateKey := false |> else b, [], true)
    else if negb (lb_discarding b) && (length_of line <=? MaxPreviewBytes) && (written + length_of line + 1 <=? MaxPreviewBytes)
    then (b, line ++ (if complete then [newline] else []), false)
    else (b, [], true) in
  (b <| lb_discarding := false |>, out, cut).

(** The turn that keeps the beginning of a line for the next piece. *)
Definition hold_line (line : list ascii) (b : LineBuffer) : LineBuffer * bool :=
  if MaxPreviewBytes <? length_of line then (b <| lb_discarding := true |>, true)
  else (if lb_discarding b then b else b <| lb_pending := line |>, false).

Fixpoint feed_lines (final : bool) (lines : list (list ascii * bool)) (b : LineBuffer) (out : list ascii) (truncated : bool) :
    LineBuffer * list ascii * bool :=
  match lines with
  | [] => (b, out, truncated)
  | (line, complete) :: lines =>
      if negb complete && negb final then let '(b, cut) := hold_line line b in (b, out, truncated || cut)
      else let '(b, more, cut) := feed_line line complete (length_of out) b in feed_lines final lines b (out ++ more) (truncated || cut)
  end.

Definition Feed (text : list ascii) (final : bool) (b : LineBuffer) : LineBuffer * list ascii * bool :=
  feed_lines final (cut_lines (parts (lb_pending b ++ text))) (b <| lb_pending := [] |>) [] false.
