(* ===== verification/ActivityStore.v ===== *)
(** * ActivityStore: reading the journal (internal/activity/store.go, calls.go)

    Pages of events, and the projection of the calls: rebuilt from the journal,
    or kept in memory and told of every append. *)

From S2P Require Import Prelude GoText Durable Binding Metadata ActivityEvent ActivityCalls ActivityView ActivityLog.
Local Open Scope Z_scope.

(** [n] decimal digits, the format [%0<n>d], and the name of a segment. *)
Fixpoint decimal_digits (n : nat) (x : Z) : string :=
  match n with
  | O => ""
  | S n => decimal_digits n (x / 10) +:+ of_bytes [ascii_of_N (48 + Z.to_N (x mod 10))]
  end.
Definition segment_name (path : Z) : string := decimal_digits 20 path +:+ ".jsonl".

(** ** Pages of events *)

Record Query : Type := mkQuery {
  jq_MilestonesOnly : bool;
  jq_ConversationID : string;
  jq_CallID : string;
  jq_TaskID : string;
  jq_ThreadID : string;
  jq_After : Z;
  jq_Limit : Z;
}.
#[export] Instance Query_eta : Eta Query := λ q,
  mkQuery (jq_MilestonesOnly q) (jq_ConversationID q) (jq_CallID q) (jq_TaskID q) (jq_ThreadID q) (jq_After q) (jq_Limit q).

Record Page : Type := mkPage {
  jp_Events : list Event;
  jp_NextSeq : Z;
  jp_LatestSeq : Z;
  jp_PrunedThrough : Z;
  jp_HasMore : bool;
  jp_Gap : bool;
  jp_Warnings : list string;
}.
#[export] Instance Page_eta : Eta Page := λ p,
  mkPage (jp_Events p) (jp_NextSeq p) (jp_LatestSeq p) (jp_PrunedThrough p) (jp_HasMore p) (jp_Gap p) (jp_Warnings p).

Definition milestone (kind : string) : bool := existsb (HasPrefix kind) ["task."; "step."; "review."; "thread."].

(** Whether a query asks for an event. *)
Definition asks_for (q : Query) (e : Event) : bool :=
  negb (differs (jq_TaskID q) (ev_TaskID e) || differs (jq_ThreadID q) (ev_ThreadID e)
        || differs (jq_ConversationID q) (ev_ConversationID e) || differs (jq_CallID q) (ev_CallID e))
  && (negb (jq_MilestonesOnly q) || milestone (ev_Kind e)).

Definition query_limit (q : Query) : Z :=
  if (jq_Limit q <=? 0) || (MaxQueryEvents <? jq_Limit q) then MaxQueryEvents else jq_Limit q.

Definition visit_event (q : Query) (e : Event) (page : Page) : Page * bool :=
  if (ev_Seq e <=? jq_After q) || (ev_Seq e <=? jp_PrunedThrough page) then (page, true)
  else if negb (asks_for q e) then (page <| jp_NextSeq := ev_Seq e |>, true)
  else if Z.of_nat (length (jp_Events page)) =? query_limit q then (page <| jp_HasMore := true |>, false)
  else (page <| jp_Events ::= λ l, l ++ [e] |> <| jp_NextSeq := ev_Seq e |>, true).

Section Store.
Context `{EventCodec}.

(** The loop over the segments. *)
Fixpoint visit_segments (q : Query) (j : journal) (files : list Z) (page : Page) : Page :=
  match files with
  | [] => page
  | path :: rest =>
      let passed := match rest with next :: _ => next <=? jq_After q | [] => false end in
      if passed then visit_segments q j rest page
      else
        let '(page, warning) := scanEvents (visit_event q) (bytes_of path j) page in
        let page := if (warning : bool) && (length (jp_Warnings page) <? 8)%nat
                    then page <| jp_Warnings ::= λ w, w ++ ["Skipped incomplete or damaged activity records in " +:+ segment_name path] |>
                    else page in
        if jp_HasMore page then page else visit_segments q j rest page
  end.

Definition run_query (q : Query) (j : journal) : result Page :=
  Validate (no_binding <| xs_TaskID := jq_TaskID q |> <| xs_ThreadID := jq_ThreadID q |>
                       <| xs_ConversationID := jq_ConversationID q |> <| xs_CallID := jq_CallID q |>);;
  files ← segments j;
  s ← state files j;
  let page := mkPage [] (jq_After q) (sq_Seq s) (sq_PrunedThrough s) false
                ((0 <? jq_After q) && (jq_After q <? sq_PrunedThrough s)) [] in
  if sq_Seq s <=? jq_After q then Ok page
  else
    let page := visit_segments q j files page in
    Ok (if jp_HasMore page then page else page <| jp_NextSeq := sq_Seq s |>).

(** ** The projection of the store *)

Definition damaged_warning (path : Z) : string :=
  "Skipped damaged records in " +:+ segment_name path +:+ "; the retained history is incomplete.".
Definition reserved_numbers : string :=
  "The journal reserved sequence numbers without a corresponding retained event.".

(** The loop over the segments when the projection is rebuilt. *)
Fixpoint project_segments (pruned : Z) (j : journal) (files : list Z) (p : callProjection) : callProjection :=
  match files with
  | [] => p
  | path :: rest =>
      let '(p, damaged) := scanEvents (λ e p, (if pruned <? ev_Seq e then apply p e else p, true)) (bytes_of path j) p in
      project_segments pruned j rest (if (damaged : bool) then warning (damaged_warning path) p else p)
  end.

Definition rebuild (s : sequenceState) (files : list Z) (j : journal) : callProjection :=
  let p := newCallProjection <| cp_pruned := sq_PrunedThrough s |> <| cp_seq := sq_PrunedThrough s |> in
  let p := project_segments (sq_PrunedThrough s) j files p in
  let p := if cp_seq p <? sq_Seq s then warning reserved_numbers p else p in
  p <| cp_seq := sq_Seq s |>.

(** projectionLocked: from the projection that is kept, [items] being the
    management data. *)
Definition projectionLocked (items : gmap string CallManagement) (kept : option callProjection) (j : journal) : result callProjection :=
  files ← segments j;
  s ← state files j;
  let p := match kept with
           | Some p => if cp_seq p =? sq_Seq s then prune (sq_PrunedThrough s) p else rebuild s files j
           | None => rebuild s files j
           end in
  Ok (applyCallManagementLocked items p).
End Store.
