(* ===== verification/ActivityStoreSpec.v ===== *)
(** * ActivityStoreSpec: pages of events

    Reading the journal page by page gives every event that a query asks for,
    once and in order; with ActivityLogSpec, every acknowledged event that is
    not pruned. *)

From stdpp Require Import sorting.
From S2P Require Import Prelude GoText Durable Binding Metadata ActivityEvent ActivityCalls ActivityView.
From S2P Require Import ActivityLog ActivityLines ActivityLogSpec ActivityViewSpec ActivityStore.
Local Open Scope Z_scope.

(** ** The visits of a page *)

Section Visits.
Context (q : Query).
Implicit Types (page : Page) (es : list Event) (e : Event).

(** The page but for its warnings. *)
Definition strip page : Page := page <| jp_Warnings := [] |>.

Fixpoint visits es page : Page :=
  match es with
  | [] => page
  | e :: es => let '(page, more) := visit_event q e page in if (more : bool) then visits es page else page
  end.

Lemma visit_event_strip e page :
  visit_event q e (strip page) = (strip (visit_event q e page).1, (visit_event q e page).2).
Proof. unfold visit_event. cbn. by repeat case_match. Qed.

Lemma visits_strip es page : strip (visits es page) = visits es (strip page).
Proof.
  revert page. induction es as [|e es IH]; intros page; cbn [visits]; [done|]. rewrite visit_event_strip.
  destruct (visit_event q e page) as [page' more]. cbn. destruct more; [apply IH|done].
Qed.

(** A visit stops exactly when it finds more than fits. *)
Lemma visit_event_more e page :
  jp_HasMore page = false → jp_HasMore (visit_event q e page).1 = negb (visit_event q e page).2.
Proof. unfold visit_event. intros Hp. by repeat case_match. Qed.

Lemma visits_app es es' page :
  jp_HasMore page = false →
  visits (es ++ es') page = (if jp_HasMore (visits es page) then visits es page else visits es' (visits es page)).
Proof.
  revert page. induction es as [|e es IH]; intros page Hp; cbn [visits app]; [by rewrite Hp|].
  pose proof (visit_event_more e page Hp) as Hm. destruct (visit_event q e page) as [page' more]. cbn in Hm.
  destruct more; [by apply IH|]. by rewrite Hm.
Qed.

(** Whether an event is beyond the cursor and not pruned. *)
Definition beyond (pruned : Z) e : bool := (jq_After q <? ev_Seq e) && (pruned <? ev_Seq e).

Lemma visits_beyond es page :
  visits es page = visits (filter (λ e, beyond (jp_PrunedThrough page) e = true) es) page.
Proof.
  revert page. induction es as [|e es IH]; intros page; cbn [visits]; [done|]. rewrite filter_cons.
  assert (jp_PrunedThrough (visit_event q e page).1 = jp_PrunedThrough page) as Hpr by (unfold visit_event; by repeat case_match).
  destruct (visit_event q e page) as [page' more] eqn:E. cbn in Hpr. case_decide as Hb.
  - cbn [visits]. rewrite E. destruct more; [|done]. by rewrite IH, Hpr.
  - assert (page' = page ∧ more = true) as [-> ->]; [|apply IH]. unfold visit_event in E.
    replace ((ev_Seq e <=? jq_After q) || (ev_Seq e <=? jp_PrunedThrough page)) with true in E by (unfold beyond in Hb; lia).
    by injection E.
Qed.

Definition limit : nat := Z.to_nat (query_limit q).

Lemma limit_pos : (1 <= limit)%nat.
Proof. unfold limit, query_limit, MaxQueryEvents. case_match; lia. Qed.

(** The visits of events beyond the cursor: the first that are asked for, and
    a cursor between those and the others. *)
Lemma visits_spec es page :
  jp_HasMore page = false → increasing es → Forall (λ e, beyond (jp_PrunedThrough page) e = true) es →
  (length (jp_Events page) <= limit)%nat → Forall (λ e, jp_NextSeq page < ev_Seq e) es →
  let wanted := filter (λ e, asks_for q e = true) es in
  let room := (limit - length (jp_Events page))%nat in
  let page' := visits es page in
  jp_Events page' = jp_Events page ++ take room wanted
  ∧ jp_HasMore page' = (room <? length wanted)%nat
  ∧ (jp_HasMore page' = true → jp_NextSeq page <= jp_NextSeq page' ∧
       (∀ e, e ∈ take room wanted → ev_Seq e <= jp_NextSeq page') ∧ ∀ e, e ∈ drop room wanted → jp_NextSeq page' < ev_Seq e).
Proof.
  intros Hm Hes. revert page Hm. induction Hes as [|e es Hes IH He]; intros page Hm Hb Hlen Hnext; cbn [visits]; cbv zeta.
  { cbn [filter list_filter]. rewrite take_nil, app_nil_r. split; [done|]. cbn. split; [by rewrite Hm|by rewrite Hm]. }
  apply Forall_cons in Hb as [Hb Hbs]. apply Forall_cons in Hnext as [Hn Hns].
  unfold visit_event. replace ((ev_Seq e <=? jq_After q) || (ev_Seq e <=? jp_PrunedThrough page)) with false by (unfold beyond in Hb; lia).
  rewrite filter_cons. destruct (asks_for q e) eqn:Ea; cbn [negb].
  2: { rewrite decide_False by done.
    set (page1 := page <| jp_NextSeq := ev_Seq e |>).
    destruct (IH page1 Hm Hbs Hlen He) as (H1 & H2 & H3).     split; [exact H1|]. split; [exact H2|]. intros Hmore. destruct (H3 Hmore) as (H4 & H5). split; [cbn in H4; lia|exact H5]. }
  rewrite decide_True by done. destruct (Z.eqb_spec (Z.of_nat (length (jp_Events page))) (query_limit q)) as [Efull|Eroom].
  - assert ((limit - length (jp_Events page))%nat = 0%nat) as -> by (unfold limit; lia). cbn. rewrite app_nil_r.
    split; [done|]. split; [done|]. intros _. split; [lia|]. split; [by intros x ?%not_elem_of_nil|].
    intros x [->|[_ Hx]%list_elem_of_filter]%elem_of_cons; [done|]. by eapply Forall_forall in Hns.
  - set (page1 := page <| jp_Events ::= λ l, l ++ [e] |> <| jp_NextSeq := ev_Seq e |>).
    assert (length (jp_Events page1) = S (length (jp_Events page))) as Hlen1 by (cbn; rewrite length_app; cbn; lia).
    assert (S (length (jp_Events page)) <= limit)%nat as Hroom by (unfold limit in *; unfold query_limit, MaxQueryEvents in *; case_match; lia).
    destruct (IH page1 Hm Hbs ltac:(lia) He) as (H1 & H2 & H3). rewrite Hlen1 in H1, H2, H3.
    replace (limit - length (jp_Events page))%nat with (S (limit - S (length (jp_Events page))))%nat by lia.
    set (room := (limit - S (length (jp_Events page)))%nat) in *. cbn [take drop length].
    split; [rewrite H1; cbn; by rewrite <- app_assoc|]. split; [exact H2|]. intros Hmore. destruct (H3 Hmore) as (H4 & H5 & H6).
    cbn in H4. split; [lia|]. split; [|exact H6]. intros x [->|Hx]%elem_of_cons; [lia|by apply H5].
Qed.
End Visits.

Section Spec.
Context `{EventCodecLaws}.
Implicit Types (q : Query) (page : Page) (files : list Z) (j : journal).

Lemma visit_lines_visits q lines page b :
  (visit_lines (visit_event q) lines page b).1 = visits q (omap record_of lines) page.
Proof.
  revert page b. induction lines as [|[| |e] lines IH]; intros page b; cbn; [done|apply IH|apply IH|].
  destruct (visit_event q e page) as [page' more]. destruct more; [apply IH|done].
Qed.

Lemma scan_visits q content page : (scanEvents (visit_event q) content page).1 = visits q (records content) page.
Proof. apply visit_lines_visits. Qed.

Lemma visits_nothing q es page : Forall (λ e, beyond q (jp_PrunedThrough page) e = false) es → visits q es page = page.
Proof.
  intros Hes. rewrite visits_beyond. replace (filter _ es) with (@nil Event); [done|]. symmetry.
  induction Hes as [|e es He _ IH]; [done|]. rewrite filter_cons_False; [done|]. by rewrite He.
Qed.

Lemma visits_pruned q es page : jp_PrunedThrough (visits q es page) = jp_PrunedThrough page.
Proof.
  revert page. induction es as [|e es IH]; intros page; cbn [visits]; [done|].
  assert (jp_PrunedThrough (visit_event q e page).1 = jp_PrunedThrough page) as Hpr by (unfold visit_event; by repeat case_match).
  destruct (visit_event q e page) as [page' more]. cbn in Hpr. destruct more; [by rewrite IH|done].
Qed.

(** The loop over the segments visits the events of the journal; those it
    passes over are not beyond the cursor. *)
Lemma visit_segments_visits acked q j files page :
  inv acked j → StronglySorted Z.le files → NoDup files → (∀ n, n ∈ files → n ∈ dom (j_segments j)) → jp_HasMore page = false →
  strip (visit_segments q j files page) = strip (visits q (journal_events files j) page).
Proof.
  intros Hj Hs Hnd Hin. revert page. induction Hs as [|path files Hs IH Hp]; intros page Hm; [done|].
  apply NoDup_cons in Hnd as [Hpn Hnd].
  assert (∀ n, n ∈ files → n ∈ dom (j_segments j)) as Hin' by (intros n Hn; apply Hin; by right).
  specialize (IH Hnd Hin'). cbn [visit_segments]. unfold journal_events. cbn [map concat]. fold (journal_events files j).
  rewrite (visits_app q _ _ page Hm).
  destruct (match files with next :: _ => next <=? jq_After q | [] => false end) eqn:Epass; cbv zeta.
  - rewrite visits_nothing; [by rewrite Hm; apply IH|]. destruct files as [|next files]; [done|].
    apply Forall_forall. intros e He. unfold beyond.
    assert (has j path e) as Hh by (unfold bytes_of in He; destruct (j_segments j !! path) as [s|] eqn:E; [by exists s|by apply not_elem_of_nil in He]).
    assert (path ≠ next) by (intros ->; apply Hpn; left). apply Forall_inv in Hp.
    pose proof (iv_below acked j Hj path next e Hh ltac:(apply Hin'; left) ltac:(lia)). lia.
  - rewrite <- scan_visits. destruct (scanEvents (visit_event q) (bytes_of path j) page) as [page1 w] eqn:Escan. cbn [fst].
    set (page2 := if w && _ then _ else page1).
    assert (strip page2 = strip page1) as Estrip by (subst page2; by destruct (w && _)).
    assert (jp_HasMore page2 = jp_HasMore page1) as Emore by (subst page2; by destruct (w && _)).
    rewrite Emore. destruct (jp_HasMore page1) eqn:Hm1; [done|]. rewrite IH by congruence. by rewrite !visits_strip, Estrip.
Qed.

Definition asked q (pruned : Z) (e : Event) : bool := beyond q pruned e && asks_for q e.

Definition valid q : Prop :=
  is_ok (Validate (no_binding <| xs_TaskID := jq_TaskID q |> <| xs_ThreadID := jq_ThreadID q |>
                              <| xs_ConversationID := jq_ConversationID q |> <| xs_CallID := jq_CallID q |>)) = true.

(** One page: the first events that are asked for, and a cursor behind them. *)
Lemma run_query_spec acked q j files st :
  inv acked j → segments j = Ok files → state files j = Ok st → valid q →
  let wanted := filter (λ e, asked q (sq_PrunedThrough st) e = true) (journal_events files j) in
  ∃ page, run_query q j = Ok page
    ∧ jp_Events page = take (limit q) wanted
    ∧ jp_HasMore page = (limit q <? length wanted)%nat
    ∧ (jp_HasMore page = true → jq_After q <= jp_NextSeq page ∧
         (∀ e, e ∈ take (limit q) wanted → ev_Seq e <= jp_NextSeq page) ∧ ∀ e, e ∈ drop (limit q) wanted → jp_NextSeq page < ev_Seq e).
Proof.
  intros Hj Hf Hst Hv wanted. unfold run_query. unfold valid in Hv.
  destruct (Validate _) as [u|]; [|done]. cbn [mbind result_bind]. rewrite Hf. cbn [mbind result_bind]. rewrite Hst. cbn [mbind result_bind].
  destruct (segments_sorted j files Hf) as (Hs & Hnd & Hin).
  assert (∀ e, e ∈ journal_events files j → ev_Seq e <= sq_Seq st) as Hall.
  { intros e (n & _ & He)%elem_of_journal. destruct (state_known acked j files Hj Hf) as (st' & Hst' & Hk & _).
    assert (st' = st) as -> by congruence. by apply (kn_has _ _ _ Hk n). }
  pose proof (limit_pos q) as Hlim.
  destruct (Z.leb_spec (sq_Seq st) (jq_After q)) as [Hearly|Hlt].
  { eexists. split; [reflexivity|]. cbn [jp_Events jp_HasMore]. assert (wanted = []) as ->.
    { subst wanted. destruct (filter _ _) as [|e l] eqn:E; [done|]. exfalso.
      assert (e ∈ filter (λ e, asked q (sq_PrunedThrough st) e = true) (journal_events files j)) as [Ha He]%list_elem_of_filter by (rewrite E; left).
      specialize (Hall e He). unfold asked, beyond in Ha. lia. }
    rewrite take_nil. split; [done|]. split; [by destruct (limit q)|done]. }
  set (page0 := mkPage _ _ _ _ _ _ _). cbv zeta.
  set (page1 := visit_segments q j files page0).
  pose proof (visit_segments_visits acked q j files page0 Hj Hs Hnd (λ n, proj1 (Hin n)) eq_refl) as Hvis. fold page1 in Hvis.
  set (evs := filter (λ e, beyond q (sq_PrunedThrough st) e = true) (journal_events files j)).
  assert (wanted = filter (λ e, asks_for q e = true) evs) as Ewanted.
  { subst wanted evs. clear. induction (journal_events files j) as [|e l IH]; [done|]. unfold asked in *. rewrite !filter_cons.
    repeat case_decide; rewrite ?filter_cons; repeat case_decide; rewrite ?IH; try done;
      destruct (beyond q (sq_PrunedThrough st) e), (asks_for q e); done. }
  assert (visits q (journal_events files j) page0 = visits q evs page0) as Evis by apply visits_beyond.
  destruct (visits_spec q evs page0) as (H1 & H2 & H3); [done| | |cbn; lia| |].
  { apply increasing_filter, (journal_increasing acked); [done..|by intros n ?%Hin]. }
  { apply Forall_forall. by intros e [Hb _]%list_elem_of_filter. }
  { apply Forall_forall. intros e [Hb _]%list_elem_of_filter. unfold beyond in Hb. cbn. lia. }
  rewrite <- Evis in H1, H2, H3. rewrite <- Ewanted in H1, H2, H3. cbn [jp_Events page0 app length] in H1, H2, H3. rewrite Nat.sub_0_r in H1, H2, H3.
  assert (jp_Events page1 = jp_Events (visits q (journal_events files j) page0)
    ∧ jp_HasMore page1 = jp_HasMore (visits q (journal_events files j) page0)
    ∧ jp_NextSeq page1 = jp_NextSeq (visits q (journal_events files j) page0)) as (E1 & E2 & E3).
  { split_and!; [exact (f_equal jp_Events Hvis)|exact (f_equal jp_HasMore Hvis)|exact (f_equal jp_NextSeq Hvis)]. }
  rewrite <- E1 in H1. rewrite <- E2 in H2, H3. rewrite <- E3 in H3.
  eexists. split; [reflexivity|]. destruct (jp_HasMore page1) eqn:Hm.
  - split; [exact H1|]. split; [by rewrite Hm|]. intros _. exact (H3 eq_refl).
  - cbn [over jp_Events jp_HasMore]. split; [exact H1|]. split; [by rewrite Hm|]. intros Hm'. congruence.
Qed.

(** Page after page from the cursor that the last one gave. *)
Fixpoint query_pages (fuel : nat) q j : list Event :=
  match run_query q j with
  | Err _ => []
  | Ok page =>
      jp_Events page ++
      (if jp_HasMore page then match fuel with O => [] | S fuel => query_pages fuel (q <| jq_After := jp_NextSeq page |>) j end else [])
  end.

Lemma asked_next q pruned n e :
  jq_After q <= n → asked (q <| jq_After := n |>) pruned e = asked q pruned e && (n <? ev_Seq e).
Proof.
  intros Hn. unfold asked, beyond. change (asks_for (q <| jq_After := n |>) e) with (asks_for q e).
  change (jq_After (q <| jq_After := n |>)) with n. destruct (asks_for q e); lia.
Qed.

Lemma valid_next q n : valid q → valid (q <| jq_After := n |>).
Proof. done. Qed.

Lemma query_pages_spec acked fuel q j files st :
  inv acked j → segments j = Ok files → state files j = Ok st → valid q →
  (length (filter (λ e, asked q (sq_PrunedThrough st) e = true) (journal_events files j)) <= fuel)%nat →
  query_pages fuel q j = filter (λ e, asked q (sq_PrunedThrough st) e = true) (journal_events files j).
Proof.
  intros Hj Hf Hst. revert q. induction fuel as [|fuel IH]; intros q Hv Hfuel; cbn [query_pages];
    destruct (run_query_spec acked q j files st Hj Hf Hst Hv) as (page & -> & Hev & Hmore & Hnext); rewrite Hev, Hmore;
    set (wanted := filter _ _) in *; pose proof (limit_pos q) as Hlim.
  - rewrite take_ge by lia. destruct (Nat.ltb_spec (limit q) (length wanted)); [lia|apply app_nil_r].
  - destruct (Nat.ltb_spec (limit q) (length wanted)) as [Hlt|Hge]; [|rewrite take_ge by done; apply app_nil_r].
    destruct (Hnext Hmore) as (Hafter & Hbefore & Hbehind).
    assert (filter (λ e, asked (q <| jq_After := jp_NextSeq page |>) (sq_PrunedThrough st) e = true) (journal_events files j) = drop (limit q) wanted) as Edrop.
    { rewrite (list_filter_iff _ (λ e, asked q (sq_PrunedThrough st) e && (jp_NextSeq page <? ev_Seq e) = true))
        by (intros e; by rewrite asked_next).
      rewrite filter_and. fold wanted. rewrite <- (take_drop (limit q) wanted) at 1. rewrite filter_app.
      rewrite filter_none by (apply Forall_forall; intros e He; specialize (Hbefore e He); lia).
      apply filter_all, Forall_forall. intros e He. specialize (Hbehind e He). lia. }
    rewrite IH, Edrop; [apply take_drop|done|]. rewrite Edrop, length_drop. lia.
Qed.

(** C21: A reader that asks for page after page of the events of the journal, from the cursor that the last page gave,
    receives exactly the events beyond its first cursor that match its query and are not pruned, each once and in the
    order of their numbers, whatever happened to the journal before; so it receives every matching event that was ever
    acknowledged and is not pruned.  A page holds at most as many events as the query allows. *)
Theorem query_pages_cover acked j files st q :
  history acked j → segments j = Ok files → state files j = Ok st → valid q →
  let answer := query_pages (length (journal_events files j)) q j in
  answer = filter (λ e, asked q (sq_PrunedThrough st) e = true) (journal_events files j)
  ∧ increasing answer
  ∧ (∀ e, e ∈ acked → asked q (sq_PrunedThrough st) e = true → e ∈ answer)
  ∧ ∃ page, run_query q j = Ok page ∧ (length (jp_Events page) <= limit q)%nat.
Proof.
  intros Hh Hf Hst Hv answer. pose proof (history_inv acked j Hh) as Hj. destruct (segments_sorted j files Hf) as (Hs & Hnd & Hin).
  assert (answer = filter (λ e, asked q (sq_PrunedThrough st) e = true) (journal_events files j)) as Ea
    by (apply (query_pages_spec acked _ q j files st); [done..|apply length_filter]).
  split; [exact Ea|]. rewrite Ea. split; [apply increasing_filter, (journal_increasing acked); [done..|by intros n ?%Hin]|]. split.
  - intros e He Hask. apply list_elem_of_filter. split; [done|]. apply elem_of_journal.
    destruct (iv_acked acked j Hj e He) as [(n & s & Hn & Ha)|(_ & Hne & Ha)].
    + exists n. split; [apply Hin, elem_of_dom; eauto|]. exists s. split; [done|apply Ha; left].
    + exfalso. destruct (state_known acked j files Hj Hf) as (st' & Hst' & _ & _ & Hpr). assert (st' = st) as -> by congruence.
      destruct (Hpr (ev_Seq e + 1)) as [Hle|Hnone]; [|unfold asked, beyond in Hask; lia|done]. intros m Hm. specialize (Ha m Hm). lia.
  - destruct (run_query_spec acked q j files st Hj Hf Hst Hv) as (page & Hp & Hev & _). exists page. split; [done|].
    rewrite Hev, length_take. lia.
Qed.
End Spec.
