(* ===== verification/ActivityQueue.v ===== *)
(** * ActivityQueue: who writes to the journal, and when

    internal/activity/append_budget.go, resource_mutex.go and the queue of
    store.go (Append, AppendBatch, drainAppendQueue, appendBatch): goroutines
    that submit events, the goroutine that writes what they submitted in
    batches, and what else takes the lock of the journal.

    [step] is one action of one of them, or of the world: a critical section, a
    channel operation, or a system call.  Any sequence of actions that [step]
    allows is an interleaving. *)

From S2P Require Import Prelude GoText Durable Binding Metadata ActivityEvent ActivityCalls ActivityLog ActivityRedact ActivityStore.
Local Open Scope Z_scope.

(** ** The budget (append_budget.go) *)

Record AppendStatistics : Type := mkAppendStatistics {
  as_EventLimit : Z;
  as_ByteLimit : Z;
  as_ReservedEvents : Z;
  as_ReservedBytes : Z;
  as_PeakEvents : Z;
  as_PeakBytes : Z;
  as_CommittedEvents : Z;
  as_CancelledEvents : Z;
  as_RejectedEvents : Z;
  as_FailedEvents : Z;
  as_QueueWaitNS : Z;
  as_PersistNS : Z;
  as_PersistBatches : Z;
}.
#[export] Instance AppendStatistics_eta : Eta AppendStatistics := λ s,
  mkAppendStatistics (as_EventLimit s) (as_ByteLimit s) (as_ReservedEvents s) (as_ReservedBytes s) (as_PeakEvents s)
    (as_PeakBytes s) (as_CommittedEvents s) (as_CancelledEvents s) (as_RejectedEvents s) (as_FailedEvents s)
    (as_QueueWaitNS s) (as_PersistNS s) (as_PersistBatches s).

Definition ErrAppendCapacity : string := "activity append capacity exhausted".
Definition maxAppendBatch : nat := 64.

(** The critical section of ReserveAppend: whether the events are granted. *)
Definition reserve (count : Z) (s : AppendStatistics) : bool * AppendStatistics :=
  let bytes := count * MaxEventBytes in
  if (as_EventLimit s - as_ReservedEvents s <? count) || (as_ByteLimit s - as_ReservedBytes s <? bytes)
  then (false, s <| as_RejectedEvents ::= λ n, u64 (n + count) |>)
  else
    let s := s <| as_ReservedEvents ::= λ n, n + count |> <| as_ReservedBytes ::= λ n, n + bytes |> in
    (true, s <| as_PeakEvents ::= Z.max (as_ReservedEvents s) |> <| as_PeakBytes ::= Z.max (as_ReservedBytes s) |>).

(** The second critical section of Close. *)
Definition give_back (unused : Z) (s : AppendStatistics) : AppendStatistics :=
  s <| as_ReservedEvents ::= λ n, n - unused |> <| as_ReservedBytes ::= λ n, n - unused * MaxEventBytes |>.

(** [errors.Is] of the errors of a context. *)
Definition of_context (err : string) : bool := one_of err ["context canceled"; "context deadline exceeded"].

Definition has_number (event : option Event) : bool := match event with Some e => 0 <? ev_Seq e | None => false end.

(** The body of finish, which runs once. *)
Definition finish (res : appendResult) (s : AppendStatistics) : AppendStatistics :=
  let s := give_back 1 s in
  let s := if has_number (ar_event res) then s <| as_CommittedEvents ::= λ n, u64 (n + 1) |> else s in
  match ar_err res with
  | None => s
  | Some err =>
      if negb (has_number (ar_event res)) && of_context err then s <| as_CancelledEvents ::= λ n, u64 (n + 1) |>
      else s <| as_FailedEvents ::= λ n, u64 (n + 1) |>
  end.

(** [enqueued] are the times at which the requests were made. *)
Definition measureAppend (enqueued : list Time) (started elapsed : Time) (s : AppendStatistics) : AppendStatistics :=
  let wait (total at_ : Time) := if IsZero at_ then total else u64 (total + Z.max 0 (started - at_)) in
  s <| as_PersistNS ::= λ n, u64 (n + Z.max 0 elapsed) |> <| as_PersistBatches ::= λ n, u64 (n + 1) |>
    <| as_QueueWaitNS ::= λ n, foldl wait n enqueued |>.

(** ** The state

    Everything that goroutines know each other by has a number: an Append is
    also the number of its request, its ticket and its context, an AppendBatch
    that of its context. *)

Record appendRequest : Type := mkAppendRequest {
  aq_event : Event;
  aq_done : option appendResult;
  aq_cancelled : bool;
  aq_committed : bool;
  aq_enqueued : Time;
}.
#[export] Instance appendRequest_eta : Eta appendRequest := λ r,
  mkAppendRequest (aq_event r) (aq_done r) (aq_cancelled r) (aq_committed r) (aq_enqueued r).

(** The goroutine of an Append: it has a ticket and prepares its event; it
    waits; it waits for a result that will come; it has cancelled and takes its
    request off the queue; it finishes its ticket with an error; it is done. *)
Inductive caller : Type :=
  | Preparing
  | Waiting
  | Receiving
  | Removing (err : string)
  | Refusing (err : string)
  | Returned (res : appendResult).

(** The goroutine of drainAppendQueue. *)
Inductive phase : Type :=
  | Sleeping
  | Checking
  | Locking
  | Opening
  | Committing
  | Writing
  | Releasing
  | Unlocking
  | Answering
  | Sending.

Record worker : Type := mkWorker {
  wk_phase : phase;
  wk_batch : list nat;
  wk_todo : list nat;
  wk_active : list nat;
  wk_results : gmap nat appendResult;
}.
#[export] Instance worker_eta : Eta worker := λ w,
  mkWorker (wk_phase w) (wk_batch w) (wk_todo w) (wk_active w) (wk_results w).

(** The goroutine of an AppendBatch. *)
Inductive batch_phase : Type :=
  | BPreparing
  | BLocking
  | BOpening
  | BHolding
  | BWriting
  | BReleasing
  | BUnlocking
  | BFinishing
  | BReturned.

Record batch_call : Type := mkBatchCall {
  bc_phase : batch_phase;
  bc_reservation : nat;
  bc_todo : list Event;
  bc_requests : list (nat * appendRequest);
  bc_tickets : list nat;
  bc_written : list (option Event);
  bc_err : option string;
}.
#[export] Instance batch_call_eta : Eta batch_call := λ b,
  mkBatchCall (bc_phase b) (bc_reservation b) (bc_todo b) (bc_requests b) (bc_tickets b) (bc_written b) (bc_err b).

(** Who has the lock file of the journal. *)
Inductive file_owner : Type :=
  | Nobody
  | Ours
  | Others.

Inductive status : Type :=
  | Running
  | Died
  | Panicked.

Record store : Type := mkStore {
  qs_status : status;
  qs_options : Options;
  qs_redactor : Redactor;
  qs_stats : AppendStatistics;
  qs_contexts : gmap nat string;
  qs_reservations : gmap nat Z;
  qs_closing : list Z;
  qs_tickets : gmap nat bool;
  qs_requests : gmap nat appendRequest;
  qs_callers : gmap nat caller;
  qs_queue : list nat;
  qs_worker : option worker;
  qs_batches : gmap nat batch_call;
  qs_token : bool;
  qs_readers : list bool;
  qs_file : file_owner;
  qs_journal : journal;
  qs_projection : option callProjection;
}.
#[export] Instance store_eta : Eta store := λ s,
  mkStore (qs_status s) (qs_options s) (qs_redactor s) (qs_stats s) (qs_contexts s) (qs_reservations s) (qs_closing s) (qs_tickets s)
    (qs_requests s) (qs_callers s) (qs_queue s) (qs_worker s) (qs_batches s) (qs_token s) (qs_readers s) (qs_file s)
    (qs_journal s) (qs_projection s).

Definition context (s : store) (id : nat) : option string := qs_contexts s !! id.

(** *** The lock (resource_mutex.go, lockResource) *)

(** [<-m.token], where the token is there. *)
Definition take_token (s : store) : option store := if qs_token s then Some (s <| qs_token := false |>) else None.
Definition Unlock (s : store) : store := if qs_token s then s <| qs_status := Panicked |> else s <| qs_token := true |>.
(** filelock.Acquire, and its release. *)
Definition acquire (s : store) : option store :=
  match qs_file s with Nobody => Some (s <| qs_file := Ours |>) | _ => None end.
Definition release_file (s : store) : store := s <| qs_file := Nobody |>.

(** *** Tickets *)

(** [t.once.Do]. *)
Definition finish_ticket (t : nat) (res : appendResult) (s : store) : store :=
  match qs_tickets s !! t with
  | Some false => s <| qs_tickets ::= insert t true |> <| qs_stats ::= finish res |>
  | _ => s
  end.

(** AppendReservation.take: the reservation has an event left and gives a ticket for it. *)
Definition take_ticket (v t : nat) (s : store) : option store :=
  match qs_reservations s !! v, qs_tickets s !! t with
  | Some remaining, None =>
      if remaining =? 0 then None
      else Some (s <| qs_reservations ::= insert v (remaining - 1) |> <| qs_tickets ::= insert t false |>)
  | _, _ => None
  end.

(** The first critical section of Close. *)
Definition close_reservation (v : nat) (s : store) : store :=
  match qs_reservations s !! v with
  | Some unused =>
      if unused =? 0 then s else s <| qs_reservations ::= insert v 0 |> <| qs_closing ::= λ l, l ++ [unused] |>
  | None => s
  end.

(** *** Requests *)

Definition on_request (r : nat) (f : appendRequest → appendRequest) (s : store) : store := s <| qs_requests ::= alter f r |>.
Definition goes_on (r : nat) (c : caller) (s : store) : store := s <| qs_callers ::= insert r c |>.

(** The critical section of enqueueAppend, which starts the writer. *)
Definition new_worker : worker := mkWorker Sleeping [] [] [] ∅.
Definition enqueue (r : nat) (e : Event) (now : Time) (s : store) : store :=
  goes_on r Waiting (s
    <| qs_requests ::= insert r (mkAppendRequest e None false false now) |>
    <| qs_queue ::= λ q, q ++ [r] |>
    <| qs_worker ::= λ w, match w with None => Some new_worker | Some w => Some w end |>).

(** The other arm of the select, the context of [r] being done. *)
Definition abandon (r : nat) (err : string) (q : appendRequest) (s : store) : store :=
  if aq_committed q then goes_on r Receiving s
  else goes_on r (Removing err) (on_request r (λ q, q <| aq_cancelled := true |> <| aq_event := blank_event |>) s).

Fixpoint removeQueued (r : nat) (queue : list nat) : list nat :=
  match queue with
  | [] => []
  | candidate :: queue => if (candidate =? r)%nat then queue else candidate :: removeQueued r queue
  end.

(** The error of commit, the context having [err]; without one the request is
    committed. *)
Definition commit (err : option string) (q : appendRequest) : option string * appendRequest :=
  if aq_cancelled q then (err, q)
  else match err with
  | Some e => (Some e, q <| aq_cancelled := true |>)
  | None => (None, q <| aq_committed := true |>)
  end.

(** *** Writing *)

Section Writing.
Context `{EventCodec} `{SecretPatterns}.

(** The clock and the random bytes for every event of a batch. *)
Definition stamp : Type := Time * option (list ascii).
Definition requests_of (events : list Event) (stamps : list stamp) : list request :=
  zip_with (λ e st, mkRequest e st.1 st.2) events stamps.

(** appendBatchLocked, which tells the projection of what it wrote, and
    measureAppend. *)
Definition write (events : list Event) (enqueued : list Time) (stamps : list stamp) (size : Z) (faults : list fault)
    (started elapsed : Time) (s : store) : option (store * list appendResult) :=
  if negb (length stamps =? length events)%nat then None
  else
    let r := append_batch (qs_options s) size (requests_of events stamps) (qs_journal s) faults in
    let s := s <| qs_journal := run_disk r |> in
    match run_outcome r with
    | Done (results, written) =>
        Some (s <| qs_projection ::= λ p, foldl projectAppendedLocked p written |>
                <| qs_stats ::= measureAppend enqueued started elapsed |>, results)
    | Failed _ => None
    | Dead => Some (s <| qs_status := Died |>, [])
    end.

(** *** The goroutine that writes *)

Definition fail_active (ids : list nat) (err : string) (results : gmap nat appendResult) : gmap nat appendResult :=
  foldr (λ r, <[r := mkAppendResult None (Some err)]>) results ids.

Definition answering (w : worker) : worker := w <| wk_phase := Answering |> <| wk_todo := wk_batch w |>.
Definition set_worker (w : worker) (s : store) : store := s <| qs_worker := Some w |>.

(** An error of lock. *)
Definition worker_refused (err : string) (w : worker) : worker :=
  answering (w <| wk_results ::= fail_active (wk_active w) err |>).

Definition no_result : appendResult := mkAppendResult None (Some "activity append batch did not produce a result").
Definition result_of (w : worker) (r : nat) : appendResult := default no_result (wk_results w !! r).

(** One action of the goroutine, other than an error of lock and the write. *)
Definition work (w : worker) (s : store) : option store :=
  match wk_phase w, wk_todo w with
  | Sleeping, _ =>
      Some match qs_queue s with
      | [] => s <| qs_worker := None |>
      | queue => let batch := take maxAppendBatch queue in
                 set_worker (mkWorker Checking batch batch [] ∅) (s <| qs_queue := drop maxAppendBatch queue |>)
      end
  | Checking, r :: todo =>
      Some (set_worker (match context s r with
                        | Some err => w <| wk_todo := todo |> <| wk_results ::= insert r (mkAppendResult None (Some err)) |>
                        | None => w <| wk_todo := todo |> <| wk_active ::= λ l, l ++ [r] |>
                        end) s)
  | Checking, [] => Some (set_worker (if is_empty (wk_active w) then answering w else w <| wk_phase := Locking |>) s)
  | Locking, _ => s ← take_token s; Some (set_worker (w <| wk_phase := Opening |>) s)
  | Opening, _ =>
      s ← acquire s; Some (set_worker (w <| wk_phase := Committing |> <| wk_todo := wk_active w |> <| wk_active := [] |>) s)
  | Committing, r :: todo =>
      q ← qs_requests s !! r;
      let '(err, q) := commit (context s r) q in
      let w := w <| wk_todo := todo |> in
      Some (set_worker (match err with
                        | Some err => w <| wk_results ::= insert r (mkAppendResult None (Some err)) |>
                        | None => w <| wk_active ::= λ l, l ++ [r] |>
                        end) (on_request r (λ _, q) s))
  | Committing, [] =>
      Some (set_worker (w <| wk_phase := if is_empty (wk_active w) then Releasing else Writing |>) s)
  | Writing, _ => None
  | Releasing, _ => Some (set_worker (w <| wk_phase := Unlocking |>) (release_file s))
  | Unlocking, _ => Some (set_worker (answering w) (Unlock s))
  | Answering, [] => Some (set_worker new_worker s)
  | Answering, r :: todo => Some (set_worker (w <| wk_phase := Sending |>) (finish_ticket r (result_of w r) s))
  | Sending, r :: todo =>
      q ← qs_requests s !! r;
      match aq_done q with
      | Some _ => None
      | None => Some (set_worker (w <| wk_phase := Answering |> <| wk_todo := todo |>)
                        (on_request r (λ q, q <| aq_done := Some (result_of w r) |>) s))
      end
  | Sending, [] => None
  end.

(** The lock is refused: the time is up, or the contexts of all are done, or
    the lock file cannot be had. *)
Definition work_refused (err : string) (w : worker) (s : store) : option store :=
  match wk_phase w with
  | Locking => Some (set_worker (worker_refused err w) s)
  | Opening => Some (set_worker (worker_refused err w) (Unlock s))
  | _ => None
  end.

Definition work_writes (stamps : list stamp) (size : Z) (faults : list fault) (started elapsed : Time) (w : worker) (s : store) :
    option store :=
  match wk_phase w with
  | Writing =>
      requests ← mapM (λ r, qs_requests s !! r) (wk_active w);
      '(s, results) ← write (map aq_event requests) (map aq_enqueued requests) stamps size faults started elapsed s;
      Some (set_worker (w <| wk_phase := Releasing |>
                          <| wk_results ::= λ m, list_to_map (zip (wk_active w) results) ∪ m |>) s)
  | _ => None
  end.

(** *** AppendBatch *)

Definition set_batch (b : nat) (c : batch_call) (s : store) : store := s <| qs_batches ::= insert b c |>.

(** [return written, err]: the deferred calls are left. *)
Definition batch_returns (written : list (option Event)) (err : option string) (c : batch_call) : batch_call :=
  c <| bc_phase := BFinishing |> <| bc_written := written |> <| bc_err := err |> <| bc_todo := [] |>.
Definition batch_fails (err : string) : batch_call → batch_call := batch_returns [] (Some err).

Definition join_errors (a b : option string) : option string :=
  match a, b with
  | Some a, Some b => Some (a +:+ of_bytes [newline] +:+ b)
  | Some a, None => Some a
  | None, b => b
  end.

Definition result_to_option {A} (r : result A) : option A := match r with Ok a => Some a | Err _ => None end.

(** ReserveAppend as its first part. *)
Definition start_batch (b v : nat) (events : list Event) (s : store) : store :=
  let refused (err : option string) := mkBatchCall BReturned v [] [] [] [] err in
  if is_empty events then set_batch b (refused None) s
  else if (maxAppendBatch <? length events)%nat then set_batch b (refused (Some "activity append batch exceeds 64 events")) s
  else match context s b with
  | Some err => set_batch b (refused (Some err)) s
  | None =>
      let count := Z.of_nat (length events) in
      let '(granted, stats) := reserve count (qs_stats s) in
      let s := s <| qs_stats := stats |> in
      if (granted : bool)
      then set_batch b (mkBatchCall BPreparing v events [] [] [] None) (s <| qs_reservations ::= insert v count |>)
      else set_batch b (refused (Some ErrAppendCapacity)) s
  end.

(** take and prepareAppend for the next event. *)
Definition batch_prepares (t : nat) (now : Time) (b : nat) (c : batch_call) (s : store) : option store :=
  match bc_phase c, bc_todo c with
  | BPreparing, event :: todo =>
      s ← take_ticket (bc_reservation c) t s;
      e ← result_to_option (prepareAppend (qs_redactor s) None None event);
      Some (set_batch b (c <| bc_todo := todo |> <| bc_tickets ::= λ l, l ++ [t] |>
                          <| bc_requests ::= λ l, l ++ [(t, mkAppendRequest e None false false now)] |>) s)
  | _, _ => None
  end.

(** An error of prepareAppend, or one of lock. *)
Definition batch_refused (t : nat) (err : string) (b : nat) (c : batch_call) (s : store) : option store :=
  match bc_phase c, bc_todo c with
  | BPreparing, _ :: _ =>
      s ← take_ticket (bc_reservation c) t s;
      Some (set_batch b (batch_fails err (c <| bc_tickets ::= cons t |>)) s)
  | BLocking, _ => Some (set_batch b (batch_fails err c) s)
  | BOpening, _ => Some (set_batch b (batch_fails err c) (Unlock s))
  | _, _ => None
  end.

(** One action of AppendBatch other than these and the write.  [bc_tickets]
    are those that wait to be finished, in the order of [bc_requests]. *)
Definition batch_works (b : nat) (c : batch_call) (s : store) : option store :=
  match bc_phase c with
  | BPreparing =>
      match bc_todo c with
      | [] => Some (set_batch b (c <| bc_phase := BLocking |>) s)
      | _ => if default 0 (qs_reservations s !! bc_reservation c) =? 0
             then Some (set_batch b (batch_fails "activity reservation is closed or exhausted" c) s) else None
      end
  | BLocking => s ← take_token s; Some (set_batch b (c <| bc_phase := BOpening |>) s)
  | BOpening => s ← acquire s; Some (set_batch b (c <| bc_phase := BHolding |>) s)
  | BHolding =>
      Some (set_batch b (match context s b with
                         | Some err => c <| bc_phase := BReleasing |> <| bc_err := Some err |>
                         | None => c <| bc_phase := BWriting |>
                         end) s)
  | BWriting => None
  | BReleasing => Some (set_batch b (c <| bc_phase := BUnlocking |>) (release_file s))
  | BUnlocking => Some (set_batch b (batch_returns (bc_written c) (bc_err c) c) (Unlock s))
  | BFinishing =>
      match bc_tickets c with
      | t :: tickets =>
          let i := (length (bc_requests c) - length (bc_tickets c))%nat in
          let saved := default None (bc_written c !! i) in
          Some (set_batch b (c <| bc_tickets := tickets |>) (finish_ticket t (mkAppendResult saved (bc_err c)) s))
      | [] => Some (set_batch b (c <| bc_phase := BReturned |>) (close_reservation (bc_reservation c) s))
      end
  | BReturned => None
  end.

Definition batch_writes (stamps : list stamp) (size : Z) (faults : list fault) (started elapsed : Time)
    (b : nat) (c : batch_call) (s : store) : option store :=
  match bc_phase c with
  | BWriting =>
      let requests := map snd (bc_requests c) in
      '(s, results) ← write (map aq_event requests) (map aq_enqueued requests) stamps size faults started elapsed s;
      Some (set_batch b (c <| bc_phase := BReleasing |> <| bc_written := map ar_event results |>
                          <| bc_err := foldl join_errors None (map ar_err results) |>) s)
  | _ => None
  end.

(** ** Actions *)

Inductive action : Type :=
  | ContextDone (id : nat) (err : string)
  | ReserveAppend (v : nat) (count : Z)
  | Close (v : nat)
  | GiveBack
  | Take (v r : nat)
  | PrepareFails (r : nat) (err : string)
  | ContextFails (r : nat)
  | Enqueue (r : nat) (event : Event) (now : Time)
  | Abandon (r : nat)
  | RemoveQueued (r : nat)
  | Finish (r : nat)
  | Receive (r : nat)
  | Work
  | WorkRefused (err : string)
  | WorkWrites (stamps : list stamp) (size : Z) (faults : list fault) (started elapsed : Time)
  | StartBatch (b v : nat) (events : list Event)
  | BatchPrepares (b t : nat) (now : Time)
  | BatchRefused (b t : nat) (err : string)
  | BatchWorks (b : nat)
  | BatchWrites (b : nat) (stamps : list stamp) (size : Z) (faults : list fault) (started elapsed : Time)
  | ReaderLocks
  | ReaderOpens
  | ReaderProjects (items : gmap string CallManagement)
  | ReaderCleans (before now : Time) (expired : Z → bool) (size : Z) (faults : list fault)
  | ReaderUnlocks
  | OthersLock
  | OthersWrite (options : Options) (requests : list request) (size : Z) (faults : list fault)
  | OthersClean (before now : Time) (expired : Z → bool) (size : Z) (faults : list fault)
  | OthersUnlock.

Definition of_caller (r : nat) (s : store) (f : caller → option store) : option store := c ← qs_callers s !! r; f c.

Definition step (a : action) (s : store) : option store :=
  match qs_status s with
  | Running =>
      match a with
      (* The world *)
      | ContextDone id err =>
          if of_context err && is_nil (context s id) then Some (s <| qs_contexts ::= insert id err |>) else None
      (* Reservations; an error of ReserveAppend changes at most the statistics *)
      | ReserveAppend v count =>
          match qs_reservations s !! v with
          | None =>
              if (1 <=? count) && (count <=? 4096) then
                let '(granted, stats) := reserve count (qs_stats s) in
                let s := s <| qs_stats := stats |> in
                Some (if (granted : bool) then s <| qs_reservations ::= insert v count |> else s)
              else None
          | Some _ => None
          end
      | Close v => Some (close_reservation v s)
      | GiveBack =>
          match qs_closing s with
          | unused :: l => Some (s <| qs_closing := l |> <| qs_stats ::= give_back unused |>)
          | [] => None
          end
      (* Append; [PrepareFails] is an error of prepareAppend *)
      | Take v r =>
          match qs_callers s !! r with None => s ← take_ticket v r s; Some (goes_on r Preparing s) | Some _ => None end
      | PrepareFails r err => of_caller r s (λ c, match c with Preparing => Some (goes_on r (Refusing err) s) | _ => None end)
      | ContextFails r =>
          of_caller r s (λ c, match c, context s r with Preparing, Some err => Some (goes_on r (Refusing err) s) | _, _ => None end)
      | Enqueue r event now =>
          of_caller r s (λ c, match c with
                              | Preparing => e ← result_to_option (prepareAppend (qs_redactor s) None None event); Some (enqueue r e now s)
                              | _ => None
                              end)
      | Abandon r =>
          of_caller r s (λ c, match c, context s r with
                              | Waiting, Some err => q ← qs_requests s !! r; Some (abandon r err q s)
                              | _, _ => None
                              end)
      | RemoveQueued r =>
          of_caller r s (λ c, match c with
                              | Removing err => Some (goes_on r (Refusing err) (s <| qs_queue ::= removeQueued r |>))
                              | _ => None
                              end)
      | Finish r =>
          of_caller r s (λ c, match c with
                              | Refusing err => let res := mkAppendResult None (Some err) in
                                                Some (goes_on r (Returned res) (finish_ticket r res s))
                              | _ => None
                              end)
      | Receive r =>
          of_caller r s (λ c, match c with
                              | Waiting | Receiving =>
                                  q ← qs_requests s !! r; res ← aq_done q;
                                  Some (goes_on r (Returned res) (on_request r (λ q, q <| aq_done := None |>) s))
                              | _ => None
                              end)
      (* The goroutine that writes *)
      | Work => w ← qs_worker s; work w s
      | WorkRefused err => w ← qs_worker s; work_refused err w s
      | WorkWrites stamps size faults started elapsed => w ← qs_worker s; work_writes stamps size faults started elapsed w s
      (* AppendBatch *)
      | StartBatch b v events =>
          match qs_batches s !! b, qs_reservations s !! v with
          | None, None => Some (start_batch b v events s)
          | _, _ => None
          end
      | BatchPrepares b t now => c ← qs_batches s !! b; batch_prepares t now b c s
      | BatchRefused b t err =>
          c ← qs_batches s !! b; batch_refused t err b c s
      | BatchWorks b => c ← qs_batches s !! b; batch_works b c s
      | BatchWrites b stamps size faults started elapsed =>
          c ← qs_batches s !! b; batch_writes stamps size faults started elapsed b c s
      (* Query, Cleanup, Calls and the others: [true] has the lock file too *)
      | ReaderLocks => s ← take_token s; Some (s <| qs_readers ::= cons false |>)
      | ReaderOpens =>
          match qs_readers s with
          | false :: l => s ← acquire s; Some (s <| qs_readers := true :: l |>)
          | _ => None
          end
      | ReaderProjects items =>
          match qs_readers s with
          | true :: _ => Some (match projectionLocked items (qs_projection s) (qs_journal s) with
                               | Ok p => s <| qs_projection := Some p |>
                               | Err _ => s
                               end)
          | _ => None
          end
      | ReaderCleans before now expired size faults =>
          match qs_readers s with
          | true :: _ => let r := Cleanup before now expired size (qs_journal s) faults in
                         let s := s <| qs_journal := run_disk r |> in
                         Some (match run_outcome r with Dead => s <| qs_status := Died |> | _ => s end)
          | _ => None
          end
      | ReaderUnlocks =>
          match qs_readers s with
          | locked :: l => Some (Unlock ((if locked then release_file s else s) <| qs_readers := l |>))
          | [] => None
          end
      (* Other processes on the same journal *)
      | OthersLock => match qs_file s with Nobody => Some (s <| qs_file := Others |>) | _ => None end
      | OthersWrite options requests size faults =>
          match qs_file s with
          | Others => Some (s <| qs_journal := run_disk (append_batch options size requests (qs_journal s) faults) |>)
          | _ => None
          end
      | OthersClean before now expired size faults =>
          match qs_file s with
          | Others => Some (s <| qs_journal := run_disk (Cleanup before now expired size (qs_journal s) faults) |>)
          | _ => None
          end
      | OthersUnlock => match qs_file s with Others => Some (s <| qs_file := Nobody |>) | _ => None end
      end
  | _ => None
  end.

Definition exec (actions : list action) (s : store) : option store := foldl (λ s a, s ← s; step a s) (Some s) actions.

(** A store that has been opened on a journal. *)
Definition open_store (options : Options) (r : Redactor) (events bytes : Z) (j : journal) : store :=
  mkStore Running options r (mkAppendStatistics events bytes 0 0 0 0 0 0 0 0 0 0 0) ∅ ∅ [] ∅ ∅ ∅ [] None ∅ true [] Nobody j None.
End Writing.
