(* ===== verification/ActivityQueueSpec.v ===== *)
(** * ActivityQueueSpec: executions of the queue, and what is true of its requests

    [reach] are the states of a store under every interleaving of its goroutines
    with the world.  In all of them a request is in the queue, or held by the
    goroutine that writes, or answered, or given up; the moves of a caller and of
    the writer keep that. *)

From S2P Require Import Prelude GoText Durable Binding Metadata ActivityEvent ActivityCalls.
From S2P Require Import ActivityLog ActivityLines ActivityLogSpec ActivityRedact ActivityRedactSpec ActivityStore ActivityQueue.
Local Open Scope Z_scope.

(** ** Executions *)

Section Executions.
Context `{Codec : EventCodec} `{Patterns : SecretPatterns}.
Implicit Types (s : store) (r : nat) (g : gmap nat appendResult).

(** The results of a run of appendBatchLocked. *)
Definition answer (options : Options) (size : Z) (requests : list request) (j : journal) (faults : list fault) : list appendResult :=
  match run_outcome (append_batch options size requests j faults) with Done r => r.1 | _ => [] end.

Definition worker_requests s w : list appendRequest := default [] (mapM (λ r, qs_requests s !! r) (wk_active w)).
Definition batch_requests (c : batch_call) : list appendRequest := map snd (bc_requests c).

(** The requests that an action gives to the journal, for whom, and the answer. *)
Definition to_write (a : action) s : option (list nat * list request) :=
  match a with
  | WorkWrites stamps size faults started elapsed =>
      w ← qs_worker s; Some (wk_active w, requests_of (map aq_event (worker_requests s w)) stamps)
  | BatchWrites b stamps size faults started elapsed =>
      c ← qs_batches s !! b; Some ([], requests_of (map aq_event (batch_requests c)) stamps)
  | OthersWrite options requests size faults => Some ([], requests)
  | _ => None
  end.

Definition results (a : action) s : list appendResult :=
  match a, to_write a s with
  | WorkWrites stamps size faults started elapsed, Some (_, requests)
  | BatchWrites _ stamps size faults started elapsed, Some (_, requests) =>
      answer (qs_options s) size requests (qs_journal s) faults
  | OthersWrite options _ size faults, Some (_, requests) => answer options size requests (qs_journal s) faults
  | _, _ => []
  end.

(** What the journal answers to Appends by an action. *)
Definition handed (a : action) s : gmap nat appendResult :=
  match to_write a s with Some (ids, _) => list_to_map (zip ids (results a s)) | None => ∅ end.

(** The requests of a write are prepared, and saving the state takes at most
    4096 bytes. *)
Definition prepared_write (a : action) s : Prop :=
  (∀ ids requests, to_write a s = Some (ids, requests) → Forall prepared requests)
  ∧ match a with
    | WorkWrites _ size _ _ _ | BatchWrites _ _ size _ _ _ | ReaderCleans _ _ _ size _ | OthersClean _ _ _ size _ => size <= 4096
    | OthersWrite options _ size _ => 0 < op_Segments options ∧ size <= 4096
    | _ => True
    end.

(** What is left of [prepared] when prepareAppend has looked at an event. *)
Definition carried (r : request) : Prop := ∀ seq raw, 0 < seq → rq_Random r = Some raw → json_text (stamped r seq raw).

(** What is assumed of an action. *)
Definition proper (a : action) s : Prop :=
  match a with
  | WorkWrites _ size _ _ _ | BatchWrites _ _ size _ _ _ =>
      size <= 4096 ∧ ∀ ids requests, to_write a s = Some (ids, requests) → Forall carried requests
  | ReaderCleans _ _ _ size _ | OthersClean _ _ _ size _ => size <= 4096
  | OthersWrite options requests size _ => 0 < op_Segments options ∧ size <= 4096 ∧ Forall prepared requests
  | _ => True
  end.

(** The states of a store that is opened on a journal, with the answers to its
    Appends so far and the events that have been acknowledged. *)
Inductive reach : store → gmap nat appendResult → list Event → Prop :=
  | reach_open acked j options redactor events bytes :
      history acked j → 0 < op_Segments options → 0 <= events → 0 <= bytes →
      reach (open_store options redactor events bytes j) ∅ acked
  | reach_step s g acked a s' :
      reach s g acked → proper a s → step a s = Some s' → reach s' (handed a s ∪ g) (delivered (results a s) ++ acked).
End Executions.

(** The cases of an action that went through. *)
Ltac step_cases :=
  repeat match goal with
  | H : None = Some _ |- _ => discriminate H
  | H : Some _ = Some _ |- _ => injection H as <-
  | H : (_ ≫= _) = Some _ |- _ => apply bind_Some in H as (? & ? & H)
  | _ => case_match
  end.
Ltac step_unfold :=
  unfold step, of_caller, work, work_refused, batch_prepares, batch_refused, batch_works, start_batch, take_ticket, take_token,
    acquire, abandon, Unlock, finish_ticket, close_reservation in *.

(** ** Requests

    A request is in the queue, or held by the writer, or answered, or given up;
    [g] are the answers of the journal. *)

Section Requests.
Implicit Types (s : store) (r : nat) (g : gmap nat appendResult) (w : worker) (q : appendRequest).

Definition held s : list nat :=
  match qs_worker s with
  | Some w => match wk_phase w with Sleeping => [] | Answering | Sending => wk_todo w | _ => wk_batch w end
  | None => []
  end.

Definition failure (res : appendResult) : Prop := ar_event res = None ∧ is_Some (ar_err res).

(** The result that [r] may be told. *)
Definition tells g r (res : appendResult) : Prop :=
  match g !! r with Some answer => res = answer | None => failure res end.

Definition request_is s r (P : appendRequest → Prop) : Prop := ∃ q, qs_requests s !! r = Some q ∧ P q.

Definition fresh s g r : Prop := request_is s r (λ q, aq_committed q = false) ∧ g !! r = None.
Definition chosen s g r : Prop := request_is s r (λ q, aq_committed q = true) ∧ g !! r = None.

Definition worker_ok g s w : Prop :=
  (∀ r res, wk_results w !! r = Some res → tells g r res)
  ∧ (∀ r, r ∈ wk_batch w → is_Some (g !! r) → wk_results w !! r = g !! r)
  ∧ match wk_phase w with
    | Sleeping => True
    | Checking | Committing =>
        Forall (fresh s g) (wk_todo w) ∧ wk_active w ++ wk_todo w ⊆ wk_batch w ∧ NoDup (wk_active w ++ wk_todo w)
        ∧ Forall (if wk_phase w is Checking then fresh s g else chosen s g) (wk_active w)
    | Locking | Opening => Forall (fresh s g) (wk_active w) ∧ wk_active w ⊆ wk_batch w ∧ NoDup (wk_active w)
    | Writing => Forall (chosen s g) (wk_active w) ∧ wk_active w ⊆ wk_batch w ∧ NoDup (wk_active w)
    | Answering | Sending => wk_todo w ⊆ wk_batch w
    | _ => True
    end.

(** The writer is between taking a batch and answering it. *)
Definition batching (p : phase) : bool := match p with Sleeping | Answering | Sending => false | _ => true end.

(** What the goroutine of an Append knows. *)
Definition caller_ok g s r (c : caller) : Prop :=
  match c with
  | Preparing => qs_requests s !! r = None
  | Waiting => request_is s r (λ q, r ∈ qs_queue s ++ held s ∨ is_Some (aq_done q))
  | Receiving => request_is s r (λ q, aq_committed q = true ∧ (r ∈ qs_queue s ++ held s ∨ is_Some (aq_done q)))
  | Removing err => request_is s r (λ q, aq_cancelled q = true)
  | Refusing err => r ∉ qs_queue s ∧ (qs_requests s !! r = None ∨ request_is s r (λ q, aq_cancelled q = true))
  | Returned res =>
      tells g r res ∧ r ∉ qs_queue s
      ∧ (qs_requests s !! r = None ∨ request_is s r (λ q, aq_cancelled q = true) ∨ r ∉ held s)
  end.

Definition request_ok g s r q : Prop :=
  (aq_committed q = true → aq_cancelled q = false)
  ∧ (aq_cancelled q = true → is_Some (context s r))
  ∧ (∀ res, aq_done q = Some res → tells g r res)
  ∧ is_Some (qs_callers s !! r).

(** The answer to a committed request is about its event. *)
Definition given_ok (res : appendResult) q : Prop :=
  aq_committed q = true ∧ ∀ e, ar_event res = Some e → ∃ now random, answers (mkRequest (aq_event q) now random) e.

Record queue_inv g s : Prop := {
  qi_nodup : NoDup (qs_queue s ++ held s);
  qi_queue : Forall (fresh s g) (qs_queue s);
  qi_held : ∀ r, r ∈ qs_queue s ++ held s → request_is s r (λ q, aq_done q = None);
  qi_worker : ∀ w, qs_worker s = Some w → worker_ok g s w;
  qi_given : ∀ r res, g !! r = Some res → request_is s r (given_ok res);
  qi_request : ∀ r q, qs_requests s !! r = Some q → request_ok g s r q;
  qi_callers : ∀ r c, qs_callers s !! r = Some c → caller_ok g s r c;
}.

(** *** What does not concern requests *)

Lemma queue_inv_other g s s' :
  qs_contexts s' = qs_contexts s → qs_requests s' = qs_requests s → qs_callers s' = qs_callers s →
  qs_queue s' = qs_queue s → qs_worker s' = qs_worker s → queue_inv g s → queue_inv g s'.
Proof.
  destruct s, s'. cbn. intros -> -> -> -> -> []. constructor; assumption.
Qed.

Lemma queue_inv_context g s id err :
  context s id = None → queue_inv g s → queue_inv g (s <| qs_contexts ::= insert id err |>).
Proof.
  intros Hid [Hnd Hq Hh Hw Hg Hr Hc]. constructor; try assumption.
  intros r q Hrq. destruct (Hr r q Hrq) as (H1 & H2 & H3 & H4). split; [done|]. split; [|split; assumption].
  intros Hcan. unfold context. cbn. destruct (decide (id = r)) as [->|Hne]; [by rewrite lookup_insert_eq|].
  rewrite lookup_insert_ne by done. by apply H2.
Qed.

(** *** Moves of a caller and of the writer *)

Lemma queue_inv_caller g s r c : queue_inv g s → caller_ok g s r c → queue_inv g (goes_on r c s).
Proof.
  intros [Hnd Hq Hh Hw Hg Hr Hc] Hok. constructor; try assumption.
  - intros r' q Hrq. destruct (Hr r' q Hrq) as (H1 & H2 & H3 & H4). split; [done|]. split; [done|]. split; [done|].
    cbn. destruct (decide (r = r')) as [->|Hne]; [rewrite lookup_insert_eq; eauto|by rewrite lookup_insert_ne].
  - intros r' c' Hc'. cbn in Hc'. apply lookup_insert_Some in Hc' as [[<- <-]|[Hne Hc']]; [exact Hok|exact (Hc r' c' Hc')].
Qed.

Lemma queue_inv_shift g s queue ow :
  let s' := s <| qs_queue := queue |> <| qs_worker := ow |> in
  queue_inv g s → queue ++ held s' ≡ₚ qs_queue s ++ held s → queue ⊆ qs_queue s →
  (∀ w, ow = Some w → worker_ok g s w) → queue_inv g s'.
Proof.
  intros s' [Hnd Hq Hh Hw Hg Hr Hc] Hp Hsub Hok.
  assert (∀ r, r ∈ qs_queue s' ++ held s' ↔ r ∈ qs_queue s ++ held s) as Hin by (intros r; by rewrite <- Hp).
  constructor; try assumption.
  - change (qs_queue s') with queue. by rewrite Hp.
  - apply Forall_forall. intros r Hrq. rewrite Forall_forall in Hq. exact (Hq r (Hsub r Hrq)).
  - intros r ?%Hin. by apply Hh.
  - intros r c Hrc. specialize (Hc r c Hrc). destruct c as [| | |err|err|res]; unfold caller_ok in *; try exact Hc.
    1,2: destruct Hc as (q & Hrq & Hx); exists q; split; [exact Hrq|]; rewrite Hin; exact Hx.
    + destruct Hc as [Hc ?]. split; [|done]. intros Hx. exact (Hc (Hsub r Hx)).
    + destruct Hc as (Ht & Hnq & Hc). split; [done|]. split; [intros Hx; exact (Hnq (Hsub r Hx))|]. destruct Hc as [Hc|[Hc|Hc]]; [by left|by right; left|right; right].
      intros Hheld. assert (r ∈ qs_queue s ++ held s) as [?|?]%elem_of_app by (apply Hin, elem_of_app; by right); done.
Qed.

Lemma queue_inv_work g s w :
  queue_inv g s → held (set_worker w s) = held s → worker_ok g s w → queue_inv g (set_worker w s).
Proof.
  intros Hs Eh Hok. assert (queue_inv g (s <| qs_queue := qs_queue s |> <| qs_worker := Some w |>)) as H'.
  - apply queue_inv_shift; [done| |done|by intros ? [= <-]].
    assert (held (s <| qs_queue := qs_queue s |> <| qs_worker := Some w |>) = held s) as -> by exact Eh. done.
  - by destruct s.
Qed.

(** *** A request of the writer changes *)

Lemma request_is_other s r r' f P : r ≠ r' → request_is s r' P → request_is (on_request r f s) r' P.
Proof. intros Hne (q & Hq & HP). exists q. split; [|done]. cbn. by rewrite lookup_alter_ne. Qed.

Lemma request_is_this s r f (P Q : appendRequest → Prop) :
  (∀ q, qs_requests s !! r = Some q → P q → Q (f q)) → request_is s r P → request_is (on_request r f s) r Q.
Proof. intros HPQ (q & Hq & HP). exists (f q). split; [cbn; by rewrite lookup_alter_eq, Hq|by apply HPQ]. Qed.

Lemma request_is_any s r r' f (P : appendRequest → Prop) :
  (∀ q, qs_requests s !! r = Some q → P q → P (f q)) → request_is s r' P → request_is (on_request r f s) r' P.
Proof. intros HP Hq. destruct (decide (r = r')) as [<-|Hne]; [by apply request_is_this with P|by apply request_is_other]. Qed.

Lemma request_none s r r' f : qs_requests s !! r' = None → qs_requests (on_request r f s) !! r' = None.
Proof. intros Hn. cbn. destruct (decide (r = r')) as [<-|Hne]; [by rewrite lookup_alter_eq, Hn|by rewrite lookup_alter_ne]. Qed.

Lemma queue_inv_request g s r f w :
  let s' := set_worker w (on_request r f s) in
  queue_inv g s → r ∉ qs_queue s → (∀ q res, qs_requests s !! r = Some q → given_ok res q → given_ok res (f q)) →
  NoDup (held s') → held s' ⊆ held s → (∀ x, x ∈ held s → x ≠ r → x ∈ held s') →
  (r ∈ held s' → ∀ q, qs_requests s !! r = Some q → aq_done (f q) = aq_done q) →
  (∀ q, qs_requests s !! r = Some q → request_ok g s r (f q)) →
  (∀ c, qs_callers s !! r = Some c → caller_ok g s' r c) →
  worker_ok g s' w → queue_inv g s'.
Proof.
  intros s' [Hnd Hq Hh Hw Hg Hr Hc] Hrq Hgiven Hnd' Hsub Hstay Hdone Hok Hcaller Hwork.
  assert (∀ x P, r ≠ x → request_is s x P → request_is s' x P) as Hother by (intros x P; apply request_is_other).
  assert (∀ x, x ∈ qs_queue s' ++ held s' → x ∈ qs_queue s ++ held s) as Hin.
  { intros x [Hx|Hx]%elem_of_app; apply elem_of_app; [by left|right; by apply Hsub]. }
  constructor.
  - apply NoDup_app in Hnd as (Hnq & Hdisj & _). apply NoDup_app. split; [exact Hnq|]. split; [|exact Hnd'].
    intros x Hx Hx'. exact (Hdisj x Hx (Hsub x Hx')).
  - apply Forall_forall. intros x Hx. rewrite Forall_forall in Hq. destruct (Hq x Hx) as [Hf Hn]. split; [|done].
    apply Hother; [by intros ->|done].
  - intros x Hx. destruct (decide (r = x)) as [<-|Hne]; [|apply Hother, Hh, Hin; done].
    destruct (Hh r (Hin r Hx)) as (q & Hqr & Hd). apply elem_of_app in Hx as [Hx|Hx]; [done|].
    eapply (request_is_this s r f (λ q, aq_done q = None)); [intros q' Hq'; by rewrite (Hdone Hx q' Hq')|]. by exists q.
  - intros ? [= <-]. exact Hwork.
  - intros x res Hx. apply (request_is_any s r x f (given_ok res)); [intros q; by apply Hgiven|by apply Hg].
  - intros x q Hx. cbn in Hx. destruct (decide (r = x)) as [<-|Hne].
    + rewrite lookup_alter_eq in Hx. apply fmap_Some in Hx as (q0 & Hq0 & ->). exact (Hok q0 Hq0).
    + rewrite lookup_alter_ne in Hx by done. exact (Hr x q Hx).
  - intros x c Hx. destruct (decide (r = x)) as [<-|Hne]; [exact (Hcaller c Hx)|].
    specialize (Hc x c Hx). assert (x ∈ qs_queue s ++ held s → x ∈ qs_queue s' ++ held s') as Hin'.
    { intros [Hx'|Hx']%elem_of_app; apply elem_of_app; [by left|right; by apply Hstay]. }
    destruct c as [| | |err|err|res]; unfold caller_ok in *.
    + by apply request_none.
    + apply Hother; [done|]. destruct Hc as (q & Hq' & Hd). exists q. split; [done|]. destruct Hd; auto.
    + apply Hother; [done|]. destruct Hc as (q & Hq' & Hcm & Hd). exists q. split; [done|]. split; [done|]. destruct Hd; auto.
    + by apply Hother.
    + destruct Hc as (Hx' & Hc). split; [done|]. destruct Hc; [left; by apply request_none|right; by apply Hother].
    + destruct Hc as (Ht & Hx' & Hc). split; [done|]. split; [done|]. destruct Hc as [Hc|[Hc|Hc]].
      * left. by apply request_none.
      * right; left. by apply Hother.
      * right; right. intros Hx2. exact (Hc (Hsub x Hx2)).
Qed.

(** *** The writer *)

Lemma tells_failure g r err : g !! r = None → tells g r (mkAppendResult None (Some err)).
Proof. unfold tells. intros ->. split; [done|by exists err]. Qed.

Lemma result_of_tells g s w r : worker_ok g s w → r ∈ wk_batch w → tells g r (result_of w r).
Proof.
  intros (Ht & Hg & _) Hr. unfold result_of. destruct (wk_results w !! r) as [res|] eqn:E; cbn; [by apply Ht|].
  destruct (g !! r) as [res|] eqn:Eg; [|by apply tells_failure]. rewrite Hg in E by (rewrite ?Eg; eauto). congruence.
Qed.

Lemma insert_failure g r err (m : gmap nat appendResult) :
  g !! r = None → (∀ x res, m !! x = Some res → tells g x res) →
  ∀ x res, <[r := mkAppendResult None (Some err)]> m !! x = Some res → tells g x res.
Proof. intros Hr Hm x res [[<- <-]|[_ Hx]]%lookup_insert_Some; [by apply tells_failure|by apply Hm]. Qed.

Lemma fail_active_lookup ids err (m : gmap nat appendResult) x :
  fail_active ids err m !! x = if decide (x ∈ ids) then Some (mkAppendResult None (Some err)) else m !! x.
Proof.
  induction ids as [|r ids IH]; cbn; [done|]. destruct (decide (x = r)) as [->|Hne].
  - rewrite lookup_insert_eq, decide_True by left. done.
  - rewrite lookup_insert_ne by done. etrans; [exact IH|]. apply decide_ext. set_solver.
Qed.

Lemma refused_ok g s w err :
  worker_ok g s w → Forall (fresh s g) (wk_active w) → worker_ok g s (worker_refused err w).
Proof.
  intros (Ht & Hg & _) Hf. rewrite Forall_forall in Hf.
  assert (∀ x, x ∈ wk_active w → g !! x = None) as Hnone by (intros x Hx; by apply Hf).
  split; [|split; [|by intros x]]; cbn.
  - intros x res. rewrite fail_active_lookup. case_decide; [intros [= <-]; by apply tells_failure, Hnone|apply Ht].
  - intros x Hx Hs. rewrite fail_active_lookup, decide_False; [by apply Hg|]. intros Hx'. rewrite Hnone in Hs by done. by destruct Hs.
Qed.

Section Work.
Context g s w (Hs : queue_inv g s) (Hw : qs_worker s = Some w).

Lemma its_ok : worker_ok g s w.
Proof. exact (qi_worker g s Hs w Hw). Qed.

Lemma held_batch : batching (wk_phase w) = true → held s = wk_batch w.
Proof. unfold held. rewrite Hw. by destruct (wk_phase w). Qed.

Lemma held_is w' : batching (wk_phase w) = true → batching (wk_phase w') = true → wk_batch w' = wk_batch w → held (set_worker w' s) = held s.
Proof. intros H1 H2 Hb. rewrite held_batch by done. unfold held. cbn. by destruct (wk_phase w'). Qed.

Lemma sleeping_inv batch queue :
  wk_phase w = Sleeping → qs_queue s = batch ++ queue →
  queue_inv g (set_worker (mkWorker Checking batch batch [] ∅) (s <| qs_queue := queue |>)).
Proof.
  intros Ew Eq. assert (queue_inv g (s <| qs_queue := queue |> <| qs_worker := Some (mkWorker Checking batch batch [] ∅) |>)) as H'; [|by destruct s].
  pose proof (qi_queue g s Hs) as Hq. rewrite Eq in Hq. apply Forall_app in Hq as [Hf _].
  pose proof (qi_nodup g s Hs) as Hnd. unfold held in Hnd. rewrite Hw, Ew, app_nil_r, Eq in Hnd. apply NoDup_app in Hnd as (Hnd & _ & _).
  apply queue_inv_shift; [done| |by rewrite Eq; apply list_subseteq_app_r|].
  - unfold held. cbn. rewrite Hw, Ew, Eq, app_nil_r. apply Permutation_app_comm.
  - intros ? [= <-]. split; [by intros r res|]. split; [|by split; [|split; [|split]]].
    intros r Hr Hsome. rewrite Forall_forall in Hf. destruct (Hf r Hr) as [_ Hn]. rewrite Hn in Hsome. by destruct Hsome.
Qed.

Lemma exit_inv : held s = [] → queue_inv g (s <| qs_worker := None |>).
Proof.
  intros Eh. assert (queue_inv g (s <| qs_queue := qs_queue s |> <| qs_worker := None |>)) as H'; [|by destruct s].
  apply queue_inv_shift; [done|by rewrite Eh|done|done].
Qed.

Lemma answering_inv : batching (wk_phase w) = true → queue_inv g (set_worker (answering w) s).
Proof. intros Ew. apply queue_inv_work; [done|by rewrite held_batch|]. destruct its_ok as (Ht & Hg & _). split; [done|]. split; [done|by intros x]. Qed.

Lemma checking_inv r todo :
  wk_phase w = Checking → wk_todo w = r :: todo →
  queue_inv g (set_worker (match context s r with
                           | Some err => w <| wk_todo := todo |> <| wk_results ::= insert r (mkAppendResult None (Some err)) |>
                           | None => w <| wk_todo := todo |> <| wk_active ::= λ l, l ++ [r] |>
                           end) s).
Proof.
  intros Ew Et. destruct its_ok as (Ht & Hg & Hp). rewrite Ew, Et in Hp. destruct Hp as (Hf & Hsub & Hnd & Ha).
  apply Forall_cons in Hf as [[Hfr Hn] Hf]. apply queue_inv_work; [done| |].
  - unfold held. rewrite Hw. destruct (context s r); cbn; rewrite Ew; done.
  - destruct (context s r) as [err|].
    + split; [by apply insert_failure|]. split; [|unfold worker_ok; cbn; rewrite Ew; split_and!; [done|set_solver| |done]].
      * intros x Hx Hsome. cbn. rewrite lookup_insert_ne; [by apply Hg|]. intros <-. rewrite Hn in Hsome. by destruct Hsome.
      * apply NoDup_app in Hnd as (Hnd & Hdisj & [_ Hnd2]%NoDup_cons). apply NoDup_app. split; [done|]. split; [|done].
        intros x Hx Hx'. apply (Hdisj x Hx). by right.
    + split; [done|]. split; [done|]. cbn. rewrite Ew, <- app_assoc. split; [done|]. split; [done|]. split; [done|].
      apply Forall_app. split; [done|]. by apply Forall_singleton.
Qed.

Lemma not_queued r : r ∈ held s → r ∉ qs_queue s.
Proof. pose proof (qi_nodup g s Hs) as Hnd. apply NoDup_app in Hnd as (_ & Hnd & _). intros Hr Hq. exact (Hnd r Hq Hr). Qed.

(** The writer after it has asked whether [r] goes on. *)
Definition after_commit (r : nat) (todo : list nat) (err : option string) : worker :=
  let w := w <| wk_todo := todo |> in
  match err with
  | Some err => w <| wk_results ::= insert r (mkAppendResult None (Some err)) |>
  | None => w <| wk_active ::= λ l, l ++ [r] |>
  end.

Lemma commit_cases r q err q' :
  fresh s g r → qs_requests s !! r = Some q → aq_done q = None → commit (context s r) q = (err, q') →
  aq_done q' = None ∧ match err with
  | Some _ => aq_cancelled q' = true ∧ aq_committed q' = false ∧ is_Some (context s r)
  | None => aq_cancelled q' = false ∧ aq_committed q' = true ∧ aq_cancelled q = false
  end.
Proof.
  intros [(q0 & Hq0 & Hcm) _] Hq Hd Ec. assert (q0 = q) as -> by congruence. clear Hq0.
  destruct (qi_request g s Hs r q Hq) as (_ & Hctx & _). unfold commit in Ec. destruct (aq_cancelled q) eqn:Ecan.
  - injection Ec as <- <-. destruct (Hctx eq_refl) as [e ->]. eauto 10.
  - destruct (context s r) as [e|]; injection Ec as <- <-; cbn; eauto 10.
Qed.

Lemma committing_worker r todo err q' :
  wk_phase w = Committing → wk_todo w = r :: todo → is_Some (qs_requests s !! r) → (err = None → aq_committed q' = true) →
  worker_ok g (on_request r (λ _, q') s) (after_commit r todo err).
Proof.
  intros Ew Et [q Hq] Hcm. destruct its_ok as (Ht & Hg & Hp). rewrite Ew, Et in Hp. destruct Hp as (Hf & Hsub & Hnd & Ha).
  apply Forall_cons in Hf as [[_ Hn] Hf]. apply NoDup_app in Hnd as (Hnda & Hdisj & [Hnr Hndt]%NoDup_cons).
  assert (r ∉ wk_active w) as Hna by (intros Hx; apply (Hdisj r Hx); left).
  assert (∀ x P, x ∈ wk_active w ∨ x ∈ todo → request_is s x P → request_is (on_request r (λ _, q') s) x P) as Hother.
  { intros x P Hx. apply request_is_other. intros <-. by destruct Hx. }
  assert (Forall (fresh (on_request r (λ _, q') s) g) todo) as Hf'.
  { rewrite Forall_forall in Hf |- *. intros x Hx. destruct (Hf x Hx) as [H1 H2]. split; [apply Hother; auto|done]. }
  assert (Forall (chosen (on_request r (λ _, q') s) g) (wk_active w)) as Ha'.
  { rewrite Forall_forall in Ha |- *. intros x Hx. destruct (Ha x Hx) as [H1 H2]. split; [apply Hother; auto|done]. }
  assert (NoDup (wk_active w ++ todo)) as Hnd'.
  { apply NoDup_app. split; [done|]. split; [|done]. intros x Hx Hx'. apply (Hdisj x Hx). by right. }
  split; [|split].
  - destruct err; cbn; [by apply insert_failure|done].
  - intros x Hx Hsome. assert (x ∈ wk_batch w) as Hxw by (by destruct err). destruct err as [err|]; cbn; [|by apply Hg].
    rewrite lookup_insert_ne; [by apply Hg|]. intros <-. rewrite Hn in Hsome. by destruct Hsome.
  - destruct err as [err|]; cbn; rewrite Ew.
    + split; [exact Hf'|]. split; [|split; [done|exact Ha']]. intros x Hx. apply Hsub. set_solver.
    + rewrite <- app_assoc. split; [exact Hf'|]. split; [done|]. split.
      * apply NoDup_app. split; [done|]. split; [exact Hdisj|]. by constructor.
      * apply Forall_app. split; [exact Ha'|]. apply Forall_singleton. split; [|done]. exists q'.
        split; [cbn; by rewrite lookup_alter_eq, Hq|by apply Hcm].
Qed.

Lemma committing_inv r todo q err q' :
  wk_phase w = Committing → wk_todo w = r :: todo → qs_requests s !! r = Some q → commit (context s r) q = (err, q') →
  queue_inv g (set_worker (after_commit r todo err) (on_request r (λ _, q') s)).
Proof.
  intros Ew Et Hq Ec. destruct its_ok as (_ & _ & Hp). rewrite Ew, Et in Hp. destruct Hp as (Hf & Hsub & _).
  assert (held s = wk_batch w) as Eb by (apply held_batch; by rewrite Ew).
  apply Forall_cons in Hf as [Hfr _].
  assert (r ∈ held s) as Hr by (rewrite Eb; apply Hsub, elem_of_app; right; left).
  destruct (qi_held g s Hs r ltac:(apply elem_of_app; by right)) as (q0 & Hq0 & Hd). assert (q0 = q) as -> by congruence. clear Hq0.
  destruct (commit_cases r q err q' Hfr Hq Hd Ec) as [Hd' Hcase]. destruct Hfr as [(q0 & Hq0 & Hcm) Hn]. assert (q0 = q) as -> by congruence. clear Hq0.
  assert (∀ s1, held (set_worker (after_commit r todo err) s1) = held s) as Eh by (intros s1; rewrite Eb; unfold held; destruct err; cbn; by rewrite Ew).
  apply queue_inv_request; try done.
  - by apply not_queued.
  - intros q0 res Hq0 [Hcm' _]. congruence.
  - rewrite Eh. pose proof (qi_nodup g s Hs) as Hnd. by apply NoDup_app in Hnd as (_ & _ & Hnd).
  - by rewrite Eh.
  - by rewrite Eh.
  - intros _ q0 Hq0. congruence.
  - intros q0 Hq0. assert (q0 = q) as -> by congruence. destruct (qi_request g s Hs r q Hq) as (_ & _ & _ & Hcall). destruct err; destruct Hcase as (H1 & H2); unfold request_ok.
    + destruct H2 as [H2 H3]. split; [congruence|]. split; [done|]. split; [|done]. intros res Hres. congruence.
    + split; [done|]. split; [congruence|]. split; [|done]. intros res Hres. congruence.
  - intros c Hc. pose proof (qi_callers g s Hs r c Hc) as Hok. assert (qs_requests s !! r ≠ None) as Hne by congruence.
    assert (aq_cancelled q = true → aq_cancelled q' = true) as Hmono by (intros Hx; destruct err; [by destruct Hcase|destruct Hcase; intuition congruence]).
    set (s' := set_worker _ _). assert (∀ P, P q' → request_is s' r P) as Hthis by (intros P HP; exists q'; split; [cbn; by rewrite lookup_alter_eq, Hq|done]).
    destruct c as [| | |e|e|res]; unfold caller_ok in *; rewrite ?(Eh (on_request r (λ _, q') s)).
    + done.
    + apply Hthis. left. apply elem_of_app. right. subst s'. by rewrite Eh.
    + destruct Hok as (q0 & Hq0 & Hcm' & _). congruence.
    + destruct Hok as (q0 & Hq0 & Hcan). assert (q0 = q) as -> by congruence. apply Hthis. auto.
    + destruct Hok as (Hx & [?|(q0 & Hq0 & Hcan)]); [done|]. assert (q0 = q) as -> by congruence. split; [done|right]. apply Hthis. auto.
    + destruct Hok as (Htell & Hx & [?|[(q0 & Hq0 & Hcan)|?]]); [done| |]; (split; [done|]; split; [done|]).
      * assert (q0 = q) as -> by congruence. right; left. apply Hthis. auto.
      * right; right. subst s'. by rewrite Eh.
  - apply committing_worker; [done..|eauto|]. intros ->. apply Hcase.
Qed.

Lemma sending_inv r todo :
  wk_phase w = Sending → wk_todo w = r :: todo →
  queue_inv g (set_worker (w <| wk_phase := Answering |> <| wk_todo := todo |>)
                 (on_request r (λ q, q <| aq_done := Some (result_of w r) |>) s)).
Proof.
  intros Ew Et. pose proof its_ok as (Ht & Hg & Hp). rewrite Ew, Et in Hp.
  assert (held s = r :: todo) as Eh by (unfold held; by rewrite Hw, Ew, Et).
  assert (r ∈ held s) as Hr by (rewrite Eh; left).
  pose proof (qi_nodup g s Hs) as Hnd. rewrite Eh in Hnd. apply NoDup_app in Hnd as (_ & _ & [Hnr Hndt]%NoDup_cons).
  assert (tells g r (result_of w r)) as Htell by (apply (result_of_tells g s); [exact its_ok|apply Hp; left]).
  apply queue_inv_request; try done.
  - by apply not_queued.
  - rewrite Eh. intros x Hx. by right.
  - rewrite Eh. intros x Hx Hne. by apply elem_of_cons in Hx as [->|].
  - intros q Hq. destruct (qi_request g s Hs r q Hq) as (H1 & H2 & _ & H4). split; [done|]. split; [done|]. split; [|done].
    by intros res [= <-].
  - intros c Hc. pose proof (qi_callers g s Hs r c Hc) as Hok. set (f := λ q : appendRequest, _). set (s' := set_worker _ _).
    assert (∀ P Q : appendRequest → Prop, (∀ q, P q → Q (f q)) → request_is s r P → request_is s' r Q) as Hthis.
    { intros P Q HPQ. apply (request_is_this s r f P Q). intros q _. apply HPQ. }
    assert (∀ q, is_Some (aq_done (f q))) as Hdone by (intros q; by eexists).
    destruct c as [| | |e|e|res]; unfold caller_ok in *.
    + by apply request_none.
    + revert Hok. apply Hthis. auto.
    + revert Hok. apply Hthis. intros q [Hcm _]. auto.
    + revert Hok. by apply Hthis.
    + destruct Hok as [Hx Hok]. split; [done|]. destruct Hok as [Hok|Hok]; [left; by apply request_none|right; revert Hok; by apply Hthis].
    + destruct Hok as (H1 & H2 & Hok). split; [done|]. split; [done|]. destruct Hok as [Hok|[Hok|Hok]]; [left; by apply request_none|right; left; revert Hok; by apply Hthis|done].
  - split; [done|]. split; [done|]. cbn. intros x Hx. apply Hp. by right.
Qed.


Lemma writing_inv results requests :
  wk_phase w = Writing → mapM (λ r, qs_requests s !! r) (wk_active w) = Some requests → length results = length requests →
  (∀ i res q, results !! i = Some res → requests !! i = Some q → aq_committed q = true → given_ok res q) →
  let m : gmap nat appendResult := list_to_map (zip (wk_active w) results) in
  queue_inv (m ∪ g) (set_worker (w <| wk_phase := Releasing |> <| wk_results ::= λ results, m ∪ results |>) s).
Proof.
  intros Ew Hreq Hlen Hgiven m. pose proof its_ok as (Ht & Hg & Hp). rewrite Ew in Hp. destruct Hp as (Ha & Hsub & Hnd).
  apply mapM_Some in Hreq. pose proof (Forall2_length _ _ _ Hreq) as Hlen'.
  assert (held s = wk_batch w) as Eb by (apply held_batch; by rewrite Ew).
  set (s' := set_worker _ s). assert (held s' = held s) as Eh by (unfold held; cbn; by rewrite Hw, Ew).
  assert (∀ r res, m !! r = Some res → r ∈ held s ∧ chosen s g r ∧ request_is s r (given_ok res)) as Hm.
  { intros r res Hr. apply elem_of_list_to_map in Hr; [|by rewrite fst_zip by lia].
    apply list_elem_of_lookup_1 in Hr as (i & Hi). apply lookup_zip_Some in Hi as [Hi Hres].
    rewrite Eb. split; [apply Hsub; by eapply list_elem_of_lookup_2|].
    destruct (Forall2_lookup_l _ _ _ i r Hreq Hi) as (q & Hq & Hrq). rewrite Forall_forall in Ha.
    destruct (Ha r ltac:(by eapply list_elem_of_lookup_2)) as [Hc Hn]. split; [done|]. exists q. split; [done|].
    destruct Hc as (q' & Hq' & Hc). assert (q' = q) as -> by congruence. by eapply Hgiven. }
  assert (∀ r, r ∉ held s → (m ∪ g) !! r = g !! r) as Hout.
  { intros r Hr. apply lookup_union_r. destruct (m !! r) as [res|] eqn:E; [|done]. by destruct (Hm r res E). }
  assert (∀ r res, tells g r res → r ∉ held s ∨ m !! r = None → tells (m ∪ g) r res) as Htells.
  { intros r res Hr Ho. unfold tells in *. destruct Ho as [Ho|Ho]; [by rewrite Hout|by rewrite lookup_union_r]. }
  destruct Hs as [Hs1 Hs2 Hs3 Hs4 Hs5 Hs6 Hs7]. constructor.
  - by rewrite Eh.
  - apply Forall_forall. intros r Hr. rewrite Forall_forall in Hs2. destruct (Hs2 r Hr) as [H1 H2]. split; [done|].
    rewrite Hout; [done|]. intros Hr'. apply NoDup_app in Hs1 as (_ & Hdisj & _). exact (Hdisj r Hr Hr').
  - rewrite Eh. exact Hs3.
  - intros ? [= <-]. split; [|split; [|done]].
    + intros r res Hr. apply lookup_union_Some_raw in Hr as [Hr|[Hn Hr]]; [|apply Htells; auto].
      unfold tells. by rewrite (lookup_union_Some_l _ _ _ _ Hr).
    + intros r Hr Hsome. cbn. destruct (m !! r) as [res|] eqn:E; [by rewrite !(lookup_union_Some_l _ _ _ _ E)|].
      rewrite lookup_union_r in Hsome |- * by done. rewrite lookup_union_r by done. by apply Hg.
  - intros r res Hr. apply lookup_union_Some_raw in Hr as [Hr|[Hn Hr]]; [by apply Hm|by apply Hs5].
  - intros r q Hq. change (qs_requests s !! r = Some q) in Hq. destruct (Hs6 r q Hq) as (H1 & H2 & H3 & H4).
    split; [done|]. split; [done|]. split; [|done]. intros res Hres. apply Htells; [by apply H3|]. left. intros Hr.
    destruct (Hs3 r ltac:(apply elem_of_app; by right)) as (q' & Hq' & Hd). congruence.
  - intros r c Hc. specialize (Hs7 r c Hc). destruct c as [| | |e|e|res]; unfold caller_ok in *; rewrite ?Eh; try exact Hs7.
    destruct Hs7 as (Htell & Hx & Hd). split; [|done]. apply Htells; [done|].
    destruct (m !! r) as [res'|] eqn:E; [left|by right]. intros _. destruct (Hm r res' E) as (Hheld & [(q & Hq & Hcm) _] & _).
    destruct (Hs6 r q Hq) as (Hex & _). destruct Hd as [Hd|[(q' & Hq' & Hd)|Hd]]; [congruence| |done].
    assert (q' = q) as -> by congruence. rewrite (Hex Hcm) in Hd. done.
Qed.

End Work.

(** *** The goroutines of Append *)

Lemma request_ok_goes_on g s r c x q : request_ok g s x q → request_ok g (goes_on r c s) x q.
Proof.
  intros (H1 & H2 & H3 & H4). split; [done|]. split; [done|]. split; [done|]. cbn.
  destruct (decide (r = x)) as [->|Hne]; [rewrite lookup_insert_eq; eauto|by rewrite lookup_insert_ne].
Qed.

Lemma queue_inv_touch g s r f c :
  let s' := goes_on r c (on_request r f s) in
  queue_inv g s →
  (∀ q, qs_requests s !! r = Some q →
     aq_committed (f q) = aq_committed q ∧ (r ∈ qs_queue s ++ held s → aq_done (f q) = aq_done q)
     ∧ (∀ res, given_ok res q → given_ok res (f q)) ∧ request_ok g s r (f q)) →
  caller_ok g s' r c → queue_inv g s'.
Proof.
  intros s' [Hnd Hq Hh Hw Hg Hr Hc] Hf Hcaller.
  assert (∀ x P, r ≠ x → request_is s x P → request_is s' x P) as Hother by (intros x P; apply request_is_other).
  assert (∀ x (b : bool), request_is s x (λ q, aq_committed q = b) → request_is s' x (λ q, aq_committed q = b)) as Hcm.
  { intros x b. apply (request_is_any s r x f (λ q, aq_committed q = b)). intros q Hrq <-. by apply Hf. }
  assert (∀ l, Forall (fresh s g) l → Forall (fresh s' g) l) as Hfresh by (intros l Hl; eapply Forall_impl; [exact Hl|]; intros x [H1 H2]; split; [by apply Hcm|done]).
  assert (∀ l, Forall (chosen s g) l → Forall (chosen s' g) l) as Hchosen by (intros l Hl; eapply Forall_impl; [exact Hl|]; intros x [H1 H2]; split; [by apply Hcm|done]).
  constructor; try assumption.
  - by apply Hfresh.
  - intros x Hx. destruct (decide (r = x)) as [<-|Hne]; [|by apply Hother, Hh].
    apply (request_is_this s r f (λ q, aq_done q = None)); [|by apply Hh].
    intros q Hrq Hd. destruct (Hf q Hrq) as (_ & Hd' & _). by rewrite Hd'.
  - intros w Hws. destruct (Hw w Hws) as (H1 & H2 & H3). split; [done|]. split; [done|].
    destruct (wk_phase w); try done; destruct H3 as (H3 & H4); try (split; [by apply Hfresh|done]); try (split; [by apply Hchosen|done]).
    all: destruct H4 as (H4 & H5 & H6); split; [by apply Hfresh|]; split; [done|]; split; [done|]; auto.
  - intros x res Hx. apply (request_is_any s r x f (given_ok res)); [|by apply Hg]. intros q Hrq. by apply Hf.
  - intros x q Hx. cbn in Hx. apply request_ok_goes_on. destruct (decide (r = x)) as [<-|Hne].
    + rewrite lookup_alter_eq in Hx. apply fmap_Some in Hx as (q0 & Hq0 & ->). by apply Hf.
    + rewrite lookup_alter_ne in Hx by done. by apply Hr.
  - intros x c' Hx. cbn in Hx. apply lookup_insert_Some in Hx as [[<- <-]|[Hne Hx]]; [exact Hcaller|].
    specialize (Hc x c' Hx). destruct c' as [| | |e|e|res]; unfold caller_ok in *.
    + by apply request_none.
    + by apply Hother.
    + by apply Hother.
    + by apply Hother.
    + destruct Hc as [Hx1 Hc]. split; [done|]. destruct Hc; [left; by apply request_none|right; by apply Hother].
    + destruct Hc as (Hx1 & Hx2 & Hc). split; [done|]. split; [done|].
      destruct Hc as [Hc|[Hc|Hc]]; [left; by apply request_none|right; left; by apply Hother|by right; right].
Qed.

Lemma no_answer g s r : queue_inv g s → qs_requests s !! r = None ∨ request_is s r (λ q, aq_cancelled q = true) → g !! r = None.
Proof.
  intros Hs Hr. destruct (g !! r) as [res|] eqn:E; [|done]. exfalso. destruct (qi_given g s Hs r res E) as (q & Hq & Hcm & _).
  destruct Hr as [Hr|(q' & Hq' & Hcan)]; [congruence|]. assert (q' = q) as -> by congruence.
  destruct (qi_request g s Hs r q Hq) as (Hex & _). rewrite (Hex Hcm) in Hcan. done.
Qed.

Lemma abandon_inv g s r err q :
  queue_inv g s → qs_callers s !! r = Some Waiting → context s r = Some err → qs_requests s !! r = Some q →
  queue_inv g (abandon r err q s).
Proof.
  intros Hs Hc Hctx Hq. pose proof (qi_callers g s Hs r _ Hc) as (q0 & Hq0 & Hwait). assert (q0 = q) as -> by congruence. clear Hq0.
  unfold abandon. destruct (aq_committed q) eqn:Ecm.
  - apply queue_inv_caller; [done|]. exists q. auto.
  - apply queue_inv_touch; [done| |exists (q <| aq_cancelled := true |> <| aq_event := blank_event |>); split; [cbn; by rewrite lookup_alter_eq, Hq|done]].
    intros q0 Hq0. assert (q0 = q) as -> by congruence. split; [done|]. split; [done|].
    destruct (qi_request g s Hs r q Hq) as (H1 & H2 & H3 & H4). split.
    + intros res [Hcm _]. congruence.
    + split; [cbn; congruence|]. split; [|by split]. intros _. by exists err.
Qed.

Lemma receive_inv g s r c q res :
  queue_inv g s → qs_callers s !! r = Some c → qs_requests s !! r = Some q → aq_done q = Some res →
  queue_inv g (goes_on r (Returned res) (on_request r (λ q, q <| aq_done := None |>) s)).
Proof.
  intros Hs Hc Hq Hd. destruct (qi_request g s Hs r q Hq) as (H1 & H2 & H3 & H4).
  assert (r ∉ qs_queue s ++ held s) as Hout.
  { intros Hr. destruct (qi_held g s Hs r Hr) as (q' & Hq' & Hd'). congruence. }
  apply queue_inv_touch; [done| |].
  - intros q0 Hq0. assert (q0 = q) as -> by congruence. split; [done|]. split; [done|]. split; [done|]. split; [done|]. split; [done|].
    split; [|done]. intros res' Hres. done.
  - apply not_elem_of_app in Hout as [Hx1 Hx2]. split; [by apply H3|]. split; [done|]. by right; right.
Qed.

Lemma refused_inv g s r err :
  queue_inv g s → qs_callers s !! r = Some (Refusing err) →
  queue_inv g (goes_on r (Returned (mkAppendResult None (Some err))) s).
Proof.
  intros Hs Hc. apply queue_inv_caller; [done|]. destruct (qi_callers g s Hs r _ Hc) as (Hx & Hr).
  split; [by apply tells_failure, (no_answer g s)|]. split; [done|]. destruct Hr; auto.
Qed.

Lemma removeQueued_sub r queue : removeQueued r queue ⊆ queue.
Proof.
  induction queue as [|x queue IH]; cbn; [done|]. destruct (x =? r)%nat; [intros y; by right|].
  intros y [->|Hy]%elem_of_cons; [left|right; by apply IH].
Qed.

Lemma removeQueued_spec r queue : NoDup queue → NoDup (removeQueued r queue) ∧ ∀ x, x ∈ removeQueued r queue ↔ x ∈ queue ∧ x ≠ r.
Proof.
  induction 1 as [|x queue Hx Hnd [IH1 IH2]]; cbn; [split; [constructor|]; intros x; by rewrite elem_of_nil; intuition|].
  destruct (Nat.eqb_spec x r) as [->|Hne].
  - split; [done|]. intros y. rewrite elem_of_cons. split; [intros Hy; split; [by right|by intros ->]|intros [[->|]]; done].
  - split; [constructor; [|done]; by rewrite IH2; intros []|]. intros y. rewrite !elem_of_cons, IH2. intuition congruence.
Qed.

Lemma remove_inv g s r err :
  queue_inv g s → qs_callers s !! r = Some (Removing err) →
  queue_inv g (goes_on r (Refusing err) (s <| qs_queue ::= removeQueued r |>)).
Proof.
  intros [Hnd Hq Hh Hw Hg Hr Hc] Hcr. pose proof (Hc r _ Hcr) as Hcan. cbn in Hcan.
  apply NoDup_app in Hnd as (Hnq & Hdisj & Hnh). destruct (removeQueued_spec r _ Hnq) as [Hnr Hin].
  assert (∀ x, x ∈ removeQueued r (qs_queue s) ++ held s → x ∈ qs_queue s ++ held s) as Hsub.
  { intros x. rewrite !elem_of_app, Hin. intuition. }
  constructor.
  - apply NoDup_app. split; [exact Hnr|]. split; [|exact Hnh]. intros x [Hx _]%Hin. by apply Hdisj.
  - apply Forall_forall. intros x [Hx _]%Hin. rewrite Forall_forall in Hq. exact (Hq x Hx).
  - intros x Hx. exact (Hh x (Hsub x Hx)).
  - exact Hw.
  - exact Hg.
  - intros x q Hx. apply request_ok_goes_on. exact (Hr x q Hx).
  - intros x c Hx. cbn in Hx. apply lookup_insert_Some in Hx as [[<- <-]|[Hne Hx]].
    + split; [|by right]. cbn. rewrite Hin. by intros [].
    + specialize (Hc x c Hx). assert (x ∈ qs_queue s ++ held s → x ∈ removeQueued r (qs_queue s) ++ held s) as Hin'.
      { rewrite !elem_of_app, Hin. intuition. }
      destruct c as [| | |e|e|res]; unfold caller_ok in *; try exact Hc.
      * destruct Hc as (q & Hxq & Hd). exists q. split; [exact Hxq|]. destruct Hd as [Hd|Hd]; [left; exact (Hin' Hd)|by right].
      * destruct Hc as (q & Hxq & Hcm & Hd). exists q. split; [exact Hxq|]. split; [done|]. destruct Hd as [Hd|Hd]; [left; exact (Hin' Hd)|by right].
      * destruct Hc as [Hx1 Hc]. split; [|exact Hc]. cbn. rewrite Hin. by intros [].
      * destruct Hc as (Ht & Hx1 & Hc). split; [done|]. split; [|exact Hc]. cbn. rewrite Hin. by intros [].
Qed.

Lemma enqueue_inv g s r e now :
  queue_inv g s → qs_callers s !! r = Some Preparing → queue_inv g (enqueue r e now s).
Proof.
  intros Hs Hcr. pose proof (qi_callers g s Hs r _ Hcr) as Hnone. cbn in Hnone.
  destruct Hs as [Hnd Hq Hh Hw Hg Hr Hc]. set (s' := enqueue r e now s).
  assert (held s' = held s) as Eh by (unfold held; cbn; by destruct (qs_worker s)).
  assert (∀ x P, request_is s x P → r ≠ x) as Hne by (intros x P (q & Hxq & _) <-; congruence).
  assert (∀ x P, request_is s x P → request_is s' x P) as Hother.
  { intros x P Hx. pose proof (Hne x P Hx) as Hx'. destruct Hx as (q & Hxq & HP). exists q. split; [|done]. cbn. by rewrite lookup_insert_ne. }
  assert (∀ l, Forall (fresh s g) l → Forall (fresh s' g) l) as Hfresh by (intros l Hl; eapply Forall_impl; [exact Hl|]; intros x [H1 H2]; split; [by apply Hother|done]).
  assert (∀ l, Forall (chosen s g) l → Forall (chosen s' g) l) as Hchosen by (intros l Hl; eapply Forall_impl; [exact Hl|]; intros x [H1 H2]; split; [by apply Hother|done]).
  assert (request_is s' r (λ q, aq_committed q = false ∧ aq_done q = None)) as Hnew.
  { exists (mkAppendRequest e None false false now). split; [cbn; by rewrite lookup_insert_eq|done]. }
  assert (g !! r = None) as Hgr by (destruct (g !! r) as [res|] eqn:E; [destruct (Hg r res E) as (q & Hq' & _); congruence|done]).
  assert (∀ x, x ∈ qs_queue s ++ held s → x ∈ qs_queue s' ++ held s') as Hin by (intros x; rewrite Eh; cbn; rewrite !elem_of_app; intuition).
  assert (r ∉ qs_queue s ++ held s) as Hout by (intros Hx; by destruct (Hne r _ (Hh r Hx))).
  constructor.
  - rewrite Eh. cbn. rewrite <- app_assoc. apply not_elem_of_app in Hout as [Hout1 Hout2]. apply NoDup_app in Hnd as (Hnd1 & Hnd2 & Hnd3).
    apply NoDup_app. split; [done|]. split; [|by constructor]. intros x Hx [->|Hx']%elem_of_cons; [done|by apply (Hnd2 x)].
  - cbn. apply Forall_app. split; [by apply Hfresh|]. apply Forall_singleton. split; [|done]. destruct Hnew as (q & Hq' & Hcm & _). by exists q.
  - intros x Hx. rewrite Eh in Hx. cbn in Hx. destruct (decide (x = r)) as [->|Hxr]; [destruct Hnew as (q & Hq' & _ & Hd); by exists q|].
    apply Hother, Hh. rewrite !elem_of_app, list_elem_of_singleton in *. intuition.
  - intros w Hws. cbn in Hws. destruct (qs_worker s) as [w0|]; injection Hws as <-.
    + destruct (Hw w0 eq_refl) as (H1 & H2 & H3). split; [done|]. split; [done|].
      destruct (wk_phase w0); try done; destruct H3 as (H3 & H4); try (split; [by apply Hfresh|done]); try (split; [by apply Hchosen|done]).
      all: destruct H4 as (H4 & H5 & H6); split; [by apply Hfresh|]; split; [done|]; split; [done|]; auto.
    + split; [by intros x res|]. split; [|done]. by intros x Hx%elem_of_nil.
  - intros x res Hx. by apply Hother, Hg.
  - intros x q Hx. apply request_ok_goes_on. cbn in Hx. apply lookup_insert_Some in Hx as [[<- <-]|[_ Hx]].
    + split; [done|]. split; [done|]. split; [done|]. cbn. by rewrite Hcr.
    + by apply Hr.
  - intros x c Hx. cbn in Hx. apply lookup_insert_Some in Hx as [[<- <-]|[Hxr Hx]].
    + destruct Hnew as (q & Hq' & _). exists q. split; [exact Hq'|]. left. cbn. rewrite !elem_of_app. left; right; left.
    + specialize (Hc x c Hx). destruct c as [| | |err|err|res]; unfold caller_ok in *.
      * cbn. by rewrite lookup_insert_ne.
      * apply Hother. destruct Hc as (q & Hxq & Hd). exists q. split; [done|]. destruct Hd as [Hd|Hd]; [left; by apply Hin|by right].
      * apply Hother. destruct Hc as (q & Hxq & Hcm & Hd). exists q. split; [done|]. split; [done|]. destruct Hd as [Hd|Hd]; [left; by apply Hin|by right].
      * by apply Hother.
      * destruct Hc as [Hx1 Hc]. split; [cbn; apply not_elem_of_app; split; [done|]; by intros ->%list_elem_of_singleton|].
        destruct Hc as [Hc|Hc]; [left; cbn; by rewrite lookup_insert_ne|right; by apply Hother].
      * destruct Hc as (Ht & Hx1 & Hc). split; [done|]. split; [cbn; apply not_elem_of_app; split; [done|]; by intros ->%list_elem_of_singleton|].
        rewrite Eh. destruct Hc as [Hc|[Hc|Hc]]; [left; cbn; by rewrite lookup_insert_ne|right; left; by apply Hother|by right; right].
Qed.

End Requests.
