(* ===== verification/ActivityQueueAnswers.v ===== *)
(** * ActivityQueueAnswers: what the callers of the journal are told

    Every action keeps ActivityQueueSpec's invariant of the requests and the
    history of the journal, so that a caller is told what the journal said of
    its own event. *)

From S2P Require Import Prelude GoText Durable Binding Metadata ActivityEvent ActivityCalls.
From S2P Require Import ActivityLog ActivityLines ActivityLogSpec ActivityRedact ActivityRedactSpec ActivityStore ActivityQueue ActivityQueueSpec.
Local Open Scope Z_scope.

Section Answers.
Implicit Types (s : store) (r : nat) (g : gmap nat appendResult) (w : worker) (q : appendRequest).

(** *** Every action *)

(** Nothing about requests changes. *)
Definition same_requests s s' : Prop :=
  qs_contexts s' = qs_contexts s ∧ qs_requests s' = qs_requests s ∧ qs_callers s' = qs_callers s
  ∧ qs_queue s' = qs_queue s ∧ qs_worker s' = qs_worker s.

Lemma same_inv g s s' : same_requests s s' → queue_inv g s → queue_inv g s'.
Proof. intros (H1 & H2 & H3 & H4 & H5). by apply queue_inv_other. Qed.

Lemma same_trans s1 s2 s3 : same_requests s1 s2 → same_requests s2 s3 → same_requests s1 s3.
Proof. unfold same_requests. intros (-> & -> & -> & -> & ->) (-> & -> & -> & -> & ->). done. Qed.

Lemma same_unlock s : same_requests s (Unlock s).
Proof. step_unfold. intros. step_cases; by repeat split. Qed.
Lemma same_token s s' : take_token s = Some s' → same_requests s s'.
Proof. step_unfold. intros. step_cases; by repeat split. Qed.
Lemma same_acquire s s' : acquire s = Some s' → same_requests s s'.
Proof. step_unfold. intros. step_cases; by repeat split. Qed.
Lemma same_finish t res s : same_requests s (finish_ticket t res s).
Proof. step_unfold. intros. step_cases; by repeat split. Qed.
Lemma same_take v t s s' : take_ticket v t s = Some s' → same_requests s s'.
Proof. step_unfold. intros. step_cases; by repeat split. Qed.
Lemma same_close v s : same_requests s (close_reservation v s).
Proof. step_unfold. intros. step_cases; by repeat split. Qed.

Section Every.
Context `{Codec : EventCodec} `{Patterns : SecretPatterns}.

Lemma work_inv g s w s' : queue_inv g s → qs_worker s = Some w → work w s = Some s' → queue_inv g s'.
Proof.
  intros Hs Hw Hwork. unfold work in Hwork.
  assert (∀ s1, same_requests s s1 → queue_inv g s1 ∧ qs_worker s1 = Some w) as Hsame.
  { intros s1 H1. split; [by apply (same_inv g s)|]. destruct H1 as (_ & _ & _ & _ & ->). done. }
  assert (∀ s1, batching (wk_phase w) = true → same_requests s s1 → queue_inv g (set_worker (answering w) s1)) as Hanswer.
  { intros s1 Hp Hs1. destruct (Hsame s1 Hs1) as [Hi Hw1]. by apply (answering_inv g s1 w Hi Hw1). }
  pose proof (its_ok g s w Hs Hw) as (Ht & Hg & Hp).
  destruct (wk_phase w) eqn:Ew; [|destruct (wk_todo w) as [|r todo] eqn:Et| | |destruct (wk_todo w) as [|r todo] eqn:Et|done| | |
    destruct (wk_todo w) as [|r todo] eqn:Et|destruct (wk_todo w) as [|r todo] eqn:Et].
  - destruct (qs_queue s) as [|r queue] eqn:Eq; injection Hwork as <-.
    + apply (exit_inv g s w Hs Hw). unfold held. by rewrite Hw, Ew.
    + apply (sleeping_inv g s w Hs Hw); [done|]. rewrite Eq. symmetry. exact (take_drop maxAppendBatch (r :: queue)).
  - injection Hwork as <-. destruct (is_empty (wk_active w)) eqn:Ea; [apply Hanswer; [done..|by repeat split]|].
    apply queue_inv_work; [done|by apply (held_is s w Hw); rewrite ?Ew|]. destruct Hp as (_ & Hsub & Hnd & Hfa). rewrite app_nil_r in Hsub, Hnd.
    done.
  - injection Hwork as <-. by apply (checking_inv g s w Hs Hw).
  - apply bind_Some in Hwork as (s1 & Hx%same_token & [= <-]). destruct (Hsame s1 Hx) as [Hi Hw1].
    pose proof (its_ok g s1 w Hi Hw1) as (_ & _ & Hp1). rewrite Ew in Hp1.
    apply queue_inv_work; [done|by apply (held_is s1 w Hw1); rewrite ?Ew|done].
  - apply bind_Some in Hwork as (s1 & Hx%same_acquire & [= <-]). destruct (Hsame s1 Hx) as [Hi Hw1].
    pose proof (its_ok g s1 w Hi Hw1) as (_ & _ & Hp1). rewrite Ew in Hp1.
    apply queue_inv_work; [done|by apply (held_is s1 w Hw1); rewrite ?Ew|]. destruct Hp1 as (Hf & Hsub & Hnd). by split; [|split; [|split_and!]].
  - injection Hwork as <-. apply queue_inv_work; [done|apply (held_is s w Hw); rewrite ?Ew; cbn; by destruct (is_empty (wk_active w))|].
    destruct Hp as (_ & Hsub & Hnd & Hfa). rewrite app_nil_r in Hsub, Hnd. split; [done|]. split; [done|]. cbn. by destruct (is_empty (wk_active w)).
  - apply bind_Some in Hwork as (q & Hq & Hwork). destruct (commit (context s r) q) as [err q'] eqn:Ec. injection Hwork as <-.
    by apply (committing_inv g s w Hs Hw r todo q err q').
  - injection Hwork as <-. destruct (Hsame (release_file s)) as [Hi Hw1]; [by repeat split|].
    apply queue_inv_work; [done|by apply (held_is _ w Hw1); rewrite ?Ew|done].
  - injection Hwork as <-. apply Hanswer; [done..|apply same_unlock].
  - injection Hwork as <-. apply queue_inv_work; [done|unfold held; cbn; by rewrite Hw, Ew, Et|]. split; [by intros r res|]. split; [by intros r ?%elem_of_nil|done].
  - injection Hwork as <-. destruct (Hsame _ (same_finish r (result_of w r) s)) as [Hi Hw1].
    apply queue_inv_work; [done|unfold held; cbn; by rewrite Hw1, Ew, Et|]. split; [done|]. split; [done|]. cbn. by rewrite Et.
  - done.
  - apply bind_Some in Hwork as (q & Hq & Hwork). destruct (aq_done q) eqn:Ed; [done|]. injection Hwork as <-.
    by apply (sending_inv g s w Hs Hw).
Qed.

Context `{Laws : !EventCodecLaws}.

(** *** Writes *)

Lemma append_history acked options size requests j faults :
  history acked j → 0 < op_Segments options → size <= 4096 → Forall prepared requests →
  history (delivered (answer options size requests j faults) ++ acked) (run_disk (append_batch options size requests j faults))
  ∧ match run_outcome (append_batch options size requests j faults) with
    | Done r => answered acked requests r
    | Failed _ => False
    | Dead => True
    end.
Proof.
  intros Hj Hopt Hsize Hreq. pose proof (append_batch_tri acked options size requests Hreq Hopt Hsize j faults (history_inv acked j Hj)) as Ht.
  unfold answer. destruct (run_outcome _) as [r|e|] eqn:E; [|done|].
  - split; [by apply history_append|apply Ht].
  - split; [by apply history_death|done].
Qed.

Lemma write_spec acked events enqueued stamps size faults started elapsed s s' results :
  history acked (qs_journal s) → 0 < op_Segments (qs_options s) → size <= 4096 → Forall prepared (requests_of events stamps) →
  write events enqueued stamps size faults started elapsed s = Some (s', results) →
  results = answer (qs_options s) size (requests_of events stamps) (qs_journal s) faults
  ∧ same_requests s s' ∧ (history (delivered results ++ acked) (qs_journal s') ∧ qs_options s' = qs_options s)
  ∧ (results = [] ∨ length results = length events
     ∧ ∀ i res e x, results !! i = Some res → ar_event res = Some e → events !! i = Some x →
         ∃ now random, answers (mkRequest x now random) e).
Proof.
  intros Hj Hopt Hsize Hreq. unfold write. destruct (Nat.eqb_spec (length stamps) (length events)) as [El|]; [|done]. cbn [negb].
  destruct (append_history acked _ size _ (qs_journal s) faults Hj Hopt Hsize Hreq) as [Hh Hout]. unfold answer in *.
  destruct (run_outcome _) as [[res written]|e|]; [|done|]; intros [= <- <-].
  - split; [done|]. split; [by repeat split|]. split; [by split|right]. destruct Hout as (Hlen & _ & _ & Hans).
    change (length res = length (requests_of events stamps)) in Hlen.
    split; [unfold requests_of in Hlen; rewrite Hlen, length_zip_with; apply Nat.min_l, Nat.eq_le_incl; symmetry; exact El|].
    intros i [ev err] e x Hi [= ->] Hx. destruct (Hans i e err Hi) as (rq & Hrq & Ha).
    unfold requests_of in Hrq. apply lookup_zip_with_Some in Hrq as (y & st & -> & Hy & Hst). assert (y = x) as -> by congruence. eauto.
  - split; [done|]. split; [by repeat split|]. split; [by split|by left].
Qed.

Lemma work_writes_inv g acked s w s' stamps size faults started elapsed :
  let a := WorkWrites stamps size faults started elapsed in
  queue_inv g s → history acked (qs_journal s) → 0 < op_Segments (qs_options s) → qs_worker s = Some w → prepared_write a s →
  work_writes stamps size faults started elapsed w s = Some s' → queue_inv (handed a s ∪ g) s'.
Proof.
  intros a Hs Hj Hopt Hw [Hprep Hsize] Hwork. unfold work_writes in Hwork. destruct (wk_phase w) eqn:Ew; try done.
  destruct (mapM _ (wk_active w)) as [requests|] eqn:Er; [cbn in Hwork|done].
  assert (to_write a s = Some (wk_active w, requests_of (map aq_event requests) stamps)) as Ea.
  { cbn. rewrite Hw. cbn. unfold worker_requests. by rewrite Er. }
  apply bind_Some in Hwork as ([s1 results'] & Hwrite & [= <-]).
  destruct (write_spec acked _ _ _ _ _ _ _ s s1 results' Hj Hopt Hsize (Hprep _ _ Ea) Hwrite) as (Eres & Hsame & _ & Hcase).
  assert (handed a s = list_to_map (zip (wk_active w) results')) as ->.
  { unfold handed, results, a in *. by rewrite Ea, Eres. }
  assert (queue_inv g s1 ∧ qs_worker s1 = Some w) as [Hi Hw1].
  { split; [by apply (same_inv g s)|]. destruct Hsame as (_ & _ & _ & _ & ->). done. }
  destruct Hcase as [->|[Hlen Hans]].
  - rewrite zip_with_nil_r. cbn [list_to_map foldr]. rewrite (left_id_L ∅ (∪)). apply queue_inv_work; [done|by apply (held_is s1 w Hw1); rewrite ?Ew|].
    pose proof (its_ok g s1 w Hi Hw1) as (H1 & H2 & _). split; [|split; [|done]]; cbn; rewrite (left_id_L ∅ (∪)); done.
  - apply (writing_inv g s1 w Hi Hw1 results' requests); [done| |by rewrite Hlen, length_map|].
    + destruct Hsame as (_ & -> & _). done.
    + intros i res q Hres Hq Hcm. split; [done|]. intros e He. apply (Hans i res e (aq_event q)); [done|done|].
      by rewrite list_lookup_fmap, Hq.
Qed.

(** *** Steps *)

Lemma same_batch b c s : same_requests s (set_batch b c s).
Proof. by repeat split. Qed.

Lemma same_start b v events s : same_requests s (start_batch b v events s).
Proof. step_unfold. intros. step_cases; by repeat split. Qed.

Lemma same_prepares t now b c s s' : batch_prepares t now b c s = Some s' → same_requests s s'.
Proof. step_unfold. intros. step_cases; by repeat split. Qed.

Lemma same_refused t err b c s s' : batch_refused t err b c s = Some s' → same_requests s s'.
Proof. step_unfold. intros. step_cases; by repeat split. Qed.

Lemma same_batch_works b c s s' : batch_works b c s = Some s' → same_requests s s'.
Proof. step_unfold. intros. step_cases; by repeat split. Qed.

Lemma batch_writes_spec acked b c stamps size faults started elapsed s s' :
  history acked (qs_journal s) → 0 < op_Segments (qs_options s) → size <= 4096 →
  Forall prepared (requests_of (map aq_event (batch_requests c)) stamps) →
  batch_writes stamps size faults started elapsed b c s = Some s' →
  same_requests s s' ∧ history (delivered (answer (qs_options s) size (requests_of (map aq_event (batch_requests c)) stamps) (qs_journal s) faults) ++ acked) (qs_journal s')
  ∧ qs_options s' = qs_options s.
Proof.
  intros Hj Hopt Hsize Hreq. unfold batch_writes. destruct (bc_phase c); try done. intros ([s1 results'] & Hw & [= <-])%bind_Some.
  destruct (write_spec acked _ _ _ _ _ _ _ s s1 results' Hj Hopt Hsize Hreq Hw) as (<- & H1 & H2 & _).
  split; [|exact H2]. eapply same_trans; [exact H1|apply same_batch].
Qed.

Lemma queue_step_callers g a s s' :
  queue_inv g s → to_write a s = None → qs_status s = Running → step a s = Some s' →
  match a with
  | ContextDone _ _ | ReserveAppend _ _ | Close _ | GiveBack | Take _ _ | PrepareFails _ _ | ContextFails _ | Enqueue _ _ _
  | Abandon _ | RemoveQueued _ | Finish _ | Receive _ => queue_inv g s'
  | _ => True
  end.
Proof.
  intros Hs _ Est Hstep. unfold step, of_caller in Hstep. rewrite Est in Hstep.
  assert (∀ s1, same_requests s s1 → queue_inv g s1) as Hsame by (intros s1 H1; by apply (same_inv g s)).
  destruct a; try done.
  - case_match eqn:E; [|done]. injection Hstep as <-. apply queue_inv_context; [|done]. apply andb_prop in E as [_ E]. by destruct (context s id).
  - destruct (qs_reservations s !! v); [done|]. case_match; [|done].
    destruct (reserve count (qs_stats s)) as [[] stats]; injection Hstep as <-; apply Hsame; by repeat split.
  - injection Hstep as <-. apply Hsame, same_close.
  - case_match; [done|]. injection Hstep as <-. apply Hsame. by repeat split.
  - destruct (qs_callers s !! r) eqn:Er; [done|]. apply bind_Some in Hstep as (s1 & Hx%same_take & [= <-]).
    apply queue_inv_caller; [by apply Hsame|]. cbn. destruct Hx as (_ & -> & _).
    destruct (qs_requests s !! r) as [q|] eqn:Eq; [|done]. destruct (qi_request g s Hs r q Eq) as (_ & _ & _ & H4). rewrite Er in H4. by destruct H4.
  - apply bind_Some in Hstep as (c & Hc & Hf). destruct c; try done. injection Hf as <-. pose proof (qi_callers g s Hs r _ Hc) as Hok.
    apply queue_inv_caller; [done|]. split; [|by left]. intros Hr. destruct (qi_held g s Hs r) as (q & Hq & _); [apply elem_of_app; by left|]. cbn in Hok. congruence.
  - apply bind_Some in Hstep as (c & Hc & Hf). destruct c; try done. destruct (context s r) as [err|]; [|done]. injection Hf as <-.
    pose proof (qi_callers g s Hs r _ Hc) as Hok.
    apply queue_inv_caller; [done|]. split; [|by left]. intros Hr. destruct (qi_held g s Hs r) as (q & Hq & _); [apply elem_of_app; by left|]. cbn in Hok. congruence.
  - apply bind_Some in Hstep as (c & Hc & Hf). destruct c; try done. apply bind_Some in Hf as (e & _ & [= <-]). by apply enqueue_inv.
  - apply bind_Some in Hstep as (c & Hc & Hf). destruct c; try done. destruct (context s r) as [err|] eqn:Ectx; [|done].
    apply bind_Some in Hf as (q & Hq & [= <-]). by apply abandon_inv.
  - apply bind_Some in Hstep as (c & Hc & Hf). destruct c; try done. injection Hf as <-. by apply remove_inv.
  - apply bind_Some in Hstep as (c & Hc & Hf). destruct c as [| | | |err|]; try done. injection Hf as <-.
    pose proof (same_finish r (mkAppendResult None (Some err)) s) as Hx. apply refused_inv; [by apply Hsame|]. destruct Hx as (_ & _ & -> & _). done.
  - apply bind_Some in Hstep as (c & Hc & Hf). destruct c; try done.
    all: apply bind_Some in Hf as (q & Hq & Hf); apply bind_Some in Hf as (res & Hd & [= <-]); by eapply receive_inv.
Qed.

Lemma work_refused_inv g s w err s' :
  queue_inv g s → qs_worker s = Some w → work_refused err w s = Some s' → queue_inv g s'.
Proof.
  intros Hs Hw. unfold work_refused.
  assert (∀ s1, same_requests s s1 → batching (wk_phase w) = true → Forall (fresh s1 g) (wk_active w) → queue_inv g (set_worker (worker_refused err w) s1)) as H'.
  { intros s1 Hsame Hp Hf. pose proof (same_inv g s s1 Hsame Hs) as Hi.
    assert (qs_worker s1 = Some w) as Hw1 by (destruct Hsame as (_ & _ & _ & _ & ->); done).
    apply queue_inv_work; [done|by rewrite (held_batch s1 w Hw1)|]. apply refused_ok; [by apply its_ok|done]. }
  destruct (wk_phase w) eqn:Ew; try done; intros [= <-]; apply H'; try done.
  - pose proof (its_ok g s w Hs Hw) as (_ & _ & Hp). rewrite Ew in Hp. apply Hp.
  - apply same_unlock.
  - assert (queue_inv g (Unlock s)) as Hi by (by apply (same_inv g s), Hs; apply same_unlock).
    destruct (same_unlock s) as (_ & _ & _ & _ & Ews). pose proof (its_ok g (Unlock s) w Hi ltac:(by rewrite Ews)) as (_ & _ & Hp). rewrite Ew in Hp. apply Hp.
Qed.

Lemma queue_step g acked a s s' :
  queue_inv g s → history acked (qs_journal s) → 0 < op_Segments (qs_options s) → prepared_write a s → step a s = Some s' →
  queue_inv (handed a s ∪ g) s'.
Proof.
  intros Hs Hj Hopt Hproper Hstep. destruct (qs_status s) eqn:Est; [|unfold step in Hstep; by rewrite Est in Hstep..].
  assert (∀ s1, same_requests s s1 → queue_inv g s1) as Hsame by (intros s1 H1; by apply (same_inv g s)).
  destruct (to_write a s) as [[ids requests]|] eqn:Ew.
  - unfold step in Hstep. rewrite Est in Hstep. destruct a; try done.
    + apply bind_Some in Hstep as (w & Hw & Hwork). by apply (work_writes_inv g acked s w s').
    + apply bind_Some in Hstep as (c & Hc & Hwork). cbn in Ew. rewrite Hc in Ew. injection Ew as <- <-.
      destruct Hproper as [Hprep Hsize].
      assert (handed (BatchWrites b stamps size faults started elapsed) s = ∅) as -> by (unfold handed; cbn; by rewrite Hc).
      rewrite (left_id_L ∅ (∪)). apply Hsame. eapply (batch_writes_spec acked); [done..| |exact Hwork]. apply (Hprep []). cbn. by rewrite Hc.
    + injection Ew as <- <-. cbn. rewrite (left_id_L ∅ (∪)). destruct (qs_file s); [done..|]. injection Hstep as <-. apply Hsame. by repeat split.
  - assert (handed a s = ∅) as -> by (unfold handed; by rewrite Ew). rewrite (left_id_L ∅ (∪)).
    pose proof (queue_step_callers g a s s' Hs Ew Est Hstep) as Hcallers.
    unfold step in Hstep. rewrite Est in Hstep. destruct a; try exact Hcallers; clear Hcallers.
    + apply bind_Some in Hstep as (w & Hw & Hwork). by eapply work_inv.
    + apply bind_Some in Hstep as (w & Hw & Hwork). by eapply work_refused_inv.
    + cbn in Ew. by destruct (qs_worker s).
    + destruct (qs_batches s !! b), (qs_reservations s !! v); try done. injection Hstep as <-. apply Hsame, same_start.
    + apply bind_Some in Hstep as (c & _ & Hc). by apply Hsame, (same_prepares t now b c).
    + apply bind_Some in Hstep as (c & _ & Hc). by apply Hsame, (same_refused t err b c).
    + apply bind_Some in Hstep as (c & _ & Hc). by apply Hsame, (same_batch_works b c).
    + cbn in Ew. by destruct (qs_batches s !! b).
    + apply bind_Some in Hstep as (s1 & Hx%same_token & [= <-]). apply Hsame. eapply same_trans; [exact Hx|]. by repeat split.
    + destruct (qs_readers s) as [|[] l]; [done..|]. apply bind_Some in Hstep as (s1 & Hx%same_acquire & [= <-]).
      apply Hsame. eapply same_trans; [exact Hx|]. by repeat split.
    + destruct (qs_readers s) as [|[] l]; [done| |done]. injection Hstep as <-. apply Hsame. case_match; by repeat split.
    + destruct (qs_readers s) as [|[] l]; [done| |done]. injection Hstep as <-. apply Hsame. case_match; by repeat split.
    + destruct (qs_readers s) as [|locked l]; [done|]. injection Hstep as <-. apply Hsame. eapply same_trans; [|apply same_unlock].
      destruct locked; by repeat split.
    + case_match; [|done..]. injection Hstep as <-. apply Hsame. by repeat split.
    + done.
    + case_match; [done..|]. injection Hstep as <-. apply Hsame. by repeat split.
    + case_match; [done..|]. injection Hstep as <-. apply Hsame. by repeat split.
Qed.

(** *** The journal *)

Definition same_journal s s' : Prop := qs_journal s' = qs_journal s ∧ qs_options s' = qs_options s.

Lemma journal_step a s s' :
  step a s = Some s' →
  match a with
  | WorkWrites _ _ _ _ _ | BatchWrites _ _ _ _ _ _ | OthersWrite _ _ _ _ | ReaderCleans _ _ _ _ _ | OthersClean _ _ _ _ _ => True
  | _ => same_journal s s' ∧ results a s = []
  end.
Proof.
  step_unfold. intros Hstep. destruct (qs_status s); [|done..].
  destruct a; try done; (split; [|reflexivity]); step_cases; by split.
Qed.

Lemma history_step acked a s s' :
  history acked (qs_journal s) → 0 < op_Segments (qs_options s) → prepared_write a s → step a s = Some s' →
  history (delivered (results a s) ++ acked) (qs_journal s') ∧ qs_options s' = qs_options s.
Proof.
  intros Hj Hopt [Hprep Hsize] Hstep. pose proof (journal_step a s s' Hstep) as Hsame.
  destruct a; try (destruct Hsame as [[-> ->] ->]; done); clear Hsame; unfold step in Hstep; destruct (qs_status s); try done.
  - apply bind_Some in Hstep as (w & Hw & Hwork). unfold work_writes in Hwork. destruct (wk_phase w); try done.
    destruct (mapM _ (wk_active w)) as [requests|] eqn:Er; [cbn in Hwork|done].
    assert (to_write (WorkWrites stamps size faults started elapsed) s = Some (wk_active w, requests_of (map aq_event requests) stamps)) as Ea.
    { cbn. rewrite Hw. cbn. unfold worker_requests. by rewrite Er. }
    apply bind_Some in Hwork as ([s1 results'] & Hwrite & [= <-]). unfold results. rewrite Ea.
    by destruct (write_spec acked _ _ _ _ _ _ _ s s1 results' Hj Hopt Hsize (Hprep _ _ Ea) Hwrite) as (<- & _ & Hh & _).
  - apply bind_Some in Hstep as (c & Hc & Hwork).
    assert (to_write (BatchWrites b stamps size faults started elapsed) s = Some ([], requests_of (map aq_event (batch_requests c)) stamps)) as Ea by (cbn; by rewrite Hc).
    unfold results. rewrite Ea. by apply (batch_writes_spec acked b c stamps size faults started elapsed s s' Hj Hopt Hsize (Hprep _ _ Ea)).
  - destruct (qs_readers s) as [|[] l]; [done| |done]. injection Hstep as <-.
    assert (history acked (run_disk (Cleanup before now expired size (qs_journal s) faults))) as Hh by (by apply history_cleanup).
    split; [|by case_match]. cbn [results to_write]. by case_match.
  - destruct Hsize as [Ho Hsize]. destruct (qs_file s); [done..|]. injection Hstep as <-. split; [|done]. cbn [results to_write].
    by apply append_history, (Hprep []).
  - destruct (qs_file s); [done..|]. injection Hstep as <-. split; [|done]. cbn [results to_write]. by apply history_cleanup.
Qed.
(** *** The events that wait to be written *)

Record events_inv s : Prop := {
  ei_request : ∀ r q, qs_requests s !! r = Some q → aq_cancelled q = false → clean (aq_event q);
  ei_batch : ∀ b c, qs_batches s !! b = Some c → Forall clean (map aq_event (batch_requests c));
}.

Lemma events_request s s' r f :
  events_inv s → qs_batches s' = qs_batches s → qs_requests s' = alter f r (qs_requests s) →
  (∀ q, qs_requests s !! r = Some q → aq_cancelled (f q) = false → aq_cancelled q = false ∧ aq_event (f q) = aq_event q) →
  events_inv s'.
Proof.
  intros [Hr Hb] Eb Er Hf. constructor; [|by rewrite Eb]. rewrite Er. intros x q Hq Hcan.
  destruct (decide (r = x)) as [<-|Hne]; [|rewrite lookup_alter_ne in Hq by done; by eapply Hr].
  rewrite lookup_alter_eq in Hq. apply fmap_Some in Hq as (q0 & Hq0 & ->). destruct (Hf q0 Hq0 Hcan) as [Hcan0 ->]. by eapply Hr.
Qed.

Lemma events_batch s s' b c :
  events_inv s → qs_requests s' = qs_requests s → qs_batches s' = <[b := c]> (qs_batches s) →
  Forall clean (map aq_event (batch_requests c)) → events_inv s'.
Proof.
  intros [Hr Hb] Er Eb Hc. constructor; [by rewrite Er|]. rewrite Eb. intros x c' Hx.
  apply lookup_insert_Some in Hx as [[_ <-]|[_ Hx]]; [done|by eapply Hb].
Qed.

Lemma commit_event err q :
  let q' := (commit err q).2 in aq_cancelled q' = false → aq_cancelled q = false ∧ aq_event q' = aq_event q.
Proof. unfold commit. destruct (aq_cancelled q) eqn:Eq; [cbn; congruence|by destruct err]. Qed.

Lemma prepares_clean redactor e e' : result_to_option (prepareAppend redactor None None e) = Some e' → clean e'.
Proof. destruct (prepareAppend redactor None None e) as [e1|] eqn:E; [|done]. intros [= <-]. apply prepareAppend_ok in E as (_ & _ & Hc & _). exact Hc. Qed.

Lemma events_step a s s' : events_inv s → step a s = Some s' → events_inv s'.
Proof.
  intros Hs. step_unfold. unfold work_writes, batch_writes, write, close_reservation. intros Hstep. destruct (qs_status s); [|done..].
  destruct a; step_cases.
  all: try (destruct Hs; by constructor).
  all: try (eapply (events_batch s); [exact Hs|reflexivity..|]; 
    first [by constructor|match goal with Hc : qs_batches _ !! _ = Some ?c |- _ => exact (ei_batch _ Hs _ c Hc) end]).
  all: try (eapply (events_request s); [exact Hs|reflexivity..|]; by intros q Hq).
  2,3: eapply (events_request s); [exact Hs|reflexivity..|]; intros q Hq;
    match goal with E : commit ?err ?q0 = _ |- _ =>
      assert (q0 = q) as <- by congruence; pose proof (commit_event err q0) as Hcm; by rewrite E in Hcm end.
  - destruct Hs as [Hr Hb]. constructor; [|exact Hb]. intros y q Hq Hcan. cbn in Hq.
    apply lookup_insert_Some in Hq as [[_ <-]|[_ Hq]]; [by eapply prepares_clean|by eapply Hr].
  - eapply (events_batch s); [exact Hs|reflexivity..|]. unfold batch_requests. cbn. rewrite !map_app.
    apply Forall_app. split; [by eapply (ei_batch s)|]. constructor; [by eapply prepares_clean|constructor].
Qed.

Lemma clean_carried events stamps :
  Forall clean events → Forall carried (requests_of events stamps) → Forall prepared (requests_of events stamps).
Proof.
  rewrite !Forall_forall. intros Hclean Hcarried r Hr. pose proof (Hcarried r Hr) as Hc.
  unfold requests_of in Hr. apply list_elem_of_lookup_1 in Hr as [i Hi].
  apply lookup_zip_with_Some in Hi as (e & st & -> & He & _). destruct (Hclean e) as [H1 H2]; [by eapply list_elem_of_lookup_2|].
  split; [exact H1|split; [exact H2|exact Hc]].
Qed.

Lemma worker_clean g s w :
  queue_inv g s → events_inv s → qs_worker s = Some w → wk_phase w = Writing → Forall clean (map aq_event (worker_requests s w)).
Proof.
  intros Hs He Hw Ep. destruct (qi_worker g s Hs w Hw) as (_ & _ & Hp). rewrite Ep in Hp. destruct Hp as (Hc & _ & _).
  unfold worker_requests. destruct (mapM _ (wk_active w)) as [requests|] eqn:Er; [cbn|by constructor].
  apply mapM_Some in Er. rewrite Forall_fmap. rewrite Forall_forall in Hc. rewrite Forall_forall. intros q Hq.
  apply list_elem_of_lookup_1 in Hq as [i Hi]. destruct (Forall2_lookup_r _ _ _ _ _ Er Hi) as (r & Hr & Hrq).
  destruct (Hc r) as [(q' & Hq' & Hcm) _]; [by eapply list_elem_of_lookup_2|]. assert (q' = q) as -> by congruence.
  eapply (ei_request s He); [exact Hrq|]. by apply (qi_request g s Hs r q).
Qed.

Lemma events_prepared g a s s' :
  queue_inv g s → events_inv s → proper a s → step a s = Some s' → prepared_write a s.
Proof.
  intros Hs He Hproper Hstep. unfold step in Hstep. destruct (qs_status s); [|done..].
  destruct a; try (by split); unfold prepared_write, proper in *.
  - destruct Hproper as [Hsize Hcarried]. split; [|done]. intros ids requests Hw. specialize (Hcarried _ _ Hw). cbn in Hw.
    apply bind_Some in Hstep as (w & Ew & Hwork). rewrite Ew in Hw. injection Hw as <- <-. apply clean_carried; [|done].
    unfold work_writes in Hwork. destruct (wk_phase w) eqn:Ep; try done. by eapply worker_clean.
  - destruct Hproper as [Hsize Hcarried]. split; [|done]. intros ids requests Hw. specialize (Hcarried _ _ Hw). cbn in Hw.
    apply bind_Some in Hstep as (c & Ec & _). rewrite Ec in Hw. injection Hw as <- <-. apply clean_carried; [|done].
    by eapply (ei_batch s He).
  - destruct Hproper as (Ho & Hsize & Hp). split; [|done]. by intros ? ? [= <- <-].
Qed.

(** *** What the answers say *)

Lemma reach_inv s g acked :
  reach s g acked →
  (queue_inv g s ∧ events_inv s) ∧ history acked (qs_journal s) ∧ 0 < op_Segments (qs_options s)
  ∧ ∀ r answer e, g !! r = Some answer → ar_event answer = Some e → e ∈ acked.
Proof.
  induction 1 as [acked j options redactor events bytes Hj Hopt _ _|s g acked a s' _ ([IH1 IHe] & IH2 & IH3 & IH4) Hproper Hstep].
  - split; [|split; [done|split; [done|done]]]. split; [|by constructor]. constructor; cbn; try done; [constructor|by intros r ?%elem_of_nil].
  - pose proof (events_prepared g a s s' IH1 IHe Hproper Hstep) as Hprep.
    destruct (history_step acked a s s' IH2 IH3 Hprep Hstep) as [Hj Eo]. split; [split; [by apply (queue_step g acked)|by apply (events_step a s)]|]. split; [done|].
    split; [by rewrite Eo|]. intros r answer e Hr He. apply lookup_union_Some_raw in Hr as [Hr|[_ Hr]]; apply elem_of_app; [left|right; by eapply IH4].
    unfold handed in Hr. destruct (to_write a s) as [[ids requests]|]; [|done].
    apply elem_of_list_to_map_2 in Hr. apply elem_of_zip_r in Hr. apply list_elem_of_omap. by exists answer.
Qed.

Lemma handed_chosen g a s s' r :
  queue_inv g s → step a s = Some s' → is_Some (handed a s !! r) → r ∈ held s ∧ chosen s g r.
Proof.
  intros Hs Hstep [res Hr]. unfold handed in Hr. destruct (to_write a s) as [[ids requests]|] eqn:Ew; [|done].
  apply elem_of_list_to_map_2, elem_of_zip_l in Hr. unfold step in Hstep. destruct (qs_status s); try done.
  destruct a; try done.
  - apply bind_Some in Hstep as (w & Hw & Hwork). cbn in Ew. rewrite Hw in Ew. injection Ew as <- _.
    pose proof (its_ok g s w Hs Hw) as (_ & _ & Hp). unfold work_writes in Hwork. destruct (wk_phase w) eqn:Ep; try done.
    destruct Hp as (Hc & Hsub & _). rewrite Forall_forall in Hc. rewrite (held_batch s w Hw) by by rewrite Ep. auto.
  - apply bind_Some in Hstep as (c & Hc & _). cbn in Ew. rewrite Hc in Ew. injection Ew as <- _. by apply elem_of_nil in Hr.
  - injection Ew as <- _. by apply elem_of_nil in Hr.
Qed.

Lemma returned_stays a s s' r res :
  qs_callers s !! r = Some (Returned res) → step a s = Some s' → qs_callers s' !! r = Some (Returned res).
Proof.
  intros Hr. unfold step, of_caller, work, work_refused, work_writes, batch_writes, write, batch_prepares, batch_refused, batch_works, start_batch, take_ticket, take_token,
    acquire, abandon, Unlock, finish_ticket, close_reservation.
  intros Hstep. destruct (qs_status s); [|done..].
  destruct a; step_cases; cbn [qs_callers goes_on over set_worker on_request set_batch enqueue]; try exact Hr.
  all: rewrite lookup_insert_ne; [exact Hr|]; intros <-; rewrite Hr in *; done.
Qed.

(** C5: However the goroutines of a store, of its readers and of other processes are interleaved, whatever fails and
    whichever contexts end: the journal stays one whose acknowledged events survive; every Append that has returned was
    told what the journal answered for its own event, or an error without an event if its event was never given to
    the journal; an event reported to its caller is acknowledged; no event is given to the journal twice, nor
    after its Append returned or was given up. *)
Theorem appends_answered_truly s g acked :
  reach s g acked →
  history acked (qs_journal s)
  ∧ (∀ r res, qs_callers s !! r = Some (Returned res) →
       match g !! r with Some answer => res = answer | None => ar_event res = None ∧ is_Some (ar_err res) end)
  ∧ (∀ r answer e, g !! r = Some answer → ar_event answer = Some e →
       e ∈ acked ∧ ∃ q now random, qs_requests s !! r = Some q ∧ answers (mkRequest (aq_event q) now random) e)
  ∧ ∀ a s' r, step a s = Some s' → is_Some (handed a s !! r) →
      g !! r = None ∧ (∀ res, qs_callers s !! r ≠ Some (Returned res)) ∧ ¬ request_is s r (λ q, aq_cancelled q = true).
Proof.
  intros Hreach. destruct (reach_inv s g acked Hreach) as ([Hs _] & Hj & _ & Hacked). split; [done|]. split; [|split].
  - intros r res Hr. apply (qi_callers g s Hs r _ Hr).
  - intros r answer e Hr He. split; [by eapply Hacked|]. destruct (qi_given g s Hs r answer Hr) as (q & Hq & _ & Hev).
    destruct (Hev e He) as (now & random & Ha). eauto.
  - intros a s' r Hstep Hsome. destruct (handed_chosen g a s s' r Hs Hstep Hsome) as (Hheld & (q & Hq & Hcm) & Hn).
    assert (¬ request_is s r (λ q, aq_cancelled q = true)) as Hnot.
    { intros (q' & Hq' & Hcan). assert (q' = q) as -> by congruence. destruct (qi_request g s Hs r q Hq) as (Hex & _). rewrite (Hex Hcm) in Hcan. done. }
    split; [done|]. split; [|done]. intros res Hr. destruct (qi_callers g s Hs r _ Hr) as (_ & _ & [Hx|[Hx|Hx]]); [congruence|done|done].
Qed.
End Every.
End Answers.
