(* ===== verification/ActivityQueueLimits.v ===== *)
(** * ActivityQueueLimits: the budget and the lock of the journal's writers

    What bounds the queue (append_budget.go) and what keeps two goroutines or
    processes from writing at once (resource_mutex.go, lockResource), in every
    state that ActivityQueueSpec's [reach] leads to. *)

From S2P Require Import Prelude GoText Durable Binding Metadata ActivityEvent ActivityCalls.
From S2P Require Import ActivityLog ActivityLines ActivityLogSpec ActivityRedact ActivityRedactSpec ActivityStore ActivityQueue ActivityQueueSpec ActivityQueueAnswers.
Local Open Scope Z_scope.

(** ** Sums over a map *)

Definition total {A} (f : A → Z) (m : gmap nat A) : Z := map_fold (λ _ a n, f a + n) 0 m.

Section Total.
Context {A : Type} (f : A → Z).
Implicit Types (m : gmap nat A).

Lemma total_empty : total f ∅ = 0.
Proof. apply map_fold_empty. Qed.

Lemma total_new m k a : m !! k = None → total f (<[k := a]> m) = f a + total f m.
Proof. intros Hk. unfold total. rewrite map_fold_insert_L; [done| |done]. intros. lia. Qed.

Lemma total_over m k a b : m !! k = Some a → total f (<[k := b]> m) = total f m - f a + f b.
Proof.
  intros Hk. rewrite <- insert_delete_eq, total_new by apply lookup_delete_eq.
  rewrite <- (insert_delete_id m k a Hk) at 2. rewrite total_new by apply lookup_delete_eq. lia.
Qed.

Lemma total_nonneg m : (∀ k a, m !! k = Some a → 0 <= f a) → 0 <= total f m.
Proof.
  induction m as [|k a m Hk IH] using map_ind; intros Hm; [by rewrite total_empty|].
  rewrite total_new by done. assert (0 <= f a) by (eapply Hm, lookup_insert_eq).
  enough (0 <= total f m) by lia. apply IH. intros k' a' Hk'. apply (Hm k'). rewrite lookup_insert_ne; [done|]. congruence.
Qed.

Lemma total_member m k a : (∀ k a, m !! k = Some a → 0 <= f a) → m !! k = Some a → f a <= total f m.
Proof.
  intros Hm Hk. rewrite <- (insert_delete_id m k a Hk), total_new by apply lookup_delete_eq.
  enough (0 <= total f (delete k m)) by lia. apply total_nonneg. intros k' a' [_ Hk']%lookup_delete_Some. by apply (Hm k').
Qed.
End Total.

Definition total_of {A} (f : A → Z) (l : list A) : Z := foldr (λ a n, f a + n) 0 l.

Lemma total_of_cons {A} (f : A → Z) a l : total_of f (a :: l) = f a + total_of f l.
Proof. done. Qed.

Lemma total_of_nonneg {A} (f : A → Z) l : (∀ a, 0 <= f a) → 0 <= total_of f l.
Proof. intros Hf. induction l as [|a l IH]; [done|]. rewrite total_of_cons. specialize (Hf a). lia. Qed.

(** ** The lock *)

Definition flag (b : bool) : Z := if b then 1 else 0.

(** Between LockContext and Unlock, and with the lock file. *)
Definition worker_locks (p : phase) : bool :=
  match p with Opening | Committing | Writing | Releasing | Unlocking => true | _ => false end.
Definition worker_opens (p : phase) : bool := match p with Committing | Writing | Releasing => true | _ => false end.
Definition batch_locks (p : batch_phase) : bool :=
  match p with BOpening | BHolding | BWriting | BReleasing | BUnlocking => true | _ => false end.
Definition batch_opens (p : batch_phase) : bool := match p with BHolding | BWriting | BReleasing => true | _ => false end.

Definition of_worker (f : phase → bool) (w : option worker) : Z := match w with Some w => flag (f (wk_phase w)) | None => 0 end.
Definition of_batch (f : batch_phase → bool) (c : batch_call) : Z := flag (f (bc_phase c)).

Definition lockers (s : store) : Z :=
  of_worker worker_locks (qs_worker s) + total (of_batch batch_locks) (qs_batches s) + total_of (λ _, 1) (qs_readers s).
Definition openers (s : store) : Z :=
  of_worker worker_opens (qs_worker s) + total (of_batch batch_opens) (qs_batches s) + total_of flag (qs_readers s).

Record lock_inv (s : store) : Prop := {
  li_token : lockers s = flag (negb (qs_token s));
  li_file : openers s = match qs_file s with Ours => 1 | _ => 0 end;
  li_status : qs_status s ≠ Panicked;
}.

Section Lock.
Context `{Codec : EventCodec} `{Patterns : SecretPatterns}.

Lemma flag_nonneg b : 0 <= flag b.
Proof. by destruct b. Qed.
Lemma of_worker_nonneg f w : 0 <= of_worker f w.
Proof. destruct w; [apply flag_nonneg|done]. Qed.
Lemma of_batch_total (f : batch_phase → bool) m : 0 <= total (of_batch f) m.
Proof. apply total_nonneg. intros k c _. apply flag_nonneg. Qed.
Lemma of_batch_member (f : batch_phase → bool) m b c : m !! b = Some c → of_batch f c <= total (of_batch f) m.
Proof. apply total_member. intros k a _. apply flag_nonneg. Qed.

Lemma holders_nonneg s :
  (0 <= of_worker worker_locks (qs_worker s) ∧ 0 <= of_worker worker_opens (qs_worker s))
  ∧ (0 <= total (of_batch batch_locks) (qs_batches s) ∧ 0 <= total (of_batch batch_opens) (qs_batches s))
  ∧ 0 <= total_of (λ _, 1) (qs_readers s) ∧ 0 <= total_of flag (qs_readers s)
  ∧ 0 <= match qs_file s with Ours => 1 | _ => 0 end <= 1.
Proof.
  repeat split; try apply of_worker_nonneg; try apply of_batch_total; try (apply total_of_nonneg; intros; apply flag_nonneg).
  - by apply total_of_nonneg.
  - by destruct (qs_file s).
  - by destruct (qs_file s).
Qed.

(** What is known of the holders, in a form for [lia]. *)
Ltac lock_facts :=
  unfold lockers, openers in *; cbn -[total total_of of_worker of_batch] in *;
  repeat match goal with
  | H : qs_worker ?s = _ |- _ => rewrite H in *; clear H
  | H : qs_token ?s = _ |- _ => rewrite H in *; clear H
  | H : qs_file ?s = _ |- _ => rewrite H in *; clear H
  | H : qs_readers ?s = _ |- _ => rewrite H in *; clear H
  | H : qs_batches ?s !! ?b = Some ?c |- _ =>
      pose proof (of_batch_member batch_locks _ b c H); pose proof (of_batch_member batch_opens _ b c H);
      try rewrite (total_over (of_batch batch_locks) _ _ c) by exact H; try rewrite (total_over (of_batch batch_opens) _ _ c) by exact H; clear H
  | H : qs_batches ?s !! ?b = None |- _ =>
      try rewrite (total_new (of_batch batch_locks) _ b) by exact H; try rewrite (total_new (of_batch batch_opens) _ b) by exact H; clear H
  end;
  rewrite ?total_of_cons in *; cbn -[total total_of] in *;
  repeat match goal with
  | H : wk_phase ?w = _ |- _ => rewrite H in *; clear H
  | H : bc_phase ?w = _ |- _ => unfold of_batch in *; cbn -[total total_of] in *; rewrite H in *; clear H
  end; cbn -[total total_of] in *.

Lemma lock_step a s s' : lock_inv s → step a s = Some s' → lock_inv s'.
Proof.
  intros Hs. step_unfold. unfold work_writes, batch_writes, write, close_reservation. intros Hstep.
  destruct (qs_status s) eqn:Est; [|done..]. destruct a; step_cases.
  all: destruct Hs as [Htok Hfile _], (holders_nonneg s) as ([? ?] & [? ?] & ? & ? & ?); constructor; try (cbn; congruence); lock_facts; try lia.
  all: try (destruct (qs_worker s); cbn -[total total_of] in *; lia).
  all: pose proof (total_of_nonneg (λ _, 1) l ltac:(done)); pose proof (total_of_nonneg flag l flag_nonneg); try lia; exfalso; lia.
Qed.
End Lock.

(** ** The budget *)

(** [n] events are reserved. *)
Record accounts (n : Z) (s : AppendStatistics) : Prop := {
  ac_events : as_ReservedEvents s = n;
  ac_bytes : as_ReservedBytes s = n * MaxEventBytes;
  ac_peak : n <= as_PeakEvents s <= as_EventLimit s;
  ac_peak_bytes : n * MaxEventBytes <= as_PeakBytes s <= as_ByteLimit s;
}.

Lemma accounts_reserve n count s granted s' :
  accounts n s → 0 <= count → reserve count s = (granted, s') → accounts (if granted then n + count else n) s'.
Proof.
  intros [H1 H2 [H3 H4] [H5 H6]] Hc. unfold reserve, MaxEventBytes in *. rewrite H1, H2.
  destruct (Z.ltb_spec (as_EventLimit s - n) count), (Z.ltb_spec (as_ByteLimit s - n * 32768) (count * 32768)); cbn [orb];
    intros [= <- <-]; constructor; unfold MaxEventBytes; cbn -[Z.mul]; rewrite ?H1, ?H2; lia.
Qed.

Lemma accounts_give_back n unused s : accounts n s → 0 <= unused → accounts (n - unused) (give_back unused s).
Proof. intros [H1 H2 [H3 H4] [H5 H6]] Hu. unfold MaxEventBytes in *. constructor; cbn -[Z.mul]; unfold MaxEventBytes; lia. Qed.

Lemma accounts_finish n res s : accounts n s → accounts (n - 1) (finish res s).
Proof.
  intros Hs. pose proof (accounts_give_back n 1 s Hs ltac:(lia)) as [H1 H2 H3 H4]. unfold finish.
  destruct (has_number (ar_event res)), (ar_err res) as [err|]; cbn [negb andb]; try destruct (of_context err); constructor; assumption.
Qed.

Lemma accounts_measure n enqueued started elapsed s : accounts n s → accounts n (measureAppend enqueued started elapsed s).
Proof. intros [H1 H2 H3 H4]. by constructor. Qed.

Definition open_ticket (finished : bool) : Z := flag (negb finished).
Definition credits (s : store) : Z :=
  total id (qs_reservations s) + total_of id (qs_closing s) + total open_ticket (qs_tickets s).

Record budget_inv (s : store) : Prop := {
  bi_accounts : accounts (credits s) (qs_stats s);
  bi_left : ∀ v n, qs_reservations s !! v = Some n → 0 <= n;
  bi_closing : Forall (Z.le 0) (qs_closing s);
}.

Section Budget.
Context `{Codec : EventCodec} `{Patterns : SecretPatterns}.
Implicit Types (s : store).

Lemma budget_same s s' :
  qs_reservations s' = qs_reservations s → qs_closing s' = qs_closing s → qs_tickets s' = qs_tickets s →
  (∀ n, accounts n (qs_stats s) → accounts n (qs_stats s')) → budget_inv s → budget_inv s'.
Proof. intros E1 E2 E3 Hst [H1 H2 H3]. constructor; unfold credits in *; rewrite ?E1, ?E2, ?E3; auto. Qed.

Lemma budget_granted s v count stats :
  budget_inv s → qs_reservations s !! v = None → 0 <= count → reserve count (qs_stats s) = (true, stats) →
  budget_inv (s <| qs_stats := stats |> <| qs_reservations ::= insert v count |>).
Proof.
  intros [H1 H2 H3] Hv Hc Hr. pose proof (accounts_reserve _ _ _ _ _ H1 Hc Hr) as Ha. constructor; [|intros x n|done].
  - unfold credits in *. cbn -[total total_of]. rewrite total_new by done. cbn [id].
    replace (count + _ + _ + _) with (total id (qs_reservations s) + total_of id (qs_closing s) + total open_ticket (qs_tickets s) + count) by lia. done.
  - cbn. intros [[_ <-]|[_ Hx]]%lookup_insert_Some; [done|by apply (H2 x)].
Qed.

Lemma budget_closed s v : budget_inv s → budget_inv (close_reservation v s).
Proof.
  intros Hs. unfold close_reservation. destruct (qs_reservations s !! v) as [unused|] eqn:Hv; [|done]. destruct (unused =? 0); [done|].
  destruct Hs as [H1 H2 H3]. constructor; [|intros x n|].
  - unfold credits in *. cbn -[total total_of]. rewrite (total_over id _ _ unused) by done.
    assert (total_of id (qs_closing s ++ [unused]) = total_of id (qs_closing s) + unused) as ->.
    { generalize (qs_closing s) as l. intros l. induction l as [|x l IH]; cbn [app]; rewrite ?total_of_cons; [cbn; lia|]. rewrite IH. cbn. lia. }
    cbn [id]. replace (_ - unused + 0 + _ + _) with (total id (qs_reservations s) + total_of id (qs_closing s) + total open_ticket (qs_tickets s)) by lia. done.
  - cbn. intros [[_ <-]|[_ Hx]]%lookup_insert_Some; [done|by apply (H2 x)].
  - cbn. apply Forall_app. split; [done|]. apply Forall_singleton. by apply (H2 v).
Qed.

Lemma budget_given_back s unused l :
  budget_inv s → qs_closing s = unused :: l → budget_inv (s <| qs_closing := l |> <| qs_stats ::= give_back unused |>).
Proof.
  intros [H1 H2 H3] El. rewrite El in H3. apply Forall_cons in H3 as [Hu H3]. constructor; [|done|done].
  pose proof (accounts_give_back _ unused _ H1 Hu) as Ha. unfold credits in *. rewrite El, total_of_cons in Ha. cbn -[total total_of].
  cbn [id] in Ha. replace (_ + (unused + _) + _ - unused) with (total id (qs_reservations s) + total_of id l + total open_ticket (qs_tickets s)) in Ha by lia. done.
Qed.

Lemma budget_take s v t s' : budget_inv s → take_ticket v t s = Some s' → budget_inv s'.
Proof.
  intros [H1 H2 H3]. unfold take_ticket. destruct (qs_reservations s !! v) as [n|] eqn:Hv; [|done]. destruct (qs_tickets s !! t) eqn:Ht; [done|].
  destruct (Z.eqb_spec n 0) as [|Hn]; [done|]. intros [= <-]. constructor; [|intros x m|done].
  - unfold credits in *. cbn -[total total_of]. rewrite (total_over id _ _ n), total_new by done. cbn [id open_ticket negb flag].
    replace (_ - n + (n - 1) + _ + (1 + _)) with (total id (qs_reservations s) + total_of id (qs_closing s) + total open_ticket (qs_tickets s)) by lia. done.
  - cbn. specialize (H2 v n Hv) as Hp. intros [[_ <-]|[_ Hx]]%lookup_insert_Some; [lia|by apply (H2 x)].
Qed.

Lemma budget_finish s t res : budget_inv s → budget_inv (finish_ticket t res s).
Proof.
  intros Hs. unfold finish_ticket. destruct (qs_tickets s !! t) as [[]|] eqn:Ht; [done| |done]. destruct Hs as [H1 H2 H3].
  constructor; [|done|done]. pose proof (accounts_finish _ res _ H1) as Ha. unfold credits in *. cbn -[total total_of finish].
  rewrite (total_over open_ticket _ _ false) by done. cbn [open_ticket negb flag].
  replace (_ + _ + (_ - 1 + 0)) with (total id (qs_reservations s) + total_of id (qs_closing s) + total open_ticket (qs_tickets s) - 1) by lia. done.
Qed.

Lemma budget_step a s s' : budget_inv s → step a s = Some s' → budget_inv s'.
Proof.
  intros Hs. unfold step, of_caller, work, work_refused, work_writes, batch_writes, write, batch_prepares, batch_refused, batch_works, start_batch, take_token, acquire, abandon, Unlock.
  intros Hstep. destruct (qs_status s) eqn:Est; [|done..]. destruct a; step_cases.
  all: try (destruct Hs; by constructor).
  all: try match goal with
  | H : reserve ?count (qs_stats ?s) = (true, ?st), Hv : qs_reservations ?s !! ?v = None |- _ =>
      eapply budget_same; [..|apply (budget_granted s v count st); [done|done| |done]]; done || lia
  | H : reserve ?count (qs_stats ?s) = (false, ?st) |- _ =>
      apply (budget_same s); [done..| |done]; intros n Hn; apply (accounts_reserve n count (qs_stats s) false st); [done|lia|done]
  | H : take_ticket ?v ?t ?s = Some ?s1 |- _ => apply (budget_same s1); [done..|]; by apply (budget_take s v t)
  | H : qs_closing ?s = _ |- _ => by apply budget_given_back
  | |- context [finish_ticket ?t ?res ?s] => apply (budget_same (finish_ticket t res s)); [done..|]; by apply budget_finish
  | |- context [close_reservation ?v ?s] => apply (budget_same (close_reservation v s)); [done..|]; by apply budget_closed
  | Hs : budget_inv ?s |- context [measureAppend] => apply (budget_same s); [done..| |done]; intros n Hn; by apply accounts_measure
  end.
Qed.
End Budget.

(** *** Whose tickets are open *)

Definition ticketed (c : caller) (ticket : option bool) : Prop :=
  match c with Preparing => ticket = Some false | _ => is_Some ticket end.

Record owners_inv (s : store) : Prop := {
  ow_queue : ∀ r, r ∈ qs_queue s → qs_tickets s !! r = Some false;
  ow_callers : ∀ r c, qs_callers s !! r = Some c → ticketed c (qs_tickets s !! r);
  ow_batch : ∀ b c t, qs_batches s !! b = Some c → t ∈ bc_tickets c → qs_callers s !! t = None ∧ is_Some (qs_tickets s !! t);
}.

Section Owners.
Context `{Codec : EventCodec} `{Patterns : SecretPatterns}.
Implicit Types (s : store) (g : gmap nat appendResult).

Lemma owners_same s s' :
  qs_tickets s' = qs_tickets s → qs_callers s' = qs_callers s → qs_batches s' = qs_batches s → qs_queue s' ⊆ qs_queue s →
  owners_inv s → owners_inv s'.
Proof. intros E1 E2 E3 Hsub [H1 H2 H3]. constructor; rewrite ?E1, ?E2, ?E3; auto. Qed.

Lemma owners_finish s t res :
  owners_inv s → t ∉ qs_queue s → qs_callers s !! t ≠ Some Preparing → owners_inv (finish_ticket t res s).
Proof.
  intros Hs Hq Hc. unfold finish_ticket. destruct (qs_tickets s !! t) as [[]|] eqn:Ht; [done| |done]. destruct Hs as [H1 H2 H3].
  constructor; cbn.
  - intros r Hr. rewrite lookup_insert_ne by (by intros ->). by apply H1.
  - intros r c Hr. destruct (decide (t = r)) as [->|Hne]; [|rewrite lookup_insert_ne by done; by apply H2].
    rewrite lookup_insert_eq. destruct c; cbn; [congruence|eauto..].
  - intros b c r Hb Hr. destruct (H3 b c r Hb Hr) as [Hn Hsome]. split; [done|].
    destruct (decide (t = r)) as [->|Hne]; [rewrite lookup_insert_eq; eauto|by rewrite lookup_insert_ne].
Qed.

Lemma owners_take s v t s' :
  owners_inv s → take_ticket v t s = Some s' →
  owners_inv s' ∧ qs_tickets s' !! t = Some false ∧ qs_callers s' !! t = None ∧ ∀ b c, qs_batches s' !! b = Some c → t ∉ bc_tickets c.
Proof.
  intros [H1 H2 H3]. unfold take_ticket. destruct (qs_reservations s !! v) as [n|]; [|done]. destruct (qs_tickets s !! t) eqn:Ht; [done|].
  destruct (n =? 0); [done|]. intros [= <-].
  assert (qs_callers s !! t = None) as Hn.
  { destruct (qs_callers s !! t) as [c|] eqn:E; [|done]. specialize (H2 t c E). rewrite Ht in H2. destruct c; cbn in H2; [done|by destruct H2..]. }
  split; [|split; [cbn; apply lookup_insert_eq|split; [done|]]].
  - constructor; cbn.
    + intros r Hr. rewrite lookup_insert_ne; [by apply H1|]. intros ->. rewrite (H1 r Hr) in Ht. done.
    + intros r c Hr. rewrite lookup_insert_ne; [by apply H2|]. intros ->. congruence.
    + intros b c r Hb Hr. destruct (H3 b c r Hb Hr) as [Hc Hsome]. split; [done|]. destruct (decide (t = r)) as [->|Hne]; [rewrite lookup_insert_eq; eauto|by rewrite lookup_insert_ne].
  - intros b c Hb Hr. destruct (H3 b c t Hb Hr) as [_ Hsome]. rewrite Ht in Hsome. by destruct Hsome.
Qed.

Lemma owners_caller s r c :
  owners_inv s → ticketed c (qs_tickets s !! r) → (∀ b c, qs_batches s !! b = Some c → r ∉ bc_tickets c) → owners_inv (goes_on r c s).
Proof.
  intros [H1 H2 H3] Hc Hb. constructor; cbn; [done| |].
  - intros x c' [[<- <-]|[_ Hx]]%lookup_insert_Some; [done|by apply H2].
  - intros b c' t Hb' Ht. destruct (H3 b c' t Hb' Ht) as [Hn Hsome]. split; [|done]. rewrite lookup_insert_ne; [done|]. intros ->. by apply (Hb b c').
Qed.

(** A caller that was there before. *)
Lemma owners_moves s r c c' :
  owners_inv s → qs_callers s !! r = Some c → c' ≠ Preparing → owners_inv (goes_on r c' s).
Proof.
  intros Hs Hr Hc. apply owners_caller; [done| |].
  - pose proof (ow_callers s Hs r c Hr) as Ht. assert (is_Some (qs_tickets s !! r)) by (destruct c; cbn in Ht; [rewrite Ht; eauto|done..]). by destruct c'.
  - intros b c1 Hb Hx. destruct (ow_batch s Hs b c1 r Hb Hx) as [Hn _]. congruence.
Qed.

Lemma owners_set_batch s b c :
  owners_inv s → (∀ t, t ∈ bc_tickets c → qs_callers s !! t = None ∧ is_Some (qs_tickets s !! t)) → owners_inv (set_batch b c s).
Proof.
  intros [H1 H2 H3] Hc. constructor; cbn; [done|done|]. intros x c' t [[<- <-]|[_ Hx]]%lookup_insert_Some Ht; [by apply Hc|by eapply H3].
Qed.

(** Fewer tickets wait for the same batch. *)
Lemma owners_batch_moves s b c c' :
  owners_inv s → qs_batches s !! b = Some c → bc_tickets c' ⊆ bc_tickets c → owners_inv (set_batch b c' s).
Proof. intros Hs Hb Hsub. apply owners_set_batch; [done|]. intros t Ht. eapply ow_batch; [done|exact Hb|by apply Hsub]. Qed.

Lemma has_caller g s r : queue_inv g s → r ∈ qs_queue s ++ held s → ∃ c, qs_callers s !! r = Some c ∧ c ≠ Preparing.
Proof.
  intros Hq Hr. destruct (qi_held g s Hq r Hr) as (q & Hrq & _). destruct (qi_request g s Hq r q Hrq) as (_ & _ & _ & [c Hc]).
  exists c. split; [done|]. intros ->. pose proof (qi_callers g s Hq r _ Hc) as Hn. cbn in Hn. congruence.
Qed.

Lemma owners_enqueue s r e now : owners_inv s → qs_callers s !! r = Some Preparing → owners_inv (enqueue r e now s).
Proof.
  intros Hs Hr. apply (owners_moves _ r Preparing Waiting); [|exact Hr|done]. destruct Hs as [H1 H2 H3]. constructor; cbn; [|done|done].
  intros x [Hx| ->%list_elem_of_singleton]%elem_of_app; [by apply H1|exact (H2 r _ Hr)].
Qed.

Lemma owners_answers g s w n todo res :
  queue_inv g s → owners_inv s → qs_worker s = Some w → wk_phase w = Answering → wk_todo w = n :: todo →
  owners_inv (finish_ticket n res s).
Proof.
  intros Hq Hs Hw Ew Et. assert (n ∈ held s) as Hn by (unfold held; rewrite Hw, Ew, Et; left). apply owners_finish; [done| |].
  - by apply (not_queued g s Hq).
  - destruct (has_caller g s n Hq) as (c & Hc & Hp); [apply elem_of_app; by right|]. congruence.
Qed.

Lemma owners_batch_finish g s b c t tickets res :
  queue_inv g s → owners_inv s → qs_batches s !! b = Some c → bc_tickets c = t :: tickets → owners_inv (finish_ticket t res s).
Proof.
  intros Hq Hs Hb Et. destruct (ow_batch s Hs b c t Hb) as [Hn _]; [rewrite Et; left|]. apply owners_finish; [done| |congruence].
  intros Hx. destruct (has_caller g s t Hq) as (c' & Hc & _); [apply elem_of_app; by left|]. congruence.
Qed.

Lemma owners_batch_takes s b c c' v t s' :
  owners_inv s → qs_batches s !! b = Some c → take_ticket v t s = Some s' →
  (∀ x, x ∈ bc_tickets c' → x = t ∨ x ∈ bc_tickets c) → owners_inv (set_batch b c' s').
Proof.
  intros Hs Hb Ht Hsub. destruct (owners_take s v t s' Hs Ht) as (Hs' & Hopen & Hn & _).
  assert (qs_batches s' !! b = Some c) as Hb'.
  { rewrite <- Hb. unfold take_ticket in Ht. step_cases; done. }
  apply owners_set_batch; [done|]. intros x [->|Hx]%Hsub; [rewrite Hopen; eauto|]. by apply (ow_batch s' Hs' b c).
Qed.

Lemma owners_step g a s s' : queue_inv g s → owners_inv s → step a s = Some s' → owners_inv s'.
Proof.
  intros Hq Hs. unfold step, of_caller, work, work_refused, work_writes, batch_writes, write, batch_prepares, batch_refused, batch_works, start_batch, take_token, acquire, abandon, Unlock, close_reservation.
  intros Hstep. destruct (qs_status s) eqn:Est; [|done..]. destruct a; step_cases.
  all: try (destruct Hs; by constructor).
  (* Callers that were there *)
  all: try match goal with
  | H : qs_callers ?s !! ?r = Some ?c |- owners_inv (goes_on ?r ?c' ?s') =>
      by apply (owners_moves s' r c c'); [destruct Hs; by constructor|exact H|]
  end.
  (* Batches whose tickets are no more than before *)
  all: try match goal with
  | |- owners_inv (set_batch ?b (mkBatchCall _ _ _ _ [] _ _) ?s') => apply (owners_set_batch s' b); [destruct Hs; by constructor|]; by intros t ?%elem_of_nil
  | H : qs_batches ?s !! ?b = Some ?c |- owners_inv (set_batch ?b ?c' ?s') =>
      by apply (owners_batch_moves s' b c c'); [destruct Hs; by constructor|exact H|]
  end.
  all: try match goal with
  | H : take_ticket ?v ?t ?s = Some ?s1, Hb : qs_batches ?s !! ?b = Some ?c |- owners_inv (set_batch ?b ?c' ?s1) =>
      apply (owners_batch_takes s b c c' v t s1); [done..|]; intros y; cbn; rewrite ?elem_of_app, ?elem_of_cons, ?elem_of_nil; intuition
  end.
  - destruct (owners_take _ _ _ _ Hs ltac:(eassumption)) as (Hs' & Hopen & _ & Hb). by apply owners_caller.
  - by apply owners_enqueue.
  - eapply owners_moves; [|eassumption|done]. eapply owners_same; [..|exact Hs]; [done..|]. apply removeQueued_sub.
  - assert (qs_callers s !! r = Some (Refusing err)) as Hr by done.
    eapply owners_moves; [apply owners_finish; [done| |congruence]| |done].
    + by destruct (qi_callers g s Hq r _ Hr).
    + destruct (same_finish r (mkAppendResult None (Some err)) s) as (_ & _ & -> & _). exact Hr.
  - eapply owners_same; [..|exact Hs]; [done..|]. intros y Hy. by apply elem_of_nil in Hy.
  - eapply owners_same; [..|exact Hs]; [done..|]. intros y Hy. cbn in Hy.
    match goal with H : qs_queue s = _ |- _ => rewrite H end. right. by apply subseteq_drop in Hy.
  - eapply (owners_same (finish_ticket n (result_of x n) s)); [done..|]. by eapply owners_answers.
  - eapply owners_batch_moves; [by eapply owners_batch_finish| |].
    + unfold finish_ticket. case_match; [case_match|]; eassumption.
    + cbn. match goal with H : bc_tickets _ = _ |- _ => rewrite H end. intros y Hy. by right.
Qed.
End Owners.

(** *** Whose tickets are finished *)

Definition returned (c : caller) : bool := match c with Returned _ => true | _ => false end.

Record settled_inv (s : store) : Prop := {
  se_sending : ∀ w r todo, qs_worker s = Some w → wk_phase w = Sending → wk_todo w = r :: todo → qs_tickets s !! r = Some true;
  se_done : ∀ r q, qs_requests s !! r = Some q → is_Some (aq_done q) → qs_tickets s !! r = Some true;
  se_returned : ∀ r c, qs_callers s !! r = Some c → returned c = true → qs_tickets s !! r = Some true;
  se_open : ∀ t, qs_tickets s !! t = Some false →
    (∃ c, qs_callers s !! t = Some c ∧ returned c = false) ∨ ∃ b c, qs_batches s !! b = Some c ∧ t ∈ bc_tickets c;
  se_batch : ∀ b c, qs_batches s !! b = Some c → bc_phase c = BReturned → bc_tickets c = [];
}.

Section Settled.
Context `{Codec : EventCodec} `{Patterns : SecretPatterns}.
Implicit Types (s : store) (g : gmap nat appendResult).

Lemma settled_same s s' :
  qs_tickets s' = qs_tickets s → qs_callers s' = qs_callers s → qs_batches s' = qs_batches s →
  (∀ r q, qs_requests s' !! r = Some q → is_Some (aq_done q) → qs_tickets s !! r = Some true) →
  (∀ w r todo, qs_worker s' = Some w → wk_phase w = Sending → wk_todo w = r :: todo → qs_tickets s !! r = Some true) →
  settled_inv s → settled_inv s'.
Proof. intros E1 E2 E3 Hd Hw [H1 H2 H3 H4 H5]. constructor; rewrite ?E1, ?E2, ?E3; assumption. Qed.

Lemma settled_other s s' :
  qs_tickets s' = qs_tickets s → qs_callers s' = qs_callers s → qs_batches s' = qs_batches s → qs_requests s' = qs_requests s →
  qs_worker s' = qs_worker s → settled_inv s → settled_inv s'.
Proof. intros E1 E2 E3 E4 E5 [H1 H2 H3 H4 H5]. constructor; rewrite ?E1, ?E2, ?E3, ?E4, ?E5; assumption. Qed.

Lemma settled_finish s t res : settled_inv s → settled_inv (finish_ticket t res s).
Proof.
  intros Hs. unfold finish_ticket. destruct (qs_tickets s !! t) as [[]|] eqn:Ht; [done| |done]. destruct Hs as [H1 H2 H3 H4 H5].
  assert (∀ x, qs_tickets s !! x = Some true → <[t := true]> (qs_tickets s) !! x = Some true) as Hx.
  { intros x Hx. apply lookup_insert_Some. destruct (decide (t = x)); auto. }
  constructor; cbn; [eauto..| |done].
  intros x [[_ Hf]|[_ Hf]]%lookup_insert_Some; [done|by apply H4].
Qed.

Lemma finished t res s : is_Some (qs_tickets s !! t) → qs_tickets (finish_ticket t res s) !! t = Some true.
Proof. intros [[] Ht]; unfold finish_ticket; rewrite Ht; [done|]. cbn. apply lookup_insert_eq. Qed.

Lemma settled_caller s r c :
  settled_inv s → (returned c = true → qs_tickets s !! r = Some true) → settled_inv (goes_on r c s).
Proof.
  intros [H1 H2 H3 H4 H5] Hc. constructor; cbn; [done|done| | |done].
  - intros x c' [[<- <-]|[_ Hx]]%lookup_insert_Some; [done|by apply H3].
  - intros t Ht. destruct (H4 t Ht) as [(c' & Hc' & Hr)|?]; [left|by right].
    destruct (decide (r = t)) as [->|Hne]; [exists c; rewrite lookup_insert_eq|exists c'; by rewrite lookup_insert_ne].
    split; [done|]. destruct (returned c); [|done]. rewrite Hc in Ht by done. done.
Qed.

Lemma settled_take_caller s v r s' :
  settled_inv s → take_ticket v r s = Some s' → settled_inv (goes_on r Preparing s').
Proof.
  intros [H1 H2 H3 H4 H5]. unfold take_ticket. destruct (qs_reservations s !! v); [|done].
  destruct (qs_tickets s !! r) eqn:Hr; [done|]. destruct (_ =? 0); [done|]. intros [= <-].
  assert (∀ x, qs_tickets s !! x = Some true → <[r := false]> (qs_tickets s) !! x = Some true) as Hx.
  { intros x Hx. apply lookup_insert_Some. right. split; [congruence|done]. }
  constructor; cbn; [eauto..| | |done].
  - intros x c [[<- <-]|[_ Hc]]%lookup_insert_Some; [done|eauto].
  - intros t. destruct (decide (r = t)) as [->|Hne]; [intros _; left; exists Preparing; by rewrite lookup_insert_eq|].
    rewrite !lookup_insert_ne by done. apply H4.
Qed.

Lemma settled_set_batch s b c :
  settled_inv s → (∀ c0 t, qs_batches s !! b = Some c0 → t ∈ bc_tickets c0 → t ∈ bc_tickets c ∨ qs_tickets s !! t = Some true) →
  (bc_phase c = BReturned → bc_tickets c = []) → settled_inv (set_batch b c s).
Proof.
  intros [H1 H2 H3 H4 H5] Hb Hc. constructor; cbn; [done..| |].
  - intros t Ht. destruct (H4 t Ht) as [?|(b' & c' & Hb' & Hin)]; [by left|right].
    destruct (decide (b = b')) as [<-|Hne]; [|exists b', c'; by rewrite lookup_insert_ne].
    exists b, c. rewrite lookup_insert_eq. split; [done|]. destruct (Hb c' t Hb' Hin); [done|congruence].
  - intros x c' [[_ <-]|[_ Hx]]%lookup_insert_Some; [done|by apply (H5 x)].
Qed.

Lemma settled_take_batch s v t b c c' s' :
  settled_inv s → qs_batches s !! b = Some c → take_ticket v t s = Some s' → bc_phase c' ≠ BReturned →
  (∀ x, x = t ∨ x ∈ bc_tickets c → x ∈ bc_tickets c') → settled_inv (set_batch b c' s').
Proof.
  intros [H1 H2 H3 H4 H5] Hb. unfold take_ticket. destruct (qs_reservations s !! v); [|done].
  destruct (qs_tickets s !! t) eqn:Ht; [done|]. destruct (_ =? 0); [done|]. intros [= <-] Hc' Hsub.
  assert (∀ x, qs_tickets s !! x = Some true → <[t := false]> (qs_tickets s) !! x = Some true) as Hx.
  { intros x Hx. apply lookup_insert_Some. right. split; [congruence|done]. }
  constructor; cbn; [eauto..| |].
  - intros x. destruct (decide (t = x)) as [->|Hne].
    + intros _. right. exists b, c'. rewrite lookup_insert_eq. auto.
    + rewrite lookup_insert_ne by done. intros Hf. destruct (H4 x Hf) as [?|(b' & c1 & Hb' & Hin)]; [by left|right].
      destruct (decide (b = b')) as [<-|Hne']; [exists b, c'; rewrite lookup_insert_eq|exists b', c1; by rewrite lookup_insert_ne].
      assert (c1 = c) as -> by congruence. auto.
  - intros x c1 [[_ <-]|[_ Hx1]]%lookup_insert_Some; [done|by apply (H5 x)].
Qed.

Lemma settled_request s s' r f :
  settled_inv s → qs_tickets s' = qs_tickets s → qs_callers s' = qs_callers s → qs_batches s' = qs_batches s →
  qs_requests s' = alter f r (qs_requests s) →
  (∀ q, qs_requests s !! r = Some q → is_Some (aq_done (f q)) → is_Some (aq_done q) ∨ qs_tickets s !! r = Some true) →
  (∀ w x todo, qs_worker s' = Some w → wk_phase w = Sending → wk_todo w = x :: todo → qs_tickets s !! x = Some true) →
  settled_inv s'.
Proof.
  intros Hs E1 E2 E3 E4 Hf Hw. apply (settled_same s); [done..| |done|done]. rewrite E4. intros x q Hx Hd.
  destruct (decide (r = x)) as [<-|Hne]; [|rewrite lookup_alter_ne in Hx by done; by eapply (se_done s)].
  rewrite lookup_alter_eq in Hx. apply fmap_Some in Hx as (q0 & Hq0 & ->). destruct (Hf q0 Hq0 Hd); [by eapply (se_done s)|done].
Qed.

Lemma commit_done err q : aq_done (commit err q).2 = aq_done q.
Proof. unfold commit. destruct (aq_cancelled q); [done|]. by destruct err. Qed.

Lemma settled_enqueue s r e now : settled_inv s → settled_inv (enqueue r e now s).
Proof.
  intros Hs. apply settled_caller; [|done]. apply (settled_same s); [done..| | |done]; cbn.
  - intros x q [[_ <-]|[_ Hx]]%lookup_insert_Some; [by intros [? [=]]|by eapply se_done].
  - intros w x todo Hw Ew Et. destruct (qs_worker s) as [w'|] eqn:Ews; injection Hw as <-; [by eapply se_sending|done].
Qed.

Lemma settled_receive s r q res :
  settled_inv s → qs_requests s !! r = Some q → aq_done q = Some res →
  settled_inv (goes_on r (Returned res) (on_request r (λ q, q <| aq_done := None |>) s)).
Proof.
  intros Hs Hr Hd. apply settled_caller.
  - eapply (settled_request s); [done..| |exact (se_sending s Hs)]. intros q' _ Hd'. by left; destruct Hd'.
  - intros _. eapply (se_done s Hs); [exact Hr|rewrite Hd; eauto].
Qed.

Lemma settled_step g a s s' : queue_inv g s → owners_inv s → settled_inv s → step a s = Some s' → settled_inv s'.
Proof.
  intros Hq Ho Hs. unfold step, of_caller, work, work_refused, work_writes, batch_writes, write, batch_prepares, batch_refused, batch_works, start_batch, take_token, acquire, abandon, Unlock, close_reservation.
  intros Hstep. destruct (qs_status s) eqn:Est; [|done..]. destruct a; step_cases.
  all: try (by apply (settled_other s)).
  all: try (apply (settled_same s); [reflexivity..|exact (se_done s Hs)| |exact Hs]; intros w y todo [= <-]; cbn; congruence).
  all: try match goal with
  | H : take_ticket ?v ?r ?s = Some ?s1 |- settled_inv (goes_on ?r Preparing ?s1) => by apply (settled_take_caller s v r s1)
  | H : qs_callers ?s !! ?r = Some ?c |- settled_inv (goes_on ?r ?c' ?s) => by apply settled_caller
  end.
  all: try match goal with
  | H : take_ticket ?v ?t ?s = Some ?s1, Hb : qs_batches ?s !! ?b = Some ?c |- settled_inv (set_batch ?b ?c' ?s1) =>
      apply (settled_take_batch s v t b c c' s1); [done..| |]; cbn; [congruence|intros y; rewrite ?elem_of_app, ?elem_of_cons, ?elem_of_nil; intuition]
  | H : qs_batches ?s !! ?b = _ |- settled_inv (set_batch ?b ?c' ?s') =>
      apply (settled_set_batch s' b c'); [by apply (settled_other s)|intros c0 y; cbn; rewrite H; by intros [= <-]; auto|cbn; congruence]
  end.
  - by apply settled_enqueue.
  - apply settled_caller; [|done]. eapply (settled_request s); [done..| |exact (se_sending s Hs)]. intros q _ Hd. by left.
  - apply settled_caller; [|done]. by apply (settled_other s).
  - apply settled_caller; [by apply settled_finish|intros _]. apply finished.
    match goal with Hc : qs_callers s !! r = Some _ |- _ => exact (ow_callers s Ho r _ Hc) end.
  - by eapply settled_receive.
  - by eapply settled_receive.
  - eapply (settled_request s); [done..| |].
    + intros q Hr Hd. left. match goal with E : commit ?err ?q0 = _ |- _ => assert (q0 = q) as <- by congruence; pose proof (commit_done err q0) as Hcd; rewrite E in Hcd end.
      cbn in Hcd. by rewrite <- Hcd.
    + intros w y todo [= <-]. cbn. congruence.
  - eapply (settled_request s); [done..| |].
    + intros q Hr Hd. left. match goal with E : commit ?err ?q0 = _ |- _ => assert (q0 = q) as <- by congruence; pose proof (commit_done err q0) as Hcd; rewrite E in Hcd end.
      cbn in Hcd. by rewrite <- Hcd.
    + intros w y todo [= <-]. cbn. congruence.
  - apply (settled_same (finish_ticket n (result_of x n) s)); [done..|exact (se_done _ (settled_finish s n _ Hs))| |by apply settled_finish].
    intros w y todo [= <-] _ Ey. cbn in Ey. assert (y = n) as -> by congruence. apply finished.
    destruct (has_caller g s n Hq) as (c & Hc & Hp).
    { apply elem_of_app. right. unfold held. match goal with Hw : qs_worker s = _ |- _ => rewrite Hw end. match goal with Hw : wk_phase x = _ |- _ => rewrite Hw end. rewrite Ey. left. }
    pose proof (ow_callers s Ho n c Hc). by destruct c.
  - eapply (settled_request s); [done..| |].
    + intros q _ _. right. by eapply (se_sending s Hs x).
    + intros w y todo [= <-]. cbn. congruence.
  - apply settled_set_batch; [by apply settled_finish| |cbn; congruence].
    intros c0 y Hc0 Hy. match goal with Hb : qs_batches s !! b = Some x |- _ => pose proof Hb as Hx end.
    assert (qs_batches s !! b = Some c0) as Hc0'.
    { rewrite <- Hc0. unfold finish_ticket. case_match; [case_match|]; done. }
    assert (c0 = x) as -> by congruence. cbn. match goal with Ht : bc_tickets x = _ |- _ => rewrite Ht in Hy; pose proof Ht as Htt end.
    apply elem_of_cons in Hy as [->|Hy]; [right|by left]. apply finished. apply (ow_batch s Ho b x n Hx). rewrite Htt. left.
Qed.
End Settled.

(** ** Every state *)

Section Every.
Context `{Laws : EventCodecLaws} `{Patterns : SecretPatterns}.
Implicit Types (s : store) (g : gmap nat appendResult) (acked : list Event).

Lemma reach_limits s g acked :
  reach s g acked → queue_inv g s ∧ (lock_inv s ∧ budget_inv s) ∧ owners_inv s ∧ settled_inv s.
Proof.
  induction 1 as [acked j options redactor events bytes _ _ He Hb|s g acked a s' Hreach (Hq & (Hl & Hb) & Ho & Hs) Hproper Hstep].
  - split; [constructor; cbn; try done; [constructor|by intros r ?%elem_of_nil]|].
    split; [split; [by constructor|]|split]; constructor; cbn; try done.
    by intros r ?%elem_of_nil.
  - destruct (reach_inv _ _ _ (reach_step s g acked a s' Hreach Hproper Hstep)) as ([Hq' _] & _).
    split; [done|]. split; [split; [by apply (lock_step a s)|by apply (budget_step a s)]|]. split; [by apply (owners_step g a s)|by apply (settled_step g a s)].
Qed.

Lemma open_tickets (l : list nat) (m : gmap nat bool) :
  NoDup l → (∀ r, r ∈ l → m !! r = Some false) → Z.of_nat (length l) <= total open_ticket m.
Proof.
  revert m. induction l as [|r l IH]; intros m Hl Hm.
  - apply total_nonneg. intros k b _. apply flag_nonneg.
  - apply NoDup_cons in Hl as [Hr Hl]. rewrite <- (insert_delete_id m r false) by (apply Hm; left).
    rewrite total_new by apply lookup_delete_eq. cbn [length open_ticket negb flag].
    enough (Z.of_nat (length l) <= total open_ticket (delete r m)) by lia. apply IH; [done|]. intros x Hx.
    rewrite lookup_delete_ne by (by intros ->). apply Hm. by right.
Qed.

Lemma total_zero {A} (f : A → Z) (m : gmap nat A) : (∀ k a, m !! k = Some a → f a = 0) → total f m = 0.
Proof.
  induction m as [|k a m Hk IH] using map_ind; intros Hm; [apply total_empty|]. rewrite total_new by done.
  rewrite (Hm k a) by apply lookup_insert_eq. rewrite IH; [done|]. intros k' a' Hk'. apply (Hm k'). rewrite lookup_insert_ne; congruence.
Qed.

(** C8: However the goroutines are interleaved: the reserved events and bytes are never negative and never exceed
    the limits, the bytes are those of as many events of the maximal size, the queue is never longer than
    what is reserved, and when all Appends and AppendBatches have returned and the reservations are closed,
    nothing is reserved any more. *)
Theorem append_budget_kept s g acked :
  reach s g acked →
  let stats := qs_stats s in
  0 <= as_ReservedEvents stats <= as_EventLimit stats
  ∧ as_ReservedBytes stats = as_ReservedEvents stats * MaxEventBytes ∧ as_ReservedBytes stats <= as_ByteLimit stats
  ∧ Z.of_nat (length (qs_queue s)) <= as_ReservedEvents stats
  ∧ ((∀ r c, qs_callers s !! r = Some c → returned c = true) → (∀ b c, qs_batches s !! b = Some c → bc_phase c = BReturned) →
     (∀ v n, qs_reservations s !! v = Some n → n = 0) → qs_closing s = [] → as_ReservedEvents stats = 0).
Proof.
  intros (Hq & (_ & [[He Hb Hp Hpb] Hleft Hclosing]) & Ho & Hs)%reach_limits stats. subst stats.
  assert (0 <= total id (qs_reservations s)) by (by apply total_nonneg).
  assert (0 <= total_of id (qs_closing s)) by (induction Hclosing; rewrite ?total_of_cons; cbn in *; lia).
  assert (Z.of_nat (length (qs_queue s)) <= total open_ticket (qs_tickets s)).
  { apply open_tickets; [|by apply ow_queue]. pose proof (qi_nodup g s Hq) as Hnd. by apply NoDup_app in Hnd as (? & _). }
  unfold credits in *. rewrite He, Hb. split; [lia|]. split; [done|]. split; [lia|]. split; [lia|].
  intros Hcallers Hbatches Hres ->. rewrite (total_zero id), (total_zero open_ticket); [done| |done].
  intros t [] Ht; [done|]. destruct (se_open s Hs t Ht) as [(c & Hc & Hr)|(b & c & Hc & Hin)].
  - rewrite (Hcallers t c Hc) in Hr. done.
  - rewrite (se_batch s Hs b c Hc) in Hin by by eapply Hbatches. by apply elem_of_nil in Hin.
Qed.

(** C6: However the goroutines of a store and other processes are interleaved: no lock is released that is not held;
    at most one goroutine is between taking the lock and releasing it; as many have the lock file as the
    file says; and the journal is changed only by the goroutine that has both, or by the other process that
    has the file. *)
Theorem one_writer s g acked :
  reach s g acked →
  qs_status s ≠ Panicked
  ∧ lockers s = flag (negb (qs_token s)) ∧ openers s = match qs_file s with Ours => 1 | _ => 0 end
  ∧ ∀ a s', step a s = Some s' → qs_journal s' ≠ qs_journal s →
      match a with
      | WorkWrites _ _ _ _ _ => qs_file s = Ours ∧ ∃ w, qs_worker s = Some w ∧ worker_opens (wk_phase w) = true
      | BatchWrites b _ _ _ _ _ => qs_file s = Ours ∧ ∃ c, qs_batches s !! b = Some c ∧ batch_opens (bc_phase c) = true
      | ReaderCleans _ _ _ _ _ => qs_file s = Ours ∧ head (qs_readers s) = Some true
      | OthersWrite _ _ _ _ | OthersClean _ _ _ _ _ => qs_file s = Others ∧ openers s = 0
      | _ => False
      end.
Proof.
  intros (Hq & ([Htoken Hfile Hstatus] & _) & _)%reach_limits. split; [done|]. split; [done|]. split; [done|].
  intros a s' Hstep Hj. pose proof (journal_step a s s' Hstep) as Hsame. destruct (holders_nonneg s) as ([_ ?] & [_ ?] & _ & ? & _).
  unfold openers in *. destruct a; try (destruct Hsame as [[Hsame _] _]; congruence); unfold step in Hstep; destruct (qs_status s); try done.
  - apply bind_Some in Hstep as (w & Hw & Hwork). unfold work_writes in Hwork. destruct (wk_phase w) eqn:Ew; try done.
    rewrite Hw in *. cbn -[total total_of] in *. rewrite Ew in *. split; [|exists w; split; [done|by rewrite Ew]]. destruct (qs_file s); [cbn in *; lia|done|cbn in *; lia].
  - apply bind_Some in Hstep as (c & Hc & Hwork). unfold batch_writes in Hwork. destruct (bc_phase c) eqn:Ec; try done.
    pose proof (of_batch_member batch_opens _ b c Hc) as Hm. unfold of_batch at 1 in Hm. rewrite Ec in Hm. cbn in Hm.
    split; [|exists c; split; [done|by rewrite Ec]]. destruct (qs_file s); [lia|done|lia].
  - destruct (qs_readers s) as [|[] l]; [done| |done]. split; [|done]. rewrite total_of_cons in *. cbn [flag] in *.
    pose proof (total_of_nonneg flag l flag_nonneg). destruct (qs_file s); [lia|done|lia].
  - destruct (qs_file s); try done.
  - destruct (qs_file s); try done.
Qed.
End Every.
