(* ===== verification/ActivityQueueProgress.v ===== *)
(** * ActivityQueueProgress: the writers of the journal get done

    Appends and AppendBatches that have begun end: every order of their actions
    is finite, and where none of them can act any more all have returned. *)

From S2P Require Import Prelude GoText Durable Binding Metadata ActivityEvent ActivityCalls.
From S2P Require Import ActivityLog ActivityLines ActivityLogSpec ActivityRedact ActivityRedactSpec ActivityStore ActivityQueue ActivityQueueSpec ActivityQueueAnswers ActivityQueueLimits.
Local Open Scope Z_scope.

(** ** What is left to do *)

(** The actions of what has begun; the others are the world's, or begin something. *)
Definition own `{EventCodec} (a : action) : bool :=
  match a with
  | ContextDone _ _ | ReserveAppend _ _ | Close _ | GiveBack | Take _ _ | StartBatch _ _ _
  | ReaderLocks | ReaderOpens | ReaderProjects _ | ReaderCleans _ _ _ _ _
  | OthersLock | OthersWrite _ _ _ _ | OthersClean _ _ _ _ _ => false
  | _ => true
  end.

(** At most so many actions of a goroutine. *)
Definition count {A} (l : list A) : Z := Z.of_nat (length l).

Definition caller_left (c : caller) : Z :=
  match c with
  | Preparing => 19
  | Waiting => 3
  | Removing _ => 2
  | Receiving | Refusing _ => 1
  | Returned _ => 0
  end.

Definition worker_left (w : worker) : Z :=
  let b := 2 * count (wk_batch w) in
  match wk_phase w with
  | Sleeping => 1
  | Checking => 2 * count (wk_todo w) + count (wk_active w) + b + 9
  | Locking => count (wk_active w) + b + 8
  | Opening => count (wk_active w) + b + 7
  | Committing => count (wk_todo w) + b + 6
  | Writing => b + 5
  | Releasing => b + 4
  | Unlocking => b + 3
  | Answering => 2 * count (wk_todo w) + 2
  | Sending => 2 * count (wk_todo w) + 1
  end.

Definition batch_left (c : batch_call) : Z :=
  count (bc_tickets c) +
  match bc_phase c with
  | BPreparing => 2 * count (bc_todo c) + 8
  | BLocking => 7
  | BOpening => 6
  | BHolding => 5
  | BWriting => 4
  | BReleasing => 3
  | BUnlocking => 2
  | BFinishing => 1
  | BReturned => - count (bc_tickets c)
  end.

Definition option_left (w : option worker) : Z := match w with Some w => worker_left w | None => 0 end.

Definition left_to_do (s : store) : Z :=
  total caller_left (qs_callers s) + 13 * count (qs_queue s) + option_left (qs_worker s)
  + total batch_left (qs_batches s) + count (qs_readers s) + match qs_file s with Others => 1 | _ => 0 end.

Lemma count_nonneg {A} (l : list A) : 0 <= count l.
Proof. unfold count. lia. Qed.
Lemma count_cons {A} (a : A) l : count (a :: l) = 1 + count l.
Proof. unfold count. cbn [length]. lia. Qed.
Lemma count_nil {A} : count (@nil A) = 0.
Proof. done. Qed.
Lemma count_app {A} (l l' : list A) : count (l ++ l') = count l + count l'.
Proof. unfold count. rewrite length_app. lia. Qed.
Lemma count_take_drop {A} n (l : list A) : count (take n l) + count (drop n l) = count l.
Proof. by rewrite <- count_app, take_drop. Qed.
Lemma count_removeQueued r queue : count (removeQueued r queue) <= count queue.
Proof.
  induction queue as [|c queue IH]; [done|]. cbn. destruct (c =? r)%nat; rewrite !count_cons; [pose proof (count_nonneg queue)|]; lia.
Qed.

Section Left.
Context `{Codec : EventCodec} `{Patterns : SecretPatterns}.

Lemma caller_left_nonneg c : 0 <= caller_left c.
Proof. destruct c; cbn; lia. Qed.
Lemma batch_left_nonneg c : 0 <= batch_left c.
Proof.
  unfold batch_left. pose proof (count_nonneg (bc_tickets c)). pose proof (count_nonneg (bc_todo c)). destruct (bc_phase c); lia.
Qed.
Lemma worker_left_pos w : 0 < worker_left w.
Proof.
  unfold worker_left. pose proof (count_nonneg (wk_batch w)). pose proof (count_nonneg (wk_active w)).
  pose proof (count_nonneg (wk_todo w)). destruct (wk_phase w); lia.
Qed.

Lemma left_nonneg s : 0 <= left_to_do s.
Proof.
  unfold left_to_do. pose proof (count_nonneg (qs_queue s)). pose proof (count_nonneg (qs_readers s)).
  assert (0 <= total caller_left (qs_callers s)) by (apply total_nonneg; intros; apply caller_left_nonneg).
  assert (0 <= total batch_left (qs_batches s)) by (apply total_nonneg; intros; apply batch_left_nonneg).
  assert (0 <= option_left (qs_worker s)).
  { destruct (qs_worker s) as [w|]; cbn; [pose proof (worker_left_pos w)|]; lia. }
  destruct (qs_file s); lia.
Qed.

(** The parts of the sum, for [lia]. *)
Ltac left_facts :=
  unfold left_to_do; cbn -[total count option_left Z.mul Z.add];
  repeat match goal with
  | H : qs_callers ?s !! ?r = Some ?c |- _ => rewrite (total_over caller_left _ _ c) by exact H; clear H
  | H : qs_batches ?s !! ?b = Some ?c |- _ => rewrite (total_over batch_left _ _ c) by exact H; clear H
  | H : qs_worker ?s = _ |- _ => rewrite H in *; clear H
  | H : qs_readers ?s = _ |- _ => rewrite H in *; clear H
  | H : qs_file ?s = _ |- _ => rewrite H in *; clear H
  | H : qs_queue ?s = _ |- _ => rewrite H in *; clear H
  end;
  repeat match goal with |- context [total ?f ?m] => generalize (total f m); intros ? end;
  unfold batch_left; cbn -[count Z.mul Z.add]; unfold worker_left; cbn -[count Z.mul Z.add];
  repeat match goal with
  | H : wk_phase _ = _ |- _ => rewrite H in *; clear H
  | H : wk_todo _ = _ |- _ => rewrite H in *; clear H
  | H : bc_phase _ = _ |- _ => rewrite H in *; clear H
  | H : bc_todo _ = _ |- _ => rewrite H in *; clear H
  | H : bc_tickets _ = _ |- _ => rewrite H in *; clear H
  end; rewrite ?count_app, ?count_cons, ?count_nil; cbn -[count Z.mul Z.add] in *.

Lemma left_step a s s' : own a = true → step a s = Some s' → left_to_do s' < left_to_do s.
Proof.
  intros Ha. step_unfold. unfold work_writes, batch_writes, write. intros Hstep.
  destruct (qs_status s) eqn:Est; [|done..]. destruct a; try discriminate Ha; clear Ha; step_cases.
  all: left_facts; try lia.
  all: repeat match goal with
    | |- context [count ?l] => lazymatch goal with H : 0 <= count l |- _ => fail | _ => pose proof (count_nonneg l) end
    end; try lia; try (destruct (qs_file s); lia).
  - destruct (qs_worker s); cbn [option_left]; unfold worker_left; cbn [wk_phase new_worker]; destruct (qs_file s); lia.
  - pose proof (count_removeQueued r (qs_queue s)). lia.
  - pose proof (count_take_drop 63 l). lia.
Qed.
End Left.

(** ** Programs that no fault befalls *)

Section Alive.
Context {D : Type}.

Definition alive {A} (m : io D A) : Prop := ∀ d, run_faults (m d []) = [] ∧ run_outcome (m d []) ≠ Dead.

Lemma alive_ret {A} (a : A) : alive (mret a).
Proof. by split. Qed.
Lemma alive_fail {A} e : alive (@io_fail D A e).
Proof. by split. Qed.
Lemma alive_read {A} (f : D → A) : alive (io_read f).
Proof. by split. Qed.
Lemma alive_lift {A} (r : result A) : alive (@io_lift D A r).
Proof. by destruct r. Qed.
Lemma alive_lift_read {A} (f : D → result A) : alive (λ d, io_lift (f d) d).
Proof. intros d. by destruct (f d). Qed.
Lemma alive_write f : alive (@io_write D f).
Proof. by split. Qed.
Lemma alive_sys msg f : alive (@sys D msg f).
Proof. by split. Qed.
Lemma alive_try {A} (m : io D A) : alive m → alive (io_try m).
Proof. intros Hm d. destruct (Hm d) as [Hf Ho]. unfold io_try. by destruct (m d []) as [[] d' l]. Qed.
Lemma alive_bind {A B} (m : io D A) (k : A → io D B) : alive m → (∀ a, alive (k a)) → alive (m ≫= k).
Proof.
  intros Hm Hk d. destruct (Hm d) as [Hf Ho]. unfold mbind, io_bind. destruct (m d []) as [[a|e|] d' l]; cbn in *; [|by split|done].
  rewrite Hf. apply Hk.
Qed.
End Alive.

Create HintDb alive.
#[export] Hint Resolve alive_ret alive_fail alive_read alive_lift alive_lift_read alive_write alive_sys alive_try : alive.
Ltac alive_tac := repeat first [progress (auto with alive)|apply alive_bind; [|intros ?]|apply alive_try|case_match].

Section Progress.
Context `{Codec : EventCodec} `{Patterns : SecretPatterns}.

Lemma alive_write_to path data : alive (write_to path data).
Proof. induction data as [|a data IH]; cbn; alive_tac. Qed.
Lemma alive_append_block path data : alive (append_block path data).
Proof. pose proof (alive_write_to path data). unfold append_block. alive_tac. Qed.
Lemma alive_repairTail path : alive (repairTail path).
Proof. pose proof (alive_write_to path [newline]). unfold repairTail. alive_tac. Qed.
Lemma alive_write_groups fuel items : alive (write_groups fuel items).
Proof.
  revert items. induction fuel as [|fuel IH]; intros items; cbn; [alive_tac|]. destruct items as [|item items]; [alive_tac|].
  destruct (same_path _ _) as [group rest]. apply alive_bind; [apply alive_try, alive_append_block|intros r]. alive_tac.
Qed.
Lemma alive_remove_all files : alive (remove_all files).
Proof. induction files as [|path files IH]; cbn; alive_tac. Qed.
Lemma alive_retain options q size : alive (retain options q size).
Proof. unfold retain, save_state. alive_tac; apply alive_remove_all. Qed.
Lemma alive_append_batch options size requests : alive (append_batch options size requests).
Proof.
  pose proof alive_repairTail. pose proof alive_write_groups. pose proof alive_retain. unfold append_batch. alive_tac.
Qed.

(** ** Who can act *)

Record going_inv (s : store) : Prop := {
  go_idle : qs_worker s = None → qs_queue s = [];
  go_sending : ∀ w, qs_worker s = Some w → wk_phase w = Sending → wk_todo w ≠ [];
}.

Lemma going_step a s s' : going_inv s → step a s = Some s' → going_inv s'.
Proof.
  intros [Hi Hw]. step_unfold. unfold work_writes, batch_writes, write. intros Hstep.
  destruct (qs_status s) eqn:Est; [|done..]. destruct a; step_cases.
  all: try (by constructor).
  all: try (constructor; cbn; [done|by intros w [= <-]]).
  all: try (constructor; cbn; [done|intros w [= <-]; cbn; congruence]).
  - constructor; cbn; [by destruct (qs_worker s)|]. intros w. destruct (qs_worker s) as [w'|]; intros [= <-]; [by apply Hw|done].
  - constructor; cbn; [|done]. intros Hn. by rewrite Hi.
Qed.
End Progress.

Section Going.
Context `{Laws : EventCodecLaws} `{Patterns : SecretPatterns}.
Implicit Types (s : store) (g : gmap nat appendResult) (w : worker) (c : batch_call).

(** An own action that is no error of the lock. *)
Definition succeeds (a : action) s : bool :=
  match a with
  | WorkRefused _ => false
  | BatchRefused b _ _ => match qs_batches s !! b with Some c => match bc_phase c with BPreparing => true | _ => false end | None => false end
  | _ => own a
  end.

Definition can_go s : Prop := ∃ a s', succeeds a s = true ∧ proper a s ∧ step a s = Some s' ∧ qs_status s' = Running.

(** An action that does not write cannot end the process. *)
Lemma step_running a s s' :
  lock_inv s → step a s = Some s' →
  match a with WorkWrites _ _ _ _ _ | BatchWrites _ _ _ _ _ _ | ReaderCleans _ _ _ _ _ => True | _ => qs_status s' = Running end.
Proof.
  intros Hl Hstep. pose proof (li_status s' (lock_step a s s' Hl Hstep)) as Hp. revert Hstep Hp. step_unfold. intros Hstep Hp.
  destruct (qs_status s) eqn:Est; [|done..]. destruct a; try done; step_cases; cbn in *; congruence.
Qed.

Lemma goes a s : lock_inv s → succeeds a s = true → proper a s → is_Some (step a s) →
  match a with WorkWrites _ _ _ _ _ | BatchWrites _ _ _ _ _ _ | ReaderCleans _ _ _ _ _ => False | _ => True end → can_go s.
Proof.
  intros Hl Ha Hp [s' Hs'] Hnot. exists a, s'. split; [done|]. split; [done|]. split; [done|].
  pose proof (step_running a s s' Hl Hs'). by destruct a.
Qed.

(** *** Writes that succeed *)

Definition unstamped (n : nat) : list stamp := replicate n (0, None).

Lemma unstamped_carried events n : Forall carried (requests_of events (unstamped n)).
Proof.
  apply Forall_forall. intros r Hr seq raw _ Hraw. apply list_elem_of_lookup_1 in Hr as [i Hi].
  apply lookup_zip_with_Some in Hi as (e & st & -> & _ & Hst). apply lookup_replicate in Hst as [-> _]. done.
Qed.

Lemma write_goes acked events enqueued s :
  history acked (qs_journal s) → 0 < op_Segments (qs_options s) → Forall clean events →
  ∃ s' res, write events enqueued (unstamped (length events)) 0 [] 0 0 s = Some (s', res) ∧ qs_status s' = qs_status s.
Proof.
  intros Hj Hopt Hclean. unfold write.
  assert (length (unstamped (length events)) = length events) as -> by apply length_replicate. rewrite Nat.eqb_refl. cbn [negb].
  set (requests := requests_of _ _). destruct (append_history acked (qs_options s) 0 requests (qs_journal s) [] Hj Hopt) as [_ Hout]; [done| |].
  - apply clean_carried; [done|apply unstamped_carried].
  - destruct (alive_append_batch (qs_options s) 0 requests (qs_journal s)) as [_ Hd]. destruct (run_outcome _) as [[res written]|e|]; [eauto|done|done].
Qed.

(** *** Every state *)

Record sound g acked s : Prop := {
  so_queue : queue_inv g s;
  so_events : events_inv s;
  so_history : history acked (qs_journal s);
  so_options : 0 < op_Segments (qs_options s);
  so_lock : lock_inv s;
  so_going : going_inv s;
}.

Lemma reach_sound s g acked : reach s g acked → sound g acked s.
Proof.
  intros Hreach. destruct (reach_inv s g acked Hreach) as ([Hq He] & Hj & Ho & _). destruct (reach_limits s g acked Hreach) as (_ & [Hl _] & _).
  constructor; try done. clear Hq He Hj Ho Hl. induction Hreach; [by constructor|by eapply going_step].
Qed.

Section Stuck.
Context (s : store) (g : gmap nat appendResult) (acked : list Event).
Hypothesis Hs : sound g acked s.
Hypothesis Hrun : qs_status s = Running.
Hypothesis Hstuck : ¬ can_go s.

Lemma stuck a :
  succeeds a s = true → proper a s →
  match a with WorkWrites _ _ _ _ _ | BatchWrites _ _ _ _ _ _ | ReaderCleans _ _ _ _ _ => False | _ => True end → step a s = None.
Proof.
  intros Ha Hp Hnot. destruct (step a s) eqn:E; [|done]. destruct Hstuck. apply (goes a s); [apply (so_lock _ _ _ Hs)|done..|rewrite E; eauto|done].
Qed.

Ltac stuck_by a :=
  let Hn := fresh "Hn" in
  pose proof (stuck a eq_refl I I) as Hn; unfold step, of_caller in Hn; rewrite Hrun in Hn; cbn in Hn.

Lemma stuck_readers : qs_readers s = [].
Proof. stuck_by ReaderUnlocks. by destruct (qs_readers s). Qed.

Lemma stuck_others : qs_file s ≠ Others.
Proof. stuck_by OthersUnlock. intros E. by rewrite E in Hn. Qed.

Lemma stuck_worker w : qs_worker s = Some w → wk_phase w = Locking ∨ wk_phase w = Opening.
Proof.
  intros Hw. pose proof (qi_worker g s (so_queue _ _ _ Hs) w Hw) as (_ & _ & Hok). stuck_by Work. rewrite Hw in Hn. cbn in Hn. unfold work in Hn.
  destruct (wk_phase w) eqn:Ew; [| |by left|by right|..]; exfalso; try done.
  - by destruct (wk_todo w).
  - destruct (wk_todo w) as [|r todo]; [done|]. destruct Hok as (Hf & _). apply Forall_cons in Hf as [[(q & Hq & _) _] _].
    rewrite Hq in Hn. cbn in Hn. by destruct (commit _ q).
  - destruct Hok as (Hc & _). assert (∃ requests, mapM (λ r, qs_requests s !! r) (wk_active w) = Some requests) as [requests Hr].
    { apply mapM_is_Some. apply Forall_forall. rewrite Forall_forall in Hc. intros r Hr. destruct (Hc r Hr) as [(q & Hq & _) _]. by exists q. }
    assert (Forall clean (map aq_event (worker_requests s w))) as Hclean.
    { apply (worker_clean g); [apply (so_queue _ _ _ Hs)|apply (so_events _ _ _ Hs)|done|done]. }
    unfold worker_requests in Hclean. rewrite Hr in Hclean. cbn in Hclean.
    destruct (write_goes acked _ (map aq_enqueued requests) s (so_history _ _ _ Hs) (so_options _ _ _ Hs) Hclean) as (s' & res & Hwrite & Hst).
    apply Hstuck. eexists (WorkWrites (unstamped (length (map aq_event requests))) 0 [] 0 0), _. split; [done|]. split; [split; [done|]|].
    + intros ids rs. cbn. rewrite Hw. cbn. intros [= <- <-]. apply unstamped_carried.
    + unfold step. rewrite Hrun, Hw. cbn. unfold work_writes. rewrite Ew, Hr. cbn. rewrite Hwrite. cbn. split; [done|]. cbn. congruence.
  - by destruct (wk_todo w).
  - destruct (wk_todo w) as [|r todo] eqn:Et; [by apply (go_sending s (so_going _ _ _ Hs) w Hw Ew)|].
    destruct (qi_held g s (so_queue _ _ _ Hs) r) as (q & Hq & Hd).
    { apply elem_of_app. right. unfold held. rewrite Hw, Ew, Et. left. }
    rewrite Hq in Hn. cbn in Hn. by rewrite Hd in Hn.
Qed.

Lemma stuck_batch b c : qs_batches s !! b = Some c → bc_phase c = BLocking ∨ bc_phase c = BOpening ∨ bc_phase c = BReturned.
Proof.
  intros Hb. stuck_by (BatchWorks b). rewrite Hb in Hn. cbn in Hn. unfold batch_works in Hn.
  destruct (bc_phase c) eqn:Ec; auto; exfalso; try done.
  - destruct (bc_todo c) as [|e todo] eqn:Et; [done|]. destruct (Z.eqb_spec (default 0 (qs_reservations s !! bc_reservation c)) 0) as [|Hne]; [done|].
    destruct (qs_reservations s !! bc_reservation c) as [n|] eqn:Ev; [|done]. cbn in Hne.
    set (t := base.fresh (dom (qs_tickets s) : gset nat)). assert (step (BatchRefused b t EmptyString) s = None) as Hx.
    { apply stuck; [|done..]. cbn. by rewrite Hb, Ec. }
    unfold step in Hx. rewrite Hrun, Hb in Hx. cbn in Hx. unfold batch_refused, take_ticket in Hx. rewrite Ec, Et, Ev in Hx.
    assert (qs_tickets s !! t = None) as Hf by (apply not_elem_of_dom, is_fresh). rewrite Hf in Hx. by destruct (Z.eqb_spec n 0).
  - pose proof (ei_batch s (so_events _ _ _ Hs) b c Hb) as Hclean.
    destruct (write_goes acked _ (map aq_enqueued (batch_requests c)) s (so_history _ _ _ Hs) (so_options _ _ _ Hs) Hclean) as (s' & res & Hwrite & Hst).
    apply Hstuck. eexists (BatchWrites b (unstamped (length (map aq_event (batch_requests c)))) 0 [] 0 0), _. split; [done|]. split; [split; [done|]|].
    + intros ids rs. cbn. rewrite Hb. cbn. intros [= <- <-]. apply unstamped_carried.
    + unfold step. rewrite Hrun, Hb. cbn. unfold batch_writes. rewrite Ec. fold (batch_requests c). rewrite Hwrite. cbn. split; [done|]. cbn. congruence.
  - by destruct (bc_tickets c).
Qed.

(** The lock is free, as those who wait for it would have it. *)
Lemma stuck_free : qs_worker s = None ∧ ∀ b c, qs_batches s !! b = Some c → bc_phase c = BReturned.
Proof.
  pose proof (so_lock _ _ _ Hs) as [Htok Hfile _]. unfold lockers, openers in *. rewrite stuck_readers in *.
  assert (qs_file s = Nobody) as Hnobody.
  { assert (of_worker worker_opens (qs_worker s) = 0) as Hw0.
    { destruct (qs_worker s) as [w|] eqn:Ew; [cbn|done]. by destruct (stuck_worker w Ew) as [-> | ->]. }
    rewrite Hw0, (total_zero (of_batch batch_opens)) in Hfile.
    - pose proof stuck_others. by destruct (qs_file s).
    - intros b c Hb. unfold of_batch. by destruct (stuck_batch b c Hb) as [->|[-> | ->]]. }
  assert (∀ w, qs_worker s = Some w → wk_phase w = Locking) as Hwl.
  { intros w Hw. destruct (stuck_worker w Hw) as [?|Ew]; [done|exfalso]. stuck_by Work. rewrite Hw in Hn. cbn in Hn. unfold work, acquire in Hn.
    rewrite Ew, Hnobody in Hn. done. }
  assert (∀ b c, qs_batches s !! b = Some c → bc_phase c = BLocking ∨ bc_phase c = BReturned) as Hbl.
  { intros b c Hb. destruct (stuck_batch b c Hb) as [?|[Ec|?]]; [by left|exfalso|by right]. stuck_by (BatchWorks b). rewrite Hb in Hn. cbn in Hn.
    unfold batch_works, acquire in Hn. rewrite Ec, Hnobody in Hn. done. }
  assert (qs_token s = true) as Htoken.
  { assert (of_worker worker_locks (qs_worker s) = 0) as Hw0.
    { destruct (qs_worker s) as [w|] eqn:Ew; [cbn|done]. by rewrite (Hwl w). }
    rewrite Hw0, (total_zero (of_batch batch_locks)) in Htok; [by destruct (qs_token s)|].
    intros b c Hb. unfold of_batch. by destruct (Hbl b c Hb) as [-> | ->]. }
  split.
  - destruct (qs_worker s) as [w|] eqn:Ew; [exfalso|done]. stuck_by Work. rewrite Ew in Hn. cbn in Hn. unfold work, take_token in Hn.
    rewrite (Hwl w), Htoken in Hn by done. done.
  - intros b c Hb. destruct (Hbl b c Hb) as [Ec|?]; [exfalso|done]. stuck_by (BatchWorks b). rewrite Hb in Hn. cbn in Hn.
    unfold batch_works, take_token in Hn. by rewrite Ec, Htoken in Hn.
Qed.

Lemma stuck_caller r (x : caller) : qs_callers s !! r = Some x → returned x = true.
Proof.
  intros Hr. destruct stuck_free as [Hworker _]. pose proof (qi_callers g s (so_queue _ _ _ Hs) r x Hr) as Hc.
  assert (qs_queue s ++ held s = []) as Hnone by (unfold held; by rewrite Hworker, (go_idle s (so_going _ _ _ Hs) Hworker)).
  destruct x; cbn in Hc; [..|done]; exfalso.
  - stuck_by (PrepareFails r EmptyString). by rewrite Hr in Hn.
  - destruct Hc as (q & Hq & [Hin|[res Hd]]); [rewrite Hnone in Hin; by apply elem_of_nil in Hin|].
    stuck_by (Receive r). rewrite Hr in Hn. cbn in Hn. rewrite Hq in Hn. cbn in Hn. by rewrite Hd in Hn.
  - destruct Hc as (q & Hq & _ & [Hin|[res Hd]]); [rewrite Hnone in Hin; by apply elem_of_nil in Hin|].
    stuck_by (Receive r). rewrite Hr in Hn. cbn in Hn. rewrite Hq in Hn. cbn in Hn. by rewrite Hd in Hn.
  - stuck_by (RemoveQueued r). by rewrite Hr in Hn.
  - stuck_by (Finish r). by rewrite Hr in Hn.
Qed.
End Stuck.

(** C7: Appends and AppendBatches always get done.  From every state that can be reached, whatever the faults and
    in whatever order the goroutines act, the actions of what has begun are finitely many, at most [left_to_do];
    and a running store in which none of them can act any more, not even one that is no error of the lock,
    has no goroutine that waits: every Append and AppendBatch has returned, the queue is empty, the goroutine that
    writes has ended, and the lock and its file are free. *)
Theorem appends_complete s g acked :
  reach s g acked →
  (∀ actions s', Forall (λ a, own a = true) actions → exec actions s = Some s' → count actions <= left_to_do s)
  ∧ (qs_status s = Running → ¬ can_go s →
     (∀ r x, qs_callers s !! r = Some x → ∃ res, x = Returned res) ∧ (∀ b c, qs_batches s !! b = Some c → bc_phase c = BReturned)
     ∧ qs_queue s = [] ∧ qs_worker s = None ∧ qs_token s = true ∧ qs_file s = Nobody).
Proof.
  intros Hs%reach_sound. split.
  - intros actions s' Hown. clear Hs. revert s. induction Hown as [|a actions Ha Hown IH]; intros s; [intros; apply left_nonneg|].
    unfold exec. cbn. destruct (step a s) as [s1|] eqn:Estep.
    + intros Hrest. pose proof (left_step a s s1 Ha Estep). specialize (IH s1 Hrest). rewrite count_cons. lia.
    + intros Hrest. exfalso. clear -Hrest. induction actions as [|a actions IH]; [done|]. by apply IH.
  - intros Hrun Hstuck. destruct (stuck_free s g acked Hs Hrun Hstuck) as [Hworker Hbatch].
    split; [|split; [done|split; [by apply (go_idle s (so_going _ _ _ Hs))|split; [done|]]]].
    + intros r x Hr. pose proof (stuck_caller s g acked Hs Hrun Hstuck r x Hr). destruct x; try done. eauto.
    + pose proof (so_lock _ _ _ Hs) as [Htok Hfile _]. pose proof (stuck_others s g acked Hs Hrun Hstuck).
      unfold lockers, openers in *. rewrite Hworker, (stuck_readers s g acked Hs Hrun Hstuck) in *.
      rewrite (total_zero (of_batch batch_locks)) in Htok by (intros b c Hb; unfold of_batch; by rewrite (Hbatch b c Hb)).
      rewrite (total_zero (of_batch batch_opens)) in Hfile by (intros b c Hb; unfold of_batch; by rewrite (Hbatch b c Hb)).
      by destruct (qs_token s), (qs_file s).
Qed.
End Going.
