(* ===== verification/ActivitySample.v ===== *)
(** * ActivitySample: a journal that is written, torn, repaired and read

    A simple encoding of events for which the laws of EventCodec hold, and a
    run of the journal with it, which instantiates the theorems. *)

From S2P Require Import Prelude GoText Durable Binding Metadata ActivityEvent ActivityCalls ActivityView ActivityLog.
From S2P Require Import ActivityLines ActivityLogSpec ActivityViewSpec ActivityStore ActivityStoreSpec.
Local Open Scope Z_scope.

(** A number is written in braces, in binary digits, the lowest first. *)
Definition sample_request : request :=
  mkRequest (blank_event <| ev_Kind := "call.created" |> <| ev_Binding := no_binding <| xs_CallID := "call_1" |> |>) 0 (Some []).
Definition numbered_event (n : nat) : Event := stamped sample_request (Z.of_nat n) [].

Definition zero_digit : ascii := "0".
Definition one_digit : ascii := "1".

Fixpoint positive_digits (p : positive) : list ascii :=
  match p with
  | xH => [one_digit]
  | xO p => zero_digit :: positive_digits p
  | xI p => one_digit :: positive_digits p
  end.
Definition digits (n : Z) : list ascii := match n with Zpos p => positive_digits p | _ => [] end.

Fixpoint closing (l : list ascii) : option N :=
  match l with
  | [] => None
  | a :: l =>
      if Ascii.eqb a zero_digit then N.double <$> closing l
      else if Ascii.eqb a one_digit then N.succ_double <$> closing l
      else if Ascii.eqb a "}" then (if bool_decide (l = []) || bool_decide (l = [newline]) then Some 0%N else None)
      else None
  end.

#[export] Instance sample_codec : EventCodec := mkEventCodec
  (λ e, "{"%char :: digits (ev_Seq e) ++ ["}"%char])
  (λ l, match l with
        | a :: l => if Ascii.eqb a "{" then (λ n, numbered_event (N.to_nat n)) <$> closing l else None
        | [] => None
        end)
  (λ e, ∃ n, e = numbered_event n).

Fixpoint with_digits (l : list ascii) (n : option N) : option N :=
  match l with
  | [] => n
  | a :: l => (if Ascii.eqb a zero_digit then N.double else N.succ_double) <$> with_digits l n
  end.

Lemma closing_positive p l : closing (positive_digits p ++ l) = with_digits (positive_digits p) (closing l).
Proof. induction p as [p IH|p IH|]; cbn; by rewrite ?IH. Qed.
Lemma closing_digits n l : closing (digits n ++ l) = with_digits (digits n) (closing l).
Proof. destruct n as [|p|p]; [done|apply closing_positive|done]. Qed.

Lemma with_positive p : with_digits (positive_digits p) (Some 0%N) = Some (Npos p).
Proof. induction p as [p IH|p IH|]; cbn; by rewrite ?IH. Qed.
Lemma with_numbered n : with_digits (digits (Z.of_nat n)) (Some 0%N) = Some (N.of_nat n).
Proof. destruct n as [|n]; [done|]. change (digits (Z.of_nat (S n))) with (positive_digits (Pos.of_succ_nat n)). by rewrite with_positive. Qed.
Lemma with_none l : with_digits l None = None.
Proof. induction l as [|a l IH]; cbn; [done|]. by rewrite IH. Qed.

(** A part of the digits is not a number. *)
Lemma closing_torn p k : closing (take k (positive_digits p)) = None.
Proof. revert k. induction p as [p IH|p IH|]; intros [|[|k]]; cbn; by rewrite ?IH. Qed.

Lemma digits_digit p a : a ∈ positive_digits p → a = zero_digit ∨ a = one_digit.
Proof. induction p as [p IH|p IH|]; cbn; rewrite ?elem_of_cons, ?elem_of_nil; intuition. Qed.

#[export] Instance sample_codec_laws : EventCodecLaws.
Proof.
  constructor.
  - intros e (n & ->). cbn [decode_event encode_event sample_codec]. change (ev_Seq (numbered_event n)) with (Z.of_nat n).
    change (Ascii.eqb "{" "{") with true. cbn iota. rewrite closing_digits. change (closing ["}"%char]) with (Some 0%N).
    rewrite with_numbered. cbn -[numbered_event]. by rewrite Nat2N.id.
  - intros e. cbn. by rewrite <- app_assoc, !closing_digits.
  - intros e n Hn. cbn in *. rewrite length_app in Hn. cbn in Hn. destruct n as [|n]; [done|]. cbn.
    rewrite take_app_le by lia. by destruct (ev_Seq e); cbn; rewrite ?take_nil, ?closing_torn.
  - intros e. cbn. rewrite elem_of_cons, elem_of_app, list_elem_of_singleton. intros [|[Hd|]]; try done.
    destruct (ev_Seq e); cbn in Hd; [by apply elem_of_nil in Hd| |by apply elem_of_nil in Hd]. by destruct (digits_digit _ _ Hd).
  - intros e. by eexists.
Qed.

Lemma sample_prepared : prepared sample_request.
Proof. split; [reflexivity|]. split; [reflexivity|]. intros seq raw Hseq [= <-]. exists (Z.to_nat seq). unfold numbered_event. by rewrite Z2Nat.id by lia. Qed.

(** Two events fit into a segment, and two segments are kept. *)
Definition sample_options : Options := mkOptions 9 2.

(** The first batch succeeds; the second dies in the middle of a line; the
    third repairs the end of the segment, begins a new one and goes on. *)
Definition batch (requests : list request) := append_batch sample_options 60 requests.
Definition run1 := batch [sample_request; sample_request] no_journal [].
Definition run2 := batch [sample_request] (run_disk run1) [Committed; Committed; Committed; Crashed].
Definition run3 := batch [sample_request; sample_request; sample_request] (run_disk run2) [].
Definition sample_results : list appendResult := match run_outcome run3 with Done r => r.1 | _ => [] end.
Definition sample_acked : list Event := delivered sample_results ++ [numbered_event 1; numbered_event 2].

Lemma sample_run_history : history sample_acked (run_disk run3).
Proof.
  assert (Forall prepared [sample_request; sample_request; sample_request]) as Hreq by (repeat constructor; apply sample_prepared).
  assert (history [numbered_event 1; numbered_event 2] (run_disk run1)) as H1.
  { destruct (run_outcome run1) as [r|e|] eqn:E; [|by vm_compute in E..].
    assert (delivered r.1 = [numbered_event 1; numbered_event 2]) as Er by (vm_compute in E; injection E as <-; reflexivity).
    rewrite <- (app_nil_r [_; _]), <- Er. apply history_append; [constructor|by apply Forall_cons in Hreq as []|done|done|exact E]. }
  assert (history [numbered_event 1; numbered_event 2] (run_disk run2)) as H2.
  { apply history_death; [exact H1|by do 2 apply Forall_cons in Hreq as [_ Hreq]|done|done|reflexivity]. }
  unfold sample_acked, sample_results. destruct (run_outcome run3) as [r|e|] eqn:E; [|by vm_compute in E..].
  apply history_append; [exact H2|done|done|done|exact E].
Qed.

(** What a store that opens this journal knows and finds. *)
Definition sample_files : list Z := [4; 5].
Definition sample_state : sequenceState := match state sample_files (run_disk run3) with Ok st => st | _ => mkSequenceState 0 0 end.
Definition sample_query : Query := mkQuery false "" "" "" "" 0 1.

Lemma sample_segments : segments (run_disk run3) = Ok sample_files.
Proof. vm_compute. reflexivity. Qed.
Lemma sample_known : state sample_files (run_disk run3) = Ok sample_state.
Proof. vm_compute. reflexivity. Qed.
Lemma sample_asks : valid sample_query.
Proof. vm_compute. tauto. Qed.

Theorem acknowledged_events_survive_witness :
  ∃ st, state sample_files (run_disk run3) = Ok st
    ∧ increasing (journal_events sample_files (run_disk run3))
    ∧ ∀ e, e ∈ sample_acked →
        (e ∈ journal_events sample_files (run_disk run3) ∨ ev_Seq e <= sq_PrunedThrough st) ∧ ev_Seq e <= sq_Seq st.
Proof.
  exact (@acknowledged_events_survive sample_codec sample_codec_laws sample_acked (run_disk run3) sample_files
    sample_run_history sample_segments).
Defined.

Theorem query_pages_cover_witness :
  let answer := query_pages (length (journal_events sample_files (run_disk run3))) sample_query (run_disk run3) in
  answer = filter (λ e, asked sample_query (sq_PrunedThrough sample_state) e = true) (journal_events sample_files (run_disk run3))
  ∧ increasing answer
  ∧ (∀ e, e ∈ sample_acked → asked sample_query (sq_PrunedThrough sample_state) e = true → e ∈ answer)
  ∧ ∃ page, run_query sample_query (run_disk run3) = Ok page ∧ (length (jp_Events page) <= limit sample_query)%nat.
Proof.
  exact (@query_pages_cover sample_codec sample_codec_laws sample_acked (run_disk run3) sample_files sample_state sample_query
    sample_run_history sample_segments sample_known sample_asks).
Defined.

(** What is read is not empty, and neither is what is pruned. *)
Lemma sample_answer :
  map ev_Seq (query_pages (length (journal_events sample_files (run_disk run3))) sample_query (run_disk run3)) = [4; 5]
  ∧ sq_PrunedThrough sample_state = 3 ∧ map ev_Seq sample_acked = [3; 4; 5; 1; 2].
Proof. vm_compute. done. Qed.
