(* ===== verification/ActivityQueueSample.v ===== *)
(** * ActivityQueueSample: three Appends, one of which is written

    A schedule of the queue on ActivitySample's encoding, which instantiates the
    theorems on every interleaving. *)

From S2P Require Import Prelude GoText Durable Binding Metadata ActivityEvent ActivityCalls.
From S2P Require Import ActivityLog ActivityLines ActivityLogSpec ActivityRedact ActivityRedactSpec ActivityStore ActivityQueue ActivityQueueSpec ActivityQueueAnswers.
From S2P Require Import ActivityQueueLimits ActivityQueueProgress ActivitySample.
Local Open Scope Z_scope.

#[local] Existing Instance sample_patterns.

(** A state with the answers so far and the acknowledged events. *)
Definition tracked : Type := store * gmap nat appendResult * list Event.

Definition track (a : action) (t : tracked) : option tracked :=
  let '(s, g, acked) := t in
  s' ← step a s; Some (s', handed a s ∪ g, delivered (results a s) ++ acked).

Definition track_all (actions : list action) (t : tracked) : option tracked := foldl (λ t a, t ← t; track a t) (Some t) actions.

Definition reached (t : tracked) : Prop := let '(s, g, acked) := t in reach s g acked.

(** [proper] whatever the state. *)
Definition quiet (a : action) : Prop :=
  match a with
  | WorkWrites _ _ _ _ _ | BatchWrites _ _ _ _ _ _ | ReaderCleans _ _ _ _ _ | OthersClean _ _ _ _ _ | OthersWrite _ _ _ _ => False
  | _ => True
  end.

Lemma track_reached a t t' : reached t → proper a t.1.1 → track a t = Some t' → reached t'.
Proof.
  destruct t as [[s g] acked]. unfold track. intros Ht Hp E. apply bind_Some in E as (s' & Hstep & [= <-]). by eapply reach_step.
Qed.

Lemma track_all_reached actions t t' :
  reached t → Forall quiet actions → track_all actions t = Some t' → reached t'.
Proof.
  intros Ht Hq. revert t Ht. induction Hq as [|a actions Ha Hq IH]; intros t Ht; [by intros [= <-]|].
  unfold track_all. cbn. destruct (track a t) as [t1|] eqn:E.
  - apply IH, (track_reached a t); [done| |done]. by destruct a.
  - intros Hrest. exfalso. clear -Hrest. induction actions as [|a actions IH]; [done|]. by apply IH.
Qed.

(** The context of the second Append ends in the queue, that of the third while
    its batch is about to take the lock. *)
Definition sample_event : Event := rq_Event sample_request.
Definition sample_before : list action :=
  [ReserveAppend 0 3; Take 0 1; Take 0 2; Take 0 3; Enqueue 1 sample_event 0; Enqueue 2 sample_event 0; Enqueue 3 sample_event 0;
   ContextDone 2 "context canceled"; Work; Work; Work; Work; ContextDone 3 "context deadline exceeded"; Abandon 3;
   Work; Work; Work; Work; Work; Work].
Definition sample_write : action := WorkWrites [(0, Some [])] 60 [] 0 0.
Definition sample_after : list action :=
  [Work; Work; Work; Work; Receive 1; Work; Work; Work; Work; Work; Work; RemoveQueued 3; Finish 3; Abandon 2; RemoveQueued 2; Finish 2].

Definition sample_start : tracked := (open_store sample_options (mkRedactor []) 4 131072 no_journal, ∅, []).
Definition sample_middle : tracked := default sample_start (track_all sample_before sample_start).
Definition sample_written : tracked := default sample_start (track sample_write sample_middle).
Definition sample_end : tracked := default sample_start (track_all sample_after sample_written).

Example sample_middle_writes : to_write sample_write sample_middle.1.1 = Some ([1%nat], [sample_request]).
Proof. vm_compute. reflexivity. Qed.

Example sample_end_answers :
  (qs_callers sample_end.1.1 !! 1%nat, qs_callers sample_end.1.1 !! 2%nat, qs_callers sample_end.1.1 !! 3%nat, sample_end.2)
  = (Some (Returned (mkAppendResult (Some (numbered_event 1)) None)),
     Some (Returned (mkAppendResult None (Some "context canceled"))),
     Some (Returned (mkAppendResult None (Some "context deadline exceeded"))), [numbered_event 1]).
Proof. vm_compute. reflexivity. Qed.

Lemma sample_before_quiet : Forall quiet sample_before.
Proof. unfold sample_before. repeat constructor. Qed.

Lemma sample_after_quiet : Forall quiet sample_after.
Proof. unfold sample_after. repeat constructor. Qed.

Lemma sample_start_reached : reached sample_start.
Proof. by apply reach_open; [constructor|..]. Qed.

Lemma sample_middle_reached : reached sample_middle.
Proof. apply (track_all_reached sample_before sample_start); [exact sample_start_reached|exact sample_before_quiet|vm_compute; reflexivity]. Qed.

Lemma sample_written_reached : reached sample_written.
Proof.
  apply (track_reached sample_write sample_middle); [exact sample_middle_reached| |vm_compute; reflexivity].
  split; [done|]. intros ids requests Hids. rewrite sample_middle_writes in Hids. injection Hids as <- <-.
  constructor; [|constructor]. destruct sample_prepared as (_ & _ & Hc). exact Hc.
Qed.

Lemma sample_end_reached : reach sample_end.1.1 sample_end.1.2 sample_end.2.
Proof.
  assert (reached sample_end) as He.
  { apply (track_all_reached sample_after sample_written); [exact sample_written_reached|exact sample_after_quiet|vm_compute; reflexivity]. }
  by destruct sample_end as [[s g] acked].
Qed.

Theorem appends_answered_truly_witness :
  history sample_end.2 (qs_journal sample_end.1.1)
  ∧ (∀ r res, qs_callers sample_end.1.1 !! r = Some (Returned res) →
       match sample_end.1.2 !! r with Some answer => res = answer | None => ar_event res = None ∧ is_Some (ar_err res) end)
  ∧ (∀ r answer e, sample_end.1.2 !! r = Some answer → ar_event answer = Some e →
       e ∈ sample_end.2 ∧ ∃ q now random, qs_requests sample_end.1.1 !! r = Some q ∧ answers (mkRequest (aq_event q) now random) e)
  ∧ ∀ a s' r, step a sample_end.1.1 = Some s' → is_Some (handed a sample_end.1.1 !! r) →
      sample_end.1.2 !! r = None ∧ (∀ res, qs_callers sample_end.1.1 !! r ≠ Some (Returned res))
      ∧ ¬ request_is sample_end.1.1 r (λ q, aq_cancelled q = true).
Proof. exact (@appends_answered_truly sample_codec sample_patterns sample_codec_laws _ _ _ sample_end_reached). Defined.

Theorem append_budget_kept_witness :
  let stats := qs_stats sample_end.1.1 in
  0 <= as_ReservedEvents stats <= as_EventLimit stats
  ∧ as_ReservedBytes stats = as_ReservedEvents stats * MaxEventBytes ∧ as_ReservedBytes stats <= as_ByteLimit stats
  ∧ Z.of_nat (length (qs_queue sample_end.1.1)) <= as_ReservedEvents stats
  ∧ ((∀ r c, qs_callers sample_end.1.1 !! r = Some c → returned c = true) →
     (∀ b c, qs_batches sample_end.1.1 !! b = Some c → bc_phase c = BReturned) →
     (∀ v n, qs_reservations sample_end.1.1 !! v = Some n → n = 0) → qs_closing sample_end.1.1 = [] → as_ReservedEvents stats = 0).
Proof. exact (@append_budget_kept sample_codec sample_codec_laws sample_patterns _ _ _ sample_end_reached). Defined.

Theorem one_writer_witness :
  qs_status sample_end.1.1 ≠ Panicked
  ∧ lockers sample_end.1.1 = flag (negb (qs_token sample_end.1.1))
  ∧ openers sample_end.1.1 = match qs_file sample_end.1.1 with Ours => 1 | _ => 0 end
  ∧ ∀ a s', step a sample_end.1.1 = Some s' → qs_journal s' ≠ qs_journal sample_end.1.1 →
      match a with
      | WorkWrites _ _ _ _ _ => qs_file sample_end.1.1 = Ours ∧ ∃ w, qs_worker sample_end.1.1 = Some w ∧ worker_opens (wk_phase w) = true
      | BatchWrites b _ _ _ _ _ => qs_file sample_end.1.1 = Ours ∧ ∃ c, qs_batches sample_end.1.1 !! b = Some c ∧ batch_opens (bc_phase c) = true
      | ReaderCleans _ _ _ _ _ => qs_file sample_end.1.1 = Ours ∧ head (qs_readers sample_end.1.1) = Some true
      | OthersWrite _ _ _ _ | OthersClean _ _ _ _ _ => qs_file sample_end.1.1 = Others ∧ openers sample_end.1.1 = 0
      | _ => False
      end.
Proof. exact (@one_writer sample_codec sample_codec_laws sample_patterns _ _ _ sample_end_reached). Defined.

(** At the end nothing is left to do. *)
Theorem appends_complete_witness :
  left_to_do sample_end.1.1 = 0
  ∧ (∀ actions s', Forall (λ a, own a = true) actions → exec actions sample_end.1.1 = Some s' → count actions <= left_to_do sample_end.1.1)
  ∧ (qs_status sample_end.1.1 = Running → ¬ can_go sample_end.1.1 →
     (∀ r x, qs_callers sample_end.1.1 !! r = Some x → ∃ res, x = Returned res)
     ∧ (∀ b c, qs_batches sample_end.1.1 !! b = Some c → bc_phase c = BReturned)
     ∧ qs_queue sample_end.1.1 = [] ∧ qs_worker sample_end.1.1 = None ∧ qs_token sample_end.1.1 = true ∧ qs_file sample_end.1.1 = Nobody).
Proof. split; [vm_compute; reflexivity|]. exact (@appends_complete sample_codec sample_codec_laws sample_patterns _ _ _ sample_end_reached). Defined.
